(* ===== verification/_CoqProject ===== *)
-Q . S2P
Prelude.v
GoStrings.v
WriteQueue.v
ParallelIO.v
OrderedMap.v
PgSchema.v
Decode.v
CircuitBreaker.v
PgWal.v
LSNTracker.v
LSNSystem.v
BufferedListener.v
ListenerSpec.v
ListenerSystem.v
ListenerSamples.v
Replicator.v
ReplicatorSystem.v
ReplicatorSamples.v
RedisCommand.v
Metrics.v
RedisWriter.v
SQSMapper.v
SQSWriter.v
Shutdown.v
SnapshotPlan.v
RedisConfig.v
SnapshotWorker.v
SnapshotProgress.v
SnapshotSystem.v
SnapshotManager.v
SnapshotPool.v
SnapshotQueries.v
License.v
LicenseIssue.v
Migrator.v
Connector.v
ConnString.v
JSONListener.v
OffsetTracker.v
Runner.v
AppOptions.v
Startup.v
Positions.v
Restart.v
