(* ===== verification/Prelude.v ===== *)
(** * Verification of pglogrepl2json

    pglogrepl2json reads the logical replication stream of a PostgreSQL
    database and writes the changed rows to a downstream store (Redis or SQS).
    The program's promise is at-least-once delivery: the position it
    acknowledges to PostgreSQL must never pass a change that the store has not
    confirmed, since PostgreSQL then forgets the change.

    ** The parts of the program

    Replication messages arrive at the buffered listener
    (src/pg2buffer/buffered_listener.go).  It decodes the tuples of a row
    (src/jsonparsing) into an ordered map (src/orderedmap, src/keymap, rows
    recycled by src/entrypool), keeps the changes of each open transaction in a
    list with one entry per row (the key of a row is built by
    src/pgschema/pgschema.go), and on commit hands them as one write request
    (src/pgwal) to the LSN tracker (src/pg2buffer/pglsntracker).  The tracker
    keeps the requests in a queue ordered by LSN (src/writequeue) and a second
    queue of writes that are ready; the write pipeline pops from there and
    gives the rows to a writer.  The Redis writer (src/pg2redis) turns each row
    into commands, collects rows into batches and flushes them in parallel
    (src/parallelio); its answers go back to the tracker, which acknowledges
    offsets, schedules retries, gives up, or starts a coordinated shutdown.
    The SQS writer (src/pg2sqs) does the same with a queue per table.  The
    replicator (src/replicator) reads the connection, hands the messages to the
    listener, reports the acknowledged position of the tracker to PostgreSQL,
    and gives it to two stores, the table of src/appstate and the listener's
    own one, from which the next start of the program continues.

    Before the replication, the program checks its licence
    (src/licensemanager), brings the publication and the slot in line with its
    configuration (src/pgschema/migrator, src/pg2redis/redisconfig), and may
    send a snapshot of the tables (src/snapshot) through the same trackers and
    writers (src/pg2runner).

    ** The files

    - [Prelude]: results of Go functions (value, error, panic, end of the
      process), machine integers with their wrap-around, sums over lists, hint
      databases and tactics.
    - [GoStrings]: the functions of Go's [strings] package that are used.
    - [WriteQueue]: src/writequeue/write_queue.go.  [Linked] is the doubly
      linked queue on a heap of nodes, [Spec] a list queue, [Repr] the
      abstraction, [Runs] programs of calls, [SortedQueue] the sorted insertion
      and [Monitor] the mutex and the condition variable as steps of threads.
    - [OrderedMap]: src/keymap ([KeyMap], [Arena]), src/orderedmap ([OMap]) and
      src/entrypool ([Pool], rows as objects of a store).
    - [PgSchema]: tables, columns, row keys and the reading of publications
      (src/pgschema/pgschema.go, src/config/table_config.go).
    - [Decode]: src/jsonparsing and src/jsonparsing/decode.
    - [CircuitBreaker]: src/circuitbreaker, with the time of each call as data.
    - [PgWal]: src/pgwal, requests and responses.
    - [LSNTracker]: src/pg2buffer/pglsntracker; [Tracked] is one tracked
      request, [Tracker] the tracker's methods, [TInv] its invariant.
    - [LSNSystem]: the tracker under its concurrent callers; a step is one
      critical section of the code ([System.step], [System.run]).
    - [BufferedListener]: src/pg2buffer/buffered_listener.go; [TxList] is the
      list with an index of one transaction, [Listener] the handlers.  The
      listener is written against the class [WriteSink], the promise of
      whatever receives its requests.
    - [ListenerSpec]: an abstract machine of transactions and the refinement of
      the listener to it, for every instance of [WriteSink].
    - [ListenerSystem]: the listener on the tracker (an instance of
      [WriteSink]), with the tracker's other callers interleaved.
    - [ListenerSamples]: concrete runs of the listener.
    - [ParallelIO]: src/parallelio, the flushers that work side by side.
    - [Replicator]: src/replicator/pg_replicator.go; the loops of its
      goroutines as steps ([rstep]) on a state that says where each one is.
      The replicator is written against the class [ReplicationListener].
    - [ReplicatorSystem]: the replicator on the listener on the tracker, an
      instance of that class; [ReplicatorSamples]: concrete runs.
    - [RedisCommand]: src/pg2redis/redis_command.go and the building of
      commands of src/pg2redis/redis_writer.go.
    - [Metrics]: src/pg2stats and the statistics of the parts; [Counters] are
      the labelled counters under their lock, as steps of goroutines, [Labels]
      their labels, [Names] the metrics and the fields that are listed.
    - [RedisWriter]: src/pg2redis/condition/evaluator.go ([Condition]), the
      commands of a row ([Dynamic]), batches ([Batch]) and the worker with its
      flushers ([Worker]).
    - [RedisConfig]: src/pg2redis/redisconfig/redis_config.go, from the values
      of a configuration to the columns that are read.
    - [SQSMapper]: src/pg2sqs/queuemapper, the queues with their ids;
      [SQSWriter]: messages ([Message]), flushes ([Flush]) and the worker with
      its queues ([Queues]).
    - [Shutdown]: the graceful shutdown of a writer: the worker, the flushers
      and the call that ends them as steps ([Shutdown.Shutdown]), against the
      class [BatchWriter], of which both writers are instances, and the
      shutdown of the listener ([ListenerShutdown]).
    - [SnapshotPlan]: the configuration of a snapshot, its queries and the
      ranges of a table; [SnapshotWorker]: a task with its batches, and the
      numbers of the batches ([Numbers]); [SnapshotProgress]: the progress
      tracker, the stored states ([Store]) and the reports; [SnapshotSystem]:
      the workers on the LSN tracker; [SnapshotManager]: the dispatching loop
      and a whole snapshot ([Manager]); [SnapshotPool]: the loop and the workers
      side by side, on a channel of tasks; [SnapshotQueries]: what the database
      is asked about sizes and row ids, the connection of the saved states and
      the fields of the statistics.  These model src/snapshot.
    - [License]: base 62, the binary form and the verification of licences
      (src/licensemanager); [LicenseIssue]: the reading of dates and the
      commands that issue and check licences.
    - [Migrator]: src/pgschema/migrator/pgpub_migrator.go, on a database that
      is an argument.
    - [Connector]: src/config/conn.go, src/config/pgconfig and
      src/pgschema/pgconnector, the servers and the choice of the primary one;
      [ConnString]: the connection strings, as they are printed and read.
    - [JSONListener]: src/listeners/listener_json.go, a second listener, which
      turns messages into JSON documents.
    - [OffsetTracker]: src/offsettracker/offset_tracker.go, which the programs
      do not use.
    - [Runner]: src/pg2runner/app_runner.go, the start as a list of actions in
      their order.
    - [AppOptions]: flush options, retry policies with their waiting times
      (src/config/appconfig, src/circuitbreaker/retry_config.go), the tables of
      an SQS configuration (src/pg2sqs/sqsconfig) and what the listeners of the
      two programs are started with.
    - [Startup]: the order in which files and the environment are read, the
      options of the Redis client, the replication connection that is made anew,
      and the JSON of floating-point numbers.
    - [Positions]: where positions are kept between runs: the table of
      src/appstate ([AppStates]), the keys of Redis ([RedisPositions]), and both
      listeners as instances of the class [PositionListener] with its laws
      ([Keepers]); the closing of a slot's snapshot ([Once]).
    - [Restart]: the end of a run and the next start, composed of the
      replicator's system, the stores and the choice of the start position.

    ** How code is modelled

    Functions keep the names of the source.  A Go function that fails returns a
    [res]; state is passed explicitly; a map is a [gmap], and where the order
    of its iteration could matter the order is an argument.  Pointers that are
    shared are addresses of a store: the nodes of the queue, the rows of the
    pool, the tracked requests ([tws]).  Loops over linked nodes take as fuel
    the number of nodes ever allocated; [Runs.queue_programs_refine] shows that
    this is enough on every reachable queue.  The loop of [PopReady] takes the
    length of the ready queue, and [LSNSystem.System.pop_blocks_only_when_drained]
    shows that it then returns an item or blocks as the code does.  The loops
    that split a table into ranges of row ids take as fuel the number of blocks
    ([split_fuel]); that the ranges then cover the table is a lemma of
    [SnapshotPlan], and a loop that runs out gives no ranges at all.  Maps with
    the keys 0, 1, 2, ... are read with their number of entries as fuel
    ([numbered], [env_commands]); a number has at most as many digits as bits
    ([Base62.digits]).
    Code outside the repository is an argument: JSON encoding, the codecs of
    [pgtype], formatting of floats and other values, the timing wheel, the
    random backoff, bitmaps (a class with their laws), cryptography, the
    parsing of durations and of connection strings, and what PostgreSQL, Redis
    and SQS answer.  For Redis and the table of positions what is documented of
    them is stated as the laws of a class ([KVLaws], [PGLaws]), with an instance
    in which calls fail, also after they have been carried out.

    ** What is shown

    - Restarts: the next start does not pass the end of a transaction that has
      an open row, whenever the program ended and whatever became of its calls,
      when no other program writes its stores ([restart_loses_nothing]); the
      position of a snapshot is remembered ([snapshot_remembered]).
    - Delivery, from the position that is reported to PostgreSQL back to the
      rows that were cached under the transaction's own id (rows streamed under
      a subtransaction's id are left out, [ListenerSamples.subtransaction_left_out]):
      [reported_transaction_delivered] composes the replicator
      ([reports_follow_listener], [failed_message_not_skipped],
      [standby_timing]), the listener's refinement
      ([listener_sends_transactions], [request_one_entry_per_row],
      [relation_rows_exact]) and the tracker's invariant ([tracker_invariant],
      [max_acknowledged_is_prefix]).
    - Progress: all failed entries of a response are retried, given up or end in a
      shutdown
      ([failed_offset_not_forgotten]), queued writes reach the consumer
      ([pop_blocks_only_when_drained], [no_lost_wakeup]), and both writers
      answer for every row ([writer_answers_every_row],
      [sqs_queues_in_order], and [sqs_flush_answers_every_row] with the
      responses that end the process; the lemmas
      [flush_answers_every_row], [sqs_write_leaves_no_row] and
      [requests_handled_once] are their parts); what a shutdown of a writer ends
      in is [writer_shutdown], and [counters_exact] is about the counters that
      all goroutines share.
    - Data: rows are read exactly ([read_tuple_exact]), the ordered map is a
      finite map ([ordered_map_refines]), recycled rows are clean
      ([pool_rows_exclusive_and_clean]), keys identify rows
      ([create_pk_identifies_row]), commands are what their patterns say
      ([build_command_exact], [template_expands]), conditions follow
      three-valued logic (lemma [condition_sql]), and the JSON listener sends the
      documents of its messages ([json_stream_exact]).
    - Refinement of the optimised queue: [queue_programs_refine].
    - Snapshots: each row is dispatched and read once, when the estimates count
      all blocks ([snapshot_dispatches_each_row_once],
      [snapshot_reads_each_row_once], [range_sends_every_row]), a snapshot waits
      for its rows
      ([snapshot_waits_for_rows]), progress is exact
      ([table_completed_exactly]) and survives a restart
      ([snapshot_position_saved_at_end], lemma
      [restart_keeps_completed_tables]), and configurations are checked
      ([snapshot_config_validated]).
    - The start: [replication_started_in_order], [publication_migrated],
      [connector_follows_primary], [accepted_configuration_reads_columns] and
      [issued_license_days]; the lemmas [connection_string_read],
      [repl_conn_primary] and [redis_options_read] are about what connections
      are made with.
    - The circuit breaker: [breaker_states_justified]; the retry wheel:
      [retry_delay_bounds]; the offset tracker: lemma [offset_tracker_exact].

    The examples in the [Samples] modules and in [ListenerSamples] run the
    definitions on concrete inputs, among them the inputs on which the code
    does something that its users may not expect.

    ** What is not modelled

    Logging and the loops that print statistics; the text of SQL statements
    that only ask the database (their answers are arguments) and the connections
    themselves; the reading of files and of command lines, what the
    configuration library makes of them, and the wiring of the parts at the
    start; the JSON form of licences in detail and their cryptography; the
    clients of Redis and SQS; the unused checkpoint manager; the example programs
    and the support of the tests. *)

From stdpp Require Import base numbers list gmap strings pretty sorting.
#[global] Open Scope Z_scope.

(** ** Results of Go functions

    A Go function that may fail returns one of four outcomes: a value, an
    [error] value, a run-time panic (nil dereference, index out of range,
    explicit [panic]) or the end of the process ([logger.Fatal]). *)

Inductive goerr : Type :=
| GoErr (msg : string)
| GoWrap (msg : string) (inner : goerr)
| GoJoin (a b : goerr).

(** [err.Error()] *)
Fixpoint error_text (e : goerr) : string :=
  match e with
  | GoErr m => m
  | GoWrap m i => m +:+ ": " +:+ error_text i
  | GoJoin a b => error_text a +:+ String (Ascii.ascii_of_nat 10) (error_text b)
  end.

(** [errors.Is(err, target)] for a sentinel error, named by its text. *)
Fixpoint errors_Is (e : goerr) (target : string) : bool :=
  match e with
  | GoErr m => bool_decide (m = target)
  | GoWrap _ i => errors_Is i target
  | GoJoin a b => errors_Is a target || errors_Is b target
  end.

Inductive res (A : Type) : Type :=
| Ok (a : A)
| Err (e : goerr)
| Panic (msg : string)
| Fatal (msg : string).
Arguments Ok {_} _.
Arguments Err {_} _.
Arguments Panic {_} _.
Arguments Fatal {_} _.

#[global] Instance res_ret : MRet res := @Ok.
#[global] Instance res_bind : MBind res := λ A B f m,
  match m with
  | Ok a => f a
  | Err e => Err e
  | Panic s => Panic s
  | Fatal s => Fatal s
  end.

Definition is_Ok {A} (r : res A) : Prop := ∃ a, r = Ok a.

Lemma res_bind_Ok {A B} (m : res A) (f : A → res B) b :
  m ≫= f = Ok b ↔ ∃ a, m = Ok a ∧ f a = Ok b.
Proof.
  destruct m; split; try (by intros [? [? ?]]); try done.
  - intros ?. eauto.
  - intros (? & [= <-] & ?). done.
Qed.

(** ** Machine integers

    Go's fixed-width integers are integers in [Z]; an operation that may leave
    the range is followed by the wrap-around of its type. *)

Definition two32 : Z := 4294967296.
Definition two64 : Z := 18446744073709551616.
Definition two63 : Z := 9223372036854775808.

Definition u32 (z : Z) : Z := z `mod` two32.
Definition u64 (z : Z) : Z := z `mod` two64.
Definition i64 (z : Z) : Z := (z + two63) `mod` two64 - two63.

Lemma u64_range z : 0 ≤ u64 z < two64.
Proof. unfold u64, two64. apply Z.mod_pos_bound. lia. Qed.

Lemma u32_range z : 0 ≤ u32 z < two32.
Proof. unfold u32, two32. apply Z.mod_pos_bound. lia. Qed.

Lemma u64_small z : 0 ≤ z < two64 → u64 z = z.
Proof. apply Z.mod_small. Qed.

Lemma u32_small z : 0 ≤ z < two32 → u32 z = z.
Proof. apply Z.mod_small. Qed.

Lemma i64_small z : - two63 ≤ z < two63 → i64 z = z.
Proof. intros. unfold i64. rewrite Z.mod_small; unfold two63, two64 in *; lia. Qed.

Lemma u64_add_l a b : u64 (u64 a + b) = u64 (a + b).
Proof. unfold u64. by rewrite Zplus_mod_idemp_l. Qed.

Lemma u64_add_r a b : u64 (a + u64 b) = u64 (a + b).
Proof. unfold u64. by rewrite Zplus_mod_idemp_r. Qed.

Lemma u64_sub_l a b : u64 (u64 a - b) = u64 (a - b).
Proof. unfold u64. by rewrite Zminus_mod_idemp_l. Qed.

(** ** Sums over lists *)

Definition sum_Z {A} (f : A → Z) (l : list A) : Z :=
  foldr (λ x acc, f x + acc) 0 l.

Lemma sum_Z_nil {A} (f : A → Z) : sum_Z f [] = 0.
Proof. done. Qed.

Lemma sum_Z_cons {A} (f : A → Z) x l : sum_Z f (x :: l) = f x + sum_Z f l.
Proof. done. Qed.

#[global] Arguments sum_Z : simpl never.

Lemma sum_Z_app {A} (f : A → Z) l1 l2 :
  sum_Z f (l1 ++ l2) = sum_Z f l1 + sum_Z f l2.
Proof.
  induction l1 as [|x l1 IH]; simpl; [done|]. rewrite !sum_Z_cons, IH. lia.
Qed.

Lemma sum_Z_singleton {A} (f : A → Z) x : sum_Z f [x] = f x.
Proof. rewrite sum_Z_cons, sum_Z_nil. lia. Qed.

Lemma sum_Z_nonneg {A} (f : A → Z) l :
  (∀ x, x ∈ l → 0 ≤ f x) → 0 ≤ sum_Z f l.
Proof.
  induction l as [|x l IH]; [done|]. intros H. rewrite sum_Z_cons.
  pose proof (H x ltac:(set_solver)).
  assert (0 ≤ sum_Z f l) by (apply IH; set_solver). lia.
Qed.

Lemma sum_Z_ext {A} (f g : A → Z) l :
  (∀ x, x ∈ l → f x = g x) → sum_Z f l = sum_Z g l.
Proof.
  induction l as [|x l IH]; [done|]. intros H. rewrite !sum_Z_cons.
  rewrite H by set_solver. rewrite IH; [done|]. set_solver.
Qed.

#[global] Instance sum_Z_Permutation {A} (f : A → Z) :
  Proper ((≡ₚ) ==> eq) (sum_Z f).
Proof. induction 1; rewrite ?sum_Z_cons; lia. Qed.

(** ** Splitting a list at the first element that satisfies a test *)

Fixpoint span {A} (p : A → bool) (l : list A) : list A * list A :=
  match l with
  | [] => ([], [])
  | x :: r => if p x then let '(a, b) := span p r in (x :: a, b) else ([], l)
  end.

Lemma span_app {A} (p : A → bool) l : (span p l).1 ++ (span p l).2 = l.
Proof.
  induction l as [|x l IH]; simpl; [done|].
  destruct (p x); [|done]. destruct (span p l) as [a b]; simpl in *. by f_equal.
Qed.

Lemma span_spec {A} (p : A → bool) l1 l2 :
  Forall (λ x, p x = true) l1 → Forall (λ x, p x = false) l2 →
  span p (l1 ++ l2) = (l1, l2).
Proof.
  induction 1 as [|x l1 Hx _ IH]; intros H2; simpl.
  - destruct H2 as [|y l2 Hy H2]; simpl; [done|]. by rewrite Hy.
  - by rewrite Hx, IH.
Qed.

(** A test that, once true, stays true along the list. *)
Definition upward {A} (p : A → bool) (l : list A) : Prop :=
  ∀ l1 x l2 y l3, l = l1 ++ x :: l2 ++ y :: l3 → p x = true → p y = true.

Lemma upward_tail {A} (p : A → bool) x l : upward p (x :: l) → upward p l.
Proof. intros H l1 y l2 z l3 ->. apply (H (x :: l1) y l2 z l3). done. Qed.

Lemma upward_Forall {A} (p : A → bool) x l :
  upward p (x :: l) → p x = true → Forall (λ y, p y = true) l.
Proof.
  intros H Hx. apply Forall_forall. intros y Hy.
  apply list_elem_of_split in Hy as (l2 & l3 & ->).
  by apply (H [] x l2 y l3).
Qed.

Lemma upward_split {A} (p : A → bool) l :
  upward p l →
  ∃ l1 l2, l = l1 ++ l2 ∧ Forall (λ x, p x = false) l1 ∧ Forall (λ x, p x = true) l2.
Proof.
  induction l as [|x l IH]; intros H.
  - by exists [], [].
  - destruct (p x) eqn:Hx.
    + exists [], (x :: l). split_and!; [done|constructor|].
      constructor; [done|]. by apply (upward_Forall p x l).
    + destruct IH as (l1 & l2 & -> & ? & ?); [by apply upward_tail in H|].
      exists (x :: l1), l2. split_and!; [done| |done]. by constructor.
Qed.

Lemma snoc_inv {A} (l : list A) : l ≠ [] → ∃ l' x, l = l' ++ [x].
Proof. destruct l as [|x l _] using rev_ind; [done|eauto]. Qed.

Lemma filter_all {A} (P : A → Prop) `{∀ x, Decision (P x)} (l : list A) :
  Forall P l → filter P l = l.
Proof. induction 1 as [|x l Hx _ IH]; [done|]. rewrite filter_cons_True by done. by rewrite IH. Qed.

Lemma filter_none {A} (P : A → Prop) `{∀ x, Decision (P x)} (l : list A) :
  Forall (λ x, ¬ P x) l → filter P l = [].
Proof. induction 1 as [|x l Hx _ IH]; [done|]. by rewrite filter_cons_False. Qed.

Lemma StronglySorted_filter {A} (R : A → A → Prop) (P : A → Prop) `{∀ x, Decision (P x)} (l : list A) :
  StronglySorted R l → StronglySorted R (filter P l).
Proof.
  induction 1 as [|x l Hs IH Hx]; [constructor|].
  rewrite filter_cons. case_decide; [|done]. constructor; [done|].
  apply Forall_forall. intros y Hy%list_elem_of_filter.
  rewrite Forall_forall in Hx. apply Hx, Hy.
Qed.

Lemma StronglySorted_mono {A} (R S : A → A → Prop) (l : list A) :
  (∀ x y, R x y → S x y) → StronglySorted R l → StronglySorted S l.
Proof.
  intros H. induction 1 as [|x l _ IH Hx]; constructor; [done|].
  eapply Forall_impl; [exact Hx|]. auto.
Qed.

Lemma fmap_singleton_eq {A B} (f : A → B) l y : [y] = f <$> l → ∃ x, l = [x] ∧ y = f x.
Proof. destruct l as [|x [|]]; [done| |done]. intros [= ->]. by exists x. Qed.

(** ** Automation

    [go_wrap] rewrites with the laws of the wrap-around, [go_bounds] holds the
    ranges of machine integers and the sums of sizes. *)

Create HintDb go_bounds.
#[export] Hint Resolve u32_range u64_range sum_Z_nonneg : go_bounds.
#[export] Hint Rewrite u64_add_l u64_add_r u64_sub_l : go_wrap.
#[export] Hint Rewrite @sum_Z_nil @sum_Z_cons @sum_Z_app @sum_Z_singleton : go_sums.

(** Goals about division and remainder by constants. *)
Ltac euclid := Z.to_euclidean_division_equations; lia.

(** One step of a bind whose first result is known. *)
Ltac res_step := cbn [mbind res_bind].

(** Equalities of nested concatenations. *)
Ltac app_assoc := by rewrite <- ?(assoc_L (++)).
