(* ===== verification/GoStrings.v ===== *)
(** * Go strings

    A Go string is a sequence of bytes, here a [string] of 8-bit characters.
    This file has the functions of Go's [strings] package the program uses, on
    bytes, with their equations:
    - [HasPrefix], [CutPrefix], [Contains], [Split], [ReplaceAll];
    - [ToUpper] and [EqualFold] on ASCII letters (the program applies them to
      ASCII keywords; other letters are left alone). *)

From stdpp Require Import base numbers list strings sets.
From S2P Require Import Prelude.

Lemma string_app_cons c s1 s2 : String c s1 +:+ s2 = String c (s1 +:+ s2).
Proof. done. Qed.
Lemma string_app_nil s : EmptyString +:+ s = s.
Proof. done. Qed.

#[global] Instance string_app_assoc : Assoc (=) String.append.
Proof.
  intros s1 s2 s3. induction s1 as [|c s1 IH]; [done|].
  rewrite !string_app_cons. by rewrite IH.
Qed.
#[global] Instance string_app_left : LeftId (=) EmptyString String.append.
Proof. done. Qed.
#[global] Instance string_app_right : RightId (=) EmptyString String.append.
Proof. intros s. induction s as [|c s IH]; [done|]. rewrite string_app_cons. by rewrite IH. Qed.

Lemma string_length_app s1 s2 :
  String.length (s1 +:+ s2) = (String.length s1 + String.length s2)%nat.
Proof. induction s1 as [|c s1 IH]; [done|]. rewrite string_app_cons. simpl. by rewrite IH. Qed.

(** [s] as a list of bytes and back. *)
Fixpoint to_list (s : string) : list Ascii.ascii :=
  match s with EmptyString => [] | String c r => c :: to_list r end.

Lemma to_list_app s1 s2 : to_list (s1 +:+ s2) = to_list s1 ++ to_list s2.
Proof. induction s1 as [|c s1 IH]; [done|]. rewrite string_app_cons. simpl. by rewrite IH. Qed.

Lemma to_list_inj s1 s2 : to_list s1 = to_list s2 → s1 = s2.
Proof.
  revert s2. induction s1 as [|c s1 IH]; intros [|d s2]; simpl; try done.
  intros [= -> ?]. by rewrite (IH s2).
Qed.

(** [strings.CutPrefix]: what follows the prefix, if it is one. *)
Fixpoint cut_prefix (p s : string) : option string :=
  match p, s with
  | EmptyString, _ => Some s
  | String a p, String b s => if decide (a = b) then cut_prefix p s else None
  | String _ _, EmptyString => None
  end.

Definition HasPrefix (s p : string) : bool := bool_decide (is_Some (cut_prefix p s)).

Lemma cut_prefix_Some p s r : cut_prefix p s = Some r ↔ s = p +:+ r.
Proof.
  revert s. induction p as [|a p IH]; intros s; simpl.
  { rewrite string_app_nil. naive_solver. }
  rewrite string_app_cons. destruct s as [|b s]; [naive_solver|].
  case_decide; [subst; rewrite IH|]; naive_solver.
Qed.

Lemma cut_prefix_app p r : cut_prefix p (p +:+ r) = Some r.
Proof. by apply cut_prefix_Some. Qed.

Lemma HasPrefix_app p r : HasPrefix (p +:+ r) p = true.
Proof. unfold HasPrefix. rewrite cut_prefix_app. by apply bool_decide_true. Qed.

(** [strings.CutSuffix] *)
Fixpoint cut_suffix (s suf : string) : option string :=
  if decide (s = suf) then Some EmptyString
  else match s with
       | EmptyString => None
       | String c r => String c <$> cut_suffix r suf
       end.
Definition HasSuffix (s suf : string) : bool := bool_decide (is_Some (cut_suffix s suf)).

Lemma cut_suffix_app s suf : suf ≠ EmptyString → cut_suffix (s +:+ suf) suf = Some s.
Proof.
  intros Hne. induction s as [|c s IH].
  - rewrite string_app_nil. destruct suf; [done|]. cbn [cut_suffix]. by rewrite decide_True.
  - rewrite string_app_cons. cbn [cut_suffix]. rewrite decide_False, IH; [done|].
    intros E. apply (f_equal String.length) in E. rewrite <- string_app_cons, string_length_app in E. simpl in E. lia.
Qed.


Lemma cut_suffix_Some s suf p : cut_suffix s suf = Some p → s = p +:+ suf.
Proof.
  revert p. induction s as [|c s IH]; intros p; cbn [cut_suffix].
  - case_decide; [|done]. subst. by intros [= <-].
  - case_decide; [subst; by intros [= <-]|]. intros (q & Hq & ->)%fmap_Some. rewrite string_app_cons. by rewrite <- (IH q Hq).
Qed.

Lemma HasSuffix_app s suf : suf ≠ EmptyString → HasSuffix (s +:+ suf) suf = true.
Proof. intros H. unfold HasSuffix. rewrite cut_suffix_app by done. by apply bool_decide_true. Qed.

Lemma HasSuffix_true s suf : HasSuffix s suf = true → ∃ p, s = p +:+ suf.
Proof. unfold HasSuffix. rewrite bool_decide_eq_true. intros [p Hp]. exists p. by apply cut_suffix_Some. Qed.

(** [strings.Split] with a one-byte separator. *)
Fixpoint split_byte (sep : Ascii.ascii) (s : string) : list string :=
  match s with
  | EmptyString => [EmptyString]
  | String c r =>
      if decide (c = sep) then EmptyString :: split_byte sep r
      else match split_byte sep r with
           | [] => [String c EmptyString]
           | h :: t => String c h :: t
           end
  end.

Definition has_byte (c : Ascii.ascii) (s : string) : bool := bool_decide (c ∈ to_list s).

Lemma has_byte_app a s t : has_byte a (s +:+ t) = has_byte a s || has_byte a t.
Proof.
  unfold has_byte. rewrite to_list_app.
  destruct (decide (a ∈ to_list s)) as [H|H].
  - rewrite !(bool_decide_true (a ∈ to_list s)) by done. apply bool_decide_true, elem_of_app. by left.
  - rewrite (bool_decide_false (a ∈ to_list s)) by done. simpl. apply bool_decide_ext. rewrite elem_of_app. tauto.
Qed.

Lemma split_byte_nonempty sep s : split_byte sep s ≠ [].
Proof. destruct s as [|c r]; simpl; [done|]. case_decide; [done|]. by destruct (split_byte sep r). Qed.

Lemma split_byte_none sep s : has_byte sep s = false → split_byte sep s = [s].
Proof.
  unfold has_byte. rewrite bool_decide_eq_false.
  induction s as [|c r IH]; simpl; [done|]. intros Hn.
  case_decide; [set_solver|]. rewrite IH by set_solver. done.
Qed.

Lemma split_byte_app sep s r :
  has_byte sep s = false →
  split_byte sep (s +:+ String sep r) = s :: split_byte sep r.
Proof.
  unfold has_byte. rewrite bool_decide_eq_false.
  induction s as [|c s IH]; intros Hn.
  - rewrite string_app_nil. simpl. by rewrite decide_True by done.
  - rewrite string_app_cons. simpl in *. rewrite decide_False by set_solver. rewrite IH by set_solver. done.
Qed.

(** Joining the parts gives the string back. *)
Lemma split_byte_concat sep s :
  String.concat (String sep EmptyString) (split_byte sep s) = s.
Proof.
  induction s as [|c r IH]; simpl; [done|].
  pose proof (split_byte_nonempty sep r) as Hne.
  case_decide as Hc; [subst|]; destruct (split_byte sep r) as [|h [|h' t]]; simpl in *; try done;
    by rewrite <- IH.
Qed.

(** Occurrences of a string, left to right without overlap: the parts between
    them ([strings.Split] with a longer separator). *)
Fixpoint split_at (sep s : string) (skip : nat) (cur : string) : list string :=
  match s with
  | EmptyString => [cur]
  | String c r =>
      match skip with
      | S skip => split_at sep r skip cur
      | O => if HasPrefix s sep then cur :: split_at sep r (pred (String.length sep)) EmptyString
             else split_at sep r 0 (cur +:+ String c EmptyString)
      end
  end.
Definition Split (s sep : string) : list string := split_at sep s 0 EmptyString.

(** [strings.ReplaceAll] for a non-empty [old]. *)
Definition ReplaceAll (s old new : string) : string := String.concat new (Split s old).

Fixpoint Contains (s sub : string) : bool :=
  HasPrefix s sub || match s with EmptyString => false | String _ r => Contains r sub end.

(** ASCII case. *)
Definition upper_byte (c : Ascii.ascii) : Ascii.ascii :=
  let n := Ascii.nat_of_ascii c in
  if ((97 <=? n) && (n <=? 122))%nat then Ascii.ascii_of_nat (n - 32) else c.
Fixpoint ToUpper (s : string) : string :=
  match s with EmptyString => EmptyString | String c r => String (upper_byte c) (ToUpper r) end.
Definition lower_byte (c : Ascii.ascii) : Ascii.ascii :=
  let n := Ascii.nat_of_ascii c in
  if ((65 <=? n) && (n <=? 90))%nat then Ascii.ascii_of_nat (n + 32) else c.
Fixpoint ToLower (s : string) : string :=
  match s with EmptyString => EmptyString | String c r => String (lower_byte c) (ToLower r) end.
Definition EqualFold (s t : string) : bool := bool_decide (ToUpper s = ToUpper t).

(** [strings.TrimSpace], for the ASCII white space. *)
Definition is_space (c : Ascii.ascii) : bool :=
  let n := Ascii.nat_of_ascii c in ((9 <=? n) && (n <=? 13) || (n =? 32))%nat.
Fixpoint trim_left (s : string) : string :=
  match s with
  | String c r => if is_space c then trim_left r else s
  | EmptyString => EmptyString
  end.
Fixpoint trim_right (s : string) : string :=
  match s with
  | String c r => match trim_right r with
                  | EmptyString => if is_space c then EmptyString else String c EmptyString
                  | t => String c t
                  end
  | EmptyString => EmptyString
  end.
Definition TrimSpace (s : string) : string := trim_right (trim_left s).

Lemma trim_right_idemp s : trim_right (trim_right s) = trim_right s.
Proof.
  induction s as [|c r IH]; [done|]. simpl. destruct (trim_right r) as [|d t] eqn:E; simpl in *.
  - destruct (is_space c) eqn:Ec; simpl; [done|]. by rewrite Ec.
  - by rewrite IH.
Qed.

Lemma trim_left_head s : match trim_left s with EmptyString => True | String c _ => is_space c = false end.
Proof. induction s as [|c r IH]; simpl; [done|]. by destruct (is_space c) eqn:E. Qed.

Lemma trim_right_head c s : is_space c = false → ∃ t, trim_right (String c s) = String c t.
Proof. intros H. simpl. rewrite H. destruct (trim_right s); eauto. Qed.

Lemma TrimSpace_idemp s : TrimSpace (TrimSpace s) = TrimSpace s.
Proof.
  unfold TrimSpace. pose proof (trim_left_head s) as H. destruct (trim_left s) as [|c r] eqn:E; [done|].
  destruct (trim_right_head c r H) as [t Et]. rewrite Et. cbn [trim_left]. rewrite H, <- Et. apply trim_right_idemp.
Qed.
