(* ===== verification/WriteQueue.v ===== *)
(** * The write queue (src/writequeue/write_queue.go)

    [WriteQueue] is a doubly linked list of nodes under one mutex.  The node at
    [tail] is the oldest one and leaves first, the node at [head] is the
    youngest.  The model keeps the pointers: nodes live in a store and every
    operation dereferences and assigns [next], [prev], [tail] and [head] as the
    code does; a nil dereference makes the operation [None].

    [Module Linked] holds the code, [Module Spec] the contract (a list, a
    64-bit count and the stop flag), and the class [QueueImpl] is the interface
    the clients are proved against; [linked_queue] discharges it. *)

From stdpp Require Import base numbers list gmap sorting.
From S2P Require Import Prelude.

(** ** The contract *)

Module Spec.
Section spec.
Context {T : Type} (Size : T → Z).

Record queue := mkQ { items : list T; qcount : Z; qstopped : bool }.

Definition q_empty : queue := mkQ [] 0 false.

Definition q_push (x : T) (q : queue) : queue * Z :=
  let c := u64 (qcount q + Size x) in (mkQ (items q ++ [x]) c (qstopped q), c).

Definition q_putAtTail (x : T) (q : queue) : queue * Z :=
  let c := u64 (qcount q + Size x) in (mkQ (x :: items q) c (qstopped q), c).

(** Insertion before the first element that satisfies [before]. *)
Definition q_pushBefore (x : T) (before : T → bool) (q : queue) : queue * Z :=
  let '(l1, l2) := span (λ y, negb (before y)) (items q) in
  let c := u64 (qcount q + Size x) in
  (mkQ (l1 ++ x :: l2) c (qstopped q), c).

Definition q_find (f : T → bool) (q : queue) : option T :=
  if qstopped q then None else List.find f (items q).

(** Removal of the longest prefix accepted by a callback that carries state. *)
Fixpoint drain {S} (f : T → S → bool * S) (l : list T) (c : Z) (s : S) : list T * Z * S :=
  match l with
  | [] => ([], 0, s)
  | x :: r =>
      let '(b, s') := f x s in
      if b then drain f r (u64 (c - Size x)) s' else (l, c, s')
  end.

Definition q_popUntil {S} (f : T → S → bool * S) (q : queue) (s : S) : queue * S :=
  if qstopped q then (q, s)
  else match items q with
       | [] => (q, s)
       | l => let '(l', c, s') := drain f l (qcount q) s in (mkQ l' c false, s')
       end.

Inductive popped := PopStopped | PopBlocked | PopItem (x : T).

Definition q_pop (q : queue) : queue * popped :=
  if qstopped q then (q, PopStopped)
  else match items q with
       | [] => (q, PopBlocked)
       | [x] => (mkQ [] 0 false, PopItem x)
       | x :: r => (mkQ r (u64 (qcount q - Size x)) false, PopItem x)
       end.

Definition q_stop (q : queue) : queue := mkQ (items q) (qcount q) true.

Definition q_sum (f : T → Z) (q : queue) : Z :=
  if qstopped q then 0 else u64 (sum_Z f (items q)).

(** The count is the total size of the items, modulo 2^64. *)
Definition counted (q : queue) : Prop := qcount q = u64 (sum_Z Size (items q)).
End spec.
Arguments queue : clear implicits.
Arguments popped : clear implicits.
Arguments mkQ {_} _ _ _.
Arguments q_empty {_}.
Arguments q_find {_} _ _.
Arguments q_stop {_} _.
Arguments q_sum {_} _ _.
Arguments PopStopped {_}.
Arguments PopBlocked {_}.
Arguments PopItem {_} _.
End Spec.

(** ** The code: nodes, pointers and the operations of [WriteQueue] *)

Module Linked.

(** Addresses of nodes. *)
Notation loc := nat (only parsing).

Section linked.
Context {T : Type} (Size : T → Z).

Record writeQueueNode := mkNode {
  data : T;
  next : option loc;
  prev : option loc;
}.

Record WriteQueue := mkWQ {
  heap : gmap loc writeQueueNode;
  alloc : loc;
  tail : option loc;
  head : option loc;
  count : Z;
  stopped : bool;
}.

Definition New : WriteQueue := mkWQ ∅ 0%nat None None 0 false.

Definition with_heap h q := mkWQ h (alloc q) (tail q) (head q) (count q) (stopped q).
Definition with_tail t q := mkWQ (heap q) (alloc q) t (head q) (count q) (stopped q).
Definition with_head h q := mkWQ (heap q) (alloc q) (tail q) h (count q) (stopped q).
Definition with_count c q := mkWQ (heap q) (alloc q) (tail q) (head q) c (stopped q).

(** [n.next = v] and [n.prev = v]; [None] is a nil dereference. *)
Definition set_next (n : loc) (v : option loc) (q : WriteQueue) : option WriteQueue :=
  nd ← heap q !! n; Some (with_heap (<[n := mkNode (data nd) v (prev nd)]> (heap q)) q).
Definition set_prev (n : loc) (v : option loc) (q : WriteQueue) : option WriteQueue :=
  nd ← heap q !! n; Some (with_heap (<[n := mkNode (data nd) (next nd) v]> (heap q)) q).

Definition newNode (item : T) (q : WriteQueue) : loc * WriteQueue :=
  (alloc q, mkWQ (<[alloc q := mkNode item None None]> (heap q)) (S (alloc q))
                 (tail q) (head q) (count q) (stopped q)).

Definition add_count (item : T) (q : WriteQueue) : WriteQueue :=
  with_count (u64 (count q + Size item)) q.

Definition Stop (q : WriteQueue) : WriteQueue :=
  mkWQ (heap q) (alloc q) (tail q) (head q) (count q) true.

Definition PutAtTail (item : T) (q : WriteQueue) : option (WriteQueue * Z) :=
  let '(node, q) := newNode item q in
  q ← match tail q with
      | None => Some (with_head (Some node) (with_tail (Some node) q))
      | Some t =>
          q ← set_next node (tail q) q;
          q ← set_prev t (Some node) q;
          Some (with_tail (Some node) q)
      end;
  let q := add_count item q in
  Some (q, count q).

Definition Push (item : T) (q : WriteQueue) : option (WriteQueue * Z) :=
  let '(node, q) := newNode item q in
  q ← match tail q with
      | None => Some (with_head (Some node) (with_tail (Some node) q))
      | Some _ =>
          h ← head q;
          q ← set_next h (Some node) q;
          q ← set_prev node (head q) q;
          Some (with_head (Some node) q)
      end;
  let q := add_count item q in
  Some (q, count q).

Definition insertBeforeNode (node target : loc) (q : WriteQueue) : option WriteQueue :=
  q ← set_next node (Some target) q;
  tgt ← heap q !! target;
  q ← set_prev node (prev tgt) q;
  q ← match prev tgt with
      | None => Some (with_tail (Some node) q)
      | Some p => set_next p (Some node) q
      end;
  set_prev target (Some node) q.

Definition insertAfterNode (node target : loc) (q : WriteQueue) : option WriteQueue :=
  tgt ← heap q !! target;
  q ← set_next node (next tgt) q;
  q ← set_prev node (Some target) q;
  q ← match next tgt with
      | None => Some (with_head (Some node) q)
      | Some n => set_prev n (Some node) q
      end;
  set_next target (Some node) q.

(** The two-ended search of [PushBefore]; one unit of fuel per round. *)
Fixpoint pushBefore_search (fuel : nat) (node : loc) (before : T → bool)
    (fromTail fromHead : loc) (q : WriteQueue) : option WriteQueue :=
  match fuel with
  | O => None
  | S fuel =>
      ft ← heap q !! fromTail;
      match next ft with
      | None => insertAfterNode node fromTail q
      | Some nextFromTail =>
          nft ← heap q !! nextFromTail;
          if before (data nft) then insertAfterNode node fromTail q
          else
            fh ← heap q !! fromHead;
            match prev fh with
            | None => insertBeforeNode node fromHead q
            | Some prevFromHead =>
                pfh ← heap q !! prevFromHead;
                if negb (before (data pfh)) then insertAfterNode node prevFromHead q
                else pushBefore_search fuel node before nextFromTail prevFromHead q
            end
      end
  end.

Definition PushBefore (item : T) (before : option (T → bool)) (q : WriteQueue)
    : option (WriteQueue * Z) :=
  match before with
  | None => Push item q
  | Some before =>
      let '(node, q) := newNode item q in
      q ← match tail q with
          | None => Some (with_head (Some node) (with_tail (Some node) q))
          | Some t =>
              tn ← heap q !! t;
              if before (data tn) then insertBeforeNode node t q
              else
                h ← head q;
                hn ← heap q !! h;
                if negb (before (data hn)) then insertAfterNode node h q
                else pushBefore_search (alloc q) node before t h q
          end;
      let q := add_count item q in
      Some (q, count q)
  end.

Definition Count (q : WriteQueue) : Z := count q.

(** The traversals [for node := q.tail; node != nil; node = node.next]. *)
Fixpoint scan (fuel : nat) (h : gmap loc writeQueueNode) (node : option loc)
    : option (list T) :=
  match node with
  | None => Some []
  | Some n =>
      match fuel with
      | O => None
      | S fuel => nd ← h !! n; rest ← scan fuel h (next nd); Some (data nd :: rest)
      end
  end.

Fixpoint find_from (fuel : nat) (h : gmap loc writeQueueNode) (f : T → bool)
    (node : option loc) : option (option T) :=
  match node with
  | None => Some None
  | Some n =>
      match fuel with
      | O => None
      | S fuel =>
          nd ← h !! n;
          if f (data nd) then Some (Some (data nd)) else find_from fuel h f (next nd)
      end
  end.

Definition Find (f : option (T → bool)) (q : WriteQueue) : option (option T) :=
  match f with
  | None => Some None
  | Some f =>
      if stopped q then Some None else find_from (alloc q) (heap q) f (tail q)
  end.

(** One round of [WaitUntil]; [WaitBlocked] is [q.cond.Wait()]. *)
Inductive waited := WaitStopped | WaitBlocked | WaitItem (x : T).

Definition WaitUntil (f : option (T → bool)) (q : WriteQueue) : option waited :=
  if stopped q then Some WaitStopped
  else match f with
       | None => Some WaitBlocked
       | Some f =>
           r ← find_from (alloc q) (heap q) f (tail q);
           Some match r with Some x => WaitItem x | None => WaitBlocked end
       end.

Fixpoint sum_from (fuel : nat) (h : gmap loc writeQueueNode) (f : T → Z)
    (node : option loc) (total : Z) : option Z :=
  match node with
  | None => Some total
  | Some n =>
      match fuel with
      | O => None
      | S fuel => nd ← h !! n; sum_from fuel h f (next nd) (u64 (total + f (data nd)))
      end
  end.

Definition Sum (f : option (T → Z)) (q : WriteQueue) : option Z :=
  match f with
  | None => Some 0
  | Some f => if stopped q then Some 0 else sum_from (alloc q) (heap q) f (tail q) 0
  end.

(** [PopUntil] with a callback that carries the caller's state [S]. *)
Fixpoint popUntil_loop {S} (fuel : nat) (f : T → S → bool * S) (q : WriteQueue) (s : S)
    : option (WriteQueue * S) :=
  match tail q with
  | None => Some (q, s)
  | Some t =>
      match fuel with
      | O => None
      | Datatypes.S fuel =>
          nd ← heap q !! t;
          let '(b, s) := f (data nd) s in
          if negb b then Some (q, s)
          else
            let q := with_count (u64 (count q - Size (data nd))) q in
            let q := with_tail (next nd) q in
            q ← match tail q with
                | None => Some q
                | Some t' => set_prev t' None q
                end;
            popUntil_loop fuel f q s
      end
  end.

Definition PopUntil {S} (f : option (T → S → bool * S)) (q : WriteQueue) (s : S)
    : option (WriteQueue * S) :=
  match f, tail q with
  | None, _ | _, None => Some (q, s)
  | Some f, Some _ =>
      if stopped q then Some (q, s)
      else
        '(q, s) ← popUntil_loop (alloc q) f q s;
        Some (match tail q with
              | None => with_head None (with_count 0 q)
              | Some _ => q
              end, s)
  end.

(** [Pop]; [PopBlocked] is the caller waiting on the condition variable. *)
Definition Pop (q : WriteQueue) : option (WriteQueue * Spec.popped T) :=
  if stopped q then Some (q, Spec.PopStopped)
  else match tail q with
       | None => Some (q, Spec.PopBlocked)
       | Some t =>
           result ← heap q !! t;
           let q := with_tail (next result) q in
           let q := with_count (u64 (count q - Size (data result))) q in
           q ← match tail q with
               | None => Some (with_head None (with_count 0 q))
               | Some t' => set_prev t' None q
               end;
           Some (q, Spec.PopItem (data result))
       end.
End linked.
Arguments writeQueueNode : clear implicits.
Arguments WriteQueue : clear implicits.
Arguments waited : clear implicits.
Arguments Stop {_} _.
Arguments New {_}.
Arguments Count {_} _.
Arguments Find {_} _ _.
Arguments WaitUntil {_} _ _.
Arguments Sum {_} _ _.
End Linked.

(** ** Representation: which list a chain of nodes holds

    [dseg h p ls n] says that [ls] (locations with their data, oldest first) is
    a doubly linked segment of [h] whose first node points back to [p] and
    whose last node points on to [n]. *)

Module Repr.
Import Linked.
Section repr.
Context {T : Type}.
Implicit Types (h : gmap loc (writeQueueNode T)) (ls : list (loc * T)).

Definition hdloc ls (n : option loc) : option loc :=
  match ls with [] => n | (l, _) :: _ => Some l end.

Fixpoint lastloc (p : option loc) ls : option loc :=
  match ls with [] => p | (l, _) :: r => lastloc (Some l) r end.

Fixpoint dseg h (p : option loc) ls (n : option loc) : Prop :=
  match ls with
  | [] => True
  | (l, x) :: r =>
      h !! l = Some (mkNode x (hdloc r n) p) ∧ dseg h (Some l) r n
  end.

Lemma hdloc_app ls1 ls2 n : hdloc (ls1 ++ ls2) n = hdloc ls1 (hdloc ls2 n).
Proof. by destruct ls1 as [|[? ?] ?]. Qed.

Lemma lastloc_app p ls1 ls2 : lastloc p (ls1 ++ ls2) = lastloc (lastloc p ls1) ls2.
Proof. revert p. induction ls1 as [|[l x] r IH]; intros p; simpl; auto. Qed.

Lemma lastloc_cons p l x ls : lastloc p ((l, x) :: ls) = lastloc (Some l) ls.
Proof. done. Qed.

Lemma lastloc_nonempty p p' l x ls : lastloc p ((l, x) :: ls) = lastloc p' ((l, x) :: ls).
Proof. done. Qed.

Lemma dseg_app h p ls1 ls2 n :
  dseg h p (ls1 ++ ls2) n ↔
  dseg h p ls1 (hdloc ls2 n) ∧ dseg h (lastloc p ls1) ls2 n.
Proof.
  revert p. induction ls1 as [|[l x] r IH]; intros p; simpl; [naive_solver|].
  rewrite IH, hdloc_app. naive_solver.
Qed.

Lemma dseg_frame h p ls n l nd :
  l ∉ ls.*1 → dseg (<[l := nd]> h) p ls n ↔ dseg h p ls n.
Proof.
  revert p. induction ls as [|[k x] r IH]; intros p Hl; simpl; [done|].
  simpl in Hl. apply not_elem_of_cons in Hl as [? ?].
  rewrite lookup_insert_ne, IH by done. done.
Qed.

Lemma scan_dseg h p ls fuel :
  dseg h p ls None → (length ls ≤ fuel)%nat →
  scan fuel h (hdloc ls None) = Some ls.*2.
Proof.
  revert p fuel. induction ls as [|[l x] r IH]; intros p fuel; simpl.
  - by destruct fuel.
  - intros [Hl Hr] Hf. destruct fuel as [|fuel]; [lia|]. simpl.
    rewrite Hl. simpl. by rewrite (IH (Some l)) by (done || lia).
Qed.

Lemma find_from_dseg h p ls f fuel :
  dseg h p ls None → (length ls ≤ fuel)%nat →
  find_from fuel h f (hdloc ls None) = Some (List.find f ls.*2).
Proof.
  revert p fuel. induction ls as [|[l x] r IH]; intros p fuel; simpl.
  - by destruct fuel.
  - intros [Hl Hr] Hf. destruct fuel as [|fuel]; [lia|]. simpl.
    rewrite Hl. simpl. destruct (f x); [done|]. apply (IH (Some l)); [done|lia].
Qed.

Lemma sum_from_dseg h p ls f fuel acc :
  dseg h p ls None → (length ls ≤ fuel)%nat →
  sum_from fuel h f (hdloc ls None) (u64 acc) = Some (u64 (acc + sum_Z f ls.*2)).
Proof.
  revert p fuel acc. induction ls as [|[l x] r IH]; intros p fuel acc.
  - intros. change (sum_Z f [].*2) with 0. rewrite Z.add_0_r. by destruct fuel.
  - intros [Hl Hr] Hf. simpl in Hf. destruct fuel as [|fuel]; [lia|]. simpl.
    rewrite Hl. simpl. rewrite u64_add_l, (IH (Some l)) by (done || lia).
    rewrite sum_Z_cons. by rewrite Z.add_assoc.
Qed.

(** The queue [q] represents [ls]. *)
Record rep (q : WriteQueue T) ls : Prop := mk_rep {
  rep_dseg : dseg (heap q) None ls None;
  rep_tail : tail q = hdloc ls None;
  rep_head : head q = lastloc None ls;
  rep_nodup : NoDup ls.*1;
  rep_fresh : Forall (λ l, (l < alloc q)%nat) ls.*1;
}.

Definition wf (q : WriteQueue T) : Prop := ∃ ls, rep q ls.

(** The list a queue holds, read off its pointers. *)
Definition contents (q : WriteQueue T) : list T :=
  default [] (scan (alloc q) (heap q) (tail q)).

Definition abs (q : WriteQueue T) : Spec.queue T :=
  Spec.mkQ (contents q) (count q) (stopped q).

Lemma bounded_length (l : list nat) n :
  NoDup l → Forall (λ x, (x < n)%nat) l → (length l ≤ n)%nat.
Proof.
  intros Hnd Hl. replace n with (length (seq 0 n)) by apply length_seq.
  apply NoDup_incl_length; [by apply NoDup_ListNoDup|].
  intros x Hx. apply in_seq. apply list_elem_of_In in Hx.
  rewrite Forall_forall in Hl. specialize (Hl x Hx). lia.
Qed.

Lemma rep_length q ls : rep q ls → (length ls ≤ alloc q)%nat.
Proof.
  intros [_ _ _ Hnd Hf]. rewrite <- (length_fmap fst ls). by apply bounded_length.
Qed.

Lemma rep_contents q ls : rep q ls → contents q = ls.*2.
Proof.
  intros Hr. pose proof (rep_length _ _ Hr). destruct Hr as [Hd Ht _ _ _].
  unfold contents. by rewrite Ht, (scan_dseg _ None).
Qed.

Lemma rep_abs q ls : rep q ls → abs q = Spec.mkQ ls.*2 (count q) (stopped q).
Proof. intros Hr. unfold abs. by rewrite (rep_contents q ls). Qed.

Lemma rep_New : rep (@New T) [].
Proof. split; simpl; try done; constructor. Qed.

(** A freshly allocated node is not part of the queue. *)
Lemma rep_newNode item q ls node q' :
  rep q ls → newNode item q = (node, q') →
  rep q' ls ∧ heap q' !! node = Some (mkNode item None None) ∧ node ∉ ls.*1 ∧
  (node < alloc q')%nat ∧ count q' = count q ∧ stopped q' = stopped q.
Proof.
  intros [Hd Ht Hh Hnd Hf] [= <- <-].
  assert (alloc q ∉ ls.*1) as Hn.
  { intros Hin. rewrite Forall_forall in Hf. specialize (Hf _ Hin). lia. }
  split_and!; simpl; try done; [|by rewrite lookup_insert_eq|lia].
  split; simpl; try done.
  - by rewrite dseg_frame.
  - eapply Forall_impl; [exact Hf|]. simpl. lia.
Qed.

(** ** The pointer surgery of the operations *)

Ltac heap_simp :=
  repeat first [ progress simpl | rewrite lookup_insert_eq
               | rewrite lookup_insert_ne by congruence ].

(** Looking a node of the queue up. *)
Lemma dseg_lookup h ls1 l x ls2 :
  dseg h None (ls1 ++ (l, x) :: ls2) None →
  h !! l = Some (mkNode x (hdloc ls2 None) (lastloc None ls1)).
Proof. rewrite dseg_app. simpl. naive_solver. Qed.

Lemma nodup_mid ls1 l x ls2 :
  NoDup (ls1 ++ (l, x) :: ls2).*1 →
  l ∉ ls1.*1 ∧ l ∉ ls2.*1 ∧ NoDup ls1.*1 ∧ NoDup ls2.*1 ∧
  (∀ k, k ∈ ls1.*1 → k ∉ ls2.*1).
Proof.
  rewrite fmap_app, fmap_cons. simpl. rewrite NoDup_app, NoDup_cons. set_solver.
Qed.

(** What inserting a fresh node between two parts of the queue has to give. *)
Definition inserted (q : WriteQueue T) (node : loc) (item : T) ls1 ls2 (r : option (WriteQueue T)) : Prop :=
  ∃ q', r = Some q' ∧ rep q' (ls1 ++ (node, item) :: ls2) ∧
        count q' = count q ∧ stopped q' = stopped q.

Lemma rep_insert_bounds q ls1 ls2 node item :
  rep q (ls1 ++ ls2) → node ∉ (ls1 ++ ls2).*1 → (node < alloc q)%nat →
  NoDup (ls1 ++ (node, item) :: ls2).*1 ∧
  Forall (λ l, (l < alloc q)%nat) (ls1 ++ (node, item) :: ls2).*1.
Proof.
  intros [_ _ _ Hnd Hf] Hn Ha. revert Hnd Hf Hn.
  rewrite !fmap_app, fmap_cons, !NoDup_app, NoDup_cons, !Forall_app, Forall_cons.
  set_solver.
Qed.

Lemma insertAfterNode_rep q ls1 t y ls2 node item nx pv :
  rep q (ls1 ++ (t, y) :: ls2) → heap q !! node = Some (mkNode item nx pv) →
  node ∉ (ls1 ++ (t, y) :: ls2).*1 → (node < alloc q)%nat →
  inserted q node item (ls1 ++ [(t, y)]) ls2 (insertAfterNode node t q).
Proof.
  intros Hrep Hnode Hfresh Hal. pose proof Hrep as [Hd Ht Hh Hnd _].
  rewrite (cons_middle (t, y)), (assoc_L (++)) in Hrep.
  destruct (rep_insert_bounds q (ls1 ++ [(t, y)]) ls2 node item) as [Hnd' Hf']; auto.
  { by rewrite <- (assoc_L (++)). }
  apply nodup_mid in Hnd as (Hn1 & Hn2 & _ & Hnd2 & Hdis).
  rewrite fmap_app, fmap_cons in Hfresh. simpl in Hfresh.
  assert (node ≠ t ∧ node ∉ ls1.*1 ∧ node ∉ ls2.*1) as (Hnt & Hnl1 & Hnl2) by set_solver.
  unfold insertAfterNode, set_next, set_prev. rewrite (dseg_lookup _ _ _ _ _ Hd).
  apply dseg_app in Hd as [Hd1 [_ Hd2]]. simpl. rewrite Hnode. heap_simp.
  unfold inserted. destruct ls2 as [|[n z] ls3]; simpl.
  - heap_simp. rewrite (dseg_lookup (heap q) ls1 t y []) by (by destruct Hrep; rewrite <- (assoc_L (++)) in *).
    heap_simp. eexists. split; [done|]. split; [|done].
    split; simpl; try done.
    + rewrite !dseg_app. simpl. rewrite !dseg_frame by done. heap_simp.
      rewrite lastloc_app. naive_solver.
    + rewrite Ht, !hdloc_app. by destruct ls1 as [|[? ?] ?].
    + by rewrite lastloc_app.
  - simpl in *. assert (n ≠ t ∧ n ≠ node ∧ n ∉ ls1.*1 ∧ n ∉ ls3.*1 ∧ t ∉ ls3.*1 ∧ node ∉ ls3.*1) as (? & ? & ? & ? & ? & ?).
    { apply NoDup_cons in Hnd2. set_solver. }
    destruct Hd2 as [Hz Hd3]. heap_simp. rewrite Hz. heap_simp.
    rewrite (dseg_lookup (heap q) ls1 t y ((n, z) :: ls3)) by (by destruct Hrep; rewrite <- (assoc_L (++)) in *).
    heap_simp. eexists. split; [done|]. split; [|done].
    split; simpl; try done.
    + rewrite !dseg_app. simpl. rewrite !dseg_frame by done. heap_simp.
      rewrite lastloc_app. simpl. naive_solver.
    + rewrite Ht, !hdloc_app. by destruct ls1 as [|[? ?] ?].
    + rewrite Hh, !lastloc_app. done.
Qed.

(** Insertion in front of the oldest node (and [PutAtTail]'s assignments). *)
Lemma insertBeforeNode_rep q t y ls node item nx pv :
  rep q ((t, y) :: ls) → heap q !! node = Some (mkNode item nx pv) →
  node ∉ ((t, y) :: ls).*1 → (node < alloc q)%nat →
  inserted q node item [] ((t, y) :: ls) (insertBeforeNode node t q).
Proof.
  intros Hrep Hnode Hfresh Hal. pose proof Hrep as [Hd Ht Hh Hnd _].
  destruct (rep_insert_bounds q [] ((t, y) :: ls) node item) as [Hnd' Hf']; auto.
  simpl in *. apply NoDup_cons in Hnd as [Htl _].
  assert (node ≠ t ∧ node ∉ ls.*1) as [Hnt Hnl] by set_solver. destruct Hd as [Hy Hd].
  unfold insertBeforeNode, set_next, set_prev. rewrite Hnode. heap_simp. rewrite Hy. heap_simp.
  rewrite Hy. heap_simp. unfold inserted. eexists. split; [done|]. split; [|done].
  split; simpl; try done. rewrite !dseg_frame by done. heap_simp. naive_solver.
Qed.


Lemma rep_lookup q ls ls1 l x ls2 :
  rep q ls → ls = ls1 ++ (l, x) :: ls2 →
  heap q !! l = Some (mkNode x (hdloc ls2 None) (lastloc None ls1)).
Proof. intros [Hd _ _ _ _] ->. by apply dseg_lookup. Qed.

Lemma insertAfterNode_at q ls ls1 t y ls2 node item nx pv :
  rep q ls → heap q !! node = Some (mkNode item nx pv) →
  node ∉ ls.*1 → (node < alloc q)%nat → ls = ls1 ++ (t, y) :: ls2 →
  inserted q node item (ls1 ++ [(t, y)]) ls2 (insertAfterNode node t q).
Proof. intros ???? ->. by eapply insertAfterNode_rep. Qed.

(** The nodes of a list whose data all give the same answer. *)
Lemma before_mid (before : T → bool) v ls l1 l x l2 :
  Forall (λ n, before n.2 = v) ls → ls = l1 ++ (l, x) :: l2 → before x = v.
Proof. intros H ->. rewrite Forall_app, Forall_cons in H. naive_solver. Qed.

Section search.
Context (q : WriteQueue T) (node : loc) (item : T) (nx pv : option loc) (before : T → bool).
Context (a b : list (loc * T)).
Hypothesis Hrep : rep q (a ++ b).
Hypothesis Hnode : heap q !! node = Some (mkNode item nx pv).
Hypothesis Hfresh : node ∉ (a ++ b).*1.
Hypothesis Hal : (node < alloc q)%nat.
Hypothesis Ha : Forall (λ n, before n.2 = false) a.
Hypothesis Hb : Forall (λ n, before n.2 = true) b.

Lemma insert_between a' l x :
  a = a' ++ [(l, x)] → inserted q node item a b (insertAfterNode node l q).
Proof.
  intros Heq. rewrite Heq.
  apply (insertAfterNode_at q (a ++ b) a' l x b node item nx pv); auto.
  rewrite Heq. app_assoc.
Qed.

(** The two-ended search ends within [length a2 + 1] rounds, and always between
    the elements that fail [before] and those that satisfy it. *)
Lemma pushBefore_search_rep fuel a1 ft x a2 b1 fh y b2 :
  a = a1 ++ (ft, x) :: a2 → b = b1 ++ (fh, y) :: b2 → (length a2 < fuel)%nat →
  inserted q node item a b (pushBefore_search fuel node before ft fh q).
Proof.
  revert a1 ft x a2 b1 fh y b2.
  induction fuel as [|fuel IH]; intros a1 ft x a2 b1 fh y b2 Ea Eb Hf; [lia|]. simpl.
  rewrite (rep_lookup q _ a1 ft x (a2 ++ b) Hrep) by (rewrite Ea; app_assoc). simpl.
  destruct a2 as [|[n z] a3]; simpl.
  - assert (∃ k w b', b = (k, w) :: b') as (k & w & b' & Hbe).
    { rewrite Eb. destruct b1 as [|[? ?] ?]; simpl; eauto. }
    replace (hdloc b None) with (Some k) by (by rewrite Hbe). simpl.
    rewrite (rep_lookup q _ a k w b' Hrep) by (by rewrite Hbe). simpl.
    rewrite (before_mid _ _ _ [] k w b' Hb) by done. by apply (insert_between a1 ft x).
  - rewrite (rep_lookup q _ (a1 ++ [(ft, x)]) n z (a3 ++ b) Hrep) by (rewrite Ea; app_assoc). simpl.
    rewrite (before_mid _ _ _ (a1 ++ [(ft, x)]) n z a3 Ha) by (rewrite Ea; app_assoc).
    rewrite (rep_lookup q _ (a ++ b1) fh y b2 Hrep) by (rewrite Eb; app_assoc). simpl.
    destruct b1 as [|[p w] b1' _] using rev_ind.
    + assert (∃ a' p w, a = a' ++ [(p, w)]) as (a' & p & w & Hae).
      { destruct (snoc_inv a) as (a' & [p w] & ->); [rewrite Ea; by destruct a1|eauto]. }
      rewrite app_nil_r. replace (lastloc None a) with (Some p) by (by rewrite Hae, lastloc_app). simpl.
      rewrite (rep_lookup q _ a' p w b Hrep) by (rewrite Hae; app_assoc). simpl.
      rewrite (before_mid _ _ _ a' p w [] Ha) by done. by apply (insert_between a' p w).
    + rewrite !lastloc_app. simpl. rewrite <- (assoc_L (++)) in Eb. simpl in Eb.
      rewrite (rep_lookup q _ (a ++ b1') p w ((fh, y) :: b2) Hrep) by (rewrite Eb; app_assoc). simpl.
      rewrite (before_mid _ _ _ b1' p w ((fh, y) :: b2) Hb) by done. simpl.
      apply (IH (a1 ++ [(ft, x)]) n z a3 b1' p w ((fh, y) :: b2)); [|done|simpl in Hf; lia].
      rewrite Ea. app_assoc.
Qed.
End search.

(** ** Every operation refines the contract *)

Section refine.
Context (Size : T → Z).

(** The operation succeeds, keeps the pointers well formed and acts on the
    contents as the contract says. *)
Definition refines {R} (r : option (WriteQueue T * R)) (spec : Spec.queue T * R) : Prop :=
  ∃ q', r = Some (q', spec.2) ∧ wf q' ∧ abs q' = spec.1.

Lemma inserted_refines q node item ls1 ls2 r :
  inserted q node item ls1 ls2 r →
  refines (q' ← r; Some (add_count Size item q', count (add_count Size item q')))
    (Spec.mkQ (ls1.*2 ++ item :: ls2.*2) (u64 (count q + Size item)) (stopped q),
     u64 (count q + Size item)).
Proof.
  intros (q' & -> & Hrep & Hc & Hs). simpl.
  assert (rep (add_count Size item q') (ls1 ++ (node, item) :: ls2)) as Hrep'.
  { destruct Hrep. split; done. }
  unfold refines. simpl. rewrite Hc. eexists. split; [done|]. split; [by eexists|].
  rewrite (rep_abs _ _ Hrep'). simpl. rewrite Hc, Hs. f_equal.
  by rewrite fmap_app.
Qed.

Lemma inserted_empty q node item nx pv :
  rep q [] → heap q !! node = Some (mkNode item nx pv) → (node < alloc q)%nat →
  nx = None → pv = None →
  inserted q node item [] [] (Some (with_head (Some node) (with_tail (Some node) q))).
Proof.
  intros Hrep Hn Hal -> ->. eexists. split; [done|]. split; [|done].
  split; simpl; try done; [by apply NoDup_singleton|by repeat constructor].
Qed.

Lemma PutAtTail_refines item q :
  wf q → refines (PutAtTail Size item q) (Spec.q_putAtTail Size item (abs q)).
Proof.
  intros [ls Hrep]. rewrite (rep_abs _ _ Hrep). unfold PutAtTail.
  destruct (newNode item q) as [node q1] eqn:Hn.
  destruct (rep_newNode _ _ _ _ _ Hrep Hn) as (Hr & Hnode & Hf & Ha & Hc & Hs).
  unfold Spec.q_putAtTail. simpl. rewrite <- Hc, <- Hs.
  apply (inserted_refines q1 node item [] ls). rewrite (rep_tail _ _ Hr).
  destruct ls as [|[t y] ls]; [by eapply inserted_empty|]. simpl.
  pose proof (rep_lookup q1 _ [] t y ls Hr eq_refl) as Hy.
  destruct (insertBeforeNode_rep q1 t y ls node item None None Hr Hnode Hf Ha)
    as (q' & Hq' & Hrest). exists q'. split; [|done].
  rewrite <- Hq'. clear Hq' Hrest. simpl in Hf, Hy.
  assert (node ≠ t) by set_solver.
  unfold insertBeforeNode, set_next, set_prev. rewrite Hnode. heap_simp. rewrite Hy. heap_simp.
  rewrite Hy. heap_simp. rewrite insert_insert_eq. done.
Qed.

Lemma Push_refines item q :
  wf q → refines (Push Size item q) (Spec.q_push Size item (abs q)).
Proof.
  intros [ls Hrep]. rewrite (rep_abs _ _ Hrep). unfold Push.
  destruct (newNode item q) as [node q1] eqn:Hn.
  destruct (rep_newNode _ _ _ _ _ Hrep Hn) as (Hr & Hnode & Hf & Ha & Hc & Hs).
  unfold Spec.q_push. simpl. rewrite <- Hc, <- Hs.
  apply (inserted_refines q1 node item ls []). rewrite (rep_tail _ _ Hr), (rep_head _ _ Hr).
  destruct ls as [|[t y] ls _] using rev_ind; [by eapply inserted_empty|].
  assert (hdloc (ls ++ [(t, y)]) None = Some (default t (fst <$> List.hd_error ls))) as ->
    by (by destruct ls as [|[? ?] ?]).
  rewrite lastloc_app. simpl.
  pose proof (rep_lookup q1 _ ls t y [] Hr eq_refl) as Hy.
  destruct (insertAfterNode_rep q1 ls t y [] node item None None Hr Hnode Hf Ha)
    as (q' & Hq' & Hrest). exists q'. split; [|done].
  rewrite <- Hq'. clear Hq' Hrest. rewrite fmap_app in Hf. simpl in Hf, Hy.
  assert (node ≠ t) by set_solver.
  unfold insertAfterNode, set_next, set_prev. rewrite Hnode, Hy. heap_simp. rewrite Hnode.
  heap_simp. rewrite Hy. heap_simp. rewrite (rep_head _ _ Hr), lastloc_app. simpl.
  rewrite insert_insert_eq, (insert_insert_ne _ t node) by done. done.
Qed.

(** The position [PushBefore] must find: [a] fails the test, [b] passes it. *)
Lemma pushBefore_split before ls :
  upward before ls.*2 →
  ∃ a b, ls = a ++ b ∧ Forall (λ n, before n.2 = false) a ∧
         Forall (λ n, before n.2 = true) b ∧
         span (λ y, negb (before y)) ls.*2 = (a.*2, b.*2).
Proof.
  intros (l1 & l2 & Heq & H1 & H2)%upward_split.
  apply fmap_app_inv in Heq as (a & b & -> & -> & ->).
  exists a, b. rewrite !Forall_fmap in H1, H2. split_and!; try done.
  rewrite fmap_app. apply span_spec; rewrite Forall_fmap;
    (eapply Forall_impl; [eassumption|]); intros x Hx; simpl in *; by rewrite Hx.
Qed.

Lemma pushBefore_place q1 ls node item before :
  rep q1 ls → heap q1 !! node = Some (mkNode item None None) → node ∉ ls.*1 →
  (node < alloc q1)%nat → upward before ls.*2 →
  ∃ a b, span (λ y, negb (before y)) ls.*2 = (a.*2, b.*2) ∧
  inserted q1 node item a b
    match tail q1 with
    | None => Some (with_head (Some node) (with_tail (Some node) q1))
    | Some t =>
        tn ← heap q1 !! t;
        if before (data tn) then insertBeforeNode node t q1
        else
          h ← head q1;
          hn ← heap q1 !! h;
          if negb (before (data hn)) then insertAfterNode node h q1
          else pushBefore_search (alloc q1) node before t h q1
    end.
Proof.
  intros Hr Hnode Hf Hal Hup.
  destruct (pushBefore_split before ls Hup) as (a & b & Hab & Ha & Hb & Hspan).
  exists a, b. split; [done|]. clear Hspan Hup. subst ls.
  rewrite (rep_tail _ _ Hr), (rep_head _ _ Hr).
  pose proof (rep_length _ _ Hr) as Hlen.
  destruct a as [|[t x] a2].
  - destruct b as [|[t x] b2]; [by eapply inserted_empty|]. simpl.
    rewrite (rep_lookup q1 _ [] t x b2 Hr) by done. simpl.
    apply Forall_cons in Hb as [Hx _]. simpl in Hx. rewrite Hx.
    by eapply insertBeforeNode_rep.
  - simpl. rewrite (rep_lookup q1 _ [] t x (a2 ++ b) Hr) by done. simpl.
    rewrite (before_mid _ _ _ [] t x a2 Ha) by done.
    destruct b as [|[h z] b1 _] using rev_ind.
    + rewrite app_nil_r in *. destruct (snoc_inv ((t, x) :: a2)) as (a' & [h z] & Hae); [done|].
      change (lastloc (Some t) a2) with (lastloc None ((t, x) :: a2)).
      rewrite Hae, lastloc_app in *. simpl.
      rewrite (rep_lookup q1 _ a' h z [] Hr) by done. simpl.
      rewrite (before_mid _ _ _ a' h z [] Ha) by done. simpl. by eapply insertAfterNode_rep.
    + rewrite !lastloc_app. simpl.
      rewrite (rep_lookup q1 _ (((t, x) :: a2) ++ b1) h z [] Hr) by (simpl; app_assoc). simpl.
      rewrite (before_mid _ _ _ b1 h z [] Hb) by done. simpl.
      eapply (pushBefore_search_rep q1 node item None None before ((t, x) :: a2) (b1 ++ [(h, z)]))
        with (a1 := []) (b2 := []); try done.
      rewrite !length_app in Hlen. simpl in Hlen. lia.
Qed.

Lemma PushBefore_refines item before q :
  wf q → upward before (contents q) →
  refines (PushBefore Size item (Some before) q) (Spec.q_pushBefore Size item before (abs q)).
Proof.
  intros [ls Hrep]. rewrite (rep_abs _ _ Hrep), (rep_contents _ _ Hrep). intros Hup.
  unfold PushBefore. destruct (newNode item q) as [node q1] eqn:Hn.
  destruct (rep_newNode _ _ _ _ _ Hrep Hn) as (Hr & Hnode & Hf & Ha & Hc & Hs).
  destruct (pushBefore_place q1 ls node item before Hr Hnode Hf Ha Hup) as (a & b & Hspan & Hins).
  unfold Spec.q_pushBefore. simpl. rewrite Hspan, <- Hc, <- Hs.
  by apply (inserted_refines q1 node item a b).
Qed.

Lemma PushBefore_nil_refines item q :
  wf q → refines (PushBefore Size item None q) (Spec.q_push Size item (abs q)).
Proof. apply Push_refines. Qed.

Lemma Find_refines f q : wf q → Find (Some f) q = Some (Spec.q_find f (abs q)).
Proof.
  intros [ls Hrep]. rewrite (rep_abs _ _ Hrep). unfold Find, Spec.q_find. simpl.
  destruct (stopped q); [done|]. rewrite (rep_tail _ _ Hrep).
  apply (find_from_dseg _ None); [apply Hrep|by apply rep_length].
Qed.

Lemma Sum_refines f q : wf q → Sum (Some f) q = Some (Spec.q_sum f (abs q)).
Proof.
  intros [ls Hrep]. rewrite (rep_abs _ _ Hrep). unfold Sum, Spec.q_sum. simpl.
  destruct (stopped q); [done|]. rewrite (rep_tail _ _ Hrep).
  change 0 with (u64 0) at 1. rewrite (sum_from_dseg _ None); [done|apply Hrep|by apply rep_length].
Qed.

Lemma WaitUntil_refines f q :
  wf q → WaitUntil (Some f) q = Some
    (if stopped q then WaitStopped
     else match Spec.q_find f (abs q) with Some x => WaitItem x | None => WaitBlocked end).
Proof.
  intros [ls Hrep]. rewrite (rep_abs _ _ Hrep). unfold WaitUntil, Spec.q_find. simpl.
  destruct (stopped q); [done|]. rewrite (rep_tail _ _ Hrep).
  rewrite (find_from_dseg _ None); [done|apply Hrep|by apply rep_length].
Qed.

Lemma Stop_refines q : wf q → wf (Stop q) ∧ abs (Stop q) = Spec.q_stop (abs q).
Proof. intros [ls [????]]. split; [exists ls; by split|done]. Qed.

(** While nodes leave, [head] is only right as long as the queue is not empty. *)
Record prep (q : WriteQueue T) ls : Prop := mk_prep {
  prep_dseg : dseg (heap q) None ls None;
  prep_tail : tail q = hdloc ls None;
  prep_head : ls ≠ [] → head q = lastloc None ls;
  prep_nodup : NoDup ls.*1;
  prep_fresh : Forall (λ l, (l < alloc q)%nat) ls.*1;
}.

Lemma rep_prep q ls : rep q ls → prep q ls.
Proof. intros []. by split. Qed.

Lemma prep_rep q ls : prep q ls → ls ≠ [] → rep q ls.
Proof. intros [] ?. split; auto. Qed.

Lemma prep_empty q c :
  prep q [] → rep (with_head None (with_count c q)) [].
Proof. intros []. by split. Qed.

(** [q.tail = q.tail.next; if q.tail != nil { q.tail.prev = nil }]. *)
Lemma drop_oldest q t x ls q1 :
  prep q ((t, x) :: ls) →
  heap q1 = heap q → alloc q1 = alloc q → head q1 = head q → tail q1 = hdloc ls None →
  ∃ q2, match tail q1 with None => Some q1 | Some t' => set_prev t' None q1 end = Some q2 ∧
        prep q2 ls ∧ count q2 = count q1 ∧ stopped q2 = stopped q1.
Proof.
  intros [Hd Ht Hh Hnd Hf] E1 E2 E3 E4. rewrite E4. simpl in *.
  apply NoDup_cons in Hnd as [Ht1 Hnd]. apply Forall_cons in Hf as [_ Hf].
  destruct Hd as [_ Hd]. rewrite <- E1 in Hd. rewrite <- E2 in Hf.
  destruct ls as [|[k z] ls]; simpl.
  - exists q1. split_and!; try done.
  - unfold set_prev. simpl in Hd. destruct Hd as [Hk Hd]. rewrite Hk. simpl.
    eexists. split; [done|]. split_and!; try done. simpl in *.
    apply NoDup_cons in Hnd as [? ?].
    split; simpl; try done.
    + rewrite lookup_insert_eq, dseg_frame by done. done.
    + intros _. rewrite E3, Hh by done. done.
    + by apply NoDup_cons.
Qed.

Lemma popUntil_loop_prep {S} fuel (f : T → S → bool * S) q ls s :
  prep q ls → (length ls ≤ fuel)%nat →
  ∃ q' ls' s', popUntil_loop Size fuel f q s = Some (q', s') ∧ prep q' ls' ∧
    stopped q' = stopped q ∧
    Spec.drain Size f ls.*2 (count q) s
      = (ls'.*2, match ls' with [] => 0 | _ => count q' end, s').
Proof.
  revert q ls s. induction fuel as [|fuel IH]; intros q ls s Hp Hl.
  - destruct ls; [|simpl in Hl; lia]. exists q, [], s. simpl.
    rewrite (prep_tail _ _ Hp). done.
  - simpl. rewrite (prep_tail _ _ Hp). destruct ls as [|[t x] ls].
    { exists q, [], s. done. }
    simpl in *. pose proof (prep_dseg _ _ Hp) as [Hx _]. rewrite Hx. simpl.
    destruct (f x s) as [b s1]. destruct b; simpl; [|by exists q, ((t, x) :: ls), s1].
    edestruct (drop_oldest q t x ls
      (with_tail (hdloc ls None) (with_count (u64 (count q - Size x)) q)))
      as (q2 & Hq2 & Hp2 & Hc2 & Hs2); try done.
    simpl in Hq2. rewrite Hq2. simpl.
    destruct (IH q2 ls s1 Hp2 ltac:(lia)) as (q' & ls' & s' & Hrun & Hp' & Hs' & Hdr).
    exists q', ls', s'. rewrite Hrun, <- Hdr, Hc2, Hs', Hs2. done.
Qed.

Lemma PopUntil_refines {S} (f : T → S → bool * S) q s :
  wf q → refines (PopUntil Size (Some f) q s) (Spec.q_popUntil Size f (abs q) s).
Proof.
  intros [ls Hrep]. rewrite (rep_abs _ _ Hrep).
  unfold PopUntil, Spec.q_popUntil, refines. simpl. rewrite (rep_tail _ _ Hrep).
  assert (wf q ∧ abs q = Spec.mkQ ls.*2 (count q) (stopped q)) as [Hwf Habs]
    by (split; [by exists ls|by apply rep_abs]).
  destruct ls as [|[t x] ls]; simpl.
  { exists q. by destruct (stopped q). }
  destruct (stopped q) eqn:Hst; [by exists q|].
  destruct (popUntil_loop_prep (alloc q) f q ((t, x) :: ls) s) as (q' & ls' & s' & -> & Hp & Hs & Hdr).
  { by apply rep_prep. } { by apply rep_length. }
  simpl in *. rewrite Hdr. simpl. eexists. split; [done|].
  rewrite (prep_tail _ _ Hp). destruct ls' as [|[k z] ls']; simpl.
  - apply (prep_empty _ 0) in Hp. split; [by eexists|]. rewrite (rep_abs _ _ Hp). simpl.
    by rewrite Hs, Hst.
  - apply prep_rep in Hp; [|done]. split; [by eexists|]. by rewrite (rep_abs _ _ Hp), Hs, Hst.
Qed.

Lemma Pop_refines q : wf q → refines (Pop Size q) (Spec.q_pop Size (abs q)).
Proof.
  intros [ls Hrep]. rewrite (rep_abs _ _ Hrep). unfold Pop, Spec.q_pop, refines. simpl.
  rewrite (rep_tail _ _ Hrep).
  assert (wf q ∧ abs q = Spec.mkQ ls.*2 (count q) (stopped q)) as [Hwf Habs]
    by (split; [by exists ls|by apply rep_abs]).
  destruct (stopped q) eqn:Hst; [by exists q|].
  destruct ls as [|[t x] ls]; simpl; [by exists q|].
  rewrite (rep_lookup q _ [] t x ls Hrep) by done. simpl.
  pose proof (rep_prep _ _ Hrep) as Hp.
  edestruct (drop_oldest q t x ls (with_count (u64 (count q - Size x)) (with_tail (hdloc ls None) q)))
    as (q2 & Hq2 & Hp2 & Hc2 & Hs2); try done.
  simpl in Hq2. destruct ls as [|[k z] ls]; simpl in *.
  - injection Hq2 as <-. apply (prep_empty _ 0) in Hp2. eexists. split; [done|].
    split; [by eexists|]. rewrite (rep_abs _ _ Hp2). simpl. by rewrite Hst.
  - rewrite Hq2. simpl. eexists. split; [done|]. apply prep_rep in Hp2; [|done].
    split; [by eexists|]. rewrite (rep_abs _ _ Hp2), Hc2, Hs2, Hst. done.
Qed.
End refine.
End repr.
End Repr.

(** ** The interface the clients rely on *)

Class QueueImpl (T : Type) (Size : T → Z) := {
  Q : Type;
  q_wf : Q → Prop;
  q_abs : Q → Spec.queue T;
  op_new : Q;
  op_push : T → Q → Q * Z;
  op_putAtTail : T → Q → Q * Z;
  op_pushBefore : T → (T → bool) → Q → Q * Z;
  op_find : (T → bool) → Q → option T;
  op_popUntil : ∀ S : Type, (T → S → bool * S) → Q → S → Q * S;
  op_pop : Q → Q * Spec.popped T;
  op_stop : Q → Q;
  op_sum : (T → Z) → Q → Z;
  op_count : Q → Z;

  new_ok : q_wf op_new ∧ q_abs op_new = Spec.q_empty;
  push_ok x q : q_wf q → q_wf (op_push x q).1 ∧
    (q_abs (op_push x q).1, (op_push x q).2) = Spec.q_push Size x (q_abs q);
  putAtTail_ok x q : q_wf q → q_wf (op_putAtTail x q).1 ∧
    (q_abs (op_putAtTail x q).1, (op_putAtTail x q).2) = Spec.q_putAtTail Size x (q_abs q);
  pushBefore_ok x before q : q_wf q → upward before (Spec.items (q_abs q)) →
    q_wf (op_pushBefore x before q).1 ∧
    (q_abs (op_pushBefore x before q).1, (op_pushBefore x before q).2)
      = Spec.q_pushBefore Size x before (q_abs q);
  find_ok f q : q_wf q → op_find f q = Spec.q_find f (q_abs q);
  popUntil_ok S (f : T → S → bool * S) q s : q_wf q → q_wf (op_popUntil S f q s).1 ∧
    (q_abs (op_popUntil S f q s).1, (op_popUntil S f q s).2)
      = Spec.q_popUntil Size f (q_abs q) s;
  pop_ok q : q_wf q → q_wf (op_pop q).1 ∧
    (q_abs (op_pop q).1, (op_pop q).2) = Spec.q_pop Size (q_abs q);
  stop_ok q : q_wf q → q_wf (op_stop q) ∧ q_abs (op_stop q) = Spec.q_stop (q_abs q);
  sum_ok f q : q_wf q → op_sum f q = Spec.q_sum f (q_abs q);
  count_ok q : op_count q = Spec.qcount (q_abs q);
}.
#[global] Arguments Q {_ _} _.

(** An operation that returned [Some], as a total function. *)
Definition returned {A} (d : A) (r : option A) : A := default d r.

Lemma returned_refines {T R} (d : Linked.WriteQueue T * R) r spec :
  Repr.refines r spec →
  Repr.wf (returned d r).1 ∧ (Repr.abs (returned d r).1, (returned d r).2) = spec.
Proof.
  intros (q' & -> & Hwf & Habs). simpl. split; [done|]. rewrite Habs. by destruct spec.
Qed.

#[global] Program Instance linked_queue {T} (Size : T → Z) : QueueImpl T Size := {|
  Q := Linked.WriteQueue T;
  q_wf := Repr.wf;
  q_abs := Repr.abs;
  op_new := Linked.New;
  op_push x q := returned (q, 0) (Linked.Push Size x q);
  op_putAtTail x q := returned (q, 0) (Linked.PutAtTail Size x q);
  op_pushBefore x before q := returned (q, 0) (Linked.PushBefore Size x (Some before) q);
  op_find f q := returned None (Linked.Find (Some f) q);
  op_popUntil S f q s := returned (q, s) (Linked.PopUntil Size (Some f) q s);
  op_pop q := returned (q, Spec.PopStopped) (Linked.Pop Size q);
  op_stop q := Linked.Stop q;
  op_sum f q := returned 0 (Linked.Sum (Some f) q);
  op_count q := Linked.Count q;
|}.
Next Obligation. intros. split; [exists []; apply Repr.rep_New|done]. Qed.
Next Obligation. intros. by apply returned_refines, Repr.Push_refines. Qed.
Next Obligation. intros. by apply returned_refines, Repr.PutAtTail_refines. Qed.
Next Obligation. intros. by apply returned_refines, Repr.PushBefore_refines. Qed.
Next Obligation. intros. cbv beta. by rewrite Repr.Find_refines. Qed.
Next Obligation. intros. by apply returned_refines, Repr.PopUntil_refines. Qed.
Next Obligation. intros. by apply returned_refines, Repr.Pop_refines. Qed.
Next Obligation. intros. by apply Repr.Stop_refines. Qed.
Next Obligation. intros. cbv beta. by rewrite Repr.Sum_refines. Qed.
Next Obligation. done. Qed.

(** The contract itself is an implementation, the smallest one. *)
#[global] Program Instance spec_queue {T} (Size : T → Z) : QueueImpl T Size | 10 := {|
  Q := Spec.queue T;
  q_wf _ := True;
  q_abs q := q;
  op_new := Spec.q_empty;
  op_push := Spec.q_push Size;
  op_putAtTail := Spec.q_putAtTail Size;
  op_pushBefore x before q := Spec.q_pushBefore Size x before q;
  op_find := Spec.q_find;
  op_popUntil S := Spec.q_popUntil Size;
  op_pop := Spec.q_pop Size;
  op_stop := Spec.q_stop;
  op_sum := Spec.q_sum;
  op_count := Spec.qcount;
|}.
Solve All Obligations with
  (intros; cbv beta; repeat split; by rewrite <- ?surjective_pairing).

(** ** Programs of queue operations

    A client's program is a list of calls; [PopUntil] is called with a pure
    test, its callback state being the list of entries it was asked about. *)

Module Runs.
Section runs.
Context {T : Type} (Size : T → Z).

Inductive call :=
| CPush (x : T)
| CPutAtTail (x : T)
| CPushBefore (x : T) (before : T → bool)
| CFind (f : T → bool)
| CSum (f : T → Z)
| CPopUntil (f : T → bool)
| CPop
| CCount
| CStop.

Inductive reply :=
| RCount (n : Z)
| RFound (x : option T)
| RAsked (l : list T)
| RPopped (p : Spec.popped T)
| RNone.

(** The callback of [CPopUntil]: it records what it sees. *)
Definition asking (f : T → bool) (x : T) (seen : list T) : bool * list T :=
  (f x, seen ++ [x]).

Definition exec (c : call) (q : Linked.WriteQueue T) : option (Linked.WriteQueue T * reply) :=
  match c with
  | CPush x => '(q, n) ← Linked.Push Size x q; Some (q, RCount n)
  | CPutAtTail x => '(q, n) ← Linked.PutAtTail Size x q; Some (q, RCount n)
  | CPushBefore x b => '(q, n) ← Linked.PushBefore Size x (Some b) q; Some (q, RCount n)
  | CFind f => r ← Linked.Find (Some f) q; Some (q, RFound r)
  | CSum f => n ← Linked.Sum (Some f) q; Some (q, RCount n)
  | CPopUntil f => '(q, s) ← Linked.PopUntil Size (Some (asking f)) q []; Some (q, RAsked s)
  | CPop => '(q, p) ← Linked.Pop Size q; Some (q, RPopped p)
  | CCount => Some (q, RCount (Linked.Count q))
  | CStop => Some (Linked.Stop q, RNone)
  end.

Fixpoint execs (cs : list call) (q : Linked.WriteQueue T)
    : option (Linked.WriteQueue T * list reply) :=
  match cs with
  | [] => Some (q, [])
  | c :: cs => '(q, r) ← exec c q; '(q, rs) ← execs cs q; Some (q, r :: rs)
  end.

Definition spec_exec (c : call) (q : Spec.queue T) : Spec.queue T * reply :=
  match c with
  | CPush x => let '(q, n) := Spec.q_push Size x q in (q, RCount n)
  | CPutAtTail x => let '(q, n) := Spec.q_putAtTail Size x q in (q, RCount n)
  | CPushBefore x b => let '(q, n) := Spec.q_pushBefore Size x b q in (q, RCount n)
  | CFind f => (q, RFound (Spec.q_find f q))
  | CSum f => (q, RCount (Spec.q_sum f q))
  | CPopUntil f => let '(q, s) := Spec.q_popUntil Size (asking f) q [] in (q, RAsked s)
  | CPop => let '(q, p) := Spec.q_pop Size q in (q, RPopped p)
  | CCount => (q, RCount (Spec.qcount q))
  | CStop => (Spec.q_stop q, RNone)
  end.

Fixpoint spec_execs (cs : list call) (q : Spec.queue T) : Spec.queue T * list reply :=
  match cs with
  | [] => (q, [])
  | c :: cs =>
      let '(q, r) := spec_exec c q in
      let '(q, rs) := spec_execs cs q in (q, r :: rs)
  end.

(** [PushBefore] searches from both ends, so its test must be monotone along
    the queue. *)
Definition call_ok (c : call) (q : Spec.queue T) : Prop :=
  match c with CPushBefore _ b => upward b (Spec.items q) | _ => True end.

Fixpoint calls_ok (cs : list call) (q : Spec.queue T) : Prop :=
  match cs with
  | [] => True
  | c :: cs => call_ok c q ∧ calls_ok cs (spec_exec c q).1
  end.

Lemma exec_refines c q :
  Repr.wf q → call_ok c (Repr.abs q) → Repr.refines (exec c q) (spec_exec c (Repr.abs q)).
Proof.
  intros Hwf Hok.
  assert (∀ {R} (r : option (Linked.WriteQueue T * R)) spec (g : R → reply),
    Repr.refines r spec →
    Repr.refines ('(q, n) ← r; Some (q, g n)) (let '(q, n) := spec in (q, g n))) as Hmap.
  { intros R r [s n] g (q' & -> & ? & ?). by exists q'. }
  destruct c; cbn [exec spec_exec call_ok] in *.
  - exact (Hmap _ _ _ RCount (Repr.Push_refines Size x q Hwf)).
  - exact (Hmap _ _ _ RCount (Repr.PutAtTail_refines Size x q Hwf)).
  - exact (Hmap _ _ _ RCount (Repr.PushBefore_refines Size x before q Hwf Hok)).
  - rewrite Repr.Find_refines by done. by exists q.
  - rewrite Repr.Sum_refines by done. by exists q.
  - exact (Hmap _ _ _ RAsked (Repr.PopUntil_refines Size (asking f) q [] Hwf)).
  - exact (Hmap _ _ _ RPopped (Repr.Pop_refines Size q Hwf)).
  - by exists q.
  - destruct (Repr.Stop_refines q Hwf). by exists (Linked.Stop q).
Qed.

Lemma execs_refines cs q :
  Repr.wf q → calls_ok cs (Repr.abs q) → Repr.refines (execs cs q) (spec_execs cs (Repr.abs q)).
Proof.
  revert q. induction cs as [|c cs IH]; intros q Hwf Hok; simpl; [by exists q|].
  destruct Hok as [Hc Hcs].
  destruct (exec_refines c q Hwf Hc) as (q1 & -> & Hwf1 & Habs1). simpl.
  destruct (spec_exec c (Repr.abs q)) as [s1 r] eqn:E. simpl in *. subst s1.
  destruct (IH q1 Hwf1 Hcs) as (q2 & -> & Hwf2 & Habs2). simpl.
  destruct (spec_execs cs (Repr.abs q1)) as [s2 rs]. by exists q2.
Qed.

(** C6: the doubly linked queue implements a list queue.  Every sequence of
    calls on a new queue (with [PushBefore] tests monotone along the queue)
    runs without a nil dereference and within the traversal bounds, gives
    exactly the replies of the list queue and ends in a well formed chain of
    nodes that holds the list queue's contents. *)
Theorem queue_programs_refine cs :
  calls_ok cs Spec.q_empty →
  ∃ q, execs cs Linked.New = Some (q, (spec_execs cs Spec.q_empty).2) ∧ Repr.wf q ∧
       Repr.abs q = (spec_execs cs Spec.q_empty).1.
Proof.
  intros Hok. apply (execs_refines cs Linked.New); [|done].
  exists []. apply Repr.rep_New.
Qed.

(** Every operation keeps the count equal to the total size, modulo 2^64. *)
Lemma drain_counted {S} (f : T → S → bool * S) l c s :
  c = u64 (sum_Z Size l) →
  let '(l', c', _) := Spec.drain Size f l c s in c' = u64 (sum_Z Size l').
Proof.
  revert c s. induction l as [|x r IH]; intros c s Hc; simpl; [done|].
  destruct (f x s) as [[] s']; [|done]. apply IH. rewrite Hc. autorewrite with go_sums go_wrap.
  f_equal. lia.
Qed.

Lemma spec_exec_counted c q :
  Spec.counted Size q → Spec.counted Size (spec_exec c q).1.
Proof.
  unfold Spec.counted. intros Hc. destruct c; simpl; auto.
  - rewrite sum_Z_app, sum_Z_singleton, Hc. apply u64_add_l.
  - rewrite Hc. autorewrite with go_sums go_wrap. f_equal. lia.
  - unfold Spec.q_pushBefore. pose proof (span_app (λ y, negb (before y)) (Spec.items q)) as Hs.
    destruct (span _ (Spec.items q)) as [l1 l2]. simpl in *.
    rewrite Hc, <- Hs. autorewrite with go_sums go_wrap. f_equal. lia.
  - unfold Spec.q_popUntil. destruct (Spec.qstopped q); [done|].
    destruct (Spec.items q) as [|x l] eqn:E; [simpl; by rewrite E|].
    pose proof (drain_counted (asking f) (x :: l) (Spec.qcount q) [] Hc) as Hd.
    by destruct (Spec.drain _ _ _ _ _) as [[? ?] ?].
  - unfold Spec.q_pop. destruct (Spec.qstopped q); [done|].
    destruct (Spec.items q) as [|x [|y l]] eqn:E; simpl; [by rewrite E|done|].
    rewrite Hc. autorewrite with go_sums go_wrap. f_equal. lia.
Qed.

Lemma spec_execs_counted cs q :
  Spec.counted Size q → Spec.counted Size (spec_execs cs q).1.
Proof.
  revert q. induction cs as [|c cs IH]; intros q Hq; simpl; [done|].
  pose proof (spec_exec_counted c q Hq) as H1. destruct (spec_exec c q) as [q1 r].
  specialize (IH q1 H1). by destruct (spec_execs cs q1).
Qed.

(** [Count] is the total size of the entries in the queue (modulo 2^64)
    after every sequence of calls; the resets to 0 in [Pop] and [PopUntil] and
    the wrapping subtractions never make it drift. *)
Lemma count_is_total_size cs q rs :
  calls_ok cs Spec.q_empty → execs cs Linked.New = Some (q, rs) →
  Linked.Count q = u64 (sum_Z Size (Repr.contents q)).
Proof.
  intros Hok Hrun.
  destruct (execs_refines cs Linked.New) as (q' & Hrun' & _ & Habs); [|done|].
  { exists []. apply Repr.rep_New. }
  rewrite Hrun in Hrun'. injection Hrun' as <- _.
  pose proof (spec_execs_counted cs Spec.q_empty eq_refl) as Hc.
  change (Repr.abs Linked.New) with (@Spec.q_empty T) in Habs.
  by rewrite <- Habs in Hc.
Qed.
End runs.
End Runs.

(** ** Sorted insertion *)

Module SortedQueue.
Section sorted.
Context {T : Type} (key : T → Z).

Definition key_le (x y : T) : Prop := key x ≤ key y.
Definition after (x : T) (y : T) : bool := bool_decide (key x < key y).

Lemma sorted_upward x l : StronglySorted key_le l → upward (after x) l.
Proof.
  intros Hs l1 y l2 z l3 ->. unfold after. rewrite !bool_decide_eq_true. intros Hy.
  assert (key_le y z).
  { apply StronglySorted_app in Hs as (_ & _ & Hs). apply StronglySorted_inv in Hs as [_ Hs].
    rewrite Forall_forall in Hs. apply Hs. set_solver. }
  unfold key_le in *. lia.
Qed.

Lemma span_sorted x l :
  StronglySorted key_le l →
  span (λ y, negb (after x y)) l
    = (filter (λ y, key y ≤ key x) l, filter (λ y, key x < key y) l).
Proof.
  induction 1 as [|y l Hs IH Hy]; simpl; [done|]. rewrite !filter_cons, IH. unfold after.
  repeat case_decide; repeat case_bool_decide; simpl; try lia; [done|].
  rewrite filter_none, filter_all; [done| |];
    (eapply Forall_impl; [exact Hy|]); unfold key_le; intros; lia.
Qed.

Lemma insert_sorted x l :
  StronglySorted key_le l →
  StronglySorted key_le (filter (λ y, key y ≤ key x) l ++ x :: filter (λ y, key x < key y) l).
Proof.
  intros Hs. apply StronglySorted_app. split_and!.
  - intros y z Hy%list_elem_of_filter. rewrite elem_of_cons, list_elem_of_filter.
    unfold key_le. intros [->|?]; lia.
  - by apply StronglySorted_filter.
  - constructor; [by apply StronglySorted_filter|].
    apply Forall_forall. intros y Hy%list_elem_of_filter. unfold key_le. lia.
Qed.

Context (Size : T → Z).

(** On a queue sorted by a key, [PushBefore] with the test "the existing
    key is greater" inserts the item after every entry with a key at most its
    own and before every entry with a greater key (so equal keys keep their
    arrival order), keeps the queue sorted and returns the new total size. *)
Lemma PushBefore_sorted_insert x (q : Linked.WriteQueue T) :
  Repr.wf q → StronglySorted key_le (Repr.contents q) →
  ∃ q', Linked.PushBefore Size x (Some (after x)) q
          = Some (q', u64 (Linked.count q + Size x)) ∧
        Repr.wf q' ∧
        Repr.contents q' = filter (λ y, key y ≤ key x) (Repr.contents q) ++ x ::
                           filter (λ y, key x < key y) (Repr.contents q) ∧
        StronglySorted key_le (Repr.contents q').
Proof.
  intros Hwf Hs.
  destruct (Repr.PushBefore_refines Size x (after x) q Hwf) as (q' & Hq & Hwf' & Habs).
  { by apply sorted_upward. }
  unfold Spec.q_pushBefore in *. simpl in *. rewrite span_sorted in Hq, Habs by done.
  exists q'. split_and!; try done; injection Habs as -> _ _; [done|]. by apply insert_sorted.
Qed.
End sorted.
End SortedQueue.

(** ** The monitor: waiting consumers and signals

    The mutex makes every call atomic up to [cond.Wait], so the interleavings
    of threads are sequences of steps.  A consumer in [Pop] is outside the
    queue, in [waiting] (blocked in [cond.Wait]) or in [woken] (signalled, but
    it has not yet run again); [cond.Signal] wakes one waiting consumer if
    there is one.  [C] is the set of consumer threads. *)

Module Monitor.
Section monitor.
Context {T : Type} (Size : T → Z) (C : gset nat).

Record mon := mkMon { mq : Spec.queue T; waiting : gset nat; woken : gset nat }.

Definition start : mon := mkMon Spec.q_empty ∅ ∅.

(** [q.cond.Signal()] *)
Inductive signal : gset nat → gset nat → gset nat → gset nat → Prop :=
| signal_none K : signal ∅ K ∅ K
| signal_one t W K : t ∈ W → signal W K (W ∖ {[t]}) (K ∪ {[t]}).

(** The calls that signal: the three insertions and [Stop]. *)
Definition signals (c : Runs.call (T := T)) : bool :=
  match c with
  | Runs.CPush _ | Runs.CPutAtTail _ | Runs.CPushBefore _ _ | Runs.CStop => true
  | _ => false
  end.
Definition silent (c : Runs.call (T := T)) : bool :=
  match c with
  | Runs.CFind _ | Runs.CSum _ | Runs.CPopUntil _ | Runs.CCount => true
  | _ => false
  end.

(** A consumer leaves [Pop], or goes (back) to [cond.Wait]. *)
Definition after_pop (t : nat) (p : Spec.popped T) (W : gset nat) : gset nat :=
  match p with Spec.PopBlocked => W ∪ {[t]} | _ => W end.

Inductive mstep : mon → mon → Prop :=
| ms_signalling c q W K W' K' :
    signals c = true → signal W K W' K' →
    mstep (mkMon q W K) (mkMon (Runs.spec_exec Size c q).1 W' K')
| ms_silent c q W K :
    silent c = true → mstep (mkMon q W K) (mkMon (Runs.spec_exec Size c q).1 W K)
| ms_signal q W K W' K' :
    signal W K W' K' → mstep (mkMon q W K) (mkMon q W' K')
| ms_enter t q W K :
    t ∈ C → t ∉ W → t ∉ K →
    mstep (mkMon q W K) (mkMon (Spec.q_pop Size q).1 (after_pop t (Spec.q_pop Size q).2 W) K)
| ms_resume t q W K :
    t ∈ K →
    mstep (mkMon q W K)
      (mkMon (Spec.q_pop Size q).1 (after_pop t (Spec.q_pop Size q).2 W) (K ∖ {[t]})).

Definition reachable (m : mon) : Prop := rtc mstep start m.

(** Items are not left behind: while somebody waits, every item has a woken
    consumer on its way to it. *)
Record minv (m : mon) : Prop := mk_minv {
  minv_sub : waiting m ∪ woken m ⊆ C;
  minv_disj : waiting m ## woken m;
  minv_items : waiting m ≠ ∅ → Spec.qstopped (mq m) = false →
    (length (Spec.items (mq m)) ≤ size (woken m))%nat;
  minv_stop : waiting m ≠ ∅ → Spec.qstopped (mq m) = true → woken m ≠ ∅ ∨ (1 < size C)%nat;
}.

Lemma signalling_length c q :
  signals c = true →
  (length (Spec.items (Runs.spec_exec Size c q).1) ≤ S (length (Spec.items q)))%nat.
Proof.
  destruct c; simpl; try done; intros _; rewrite ?length_app; simpl; try lia.
  unfold Spec.q_pushBefore. pose proof (span_app (λ y, negb (before y)) (Spec.items q)) as Hs.
  destruct (span _ _) as [l1 l2]. simpl in *. rewrite <- Hs, !length_app. simpl. lia.
Qed.

Lemma drain_length {S} (f : T → S → bool * S) l c s :
  (length (Spec.drain Size f l c s).1.1 ≤ length l)%nat.
Proof.
  revert c s. induction l as [|x l IH]; intros c s; simpl; [lia|].
  destruct (f x s) as [[] s']; [|done]. specialize (IH (u64 (c - Size x)) s'). lia.
Qed.

Lemma silent_length c q :
  silent c = true →
  (length (Spec.items (Runs.spec_exec Size c q).1) ≤ length (Spec.items q))%nat ∧
  Spec.qstopped (Runs.spec_exec Size c q).1 = Spec.qstopped q.
Proof.
  destruct c; simpl; try done; intros _. unfold Spec.q_popUntil.
  destruct (Spec.qstopped q) eqn:Hst; [simpl; by rewrite Hst|].
  destruct (Spec.items q) as [|x l] eqn:E; [simpl; by rewrite E, Hst|].
  pose proof (drain_length (Runs.asking f) (x :: l) (Spec.qcount q) []) as Hd.
  by destruct (Spec.drain _ _ _ _ _) as [[? ?] ?].
Qed.

Lemma pop_cases q :
  ((Spec.q_pop Size q).2 = Spec.PopStopped ∧ Spec.qstopped q = true ∧ (Spec.q_pop Size q).1 = q) ∨
  ((Spec.q_pop Size q).2 = Spec.PopBlocked ∧ Spec.qstopped q = false ∧ Spec.items q = [] ∧
     (Spec.q_pop Size q).1 = q) ∨
  (∃ x, (Spec.q_pop Size q).2 = Spec.PopItem x ∧ Spec.qstopped q = false ∧
     Spec.items q = x :: Spec.items (Spec.q_pop Size q).1 ∧
     Spec.qstopped (Spec.q_pop Size q).1 = false).
Proof.
  unfold Spec.q_pop. destruct (Spec.qstopped q) eqn:?; [by left|right].
  destruct (Spec.items q) as [|x [|y l]] eqn:?; [left|right|right]; simpl; eauto.
Qed.

Lemma signal_facts W K W' K' :
  signal W K W' K' → W ## K →
  W' ∪ K' ⊆ W ∪ K ∧ W' ## K' ∧
  (W' ≠ ∅ → W ≠ ∅ ∧ K' ≠ ∅ ∧ size K' = S (size K)).
Proof.
  intros [K0|t W0 K0 Ht] Hd; [set_solver|]. split_and!; [set_solver|set_solver|].
  intros _. split_and!; [set_solver|set_solver|].
  rewrite size_union by set_solver. rewrite size_singleton. lia.
Qed.

Lemma signalling_stopped c q :
  signals c = true →
  Spec.qstopped (Runs.spec_exec Size c q).1 = false → Spec.qstopped q = false.
Proof.
  destruct c; simpl; try done; intros _. unfold Spec.q_pushBefore. by destruct (span _ _).
Qed.

Lemma minv_signalling c q W K W' K' :
  signals c = true → signal W K W' K' → minv (mkMon q W K) →
  minv (mkMon (Runs.spec_exec Size c q).1 W' K').
Proof.
  intros Hc Hsig [Hsub Hd Hit Hst]. simpl in *.
  destruct (signal_facts _ _ _ _ Hsig Hd) as (Hs & Hd' & Hne).
  pose proof (signalling_length c q Hc).
  split; simpl; [set_solver|done| |].
  - intros HW' Hq. destruct (Hne HW') as (HW & _ & ->).
    apply signalling_stopped in Hq; [|done]. specialize (Hit HW Hq). lia.
  - intros HW' _. left. by destruct (Hne HW') as (_ & ? & _).
Qed.

Lemma minv_pop t q W K K' :
  minv (mkMon q W K) → t ∈ C → t ∉ W → (t ∈ K ∧ K' = K ∖ {[t]} ∨ t ∉ K ∧ K' = K) →
  minv (mkMon (Spec.q_pop Size q).1 (after_pop t (Spec.q_pop Size q).2 W) K').
Proof.
  intros [Hsub Hd Hit Hst] HC HW HK. simpl in *.
  assert (K' ⊆ K ∧ t ∉ K' ∧ (size K ≤ S (size K'))%nat) as (HK1 & HK2 & HK3).
  { clear -HK. destruct HK as [[? ->]|[? ->]]; split_and!; try lia; try set_solver.
    rewrite size_difference, size_singleton by (by apply singleton_subseteq_l). lia. }
  destruct (pop_cases q) as [(-> & Hq & ->)|[(-> & Hq & Hi & ->)|(x & -> & Hq & Hi & Hq')]]; simpl.
  - split; simpl; [set_solver|set_solver|congruence|]. intros HWn _. right.
    apply (Nat.lt_le_trans _ (size (W ∪ {[t]}))).
    + rewrite size_union, size_singleton by set_solver.
      assert (size W ≠ 0%nat) by (rewrite size_non_empty_iff; set_solver). lia.
    + apply subseteq_size. set_solver.
  - split; simpl; [set_solver|set_solver| |congruence]. rewrite Hi. simpl. lia.
  - split; simpl; [set_solver|set_solver| |congruence].
    intros HWn _. specialize (Hit HWn Hq). rewrite Hi in Hit. simpl in Hit. lia.
Qed.

Lemma minv_step m m' : minv m → mstep m m' → minv m'.
Proof.
  intros Hinv Hstep. destruct Hstep as [c q W K W' K' Hc Hs|c q W K Hc|q W K W' K' Hs|t q W K HC HW HK|t q W K HK].
  - by eapply minv_signalling.
  - destruct (silent_length c q Hc) as [Hl Hq]. destruct Hinv as [Hsub Hd Hit Hst]. simpl in *.
    split; simpl; try done; rewrite Hq; [|done]. intros H1 H2. specialize (Hit H1 H2). lia.
  - destruct Hinv as [Hsub Hd Hit Hst]. simpl in *.
    destruct (signal_facts _ _ _ _ Hs Hd) as (Hs' & Hd' & Hne).
    split; simpl; [set_solver|done| |]; intros HW'; destruct (Hne HW') as (HW & ? & HK').
    + intros Hq. specialize (Hit HW Hq). lia.
    + by left.
  - apply (minv_pop t q W K K); auto.
  - destruct Hinv as [Hsub Hd Hit Hst] eqn:E. simpl in *.
    apply (minv_pop t q W K); auto; set_solver.
Qed.

Lemma minv_reachable m : reachable m → minv m.
Proof.
  unfold reachable. revert m. apply rtc_ind_r; [by split|].
  intros. by eapply minv_step.
Qed.

(** C10: no wake-up is lost.  In every interleaving of producers, consumers and
    [Stop]: while some consumer is blocked in [Pop] on a queue that is not
    stopped, each item has its own woken consumer; and when there is only one
    consumer thread, it is never left blocked on a non-empty or stopped queue
    (so the single [Signal] of [Stop] is enough to end it). *)
Theorem no_lost_wakeup m :
  reachable m → waiting m ≠ ∅ →
  (Spec.qstopped (mq m) = false → (length (Spec.items (mq m)) ≤ size (woken m))%nat) ∧
  (size C = 1%nat → Spec.items (mq m) = [] ∧ Spec.qstopped (mq m) = false).
Proof.
  intros [Hsub Hd Hit Hst]%minv_reachable HW. split; [auto|]. intros HC.
  assert (woken m = ∅) as HK.
  { apply leibniz_equiv, size_empty_inv. apply subseteq_size in Hsub. rewrite size_union, HC in Hsub by done.
    assert (size (waiting m) ≠ 0%nat) by (rewrite size_non_empty_iff; set_solver). lia. }
  destruct (Spec.qstopped (mq m)) eqn:Hq.
  - destruct (Hst HW eq_refl) as [?|?]; [done|lia].
  - split; [|done]. specialize (Hit HW eq_refl). rewrite HK, size_empty in Hit.
    destruct (Spec.items (mq m)); [done|simpl in Hit; lia].
Qed.
End monitor.
Arguments mkMon {_} _ _ _.
Arguments mq {_} _.
Arguments waiting {_} _.
Arguments woken {_} _.
Arguments start {_}.

(** A consumer that came first is waiting: the witness of [no_lost_wakeup]. *)
Lemma consumer_waits : reachable (λ x : Z, x) {[0%nat]} (mkMon Spec.q_empty {[0%nat]} ∅).
Proof.
  eapply rtc_l; [|apply rtc_refl].
  replace {[0%nat]} with (∅ ∪ {[0%nat]} : gset nat) at 2 by set_solver.
  apply (ms_enter (λ x : Z, x) {[0%nat]} 0%nat Spec.q_empty ∅ ∅); set_solver.
Qed.

Lemma no_lost_wakeup_witness :
  reachable (λ x : Z, x) {[0%nat]} (mkMon Spec.q_empty {[0%nat]} ∅) ∧
  Spec.qstopped (T := Z) Spec.q_empty = false.
Proof.
  split; [apply consumer_waits|].
  apply (no_lost_wakeup (λ x : Z, x) {[0%nat]} _ consumer_waits); [set_solver|].
  by rewrite size_singleton.
Defined.
End Monitor.

(** ** Concrete runs *)

Module Samples.
Import Runs.
Definition id_size (x : Z) : Z := x.
Definition greater (x : Z) : Z → bool := SortedQueue.after id_size x.
Definition sample : list (call (T := Z)) :=
  [CPushBefore 5 (greater 5); CPushBefore 9 (greater 9); CPushBefore 7 (greater 7);
   CPutAtTail 1; CPop; CPopUntil (λ x, bool_decide (x < 7)); CFind (greater 7); CSum id_size].

(** The run of the sample on the pointers, with every reply. *)
Example sample_run :
  snd <$> execs id_size sample Linked.New =
    Some [RCount 5; RCount 14; RCount 21; RCount 22; RPopped (Spec.PopItem 1);
          RAsked [5; 7]; RFound (Some 9); RCount 16].
Proof. vm_compute. reflexivity. Qed.

Lemma sample_ok : calls_ok id_size sample Spec.q_empty.
Proof.
  repeat split; apply (SortedQueue.sorted_upward id_size); vm_compute; repeat constructor;
    discriminate.
Qed.

Lemma queue_programs_refine_witness :
  ∃ q, execs id_size sample Linked.New = Some (q, (spec_execs id_size sample Spec.q_empty).2) ∧
       Repr.contents q = [7; 9].
Proof.
  destruct (queue_programs_refine id_size sample sample_ok) as (q & Hq & _ & Ha).
  exists q. split; [exact Hq|]. change (Spec.items (Repr.abs q) = [7; 9]). rewrite Ha. reflexivity.
Defined.

Lemma count_is_total_size_witness :
  ∃ q rs, execs id_size sample Linked.New = Some (q, rs) ∧
          Linked.Count q = u64 (sum_Z id_size (Repr.contents q)).
Proof.
  destruct (execs_refines id_size sample Linked.New) as (q & Hq & _);
    [exists []; apply Repr.rep_New|exact sample_ok|].
  exists q, (spec_execs id_size sample (Repr.abs Linked.New)).2. split; [exact Hq|].
  exact (count_is_total_size id_size sample q _ sample_ok Hq).
Defined.

Lemma PushBefore_sorted_insert_witness :
  ∃ q, Linked.PushBefore id_size 5 (Some (SortedQueue.after id_size 5)) Linked.New
         = Some (q, 5) ∧ Repr.contents q = [5].
Proof.
  destruct (SortedQueue.PushBefore_sorted_insert id_size id_size 5 Linked.New) as (q & Hq & _ & Hc & _).
  - exists []. apply Repr.rep_New.
  - constructor.
  - exists q. split; [exact Hq|exact Hc].
Defined.
End Samples.
