(* ===== verification/ParallelIO.v ===== *)
(** * Parallel flushing (src/parallelio/parallel_io.go)

    A channel of requests and the workers that take them.  A worker is idle, or
    inside the handler with a request, or has left its loop.  A step is one
    channel operation or the return of a handler; the handler itself is the
    flush of a writer, of which only the error matters here. *)

From stdpp Require Import base numbers list strings.
From S2P Require Import Prelude.

Section parallelio.
Context {B : Type}.

Record TrackedIORequest := mkTR { Request : B; WorkerID : Z; RequestID : Z }.

(** One worker of [processIO]: the request in its handler, its counter, and
    whether it has returned. *)
Record pworker := mkPW { handling : option B; requestID : Z; finished : bool }.

Record parallelIO := mkPIO {
  requestCh : list B;
  workers : list pworker;
  doneCh : bool;
  (** the calls of the handler that have returned, and whether without error *)
  handled : list (TrackedIORequest * bool) }.

(** [NewParallelIO] starts at least one worker. *)
Definition NewParallelIO (numWorkers : Z) : parallelIO :=
  let n := if bool_decide (numWorkers = 0) then 1 else numWorkers in
  mkPIO [] (replicate (Z.to_nat n) (mkPW None 1 false)) false [].

(** [Submit] waits for room in the channel, whose capacity is the number of
    workers. *)
Definition Submit (req : B) (io : parallelIO) : option parallelIO :=
  if bool_decide (length (requestCh io) < length (workers io))%nat
  then Some (mkPIO (requestCh io ++ [req]) (workers io) (doneCh io) (handled io))
  else None.

(** The cases of a worker's loop: a request is taken (also when the channel
    [doneCh] is closed, since [select] may choose either) ... *)
Definition processIO_take (i : nat) (io : parallelIO) : option parallelIO :=
  match requestCh io, workers io !! i with
  | b :: r, Some (mkPW None n false) =>
      Some (mkPIO r (<[i := mkPW (Some b) n false]> (workers io)) (doneCh io) (handled io))
  | _, _ => None
  end.

(** ... the handler returns, with or without an error ... *)
Definition processIO_handled (i : nat) (ok : bool) (io : parallelIO) : option parallelIO :=
  match workers io !! i with
  | Some (mkPW (Some b) n false) =>
      Some (mkPIO (requestCh io) (<[i := mkPW None (u64 (n + 1)) false]> (workers io)) (doneCh io)
                  (handled io ++ [(mkTR b (Z.of_nat i + 1) n, ok)]))
  | _ => None
  end.

(** ... or the worker ends. *)
Definition processIO_exit (i : nat) (io : parallelIO) : option parallelIO :=
  match workers io !! i with
  | Some (mkPW None n false) =>
      if doneCh io then Some (mkPIO (requestCh io) (<[i := mkPW None n true]> (workers io)) (doneCh io) (handled io))
      else None
  | _ => None
  end.

(** [Close] closes the channel and then waits for the workers. *)
Definition Close_begin (io : parallelIO) : res parallelIO :=
  if doneCh io then Panic "close of closed channel"
  else Ok (mkPIO (requestCh io) (workers io) true (handled io)).
Definition Close_returns (io : parallelIO) : bool := doneCh io && forallb finished (workers io).

Inductive io_event :=
| IOSubmit (b : B)
| IOTake (i : nat)
| IOHandled (i : nat) (ok : bool)
| IOExit (i : nat)
| IOClose.

Definition io_step (e : io_event) (io : parallelIO) : option parallelIO :=
  match e with
  | IOSubmit b => Submit b io
  | IOTake i => processIO_take i io
  | IOHandled i ok => processIO_handled i ok io
  | IOExit i => processIO_exit i io
  | IOClose => match Close_begin io with Ok io => Some io | _ => None end
  end.

Inductive io_run (numWorkers : Z) : list io_event → parallelIO → Prop :=
| io_run_new : io_run numWorkers [] (NewParallelIO numWorkers)
| io_run_snoc es io e io' : io_run numWorkers es io → io_step e io = Some io' → io_run numWorkers (es ++ [e]) io'.

(** ** Accounting *)

Definition inflight (io : parallelIO) : list B := omap handling (workers io).
Definition answered (io : parallelIO) : list B := Request ∘ fst <$> handled io.
(** Every request there is, nearest to its answer first. *)
Definition requests (io : parallelIO) : list B := answered io ++ inflight io ++ requestCh io.

Lemma omap_insert_Permutation (ws : list pworker) i w w' :
  ws !! i = Some w →
  option_list (handling w) ++ omap handling (<[i := w']> ws) ≡ₚ option_list (handling w') ++ omap handling ws.
Proof using Type.
  intros H. pose proof (lookup_lt_Some _ _ _ H) as Hl.
  assert (ws = take i ws ++ w :: drop (S i) ws) as E by (symmetry; by apply take_drop_middle).
  rewrite insert_take_drop by done. rewrite E at 3. rewrite !omap_app. simpl.
  destruct (handling w), (handling w'); simpl; rewrite ?Permutation_middle; try done. by rewrite perm_swap.
Qed.

Lemma Submit_spec b io io' :
  Submit b io = Some io' → requests io' = requests io ++ [b] ∧ workers io' = workers io ∧
    doneCh io' = doneCh io ∧ handled io' = handled io ∧ requestCh io' = requestCh io ++ [b].
Proof using Type.
  unfold Submit. case_bool_decide; [|done]. intros [= <-]. split_and!; try done.
  unfold requests, inflight, answered. simpl. app_assoc.
Qed.

Lemma take_inv i io io' :
  processIO_take i io = Some io' → ∃ b r n, requestCh io = b :: r ∧ workers io !! i = Some (mkPW None n false) ∧
    io' = mkPIO r (<[i := mkPW (Some b) n false]> (workers io)) (doneCh io) (handled io).
Proof using Type.
  unfold processIO_take. destruct (requestCh io) as [|b r]; [done|].
  destruct (workers io !! i) as [[[?|] n []]|]; try done. intros [= <-]. eauto 6.
Qed.

Lemma handled_inv i ok io io' :
  processIO_handled i ok io = Some io' → ∃ b n, workers io !! i = Some (mkPW (Some b) n false) ∧
    io' = mkPIO (requestCh io) (<[i := mkPW None (u64 (n + 1)) false]> (workers io)) (doneCh io)
                (handled io ++ [(mkTR b (Z.of_nat i + 1) n, ok)]).
Proof using Type.
  unfold processIO_handled. destruct (workers io !! i) as [[[b|] n []]|]; try done. intros [= <-]. eauto.
Qed.

Lemma exit_inv i io io' :
  processIO_exit i io = Some io' → ∃ n, workers io !! i = Some (mkPW None n false) ∧ doneCh io = true ∧
    io' = mkPIO (requestCh io) (<[i := mkPW None n true]> (workers io)) (doneCh io) (handled io).
Proof using Type.
  unfold processIO_exit. destruct (workers io !! i) as [[[b|] n []]|]; try done.
  destruct (doneCh io) eqn:?; [|done]. intros [= <-]. eauto.
Qed.

Lemma take_requests i io io' : processIO_take i io = Some io' → requests io' ≡ₚ requests io.
Proof using Type.
  intros (b & r & n & E & H & ->)%take_inv. unfold requests, inflight, answered. simpl. rewrite E.
  pose proof (omap_insert_Permutation _ _ _ (mkPW (Some b) n false) H) as HP. simpl in HP.
  rewrite HP. by rewrite <- Permutation_middle.
Qed.

Lemma handled_requests i ok io io' : processIO_handled i ok io = Some io' → requests io' ≡ₚ requests io.
Proof using Type.
  intros (b & n & H & ->)%handled_inv. unfold requests, inflight, answered. simpl.
  pose proof (omap_insert_Permutation _ _ _ (mkPW None (u64 (n + 1)) false) H) as HP. simpl in HP.
  rewrite <- HP, fmap_app. simpl. app_assoc.
Qed.

Lemma exit_requests i io io' : processIO_exit i io = Some io' → requests io' ≡ₚ requests io.
Proof using Type.
  intros (n & H & _ & ->)%exit_inv. unfold requests, inflight, answered. simpl.
  pose proof (omap_insert_Permutation _ _ _ (mkPW None n true) H) as HP. simpl in HP. by rewrite HP.
Qed.

(** The requests submitted. *)
Definition submitted (es : list io_event) : list B := es ≫= λ e, match e with IOSubmit b => [b] | _ => [] end.

Lemma submitted_snoc es e : submitted (es ++ [e]) = submitted es ++ match e with IOSubmit b => [b] | _ => [] end.
Proof using Type. unfold submitted. rewrite bind_app. simpl. by rewrite app_nil_r. Qed.

Lemma step_requests e io io' :
  io_step e io = Some io' → requests io' ≡ₚ requests io ++ match e with IOSubmit b => [b] | _ => [] end.
Proof using Type.
  destruct e as [b|i|i ok|i|]; simpl; rewrite ?app_nil_r.
  - intros [-> _]%Submit_spec. done.
  - apply take_requests.
  - apply handled_requests.
  - apply exit_requests.
  - unfold Close_begin. destruct (doneCh io); [done|]. by intros [= <-].
Qed.

Lemma run_requests n es io : io_run n es io → requests io ≡ₚ submitted es.
Proof using Type.
  induction 1 as [|es io e io' _ IH Hstep].
  - unfold requests, inflight, answered. simpl. rewrite app_nil_r.
    by induction (Z.to_nat _) as [|k IH].
  - by rewrite (step_requests _ _ _ Hstep), IH, submitted_snoc.
Qed.

(** ** Invariant *)

(** The counters of a worker's calls so far. *)
Definition ids_of (i : nat) (io : parallelIO) : list Z :=
  RequestID ∘ fst <$> filter (λ p, WorkerID p.1 = Z.of_nat i + 1) (handled io).

Definition io_inv (numWorkers : Z) (io : parallelIO) : Prop :=
  (length (workers io) = Z.to_nat (if bool_decide (numWorkers = 0) then 1 else numWorkers)) ∧
  (length (requestCh io) ≤ length (workers io))%nat ∧
  (doneCh io = false → Forall (λ w, finished w = false) (workers io)) ∧
  Forall (λ w, finished w = true → handling w = None) (workers io) ∧
  (∀ i w, workers io !! i = Some w → ids_of i io = (λ k, u64 (Z.of_nat k + 1)) <$> seq 0 (length (ids_of i io)) ∧
     requestID w = u64 (Z.of_nat (length (ids_of i io)) + 1)).

Lemma new_inv n : io_inv n (NewParallelIO n).
Proof using Type.
  unfold io_inv, NewParallelIO. cbn [workers requestCh doneCh]. rewrite length_replicate. split_and!; [done|simpl; lia|..].
  - intros _. by apply Forall_replicate.
  - by apply Forall_replicate.
  - intros i w [-> _]%lookup_replicate. done.
Qed.

Lemma ids_of_same rq ws d i (io : parallelIO) : ids_of i (mkPIO rq ws d (handled io)) = ids_of i io.
Proof using Type. done. Qed.

Lemma ids_of_handled rq ws d i j b m ok (io : parallelIO) :
  ids_of j (mkPIO rq ws d (handled io ++ [(mkTR b (Z.of_nat i + 1) m, ok)])) =
  ids_of j io ++ if decide (i = j) then [m] else [].
Proof using Type.
  unfold ids_of. simpl. rewrite filter_app, fmap_app. f_equal.
  case_decide as E; [by subst; rewrite filter_cons_True|].
  rewrite filter_cons_False; [done|]. simpl. lia.
Qed.

Lemma take_inv_io i n io io' : io_inv n io → processIO_take i io = Some io' → io_inv n io'.
Proof using Type.
  intros (H1 & H2 & H3 & H4 & H5) (b & r & k & E & Hw & ->)%take_inv.
  unfold io_inv. cbn [workers requestCh doneCh]. rewrite length_insert. split_and!; [done|rewrite E in H2; simpl in H2; lia|..].
  - intros Hd. apply Forall_insert; auto.
  - by apply Forall_insert.
  - intros j w Hj. rewrite ids_of_same.
    apply list_lookup_insert_Some in Hj as [(-> & <- & _)|[_ Hj]]; [|by apply H5].
    apply (H5 _ _ Hw).
Qed.

Lemma handled_inv_io i ok n io io' : io_inv n io → processIO_handled i ok io = Some io' → io_inv n io'.
Proof using Type.
  intros (H1 & H2 & H3 & H4 & H5) (b & k & Hw & ->)%handled_inv.
  unfold io_inv. cbn [workers requestCh doneCh]. rewrite length_insert. split_and!; [done|done|..].
  - intros Hd. apply Forall_insert; auto.
  - by apply Forall_insert.
  - intros j w Hj. rewrite ids_of_handled.
    apply list_lookup_insert_Some in Hj as [(-> & <- & _)|[Hne Hj]].
    + rewrite decide_True by done. destruct (H5 _ _ Hw) as [E1 E2]. cbn [requestID] in *. rewrite length_app. simpl.
      rewrite Nat.add_1_r, seq_S, fmap_app, <- E1. simpl. rewrite <- E2. split; [done|].
      rewrite E2, u64_add_l. f_equal. lia.
    + rewrite decide_False by done. rewrite app_nil_r. by apply H5.
Qed.

Lemma exit_inv_io i n io io' : io_inv n io → processIO_exit i io = Some io' → io_inv n io'.
Proof using Type.
  intros (H1 & H2 & H3 & H4 & H5) (k & Hw & Hd & ->)%exit_inv.
  unfold io_inv. cbn [workers requestCh doneCh]. rewrite length_insert. split_and!; [done|done|..].
  - congruence.
  - by apply Forall_insert.
  - intros j w Hj. rewrite ids_of_same.
    apply list_lookup_insert_Some in Hj as [(-> & <- & _)|[_ Hj]]; [|by apply H5].
    apply (H5 _ _ Hw).
Qed.

Lemma Submit_inv_io b n io io' : io_inv n io → Submit b io = Some io' → io_inv n io'.
Proof using Type.
  unfold Submit. intros Hi. case_bool_decide; [|done]. intros [= <-]. destruct Hi as (H1 & H2 & H3 & H4 & H5).
  unfold io_inv. cbn [workers requestCh doneCh]. rewrite length_app. simpl. split_and!; try done. lia.
Qed.

Lemma step_inv_io e n io io' : io_inv n io → io_step e io = Some io' → io_inv n io'.
Proof using Type.
  destruct e; simpl; eauto using Submit_inv_io, take_inv_io, handled_inv_io, exit_inv_io.
  unfold Close_begin. intros (H1 & H2 & H3 & H4 & H5). destruct (doneCh io); [done|]. by intros [= <-].
Qed.

Lemma run_inv_io n es io : io_run n es io → io_inv n io.
Proof using Type. induction 1; eauto using new_inv, step_inv_io. Qed.

(** ** Progress *)

(** The work left: two steps for a request in the channel, one for a request
    in a handler. *)
Definition io_work (io : parallelIO) : nat := 2 * length (requestCh io) + length (inflight io).

Lemma inflight_nil io : inflight io = [] → Forall (λ w, handling w = None) (workers io).
Proof using Type.
  unfold inflight. induction (workers io) as [|w ws IH]; [constructor|]. simpl.
  destruct (handling w) eqn:E; [done|]. intros H. constructor; auto.
Qed.

Lemma inflight_cons io b r :
  inflight io = b :: r → ∃ i n f, workers io !! i = Some (mkPW (Some b) n f).
Proof using Type.
  unfold inflight. induction (workers io) as [|[h n f] ws IH]; [done|]. simpl.
  destruct h as [b'|]; simpl; [intros [= -> _]; exists 0%nat, n, f; done|]. intros (i & k & g & Hi)%IH. by exists (S i), k, g.
Qed.

Lemma work_requests io io' :
  requests io' ≡ₚ requests io → answered io' = answered io → (length (requestCh io') < length (requestCh io))%nat →
  (io_work io' < io_work io)%nat.
Proof using Type.
  unfold requests, io_work. intros HP HA HL. apply Permutation_length in HP. rewrite !length_app, HA in HP. lia.
Qed.

Lemma io_progress n io :
  io_inv n io → doneCh io = false → 0 ≤ n → (0 < io_work io)%nat →
  ∃ e io', io_step e io = Some io' ∧ (∃ i, e = IOTake i ∨ e = IOHandled i true) ∧ (io_work io' < io_work io)%nat ∧
    doneCh io' = false.
Proof using Type.
  intros (Hlen & _ & Hfin & _) Hd Hn Hw. specialize (Hfin Hd). destruct (inflight io) as [|b r] eqn:Ei.
  - destruct (requestCh io) as [|b r] eqn:Er; [unfold io_work in Hw; rewrite Ei, Er in Hw; simpl in Hw; lia|].
    pose proof (inflight_nil _ Ei) as Hidle.
    destruct (workers io) as [|[h k f] ws] eqn:Ew.
    { simpl in Hlen. case_bool_decide; lia. }
    apply Forall_cons in Hidle as [Hh _], Hfin as [Hf _]. simpl in Hh, Hf. subst h f.
    assert (∃ io', processIO_take 0 io = Some io') as [io' Hs].
    { unfold processIO_take. rewrite Er, Ew. simpl. eauto. }
    exists (IOTake 0), io'. pose proof (take_requests _ _ _ Hs) as HP. split_and!; [done|eauto|..].
    + apply work_requests; [done| |]; apply take_inv in Hs as (b' & r' & k' & E & _ & ->); [done|]. rewrite E. simpl. lia.
    + by apply take_inv in Hs as (b' & r' & k' & E & _ & ->).
  - destruct (inflight_cons _ _ _ Ei) as (i & k & f & Hi).
    pose proof (Forall_lookup_1 _ _ _ _ Hfin Hi) as Hf. simpl in Hf. subst f.
    assert (∃ io', processIO_handled i true io = Some io') as [io' Hs].
    { unfold processIO_handled. rewrite Hi. eauto. }
    exists (IOHandled i true), io'. pose proof (handled_requests _ _ _ _ Hs) as HP. split_and!; [done|eauto|..];
      apply handled_inv in Hs as (b' & k' & E & ->); [|done].
    apply Permutation_length in HP. unfold requests, answered, io_work in *. simpl in *.
    rewrite !length_app, !length_fmap, length_app in HP. simpl in HP. lia.
Qed.

(** The channel has room when no worker has anything to do. *)
Lemma Submit_room b n io : io_inv n io → 0 ≤ n → io_work io = 0%nat → is_Some (Submit b io).
Proof using Type.
  intros (Hlen & _) Hn Hw. unfold Submit. rewrite bool_decide_true; [done|].
  unfold io_work in Hw. rewrite Hlen. case_bool_decide; lia.
Qed.

Lemma Submit_work b io io' : Submit b io = Some io' → io_work io' = (io_work io + 2)%nat ∧ doneCh io' = doneCh io.
Proof using Type.
  intros (_ & E1 & E2 & _ & E3)%Submit_spec. unfold io_work, inflight. rewrite E1, E3, length_app. simpl. split; [lia|done].
Qed.

(** Every request submitted is waiting, in the hands of one worker, or was
    handled once, and none is lost or handled twice, in every interleaving of
    submissions, workers and shutdown; the calls of a worker carry the
    consecutive counters 1, 2, ...; and when [Close] returns no request is
    still being handled. *)
Lemma requests_handled_once n es io :
  io_run n es io →
  answered io ++ inflight io ++ requestCh io ≡ₚ submitted es ∧
  (∀ i w, workers io !! i = Some w → ids_of i io = (λ k, u64 (Z.of_nat k + 1)) <$> seq 0 (length (ids_of i io))) ∧
  (Close_returns io = true → inflight io = []).
Proof using Type.
  intros H. split_and!; [by apply (run_requests n)|..].
  - destruct (run_inv_io _ _ _ H) as (_ & _ & _ & _ & Hi). intros i w Hw. by apply (Hi i w).
  - destruct (run_inv_io _ _ _ H) as (_ & _ & _ & Hi & _). unfold Close_returns, inflight.
    intros [_ Hall]%andb_prop.
    induction Hi as [|w ws Hw _ IH]; [done|]. simpl in *. apply andb_prop in Hall as [H1 H2].
    rewrite (Hw H1). by apply IH.
Qed.
End parallelio.
Arguments TrackedIORequest : clear implicits.
Arguments pworker : clear implicits.
Arguments parallelIO : clear implicits.
Arguments io_event : clear implicits.

Module Samples.
(** Two workers: the second request is answered before the first. *)
Definition schedule : list (io_event nat) :=
  [IOSubmit 10%nat; IOSubmit 20%nat; IOTake 0; IOTake 1; IOHandled 1 true; IOHandled 0 true; IOClose; IOExit 0; IOExit 1].
Definition last_state : parallelIO nat :=
  mkPIO [] [mkPW None 2 true; mkPW None 2 true] true [(mkTR 20%nat 2 1, true); (mkTR 10%nat 1 1, true)].

Lemma io_run_foldl {B} n es (io io' : parallelIO B) es0 :
  io_run n es0 io → foldl (λ o e, o ≫= io_step e) (Some io) es = Some io' → io_run n (es0 ++ es) io'.
Proof.
  revert es0 io. induction es as [|e es IH]; intros es0 io H E; simpl in E.
  - injection E as <-. by rewrite app_nil_r.
  - destruct (io_step e io) as [io1|] eqn:E1.
    + rewrite cons_middle, (assoc_L (++)). apply (IH _ io1); [by eapply io_run_snoc|done].
    + exfalso. clear -E. induction es; simpl in E; [done|auto].
Qed.

Lemma requests_handled_once_witness :
  io_run 2 schedule last_state ∧ answered last_state ≡ₚ [10%nat; 20%nat] ∧ inflight last_state = [].
Proof.
  assert (io_run 2 schedule last_state) as H.
  { apply (io_run_foldl 2 schedule (NewParallelIO 2) last_state []); [constructor|reflexivity]. }
  destruct (requests_handled_once 2 schedule last_state H) as (H1 & _ & H3).
  split_and!; [exact H| |exact (H3 eq_refl)]. exact H1.
Defined.
End Samples.
