(* ===== verification/OrderedMap.v ===== *)
(** * Row storage: key maps, ordered maps and their pool

    - [KeyMap]: src/keymap/key_map.go, [Arena]: src/keymap/key_map_arena.go;
    - [OMap]: src/orderedmap/ordered_map.go;
    - [Pool]: src/entrypool/entry_pool.go.

    A row of a table is an [OrderedMap]: parallel slices of values and set
    flags, indexed through a [KeyMap] shared by all rows of the table.  The
    contract of an ordered map is a finite map ([OMap.abs]) together with the
    order of its keys ([OMap.Iter]). *)

From stdpp Require Import base numbers list gmap strings.
From S2P Require Import Prelude GoStrings.

(** Indexing a slice; out of range is a run-time panic. *)
Definition index {A} (l : list A) (i : Z) : res A :=
  if bool_decide (0 ≤ i) then
    match l !! Z.to_nat i with Some x => Ok x | None => Panic "index out of range" end
  else Panic "index out of range".

(** [l[i] = x] *)
Definition store {A} (l : list A) (i : Z) (x : A) : res (list A) :=
  _ ← index l i; Ok (<[Z.to_nat i := x]> l).

Lemma index_Ok {A} (l : list A) (i : nat) x : l !! i = Some x → index l (Z.of_nat i) = Ok x.
Proof. intros H. unfold index. rewrite bool_decide_true, Nat2Z.id, H by lia. done. Qed.

Lemma store_Ok {A} (l : list A) (i : nat) x :
  (i < length l)%nat → store l (Z.of_nat i) x = Ok (<[i := x]> l).
Proof.
  intros [y Hy]%lookup_lt_is_Some. unfold store. rewrite (index_Ok _ _ y Hy). simpl.
  by rewrite Nat2Z.id.
Qed.

(** ** Key maps *)

Module KeyMap.
Record KeyMap := mkKM { keysMap : gmap string Z; keysArr : list string; len : Z }.

(** The loop of [New]: a repeated key keeps the index of its last occurrence. *)
Fixpoint fill (i : nat) (keys : list string) (m : gmap string Z) (arr : list string)
    : gmap string Z * list string :=
  match keys with
  | [] => (m, arr)
  | k :: r => fill (S i) r (<[k := Z.of_nat i]> m) (<[i := k]> arr)
  end.

Definition New (keys : list string) : KeyMap :=
  let '(m, arr) := fill 0 keys ∅ (replicate (length keys) EmptyString) in
  mkKM m arr (Z.of_nat (length keys)).

Definition GetIndex (km : KeyMap) (key : string) : Z := default (-1) (keysMap km !! key).
Definition Len (km : KeyMap) : Z := len km.
Definition Keys (km : KeyMap) : list string := keysArr km.

(** A key's index is that of one of its occurrences, and every key has one. *)
Record wf (km : KeyMap) : Prop := mk_wf {
  wf_len : len km = Z.of_nat (length (keysArr km));
  wf_index k z : keysMap km !! k = Some z → ∃ i, z = Z.of_nat i ∧ keysArr km !! i = Some k;
  wf_total i k : keysArr km !! i = Some k → is_Some (keysMap km !! k);
}.

Lemma fill_spec keys pre m :
  (∀ k z, m !! k = Some z → ∃ i, z = Z.of_nat i ∧ pre !! i = Some k) →
  (∀ i k, pre !! i = Some k → is_Some (m !! k)) →
  let '(m', arr) := fill (length pre) keys m (pre ++ replicate (length keys) EmptyString) in
  arr = pre ++ keys ∧
  (∀ k z, m' !! k = Some z → ∃ i, z = Z.of_nat i ∧ (pre ++ keys) !! i = Some k) ∧
  (∀ i k, (pre ++ keys) !! i = Some k → is_Some (m' !! k)).
Proof.
  revert pre m. induction keys as [|k r IH]; intros pre m Hm Ht; simpl.
  - rewrite app_nil_r. done.
  - specialize (IH (pre ++ [k]) (<[k := Z.of_nat (length pre)]> m)).
    rewrite length_app, Nat.add_1_r in IH. simpl in IH.
    rewrite insert_app_r_alt, Nat.sub_diag by lia. simpl.
    assert (∀ l, pre ++ k :: l = (pre ++ [k]) ++ l) as E by (intros; by rewrite <- (assoc_L (++))).
    rewrite (E r), (E (replicate _ _)). apply IH.
    + intros k' z. destruct (decide (k' = k)) as [->|Hne].
      * rewrite lookup_insert_eq. intros [= <-]. exists (length pre).
        split; [done|]. by rewrite lookup_app_r, Nat.sub_diag by lia.
      * rewrite lookup_insert_ne by done. intros (i & -> & Hi)%Hm.
        exists i. split; [done|]. by apply lookup_app_l_Some.
    + intros i k' [Hi|[Hl Hi]]%lookup_app_Some.
      * destruct (decide (k' = k)) as [->|]; [by rewrite lookup_insert_eq|].
        rewrite lookup_insert_ne by done. by eapply Ht.
      * apply list_lookup_singleton_Some in Hi as [_ ->]. by rewrite lookup_insert_eq.
Qed.

Lemma key_map_wf keys : wf (New keys) ∧ keysArr (New keys) = keys.
Proof.
  unfold New. pose proof (fill_spec keys [] ∅) as H. simpl in H.
  destruct (fill _ _ _ _) as [m arr]. simpl. destruct H as (-> & H1 & H2); [done|done|].
  split; [|done]. by split.
Qed.

Lemma GetIndex_Some km k z :
  wf km → GetIndex km k = z → 0 ≤ z → ∃ i, z = Z.of_nat i ∧ keysArr km !! i = Some k ∧
                                            keysMap km !! k = Some z.
Proof.
  intros Hwf Hz Hp. unfold GetIndex in Hz. destruct (keysMap km !! k) as [z'|] eqn:E; simpl in Hz; [|lia].
  subst. destruct (wf_index km Hwf k z E) as (i & -> & Hi). eauto.
Qed.

Lemma GetIndex_New names k : 0 ≤ GetIndex (New names) k ↔ k ∈ names.
Proof.
  destruct (key_map_wf names) as [Hwf E]. rewrite <- E at 2. split.
  - intros H. destruct (GetIndex_Some _ k _ Hwf eq_refl H) as (i & _ & Hi & _). by eapply list_elem_of_lookup_2.
  - intros [i Hi]%list_elem_of_lookup. destruct (wf_total _ Hwf _ _ Hi) as [z Hz].
    unfold GetIndex. rewrite Hz. simpl. destruct (wf_index _ Hwf _ _ Hz) as (j & -> & _). lia.
Qed.
End KeyMap.

(** ** The arena of key maps *)

Module Arena.
Import KeyMap.
Definition arena := gmap (string * string) KeyMap.
Definition NewArena : arena := ∅.
Definition Add (name version : string) (km : KeyMap) (a : arena) : arena :=
  <[(name, version) := km]> a.
Definition Get (name version : string) (a : arena) : option KeyMap := a !! (name, version).
End Arena.

(** ** Ordered maps *)

Module OMap.
Import KeyMap.
Section omap.
Context {V : Type} (vnil : V).

Record OrderedMap := mkOM {
  values : list V; set : list bool; size : Z; keyMap : KeyMap }.

Definition New (km : KeyMap) : OrderedMap :=
  mkOM (replicate (Z.to_nat (Len km)) vnil) (replicate (Z.to_nat (Len km)) false) 0 km.

Definition Set_ (k : string) (v : V) (om : OrderedMap) : res OrderedMap :=
  let i := GetIndex (keyMap om) k in
  if bool_decide (i < 0) then Panic "(Set) key not found in keymap"
  else if bool_decide (Len (keyMap om) ≤ i) then Panic "(Set) key index out of range"
  else
    b ← index (set om) i;
    '(s, n) ← (if negb b then s ← store (set om) i true; Ok (s, u32 (size om + 1))
               else Ok (set om, size om));
    vs ← store (values om) i v;
    Ok (mkOM vs s n (keyMap om)).

Definition Get (k : string) (om : OrderedMap) : res (V * bool) :=
  let i := GetIndex (keyMap om) k in
  if bool_decide (i < 0) then Ok (vnil, false)
  else
    b ← index (set om) i;
    if negb b then Ok (vnil, false) else v ← index (values om) i; Ok (v, true).

Definition GetValue (k : string) (om : OrderedMap) : res V :=
  let i := GetIndex (keyMap om) k in
  if bool_decide (i < 0) then Panic "(Get) key not found in keymap"
  else
    b ← index (set om) i;
    if negb b then Ok vnil else index (values om) i.

Definition Size (om : OrderedMap) : Z := size om.

(** The pairs [Iter] yields, in the order of the key map's keys. *)
Fixpoint iter_from (i : nat) (keys : list string) (om : OrderedMap) : res (list (string * V)) :=
  match keys with
  | [] => Ok []
  | k :: r =>
      b ← index (set om) (Z.of_nat i);
      if negb b then iter_from (S i) r om
      else
        v ← index (values om) (Z.of_nat i);
        rest ← iter_from (S i) r om;
        Ok ((k, v) :: rest)
  end.

Definition Iter (om : OrderedMap) : res (list (string * V)) :=
  iter_from 0 (Keys (keyMap om)) om.

Definition Clear (om : OrderedMap) : OrderedMap :=
  mkOM (zip_with (λ (b : bool) v, if b then vnil else v) (set om) (values om))
       (replicate (length (set om)) false) 0 (keyMap om).

(** *** The contract: a finite map and an order of its keys *)

Record wf (om : OrderedMap) : Prop := mk_wf {
  wf_km : KeyMap.wf (keyMap om);
  wf_values : length (values om) = length (Keys (keyMap om));
  wf_set : length (set om) = length (Keys (keyMap om));
  wf_unset i : set om !! i = Some false → values om !! i = Some vnil;
  wf_isset i k : set om !! i = Some true → Keys (keyMap om) !! i = Some k →
                 keysMap (keyMap om) !! k = Some (Z.of_nat i);
  wf_size : size om = u32 (Z.of_nat (length (filter (λ b, b = true) (set om))));
}.

Definition slot (om : OrderedMap) (z : Z) : option V :=
  b ← set om !! Z.to_nat z; if (b : bool) then values om !! Z.to_nat z else None.

Definition abs (om : OrderedMap) : gmap string V := omap (slot om) (keysMap (keyMap om)).

Lemma abs_lookup om k : abs om !! k = keysMap (keyMap om) !! k ≫= slot om.
Proof. apply lookup_omap. Qed.

Lemma slot_Some om i v :
  slot om (Z.of_nat i) = Some v ↔ set om !! i = Some true ∧ values om !! i = Some v.
Proof.
  unfold slot. rewrite Nat2Z.id. destruct (set om !! i) as [[]|]; simpl; naive_solver.
Qed.

Lemma wf_lookup om i :
  wf om → (i < length (Keys (keyMap om)))%nat →
  ∃ b v, set om !! i = Some b ∧ values om !! i = Some v.
Proof.
  intros Hwf Hi. pose proof (wf_values om Hwf). pose proof (wf_set om Hwf).
  destruct (lookup_lt_is_Some_2 (set om) i) as [b Hb]; [lia|].
  destruct (lookup_lt_is_Some_2 (values om) i) as [v Hv]; [lia|]. eauto.
Qed.

(** The key [k] is missing, or it has an index with a flag and a value. *)
Lemma key_cases om k :
  wf om →
  (keysMap (keyMap om) !! k = None ∧ k ∉ Keys (keyMap om) ∧ GetIndex (keyMap om) k = -1) ∨
  (∃ i b v, keysMap (keyMap om) !! k = Some (Z.of_nat i) ∧ Keys (keyMap om) !! i = Some k ∧
     GetIndex (keyMap om) k = Z.of_nat i ∧ set om !! i = Some b ∧ values om !! i = Some v).
Proof.
  intros Hwf. unfold GetIndex. destruct (keysMap (keyMap om) !! k) as [z|] eqn:E; simpl.
  - right. destruct (wf_index _ (wf_km om Hwf) _ _ E) as (i & -> & Hi).
    destruct (wf_lookup om i Hwf) as (b & v & Hb & Hv); [by eapply lookup_lt_Some|].
    exists i, b, v. done.
  - left. split_and!; [done| |done]. intros [i Hi]%list_elem_of_lookup.
    apply (wf_total _ (wf_km om Hwf)) in Hi as [? ?]. congruence.
Qed.

Lemma Get_abs om k :
  wf om → Get k om = Ok match abs om !! k with Some v => (v, true) | None => (vnil, false) end.
Proof.
  intros Hwf. unfold Get. rewrite abs_lookup.
  destruct (key_cases om k Hwf) as [(E & _ & ->)|(i & b & v & E & _ & -> & Hb & Hv)];
    rewrite E; simpl; [done|].
  rewrite bool_decide_false, (index_Ok _ _ _ Hb) by lia. unfold slot. rewrite Nat2Z.id, Hb. simpl.
  destruct b; simpl; [|done]. by rewrite Hv, (index_Ok _ _ _ Hv).
Qed.

Lemma GetValue_abs om k :
  wf om → k ∈ Keys (keyMap om) → GetValue k om = Ok (default vnil (abs om !! k)).
Proof.
  intros Hwf Hk. unfold GetValue. rewrite abs_lookup.
  destruct (key_cases om k Hwf) as [(_ & ? & _)|(i & b & v & E & _ & -> & Hb & Hv)]; [done|].
  rewrite E, bool_decide_false, (index_Ok _ _ _ Hb) by lia. unfold slot. simpl.
  rewrite Nat2Z.id, Hb. simpl. destruct b; simpl; [|done]. by rewrite Hv, (index_Ok _ _ _ Hv).
Qed.

Lemma filter_insert_true (l : list bool) i :
  l !! i = Some false →
  length (filter (λ b, b = true) (<[i := true]> l)) = S (length (filter (λ b, b = true) l)).
Proof.
  revert i. induction l as [|b l IH]; intros [|i] Hi; simplify_eq/=; rewrite !filter_cons.
  - done.
  - destruct b; simpl; by rewrite IH.
Qed.

Lemma u32_succ n : u32 (u32 (Z.of_nat n) + 1) = u32 (Z.of_nat (S n)).
Proof.
  unfold u32. rewrite Zplus_mod_idemp_l. f_equal. lia.
Qed.

(** The two slices after [Set_]. *)
Definition put (i : nat) (v : V) (om : OrderedMap) : OrderedMap :=
  mkOM (<[i := v]> (values om)) (<[i := true]> (set om))
       (if default true (set om !! i) then size om else u32 (size om + 1)) (keyMap om).

Lemma put_wf i k v om :
  wf om → Keys (keyMap om) !! i = Some k → keysMap (keyMap om) !! k = Some (Z.of_nat i) →
  wf (put i v om).
Proof.
  intros [Hkm Hv Hs Hun His Hsz] Hi Hk.
  assert (i < length (Keys (keyMap om)))%nat as Hlt by (by eapply lookup_lt_Some).
  split; simpl; try done; rewrite ?length_insert; try done.
  - intros j. destruct (decide (i = j)) as [<-|Hne].
    + rewrite list_lookup_insert_eq by lia. done.
    + rewrite !list_lookup_insert_ne by done. apply Hun.
  - intros j k'. destruct (decide (i = j)) as [<-|Hne]; [congruence|].
    rewrite list_lookup_insert_ne by done. apply His.
  - destruct (set om !! i) as [[]|] eqn:Hb; simpl.
    + by rewrite list_insert_id.
    + by rewrite Hsz, u32_succ, filter_insert_true.
    + apply lookup_ge_None in Hb. lia.
Qed.

Lemma put_abs i k v om :
  wf om → Keys (keyMap om) !! i = Some k → keysMap (keyMap om) !! k = Some (Z.of_nat i) →
  abs (put i v om) = <[k := v]> (abs om).
Proof.
  intros Hwf Hi Hk. apply map_eq. intros k'. rewrite abs_lookup. simpl.
  assert (i < length (Keys (keyMap om)))%nat as Hlt by (by eapply lookup_lt_Some).
  pose proof (wf_values om Hwf). pose proof (wf_set om Hwf).
  destruct (decide (k = k')) as [<-|Hne].
  - rewrite Hk, lookup_insert_eq. simpl. apply slot_Some. simpl.
    by rewrite !list_lookup_insert_eq by lia.
  - rewrite lookup_insert_ne, abs_lookup by done.
    destruct (keysMap (keyMap om) !! k') as [z|] eqn:E; simpl; [|done].
    destruct (wf_index _ (wf_km om Hwf) _ _ E) as (j & -> & Hj).
    unfold slot, put. simpl. rewrite Nat2Z.id.
    assert (i ≠ j) by (unfold Keys in Hi; intros <-; congruence). by rewrite !list_lookup_insert_ne by done.
Qed.

Lemma Set_put om k v :
  wf om → k ∈ Keys (keyMap om) →
  ∃ i, Set_ k v om = Ok (put i v om) ∧ Keys (keyMap om) !! i = Some k ∧
       keysMap (keyMap om) !! k = Some (Z.of_nat i).
Proof.
  intros Hwf Hk.
  destruct (key_cases om k Hwf) as [(_ & ? & _)|(i & b & w & E & Hi & EG & Hb & Hv)]; [done|].
  exists i. split; [|done]. unfold Set_. rewrite EG.
  assert (i < length (Keys (keyMap om)))%nat as Hlt by (by eapply lookup_lt_Some).
  pose proof (wf_len _ (wf_km om Hwf)) as HL. unfold Keys in Hlt.
  rewrite bool_decide_false by lia. unfold Len. rewrite bool_decide_false by lia.
  rewrite (index_Ok _ _ _ Hb). unfold put. rewrite Hb. simpl. destruct b; simpl.
  - rewrite store_Ok by (by eapply lookup_lt_Some). simpl. by rewrite (list_insert_id (set om)).
  - rewrite !store_Ok by (by eapply lookup_lt_Some). done.
Qed.

(** The pairs of the set slots, in key order. *)
Fixpoint pairs_from (i : nat) (keys : list string) (om : OrderedMap) : list (string * V) :=
  match keys with
  | [] => []
  | k :: r =>
      match slot om (Z.of_nat i) with
      | Some v => (k, v) :: pairs_from (S i) r om
      | None => pairs_from (S i) r om
      end
  end.
Definition pairs (om : OrderedMap) : list (string * V) :=
  pairs_from 0 (Keys (keyMap om)) om.

Lemma slot_flag om i (b : bool) v :
  set om !! i = Some b → values om !! i = Some v →
  slot om (Z.of_nat i) = if b then Some v else None.
Proof. intros Hb Hv. unfold slot. by rewrite Nat2Z.id, Hb, Hv. Qed.

Lemma iter_from_pairs om i keys :
  wf om → (i + length keys ≤ length (Keys (keyMap om)))%nat →
  iter_from i keys om = Ok (pairs_from i keys om).
Proof.
  intros Hwf. revert i. induction keys as [|k r IH]; intros i Hi; simpl in *; [done|].
  destruct (wf_lookup om i Hwf) as (b & v & Hb & Hv); [lia|].
  rewrite (index_Ok _ _ _ Hb), (slot_flag om i b v Hb Hv). simpl.
  destruct b; simpl; rewrite ?(index_Ok _ _ _ Hv); simpl; rewrite IH by lia; done.
Qed.

Lemma elem_of_pairs_from om i keys k v :
  (k, v) ∈ pairs_from i keys om ↔
  ∃ j, keys !! j = Some k ∧ slot om (Z.of_nat (i + j)) = Some v.
Proof.
  revert i. induction keys as [|k' r IH]; intros i; cbn [pairs_from].
  - split; [by intros ?%not_elem_of_nil|]. intros (j & Hj & _). by destruct j.
  - transitivity ((k = k' ∧ slot om (Z.of_nat i) = Some v) ∨ (k, v) ∈ pairs_from (S i) r om).
    { destruct (slot om (Z.of_nat i)) as [w|]; [rewrite elem_of_cons|]; naive_solver. }
    rewrite IH. split.
    + intros [[-> H]|(j & Hj & H)]; [exists 0%nat; by rewrite Nat.add_0_r|].
      exists (S j). by rewrite Nat.add_succ_r.
    + intros ([|j] & Hj & H); [left|right].
      * rewrite Nat.add_0_r in H. by injection Hj as ->.
      * exists j. by rewrite Nat.add_succ_r in H.
Qed.

Lemma elem_of_pairs om k v : wf om → (k, v) ∈ pairs om ↔ abs om !! k = Some v.
Proof.
  intros Hwf. unfold pairs. rewrite elem_of_pairs_from, abs_lookup. simpl. split.
  - intros (j & Hj & [Hs Hv]%slot_Some).
    rewrite (wf_isset om Hwf j k Hs Hj). simpl. by apply slot_Some.
  - destruct (keysMap (keyMap om) !! k) as [z|] eqn:E; simpl; [|done].
    destruct (wf_index _ (wf_km om Hwf) _ _ E) as (j & -> & Hj). eauto.
Qed.

Lemma pairs_sublist om i keys : (pairs_from i keys om).*1 `sublist_of` keys.
Proof.
  revert i. induction keys as [|k r IH]; intros i; simpl; [constructor|].
  destruct (slot om (Z.of_nat i)); simpl; by constructor.
Qed.

Lemma pairs_NoDup om i keys :
  wf om → (∀ j k, keys !! j = Some k → Keys (keyMap om) !! (i + j)%nat = Some k) →
  NoDup (pairs_from i keys om).*1.
Proof.
  intros Hwf. revert i. induction keys as [|k r IH]; intros i Hk; simpl; [constructor|].
  assert (NoDup (pairs_from (S i) r om).*1) as Hr.
  { apply IH. intros j k' Hj. rewrite Nat.add_succ_comm. by apply Hk. }
  destruct (slot om (Z.of_nat i)) as [v|] eqn:Hs; [|done]. simpl. constructor; [|done].
  intros ([k' v'] & -> & Hin)%list_elem_of_fmap. simpl in Hk.
  apply elem_of_pairs_from in Hin as (j & Hj & [Hj1 _]%slot_Some).
  apply slot_Some in Hs as [Hi1 _].
  pose proof (Hk 0%nat k' eq_refl) as H0. rewrite Nat.add_0_r in H0.
  pose proof (Hk (S j) k' Hj) as H1. rewrite Nat.add_succ_r in H1.
  pose proof (wf_isset om Hwf i k' Hi1 H0). pose proof (wf_isset om Hwf _ k' Hj1 H1).
  simplify_eq. lia.
Qed.

Lemma pairs_to_map om : wf om → list_to_map (pairs om) = abs om.
Proof.
  intros Hwf. apply map_eq. intros k. apply option_eq. intros v.
  rewrite <- elem_of_pairs by done. symmetry. apply elem_of_list_to_map.
  by apply pairs_NoDup.
Qed.

Lemma pairs_length om i keys :
  wf om → length (set om) = (i + length keys)%nat → length (set om) = length (values om) →
  length (pairs_from i keys om) = length (filter (λ b, b = true) (drop i (set om))).
Proof.
  intros Hwf. revert i. induction keys as [|k r IH]; intros i Hl Hv; simpl in *.
  - rewrite drop_ge by lia. done.
  - destruct (lookup_lt_is_Some_2 (set om) i) as [b Hb]; [lia|].
    destruct (lookup_lt_is_Some_2 (values om) i) as [v Hw]; [lia|].
    rewrite (slot_flag om i b v Hb Hw), (drop_S _ _ _ Hb), filter_cons.
    destruct b; simpl; rewrite IH by lia; done.
Qed.

Lemma Size_abs om : wf om → Size om = u32 (Z.of_nat (base.size (abs om))).
Proof.
  intros Hwf. unfold Size. rewrite (wf_size om Hwf), <- (pairs_to_map om Hwf).
  rewrite map_size_list_to_map by (by apply pairs_NoDup). unfold pairs.
  pose proof (wf_set om Hwf). pose proof (wf_values om Hwf).
  rewrite pairs_length by (done || congruence). done.
Qed.

Lemma New_wf km : KeyMap.wf km → wf (New km).
Proof.
  intros Hkm. pose proof (KeyMap.wf_len _ Hkm) as HL. unfold Len, New in *.
  split; simpl; try done; rewrite ?length_replicate; unfold Len, Keys; try lia.
  - intros i [_ Hi]%lookup_replicate_1. by apply lookup_replicate_2.
  - intros i k [? _]%lookup_replicate_1. done.
  - rewrite filter_none; [done|]. apply Forall_replicate. done.
Qed.

Lemma Clear_New om : wf om → Clear om = New (keyMap om).
Proof.
  intros Hwf. unfold Clear, New, Len. rewrite (KeyMap.wf_len _ (wf_km om Hwf)), Nat2Z.id.
  pose proof (wf_set om Hwf) as Hs. pose proof (wf_values om Hwf) as Hv. unfold Keys in *.
  f_equal; [|by rewrite Hs]. apply list_eq. intros i. rewrite lookup_zip_with.
  destruct (decide (i < length (keysArr (keyMap om)))%nat) as [Hi|Hi].
  - rewrite (lookup_replicate_2 _ _ _ Hi).
    destruct (wf_lookup om i Hwf Hi) as (b & v & Hb & Hv'). rewrite Hb, Hv'. simpl.
    destruct b; [done|]. f_equal. apply (wf_unset om Hwf) in Hb. congruence.
  - rewrite (lookup_ge_None_2 (replicate _ _)) by (rewrite length_replicate; lia).
    rewrite (lookup_ge_None_2 (set om)) by lia. done.
Qed.

Lemma abs_New km : KeyMap.wf km → abs (New km) = ∅.
Proof.
  intros Hkm. apply map_eq. intros k. rewrite abs_lookup, lookup_empty. simpl.
  destruct (keysMap km !! k) as [z|]; simpl; [|done]. unfold slot. simpl.
  destruct (replicate _ false !! _) as [b|] eqn:E; simpl; [|done].
  by apply lookup_replicate_1 in E as [-> _].
Qed.


End omap.
Arguments OrderedMap : clear implicits.

Section json.
Context {V : Type} (vnil : V).
Implicit Types om : OrderedMap V.

(** JSON output; the encoder of keys and values is the sonic library's. *)
Context (enc_key : string → res string) (enc_val : V → res string).

(** One pair, appended to the buffer: separator, key, colon, value. *)
Definition put_pair (wrote : bool) (k : string) (v : V) (buf : string) : res string :=
  let buf := if wrote then (buf +:+ ",")%string else buf in
  ek ← enc_key k;
  let buf := (buf +:+ ek +:+ ":")%string in
  ev ← enc_val v;
  Ok (buf +:+ ev)%string.

Fixpoint marshal_from (i : nat) (keys : list string) (om : OrderedMap V) (wrote : bool)
    (buf : string) : res string :=
  match keys with
  | [] => Ok buf
  | k :: r =>
      b ← index (set om) (Z.of_nat i);
      if negb b then marshal_from (S i) r om wrote buf
      else
        v ← index (values om) (Z.of_nat i);
        buf ← put_pair wrote k v buf;
        marshal_from (S i) r om true buf
  end.

Definition MarshalJSON (om : OrderedMap V) : res string :=
  buf ← marshal_from 0 (Keys (keyMap om)) om false "{";
  Ok (buf +:+ "}")%string.

Fixpoint custom_keys (keys : list string) (om : OrderedMap V) (wrote : bool) (buf : string)
    : res (bool * string) :=
  match keys with
  | [] => Ok (wrote, buf)
  | k :: r =>
      let i := GetIndex (keyMap om) k in
      if bool_decide (i < 0) then custom_keys r om wrote buf
      else
        b ← index (set om) i;
        if negb b then custom_keys r om wrote buf
        else
          v ← index (values om) i;
          buf ← put_pair wrote k v buf;
          custom_keys r om true buf
  end.

Fixpoint custom_pairs (ps : list (string * V)) (wrote : bool) (buf : string) : res string :=
  match ps with
  | [] => Ok buf
  | (k, v) :: r => buf ← put_pair wrote k v buf; custom_pairs r true buf
  end.

(** [keys = None] is a nil slice. *)
Definition CustomMarshalJSON (keys : option (list string)) (custom : list (string * V))
    (om : OrderedMap V) : res string :=
  let keys := default (Keys (keyMap om)) keys in
  '(wrote, buf) ← custom_keys keys om false "{";
  buf ← custom_pairs custom wrote buf;
  Ok (buf +:+ "}")%string.

(** *** JSON output against a reference *)

Definition enc_pair (kv : string * V) : res string :=
  ek ← enc_key kv.1; ev ← enc_val kv.2; Ok (ek +:+ ":" +:+ ev).

Fixpoint mapR {A B} (f : A → res B) (l : list A) : res (list B) :=
  match l with [] => Ok [] | x :: r => y ← f x; ys ← mapR f r; Ok (y :: ys) end.

(** A JSON object with the given pairs, in order. *)
Definition json_object (ps : list (string * V)) : res string :=
  strs ← mapR enc_pair ps; Ok ("{" +:+ String.concat "," strs +:+ "}").

(** What [put_pair] appends, pair after pair. *)
Fixpoint render (wrote : bool) (strs : list string) : string :=
  match strs with
  | [] => EmptyString
  | s :: r => (if wrote then "," else EmptyString) +:+ s +:+ render true r
  end.

Lemma render_concat strs : render false strs = String.concat "," strs.
Proof.
  assert (∀ s r, render false (s :: r) = String.concat "," (s :: r)) as H.
  { intros s r. revert s. induction r as [|s' r IH]; intros s; simpl.
    - by rewrite string_app_nil, (right_id_L EmptyString String.append).
    - rewrite string_app_nil. f_equal. f_equal. apply (IH s'). }
  destruct strs; [done|apply H].
Qed.

Lemma put_pair_enc wrote k v buf :
  put_pair wrote k v buf =
    (s ← enc_pair (k, v); Ok (buf +:+ (if wrote then "," else EmptyString) +:+ s)).
Proof.
  unfold put_pair, enc_pair. simpl. destruct (enc_key k); simpl; try done.
  destruct (enc_val v); simpl; try done. f_equal.
  destruct wrote; by rewrite ?string_app_nil, <- !(assoc_L String.append).
Qed.

Lemma custom_pairs_render ps wrote buf :
  custom_pairs ps wrote buf =
    (strs ← mapR enc_pair ps; Ok (buf +:+ render wrote strs)).
Proof.
  revert wrote buf. induction ps as [|[k v] r IH]; intros wrote buf; cbn [custom_pairs mapR].
  - simpl. by rewrite (right_id_L EmptyString String.append).
  - rewrite put_pair_enc. destruct (enc_pair (k, v)); simpl; try done. rewrite IH.
    destruct (mapR enc_pair r); simpl; try done. by rewrite <- !(assoc_L String.append).
Qed.

Lemma marshal_from_pairs om i keys wrote buf :
  wf vnil om → (i + length keys ≤ length (Keys (keyMap om)))%nat →
  marshal_from i keys om wrote buf = custom_pairs (pairs_from i keys om) wrote buf.
Proof.
  intros Hwf. revert i wrote buf. induction keys as [|k r IH]; intros i wrote buf Hi; simpl in *; [done|].
  destruct (wf_lookup vnil om i Hwf) as (b & v & Hb & Hv); [lia|].
  rewrite (index_Ok _ _ _ Hb), (slot_flag om i b v Hb Hv). simpl.
  destruct b; simpl; [|apply IH; lia]. rewrite (index_Ok _ _ _ Hv). simpl.
  destruct (put_pair wrote k v buf); simpl; try done. apply IH. lia.
Qed.

(** The pairs of [om] for a list of keys, in the order of that list. *)
Definition select (keys : list string) (om : OrderedMap V) : list (string * V) :=
  omap (λ k, pair k <$> abs om !! k) keys.

Lemma custom_keys_select om keys custom wrote buf :
  wf vnil om →
  ('(w, b) ← custom_keys keys om wrote buf; custom_pairs custom w b) =
  custom_pairs (select keys om ++ custom) wrote buf.
Proof.
  intros Hwf. revert wrote buf. induction keys as [|k r IH]; intros wrote buf; simpl; [done|].
  rewrite abs_lookup.
  destruct (key_cases vnil om k Hwf) as [(E & _ & ->)|(i & b & v & E & _ & -> & Hb & Hv)]; rewrite E; simpl.
  - apply IH.
  - rewrite bool_decide_false, (index_Ok _ _ _ Hb), (slot_flag om i b v Hb Hv) by lia. simpl.
    destruct b; simpl; [|apply IH]. rewrite (index_Ok _ _ _ Hv). simpl.
    destruct (put_pair wrote k v buf); simpl; done.
Qed.

Lemma object_close ps :
  (buf ← custom_pairs ps false "{"; Ok (buf +:+ "}")) = json_object ps.
Proof.
  rewrite custom_pairs_render. unfold json_object. destruct (mapR enc_pair ps); simpl; try done.
  by rewrite render_concat, <- (assoc_L String.append).
Qed.

Lemma CustomMarshalJSON_object om keys custom :
  wf vnil om →
  CustomMarshalJSON keys custom om = json_object (select (default (Keys (keyMap om)) keys) om ++ custom).
Proof.
  intros Hwf. unfold CustomMarshalJSON. rewrite <- object_close, <- custom_keys_select by done.
  destruct (custom_keys _ _ _ _) as [[w b]| | |]; simpl; try done.
Qed.

(** Both JSON writers are the reference object writer.  [MarshalJSON] is
    the object of the set pairs in key-map order; [CustomMarshalJSON] that of
    the requested columns that are set, in the requested order (all columns for
    nil), followed by the custom pairs, with a comma exactly between pairs; an
    encoder error or panic is passed on. *)
Lemma marshal_is_object om keys custom :
  wf vnil om →
  MarshalJSON om = json_object (pairs om) ∧
  CustomMarshalJSON keys custom om =
    json_object (select (default (Keys (keyMap om)) keys) om ++ custom).
Proof.
  intros Hwf. split.
  - unfold MarshalJSON. rewrite marshal_from_pairs by (done || simpl; lia). apply object_close.
  - by apply CustomMarshalJSON_object.
Qed.

(** With distinct column names the two writers agree on a row. *)
Lemma select_pairs om : wf vnil om → NoDup (Keys (keyMap om)) → select (Keys (keyMap om)) om = pairs om.
Proof.
  intros Hwf Hnd. unfold select, pairs.
  assert (∀ i keys, (∀ j k, keys !! j = Some k → keysMap (keyMap om) !! k = Some (Z.of_nat (i + j))) →
    omap (λ k, pair k <$> abs om !! k) keys = pairs_from i keys om) as H.
  { intros i keys. revert i. induction keys as [|k r IH]; intros i Hk; csimpl; [done|].
    rewrite abs_lookup, (Hk 0%nat k eq_refl), Nat.add_0_r. csimpl.
    rewrite (IH (S i)) by (intros j k' Hj; rewrite Nat.add_succ_comm; by apply Hk).
    by destruct (slot om (Z.of_nat i)). }
  apply H. intros j k Hj. simpl.
  destruct (wf_total _ (wf_km vnil om Hwf) _ _ Hj) as [z Hz]. rewrite Hz.
  destruct (wf_index _ (wf_km vnil om Hwf) _ _ Hz) as (i & -> & Hi).
  by rewrite (NoDup_lookup _ _ _ _ Hnd Hi Hj).
Qed.
End json.
End OMap.

(** ** The pool of rows

    Rows live in a store, since a released row is handed out again.  A
    [sync.Pool] may give back any of the rows put into it or make a new one:
    the argument [choice] of [Get] says which. *)

Module Pool.
Import KeyMap.
Section pool.
Context {V : Type} (vnil : V).
Notation OrderedMap := (OMap.OrderedMap V).

Record pooledOrderedMap := mkPooled { owner : option string; om : OrderedMap }.

(** A [sync.Pool]: what its [New] closure captured and the rows put back. *)
Record spool := mkPool { new_km : KeyMap; free : list nat }.

Record EntryTuplePool := mkETP {
  pools : gmap string spool;
  rows : gmap nat pooledOrderedMap;
  fresh : nat;
}.

Definition NewPool : EntryTuplePool := mkETP ∅ ∅ 0%nat.

Definition pool_key (name version : string) : string := name +:+ "_" +:+ version.

Definition Get (name version : string) (km : KeyMap) (choice : option nat) (p : EntryTuplePool)
    : nat * EntryTuplePool :=
  let key := pool_key name version in
  let target := default (mkPool km []) (pools p !! key) in
  match (i ← choice; (free target !! i)) ≫= λ a, (λ r, (a, r)) <$> rows p !! a with
  | Some (a, r) =>
      (a, mkETP (<[key := mkPool (new_km target) (filter (λ b, b ≠ a) (free target))]> (pools p))
                (<[a := mkPooled (Some key) (om r)]> (rows p)) (fresh p))
  | None =>
      let a := fresh p in
      (a, mkETP (<[key := target]> (pools p))
                (<[a := mkPooled (Some key) (OMap.New vnil (new_km target))]> (rows p)) (S a))
  end.

(** [om.Release()]; a row that is already released has a nil owner. *)
Definition Release (a : nat) (p : EntryTuplePool) : res EntryTuplePool :=
  match rows p !! a with
  | None => Panic "nil dereference"
  | Some r =>
      match owner r with
      | None => Panic "nil dereference"
      | Some key =>
          let target := default (mkPool (OMap.keyMap (om r)) []) (pools p !! key) in
          Ok (mkETP (<[key := mkPool (new_km target) (a :: free target)]> (pools p))
                    (<[a := mkPooled None (OMap.Clear vnil (om r))]> (rows p)) (fresh p))
      end
  end.

Definition Set_ (a : nat) (k : string) (v : V) (p : EntryTuplePool) : res EntryTuplePool :=
  match rows p !! a with
  | None => Panic "nil dereference"
  | Some r =>
      m ← OMap.Set_ k v (om r);
      Ok (mkETP (pools p) (<[a := mkPooled (owner r) m]> (rows p)) (fresh p))
  end.

Definition live (a : nat) (p : EntryTuplePool) : Prop :=
  ∃ r, rows p !! a = Some r ∧ is_Some (owner r).

(** A live row belongs to a pool; a free row is owned by nobody and empty. *)
Record inv (p : EntryTuplePool) : Prop := mk_inv {
  inv_fresh a r : rows p !! a = Some r → (a < fresh p)%nat;
  inv_wf a r : rows p !! a = Some r → OMap.wf vnil (om r);
  inv_km key q : pools p !! key = Some q → KeyMap.wf (new_km q);
  inv_free key q a : pools p !! key = Some q → a ∈ free q →
    rows p !! a = Some (mkPooled None (OMap.New vnil (new_km q)));
  inv_live a r key : rows p !! a = Some r → owner r = Some key →
    ∃ q, pools p !! key = Some q ∧ OMap.keyMap (om r) = new_km q;
  inv_once key key' q q' a : pools p !! key = Some q → pools p !! key' = Some q' →
    a ∈ free q → a ∈ free q' → key = key';
}.

Lemma inv_NewPool : inv NewPool.
Proof. split; intros *; simpl; rewrite ?lookup_empty; done. Qed.

(** Handing row [a] out for the pool [key] keeps the invariant. *)
Lemma hand_out_inv p key km fr a n :
  inv p → KeyMap.wf km → (fresh p ≤ n)%nat → (a < n)%nat →
  (∀ q, pools p !! key = Some q → new_km q = km) →
  (∀ b, b ∈ fr → b ≠ a ∧ ∃ q, pools p !! key = Some q ∧ b ∈ free q) →
  (∀ k q, k ≠ key → pools p !! k = Some q → a ∉ free q) →
  inv (mkETP (<[key := mkPool km fr]> (pools p))
             (<[a := mkPooled (Some key) (OMap.New vnil km)]> (rows p)) n).
Proof.
  intros Hi Hkm Hn Ha Hq Hfr Hother. split; simpl.
  - intros b s [[<- _]|[_ Hb%inv_fresh]]%lookup_insert_Some; [done| |done]. lia.
  - intros b s [[<- <-]|[_ Hb]]%lookup_insert_Some; [by apply OMap.New_wf|by eapply inv_wf].
  - intros k q [[<- <-]|[_ ?]]%lookup_insert_Some; [done|by eapply inv_km].
  - intros k q b [[<- <-]|[Hne Hk]]%lookup_insert_Some Hb; simpl in *.
    + destruct (Hfr b Hb) as (? & q & Hk & Hb'). rewrite lookup_insert_ne by done.
      rewrite (inv_free p Hi key q b Hk Hb'). by rewrite (Hq q Hk).
    + rewrite lookup_insert_ne; [by eapply inv_free|]. intros <-. by apply (Hother k q).
  - intros b s k [[<- <-]|[Hne Hb]]%lookup_insert_Some Ho; simpl in *.
    + injection Ho as <-. rewrite lookup_insert_eq. eauto.
    + destruct (inv_live p Hi b s k Hb Ho) as (q & Hk & Hkm').
      destruct (decide (key = k)) as [<-|]; [|rewrite lookup_insert_ne by done; eauto].
      rewrite lookup_insert_eq. eexists. split; [done|]. simpl. by rewrite Hkm', (Hq q Hk).
  - intros k k' q q' b [[<- <-]|[? Hk]]%lookup_insert_Some [[<- <-]|[? Hk']]%lookup_insert_Some H1 H2;
      simpl in *; try done.
    + destruct (Hfr b H1) as (_ & q0 & ? & ?). by eapply (inv_once p Hi).
    + destruct (Hfr b H2) as (_ & q0 & ? & ?). by eapply (inv_once p Hi).
    + by eapply (inv_once p Hi).
Qed.

Lemma Get_inv name version km choice p :
  inv p → KeyMap.wf km →
  let '(a, p') := Get name version km choice p in
  let key := pool_key name version in
  let km' := from_option new_km km (pools p !! key) in
  inv p' ∧ ¬ live a p ∧
  rows p' = <[a := mkPooled (Some key) (OMap.New vnil km')]> (rows p).
Proof.
  intros Hi Hkm. unfold Get. cbv zeta. set (key := pool_key name version).
  assert (from_option new_km km (pools p !! key)
          = new_km (default (mkPool km []) (pools p !! key))) as -> by (by destruct (pools p !! key)).
  set (target := default (mkPool km []) (pools p !! key)).
  assert (KeyMap.wf (new_km target)) as Hwkm.
  { unfold target. destruct (pools p !! key) eqn:E; simpl; [by eapply inv_km|done]. }
  assert (∀ q, pools p !! key = Some q → q = target) as Hq by (intros q E; unfold target; by rewrite E).
  assert (∀ b, b ∈ free target → pools p !! key = Some target) as Hfree.
  { intros b Hb. unfold target in *. destruct (pools p !! key); simpl in *; [done|].
    by apply not_elem_of_nil in Hb. }
  destruct ((i ← choice; free target !! i) ≫= _) as [[a r]|] eqn:Hch; simpl.
  - apply bind_Some in Hch as (a' & Ha & Hr). apply bind_Some in Ha as (i & _ & Ha).
    apply fmap_Some in Hr as (r' & Hr & [= -> ->]). apply list_elem_of_lookup_2 in Ha.
    pose proof (Hfree a' Ha) as Hk. rewrite (inv_free p Hi key target a' Hk Ha) in Hr.
    injection Hr as <-. simpl.
    pose proof (inv_free p Hi key target a' Hk Ha) as Hrow.
    split_and!; [|intros (? & ? & [? ?]); simplify_eq/=|done].
    apply hand_out_inv; auto.
    + by eapply inv_fresh.
    + intros q E. by rewrite (Hq q E).
    + intros b [? ?]%list_elem_of_filter. eauto.
    + intros k q Hne E Hin. apply Hne. by eapply (inv_once p Hi k key q target a').
  - assert (rows p !! fresh p = None) as Hfr.
    { destruct (rows p !! fresh p) as [r|] eqn:E; [|done]. apply (inv_fresh p Hi) in E. lia. }
    split_and!; [|intros (? & ? & ?); congruence|done].
    replace target with (mkPool (new_km target) (free target)) at 1 by (by destruct target).
    assert (∀ k q, pools p !! k = Some q → fresh p ∉ free q) as Hnf.
    { intros k q E Hin. pose proof (inv_free p Hi k q _ E Hin). congruence. }
    apply hand_out_inv; auto.
    + intros q E. by rewrite (Hq q E).
    + intros b Hb. pose proof (Hfree b Hb) as E. split; [|eauto]. intros ->. by apply (Hnf key target).
    + intros k q _ E. by apply (Hnf k q).
Qed.

Lemma Release_inv a p :
  inv p → live a p →
  ∃ p', Release a p = Ok p' ∧ inv p' ∧ ¬ live a p' ∧
        (∀ b, b ≠ a → rows p' !! b = rows p !! b).
Proof.
  intros Hi (r & Hr & [key Ho]). unfold Release. rewrite Hr, Ho.
  destruct (inv_live p Hi a r key Hr Ho) as (q & Hq & Hkm). rewrite Hq. simpl.
  rewrite (OMap.Clear_New vnil) by (by eapply inv_wf). rewrite Hkm.
  pose proof (inv_km p Hi key q Hq) as Hwkm.
  assert (∀ k q', pools p !! k = Some q' → a ∉ free q') as Hnf.
  { intros k q' E Hin. pose proof (inv_free p Hi k q' a E Hin) as E'. rewrite Hr in E'. by simplify_eq/=. }
  eexists. split; [done|]. split_and!.
  - split; simpl.
    + intros b s [[<- _]|[_ Hb]]%lookup_insert_Some; by eapply inv_fresh.
    + intros b s [[<- <-]|[_ Hb]]%lookup_insert_Some; [by apply OMap.New_wf|by eapply inv_wf].
    + intros k q' [[<- <-]|[_ ?]]%lookup_insert_Some; [done|by eapply inv_km].
    + intros k q' b [[<- <-]|[Hne Hk]]%lookup_insert_Some Hb; simpl in *.
      * apply elem_of_cons in Hb as [->|Hb]; [by rewrite lookup_insert_eq|].
        rewrite lookup_insert_ne; [by eapply inv_free|]. intros <-. by apply (Hnf key q).
      * rewrite lookup_insert_ne; [by eapply inv_free|]. intros <-. by apply (Hnf k q').
    + intros b s k [[<- <-]|[Hne Hb]]%lookup_insert_Some Ho'; simpl in *; [done|].
      destruct (inv_live p Hi b s k Hb Ho') as (q' & Hq' & Hkm').
      destruct (decide (key = k)) as [<-|]; [|rewrite lookup_insert_ne by done; eauto].
      rewrite lookup_insert_eq. eexists. split; [done|]. simpl. congruence.
    + intros k k' q1 q2 b [[<- <-]|[? Hk]]%lookup_insert_Some [[<- <-]|[? Hk']]%lookup_insert_Some H1 H2;
        simpl in *; try done; [| |by eapply (inv_once p Hi)].
      * apply elem_of_cons in H1 as [->|H1]; [by destruct (Hnf k' q2)|by eapply (inv_once p Hi)].
      * apply elem_of_cons in H2 as [->|H2]; [by destruct (Hnf k q1)|by eapply (inv_once p Hi)].
  - intros (r' & Hr' & [? ?]). simpl in Hr'. rewrite lookup_insert_eq in Hr'. by simplify_eq/=.
  - intros b Hb. simpl. by rewrite lookup_insert_ne.
Qed.

Lemma Set_inv a k v p p' : inv p → live a p → Set_ a k v p = Ok p' → inv p'.
Proof.
  intros Hi (r & Hr & [key Ho]). unfold Set_. rewrite Hr.
  intros (m & Hm & [= <-])%res_bind_Ok.
  assert (OMap.wf vnil m ∧ OMap.keyMap m = OMap.keyMap (om r)) as [Hwf Hkm].
  { pose proof (inv_wf p Hi a r Hr) as Hw.
    destruct (decide (k ∈ Keys (OMap.keyMap (om r)))) as [Hk|Hk].
    - destruct (OMap.Set_put vnil (om r) k v Hw Hk) as (i & E & H1 & H2). rewrite E in Hm.
      injection Hm as <-. split; [by eapply OMap.put_wf|done].
    - unfold OMap.Set_ in Hm.
      by destruct (OMap.key_cases vnil (om r) k Hw)
        as [(_ & _ & E)|(i & ? & ? & _ & ?%list_elem_of_lookup_2 & _)]; [rewrite E in Hm|]. }
  split; simpl.
  - intros b s [[<- _]|[_ Hb]]%lookup_insert_Some; by eapply inv_fresh.
  - intros b s [[<- <-]|[_ Hb]]%lookup_insert_Some; [done|by eapply inv_wf].
  - by apply inv_km.
  - intros k' q b Hk Hb. pose proof (inv_free p Hi k' q b Hk Hb) as E.
    rewrite lookup_insert_ne; [done|]. intros <-. rewrite Hr in E. by simplify_eq/=.
  - intros b s k' [[<- <-]|[_ Hb]]%lookup_insert_Some Ho'; simpl in *; [|by eapply inv_live].
    rewrite Hkm. by eapply inv_live.
  - by apply inv_once.
Qed.

(** The states the clients of a pool can reach: they take rows, write to rows
    they hold and release rows they hold. *)
Inductive pstep : EntryTuplePool → EntryTuplePool → Prop :=
| ps_get name version km choice p :
    KeyMap.wf km → pstep p (Get name version km choice p).2
| ps_set a k v p p' : live a p → Set_ a k v p = Ok p' → pstep p p'
| ps_release a p p' : live a p → Release a p = Ok p' → pstep p p'.

Definition reachable (p : EntryTuplePool) : Prop := rtc pstep NewPool p.

Lemma reachable_inv p : reachable p → inv p.
Proof.
  unfold reachable. revert p. apply rtc_ind_r; [apply inv_NewPool|].
  intros p p' _ Hstep Hi. destruct Hstep as [name version km choice p Hkm|a k v p p' Hl HS|a p p' Hl HR].
  - pose proof (Get_inv name version km choice p Hi Hkm) as H.
    destruct (Get name version km choice p). apply H.
  - by eapply Set_inv.
  - destruct (Release_inv a p Hi Hl) as (p'' & E & ? & _). congruence.
Qed.

(** C37: rows of a pool are exclusive and clean.  However rows were taken,
    written and released before, and whichever row the pool gives back: [Get]
    returns a row nobody holds, with no column set, on the key map the pool was
    created with, and leaves all other rows alone; releasing a held row always
    succeeds, and releasing it a second time panics. *)
Theorem pool_rows_exclusive_and_clean p name version km choice :
  reachable p → KeyMap.wf km →
  let '(a, p') := Get name version km choice p in
  ¬ live a p ∧ live a p' ∧
  (∃ r, rows p' !! a = Some r ∧ OMap.abs (om r) = ∅ ∧
        OMap.keyMap (om r) = from_option new_km km (pools p !! pool_key name version)) ∧
  (∀ b, b ≠ a → rows p' !! b = rows p !! b) ∧
  ∃ p'', Release a p' = Ok p'' ∧ Release a p'' = Panic "nil dereference".
Proof.
  intros Hi%reachable_inv Hkm. pose proof (Get_inv name version km choice p Hi Hkm) as H.
  destruct (Get name version km choice p) as [a p']. cbv zeta in H.
  destruct H as (Hi' & Hnl & Hrows).
  assert (rows p' !! a = Some (mkPooled (Some (pool_key name version))
    (OMap.New vnil (from_option new_km km (pools p !! pool_key name version))))) as Hr
    by (by rewrite Hrows, lookup_insert_eq).
  assert (live a p') as Hl by (eexists; split; [exact Hr|by eexists]).
  split_and!; [done|done| |intros b Hb; by rewrite Hrows, lookup_insert_ne|].
  - eexists. split; [exact Hr|]. split; [|done]. simpl. apply OMap.abs_New.
    destruct (pools p !! pool_key name version) eqn:E; simpl; [exact (inv_km p Hi _ _ E)|done].
  - destruct (Release_inv a p' Hi' Hl) as (p'' & HR & Hi'' & _). exists p''. split; [done|].
    unfold Release in HR. rewrite Hr in HR. simpl in HR. injection HR as <-.
    unfold Release. simpl. by rewrite lookup_insert_eq.
Qed.
End pool.
End Pool.

(** ** Concrete rows *)

Module Samples.
Definition km : KeyMap.KeyMap := KeyMap.New ["id"; "name"; "age"].
Definition row : res (OMap.OrderedMap Z) :=
  om ← OMap.Set_ "age" 30 (OMap.New 0 km); OMap.Set_ "id" 7 om.
Definition quote (s : string) : res string := Ok ("#" +:+ s +:+ "#").
Definition show_Z (z : Z) : res string :=
  if bool_decide (z < 0) then Err (GoErr "negative") else Ok (if bool_decide (z = 7) then "7" else "30").

Example row_json :
  (om ← row; OMap.MarshalJSON quote show_Z om) = Ok "{#id#:7,#age#:30}".
Proof. vm_compute. reflexivity. Qed.

Lemma new_row_wf : OMap.wf 0 (OMap.New 0 km).
Proof. apply OMap.New_wf, KeyMap.key_map_wf. Qed.


Example marshal_is_object_witness :
  OMap.MarshalJSON quote show_Z (OMap.New 0 km) = Ok "{}" ∧
  OMap.CustomMarshalJSON quote show_Z None [("op", 7)] (OMap.New 0 km) = Ok "{#op#:7}".
Proof.
  destruct (OMap.marshal_is_object 0 quote show_Z (OMap.New 0 km) None [("op", 7)] new_row_wf)
    as [H1 H2].
  split; [rewrite H1; reflexivity|rewrite H2; reflexivity].
Defined.

Lemma pool_rows_exclusive_and_clean_witness :
  ¬ Pool.live 0%nat (@Pool.NewPool Z).
Proof.
  destruct (Pool.pool_rows_exclusive_and_clean 0 (@Pool.NewPool Z) "public.users" "1" km None) as (H & _);
    [apply rtc_refl|apply KeyMap.key_map_wf|exact H].
Defined.
End Samples.
