(* ===== verification/PgSchema.v ===== *)
(** * Tables and publications (src/pgschema/pgschema.go, src/config/table_config.go)

    Tables with their columns and primary keys, table names and row keys, and
    the construction of the published tables from the rows of the catalogue
    queries.  The database is not modelled: its answers are arguments. *)

From stdpp Require Import base numbers list gmap strings sorting pretty.
From S2P Require Import Prelude GoStrings.

(** ** Names and keys *)

Record TableName := mkTN { Schema : string; Name : string; FullName : string }.

#[global] Instance TableName_eq_dec : EqDecision TableName.
Proof. solve_decision. Defined.

Definition MakeTableName (schema table : string) : TableName :=
  mkTN schema table (schema +:+ "." +:+ table).

Definition dot : Ascii.ascii := Ascii.ascii_of_nat 46.
Definition colon : Ascii.ascii := Ascii.ascii_of_nat 58.

Definition ParseTableName (fullName : string) : TableName :=
  match split_byte dot fullName with
  | [p0; p1] => MakeTableName p0 p1
  | _ => MakeTableName "public" fullName
  end.

Definition MakeRowKey (tableKey pk : string) : string := tableKey +:+ ":" +:+ pk.

(** ** Columns and tables *)

Record Column := mkCol { col_Name : string; TypeID : Z; IsPK : bool; Position : Z }.

Record Table := mkTable {
  t_Name : TableName;
  Columns : gmap string Column;
  PK : gmap string Column;
  PhysicalColumnsCount : Z;
}.

Definition NewTable (schema name : string) : Table :=
  mkTable (MakeTableName schema name) ∅ ∅ 0.

Definition HasColumn (t : Table) (col : string) : bool := bool_decide (is_Some (Columns t !! col)).

Definition AddColumn (col : Column) (t : Table) : Table :=
  mkTable (t_Name t) (<[col_Name col := col]> (Columns t))
          (if IsPK col then <[col_Name col := col]> (PK t) else PK t)
          (PhysicalColumnsCount t).

Definition WithColumns (cols : gmap string Column) (t : Table) : Table :=
  mkTable (t_Name t) cols (PK t) (PhysicalColumnsCount t).

(** The receiver may be nil. *)
Definition HasAllPhysicalColumns (t : option Table) : bool :=
  match t with
  | None => false
  | Some t => bool_decide (0 < PhysicalColumnsCount t) &&
              bool_decide (Z.of_nat (size (Columns t)) = PhysicalColumnsCount t)
  end.

Definition MakeKey (t : Table) (pk : string) : string := MakeRowKey (FullName (t_Name t)) pk.

(** ** Primary keys

    [CreatePK] collects the columns by iterating over a map, so in no fixed
    order, and sorts them by position, then by name. *)

Definition col_le (a b : Column) : Prop :=
  Position a < Position b ∨ (Position a = Position b ∧ String.le (col_Name a) (col_Name b)).

#[global] Instance col_le_dec : RelDecision col_le.
Proof. intros a b. unfold col_le. apply _. Defined.

#[global] Instance col_le_trans : Transitive col_le.
Proof.
  intros a b c [?|[? ?]] [?|[? ?]]; unfold col_le; [left; lia|left; lia|left; lia|right].
  split; [lia|]. by transitivity (col_Name b).
Qed.

#[global] Instance col_le_total : Total col_le.
Proof.
  intros a b. unfold col_le. destruct (Z.lt_trichotomy (Position a) (Position b)) as [?|[?|?]]; auto.
  destruct (String.le_total (col_Name a) (col_Name b)); auto.
Qed.

Section pk.
Context {V : Type} (fmtv : option V → string).

(** [key += colon + fmt.Sprintf("%v", val)]; [get] is [tr.Get]: [None] is a
    missing column, which prints as nil. *)
Fixpoint join_pk (cols : list Column) (get : string → option V) (key sep : string) : string :=
  match cols with
  | [] => key
  | c :: r => join_pk r get (key +:+ sep +:+ fmtv (get (col_Name c))) ":"
  end.

(** [CreatePK], for the order [order] in which the map's columns come. *)
Definition CreatePK (order : list Column) (get : string → option V) : string :=
  join_pk (merge_sort col_le order) get EmptyString EmptyString.

Lemma join_pk_concat cols get key :
  join_pk cols get key ":" =
    key +:+ String.concat EmptyString ((λ c, ":" +:+ fmtv (get (col_Name c))) <$> cols).
Proof.
  revert key. induction cols as [|c r IH]; intros key; simpl.
  - by rewrite (right_id_L EmptyString String.append).
  - rewrite IH, <- !(assoc_L String.append).
    destruct r; simpl; by rewrite ?string_app_nil, ?(right_id_L EmptyString String.append), <- ?(assoc_L String.append).
Qed.

(** A column map is keyed by the columns' names, as [AddColumn] builds it. *)
Definition keyed (m : gmap string Column) : Prop := ∀ k c, m !! k = Some c → col_Name c = k.

Lemma keyed_names m order :
  keyed m → order ≡ₚ (map_to_list m).*2 → NoDup (col_Name <$> order).
Proof.
  intros Hk ->. rewrite <- list_fmap_compose.
  replace ((col_Name ∘ snd) <$> map_to_list m) with (fst <$> map_to_list m).
  - apply NoDup_fst_map_to_list.
  - apply list_fmap_ext. intros i [k c] Hi. simpl. symmetry. apply Hk.
    by apply elem_of_map_to_list, (list_elem_of_lookup_2 _ i).
Qed.

(** Sorting columns with distinct names has one result. *)
Lemma sort_columns_unique l1 l2 :
  NoDup (col_Name <$> l1) → l1 ≡ₚ l2 → merge_sort col_le l1 = merge_sort col_le l2.
Proof.
  intros Hnd Hp. apply (StronglySorted_unique_strong col_le).
  - intros a b Ha Hb Hab Hba. rewrite merge_sort_Permutation in Ha, Hb. rewrite <- Hp in Hb.
    assert (col_Name a = col_Name b) as Hn.
    { destruct Hab as [?|[? ?]], Hba as [?|[? ?]]; try lia. by apply (anti_symm String.le). }
    apply list_elem_of_lookup in Ha as [i Hi]. apply list_elem_of_lookup in Hb as [j Hj].
    assert (i = j) as <-; [|congruence].
    eapply (NoDup_lookup _ i j (col_Name a) Hnd); rewrite list_lookup_fmap; [by rewrite Hi|by rewrite Hj, Hn].
  - apply StronglySorted_merge_sort; apply _.
  - apply StronglySorted_merge_sort; apply _.
  - by rewrite !merge_sort_Permutation.
Qed.

(** The colon-separated parts of a key can be read back. *)
Lemma split_parts s ss :
  has_byte colon s = false → Forall (λ x, has_byte colon x = false) ss →
  split_byte colon (s +:+ String.concat EmptyString ((λ x, ":" +:+ x) <$> ss)) = s :: ss.
Proof.
  intros Hs Hss. revert s Hs. induction Hss as [|x ss Hx _ IH]; intros s Hs.
  - simpl. rewrite (right_id_L EmptyString String.append). by apply split_byte_none.
  - rewrite fmap_cons.
    assert (String.concat EmptyString ((":" +:+ x) :: ((λ x, ":" +:+ x) <$> ss))
            = String colon (x +:+ String.concat EmptyString ((λ x, ":" +:+ x) <$> ss))) as ->.
    { destruct ss; csimpl; [by rewrite (right_id_L EmptyString String.append)|done]. }
    rewrite split_byte_app by done. by rewrite IH.
Qed.

Lemma CreatePK_parts order get c r :
  merge_sort col_le order = c :: r →
  CreatePK order get = fmtv (get (col_Name c)) +:+
    String.concat EmptyString ((λ x, ":" +:+ x) <$> ((λ c, fmtv (get (col_Name c))) <$> r)).
Proof.
  intros E. unfold CreatePK. rewrite E. simpl. rewrite join_pk_concat, !string_app_nil.
  by rewrite <- list_fmap_compose.
Qed.

(** C38: [CreatePK] identifies rows.  The key does not depend on the iteration
    order of the primary-key map, and when no printed key value contains a
    colon, two rows have the same key exactly when all their key columns
    print alike. *)
Theorem create_pk_identifies_row pkm o1 o2 get1 get2 :
  keyed pkm → o1 ≡ₚ (map_to_list pkm).*2 → o2 ≡ₚ (map_to_list pkm).*2 →
  CreatePK o1 get1 = CreatePK o2 get1 ∧
  ((∀ c, c ∈ o1 → has_byte colon (fmtv (get1 (col_Name c))) = false) →
   (∀ c, c ∈ o1 → has_byte colon (fmtv (get2 (col_Name c))) = false) →
   CreatePK o1 get1 = CreatePK o2 get2 ↔
   ∀ c, c ∈ o1 → fmtv (get1 (col_Name c)) = fmtv (get2 (col_Name c))).
Proof.
  intros Hk H1 H2.
  assert (merge_sort col_le o1 = merge_sort col_le o2) as Es.
  { apply sort_columns_unique; [by eapply keyed_names|by rewrite H1, H2]. }
  split; [unfold CreatePK; by rewrite Es|]. intros Hc1 Hc2.
  assert (∀ c, c ∈ o1 ↔ c ∈ merge_sort col_le o1) as Hin
    by (intros c; by rewrite merge_sort_Permutation).
  destruct (merge_sort col_le o1) as [|c r] eqn:E.
  - unfold CreatePK. rewrite E, <- Es. split; [|done]. intros _ c Hc%Hin. by apply not_elem_of_nil in Hc.
  - rewrite (CreatePK_parts o1 get1 c r) by done. rewrite (CreatePK_parts o2 get2 c r) by done.
    split.
    + intros Heq. apply (f_equal (split_byte colon)) in Heq.
      rewrite !split_parts in Heq;
        try (apply Forall_fmap, Forall_forall; intros x Hx; simpl); try (apply Hc1 || apply Hc2);
        try (rewrite Hin; set_solver).
      injection Heq as Hh Ht. intros c' [->|Hr]%Hin%elem_of_cons; [done|].
      apply list_elem_of_lookup in Hr as [i Hi].
      apply (f_equal (lookup i)) in Ht. rewrite !list_lookup_fmap, Hi in Ht. by injection Ht.
    + intros Hall. f_equal; [apply Hall; rewrite Hin; set_solver|]. f_equal. f_equal.
      apply list_fmap_ext. intros i c' Hi%list_elem_of_lookup_2. apply Hall. rewrite Hin. set_solver.
Qed.
End pk.

(** Values that contain colons can collide: two different rows, one key. *)
Example pk_colon_collision :
  let cols := [mkCol "a" 25 true 1; mkCol "b" 25 true 2] in
  let show := λ v : option string, default "<nil>" v in
  CreatePK show cols (λ k, if bool_decide (k = "a") then Some "x:y" else Some "z") =
  CreatePK show cols (λ k, if bool_decide (k = "a") then Some "x" else Some "y:z").
Proof. vm_compute. reflexivity. Qed.

(** A table name of two parts without dots is read back from its full
    name; a bare name without dots gets the schema "public". *)
Lemma parse_table_name_roundtrip schema name :
  has_byte dot schema = false → has_byte dot name = false →
  ParseTableName (FullName (MakeTableName schema name)) = MakeTableName schema name ∧
  ParseTableName name = MakeTableName "public" name.
Proof.
  intros Hs Hn. unfold ParseTableName. simpl. split.
  - change ("." +:+ name) with (String dot name).
    by rewrite split_byte_app, split_byte_none.
  - by rewrite split_byte_none.
Qed.

(** ** Publications *)

Definition parsePGVersionNum (versionNum : Z) : res Z :=
  let ver := Z.quot versionNum 10000 in
  if bool_decide (ver < 12)
  then Err (GoWrap "PG version not supported" (GoErr (pretty versionNum)))
  else Ok (ver `mod` 256).

(** A row of the catalogue queries; in the V15 query every field may be null. *)
Record pubTableColumn := mkPTC {
  colNames : option (list string);
  ptc_Schema : string; ptc_Table : string; ptc_Column : string;
  ptc_TypeID : Z; ptc_IsPK : bool; ptc_Position : Z;
}.

Record nullableRow := mkNR {
  nr_names : option (list string);
  nr_schema : option string; nr_table : option string; nr_column : option string;
  nr_typeID : option Z; nr_isPK : option bool; nr_position : option Z;
}.

Definition deref {A} (p : option A) : res A :=
  match p with Some x => Ok x | None => Panic "nil dereference" end.

(** The row callback of [ReadPubTablesV15]. *)
Definition scanV15 (r : nullableRow) : res pubTableColumn :=
  match nr_schema r, nr_table r, nr_column r with
  | Some sch, Some tab, Some col =>
      ty ← deref (nr_typeID r); pk ← deref (nr_isPK r); pos ← deref (nr_position r);
      Ok (mkPTC (nr_names r) sch tab col ty pk pos)
  | _, _, _ => Err (GoErr "unable to read table data. make sure user has SELECT permissions on all tables from configuration")
  end.

Fixpoint collectRows (rows : list nullableRow) : res (list pubTableColumn) :=
  match rows with
  | [] => Ok []
  | r :: rest => c ← scanV15 r; cs ← collectRows rest; Ok (c :: cs)
  end.

Inductive pubAnswer := PubFound | PubNoRows | PubError (e : goerr).

Definition publicationExists (a : pubAnswer) (publication : string) : res unit :=
  match a with
  | PubFound => Ok ()
  | PubNoRows => Err (GoWrap "publication not found" (GoErr publication))
  | PubError e => Err (GoWrap "failed to check if publication exists" e)
  end.

Notation tables := (gmap string Table) (only parsing).

Definition column_of (c : pubTableColumn) : Column :=
  mkCol (ptc_Column c) (ptc_TypeID c) (ptc_IsPK c) (ptc_Position c).
Definition key_of (c : pubTableColumn) : string :=
  FullName (MakeTableName (ptc_Schema c) (ptc_Table c)).

Definition table_or_new (c : pubTableColumn) (m : tables) : Table :=
  default (NewTable (ptc_Schema c) (ptc_Table c)) (m !! key_of c).

Definition with_count (n : Z) (t : Table) : Table :=
  mkTable (t_Name t) (Columns t) (PK t) n.

Fixpoint build_all (cols : list pubTableColumn) (m : tables) : tables :=
  match cols with
  | [] => m
  | c :: r => build_all r (<[key_of c := AddColumn (column_of c) (table_or_new c m)]> m)
  end.

(** The table construction of [ReadPubTablesV12]. *)
Definition tablesV12 (cols : list pubTableColumn) : tables :=
  (λ t, with_count (Z.of_nat (size (Columns t))) t) <$> build_all cols ∅.

Section v15.
Context (fold_eq : string → string → bool).

Definition in_pub (c : pubTableColumn) : bool :=
  match colNames c with
  | None => true
  | Some ns => existsb (λ s, fold_eq s (ptc_Column c)) ns
  end.

(** The loop of [ReadPubTablesV15] over the rows. *)
Fixpoint buildV15 (cols : list pubTableColumn) (pub all : tables) : tables * tables :=
  match cols with
  | [] => (pub, all)
  | c :: r =>
      let table1 := table_or_new c pub in
      let table2 := table_or_new c all in
      let all := <[key_of c := AddColumn (column_of c) table2]> all in
      let pub := <[key_of c := if in_pub c then AddColumn (column_of c) table1 else table1]> pub in
      buildV15 r pub all
  end.

(** ... and the loop that sets the physical column counts. *)
Definition tablesV15 (cols : list pubTableColumn) : tables * tables :=
  let '(pub, all) := buildV15 cols ∅ ∅ in
  (map_imap (λ k t, Some (match all !! k with
                          | Some a => with_count (Z.of_nat (size (Columns a))) t
                          | None => t end)) pub,
   (λ t, with_count (Z.of_nat (size (Columns t))) t) <$> all).

Definition ReadPubTablesV15 (a : pubAnswer) (rows : goerr + list nullableRow) (publication : string)
    : res (tables * tables) :=
  _ ← publicationExists a publication;
  match rows with
  | inl e => Err e
  | inr rows => cols ← collectRows rows; Ok (tablesV15 cols)
  end.

Definition ReadPubTablesV12 (a : pubAnswer) (rows : goerr + list pubTableColumn) (publication : string)
    : res tables :=
  _ ← publicationExists a publication;
  match rows with inl e => Err e | inr cols => Ok (tablesV12 cols) end.

Definition ReadPubTables (a : pubAnswer) (rows12 : goerr + list pubTableColumn)
    (rows15 : goerr + list nullableRow) (publication : string) (ver : Z) : res (tables * tables) :=
  if bool_decide (12 ≤ ver < 15) then
    t ← ReadPubTablesV12 a rows12 publication; Ok (t, t)
  else if bool_decide (15 ≤ ver) then ReadPubTablesV15 a rows15 publication
  else Err (GoErr ("unsupported PG version: " +:+ pretty ver)).

(** *** What the construction gives *)

(** The names of the columns a table map has for a table. *)
Definition names_in (m : tables) (k : string) : gset string :=
  from_option (λ t, dom (Columns t)) ∅ (m !! k).

Lemma buildV15_names cols pub all k x :
  dom pub = dom all →
  let '(pub', all') := buildV15 cols pub all in
  dom pub' = dom all' ∧
  (x ∈ names_in pub' k ↔ x ∈ names_in pub k ∨
     ∃ c, c ∈ cols ∧ key_of c = k ∧ ptc_Column c = x ∧ in_pub c = true) ∧
  (x ∈ names_in all' k ↔ x ∈ names_in all k ∨
     ∃ c, c ∈ cols ∧ key_of c = k ∧ ptc_Column c = x).
Proof.
  revert pub all. induction cols as [|c r IH]; intros pub all Hd; simpl; [set_solver|].
  set (pub1 := <[_ := _]> pub). set (all1 := <[_ := _]> all).
  specialize (IH pub1 all1). destruct (buildV15 r pub1 all1) as [pub' all'].
  destruct IH as (Hd' & Hp & Ha); [unfold pub1, all1; set_solver|].
  assert (x ∈ names_in pub1 k ↔ x ∈ names_in pub k ∨ (key_of c = k ∧ ptc_Column c = x ∧ in_pub c = true)) as Hp1.
  { unfold names_in, pub1. destruct (decide (key_of c = k)) as [<-|Hne].
    - rewrite lookup_insert_eq. unfold table_or_new.
      destruct (pub !! key_of c), (in_pub c); simpl; set_solver.
    - rewrite lookup_insert_ne by done. naive_solver. }
  assert (x ∈ names_in all1 k ↔ x ∈ names_in all k ∨ (key_of c = k ∧ ptc_Column c = x)) as Ha1.
  { unfold names_in, all1. destruct (decide (key_of c = k)) as [<-|Hne].
    - rewrite lookup_insert_eq. unfold table_or_new. destruct (all !! key_of c); simpl; set_solver.
    - rewrite lookup_insert_ne by done. naive_solver. }
  rewrite Hp, Ha, Hp1, Ha1. setoid_rewrite elem_of_cons. naive_solver.
Qed.

(** The two table maps of a publication.  They have the same tables; the
    first has exactly the columns the publication names (all of them when it
    names none), the second exactly the columns of the rows; the physical
    column count of a published table counts all its columns, so that
    [HasAllPhysicalColumns] holds exactly when no column is left out. *)
Lemma published_tables cols k t :
  let '(pub, all) := tablesV15 cols in
  pub !! k = Some t →
  ∃ a, all !! k = Some a ∧
    (∀ x, x ∈ dom (Columns t) ↔
          ∃ c, c ∈ cols ∧ key_of c = k ∧ ptc_Column c = x ∧ in_pub c = true) ∧
    (∀ x, x ∈ dom (Columns a) ↔ ∃ c, c ∈ cols ∧ key_of c = k ∧ ptc_Column c = x) ∧
    PhysicalColumnsCount t = Z.of_nat (size (Columns a)) ∧
    (HasAllPhysicalColumns (Some t) = true ↔ Columns a ≠ ∅ ∧ dom (Columns t) = dom (Columns a)).
Proof.
  unfold tablesV15.
  pose proof (λ x, buildV15_names cols ∅ ∅ k x eq_refl) as H.
  destruct (buildV15 cols ∅ ∅) as [pub all]. destruct (H EmptyString) as (Hd & _).
  rewrite map_lookup_imap. intros (t0 & Ht0 & Ht)%bind_Some. injection Ht as Ht.
  destruct (all !! k) as [a|] eqn:Ha.
  2: { apply not_elem_of_dom in Ha. rewrite <- Hd in Ha. by apply elem_of_dom_2 in Ht0. }
  assert (∀ x, (x ∈ dom (Columns t0) ↔
      ∃ c, c ∈ cols ∧ key_of c = k ∧ ptc_Column c = x ∧ in_pub c = true) ∧
    (x ∈ dom (Columns a) ↔ ∃ c, c ∈ cols ∧ key_of c = k ∧ ptc_Column c = x)) as Hx.
  { intros x. destruct (H x) as (_ & Hp & Hq). unfold names_in in Hp, Hq.
    rewrite Ht0 in Hp. rewrite Ha in Hq. rewrite !lookup_empty in Hp, Hq. simpl in Hp, Hq. split.
    - rewrite Hp. split; [by intros [?|?]|by right].
    - rewrite Hq. split; [by intros [?|?]|by right]. }
  subst t. exists (with_count (Z.of_nat (size (Columns a))) a).
  rewrite lookup_fmap, Ha. simpl. split_and!; [done|apply Hx|apply Hx|done|].
  assert (dom (Columns t0) ⊆ dom (Columns a)) as Hsub.
  { intros x. rewrite (proj1 (Hx x)), (proj2 (Hx x)). naive_solver. }
  rewrite andb_true_iff, !bool_decide_eq_true, !Nat2Z.inj_iff, <- !size_dom.
  rewrite <- (map_size_non_empty_iff (Columns a)), <- size_dom.
  split; intros [H1 H2]; (split; [lia|]); [|by rewrite H2].
  apply leibniz_equiv, set_subseteq_size_equiv; [done|lia].
Qed.
End v15.

(** ** Table configuration (src/config/table_config.go) *)

Record TableConfig := mkTC { tc_Columns : list string; tc_Options : gmap string string }.

Definition NewTableConfig (columns : list string) : TableConfig := mkTC columns ∅.

Definition AllColumns (tc : TableConfig) : bool :=
  match tc_Columns tc with [] => true | c :: _ => EqualFold c "all" end.

Definition Option_ (tc : TableConfig) (opt : string) : string :=
  default EmptyString (tc_Options tc !! opt).

(** ** Concrete tables *)

Module Samples.
Definition id_col : Column := mkCol "id" 23 true 1.
Definition users : Table := AddColumn (mkCol "name" 25 false 2) (AddColumn id_col (NewTable "public" "users")).
Definition rows : list pubTableColumn :=
  [mkPTC (Some ["id"]) "public" "users" "id" 23 true 1;
   mkPTC (Some ["id"]) "public" "users" "name" 25 false 2].
Definition show (v : option Z) : string := match v with Some z => pretty z | None => "<nil>" end.

Lemma create_pk_identifies_row_witness :
  CreatePK show [id_col] (λ _, Some 5) = CreatePK show [id_col] (λ _, Some 5).
Proof.
  assert (keyed (PK users)) as Hk.
  { intros k c. unfold users. simpl. rewrite lookup_insert_Some, lookup_empty. naive_solver. }
  destruct (create_pk_identifies_row show (PK users) [id_col] [id_col] (λ _, Some 5) (λ _, None) Hk) as [H _];
    [reflexivity|reflexivity|exact H].
Defined.

Lemma parse_table_name_roundtrip_witness :
  ParseTableName "sales.orders" = MakeTableName "sales" "orders".
Proof.
  apply (parse_table_name_roundtrip "sales" "orders"); vm_compute; reflexivity.
Defined.

Definition published_users : Table := with_count 2 (AddColumn id_col (NewTable "public" "users")).

Example published_users_rows :
  (tablesV15 EqualFold rows).1 !! "public.users" = Some published_users.
Proof. vm_compute. reflexivity. Qed.

Lemma published_tables_witness :
  ∃ a, (tablesV15 EqualFold rows).2 !! "public.users" = Some a ∧
       PhysicalColumnsCount published_users = Z.of_nat (size (Columns a)).
Proof.
  pose proof (published_tables EqualFold rows "public.users" published_users) as H.
  pose proof published_users_rows as E.
  destruct (tablesV15 EqualFold rows) as [pub all].
  destruct (H E) as (a & Ha & _ & _ & Hc & _). exists a. split; [exact Ha|exact Hc].
Defined.
End Samples.
