(* ===== verification/Decode.v ===== *)
(** * Column decoding (src/jsonparsing/decode, src/jsonparsing/pg2json.go)

    The values of a row as the replication stream carries them (text format)
    become Go values, and a tuple becomes an ordered map.  The type map of the
    pgx library is not part of the program: [typeMap] gives, for an OID it
    knows, the codec's [DecodeValue] for the text format.

    [goval] has the dynamic types of the values the decoders return or test
    for; [VOther] is any other type, with the name [%T] prints. *)

From stdpp Require Import base numbers list gmap strings pretty.
From S2P Require Import Prelude GoStrings OrderedMap.
Import KeyMap.

(** ** Go values *)

Inductive gofloat := FNaN | FInf (neg : bool) | FFin (mant exp : Z).

(** The civil fields of a [time.Time], which [Format] prints; the zone is its
    offset from UTC in seconds. *)
Record gotime := mkTime {
  tm_year : Z; tm_month : Z; tm_day : Z;
  tm_hour : Z; tm_min : Z; tm_sec : Z; tm_nsec : Z; tm_offset : Z }.

Record Numeric := mkNum {
  num_Int : option Z; num_Exp : Z; num_NaN : bool; num_Inf : Z; Valid : bool }.

Inductive goval :=
| VNil
| VBool (b : bool)
| VString (s : string)
| VBytes (d : string)
| VInt (bits z : Z)
| VTime (t : gotime)
| VPgTime (microseconds : Z)
| VNumeric (n : Numeric)
| VFloat32 (f : gofloat)
| VFloat64 (f : gofloat)
| SmartFloat32 (f : gofloat)
| SmartFloat64 (f : gofloat)
| VOther (ty : string).

(** [%T] *)
Definition type_name (v : goval) : string :=
  match v with
  | VNil => "<nil>" | VBool _ => "bool" | VString _ => "string" | VBytes _ => "[]uint8"
  | VInt b _ => "int" +:+ pretty b | VTime _ => "time.Time" | VPgTime _ => "pgtype.Time"
  | VNumeric _ => "pgtype.Numeric" | VFloat32 _ => "float32" | VFloat64 _ => "float64"
  | SmartFloat32 _ => "decode.SmartFloat32" | SmartFloat64 _ => "decode.SmartFloat64"
  | VOther ty => ty
  end.

(** ** Formatting *)

(** [%0wd]: zeroes on the left up to the width, after the sign. *)
Fixpoint zeros (n : nat) : string :=
  match n with O => EmptyString | S n => String (Ascii.ascii_of_nat 48) (zeros n) end.
Definition padl (w : nat) (s : string) : string := zeros (w - String.length s) +:+ s.
Definition pad0 (w : nat) (z : Z) : string :=
  if bool_decide (z < 0) then "-" +:+ padl (w - 1) (pretty (- z)) else padl w (pretty z).

Definition microsecondsPerSecond : Z := 1000000.
Definition microsecondsPerMinute : Z := 60 * microsecondsPerSecond.
Definition microsecondsPerHour : Z := 60 * microsecondsPerMinute.

Definition timeToString (t : Z) : string :=
  let usec := t in
  let hours := usec `quot` microsecondsPerHour in
  let usec := usec - hours * microsecondsPerHour in
  let minutes := usec `quot` microsecondsPerMinute in
  let usec := usec - minutes * microsecondsPerMinute in
  let seconds := usec `quot` microsecondsPerSecond in
  let usec := usec - seconds * microsecondsPerSecond in
  pad0 2 hours +:+ ":" +:+ pad0 2 minutes +:+ ":" +:+ pad0 2 seconds +:+ "." +:+ pad0 6 usec.

(** [time.Time.Format] for the two layouts in use. *)
Definition year_string (y : Z) : string :=
  if bool_decide (y < 0) then "-" +:+ padl 4 (pretty (- y)) else padl 4 (pretty y).

Definition DateOnly (t : gotime) : string :=
  year_string (tm_year t) +:+ "-" +:+ pad0 2 (tm_month t) +:+ "-" +:+ pad0 2 (tm_day t).

(** The fraction [.999999999]: trailing zeroes are dropped, and an empty
    fraction is not printed. *)
Fixpoint drop_zeros (s : string) : string :=
  match s with
  | EmptyString => EmptyString
  | String c r =>
      match drop_zeros r with
      | EmptyString => if decide (c = Ascii.ascii_of_nat 48) then EmptyString else String c EmptyString
      | r => String c r
      end
  end.
Definition fraction (nsec : Z) : string :=
  match drop_zeros (padl 9 (pretty nsec)) with EmptyString => EmptyString | f => "." +:+ f end.
Definition zone (offset : Z) : string :=
  if bool_decide (offset = 0) then "Z"
  else
    let z := offset `quot` 60 in
    let a := Z.abs z in
    (if bool_decide (z < 0) then "-" else "+") +:+ pad0 2 (a `quot` 60) +:+ ":" +:+ pad0 2 (a `rem` 60).

Definition RFC3339Nano (t : gotime) : string :=
  DateOnly t +:+ "T" +:+ pad0 2 (tm_hour t) +:+ ":" +:+ pad0 2 (tm_min t) +:+ ":" +:+ pad0 2 (tm_sec t) +:+
  fraction (tm_nsec t) +:+ zone (tm_offset t).

(** ** Binary data as text *)

Inductive BinaryEncoding := BinaryEncodingBase64 | BinaryEncodingHex.
Inductive NumericEncoding := NumericEncodingFloat | NumericEncodingString.
Definition NumericEncodingDefault : NumericEncoding := NumericEncodingFloat.

#[global] Instance BinaryEncoding_eq_dec : EqDecision BinaryEncoding.
Proof. solve_decision. Defined.
#[global] Instance NumericEncoding_eq_dec : EqDecision NumericEncoding.
Proof. solve_decision. Defined.

Record EncodingFormat := mkEnc { Binary : BinaryEncoding; Numeric_ : NumericEncoding }.

Definition byte_val (c : Ascii.ascii) : Z := Z.of_nat (Ascii.nat_of_ascii c).
Definition byte_of (z : Z) : Ascii.ascii := Ascii.ascii_of_nat (Z.to_nat z).

Fixpoint of_list (l : list Ascii.ascii) : string :=
  match l with [] => EmptyString | c :: r => String c (of_list r) end.

Definition b64_alphabet : list Ascii.ascii :=
  to_list "ABCDEFGHIJKLMNOPQRSTUVWXYZabcdefghijklmnopqrstuvwxyz0123456789+/".
Definition hex_alphabet : list Ascii.ascii := to_list "0123456789abcdef".
Definition pad_char : Ascii.ascii := Ascii.ascii_of_nat 61.

Definition digit (alphabet : list Ascii.ascii) (i : Z) : Ascii.ascii :=
  default pad_char (alphabet !! Z.to_nat i).

(** [base64.StdEncoding.EncodeToString] *)
Fixpoint base64_encode (l : list Z) : list Ascii.ascii :=
  let d := digit b64_alphabet in
  match l with
  | [] => []
  | [a] => [d (Z.shiftr a 2); d (Z.shiftl (Z.land a 3) 4); pad_char; pad_char]
  | [a; b] =>
      [d (Z.shiftr a 2); d (Z.lor (Z.shiftl (Z.land a 3) 4) (Z.shiftr b 4));
       d (Z.shiftl (Z.land b 15) 2); pad_char]
  | a :: b :: c :: r =>
      d (Z.shiftr a 2) :: d (Z.lor (Z.shiftl (Z.land a 3) 4) (Z.shiftr b 4)) ::
      d (Z.lor (Z.shiftl (Z.land b 15) 2) (Z.shiftr c 6)) :: d (Z.land c 63) :: base64_encode r
  end.

(** [hex.EncodeToString] *)
Definition hex_encode (l : list Z) : list Ascii.ascii :=
  l ≫= λ a, [digit hex_alphabet (Z.shiftr a 4); digit hex_alphabet (Z.land a 15)].

Definition EncodeBinary (data : string) (binaryFormat : BinaryEncoding) : string :=
  let l := byte_val <$> to_list data in
  match binaryFormat with
  | BinaryEncodingHex => of_list (hex_encode l)
  | BinaryEncodingBase64 => of_list (base64_encode l)
  end.

(** ** The decoders *)

Definition unexpectedTypeErr (decoderName : string) (dataType : Z) (v : goval) : goerr :=
  GoErr (decoderName +:+ ": unexpected type for OID " +:+ pretty dataType +:+ ". type was " +:+ type_name v).

Section decoders.
(** [typeMap.TypeForOID(oid)], and the codec's [DecodeValue] for text. *)
Context (typeMap : Z → option (string → goerr + goval)).

Definition pgDecoder := string → Z → EncodingFormat → res goval.

Definition tryDecodeValue (data : string) (codec : string → goerr + goval) : res goval :=
  match codec data with
  | inl err => if bool_decide (data = "NaN") then Ok (VFloat64 FNaN) else Err err
  | inr v => Ok v
  end.

Definition decodeFromTypeMap (data : string) (dataType : Z) : res goval :=
  match typeMap dataType with
  | Some codec =>
      match tryDecodeValue data codec with
      | Err err => Err (GoWrap ("failed to decode data type " +:+ pretty dataType) err)
      | r => r
      end
  | None => Ok (VString data)
  end.

Definition wrapped (msg : string) (r : res goval) : res goval :=
  match r with Err err => Err (GoWrap msg err) | r => r end.

Definition stringDecoder : pgDecoder := λ data _ _, Ok (VString data).

Definition boolDecoder : pgDecoder := λ data dataType _,
  v ← wrapped "failed to decode bool" (decodeFromTypeMap data dataType);
  match v with
  | VBool t => Ok (VBool t)
  | _ => Err (unexpectedTypeErr "bool decoder" dataType v)
  end.

Definition byteDecoder : pgDecoder := λ data dataType encoding,
  v ← wrapped "failed to decode bytea" (decodeFromTypeMap data dataType);
  match v with
  | VBytes d => if bool_decide (d = EmptyString) then Ok VNil
                else Ok (VString (EncodeBinary d (Binary encoding)))
  | _ => Err (unexpectedTypeErr "byte decoder" dataType v)
  end.

Definition timestampDecodeWithFormat (timeFormat : gotime → string) : pgDecoder := λ data dataType _,
  v ← wrapped "failed to decode timestamp/date" (decodeFromTypeMap data dataType);
  match v with
  | VTime t => Ok (VString (timeFormat t))
  | _ => Err (unexpectedTypeErr "date/timestamp decoder" dataType v)
  end.
Definition timestampDecoderToDate : pgDecoder := timestampDecodeWithFormat DateOnly.
Definition timestampDecoderToDateTime : pgDecoder := timestampDecodeWithFormat RFC3339Nano.

Definition timeDecoder : pgDecoder := λ data dataType _,
  v ← wrapped "failed to decode time" (decodeFromTypeMap data dataType);
  match v with
  | VPgTime t => Ok (VString (timeToString t))
  | _ => Err (unexpectedTypeErr "time decoder" dataType v)
  end.

Definition coerceFloat (smart : gofloat → goval) (f : gofloat) : goval :=
  match f with FNaN => VNil | f => smart f end.

Definition coercePgTypeNumeric (f : Numeric) : Numeric :=
  if num_NaN f || negb (Valid f) then mkNum None 0 false 0 false else f.

(** The type parameter is one of [float32] and [float64]. *)
Definition pgxGenericFloatDecoder (is32 : bool) (data : string) (dataType : Z) (numEncoding : NumericEncoding)
    : res goval :=
  match numEncoding with
  | NumericEncodingString => Ok (VString data)
  | NumericEncodingFloat =>
      v ← decodeFromTypeMap data dataType;
      match is32, v with
      | true, VFloat32 f => Ok (coerceFloat SmartFloat32 f)
      | false, VFloat64 f => Ok (coerceFloat SmartFloat64 f)
      | _, _ => Err (unexpectedTypeErr "f32/f64 decoder" dataType v)
      end
  end.
Definition float4Decoder : pgDecoder := λ data dataType encoding,
  pgxGenericFloatDecoder true data dataType (Numeric_ encoding).
Definition float8Decoder : pgDecoder := λ data dataType encoding,
  pgxGenericFloatDecoder false data dataType (Numeric_ encoding).

Definition pgxGenericNumericDecoder (data : string) (dataType : Z) (numEncoding : NumericEncoding) : res goval :=
  match numEncoding with
  | NumericEncodingString => Ok (VString data)
  | NumericEncodingFloat =>
      v ← decodeFromTypeMap data dataType;
      match v with
      | VNumeric f => Ok (VNumeric (coercePgTypeNumeric f))
      | _ => Err (unexpectedTypeErr "numeric decoder" dataType v)
      end
  end.
Definition numericDecoder : pgDecoder := λ data dataType encoding,
  pgxGenericNumericDecoder data dataType (Numeric_ encoding).

(** The table of decoders, by PostgreSQL type OID: the types that stay text, in
    the order of the source (interval, point, lseg, circle, path, box, line,
    polygon with their arrays; macaddr8, macaddr, inet, cidr, bit, json, xml,
    jsonb, jsonpath, uuid; integer and text arrays; the ranges; timetz). *)
Definition string_oids : list Z :=
  [1186; 1187; 600; 1017; 601; 1018; 718; 719; 602; 1019; 603; 1020; 628; 629; 604; 1027;
   774; 829; 1040; 869; 1041; 650; 651; 1560; 1561; 114; 199; 142; 143; 3802; 3807; 4072; 4073;
   2950; 2951; 1005; 1007; 1016; 1009; 3904; 3905; 3926; 3927; 3906; 3907; 3908; 3909; 3910; 3911;
   3912; 3913; 1266].

Definition dataTypeDecoders (dataType : Z) : option pgDecoder :=
  if bool_decide (dataType ∈ string_oids) then Some stringDecoder
  else if bool_decide (dataType = 700) then Some float4Decoder
  else if bool_decide (dataType = 701) then Some float8Decoder
  else if bool_decide (dataType = 1700) then Some numericDecoder
  else if bool_decide (dataType = 17) then Some byteDecoder
  else if bool_decide (dataType = 1082) then Some timestampDecoderToDate
  else if bool_decide (dataType = 1184) then Some timestampDecoderToDateTime
  else if bool_decide (dataType = 1114) then Some timestampDecoderToDateTime
  else if bool_decide (dataType = 1083) then Some timeDecoder
  else if bool_decide (dataType = 16) then Some boolDecoder
  else None.

Definition Decode (data : string) (dataType : Z) (encoding : EncodingFormat) : res goval :=
  match dataTypeDecoders dataType with
  | Some decoder => decoder data dataType encoding
  | None => decodeFromTypeMap data dataType
  end.

(** ** Tuples *)

Record TupleDataColumn := mkTDC { tdc_DataType : Ascii.ascii; Data : string }.
Record RelationMessageColumn := mkRMC { rmc_Name : string; rmc_DataType : Z }.
Record ReadTupleConfig := mkRTC {
  ReadIndexes : option (list Z); ReadAll : bool; Encoding : EncodingFormat }.

Definition char_n : Ascii.ascii := Ascii.ascii_of_nat 110.
Definition char_u : Ascii.ascii := Ascii.ascii_of_nat 117.
Definition char_t : Ascii.ascii := Ascii.ascii_of_nat 116.

Definition writeValue (om : OMap.OrderedMap goval) (col : TupleDataColumn) (relCol : RelationMessageColumn)
    (encoding : EncodingFormat) : res (OMap.OrderedMap goval) :=
  if decide (tdc_DataType col = char_n) then OMap.Set_ (rmc_Name relCol) VNil om
  else if decide (tdc_DataType col = char_u) then Ok om
  else if decide (tdc_DataType col = char_t) then
    match Decode (Data col) (rmc_DataType relCol) encoding with
    | Err err => Err (GoWrap ("writeValue: failed to decode value for column " +:+ rmc_Name relCol +:+
                              " with OID " +:+ pretty (rmc_DataType relCol)) err)
    | r => val ← r; OMap.Set_ (rmc_Name relCol) val om
    end
  else Ok om.

(** The loop of [ReadTuple] over the positions to read. *)
Fixpoint read_columns (indexes : list Z) (tcols : list TupleDataColumn) (columns : list RelationMessageColumn)
    (encoding : EncodingFormat) (km : KeyMap) (om : OMap.OrderedMap goval) : res (OMap.OrderedMap goval) :=
  match indexes with
  | [] => Ok om
  | i :: r =>
      relCol ← index columns i;
      if bool_decide (GetIndex km (rmc_Name relCol) < 0)
      then read_columns r tcols columns encoding km om
      else
        col ← index tcols i;
        om ← writeValue om col relCol encoding;
        read_columns r tcols columns encoding km om
  end.

Definition ReadTuple (t : option (list TupleDataColumn)) (columns : list RelationMessageColumn)
    (cfg : ReadTupleConfig) (keyMap : option KeyMap) : res (option (OMap.OrderedMap goval)) :=
  match t with
  | None => Ok None
  | Some tcols =>
      match keyMap with
      | None => Err (GoErr "read tuple: keymap is nil")
      | Some km =>
          let indexes :=
            match ReadAll cfg, ReadIndexes cfg with
            | false, Some sel => sel
            | _, _ => Z.of_nat <$> seq 0 (length tcols)
            end in
          om ← read_columns indexes tcols columns (Encoding cfg) km (OMap.New VNil km);
          Ok (Some om)
      end
  end.
(** *** What a tuple holds *)

(** The value a column of the tuple contributes: none when it is an unchanged
    TOAST value (or of an unknown kind). *)
Definition cell_value (encoding : EncodingFormat) (relCol : RelationMessageColumn) (col : TupleDataColumn)
    : option (res goval) :=
  if decide (tdc_DataType col = char_n) then Some (Ok VNil)
  else if decide (tdc_DataType col = char_u) then None
  else if decide (tdc_DataType col = char_t) then Some (Decode (Data col) (rmc_DataType relCol) encoding)
  else None.

Lemma decodeFromTypeMap_total data dataType :
  (∃ v, decodeFromTypeMap data dataType = Ok v) ∨ (∃ e, decodeFromTypeMap data dataType = Err e).
Proof.
  unfold decodeFromTypeMap, tryDecodeValue. destruct (typeMap dataType) as [codec|]; [|by eauto].
  destruct (codec data); [case_bool_decide|]; eauto.
Qed.

(** No decoder panics: it gives a value or an error. *)
Lemma Decode_total data dataType encoding :
  (∃ v, Decode data dataType encoding = Ok v) ∨ (∃ e, Decode data dataType encoding = Err e).
Proof.
  pose proof (decodeFromTypeMap_total data dataType) as H. unfold Decode, dataTypeDecoders.
  repeat case_bool_decide; [left; by eexists|..|exact H];
    unfold float4Decoder, float8Decoder, numericDecoder, byteDecoder, timestampDecoderToDate,
      timestampDecoderToDateTime, timestampDecodeWithFormat, timeDecoder, boolDecoder,
      pgxGenericFloatDecoder, pgxGenericNumericDecoder, wrapped;
    try destruct (Numeric_ encoding); try (left; by eexists);
    destruct H as [[v E]|[e E]]; rewrite E; try (right; by eexists); destruct v; simpl;
    try case_bool_decide; by eauto.
Qed.

(** The contents of a row after reading the positions [sel]. *)
Definition holds (sel : list Z) (tcols : list TupleDataColumn) (columns : list RelationMessageColumn)
    (encoding : EncodingFormat) (km : KeyMap) (k : string) (v : goval) : Prop :=
  ∃ i rc tc, Z.of_nat i ∈ sel ∧ columns !! i = Some rc ∧ tcols !! i = Some tc ∧ rmc_Name rc = k ∧
             0 ≤ GetIndex km k ∧ cell_value encoding rc tc = Some (Ok v).

Lemma Set_insert om k v :
  OMap.wf VNil om → 0 ≤ GetIndex (OMap.keyMap om) k →
  ∃ om', OMap.Set_ k v om = Ok om' ∧ OMap.wf VNil om' ∧ OMap.keyMap om' = OMap.keyMap om ∧
         OMap.abs om' = <[k := v]> (OMap.abs om).
Proof.
  intros Hwf Hk. destruct (KeyMap.GetIndex_Some _ k _ (OMap.wf_km _ _ Hwf) eq_refl Hk) as (i & _ & Hi & _).
  apply list_elem_of_lookup_2 in Hi.
  destruct (OMap.Set_put VNil om k v Hwf Hi) as (j & -> & Hj & Hm).
  exists (OMap.put j v om). split_and!; [done|by eapply OMap.put_wf|done|by eapply OMap.put_abs].
Qed.

(** [writeValue] stores the column's value, or fails with its decoding error. *)
Lemma writeValue_spec om col relCol encoding :
  OMap.wf VNil om → 0 ≤ GetIndex (OMap.keyMap om) (rmc_Name relCol) →
  match cell_value encoding relCol col with
  | None => writeValue om col relCol encoding = Ok om
  | Some (Ok v) => ∃ om', writeValue om col relCol encoding = Ok om' ∧ OMap.wf VNil om' ∧
                     OMap.keyMap om' = OMap.keyMap om ∧ OMap.abs om' = <[rmc_Name relCol := v]> (OMap.abs om)
  | Some r => ∃ msg e, r = Err e ∧ writeValue om col relCol encoding = Err (GoWrap msg e)
  end.
Proof.
  intros Hwf Hk. unfold writeValue, cell_value. repeat case_decide; try done; [by apply Set_insert|].
  destruct (Decode_total (Data col) (rmc_DataType relCol) encoding) as [[v E]|[e E]]; rewrite E.
  - by apply Set_insert.
  - by eexists _, _.
Qed.

(** The positions to read exist in the relation and in the tuple. *)
Definition in_range (sel : list Z) (tcols : list TupleDataColumn) (columns : list RelationMessageColumn) : Prop :=
  ∀ i, i ∈ sel → 0 ≤ i < Z.of_nat (length columns) ∧ i < Z.of_nat (length tcols).

Section tuple.
Context (tcols : list TupleDataColumn) (columns : list RelationMessageColumn) (encoding : EncodingFormat).
Context (km : KeyMap) (Hnames : NoDup (rmc_Name <$> columns)).

Lemma same_name i j ri rj :
  columns !! i = Some ri → columns !! j = Some rj → rmc_Name ri = rmc_Name rj → i = j.
Proof.
  intros Hi Hj E. apply (NoDup_lookup _ i j (rmc_Name ri) Hnames); rewrite list_lookup_fmap.
  - by rewrite Hi.
  - by rewrite Hj, E.
Qed.

Lemma holds_app before i k v rc tc :
  columns !! i = Some rc → tcols !! i = Some tc →
  holds (before ++ [Z.of_nat i]) tcols columns encoding km k v ↔
  holds before tcols columns encoding km k v ∨
  (rmc_Name rc = k ∧ 0 ≤ GetIndex km k ∧ cell_value encoding rc tc = Some (Ok v)).
Proof.
  intros Hc Ht. unfold holds. split.
  - intros (j & rj & tj & Hj & H1 & H2 & H3 & H4 & H5). apply elem_of_app in Hj as [Hj|Hj%list_elem_of_singleton].
    + left. exists j, rj, tj. done.
    + apply Nat2Z.inj in Hj as ->. right. simplify_eq. done.
  - intros [(j & rj & tj & Hj & ?)|?]; [exists j, rj, tj; set_solver|].
    exists i, rc, tc. split_and!; try done; [set_solver|naive_solver..].
Qed.

Definition row_of (before : list Z) (om : OMap.OrderedMap goval) : Prop :=
  OMap.wf VNil om ∧ OMap.keyMap om = km ∧
  ∀ k v, OMap.abs om !! k = Some v ↔ holds before tcols columns encoding km k v.

Lemma row_of_step before i rc tc om om' v :
  columns !! i = Some rc → tcols !! i = Some tc → 0 ≤ GetIndex km (rmc_Name rc) →
  cell_value encoding rc tc = Some (Ok v) → row_of before om →
  OMap.wf VNil om' → OMap.keyMap om' = OMap.keyMap om → OMap.abs om' = <[rmc_Name rc := v]> (OMap.abs om) →
  row_of (before ++ [Z.of_nat i]) om'.
Proof.
  intros Hc Ht Hk Hv (Hwf & Hkm & Hh) Hwf' Hkm' Habs. split_and!; [done|congruence|].
  intros k w. rewrite Habs, (holds_app _ _ _ _ rc tc) by done.
  destruct (decide (rmc_Name rc = k)) as [<-|Hne].
  - rewrite lookup_insert_eq. split; [intros [= <-]; naive_solver|].
    intros [(j & rj & tj & _ & H1 & H2 & H3 & _ & H5)|(_ & _ & H)]; [|congruence].
    assert (j = i) as -> by (by eapply same_name). congruence.
  - rewrite lookup_insert_ne, Hh by done. naive_solver.
Qed.

Lemma read_columns_spec before sel om :
  in_range sel tcols columns → row_of before om →
  match read_columns sel tcols columns encoding km om with
  | Ok om' => row_of (before ++ sel) om'
  | Err e => ∃ i rc tc msg inner, Z.of_nat i ∈ sel ∧ columns !! i = Some rc ∧ tcols !! i = Some tc ∧
               cell_value encoding rc tc = Some (Err inner) ∧ e = GoWrap msg inner
  | _ => False
  end.
Proof.
  revert before om. induction sel as [|z sel IH]; intros before om Hr Hom; [by rewrite app_nil_r|].
  assert (in_range sel tcols columns) as Hr' by (intros ??; apply Hr; set_solver).
  destruct (Hr z ltac:(set_solver)) as [[Hz1 Hz2] Hz3].
  destruct (Z_of_nat_complete z Hz1) as [i ->].
  destruct (lookup_lt_is_Some_2 columns i) as [rc Hc]; [lia|].
  destruct (lookup_lt_is_Some_2 tcols i) as [tc Ht]; [lia|].
  cbn [read_columns]. rewrite (index_Ok _ _ _ Hc). simpl.
  replace (before ++ Z.of_nat i :: sel) with ((before ++ [Z.of_nat i]) ++ sel) by (by rewrite <- (assoc_L (++))).
  assert (∀ om', row_of (before ++ [Z.of_nat i]) om' →
    match read_columns sel tcols columns encoding km om' with
    | Ok om2 => row_of ((before ++ [Z.of_nat i]) ++ sel) om2
    | Err e => ∃ j rc tc msg inner, Z.of_nat j ∈ Z.of_nat i :: sel ∧ columns !! j = Some rc ∧
                 tcols !! j = Some tc ∧ cell_value encoding rc tc = Some (Err inner) ∧ e = GoWrap msg inner
    | _ => False
    end) as Hgo.
  { intros om' Hom'. specialize (IH _ om' Hr' Hom'). destruct (read_columns _ _ _ _ _ _); try done.
    destruct IH as (j & ? & ? & ? & ? & ? & ?). do 5 eexists. split; [|done]. by right. }
  destruct Hom as (Hwf & Hkm & Hh). case_bool_decide as Hneg.
  { apply Hgo. split_and!; try done. intros k v. rewrite (holds_app _ _ _ _ rc tc), Hh by done.
    split; [by left|]. intros [?|(<- & ? & _)]; [done|lia]. }
  rewrite (index_Ok _ _ _ Ht). simpl.
  pose proof (writeValue_spec om tc rc encoding Hwf ltac:(rewrite Hkm; lia)) as Hw.
  destruct (cell_value encoding rc tc) as [[v|e|s|s]|] eqn:Ev.
  - destruct Hw as (om' & -> & Hwf' & Hkm' & Habs). apply Hgo.
    eapply (row_of_step before i rc tc om om' v); try done. lia.
  - destruct Hw as (msg & e' & [= <-] & ->). simpl. exists i, rc, tc, msg, e. set_solver.
  - by destruct Hw as (? & ? & ? & _).
  - by destruct Hw as (? & ? & ? & _).
  - rewrite Hw. simpl. apply Hgo. split_and!; try done. intros k v.
    rewrite (holds_app _ _ _ _ rc tc), Hh by done. rewrite Ev. naive_solver.
Qed.
End tuple.

(** The positions [ReadTuple] reads. *)
Definition selected (cfg : ReadTupleConfig) (tcols : list TupleDataColumn) : list Z :=
  match ReadAll cfg, ReadIndexes cfg with
  | false, Some sel => sel
  | _, _ => Z.of_nat <$> seq 0 (length tcols)
  end.

Lemma ReadTuple_row tcols columns cfg km :
  KeyMap.wf km → NoDup (rmc_Name <$> columns) → in_range (selected cfg tcols) tcols columns →
  match ReadTuple (Some tcols) columns cfg (Some km) with
  | Ok (Some om) => row_of tcols columns (Encoding cfg) km (selected cfg tcols) om
  | Err e => ∃ i rc tc msg inner, Z.of_nat i ∈ selected cfg tcols ∧ columns !! i = Some rc ∧ tcols !! i = Some tc ∧
               cell_value (Encoding cfg) rc tc = Some (Err inner) ∧ e = GoWrap msg inner
  | _ => False
  end.
Proof.
  intros Hkm Hnd Hr. unfold ReadTuple. fold (selected cfg tcols).
  pose proof (read_columns_spec tcols columns (Encoding cfg) km Hnd [] (selected cfg tcols) (OMap.New VNil km) Hr) as H.
  destruct (read_columns _ _ _ _ _ _); simpl; apply H; split_and!; try done; try (by apply OMap.New_wf);
    intros k v; rewrite OMap.abs_New by done; (split; [by rewrite lookup_empty|intros (? & ? & ? & ?%not_elem_of_nil & _); done]).
Qed.

(** C11: a tuple is read exactly.  When the positions to read exist, the row has
    the value of a column under the column's name exactly when the column is
    selected, has a place in the key map and is not an unchanged TOAST value;
    nulls are stored as nil, texts as what their type's decoder gives.  The
    only error is that of decoding one of the selected columns, and nothing
    panics. *)
Theorem read_tuple_exact tcols columns cfg km :
  KeyMap.wf km → NoDup (rmc_Name <$> columns) → in_range (selected cfg tcols) tcols columns →
  match ReadTuple (Some tcols) columns cfg (Some km) with
  | Ok (Some om) =>
      OMap.wf VNil om ∧ OMap.keyMap om = km ∧
      ∀ k v, OMap.abs om !! k = Some v ↔ holds (selected cfg tcols) tcols columns (Encoding cfg) km k v
  | Err e => ∃ i rc tc msg inner, Z.of_nat i ∈ selected cfg tcols ∧ columns !! i = Some rc ∧ tcols !! i = Some tc ∧
               cell_value (Encoding cfg) rc tc = Some (Err inner) ∧ e = GoWrap msg inner
  | _ => False
  end.
Proof. apply ReadTuple_row. Qed.
End decoders.

(** ** Reading back what is printed *)

(** The number a string of decimal digits denotes, after the digits of [acc]. *)
Fixpoint read_dec (acc : Z) (s : string) : Z :=
  match s with
  | EmptyString => acc
  | String c r => read_dec (acc * 10 + (byte_val c - 48)) r
  end.

Definition is_digit (c : Ascii.ascii) : Prop := 48 ≤ byte_val c ≤ 57.

Lemma pretty_char_digit (x : N) : (x < 10)%N → byte_val (pretty_N_char x) = 48 + Z.of_N x.
Proof.
  intros. assert (x = 0 ∨ x = 1 ∨ x = 2 ∨ x = 3 ∨ x = 4 ∨ x = 5 ∨ x = 6 ∨ x = 7 ∨ x = 8 ∨ x = 9)%N as Hx by lia.
  destruct_or! Hx; subst; reflexivity.
Qed.

Lemma read_pretty_go (x : N) s : read_dec 0 (pretty_N_go x s) = read_dec (Z.of_N x) s.
Proof.
  revert s. induction (N.lt_wf_0 x) as [x _ IH]; intros s. destruct (decide (0 < x)%N) as [Hx|Hx].
  - rewrite pretty_N_go_step by done. rewrite IH by (apply N.div_lt; lia). simpl.
    rewrite pretty_char_digit by (apply N.mod_lt; lia). f_equal.
    pose proof (N.div_mod x 10 ltac:(lia)). pose proof (N.mod_lt x 10 ltac:(lia)). lia.
  - assert (x = 0%N) as -> by lia. done.
Qed.

Lemma pretty_go_digits (x : N) s :
  Forall is_digit (to_list s) → Forall is_digit (to_list (pretty_N_go x s)).
Proof.
  revert s. induction (N.lt_wf_0 x) as [x _ IH]; intros s Hs. destruct (decide (0 < x)%N) as [Hx|Hx].
  - rewrite pretty_N_go_step by done. apply IH; [apply N.div_lt; lia|]. simpl. constructor; [|done].
    assert (x `mod` 10 < 10)%N as Hm by (apply N.mod_lt; lia).
    unfold is_digit. rewrite pretty_char_digit by done. revert Hm. generalize (x `mod` 10)%N. lia.
  - assert (x = 0%N) as -> by lia. by rewrite pretty_N_go_0.
Qed.

Lemma pretty_nonneg (z : Z) : 0 ≤ z →
  Forall is_digit (to_list (pretty z)) ∧ read_dec 0 (pretty z) = z.
Proof.
  intros Hz. destruct z as [|p|p]; [| |lia].
  - split; [|done]. repeat constructor; unfold is_digit; vm_compute; by intros.
  - change (pretty (Z.pos p)) with (pretty (N.pos p)). unfold pretty, pretty_N.
    rewrite decide_False by done. split; [by apply pretty_go_digits|]. by rewrite read_pretty_go.
Qed.

Lemma zeros_spec n s :
  Forall is_digit (to_list s) →
  Forall is_digit (to_list (zeros n +:+ s)) ∧ read_dec 0 (zeros n +:+ s) = read_dec 0 s.
Proof.
  intros Hs. induction n as [|n [IH1 IH2]]; [done|]. cbn [zeros]. rewrite string_app_cons. simpl.
  split; [|exact IH2]. constructor; [|done]. unfold is_digit. vm_compute. by split; intros.
Qed.

Lemma pad0_nonneg w z : 0 ≤ z →
  Forall is_digit (to_list (pad0 w z)) ∧ read_dec 0 (pad0 w z) = z.
Proof.
  intros Hz. unfold pad0, padl. rewrite bool_decide_false by lia.
  destruct (pretty_nonneg z Hz) as [H1 H2].
  destruct (zeros_spec (w - String.length (pretty z)) (pretty z) H1) as [H3 H4]. split; [done|]. lia.
Qed.

Lemma digits_no_byte c s : ¬ is_digit c → Forall is_digit (to_list s) → has_byte c s = false.
Proof.
  intros Hc Hs. unfold has_byte. apply bool_decide_eq_false. rewrite Forall_forall in Hs.
  intros ?%Hs. done.
Qed.

(** Reading a printed time of day. *)
Definition colon_c : Ascii.ascii := Ascii.ascii_of_nat 58.
Definition dot_c : Ascii.ascii := Ascii.ascii_of_nat 46.
Definition parse_time (s : string) : option Z :=
  match split_byte colon_c s with
  | [h; m; r] =>
      match split_byte dot_c r with
      | [sec; usec] => Some (((read_dec 0 h * 60 + read_dec 0 m) * 60 + read_dec 0 sec) * 1000000 + read_dec 0 usec)
      | _ => None
      end
  | _ => None
  end.

(** A time of day is printed exactly.  Reading the printed hours, minutes,
    seconds and microseconds gives back the microseconds, for every value that
    is not negative. *)
Lemma time_to_string_roundtrip usec : 0 ≤ usec → parse_time (timeToString usec) = Some usec.
Proof.
  intros Hu. unfold timeToString, parse_time, microsecondsPerHour, microsecondsPerMinute, microsecondsPerSecond.
  rewrite !Z.quot_div_nonneg by lia. cbv zeta.
  set (h := usec `div` _). set (u1 := usec - _). assert (0 ≤ u1 < 3600000000) by (unfold u1, h; euclid).
  rewrite (Z.quot_div_nonneg u1) by lia. set (m := u1 `div` _). set (u2 := u1 - _).
  assert (0 ≤ u2 < 60000000) by (unfold u2, m; euclid).
  rewrite (Z.quot_div_nonneg u2) by lia. set (s := u2 `div` _). set (u3 := u2 - _).
  assert (0 ≤ u3 < 1000000) by (unfold u3, s; euclid).
  assert (0 ≤ h ∧ 0 ≤ m ∧ 0 ≤ s) as (Hh & Hm & Hs) by (unfold h, m, s; split_and!; apply Z.div_pos; lia).
  destruct (pad0_nonneg 2 h Hh) as [Dh Eh]. destruct (pad0_nonneg 2 m Hm) as [Dm Em].
  destruct (pad0_nonneg 2 s Hs) as [Ds Es]. destruct (pad0_nonneg 6 u3 ltac:(lia)) as [Du Eu].
  assert (¬ is_digit colon_c) as Hc by (unfold is_digit; vm_compute; naive_solver).
  assert (¬ is_digit dot_c) as Hd by (unfold is_digit; vm_compute; naive_solver).
  change ":" with (String colon_c EmptyString). change "." with (String dot_c EmptyString).
  rewrite !string_app_cons, !string_app_nil.
  rewrite !split_byte_app by (by apply digits_no_byte).
  rewrite (split_byte_none colon_c).
  - rewrite split_byte_app, split_byte_none by (by apply digits_no_byte). rewrite Eh, Em, Es, Eu.
    f_equal. unfold u3, s, u2, m, u1, h. euclid.
  - apply bool_decide_eq_false. rewrite to_list_app. simpl. rewrite elem_of_app, elem_of_cons.
    rewrite Forall_forall in Ds, Du. intros [?%Ds|[?|?%Du]]; done.
Qed.

(** *** Binary data *)

Fixpoint find_digit (alphabet : list Ascii.ascii) (c : Ascii.ascii) (i : Z) : option Z :=
  match alphabet with
  | [] => None
  | a :: r => if decide (a = c) then Some i else find_digit r c (i + 1)
  end.
Definition undigit (alphabet : list Ascii.ascii) (c : Ascii.ascii) : option Z := find_digit alphabet c 0.

(** Standard base 64 with padding; the hexadecimal digits two by two. *)
Fixpoint base64_decode (l : list Ascii.ascii) : option (list Z) :=
  let u := undigit b64_alphabet in
  match l with
  | [] => Some []
  | c1 :: c2 :: c3 :: c4 :: r =>
      a ← u c1; b ← u c2;
      let x := a * 4 + b `div` 16 in
      if decide (c3 = pad_char) then Some [x]
      else
        c ← u c3;
        let y := (b `mod` 16) * 16 + c `div` 4 in
        if decide (c4 = pad_char) then Some [x; y]
        else d ← u c4; rest ← base64_decode r; Some (x :: y :: (c `mod` 4) * 64 + d :: rest)
  | _ => None
  end.
Fixpoint hex_decode (l : list Ascii.ascii) : option (list Z) :=
  match l with
  | [] => Some []
  | c1 :: c2 :: r =>
      a ← undigit hex_alphabet c1; b ← undigit hex_alphabet c2;
      rest ← hex_decode r; Some (a * 16 + b :: rest)
  | _ => None
  end.
Definition DecodeBinary (s : string) (f : BinaryEncoding) : option string :=
  l ← match f with BinaryEncodingHex => hex_decode (to_list s) | BinaryEncodingBase64 => base64_decode (to_list s) end;
  Some (of_list (byte_of <$> l)).

Lemma of_to_list s : of_list (to_list s) = s.
Proof. induction s as [|c s IH]; simpl; [done|]. by rewrite IH. Qed.
Lemma to_of_list l : to_list (of_list l) = l.
Proof. induction l as [|c l IH]; simpl; [done|]. by rewrite IH. Qed.
Lemma byte_of_val c : byte_of (byte_val c) = c.
Proof. unfold byte_of, byte_val. by rewrite Nat2Z.id, Ascii.ascii_nat_embedding. Qed.
Lemma byte_val_range c : 0 ≤ byte_val c < 256.
Proof. unfold byte_val. pose proof (Ascii.nat_ascii_bounded c). lia. Qed.

Lemma below_forall (P : Z → bool) (n : nat) :
  forallb (λ i, P (Z.of_nat i)) (seq 0 n) = true → ∀ z, 0 ≤ z < Z.of_nat n → P z = true.
Proof.
  rewrite forallb_forall. intros H z Hz. rewrite <- (Z2Nat.id z) by lia. apply H, in_seq. lia.
Qed.

Lemma b64_digit z : 0 ≤ z < 64 →
  undigit b64_alphabet (digit b64_alphabet z) = Some z ∧ digit b64_alphabet z ≠ pad_char.
Proof.
  intros Hz. apply (below_forall (λ z, bool_decide (undigit b64_alphabet (digit b64_alphabet z) = Some z) &&
                                       bool_decide (digit b64_alphabet z ≠ pad_char)) 64) in Hz.
  - by apply andb_true_iff in Hz as [?%bool_decide_eq_true ?%bool_decide_eq_true].
  - vm_compute. reflexivity.
Qed.

Lemma hex_digit z : 0 ≤ z < 16 → undigit hex_alphabet (digit hex_alphabet z) = Some z.
Proof.
  intros Hz. apply (below_forall (λ z, bool_decide (undigit hex_alphabet (digit hex_alphabet z) = Some z)) 16) in Hz.
  - by apply bool_decide_eq_true in Hz.
  - vm_compute. reflexivity.
Qed.

(** The bit operations of the encoders as arithmetic. *)
Lemma lor_shift x k n :
  0 ≤ x < 16 → 0 ≤ k < 16 → (n = 2 ∧ k < 4) ∨ n = 4 → Z.lor (Z.shiftl x n) k = x * 2 ^ n + k.
Proof.
  intros Hx Hk Hn. revert k Hk Hn. revert x Hx.
  assert (∀ x, 0 ≤ x < Z.of_nat 16 → forallb (λ i, let k := Z.of_nat i in
    bool_decide (k < 4 → Z.lor (Z.shiftl x 2) k = x * 2 ^ 2 + k) &&
    bool_decide (Z.lor (Z.shiftl x 4) k = x * 2 ^ 4 + k)) (seq 0 16) = true) as H.
  { apply (below_forall (λ x, forallb (λ i, let k := Z.of_nat i in
      bool_decide (k < 4 → Z.lor (Z.shiftl x 2) k = x * 2 ^ 2 + k) &&
      bool_decide (Z.lor (Z.shiftl x 4) k = x * 2 ^ 4 + k)) (seq 0 16))). vm_compute. reflexivity. }
  intros x Hx k Hk Hn. specialize (H x Hx).
  pose proof (below_forall (λ k, bool_decide (k < 4 → Z.lor (Z.shiftl x 2) k = x * 2 ^ 2 + k) &&
      bool_decide (Z.lor (Z.shiftl x 4) k = x * 2 ^ 4 + k)) 16 H k Hk) as Hb.
  apply andb_true_iff in Hb as [H1%bool_decide_eq_true H2%bool_decide_eq_true].
  destruct Hn as [[-> ?]| ->]; auto.
Qed.

Lemma bits_arith a b c :
  0 ≤ a < 256 → 0 ≤ b < 256 → 0 ≤ c < 256 →
  Z.shiftr a 2 = a `div` 4 ∧ Z.shiftl (Z.land a 3) 4 = (a `mod` 4) * 16 ∧
  Z.lor (Z.shiftl (Z.land a 3) 4) (Z.shiftr b 4) = (a `mod` 4) * 16 + b `div` 16 ∧
  Z.shiftl (Z.land b 15) 2 = (b `mod` 16) * 4 ∧
  Z.lor (Z.shiftl (Z.land b 15) 2) (Z.shiftr c 6) = (b `mod` 16) * 4 + c `div` 64 ∧
  Z.land c 63 = c `mod` 64 ∧ Z.shiftr a 4 = a `div` 16 ∧ Z.land a 15 = a `mod` 16.
Proof.
  intros Ha Hb Hc.
  change 3 with (Z.ones 2). change 15 with (Z.ones 4). change 63 with (Z.ones 6).
  rewrite !Z.land_ones, !Z.shiftr_div_pow2 by lia.
  change (2 ^ 2) with 4. change (2 ^ 4) with 16. change (2 ^ 6) with 64.
  rewrite !lor_shift, !Z.shiftl_mul_pow2 by euclid. done.
Qed.

Lemma base64_roundtrip l : Forall (λ a, 0 ≤ a < 256) l → base64_decode (base64_encode l) = Some l.
Proof.
  remember (length l) as n eqn:Hn. revert l Hn. induction (lt_wf n) as [n _ IH]; intros l -> Hl.
  destruct l as [|a [|b [|c r]]]; [done|..];
    repeat match goal with H : Forall _ (_ :: _) |- _ => apply Forall_cons in H as [? H] end.
  - destruct (bits_arith a 0 0) as (E1 & E2 & _); [lia..|]. cbn [base64_encode base64_decode]. rewrite E1, E2.
    destruct (b64_digit (a `div` 4)) as [-> _]; [euclid|].
    destruct (b64_digit (a `mod` 4 * 16)) as [-> _]; [euclid|]. simpl.
    f_equal. f_equal. euclid.
  - destruct (bits_arith a b 0) as (E1 & _ & E3 & E4 & _); [lia..|]. cbn [base64_encode base64_decode].
    rewrite E1, E3, E4.
    destruct (b64_digit (a `div` 4)) as [-> _]; [euclid|].
    destruct (b64_digit (a `mod` 4 * 16 + b `div` 16)) as [-> _]; [euclid|].
    destruct (b64_digit (b `mod` 16 * 4)) as [-> Hp]; [euclid|]. simpl.
    rewrite decide_False by done. f_equal. f_equal; [euclid|]. f_equal. euclid.
  - destruct (bits_arith a b c) as (E1 & _ & E3 & _ & E5 & E6 & _); [lia..|]. cbn [base64_encode base64_decode].
    rewrite E1, E3, E5, E6, IH with (y := length r) (l := r) by (done || simpl; lia).
    destruct (b64_digit (a `div` 4)) as [-> _]; [euclid|].
    destruct (b64_digit (a `mod` 4 * 16 + b `div` 16)) as [-> _]; [euclid|].
    destruct (b64_digit (b `mod` 16 * 4 + c `div` 64)) as [-> Hp]; [euclid|].
    destruct (b64_digit (c `mod` 64)) as [-> Hp']; [euclid|]. simpl.
    rewrite !decide_False by done. f_equal. f_equal; [euclid|]. f_equal; [euclid|]. f_equal. euclid.
Qed.

Lemma hex_roundtrip l : Forall (λ a, 0 ≤ a < 256) l → hex_decode (hex_encode l) = Some l.
Proof.
  induction 1 as [|a l Ha _ IH]; [done|]. unfold hex_encode in *.
  destruct (bits_arith a 0 0) as (_ & _ & _ & _ & _ & _ & E7 & E8); [lia..|]. csimpl.
  rewrite E7, E8, !hex_digit by euclid. simpl. rewrite IH. simpl. f_equal. f_equal. euclid.
Qed.

(** Binary data survives its encoding: from the base 64 or hexadecimal text
    of a [bytea] value the bytes can be read back, so no two values are
    written alike. *)
Lemma encode_binary_roundtrip data f : DecodeBinary (EncodeBinary data f) f = Some data.
Proof.
  assert (Forall (λ a, 0 ≤ a < 256) (byte_val <$> to_list data)) as Hr.
  { apply Forall_fmap, Forall_forall. intros c _. apply byte_val_range. }
  assert (of_list (byte_of <$> (byte_val <$> to_list data)) = data) as E.
  { rewrite <- list_fmap_compose, (list_fmap_ext _ id), list_fmap_id by (intros ? ? _; apply byte_of_val).
    apply of_to_list. }
  unfold DecodeBinary, EncodeBinary. destruct f; rewrite to_of_list.
  - rewrite base64_roundtrip by done. simpl. by rewrite E.
  - rewrite hex_roundtrip by done. simpl. by rewrite E.
Qed.

(** ** Concrete rows *)

Module Samples.
Definition types (oid : Z) : option (string → goerr + goval) :=
  if bool_decide (oid = 23)
  then Some (λ s, if bool_decide (Forall is_digit (to_list s)) then inr (VInt 32 (read_dec 0 s)) else inl (GoErr "bad int4"))
  else None.
Definition columns : list RelationMessageColumn := [mkRMC "id" 23; mkRMC "name" 25; mkRMC "doc" 25; mkRMC "age" 23].
Definition km : KeyMap := KeyMap.New ["id"; "name"; "doc"].
Definition tuple : list TupleDataColumn :=
  [mkTDC char_t "42"; mkTDC char_n EmptyString; mkTDC char_u EmptyString; mkTDC char_t "x"].
Definition cfg : ReadTupleConfig := mkRTC None true (mkEnc BinaryEncodingBase64 NumericEncodingFloat).

Example time_of_day : timeToString 3723000045 = "01:02:03.000045".
Proof. vm_compute. reflexivity. Qed.
Example base64_man : EncodeBinary "Mane" BinaryEncodingBase64 = "TWFuZQ==".
Proof. vm_compute. reflexivity. Qed.
Example rfc3339 : RFC3339Nano (mkTime 2024 3 7 9 5 0 120000000 (-12600)) = "2024-03-07T09:05:00.12-03:30".
Proof. vm_compute. reflexivity. Qed.
(** An infinite timestamp is not a [time.Time]: the row is refused. *)
Example infinite_timestamp :
  Decode (λ _, Some (λ _, inr (VOther "pgtype.InfinityModifier"))) "infinity" 1114 (Encoding cfg) =
  Err (GoErr "date/timestamp decoder: unexpected type for OID 1114. type was pgtype.InfinityModifier").
Proof. vm_compute. reflexivity. Qed.

Definition pairs_read (r : res (option (OMap.OrderedMap goval))) : res (list (string * goval)) :=
  om ← r; match om with Some om => OMap.Iter om | None => Ok [] end.
Example tuple_read :
  pairs_read (ReadTuple types (Some tuple) columns cfg (Some km)) = Ok [("id", VInt 32 42); ("name", VNil)].
Proof. vm_compute. reflexivity. Qed.

Lemma read_tuple_exact_witness :
  KeyMap.wf km ∧
  match ReadTuple types (Some tuple) columns cfg (Some km) with
  | Ok (Some om) => OMap.wf VNil om | Err _ => True | _ => False
  end.
Proof.
  assert (KeyMap.wf km) as Hkm by apply KeyMap.key_map_wf. split; [exact Hkm|].
  pose proof (read_tuple_exact types tuple columns cfg km Hkm) as H.
  assert (NoDup (rmc_Name <$> columns)) as Hnd by (apply (bool_decide_unpack _); vm_compute; reflexivity).
  assert (in_range (selected cfg tuple) tuple columns) as Hr.
  { intros i Hi. apply list_elem_of_fmap in Hi as (n & -> & Hn%elem_of_seq). simpl in *. lia. }
  specialize (H Hnd Hr). destruct (ReadTuple _ _ _ _ _) as [[om|]| | |]; [apply H|exact H|exact I|exact H|exact H].
Defined.

Lemma time_to_string_roundtrip_witness : parse_time "00:00:01.500000" = Some 1500000.
Proof. exact (time_to_string_roundtrip 1500000 ltac:(lia)). Defined.
End Samples.
