(* ===== verification/CircuitBreaker.v ===== *)
(** * Circuit breaker and retry configuration (src/circuitbreaker)

    The breaker wraps a call [f].  Its field [exec] is a function value that is
    one of three methods; here it is their name.  Times are nanoseconds; the
    zero time is [None].  The clock readings and the results of [f] and of the
    context are the arguments of [Run]. *)

From stdpp Require Import base numbers list strings.
From Stdlib Require Import SpecFloat.
From S2P Require Import Prelude.

Definition Millisecond : Z := 1000000.
Definition Second : Z := 1000000000.

(** ** Retry configuration (retry_config.go) *)

Record RetryConfig := mkRetry {
  MaxRetries : Z;
  MaxConnectionRetries : Z;
  InitialBackoff : Z;
  Multiplier : spec_float;
  Jitter : spec_float;
  MaxBackoff : Z;
}.

(** ** The breaker (circuit_breaker.go) *)

Record Config := mkConfig {
  ClosedMaxErrors : Z;
  HalfOpenedMaxErrors : Z;
  MaxErrorsInterval : Z;
  MaxWaitInterval : Z;
}.

Definition NewDefaultConfig : Config := mkConfig 5 10 (500 * Millisecond) (5 * Second).
Definition NewProdConfig : Config := mkConfig 5 10 (1000 * Millisecond) (20 * Second).

Inductive CircuitState := StateClosed | StateOpened | StateHalfOpened.
Inductive ExecFunc := executeInClosed_ | executeInHalfOpen_ | executeInOpened_.

#[global] Instance CircuitState_eq_dec : EqDecision CircuitState.
Proof. solve_decision. Defined.

Record CircuitBreaker := mkCB {
  state : CircuitState;
  exec : ExecFunc;
  errorsCount : Z;
  firstErr : option Z;
  nextAttempt : option Z;
  cfg : Config;
}.

Definition New (cfg : Config) : CircuitBreaker := mkCB StateClosed executeInClosed_ 0 None None cfg.

Definition incErrCount (cb : CircuitBreaker) : CircuitBreaker :=
  mkCB (state cb) (exec cb) (errorsCount cb + 1) (firstErr cb) (nextAttempt cb) (cfg cb).
Definition reset (cb : CircuitBreaker) : CircuitBreaker :=
  mkCB (state cb) (exec cb) 0 None None (cfg cb).
Definition set_firstErr (now : Z) (cb : CircuitBreaker) : CircuitBreaker :=
  mkCB (state cb) (exec cb) (errorsCount cb) (Some now) (nextAttempt cb) (cfg cb).
Definition incNextAttempt (now : Z) (cb : CircuitBreaker) : CircuitBreaker :=
  mkCB (state cb) (exec cb) (errorsCount cb) (firstErr cb)
       (Some (now + MaxErrorsInterval (cfg cb) * 2)) (cfg cb).
Definition setMaxNextAttempt (now : Z) (cb : CircuitBreaker) : CircuitBreaker :=
  mkCB (state cb) (exec cb) (errorsCount cb) (firstErr cb)
       (Some (now + MaxWaitInterval (cfg cb))) (cfg cb).
Definition goto (st : CircuitState) (ex : ExecFunc) (cb : CircuitBreaker) : CircuitBreaker :=
  mkCB st ex (errorsCount cb) (firstErr cb) (nextAttempt cb) (cfg cb).

Definition transitToHalfOpened (now : Z) (cb : CircuitBreaker) : CircuitBreaker :=
  goto StateHalfOpened executeInHalfOpen_ (incNextAttempt now cb).
Definition transitToClosed (cb : CircuitBreaker) : CircuitBreaker :=
  goto StateClosed executeInClosed_ (reset cb).
Definition transitToOpened (now : Z) (cb : CircuitBreaker) : CircuitBreaker :=
  goto StateOpened executeInOpened_ (setMaxNextAttempt now cb).

Definition errorInClosed (now : Z) (cb : CircuitBreaker) : CircuitBreaker :=
  let cb := incErrCount cb in
  match firstErr cb with
  | None => set_firstErr now cb
  | Some fe =>
      if bool_decide (MaxWaitInterval (cfg cb) < now - fe) then reset cb
      else if bool_decide (ClosedMaxErrors (cfg cb) ≤ errorsCount cb) then transitToHalfOpened now cb
      else cb
  end.

Definition errorInHalfOpen (now : Z) (cb : CircuitBreaker) : CircuitBreaker :=
  let cb := incErrCount cb in
  if bool_decide (HalfOpenedMaxErrors (cfg cb) ≤ errorsCount cb) then transitToOpened now cb
  else incNextAttempt now cb.

(** One call: the time it starts, the context's error if it ends before the
    timer, the error of [f] and the time when [f] has returned. *)
Record call := mkCall {
  c_start : Z;
  c_ctx : option goerr;
  c_ferr : option goerr;
  c_end : Z;
}.

(** [waitUntilNextAttempt]: the error, or the earliest time [f] starts. *)
Definition waitUntilNextAttempt (c : call) (cb : CircuitBreaker) : goerr + Z :=
  match nextAttempt cb with
  | Some na =>
      if bool_decide (c_start c < na)
      then match c_ctx c with Some e => inl e | None => inr na end
      else inr (c_start c)
  | None => inr (c_start c)
  end.

Definition ErrOpened : goerr := GoErr "circuit open".

(** The result of [Run]: the new breaker, when [f] was started (if it was) and
    the error returned. *)
Record outcome := mkOut { o_cb : CircuitBreaker; o_called : option Z; o_err : option goerr }.

Definition executeInClosed (c : call) (cb : CircuitBreaker) : outcome :=
  match c_ferr c with
  | Some e => mkOut (errorInClosed (c_end c) cb) (Some (c_start c)) (Some e)
  | None => mkOut cb (Some (c_start c)) None
  end.

Definition executeInHalfOpen (c : call) (cb : CircuitBreaker) : outcome :=
  match waitUntilNextAttempt c cb with
  | inl e => mkOut cb None (Some e)
  | inr t =>
      match c_ferr c with
      | Some e => mkOut (errorInHalfOpen (c_end c) cb) (Some t) (Some e)
      | None => mkOut (transitToClosed cb) (Some t) None
      end
  end.

Definition executeInOpened (c : call) (cb : CircuitBreaker) : outcome :=
  match waitUntilNextAttempt c cb with
  | inl e => mkOut cb None (Some e)
  | inr t =>
      match c_ferr c with
      | Some e => mkOut (setMaxNextAttempt (c_end c) (incErrCount cb)) (Some t) (Some (GoJoin ErrOpened e))
      | None => mkOut (transitToHalfOpened (c_end c) cb) (Some t) None
      end
  end.

Definition Run (c : call) (cb : CircuitBreaker) : outcome :=
  match exec cb with
  | executeInClosed_ => executeInClosed c cb
  | executeInHalfOpen_ => executeInHalfOpen c cb
  | executeInOpened_ => executeInOpened c cb
  end.

(** ** Invariant *)

Definition exec_of (s : CircuitState) : ExecFunc :=
  match s with
  | StateClosed => executeInClosed_
  | StateOpened => executeInOpened_
  | StateHalfOpened => executeInHalfOpen_
  end.

(** The function value is the one of the state; in the closed state there is no
    waiting time and the count stays below its limit (or is at most 1: the
    first error never opens the breaker); outside the closed state there
    is a next attempt, and the opened state is reached only at the half-open
    limit. *)
Record inv (cb : CircuitBreaker) : Prop := mk_inv {
  inv_exec : exec cb = exec_of (state cb);
  inv_count : 0 ≤ errorsCount cb;
  inv_closed : state cb = StateClosed →
    nextAttempt cb = None ∧ (errorsCount cb = 0 ↔ firstErr cb = None) ∧
    (errorsCount cb < ClosedMaxErrors (cfg cb) ∨ errorsCount cb ≤ 1);
  inv_waiting : state cb ≠ StateClosed →
    is_Some (nextAttempt cb) ∧ ClosedMaxErrors (cfg cb) ≤ errorsCount cb ∧ 2 ≤ errorsCount cb;
  inv_opened : state cb = StateOpened → HalfOpenedMaxErrors (cfg cb) ≤ errorsCount cb;
}.

Lemma inv_New c : inv (New c).
Proof. split; simpl; try done. intros _. repeat split; try done. lia. Qed.

(** The three shapes of a breaker that satisfies the invariant. *)
Lemma closed_inv n fe cf :
  0 ≤ n → (n = 0 ↔ fe = None) → n < ClosedMaxErrors cf ∨ n ≤ 1 →
  inv (mkCB StateClosed executeInClosed_ n fe None cf).
Proof. intros ???. by split. Qed.

Lemma half_inv n fe na cf :
  ClosedMaxErrors cf ≤ n → 2 ≤ n →
  inv (mkCB StateHalfOpened executeInHalfOpen_ n fe (Some na) cf).
Proof. intros ??. split; simpl; try done; lia. Qed.

Lemma opened_inv n fe na cf :
  ClosedMaxErrors cf ≤ n → HalfOpenedMaxErrors cf ≤ n → 2 ≤ n →
  inv (mkCB StateOpened executeInOpened_ n fe (Some na) cf).
Proof. intros ???. split; simpl; try done; lia. Qed.

Lemma inv_shapes cb :
  inv cb →
  (∃ n fe, cb = mkCB StateClosed executeInClosed_ n fe None (cfg cb) ∧ 0 ≤ n ∧
     (n = 0 ↔ fe = None) ∧ (n < ClosedMaxErrors (cfg cb) ∨ n ≤ 1)) ∨
  (∃ n fe na, cb = mkCB StateHalfOpened executeInHalfOpen_ n fe (Some na) (cfg cb) ∧
     ClosedMaxErrors (cfg cb) ≤ n ∧ 2 ≤ n) ∨
  (∃ n fe na, cb = mkCB StateOpened executeInOpened_ n fe (Some na) (cfg cb) ∧
     ClosedMaxErrors (cfg cb) ≤ n ∧ HalfOpenedMaxErrors (cfg cb) ≤ n ∧ 2 ≤ n).
Proof.
  destruct cb as [st ex n fe na cf]. intros [Hex Hn Hcl Hw Ho]; simpl in *. subst ex. destruct st; simpl.
  - left. destruct (Hcl eq_refl) as (-> & Hfe & Hlim). by exists n, fe.
  - right; right. destruct (Hw ltac:(done)) as ([a ->] & Hc & H2). specialize (Ho eq_refl). by exists n, fe, a.
  - right; left. destruct (Hw ltac:(done)) as ([a ->] & Hc & H2). by exists n, fe, a.
Qed.

Ltac cb_simp :=
  unfold transitToHalfOpened, transitToClosed, transitToOpened, goto, incNextAttempt,
    setMaxNextAttempt, set_firstErr, reset, incErrCount; simpl in *.

Lemma Run_inv c cb : inv cb → inv (o_cb (Run c cb)) ∧ cfg (o_cb (Run c cb)) = cfg cb.
Proof.
  intros [(n & fe & E & Hn & Hfe & Hl)|[(n & fe & na & E & Hc & H2)|(n & fe & na & E & Hc & Ho & H2)]]%inv_shapes;
    set (cf := cfg cb) in *; clearbody cf; subst cb.
  - unfold Run, executeInClosed, errorInClosed. simpl. destruct (c_ferr c); simpl; [|by split; [apply closed_inv|]].
    destruct fe as [fe|]; simpl.
    + repeat case_bool_decide; cb_simp; (split; [|done]).
      * apply closed_inv; [done|done|]. right. done.
      * apply half_inv; [lia|]. assert (n ≠ 0) by naive_solver. lia.
      * apply closed_inv; [lia| |lia]. split; [lia|done].
    + cb_simp. split; [|done]. assert (n = 0) as -> by naive_solver. apply closed_inv; [done|done|]. right. done.
  - unfold Run, executeInHalfOpen, waitUntilNextAttempt, errorInHalfOpen. simpl.
    repeat case_bool_decide; destruct (c_ctx c), (c_ferr c); simpl; repeat case_bool_decide; cb_simp;
      (split; [|done]); try (apply half_inv; lia); try (apply opened_inv; lia);
      apply closed_inv; try done; by right.
  - unfold Run, executeInOpened, waitUntilNextAttempt. simpl.
    repeat case_bool_decide; destruct (c_ctx c), (c_ferr c); cb_simp;
      (split; [|done]); try (apply half_inv; lia); apply opened_inv; lia.
Qed.

(** ** The breaker over a sequence of calls *)

Fixpoint runs (cs : list call) (cb : CircuitBreaker) : CircuitBreaker :=
  match cs with [] => cb | c :: r => runs r (o_cb (Run c cb)) end.

Lemma runs_inv cs cb : inv cb → inv (runs cs cb) ∧ cfg (runs cs cb) = cfg cb.
Proof.
  revert cb. induction cs as [|c r IH]; intros cb Hi; simpl; [done|].
  destruct (Run_inv c cb Hi) as [H1 H2]. destruct (IH _ H1) as [H3 H4]. split; [done|congruence].
Qed.

(** C39: after any sequence of calls the breaker's function value is the one of
    its state, and the state is justified: outside the closed state at least
    two and at least [ClosedMaxErrors] errors have been counted, the opened
    state needs [HalfOpenedMaxErrors]; a wrapped call is never started before
    the next attempt that the last failure set, and outside the closed state
    there always is one. *)
Theorem breaker_states_justified cf cs c :
  let cb := runs cs (New cf) in
  exec cb = exec_of (state cb) ∧
  (state cb ≠ StateClosed → 2 ≤ errorsCount cb ∧ ClosedMaxErrors cf ≤ errorsCount cb) ∧
  (state cb = StateOpened → HalfOpenedMaxErrors cf ≤ errorsCount cb) ∧
  (state cb ≠ StateClosed →
     ∃ na, nextAttempt cb = Some na ∧
           ∀ t, o_called (Run c cb) = Some t → na ≤ t ∧ c_start c ≤ t).
Proof.
  destruct (runs_inv cs (New cf) (inv_New cf)) as [Hi Hcfg]. simpl in *.
  set (cb := runs cs (New cf)) in *. clearbody cb.
  split_and!; [apply Hi|intros ?; rewrite <- Hcfg; split; by apply Hi|intros ?; rewrite <- Hcfg; by apply Hi|].
  intros Hst.
  destruct (inv_shapes cb Hi) as [(n & fe & E & _)|[(n & fe & na & E & _)|(n & fe & na & E & _)]];
    rewrite E in *; simpl in *; [done| |]; exists na; (split; [done|]); intros t;
    unfold Run, executeInHalfOpen, executeInOpened, waitUntilNextAttempt; simpl;
    case_bool_decide; destruct (c_ctx c), (c_ferr c); simpl; intros [= <-]; lia.
Qed.

(** What each call does in each state, as a table: a failure in the opened
    state is reported as [ErrOpened] joined with it; two calls that succeed
    close any breaker. *)
Definition succeeds (c : call) : Prop := c_ferr c = None ∧ c_ctx c = None.

(** Recovery.  From every reachable breaker, two successful calls (with a
    context that is not cancelled) lead to the closed state with all counters
    cleared, except that a closed breaker keeps its counters on success. *)
Lemma breaker_recovers cf cs c1 c2 :
  succeeds c1 → succeeds c2 →
  let cb := runs cs (New cf) in
  let cb' := runs (cs ++ [c1; c2]) (New cf) in
  state cb' = StateClosed ∧
  (state cb ≠ StateClosed → errorsCount cb' = 0 ∧ firstErr cb' = None ∧ nextAttempt cb' = None) ∧
  (state cb = StateClosed → cb' = cb).
Proof.
  intros [F1 X1] [F2 X2]. cbv zeta.
  assert (∀ l cb, runs (l ++ [c1; c2]) cb = o_cb (Run c2 (o_cb (Run c1 (runs l cb))))) as ->.
  { induction l as [|c l IH]; intros cb; simpl; [done|]. apply IH. }
  destruct (runs_inv cs (New cf) (inv_New cf)) as [Hi _].
  destruct (inv_shapes _ Hi) as [(n & fe & E & _)|[(n & fe & na & E & _)|(n & fe & na & E & _)]];
    rewrite E; clear E Hi;
    unfold Run, executeInClosed, executeInHalfOpen, executeInOpened, waitUntilNextAttempt; simpl;
    rewrite ?X1, ?F1; repeat case_bool_decide; simpl; rewrite ?X2, ?F2; simpl;
    repeat case_bool_decide; simpl; rewrite ?X2, ?F2; simpl; naive_solver.
Qed.

(** The counter is not cleared when the breaker leaves the closed state or comes
    back from the opened state: after five closed-state errors the default
    configuration opens after five (not ten) half-open errors, and after
    an opened breaker became half-open, one error opens it again. *)
Definition failing (t : Z) : call := mkCall t None (Some (GoErr "down")) t.
Definition passing (t : Z) : call := mkCall t None None t.
Definition sec (n : Z) : Z := n * Second.

Example half_open_errors_include_closed_ones :
  let cb5 := runs (failing <$> [1; 2; 3; 4; 5]) (New NewDefaultConfig) in
  let cb10 := runs (failing <$> [sec 2; sec 4; sec 6; sec 8; sec 10]) cb5 in
  let half := runs [passing (sec 20)] cb10 in
  (state cb5, errorsCount cb5) = (StateHalfOpened, 5) ∧
  (state cb10, errorsCount cb10) = (StateOpened, 10) ∧
  (state half, errorsCount half) = (StateHalfOpened, 10) ∧
  state (runs [failing (sec 30)] half) = StateOpened.
Proof. vm_compute. repeat split. Qed.

Lemma breaker_recovers_witness :
  state (runs ((failing <$> [1; 2; 3; 4; 5]) ++ [passing (sec 9); passing (sec 10)]) (New NewDefaultConfig))
    = StateClosed.
Proof.
  apply (breaker_recovers NewDefaultConfig (failing <$> [1; 2; 3; 4; 5]) (passing (sec 9)) (passing (sec 10)));
    split; reflexivity.
Defined.
