(* ===== verification/PgWal.v ===== *)
(** * Write requests and responses (src/pgwal, src/listener.go)

    The messages between the listener, the LSN tracker and the writers.  [Tup]
    is the type of the rows' tuples ([EntryTuple]); a nil tuple is [None].
    LSNs and transaction ids are unsigned integers of 64 and 32 bits. *)

From stdpp Require Import base numbers list gmap strings.
From S2P Require Import Prelude PgSchema.

Inductive OpKind := Insert | Update | Delete | SnapshotRead.

#[global] Instance OpKind_eq_dec : EqDecision OpKind.
Proof. solve_decision. Defined.

Section wal.
Context {Tup : Type}.

Record WriteEntry := mkWE {
  Tuple : option Tup;
  PrevTuple : option Tup;
  we_PK : string;
  Kind : OpKind;
  we_Table : TableName;
  Offset : Z;
}.

(** [entry.Release()]: the tuples whose [Release] is called. *)
Definition Release (entry : WriteEntry) : list Tup :=
  match Tuple entry with Some t => [t] | None => [] end ++
  match PrevTuple entry with Some t => [t] | None => [] end.

Record WriteRequest := mkWR {
  Entries : list WriteEntry;
  LSN : Z;
  XID : Z;
  CommitTime : option Z;
  isSnapshot : bool;
}.

Definition NewSnapshotRequest (lsn : Z) (entries : list WriteEntry) : WriteRequest :=
  mkWR entries lsn 0 None true.

Definition IsSnapshot (r : WriteRequest) : bool := isSnapshot r.

Definition Size (r : WriteRequest) : Z := u32 (Z.of_nat (length (Entries r))).

Definition GetEntryByOffset (r : WriteRequest) (offset : Z) : option WriteEntry :=
  List.find (λ e, bool_decide (Offset e = offset)) (Entries r).

Lemma GetEntryByOffset_Some r o e :
  GetEntryByOffset r o = Some e → e ∈ Entries r ∧ Offset e = o.
Proof.
  intros [Hin Ho]%find_some. split; [by apply list_elem_of_In|]. by apply bool_decide_eq_true in Ho.
Qed.

Lemma GetEntryByOffset_is_Some r o :
  is_Some (GetEntryByOffset r o) ↔ o ∈ (Offset <$> Entries r).
Proof.
  unfold GetEntryByOffset. rewrite list_elem_of_fmap. split.
  - intros [e [Hin Ho]%find_some]. apply bool_decide_eq_true in Ho. exists e.
    split; [done|]. by apply list_elem_of_In.
  - intros (e & -> & He). destruct (List.find _ _) as [x|] eqn:E; [by eexists|].
    apply list_elem_of_In in He. pose proof (find_none _ _ E e He) as H.
    apply bool_decide_eq_false in H. done.
Qed.
End wal.
Arguments WriteEntry : clear implicits.
Arguments WriteRequest : clear implicits.

(** [CommitPoint] (src/listener.go). *)
Record CommitPoint := mkCP { cp_LSN : Z; cp_XID : Z }.

#[global] Instance CommitPoint_eq_dec : EqDecision CommitPoint.
Proof. solve_decision. Defined.
#[global] Instance CommitPoint_countable : Countable CommitPoint.
Proof.
  apply (inj_countable' (λ c, (cp_LSN c, cp_XID c)) (λ p, mkCP p.1 p.2)). by intros [].
Defined.

(** [WriterError]: the two answers the tracker asks for. *)
Record WriterError := mkWErr { we_msg : string; IsRetryable : bool; IsDownStreamDown : bool }.

Record ResponseEntry := mkRE {
  re_PK : string; re_Table : TableName; re_LSN : Z; re_XID : Z; re_Offset : Z }.

Record ErrorResponseEntry := mkERE { ere_Entry : ResponseEntry; Reason : WriterError }.

Record Response := mkResp { r_Entries : list ResponseEntry; MaxLSN : Z }.
Record ErrResponse := mkErrResp { er_Entries : list ErrorResponseEntry }.
