(* ===== verification/LSNTracker.v ===== *)
(** * The LSN tracker (src/pg2buffer/pglsntracker/buffered_lsn_tracker.go)

    The tracker keeps the write requests that were read from PostgreSQL until
    every entry of them is acknowledged by the writer, hands them (and their
    retries) to the writer, and computes the commit point up to which
    everything is acknowledged.

    [Module Tracked] is the tracked write request, [Module Tracker] the
    tracker's methods, [Module System] the interleavings of its callers.

    Tracked requests are shared between the tracking queue, the ready queue and
    the retry timers, so they live in a store; a reference [tref] carries the
    two fields that never change ([point] and [size]), which is what the queue
    reads.  The queues are any implementation of the interface [QueueImpl].
    Three arguments stand for what is outside: the iteration order of Go maps,
    the timing wheel's [SetTimer] and the backoff (which draws a random
    number). *)

From stdpp Require Import base numbers list gmap strings sorting.
From S2P Require Import Prelude WriteQueue PgSchema CircuitBreaker PgWal.

(** ** Durations of the retry wheel *)

Definition defaultRetryWheelInterval : Z := 10 * Millisecond.
Definition minRetryWheelInterval : Z := Millisecond.

Definition retryWheelInterval (cfg : RetryConfig) : Z :=
  let interval := defaultRetryWheelInterval in
  let interval :=
    if bool_decide (0 < InitialBackoff cfg) && bool_decide (InitialBackoff cfg < interval)
    then InitialBackoff cfg else interval in
  if bool_decide (interval < minRetryWheelInterval) then minRetryWheelInterval else interval.

Definition roundRetryDelay (delay interval : Z) : Z :=
  let interval := if bool_decide (interval ≤ 0) then minRetryWheelInterval else interval in
  if bool_decide (delay ≤ 0) then interval
  else
    let rem := Z.rem delay interval in
    if bool_decide (0 < rem) then i64 (delay + (interval - rem)) else delay.

(** ** A tracked write request *)

Module Tracked.
Section tracked.
Context {Tup : Type}.
Notation WriteRequest := (PgWal.WriteRequest Tup).

Record failureEntry := mkFail { retries : Z; downStreamDownRetries : Z; lastFailed : Z }.

Definition totalRetries (fe : failureEntry) : Z := retries fe + downStreamDownRetries fe - 1.

(** [orig] and [releases] are for the proofs only: the offsets the request was
    created with, and how often its entries were released. *)
Record trackedWriteRequest := mkTW {
  point : CommitPoint;
  write : option WriteRequest;
  size : Z;
  pending : gset Z;
  failures : gmap Z failureEntry;
  queued : list WriteRequest;
  released : bool;
  orig : gset Z;
  releases : nat;
}.

Definition offsets_of (w : WriteRequest) : gset Z :=
  match Entries w with [] => {[0]} | l => list_to_set (Offset <$> l) end.

Definition newTrackedWriteRequest (w : WriteRequest) : trackedWriteRequest :=
  mkTW (mkCP (LSN w) (XID w)) (Some w) (Size w) (offsets_of w) ∅ [] false (offsets_of w) 0%nat.

Definition with_queued q tw :=
  mkTW (point tw) (write tw) (size tw) (pending tw) (failures tw) q (released tw) (orig tw) (releases tw).
Definition with_pending p tw :=
  mkTW (point tw) (write tw) (size tw) p (failures tw) (queued tw) (released tw) (orig tw) (releases tw).
Definition with_failures f tw :=
  mkTW (point tw) (write tw) (size tw) (pending tw) f (queued tw) (released tw) (orig tw) (releases tw).

Definition hasPendingEntries (w : option WriteRequest) (tw : trackedWriteRequest) : bool :=
  match w with
  | None => false
  | Some w =>
      if bool_decide (pending tw = ∅) then false
      else match Entries w with
           | [] => bool_decide (0 ∈ pending tw)
           | l => existsb (λ e, bool_decide (Offset e ∈ pending tw)) l
           end
  end.

Definition queueWrite (w : option WriteRequest) (tw : trackedWriteRequest)
    : bool * trackedWriteRequest :=
  match w with
  | None => (false, tw)
  | Some w' =>
      if released tw || negb (hasPendingEntries w tw) then (false, tw)
      else (true, with_queued (queued tw ++ [w']) tw)
  end.

Definition clearQueued (tw : trackedWriteRequest) : trackedWriteRequest := with_queued [] tw.

Definition popQueuedWrite (tw : trackedWriteRequest) : option WriteRequest * trackedWriteRequest :=
  match queued tw with
  | [] => (None, tw)
  | w :: r => (Some w, with_queued r tw)
  end.

Definition isAcknowledged (tw : trackedWriteRequest) : bool := bool_decide (pending tw = ∅).

Definition ack (offsets : list Z) (tw : trackedWriteRequest) : bool * trackedWriteRequest :=
  let tw := with_pending (pending tw ∖ list_to_set offsets) tw in (isAcknowledged tw, tw).

Definition hasFailures (tw : trackedWriteRequest) : bool :=
  bool_decide (0 < base.size (failures tw))%nat.

Definition getFailedEntry (offset : Z) (reason : WriterError) (now : Z) (tw : trackedWriteRequest)
    : failureEntry * trackedWriteRequest :=
  let fe :=
    match failures tw !! offset with
    | None => mkFail 1 (if IsDownStreamDown reason then 1 else 0) now
    | Some fe =>
        if IsDownStreamDown reason
        then mkFail (retries fe) (downStreamDownRetries fe + 1) now
        else mkFail (retries fe + 1) (downStreamDownRetries fe) now
    end in
  (fe, with_failures (<[offset := fe]> (failures tw)) tw).

Definition retryWrite (offset : Z) (tw : trackedWriteRequest) : option WriteRequest :=
  w ← write tw;
  if negb (bool_decide (offset ∈ pending tw)) then None
  else
    e ← GetEntryByOffset w offset;
    Some (mkWR [e] (LSN w) (XID w) (CommitTime w) false).

Definition fullWrite (tw : trackedWriteRequest) : option WriteRequest :=
  match write tw with
  | None => None
  | Some w => if released tw || negb (hasPendingEntries (Some w) tw) then None else Some w
  end.

(** [release]: the number of queued writes that are dropped. *)
Definition release (tw : trackedWriteRequest) : Z * trackedWriteRequest :=
  if released tw then (0, tw)
  else (Z.of_nat (length (queued tw)),
        mkTW (point tw) None (size tw) ∅ ∅ [] true (orig tw) (S (releases tw))).
End tracked.
Arguments trackedWriteRequest : clear implicits.
End Tracked.

(** ** The tracker *)

Module Tracker.
Import Tracked.

(** A reference to a tracked request, with its constant fields. *)
Record tref := mkRef { tid : nat; t_point : CommitPoint; t_size : Z }.

#[global] Instance tref_eq_dec : EqDecision tref.
Proof. solve_decision. Defined.

(** [readyWriteEntry] and [retryEntry]. *)
Record readyWriteEntry Tup := mkReady { r_tw : tref; r_write : WriteRequest Tup }.
Arguments mkReady {_} _ _.
Arguments r_tw {_} _.
Arguments r_write {_} _.
Record retryEntry Tup := mkRetryE { e_tw : tref; e_write : WriteRequest Tup; waitUntil : Z }.
Arguments mkRetryE {_} _ _ _.
Arguments e_tw {_} _.
Arguments e_write {_} _.
Arguments waitUntil {_} _.

Definition ready_size {Tup} (e : readyWriteEntry Tup) : Z := Size (r_write e).

Section tracker.
Context {Tup : Type}.
Context {QT : QueueImpl tref t_size} {QR : QueueImpl (readyWriteEntry Tup) ready_size}.
Notation WriteRequest := (PgWal.WriteRequest Tup).
Notation ackMap := (gmap CommitPoint (list Z)).

(** The order in which Go iterates over a map. *)
Context (enum : ackMap → list (CommitPoint * list Z)).
(** Whether the timing wheel accepts a timer (key, delay, wheel stopped). *)
Context (SetTimer : Z → Z → bool → bool).

Record tracker := mkT {
  trackingQueue : Q QT;
  readyQueue : Q QR;
  tws : gmap nat (trackedWriteRequest Tup);
  next_tid : nat;
  maxAcknowledged : CommitPoint;
  retryConfig : RetryConfig;
  retryInterval : Z;
  timers : list (Z * retryEntry Tup);
  retrySeq : Z;
  wheelStopped : bool;
  stopping : bool;
  writeGauge : Z;
  retryGauge : Z;
  shutdownCh : list goerr;
}.

Definition NewLSNTracker (cfg : RetryConfig) : tracker :=
  mkT op_new op_new ∅ 0%nat (mkCP 0 0) cfg (retryWheelInterval cfg) [] 0 false false 0 0 [].

Definition with_tracking v t :=
  mkT v (readyQueue t) (tws t) (next_tid t) (maxAcknowledged t) (retryConfig t) (retryInterval t)
      (timers t) (retrySeq t) (wheelStopped t) (stopping t) (writeGauge t) (retryGauge t) (shutdownCh t).
Definition with_ready v t :=
  mkT (trackingQueue t) v (tws t) (next_tid t) (maxAcknowledged t) (retryConfig t) (retryInterval t)
      (timers t) (retrySeq t) (wheelStopped t) (stopping t) (writeGauge t) (retryGauge t) (shutdownCh t).
Definition with_tws v t :=
  mkT (trackingQueue t) (readyQueue t) v (next_tid t) (maxAcknowledged t) (retryConfig t) (retryInterval t)
      (timers t) (retrySeq t) (wheelStopped t) (stopping t) (writeGauge t) (retryGauge t) (shutdownCh t).
Definition with_max v t :=
  mkT (trackingQueue t) (readyQueue t) (tws t) (next_tid t) v (retryConfig t) (retryInterval t)
      (timers t) (retrySeq t) (wheelStopped t) (stopping t) (writeGauge t) (retryGauge t) (shutdownCh t).
Definition with_timers v n t :=
  mkT (trackingQueue t) (readyQueue t) (tws t) (next_tid t) (maxAcknowledged t) (retryConfig t) (retryInterval t)
      v n (wheelStopped t) (stopping t) (writeGauge t) (retryGauge t) (shutdownCh t).
Definition with_stopped t :=
  mkT (trackingQueue t) (readyQueue t) (tws t) (next_tid t) (maxAcknowledged t) (retryConfig t) (retryInterval t)
      (timers t) (retrySeq t) true true (writeGauge t) (retryGauge t) (shutdownCh t).
Definition with_writeGauge v t :=
  mkT (trackingQueue t) (readyQueue t) (tws t) (next_tid t) (maxAcknowledged t) (retryConfig t) (retryInterval t)
      (timers t) (retrySeq t) (wheelStopped t) (stopping t) v (retryGauge t) (shutdownCh t).
Definition with_retryGauge v t :=
  mkT (trackingQueue t) (readyQueue t) (tws t) (next_tid t) (maxAcknowledged t) (retryConfig t) (retryInterval t)
      (timers t) (retrySeq t) (wheelStopped t) (stopping t) (writeGauge t) v (shutdownCh t).
Definition with_shutdown v t :=
  mkT (trackingQueue t) (readyQueue t) (tws t) (next_tid t) (maxAcknowledged t) (retryConfig t) (retryInterval t)
      (timers t) (retrySeq t) (wheelStopped t) (stopping t) (writeGauge t) (retryGauge t) v.

(** Allocation of a tracked request. *)
Definition alloc (tw : trackedWriteRequest Tup) (t : tracker) : tref * tracker :=
  (mkRef (next_tid t) (point tw) (size tw),
   mkT (trackingQueue t) (readyQueue t) (<[next_tid t := tw]> (tws t)) (S (next_tid t))
       (maxAcknowledged t) (retryConfig t) (retryInterval t) (timers t) (retrySeq t)
       (wheelStopped t) (stopping t) (writeGauge t) (retryGauge t) (shutdownCh t)).

Definition set_tw (r : tref) (tw : trackedWriteRequest Tup) (t : tracker) : tracker :=
  with_tws (<[tid r := tw]> (tws t)) t.

Definition writeQueueInc (t : tracker) : tracker := with_writeGauge (writeGauge t + 1) t.
Definition writeQueueDec (count : Z) (t : tracker) : tracker := with_writeGauge (writeGauge t - count) t.

(** [t.writeQueueDec(entry.release())] *)
Definition release_tw (r : tref) (tw : trackedWriteRequest Tup) (t : tracker) : tracker :=
  let '(n, tw) := release tw in writeQueueDec n (set_tw r tw t).

Definition findTrackedWrite (lsn : Z) (t : tracker) : option tref :=
  op_find (λ r, bool_decide (cp_LSN (t_point r) = lsn)) (trackingQueue t).

Definition isAckedLSN (lsn : Z) (t : tracker) : bool :=
  bool_decide (0 < cp_LSN (maxAcknowledged t)) && bool_decide (lsn ≤ cp_LSN (maxAcknowledged t)).

(** The callback of [advanceMaxAcknowledged]; its state is the tracker. *)
Definition advance_step (r : tref) (t : tracker) : bool * tracker :=
  match tws t !! tid r with
  | None => (false, t)
  | Some tw =>
      if negb (isAcknowledged tw) then (false, t)
      else (true, with_max (t_point r) (release_tw r tw t))
  end.

Definition advanceMaxAcknowledged (t : tracker) : tracker :=
  let '(q, t) := op_popUntil tracker advance_step (trackingQueue t) t in with_tracking q t.

Definition MaxAcknowledged (t : tracker) : tracker * CommitPoint :=
  let t := advanceMaxAcknowledged t in (t, maxAcknowledged t).

(** [t.ack(cp, offsets)] *)
Definition ack_point (cp : CommitPoint) (offsets : list Z) (t : tracker) : tracker :=
  match findTrackedWrite (cp_LSN cp) t with
  | None => t
  | Some r =>
      match tws t !! tid r with
      | None => t
      | Some tw =>
          let '(full, tw) := Tracked.ack offsets tw in
          if full then release_tw r tw t else set_tw r tw t
      end
  end.

Definition ack_all (l : list (CommitPoint * list Z)) (t : tracker) : tracker :=
  foldl (λ t a, ack_point a.1 a.2 t) t l.

Definition addToAckMap (cp : CommitPoint) (o : Z) (m : ackMap) : ackMap :=
  <[cp := default [] (m !! cp) ++ [o]]> m.

Definition group_acks (es : list ResponseEntry) : ackMap :=
  foldl (λ m e, addToAckMap (mkCP (re_LSN e) (re_XID e)) (re_Offset e) m) ∅ es.

Definition OnSuccess (resp : Response) (t : tracker) : tracker * CommitPoint :=
  let t := ack_all (enum (group_acks (r_Entries resp))) t in
  let t := advanceMaxAcknowledged t in (t, maxAcknowledged t).

Definition pushTrackedWrite (r : tref) (t : tracker) : tracker :=
  with_tracking
    (op_pushBefore r (λ e, bool_decide (cp_LSN (t_point r) < cp_LSN (t_point e))) (trackingQueue t)).1 t.

(** [enqueueReadyWrite], its two halves: [queueWrite] under the request's lock,
    then the statistics and the push. *)
Definition queue_write (r : tref) (w : option WriteRequest) (t : tracker) : bool * tracker :=
  match tws t !! tid r with
  | None => (false, t)
  | Some tw => let '(b, tw) := queueWrite w tw in (b, set_tw r tw t)
  end.
Definition push_ready (r : tref) (w : WriteRequest) (t : tracker) : tracker :=
  let t := writeQueueInc t in
  with_ready (op_push (mkReady r w) (readyQueue t)).1 t.
Definition enqueueReadyWrite (r : tref) (w : WriteRequest) (t : tracker) : tracker :=
  let '(b, t) := queue_write r (Some w) t in
  if b then push_ready r w t else t.

Definition AddEmpty (lsn xid : Z) (t : tracker) : tracker :=
  if stopping t then t
  else if isAckedLSN lsn t then t
  else
    match findTrackedWrite lsn t with
    | Some r =>
        match tws t !! tid r with
        | None => t
        | Some tw =>
            let '(full, tw) := Tracked.ack [0] tw in
            if full then release_tw r tw t else set_tw r tw t
        end
    | None =>
        let '(r, t) := alloc (newTrackedWriteRequest (mkWR [] lsn xid None false)) t in
        match tws t !! tid r with
        | None => t
        | Some tw =>
            let tw := clearQueued tw in
            let '(_, tw) := Tracked.ack [0] tw in
            pushTrackedWrite r (release_tw r tw t)
        end
    end.

Definition Add (w : WriteRequest) (t : tracker) : tracker * Z :=
  if stopping t then (t, 0)
  else
    let t :=
      if isAckedLSN (LSN w) t then t
      else
        match findTrackedWrite (LSN w) t with
        | Some r =>
            match tws t !! tid r with
            | None => t
            | Some tw =>
                if isAcknowledged tw then t
                else if negb (hasFailures tw) then t
                else match fullWrite tw with
                     | Some fw => enqueueReadyWrite r fw t
                     | None => t
                     end
            end
        | None =>
            let '(r, t) := alloc (newTrackedWriteRequest w) t in
            enqueueReadyWrite r w (pushTrackedWrite r t)
        end in
    (t, op_count (readyQueue t)).

(** *** Errors *)

(** What [processErrorResponse] gives: the acknowledgements of the skipped
    entries and the retries; or an error that shuts the program down; or the
    end of the process. *)
Inductive processed :=
| PDone (m : ackMap) (rs : list (retryEntry Tup))
| PShutdown (e : goerr)
| PFatal.

Definition downstreamDown (cfg : RetryConfig) (fe : failureEntry) (reason : WriterError) : bool :=
  bool_decide (0 < MaxConnectionRetries cfg) &&
  bool_decide (MaxConnectionRetries cfg ≤ downStreamDownRetries fe) && IsDownStreamDown reason.

Definition skipEntry (cfg : RetryConfig) (fe : failureEntry) (reason : WriterError) : bool :=
  bool_decide (MaxRetries cfg ≤ retries fe) || negb (IsRetryable reason).

(** [buildRetryEntry]; [None] is an entry whose write is nil. *)
Definition buildRetryEntry (now : Z) (backoff : Z → Z) (r : tref) (tw : trackedWriteRequest Tup)
    (entry : ErrorResponseEntry) (fe : failureEntry) : option (retryEntry Tup) :=
  w ← retryWrite (re_Offset (ere_Entry entry)) tw;
  Some (mkRetryE r w (now + backoff (retries fe))).

Fixpoint process_entries (now : Z) (backoff : Z → Z) (es : list ErrorResponseEntry)
    (m : ackMap) (rs : list (retryEntry Tup)) (t : tracker) : tracker * processed :=
  match es with
  | [] => (t, PDone m rs)
  | entry :: es =>
      let re := ere_Entry entry in
      match findTrackedWrite (re_LSN re) t with
      | None =>
          if negb (isAckedLSN (re_LSN re) t) then (t, PFatal)
          else process_entries now backoff es m rs t
      | Some r =>
          match tws t !! tid r with
          | None => (t, PFatal)
          | Some tw =>
              if isAcknowledged tw then process_entries now backoff es m rs t
              else
                let '(fe, tw) := getFailedEntry (re_Offset re) (Reason entry) now tw in
                let t := set_tw r tw t in
                if downstreamDown (retryConfig t) fe (Reason entry)
                then (t, PShutdown (GoWrap "downstream is down" (GoErr (we_msg (Reason entry)))))
                else if skipEntry (retryConfig t) fe (Reason entry)
                then process_entries now backoff es
                       (addToAckMap (mkCP (re_LSN re) (re_XID re)) (re_Offset re) m) rs t
                else if bool_decide (0 < MaxBackoff (retryConfig t))
                then match buildRetryEntry now backoff r tw entry fe with
                     | Some e => process_entries now backoff es m (rs ++ [e]) t
                     | None => process_entries now backoff es m rs t
                     end
                else process_entries now backoff es m rs t
          end
      end
  end.

Definition processErrorResponse (now : Z) (backoff : Z → Z) (resp : ErrResponse) (t : tracker)
    : tracker * processed :=
  if stopping t then (t, PDone ∅ []) else process_entries now backoff (er_Entries resp) ∅ [] t.

Definition scheduleRetry (now : Z) (e : retryEntry Tup) (t : tracker) : tracker :=
  if stopping t then t
  else
    let delay := roundRetryDelay (waitUntil e - now) (retryInterval t) in
    let key := u64 (retrySeq t + 1) in
    if SetTimer key delay (wheelStopped t)
    then let t := with_timers (timers t ++ [(key, e)]) key t in
         with_retryGauge (retryGauge t + 1) t
    else with_timers (timers t) key t.

(** [OnError], its three parts: the locked processing, the locked
    acknowledgements of skipped entries, the scheduling of the retries. *)
Definition OnError (now : Z) (backoff : Z → Z) (resp : option ErrResponse) (t : tracker)
    : res tracker :=
  match resp with
  | None => Ok t
  | Some resp =>
      match er_Entries resp with
      | [] => Ok t
      | _ =>
          match processErrorResponse now backoff resp t with
          | (_, PFatal) => Fatal "internal error: write is missing"
          | (t, PShutdown e) => Ok (with_shutdown (shutdownCh t ++ [e]) t)
          | (t, PDone m rs) =>
              let t := ack_all (enum m) t in
              Ok (foldl (λ t e, scheduleRetry now e t) t rs)
          end
      end
  end.

(** [onRetryTimer] up to its push: the timer fires and queues the write. *)
Definition onRetryTimer (e : retryEntry Tup) (t : tracker) : tracker :=
  let t := with_retryGauge (retryGauge t - 1) t in
  if stopping t then t else enqueueReadyWrite (e_tw e) (e_write e) t.

(** [readyWriteQueue.Pop]; entries whose request has nothing queued are
    skipped; [fuel] bounds the number of entries, [PopBlocked] is waiting. *)
Fixpoint PopReady (fuel : nat) (t : tracker) : tracker * Spec.popped WriteRequest :=
  match op_pop (readyQueue t) with
  | (q, Spec.PopStopped) => (with_ready q t, Spec.PopStopped)
  | (q, Spec.PopBlocked) => (with_ready q t, Spec.PopBlocked)
  | (q, Spec.PopItem e) =>
      let t := with_ready q t in
      match tws t !! tid (r_tw e) with
      | None => (t, Spec.PopBlocked)
      | Some tw =>
          match popQueuedWrite tw with
          | (Some w, tw) => (set_tw (r_tw e) tw t, Spec.PopItem w)
          | (None, _) =>
              match fuel with
              | O => (t, Spec.PopBlocked)
              | S fuel => PopReady fuel t
              end
          end
      end
  end.

(** [Stop] is one step here.  In the code it holds no lock while it cancels the
    context and stops the two queues, and the other methods look at the context
    before they lock [t.mu]: a call that is under way may find a queue stopped
    though it saw the context alive. *)
Definition Stop (t : tracker) : tracker :=
  if stopping t then t
  else
    let t := with_stopped t in
    let t := with_tracking (op_stop (trackingQueue t)) t in
    with_ready (op_stop (readyQueue t)) t.

Definition WriteQueueSize (t : tracker) : Z := op_count (trackingQueue t).
End tracker.
Arguments tracker Tup {_ _}.
End Tracker.

(** ** The invariant of a tracked request

    [P lsn o] says that offset [o] of the write at [lsn] may be acknowledged and
    [F lsn o] bounds how often it failed; the system below instantiates them
    with the history of responses. *)

Module TInv.
Import Tracked Tracker.

Section tw.
Context {Tup : Type}.
Context (P : Z → Z → Prop) (F : Z → Z → Z).
Implicit Types tw : trackedWriteRequest Tup.

Record tw_ok tw : Prop := mk_tw_ok {
  ok_pending : pending tw ⊆ orig tw;
  ok_orig : orig tw ≠ ∅;
  ok_released : released tw = bool_decide (pending tw = ∅);
  ok_done : released tw = true → write tw = None ∧ queued tw = [] ∧ failures tw = ∅;
  ok_releases : releases tw = (if released tw then 1 else 0)%nat;
  ok_write : released tw = false →
    ∃ w, write tw = Some w ∧ LSN w = cp_LSN (point tw) ∧ orig tw = offsets_of w;
  ok_acked o : o ∈ orig tw → o ∉ pending tw → P (cp_LSN (point tw)) o;
  ok_failures o fe : failures tw !! o = Some fe → retries fe ≤ F (cp_LSN (point tw)) o;
}.

(** Nothing but [pending], [failures] and [queued] changes before the release. *)
Definition same_base tw tw' : Prop := point tw' = point tw ∧ size tw' = size tw ∧ orig tw' = orig tw.

Lemma offsets_of_nonempty (w : WriteRequest Tup) : offsets_of w ≠ ∅.
Proof. unfold offsets_of. destruct (Entries w); set_solver. Qed.

Lemma newTracked_ok w : tw_ok (newTrackedWriteRequest w).
Proof.
  pose proof (offsets_of_nonempty w) as Hne.
  split; simpl; try done; [by rewrite bool_decide_false|eauto].
Qed.

Lemma queueWrite_ok w tw :
  tw_ok tw →
  let '(b, tw') := queueWrite w tw in
  tw_ok tw' ∧ same_base tw tw' ∧ pending tw' = pending tw ∧ released tw' = released tw ∧
  (b = true → released tw = false) ∧ queued tw' = queued tw ++ (if b then option_list w else []).
Proof.
  intros Hok. unfold queueWrite. destruct w as [w|]; [|simpl; by rewrite app_nil_r].
  destruct (released tw || _) eqn:Hr; [by rewrite app_nil_r|]. apply orb_false_iff in Hr as [Hr _].
  split; [|by rewrite Hr]. destruct Hok as [?? H3 ?????]. split; simpl; try done. congruence.
Qed.

Lemma popQueuedWrite_ok tw :
  tw_ok tw →
  let '(ow, tw') := popQueuedWrite tw in
  tw_ok tw' ∧ same_base tw tw' ∧ pending tw' = pending tw ∧ released tw' = released tw ∧
  queued tw = option_list ow ++ queued tw' ∧ (is_Some ow → released tw = false).
Proof.
  intros Hok. unfold popQueuedWrite. destruct (queued tw) as [|w r] eqn:Hq; simpl.
  - split_and!; try done.
  - assert (released tw = false) as Hr.
    { destruct (released tw) eqn:E; [|done]. destruct (ok_done tw Hok E) as (_ & ? & _). congruence. }
    split; [|by rewrite Hr]. destruct Hok. split; simpl; try done. congruence.
Qed.

(** The acknowledgement of offsets followed by the release, as in [ack_point]. *)
Definition ack_release (offsets : list Z) tw : trackedWriteRequest Tup :=
  let '(full, tw) := Tracked.ack offsets tw in if full then (release tw).2 else tw.

Lemma ack_release_ok offsets tw :
  tw_ok tw → (∀ o, o ∈ offsets → o ∈ pending tw → P (cp_LSN (point tw)) o) →
  tw_ok (ack_release offsets tw) ∧ same_base tw (ack_release offsets tw) ∧
  pending (ack_release offsets tw) = pending tw ∖ list_to_set offsets.
Proof.
  intros [H1 H2 H3 H4 H5 H6 H7 H8] HP. unfold ack_release, Tracked.ack. simpl.
  set (p := pending tw ∖ list_to_set offsets).
  assert (∀ o, o ∈ orig tw → o ∉ p → P (cp_LSN (point tw)) o) as H7'.
  { intros o Ho Hp. destruct (decide (o ∈ pending tw)) as [Hin|Hin]; [|by apply H7].
    apply HP; [|done]. unfold p in Hp. set_solver. }
  unfold isAcknowledged. simpl. fold p.
  destruct (decide (p = ∅)) as [Hp|Hp];
    [rewrite bool_decide_true by done|rewrite bool_decide_false by done].
  - unfold release. simpl. destruct (released tw) eqn:Hr; simpl.
    + split; [|done]. split; simpl; rewrite ?Hr; try done; [set_solver|].
      by rewrite bool_decide_true.
    + split; [|split; [done|by rewrite Hp]]. split; simpl; try done.
      * by rewrite H5.
      * intros o Ho _. apply H7'; [done|]. rewrite Hp. set_solver.
  - split; [|done]. assert (released tw = false) as Hr.
    { rewrite H3. apply bool_decide_eq_false. intros E. apply Hp. unfold p. set_solver. }
    split; simpl; try done.
    + set_solver.
    + by rewrite Hr, bool_decide_false.
Qed.

(** Releasing a fully acknowledged request again does nothing. *)
Lemma release_done tw : tw_ok tw → pending tw = ∅ → release tw = (0, tw).
Proof.
  intros Hok Hp. unfold release. rewrite (ok_released tw Hok), bool_decide_true by done. done.
Qed.

End tw.

(** Counting a failure needs one more failure in the bound. *)
Lemma getFailedEntry_ok {Tup} P F F' o reason now (tw : trackedWriteRequest Tup) :
  tw_ok P F tw → pending tw ≠ ∅ → (∀ l o', F l o' ≤ F' l o') →
  F (cp_LSN (point tw)) o + 1 ≤ F' (cp_LSN (point tw)) o → 0 ≤ F (cp_LSN (point tw)) o →
  let '(fe, tw') := getFailedEntry o reason now tw in
  tw_ok P F' tw' ∧ same_base tw tw' ∧ pending tw' = pending tw ∧
  released tw' = released tw ∧ queued tw' = queued tw ∧
  retries fe ≤ F' (cp_LSN (point tw)) o.
Proof.
  intros [H1 H2 H3 H4 H5 H6 H7 H8] Hp HF HF1 HF0. unfold getFailedEntry.
  set (fe := match failures tw !! o with None => _ | Some _ => _ end).
  assert (retries fe ≤ F' (cp_LSN (point tw)) o) as Hfe.
  { unfold fe. destruct (failures tw !! o) as [f|] eqn:E.
    - specialize (H8 o f E). destruct (IsDownStreamDown reason); simpl; lia.
    - simpl. lia. }
  rewrite bool_decide_false in H3 by done.
  split; [|done]. split; simpl; try done.
  - by rewrite H3, bool_decide_false.
  - intros. congruence.
  - intros o' f. rewrite lookup_insert_Some. intros [[<- <-]|[_ Hf]]; [done|].
    specialize (H8 o' f Hf). specialize (HF (cp_LSN (point tw)) o'). lia.
Qed.

Lemma tw_ok_mono {Tup} (P P' : Z → Z → Prop) (F F' : Z → Z → Z) (tw : trackedWriteRequest Tup) :
  (∀ l o, P l o → P' l o) → (∀ l o, F l o ≤ F' l o) → tw_ok P F tw → tw_ok P' F' tw.
Proof.
  intros HP HF [H1 H2 H3 H4 H5 H6 H7 H8]. split; try done; [auto|].
  intros o fe Ho. specialize (H8 o fe Ho). specialize (HF (cp_LSN (point tw)) o). lia.
Qed.

(** ** The invariant of the tracker *)

Section inv.
Context {Tup : Type}.
Context {QT : QueueImpl tref t_size} {QR : QueueImpl (readyWriteEntry Tup) ready_size}.
Notation tracker := (Tracker.tracker Tup).
Implicit Types t : tracker.

Definition lsn (r : tref) : Z := cp_LSN (t_point r).
Definition lsn_lt (a b : tref) : Prop := lsn a < lsn b.

Definition valid_ref t (r : tref) : Prop :=
  ∃ tw, tws t !! tid r = Some tw ∧ point tw = t_point r ∧ size tw = t_size r.

(** The tracker without its tracking queue, which holds [Tq]. *)
Record core (P : Z → Z → Prop) (F : Z → Z → Z) (Tq : list tref) t : Prop := mk_core {
  c_refs : Forall (valid_ref t) Tq;
  c_nodup : NoDup (tid <$> Tq);
  c_sorted : StronglySorted lsn_lt Tq;
  c_above r : r ∈ Tq → 0 ≤ lsn r ∧
    (0 < cp_LSN (maxAcknowledged t) → cp_LSN (maxAcknowledged t) < lsn r);
  c_max : 0 ≤ cp_LSN (maxAcknowledged t);
  c_fresh id tw : tws t !! id = Some tw → (id < next_tid t)%nat;
  c_tw id tw : tws t !! id = Some tw → tw_ok P F tw;
  c_left id tw : tws t !! id = Some tw → id ∉ (tid <$> Tq) →
    pending tw = ∅ ∧ cp_LSN (point tw) ≤ cp_LSN (maxAcknowledged t);
  c_ready : Forall (λ e, valid_ref t (r_tw e)) (Spec.items (q_abs (readyQueue t)));
  c_timers : Forall (λ e, valid_ref t (e_tw e.2)) (timers t);
  c_wfr : q_wf (readyQueue t);
}.

Record tinv P F t : Prop := mk_tinv {
  i_core : core P F (Spec.items (q_abs (trackingQueue t))) t;
  i_wft : q_wf (trackingQueue t);
  i_stop : Spec.qstopped (q_abs (trackingQueue t)) = stopping t;
  i_stopr : Spec.qstopped (q_abs (readyQueue t)) = stopping t;
}.

Lemma new_tinv P F cfg : tinv P F (NewLSNTracker cfg).
Proof.
  destruct (WriteQueue.new_ok (QueueImpl := QT)) as [H1 H2].
  destruct (WriteQueue.new_ok (QueueImpl := QR)) as [H3 H4].
  split; simpl; rewrite ?H2, ?H4; try done.
  split; simpl; rewrite ?H4; try done; try (intros *; rewrite lookup_empty; done).
  - apply NoDup_nil_2.
  - constructor.
  - intros r Hr. by apply not_elem_of_nil in Hr.
Qed.

(** Only the facts about the history grow. *)
Lemma core_mono P P' F F' Tq t :
  (∀ l o, P l o → P' l o) → (∀ l o, F l o ≤ F' l o) → core P F Tq t → core P' F' Tq t.
Proof. intros HP HF []. split; try done. intros. eapply tw_ok_mono; eauto. Qed.

Lemma tinv_mono P P' F F' t :
  (∀ l o, P l o → P' l o) → (∀ l o, F l o ≤ F' l o) → tinv P F t → tinv P' F' t.
Proof. intros HP HF []. split; try done. by eapply core_mono. Qed.

Lemma valid_ref_insert t id tw tw' r :
  tws t !! id = Some tw → same_base tw tw' →
  valid_ref t r → valid_ref (with_tws (<[id := tw']> (tws t)) t) r.
Proof.
  intros Hid (Hp & Hs & _) (tw0 & H0 & E1 & E2). unfold valid_ref. simpl.
  destruct (decide (id = tid r)) as [->|Hne].
  - rewrite lookup_insert_eq. eexists. split; [done|]. rewrite Hid in H0. simplify_eq. by rewrite Hp, Hs.
  - rewrite lookup_insert_ne by done. eauto.
Qed.

(** Changing one tracked request, with fewer pending offsets. *)
Lemma set_tw_core P F Tq t r tw tw' :
  core P F Tq t → tws t !! tid r = Some tw → tw_ok P F tw' → same_base tw tw' →
  pending tw' ⊆ pending tw → core P F Tq (set_tw r tw' t).
Proof.
  intros [Hr Hnd Hs Ha Hm Hf Ht Hl Hrd Htm Hw] Htw Hok Hsb Hp.
  assert (∀ r0, valid_ref t r0 → valid_ref (set_tw r tw' t) r0) as Hv
    by (intros r0; by eapply valid_ref_insert).
  split; simpl; try done.
  - eapply Forall_impl; [exact Hr|]. exact Hv.
  - intros id tw0 [[<- <-]|[_ H]]%lookup_insert_Some; by eapply Hf.
  - intros id tw0 [[<- <-]|[_ H]]%lookup_insert_Some; [done|by eapply Ht].
  - intros id tw0 [[<- <-]|[_ H]]%lookup_insert_Some Hn; [|by eapply Hl].
    destruct (Hl _ _ Htw Hn) as [E1 E2]. destruct Hsb as [-> _]. split; [set_solver|done].
  - eapply Forall_impl; [exact Hrd|]. simpl. intros e. apply Hv.
  - eapply Forall_impl; [exact Htm|]. simpl. intros e. apply Hv.
Qed.

Lemma gauge_core P F Tq t g : core P F Tq t → core P F Tq (with_writeGauge g t).
Proof. intros []. by split. Qed.

(** The queue reads its entries in order, so the reference found is one of
    them, and the one with that LSN. *)
Lemma find_ref P F t l r :
  tinv P F t → findTrackedWrite l t = Some r →
  r ∈ Spec.items (q_abs (trackingQueue t)) ∧ lsn r = l ∧ stopping t = false ∧
  ∃ tw, tws t !! tid r = Some tw ∧ point tw = t_point r ∧ size tw = t_size r ∧ tw_ok P F tw.
Proof.
  intros Hi. unfold findTrackedWrite. rewrite find_ok by apply Hi. unfold Spec.q_find.
  rewrite (i_stop _ _ _ Hi). destruct (stopping t); [done|].
  intros [Hin Hl]%find_some. apply list_elem_of_In in Hin. apply bool_decide_eq_true in Hl.
  split_and!; try done. pose proof (i_core _ _ _ Hi) as Hc.
  pose proof (c_refs _ _ _ _ Hc) as Hr. rewrite Forall_forall in Hr.
  destruct (Hr r Hin) as (tw & H1 & H2 & H3). exists tw. split_and!; try done. by eapply c_tw.
Qed.

Lemma find_none_ref P F t l :
  tinv P F t → findTrackedWrite l t = None → stopping t = false →
  ∀ r, r ∈ Spec.items (q_abs (trackingQueue t)) → lsn r ≠ l.
Proof.
  intros Hi. unfold findTrackedWrite. rewrite find_ok by apply Hi. unfold Spec.q_find.
  rewrite (i_stop _ _ _ Hi). intros Hf Hst r Hin%list_elem_of_In Hl.
  rewrite Hst in Hf.
  pose proof (find_none _ _ Hf r Hin) as H. by apply bool_decide_eq_false in H.
Qed.

(** Setting a request found in the queue. *)
Lemma set_tw_tinv P F t r tw tw' :
  tinv P F t → tws t !! tid r = Some tw → tw_ok P F tw' → same_base tw tw' →
  pending tw' ⊆ pending tw → tinv P F (set_tw r tw' t).
Proof. intros [Hc Hw H1 H2] ????. split; try done. by eapply set_tw_core. Qed.

Lemma release_tw_tinv P F t r tw tw0 :
  tinv P F t → tws t !! tid r = Some tw0 → tw_ok P F (release tw).2 → same_base tw0 (release tw).2 →
  pending (release tw).2 ⊆ pending tw0 → tinv P F (release_tw r tw t).
Proof.
  intros Hi Ht Hok Hsb Hp. unfold release_tw. destruct (release tw) as [n tw'] eqn:E. simpl in *.
  pose proof (set_tw_tinv P F t r tw0 tw' Hi Ht Hok Hsb Hp) as [Hc Hw H1 H2].
  split; try done. by apply gauge_core.
Qed.

(** [if entry.ack(offsets) { t.writeQueueDec(entry.release()) }] *)
Definition ack_ref (r : tref) (offsets : list Z) (tw : trackedWriteRequest Tup) t : tracker :=
  let '(full, tw) := Tracked.ack offsets tw in
  if full then release_tw r tw t else set_tw r tw t.

Lemma ack_ref_eq r offsets tw t :
  ack_ref r offsets tw t =
  with_writeGauge
    (writeGauge t - (if isAcknowledged (Tracked.ack offsets tw).2 then (release (Tracked.ack offsets tw).2).1 else 0))
    (set_tw r (ack_release offsets tw) t).
Proof.
  unfold ack_ref, ack_release, release_tw. destruct (Tracked.ack offsets tw) as [full tw'] eqn:E.
  assert (full = isAcknowledged tw') as -> by (unfold Tracked.ack in E; by simplify_eq).
  simpl. destruct (isAcknowledged tw').
  - destruct (release tw') as [n tw'']. done.
  - simpl. rewrite Z.sub_0_r. by destruct t.
Qed.

Lemma ack_ref_tinv P F t r offsets tw :
  tinv P F t → tws t !! tid r = Some tw →
  (∀ o, o ∈ offsets → o ∈ pending tw → P (cp_LSN (point tw)) o) →
  tinv P F (ack_ref r offsets tw t).
Proof.
  intros Hi Htw HP. pose proof (c_tw _ _ _ _ (i_core _ _ _ Hi) _ _ Htw) as Hok.
  destruct (ack_release_ok P F offsets tw Hok HP) as (Hok' & Hsb & Hp).
  rewrite ack_ref_eq.
  destruct (set_tw_tinv P F t r tw (ack_release offsets tw) Hi Htw Hok' Hsb) as [Hc Hw H1 H2].
  { rewrite Hp. set_solver. }
  split; try done. by apply gauge_core.
Qed.

Lemma ack_point_eq cp offsets t :
  ack_point cp offsets t =
  match findTrackedWrite (cp_LSN cp) t with
  | None => t
  | Some r => match tws t !! tid r with None => t | Some tw => ack_ref r offsets tw t end
  end.
Proof. done. Qed.

Lemma ack_point_tinv P F cp offsets t :
  tinv P F t → (∀ o, o ∈ offsets → P (cp_LSN cp) o) → tinv P F (ack_point cp offsets t).
Proof.
  intros Hi HP. rewrite ack_point_eq. destruct (findTrackedWrite (cp_LSN cp) t) as [r|] eqn:Hf; [|done].
  destruct (find_ref P F t _ r Hi Hf) as (_ & Hl & _ & tw & Htw & Hpt & _ & _). rewrite Htw.
  apply ack_ref_tinv; try done. intros o Ho _. unfold lsn in Hl. rewrite Hpt, Hl. by apply HP.
Qed.

Lemma ack_all_tinv P F l t :
  tinv P F t → (∀ cp os o, (cp, os) ∈ l → o ∈ os → P (cp_LSN cp) o) → tinv P F (ack_all l t).
Proof.
  unfold ack_all. revert t. induction l as [|[cp os] l IH]; intros t Hi HP; simpl; [done|].
  apply IH.
  - apply ack_point_tinv; [done|]. intros o Ho. apply (HP cp os); [set_solver|done].
  - intros cp' os' o Hin. apply HP. set_solver.
Qed.

(** The prefix of acknowledged requests leaves the tracking queue. *)
Lemma advance_step_core P F r l t :
  core P F (r :: l) t →
  ∃ b : bool, advance_step r t = (b, if b then with_max (t_point r) t else t) ∧
    (b = true → core P F l (with_max (t_point r) t) ∧
                cp_LSN (maxAcknowledged t) ≤ lsn r) ∧
    (b = false → ∃ tw, tws t !! tid r = Some tw ∧ pending tw ≠ ∅) ∧
    (b = true → ∃ tw, tws t !! tid r = Some tw ∧ pending tw = ∅).
Proof.
  intros Hc. pose proof Hc as [Hr Hnd Hs Ha Hm Hf Ht Hl Hrd Htm Hw].
  apply Forall_cons in Hr as [(tw & Htw & Hpt & Hsz) Hr]. unfold advance_step. rewrite Htw.
  unfold isAcknowledged. destruct (decide (pending tw = ∅)) as [Hp|Hp].
  2: { rewrite bool_decide_false by done. exists false. split_and!; try done. eauto. }
  rewrite bool_decide_true by done. simpl. exists true.
  unfold release_tw. rewrite (release_done P F tw (Ht _ _ Htw) Hp). simpl.
  assert (cp_LSN (maxAcknowledged t) ≤ lsn r) as Hmax.
  { destruct (Ha r ltac:(set_solver)) as [H0 H1].
    destruct (decide (0 < cp_LSN (maxAcknowledged t))); [specialize (H1 ltac:(done))|]; lia. }
  split_and!; try done; [|intros _; split; [|done]|eauto].
  { f_equal. unfold set_tw, writeQueueDec. simpl. rewrite insert_id by done. rewrite Z.sub_0_r. by destruct t. }
  apply StronglySorted_inv in Hs as [Hs Hlt]. rewrite Forall_forall in Hlt.
  simpl in Hnd. apply NoDup_cons in Hnd as [Hn Hnd].
  split; simpl; try done.
  - intros r' Hr'. destruct (Ha r' ltac:(set_solver)) as [H0 _]. split; [done|].
    intros _. apply Hlt. done.
  - destruct (Ha r ltac:(set_solver)) as [H0 _]. done.
  - intros id tw' Hid Hnin. destruct (decide (id = tid r)) as [->|Hne].
    + rewrite Htw in Hid. simplify_eq. by rewrite Hpt.
    + destruct (Hl id tw' Hid) as [E1 E2]; [set_solver|]. split; [done|].
      unfold lsn in Hmax. lia.
Qed.

(** What [drain] leaves, in terms of the queue's entries. *)
Lemma drain_core P F l c t :
  core P F l t →
  let '(l', _, t') := Spec.drain t_size advance_step l c t in
  core P F l' t' ∧ cp_LSN (maxAcknowledged t) ≤ cp_LSN (maxAcknowledged t') ∧
  (∃ m, t' = with_max m t) ∧
  (∃ l1, l = l1 ++ l' ∧
     Forall (λ r, ∃ tw, tws t !! tid r = Some tw ∧ pending tw = ∅) l1 ∧
     maxAcknowledged t' = default (maxAcknowledged t) (t_point <$> last l1)) ∧
  (∀ r, head l' = Some r → ∃ tw, tws t !! tid r = Some tw ∧ pending tw ≠ ∅).
Proof.
  revert c t. induction l as [|r l IH]; intros c t Hc; simpl.
  { split_and!; try done; [exists (maxAcknowledged t); by destruct t|by exists []]. }
  destruct (advance_step_core P F r l t Hc) as (b & -> & Htrue & Hfalse & Hack).
  destruct b; simpl.
  2: { split_and!; try done; [exists (maxAcknowledged t); by destruct t|by exists []|].
       intros r' [= <-]. by apply Hfalse. }
  destruct (Htrue eq_refl) as [Hc1 Hle]. set (t1 := with_max (t_point r) _) in *.
  specialize (IH (u64 (c - t_size r)) t1 Hc1).
  destruct (Spec.drain t_size advance_step l (u64 (c - t_size r)) t1) as [[l' c'] t'].
  destruct IH as (Hc' & Hle' & (m & ->) & (l1 & -> & Hf & Hmax) & Hh).
  split_and!; try done.
  - simpl in *. unfold lsn in Hle. lia.
  - exists m. by destruct t.
  - exists (r :: l1). split; [done|]. split; [by constructor; auto|].
    rewrite Hmax. destruct l1 as [|x l1]; [done|]. rewrite last_cons_cons.
    by destruct (last (x :: l1)) eqn:E; [|apply last_None in E].
Qed.

(** The entries of the tracking queue, oldest first. *)
Definition tracked t : list tref := Spec.items (q_abs (trackingQueue t)).

Definition acked_ref t (r : tref) : Prop := ∃ tw, tws t !! tid r = Some tw ∧ pending tw = ∅.

Lemma core_with_tracking P F l q t : core P F l t → core P F l (with_tracking q t).
Proof. intros []. by split. Qed.

Lemma advance_spec P F t :
  tinv P F t →
  let t' := advanceMaxAcknowledged t in
  tinv P F t' ∧ cp_LSN (maxAcknowledged t) ≤ cp_LSN (maxAcknowledged t') ∧
  tws t' = tws t ∧ readyQueue t' = readyQueue t ∧ writeGauge t' = writeGauge t ∧
  retryGauge t' = retryGauge t ∧ timers t' = timers t ∧ stopping t' = stopping t ∧
  retryConfig t' = retryConfig t ∧ next_tid t' = next_tid t ∧
  (stopping t = true → tracked t' = tracked t ∧ maxAcknowledged t' = maxAcknowledged t) ∧
  (stopping t = false →
     (∃ l1, tracked t = l1 ++ tracked t' ∧ Forall (acked_ref t) l1 ∧
            maxAcknowledged t' = default (maxAcknowledged t) (t_point <$> last l1)) ∧
     (∀ r, head (tracked t') = Some r → ¬ acked_ref t r)).
Proof.
  intros [Hc Hw Hst Hsr]. unfold advanceMaxAcknowledged, tracked.
  pose proof (popUntil_ok _ advance_step (trackingQueue t) t Hw) as [Hw' Heq].
  destruct (op_popUntil _ advance_step (trackingQueue t) t) as [q' t'']. simpl in *.
  unfold Spec.q_popUntil in Heq. rewrite Hst in Heq.
  destruct (stopping t) eqn:Hs; [|destruct (Spec.items (q_abs (trackingQueue t))) as [|r l] eqn:Hit].
  - simplify_eq. rewrite H in *. split_and!; try done.
    split; simpl; rewrite ?H; try done; [by apply core_with_tracking|congruence|congruence].
  - simplify_eq. rewrite H in *. split_and!; try done.
    + split; simpl; rewrite ?H, ?Hit; try done; [by apply core_with_tracking|congruence|congruence].
    + intros _. rewrite Hit. split; [by exists []|done].
  - pose proof (drain_core P F (r :: l) (Spec.qcount (q_abs (trackingQueue t))) t Hc) as Hd.
    destruct (Spec.drain t_size advance_step (r :: l) _ t) as [[l' c'] t0].
    destruct Hd as (Hc' & Hle & (m & ->) & (l1 & El & Hf & Hmax) & Hh).
    simplify_eq. rewrite H. simpl in *. split_and!; try done.
    + split; simpl; rewrite ?H; try done; [by apply core_with_tracking|congruence].
    + intros _. split; [by exists l1|]. intros r' Hr' (tw & H1 & H2).
      destruct (Hh r' Hr') as (tw' & H1' & ?). congruence.
Qed.

(** *** New requests *)

Lemma alloc_fresh P F t : tinv P F t → tws t !! next_tid t = None.
Proof.
  intros Hi. destruct (tws t !! next_tid t) as [tw|] eqn:E; [|done].
  apply (c_fresh _ _ _ _ (i_core _ _ _ Hi)) in E. lia.
Qed.

Lemma insert_core P F l1 l2 t tw :
  core P F (l1 ++ l2) t → tws t !! next_tid t = None → tw_ok P F tw → 0 ≤ cp_LSN (point tw) →
  (0 < cp_LSN (maxAcknowledged t) → cp_LSN (maxAcknowledged t) < cp_LSN (point tw)) →
  let '(r, t1) := alloc tw t in
  Forall (λ x, lsn x < lsn r) l1 → Forall (λ x, lsn r < lsn x) l2 →
  core P F (l1 ++ r :: l2) t1.
Proof.
  intros [Hr Hnd Hs Ha Hm Hf Ht Hl Hrd Htm Hwr] Hfr Hok H0 Hab. unfold alloc.
  set (r := mkRef (next_tid t) (point tw) (size tw)). set (t1 := mkT _ _ _ _ _ _ _ _ _ _ _ _ _ _).
  intros Hl1 Hl2.
  assert (∀ x, valid_ref t x → valid_ref t1 x) as Hv.
  { intros x (tw0 & E & ?). exists tw0. simpl. rewrite lookup_insert_ne; [done|]. congruence. }
  assert (valid_ref t1 r) as Hvr by (exists tw; simpl; by rewrite lookup_insert_eq).
  assert (next_tid t ∉ (tid <$> (l1 ++ l2))) as Hnin.
  { intros (x & Hx & Hin)%list_elem_of_fmap. rewrite Forall_forall in Hr.
    destruct (Hr x Hin) as (tw0 & E & _). congruence. }
  assert (r :: l1 ++ l2 ≡ₚ l1 ++ r :: l2) as Hperm by apply Permutation_middle.
  split; simpl; try done.
  - rewrite <- Hperm. constructor; [done|]. eapply Forall_impl; [exact Hr|exact Hv].
  - rewrite <- Hperm. by constructor.
  - apply StronglySorted_app in Hs as (H1 & H2 & H3). apply StronglySorted_app.
    rewrite Forall_forall in Hl1. split_and!; [|done|by constructor].
    intros x y Hx [->|Hy]%elem_of_cons; [by apply Hl1|by apply H1].
  - intros x. rewrite <- Hperm, elem_of_cons. intros [->|Hx]; [|by apply Ha]. done.
  - intros id tw0 [[<- _]|[_ H]]%lookup_insert_Some; [lia|]. apply Hf in H. lia.
  - intros id tw0 [[_ <-]|[_ H]]%lookup_insert_Some; [done|by eapply Ht].
  - intros id tw0 Hid. rewrite <- Hperm. simpl. rewrite not_elem_of_cons. intros [Hne Hn].
    rewrite lookup_insert_ne in Hid by done. by apply (Hl id).
  - eapply Forall_impl; [exact Hrd|]. simpl. intros e. apply Hv.
  - eapply Forall_impl; [exact Htm|]. simpl. intros e. apply Hv.
Qed.

(** Putting a new request into the store and the tracking queue. *)
Lemma insert_tracked P F t tw :
  tinv P F t → stopping t = false → tw_ok P F tw → 0 ≤ cp_LSN (point tw) →
  isAckedLSN (cp_LSN (point tw)) t = false →
  findTrackedWrite (cp_LSN (point tw)) t = None →
  let '(r, t1) := alloc tw t in
  tinv P F (pushTrackedWrite r t1) ∧ tracked (pushTrackedWrite r t1) ≡ₚ r :: tracked t ∧
  tws (pushTrackedWrite r t1) = <[tid r := tw]> (tws t).
Proof.
  intros Hi Hst Hok H0 Hna Hnf. pose proof (alloc_fresh P F t Hi) as Hfr.
  pose proof (find_none_ref P F t _ Hi Hnf Hst) as Hne. pose proof Hi as [Hc Hw Hs1 Hs2].
  pose proof (c_sorted _ _ _ _ Hc) as Hs.
  set (l := Spec.items (q_abs (trackingQueue t))) in *.
  assert (StronglySorted (SortedQueue.key_le lsn) l) as Hsle.
  { eapply StronglySorted_mono; [|exact Hs]. unfold lsn_lt, SortedQueue.key_le. lia. }
  set (r := (alloc tw t).1).
  pose proof (SortedQueue.span_sorted lsn r l Hsle) as Hspan.
  pose proof (span_app (λ y, negb (SortedQueue.after lsn r y)) l) as Happ. rewrite Hspan in Happ. simpl in Happ.
  set (l1 := filter _ l) in *. set (l2 := filter _ l) in Happ, Hspan.
  assert (core P F (l1 ++ r :: l2) (alloc tw t).2) as Hcore.
  { rewrite <- Happ in Hc.
    eapply (insert_core P F l1 l2 t tw Hc Hfr Hok H0).
    - intros Hpos. unfold isAckedLSN in Hna. rewrite bool_decide_true in Hna by done. simpl in Hna.
      apply bool_decide_eq_false in Hna. lia.
    - apply Forall_forall. intros x [Hx1 Hx2]%list_elem_of_filter. specialize (Hne x Hx2).
      unfold lsn, r in *. simpl in *. lia.
    - apply Forall_forall. intros x [Hx1 Hx2]%list_elem_of_filter. done. }
  destruct (pushBefore_ok r (SortedQueue.after lsn r) (trackingQueue t) Hw) as [Hw' Heq].
  { exact (SortedQueue.sorted_upward lsn r l Hsle). }
  unfold Spec.q_pushBefore in Heq. fold l in Heq. rewrite Hspan in Heq. injection Heq as Habs _.
  change (alloc tw t) with (r, (alloc tw t).2). cbv beta iota.
  change (pushTrackedWrite r (alloc tw t).2) with
    (with_tracking (op_pushBefore r (SortedQueue.after lsn r) (trackingQueue t)).1 (alloc tw t).2).
  set (q' := (op_pushBefore r (SortedQueue.after lsn r) (trackingQueue t)).1) in *.
  clearbody q'. unfold tracked. split_and!; [|simpl; rewrite Habs|done].
  - split; [|done|simpl; by rewrite Habs|done].
    change (trackingQueue (with_tracking q' _)) with q'. rewrite Habs. by apply core_with_tracking.
  - simpl. rewrite <- Permutation_middle. fold l. by rewrite Happ.
Qed.

(** *** The ready queue *)

Lemma queue_write_tinv P F r w t : tinv P F t → tinv P F (queue_write r w t).2.
Proof.
  intros Hi. unfold queue_write. destruct (tws t !! tid r) as [tw|] eqn:Htw; [|done].
  pose proof (c_tw _ _ _ _ (i_core _ _ _ Hi) _ _ Htw) as Hok.
  pose proof (queueWrite_ok P F w tw Hok) as H. destruct (queueWrite w tw) as [b tw']. simpl.
  destruct H as (Hok' & Hsb & Hp & _). eapply set_tw_tinv; eauto. by rewrite Hp.
Qed.

Lemma queue_write_valid r w t r' : valid_ref t r' → valid_ref (queue_write r w t).2 r'.
Proof.
  unfold queue_write. destruct (tws t !! tid r) as [tw|] eqn:Htw; [|done].
  destruct (queueWrite w tw) as [b tw'] eqn:E. simpl. apply (valid_ref_insert t _ tw); [done|].
  unfold queueWrite in E. destruct w as [w|]; [|by simplify_eq].
  by destruct (released tw || _); simplify_eq.
Qed.

Lemma push_ready_tinv P F r w t :
  tinv P F t → valid_ref t r → tinv P F (push_ready r w t).
Proof.
  intros [Hc Hw H1 H2] Hv. unfold push_ready.
  destruct (push_ok (mkReady r w) (readyQueue t) (c_wfr _ _ _ _ Hc)) as [Hw' Heq].
  injection Heq as Habs _. split; simpl; try done; [|by rewrite Habs].
  destruct Hc. split; simpl; try done. rewrite Habs. simpl. apply Forall_app.
  split; [done|]. by constructor.
Qed.

Lemma enqueue_tinv P F r w t :
  tinv P F t → valid_ref t r → tinv P F (enqueueReadyWrite r w t).
Proof.
  intros Hi Hv. unfold enqueueReadyWrite.
  pose proof (queue_write_tinv P F r (Some w) t Hi) as Hi'.
  pose proof (queue_write_valid r (Some w) t r Hv) as Hv'.
  destruct (queue_write r (Some w) t) as [b t']. destruct b; [by apply push_ready_tinv|done].
Qed.

(** *** [Add] and [AddEmpty] *)

Lemma Add_tinv P F w t : tinv P F t → 0 ≤ LSN w → tinv P F (Add w t).1.
Proof.
  intros Hi H0. unfold Add. destruct (stopping t) eqn:Hst; [done|]. simpl.
  destruct (isAckedLSN (LSN w) t) eqn:Hack; [done|].
  destruct (findTrackedWrite (LSN w) t) as [r|] eqn:Hf.
  - destruct (find_ref P F t _ r Hi Hf) as (Hin & _ & _ & tw & Htw & Hpt & Hsz & _). rewrite Htw.
    destruct (isAcknowledged tw); [done|]. destruct (negb (hasFailures tw)); [done|].
    destruct (fullWrite tw); [|done]. apply enqueue_tinv; [done|]. by exists tw.
  - pose proof (insert_tracked P F t (newTrackedWriteRequest w) Hi Hst (newTracked_ok P F w) H0 Hack Hf) as H.
    apply enqueue_tinv; [apply H|].
    exists (newTrackedWriteRequest w). simpl. by rewrite lookup_insert_eq.
Qed.

(** The request [AddEmpty] puts into the queue: acknowledged and released. *)
Definition emptyRequest (l x : Z) : trackedWriteRequest Tup :=
  (release (Tracked.ack [0] (clearQueued (newTrackedWriteRequest (mkWR [] l x None false)))).2).2.

Lemma empty_ok P F l x : P l 0 → tw_ok P F (emptyRequest l x).
Proof.
  intros HP. set (tw0 := newTrackedWriteRequest (Tup := Tup) (mkWR [] l x None false)).
  destruct (ack_release_ok P F [0] tw0 (newTracked_ok P F _)) as (H & _).
  - intros o Ho _. by apply list_elem_of_singleton in Ho as ->.
  - unfold ack_release in H. destruct (Tracked.ack [0] tw0) as [b tw] eqn:E.
    unfold Tracked.ack in E. simpl in E. injection E as <- <-.
    replace (isAcknowledged _) with true in H; [exact H|].
    symmetry. apply bool_decide_eq_true. simpl. unfold offsets_of. simpl. set_solver.
Qed.

Lemma empty_insert l x t :
  (let '(r, t) := alloc (newTrackedWriteRequest (mkWR [] l x None false)) t in
   match tws t !! tid r with
   | None => t
   | Some tw =>
       let tw := clearQueued tw in
       let '(_, tw) := Tracked.ack [0] tw in
       pushTrackedWrite r (release_tw r tw t)
   end) =
  pushTrackedWrite (alloc (emptyRequest l x) t).1 (alloc (emptyRequest l x) t).2.
Proof.
  unfold alloc at 1. simpl. rewrite lookup_insert_eq.
  unfold release_tw, alloc, writeQueueDec, set_tw, with_tws, with_writeGauge. simpl.
  by rewrite insert_insert_eq, Z.sub_0_r.
Qed.

Lemma AddEmpty_tinv P F lsn0 xid t :
  tinv P F t → 0 ≤ lsn0 → P lsn0 0 → tinv P F (AddEmpty lsn0 xid t).
Proof.
  intros Hi H0 HP. unfold AddEmpty. destruct (stopping t) eqn:Hst; [done|].
  destruct (isAckedLSN lsn0 t) eqn:Hack; [done|].
  destruct (findTrackedWrite lsn0 t) as [r|] eqn:Hf.
  - destruct (find_ref P F t _ r Hi Hf) as (_ & Hl & _ & tw & Htw & Hpt & _). rewrite Htw.
    apply (ack_ref_tinv P F t r [0] tw Hi Htw). intros o Ho _.
    apply list_elem_of_singleton in Ho as ->. unfold lsn in Hl. by rewrite Hpt, Hl.
  - destruct (insert_tracked P F t (emptyRequest lsn0 xid) Hi Hst (empty_ok P F lsn0 xid HP) H0 Hack Hf)
      as (H & _). exact (eq_ind_r (tinv P F) H (empty_insert lsn0 xid t)).
Qed.

(** *** Errors *)

Lemma buildRetryEntry_ref now backoff r tw entry fe (e : retryEntry Tup) :
  buildRetryEntry now backoff r tw entry fe = Some e → e_tw e = r.
Proof. unfold buildRetryEntry. intros (w & _ & [= <-])%bind_Some. done. Qed.

(** The offsets an ack map holds. *)
Definition in_map (m : gmap CommitPoint (list Z)) (l o : Z) : Prop :=
  ∃ cp os, m !! cp = Some os ∧ cp_LSN cp = l ∧ o ∈ os.

Lemma in_addToAckMap cp o m l o' :
  in_map (addToAckMap cp o m) l o' ↔ in_map m l o' ∨ (cp_LSN cp = l ∧ o' = o).
Proof.
  unfold in_map, addToAckMap. split.
  - intros (cp' & os & [[<- <-]|[Hne H]]%lookup_insert_Some & Hl & Ho); [|naive_solver].
    apply elem_of_app in Ho as [Ho|Ho%list_elem_of_singleton]; [left|right; naive_solver].
    destruct (m !! cp) eqn:E; simpl in *; [eauto|by apply not_elem_of_nil in Ho].
  - intros [(cp' & os & H & Hl & Ho)|[Hl ->]].
    + destruct (decide (cp = cp')) as [<-|Hne].
      * exists cp, (os ++ [o]). rewrite lookup_insert_eq, H. simpl. split_and!; [done|done|set_solver].
      * exists cp', os. by rewrite lookup_insert_ne.
    + eexists cp, _. rewrite lookup_insert_eq. split_and!; [done|done|set_solver].
Qed.

(** What counting failures leaves alone. *)
Definition view (tw : trackedWriteRequest Tup) :=
  (point tw, size tw, pending tw, queued tw, released tw).
Definition frame t t' : Prop :=
  t' = with_tws (tws t') t ∧ view <$> tws t' = view <$> tws t.

Lemma frame_refl t : frame t t.
Proof. split; [by destruct t|done]. Qed.

Lemma frame_trans t1 t2 t3 : frame t1 t2 → frame t2 t3 → frame t1 t3.
Proof. intros [E1 V1] [E2 V2]. split; [|congruence]. rewrite E2, E1. simpl. by destruct t1. Qed.

Lemma frame_set_tw r tw tw' t :
  tws t !! tid r = Some tw → view tw' = view tw → frame t (set_tw r tw' t).
Proof.
  intros Htw Hv. split; [done|]. simpl. rewrite fmap_insert, Hv. apply insert_id.
  by rewrite lookup_fmap, Htw.
Qed.

Lemma frame_valid t t' r : frame t t' → valid_ref t r → valid_ref t' r.
Proof.
  intros [_ Hv] (tw & Htw & H1 & H2). apply (f_equal (λ m, m !! tid r)) in Hv.
  rewrite !lookup_fmap, Htw in Hv. simpl in Hv. apply fmap_Some in Hv as (tw' & Htw' & E).
  exists tw'. injection E as E1 E2 _ _ _. split_and!; congruence.
Qed.

(** The errors reported for one offset. *)
Definition err_at (l o : Z) (e : ErrorResponseEntry) : Prop :=
  re_LSN (ere_Entry e) = l ∧ re_Offset (ere_Entry e) = o.
#[global] Instance err_at_dec l o e : Decision (err_at l o e).
Proof. unfold err_at. apply _. Defined.
Definition errors (es : list ErrorResponseEntry) (l o : Z) : Z :=
  Z.of_nat (length (filter (err_at l o) es)).

Lemma errors_cons e es l o :
  errors (e :: es) l o = (if decide (err_at l o e) then 1 else 0) + errors es l o.
Proof. unfold errors. rewrite filter_cons. case_decide; simpl; lia. Qed.

(** Why an offset of an error response is given up. *)
Definition given_up (cfg : RetryConfig) (es : list ErrorResponseEntry) (F : Z → Z → Z) (l o : Z) : Prop :=
  ∃ e, e ∈ es ∧ err_at l o e ∧
       (IsRetryable (Reason e) = false ∨ MaxRetries cfg ≤ F l o + errors es l o).

Lemma given_up_mono cfg es es' F F' l o :
  (∀ e, e ∈ es → e ∈ es') → F l o + errors es l o ≤ F' l o + errors es' l o →
  given_up cfg es F l o → given_up cfg es' F' l o.
Proof. intros Hin HF (e & He & Ha & [Hr|Hr]); exists e; (split_and!; [auto|done|]); [by left|right; lia]. Qed.

(** What processing [es] from the tracker [t] and the acknowledgements [m] gives. *)
Definition process_post P F es m t (r : tracker * processed (Tup := Tup)) : Prop :=
  tinv P (λ l o, F l o + errors es l o) r.1 ∧ frame t r.1 ∧
  match r.2 with
  | PDone m' rs' =>
      Forall (λ e, valid_ref r.1 (e_tw e)) rs' ∧
      ∀ l o, in_map m' l o → in_map m l o ∨ given_up (retryConfig t) es F l o
  | _ => True
  end.

(** The failures counted with the first entry. *)
Definition count_first (e : ErrorResponseEntry) (F : Z → Z → Z) (l o : Z) : Z :=
  F l o + (if decide (err_at l o e) then 1 else 0).

Lemma count_first_le e F l o : F l o ≤ count_first e F l o.
Proof. unfold count_first. case_decide; lia. Qed.

Lemma process_post_cons P F e es m m1 t t1 r :
  (∀ l o, in_map m1 l o → in_map m l o ∨ given_up (retryConfig t) (e :: es) F l o) →
  frame t t1 → process_post P (count_first e F) es m1 t1 r → process_post P F (e :: es) m t r.
Proof.
  intros Hm1 Hfr (Hi' & Hfr' & Hout).
  assert (∀ l o, count_first e F l o + errors es l o = F l o + errors (e :: es) l o) as E.
  { intros l o. rewrite errors_cons. unfold count_first. lia. }
  split_and!; [|by eapply frame_trans|].
  - eapply tinv_mono; [done| |exact Hi']. intros l o. simpl. by rewrite E.
  - destruct r.2 as [m' rs'| |]; try done. destruct Hout as [Hrs' Hm']. split; [done|].
    assert (retryConfig t1 = retryConfig t) as Ec by (by destruct Hfr as [-> _]).
    intros l o [H|H]%Hm'; [by apply Hm1|]. right. rewrite <- Ec.
    eapply given_up_mono; [| |exact H]; [set_solver|by rewrite E].
Qed.

(** Stopping early: all the errors are counted, nothing is returned. *)
Lemma process_post_end P F e es m t t1 out :
  tinv P (count_first e F) t1 → frame t t1 → (∀ m rs, out ≠ PDone m rs) →
  process_post P F (e :: es) m t (t1, out).
Proof.
  intros Hi Hfr Ho. split_and!; [|done|by destruct out; [destruct (Ho m0 rs)| |]].
  eapply tinv_mono; [done| |exact Hi]. intros l o. simpl. rewrite errors_cons.
  unfold count_first, errors. lia.
Qed.

(** Counting the failure of one entry. *)
Lemma count_failure P F e r now t tw :
  tinv P F t → (∀ l o, 0 ≤ F l o) → findTrackedWrite (re_LSN (ere_Entry e)) t = Some r →
  tws t !! tid r = Some tw → isAcknowledged tw = false →
  let '(fe, tw') := getFailedEntry (re_Offset (ere_Entry e)) (Reason e) now tw in
  tinv P (count_first e F) (set_tw r tw' t) ∧ frame t (set_tw r tw' t) ∧
  retries fe ≤ count_first e F (re_LSN (ere_Entry e)) (re_Offset (ere_Entry e)) ∧
  valid_ref (set_tw r tw' t) r.
Proof.
  intros Hi HF Hf Htw Hack. apply bool_decide_eq_false in Hack.
  destruct (find_ref P F t _ r Hi Hf) as (_ & Hl & _ & tw0 & Htw0 & Hpt & Hsz & Hok).
  rewrite Htw in Htw0. injection Htw0 as <-.
  assert (cp_LSN (point tw) = re_LSN (ere_Entry e)) as Elsn by (unfold lsn in Hl; congruence).
  pose proof (getFailedEntry_ok P F (count_first e F) (re_Offset (ere_Entry e)) (Reason e) now tw Hok Hack
    (count_first_le e F)) as Hg.
  destruct (getFailedEntry _ _ _ _) as [fe tw'].
  destruct Hg as (Hok' & Hsb & Hp' & Hrel & Hq & Hfe).
  { rewrite Elsn. unfold count_first. rewrite decide_True by done. lia. } { apply HF. }
  assert (frame t (set_tw r tw' t)) as Hfr.
  { eapply frame_set_tw; [done|]. unfold view. destruct Hsb as (-> & -> & _). by rewrite Hp', Hq, Hrel. }
  split_and!; [|done|by rewrite <- Elsn|].
  - apply (set_tw_tinv _ _ _ _ tw); [|done|done|done|by rewrite Hp'].
    eapply tinv_mono; [done|apply count_first_le|exact Hi].
  - eapply frame_valid; [exact Hfr|]. by exists tw.
Qed.

Lemma process_entries_inv P now backoff es F m rs t :
  tinv P F t → (∀ l o, 0 ≤ F l o) → Forall (λ e, valid_ref t (e_tw e)) rs →
  process_post P F es m t (process_entries now backoff es m rs t).
Proof.
  revert F m rs t. induction es as [|e es IH]; intros F m rs t Hi HF Hrs; cbn [process_entries].
  { split; [|split; [apply frame_refl|split; [done|auto]]].
    eapply tinv_mono; [done| |exact Hi]. intros l o. unfold errors. simpl. lia. }
  assert (∀ l o, 0 ≤ count_first e F l o) as HF1.
  { intros l o. specialize (HF l o). pose proof (count_first_le e F l o). lia. }
  assert (tinv P (count_first e F) t) as Hi1 by (eapply tinv_mono; [done|apply count_first_le|exact Hi]).
  assert (process_post P F (e :: es) m t (process_entries now backoff es m rs t)) as Hsame.
  { eapply process_post_cons; [|apply frame_refl|by apply IH]. auto. }
  cbv zeta. destruct (findTrackedWrite (re_LSN (ere_Entry e)) t) as [r|] eqn:Hf.
  2: { destruct (negb _); [|done]. apply process_post_end; [done|apply frame_refl|done]. }
  destruct (tws t !! tid r) as [tw|] eqn:Htw.
  2: { apply process_post_end; [done|apply frame_refl|done]. }
  destruct (isAcknowledged tw) eqn:Hack; [done|].
  pose proof (count_failure P F e r now t tw Hi HF Hf Htw Hack) as Hg.
  destruct (getFailedEntry _ _ now tw) as [fe tw']. destruct Hg as (Hi2 & Hfr2 & Hfe & Hv).
  assert (Forall (λ e, valid_ref (set_tw r tw' t) (e_tw e)) rs) as Hrs2.
  { eapply Forall_impl; [exact Hrs|]. intros x. by apply frame_valid. }
  destruct (downstreamDown (retryConfig (set_tw r tw' t)) fe (Reason e)); [by apply process_post_end|].
  destruct (skipEntry (retryConfig (set_tw r tw' t)) fe (Reason e)) eqn:Hskip.
  - eapply process_post_cons; [|exact Hfr2|by apply IH].
    intros l o [H|[<- ->]]%in_addToAckMap; [by left|right]. simpl.
    exists e. split_and!; [set_solver|done|]. unfold skipEntry in Hskip.
    apply orb_true_iff in Hskip as [Hs%bool_decide_eq_true|Hs%negb_true_iff]; [right|by left].
    simpl in Hs. rewrite errors_cons. unfold count_first in Hfe. unfold errors. lia.
  - destruct (bool_decide _); [|eapply process_post_cons; [|exact Hfr2|by apply IH]; auto].
    destruct (buildRetryEntry now backoff r tw' e fe) as [x|] eqn:Hb;
      (eapply process_post_cons; [|exact Hfr2|apply IH]; auto).
    apply Forall_app. split; [done|]. constructor; [|constructor].
    by rewrite (buildRetryEntry_ref _ _ _ _ _ _ _ Hb).
Qed.

(** *** Retries, the consumer and the end *)

Lemma scheduleRetry_tinv P F SetTimer now e t :
  tinv P F t → valid_ref t (e_tw e) → tinv P F (scheduleRetry SetTimer now e t).
Proof.
  intros Hi Hv. unfold scheduleRetry. destruct (stopping t) eqn:Hst; [done|]. destruct Hi as [[] ? H1 H2].
  destruct (SetTimer _ _ _); (split; [split; simpl; try done|done..]).
  apply Forall_app. split; [done|]. by constructor.
Qed.

Lemma Stop_tinv P F t : tinv P F t → tinv P F (Stop t).
Proof.
  intros Hi. unfold Stop. destruct (stopping t) eqn:Hst; [done|]. destruct Hi as [[] Hw H1 H2].
  destruct (stop_ok (trackingQueue t) Hw) as [Hw' E]. destruct (stop_ok (readyQueue t) c_wfr0) as [Hw2 E2].
  split; simpl; rewrite ?E, ?E2; try done. split; simpl; rewrite ?E2; try done.
Qed.

(** Taking the oldest entry of the ready queue. *)
Lemma pop_ready P F t q p :
  tinv P F t → op_pop (readyQueue t) = (q, p) →
  tinv P F (with_ready q t) ∧
  match p with
  | Spec.PopItem e => Spec.items (q_abs (readyQueue t)) = e :: Spec.items (q_abs q) ∧ stopping t = false
  | Spec.PopBlocked => Spec.items (q_abs (readyQueue t)) = [] ∧ Spec.items (q_abs q) = [] ∧ stopping t = false
  | Spec.PopStopped => Spec.items (q_abs q) = Spec.items (q_abs (readyQueue t)) ∧ stopping t = true
  end.
Proof.
  intros Hi Hp. pose proof (pop_ok (readyQueue t) (c_wfr _ _ _ _ (i_core _ _ _ Hi))) as [Hw Heq].
  rewrite Hp in Hw, Heq. simpl in Hw, Heq. pose proof (i_stopr _ _ _ Hi) as Hst.
  pose proof (Monitor.pop_cases ready_size (q_abs (readyQueue t))) as Hcases.
  rewrite <- Heq in Hcases. simpl in Hcases.
  assert (Spec.items (q_abs q) ⊆ Spec.items (q_abs (readyQueue t)) ∧
          Spec.qstopped (q_abs q) = Spec.qstopped (q_abs (readyQueue t))) as [Hsub Hsame].
  { destruct Hcases as [(_ & ? & ->)|[(_ & ? & ? & ->)|(x & _ & ? & -> & ->)]]; [done|done|].
    split; [set_solver|done]. }
  split.
  - destruct Hi as [[] ? ? ?]. split; simpl; try done; [|congruence]. split; simpl; try done.
    apply Forall_forall. intros x Hx. rewrite Forall_forall in c_ready0. by apply c_ready0, Hsub.
  - destruct Hcases as [(-> & ? & ->)|[(-> & ? & Hit & ->)|(x & -> & ? & -> & ?)]];
      split_and!; try done; congruence.
Qed.

Lemma PopReady_tinv P F fuel t : tinv P F t → tinv P F (PopReady fuel t).1.
Proof.
  revert t. induction fuel as [|fuel IH]; intros t Hi; cbn [PopReady];
    (destruct (op_pop (readyQueue t)) as [q p] eqn:Hp;
     destruct (pop_ready P F t q p Hi Hp) as [Hi' _]; destruct p as [| |e]; [done|done|];
     cbv zeta; destruct (tws (with_ready q t) !! tid (r_tw e)) as [tw|] eqn:Htw; [|done];
     pose proof (popQueuedWrite_ok P F tw (c_tw _ _ _ _ (i_core _ _ _ Hi') _ _ Htw)) as H;
     destruct (popQueuedWrite tw) as [[w|] tw']; [|by (done || apply IH)];
     destruct H as (Hok & Hsb & Hpe & _); apply (set_tw_tinv P F _ _ tw); try done; by rewrite Hpe).
Qed.
End inv.
End TInv.
