(* ===== verification/LSNSystem.v ===== *)
(** * The LSN tracker under concurrent callers

    The tracker's callers are the replication goroutine ([Add], [AddEmpty],
    [MaxAcknowledged]), the writer's responses ([OnSuccess], [OnError]), the
    retry timers and the consumer of the ready queue (the write pipeline of
    src/pg2buffer/buffered_listener.go).  A step of the system is one critical
    section of the code; [OnError] takes three kinds of steps (it releases the
    lock between processing the response, acknowledging the skipped entries
    and scheduling each retry), and a retry timer takes two (queueing the write
    and pushing the ready entry).

    The theorems are about every sequence of steps: which writes may be
    acknowledged to PostgreSQL, that every queued write reaches the consumer,
    and that the gauges count what they say. *)

From stdpp Require Import base numbers list gmap strings sorting.
From S2P Require Import Prelude WriteQueue PgSchema CircuitBreaker PgWal LSNTracker.
Import Tracked Tracker TInv.

(** ** Accounting of queued writes *)

Section acct.
Context {Tup : Type}.
Notation store := (gmap nat (trackedWriteRequest Tup)).
Notation ready := (list (readyWriteEntry Tup)).
Implicit Types (m : store) (R : ready).

Definition nqueued (tw : trackedWriteRequest Tup) : Z := Z.of_nat (length (queued tw)).
Definition total_queued m : Z := sum_Z (λ p, nqueued p.2) (map_to_list m).

(** How many ready entries refer to a request. *)
Definition refers (id : nat) (e : readyWriteEntry Tup) : Prop := tid (r_tw e) = id.
#[global] Instance refers_dec id e : Decision (refers id e).
Proof. unfold refers. apply _. Defined.
Definition nready (id : nat) R : nat := length (filter (refers id) R).

(** Every queued write of a request that is not released has its own ready
    entry (in the queue or about to be pushed), and the gauge counts the queued
    writes, less those about to be pushed, plus those the consumer has taken
    but not yet counted down. *)
Record acct (k : Z) (X : ready) m R (g : Z) : Prop := mk_acct {
  a_ready id tw : m !! id = Some tw → released tw = false →
    nready id (R ++ X) = length (queued tw);
  a_gauge : g = total_queued m - Z.of_nat (length X) + k;
}.

Lemma total_insert_new m id tw :
  m !! id = None → total_queued (<[id := tw]> m) = nqueued tw + total_queued m.
Proof. intros H. unfold total_queued. rewrite map_to_list_insert by done. by rewrite sum_Z_cons. Qed.

Lemma total_delete m id tw :
  m !! id = Some tw → total_queued m = nqueued tw + total_queued (delete id m).
Proof.
  intros H. rewrite <- (insert_delete_id m id tw H) at 1. apply total_insert_new.
  apply lookup_delete_eq.
Qed.

Lemma total_insert m id tw tw' :
  m !! id = Some tw →
  total_queued (<[id := tw']> m) = total_queued m - nqueued tw + nqueued tw'.
Proof.
  intros H. rewrite (total_delete m id tw H), <- insert_delete_eq.
  rewrite total_insert_new by apply lookup_delete_eq. lia.
Qed.

Lemma total_view m m' :
  TInv.view <$> m' = TInv.view <$> m → total_queued m' = total_queued m.
Proof.
  intros Hv.
  assert (∀ m0 : store, total_queued m0
            = sum_Z (λ p, Z.of_nat (length p.2.1.2)) (map_to_list (TInv.view <$> m0))) as E.
  { intros m0. unfold total_queued. rewrite map_to_list_fmap. generalize (map_to_list m0).
    induction l as [|[k tw] l IH]; [done|]. rewrite fmap_cons, !sum_Z_cons, IH. done. }
  by rewrite !E, Hv.
Qed.

Lemma view_lookup m m' id tw' :
  TInv.view <$> m' = TInv.view <$> m → m' !! id = Some tw' →
  ∃ tw, m !! id = Some tw ∧ TInv.view tw' = TInv.view tw.
Proof.
  intros Hv Hid. apply (f_equal (λ x, x !! id)) in Hv. rewrite !lookup_fmap, Hid in Hv. simpl in Hv.
  symmetry in Hv. apply fmap_Some in Hv as (tw & ? & ?). eauto.
Qed.

Lemma acct_view k X m m' R g :
  TInv.view <$> m' = TInv.view <$> m → acct k X m R g → acct k X m' R g.
Proof.
  intros Hv [Hr Hg]. split; [|by rewrite (total_view m m' Hv)].
  intros id tw' Hid Hrel. destruct (view_lookup m m' id tw' Hv Hid) as (tw & Htw & E).
  injection E as _ _ _ Eq Er. rewrite Eq. apply Hr; [done|congruence].
Qed.

(** A request changes without its queued writes, or is released and drops them. *)
Lemma acct_set k X m R g id tw tw' d :
  acct k X m R g → m !! id = Some tw →
  (released tw' = false → released tw = false ∧ queued tw' = queued tw) →
  d = nqueued tw - nqueued tw' →
  acct k X (<[id := tw']> m) R (g - d).
Proof.
  intros [Hr Hg] Hid Hq Hd. split.
  - intros id' tw0 [[<- <-]|[Hne H]]%lookup_insert_Some Hrel; [|by apply Hr].
    destruct (Hq Hrel) as [Hrel' ->]. by apply Hr.
  - rewrite (total_insert m id tw tw' Hid). lia.
Qed.

(** A new request has nothing queued, and nothing refers to it. *)
Lemma acct_new k X m R g id tw :
  acct k X m R g → m !! id = None → queued tw = [] →
  (∀ e, e ∈ R ++ X → is_Some (m !! tid (r_tw e))) →
  acct k X (<[id := tw]> m) R g.
Proof.
  intros [Hr Hg] Hid Hq Href. split.
  - intros id' tw0 [[<- <-]|[Hne H]]%lookup_insert_Some Hrel; [|by apply Hr].
    rewrite Hq. simpl. unfold nready. rewrite filter_none; [done|].
    apply Forall_forall. intros e [? He]%Href <-. congruence.
  - rewrite total_insert_new by done. unfold nqueued. rewrite Hq. simpl. lia.
Qed.

(** [queueWrite] succeeds: one more queued write, one ready entry to push. *)
Lemma acct_queue k X m R g r tw tw' w :
  acct k X m R g → m !! tid r = Some tw → released tw = false → released tw' = false →
  queued tw' = queued tw ++ [w] →
  acct k (X ++ [mkReady r w]) (<[tid r := tw']> m) R g.
Proof.
  intros [Hr Hg] Hid Hrel Hrel' Hq. split.
  - intros id tw0. rewrite (assoc_L (++)). unfold nready. rewrite filter_app, length_app.
    intros [[<- <-]|[Hne H]]%lookup_insert_Some Hr0.
    + rewrite filter_cons_True by done. simpl. rewrite Hq, length_app. simpl.
      pose proof (Hr _ _ Hid Hrel) as E. unfold nready in E. lia.
    + rewrite filter_cons_False by done. simpl. rewrite Nat.add_0_r. by apply Hr.
  - rewrite (total_insert m _ tw tw' Hid), length_app. unfold nqueued. rewrite Hq, length_app. simpl. lia.
Qed.

(** The push of a ready entry. *)
Lemma acct_push k X X' m R g e :
  acct k X m R g → X ≡ₚ e :: X' → acct k X' m (R ++ [e]) (g + 1).
Proof.
  intros [Hr Hg] HX. split.
  - intros id tw H1 H2. rewrite <- (Hr id tw H1 H2). unfold nready.
    rewrite <- (assoc_L (++)). simpl. by rewrite HX.
  - rewrite Hg, HX. simpl. lia.
Qed.

(** The consumer takes a ready entry together with a queued write. *)
Lemma acct_pop k X m R g e tw tw' w :
  acct k X m (e :: R) g → m !! tid (r_tw e) = Some tw → released tw = false → released tw' = false →
  queued tw = w :: queued tw' →
  acct (k + 1) X (<[tid (r_tw e) := tw']> m) R g.
Proof.
  intros [Hr Hg] Hid Hrel Hrel' Hq. split.
  - intros id tw0. intros [[<- <-]|[Hne H]]%lookup_insert_Some Hr0.
    + pose proof (Hr _ _ Hid Hrel) as E. unfold nready in E. simpl in E.
      rewrite filter_cons_True in E by done. rewrite Hq in E. simpl in E. unfold nready. lia.
    + pose proof (Hr _ _ H Hr0) as E. unfold nready in E. simpl in E.
      by rewrite filter_cons_False in E by done.
  - rewrite (total_insert m _ tw tw' Hid). unfold nqueued in *. rewrite Hq. simpl. lia.
Qed.

(** A ready entry of a released request is skipped. *)
Lemma acct_skip k X m R g e tw :
  acct k X m (e :: R) g → m !! tid (r_tw e) = Some tw → queued tw = [] →
  released tw = true ∧ acct k X m R g.
Proof.
  intros [Hr Hg] Hid Hq.
  assert (released tw = true) as Hrel.
  { destruct (released tw) eqn:E; [done|]. pose proof (Hr _ _ Hid E) as H. unfold nready in H. simpl in H.
    rewrite filter_cons_True in H by done. rewrite Hq in H. done. }
  split; [done|]. split; [|done]. intros id tw0 H1 H2. rewrite <- (Hr id tw0 H1 H2). unfold nready. simpl.
  rewrite filter_cons_False; [done|]. intros <-. congruence.
Qed.
End acct.

(** ** The system *)

Module System.
Section system.
Context {Tup : Type}.
Context {QT : QueueImpl tref t_size} {QR : QueueImpl (readyWriteEntry Tup) ready_size}.
Notation WriteRequest := (PgWal.WriteRequest Tup).
Notation tracker := (Tracker.tracker Tup).
Notation ackMap := (gmap CommitPoint (list Z)).
Context (enum : ackMap → list (CommitPoint * list Z)).
Context (SetTimer : Z → Z → bool → bool).

(** The tracker, the unfinished [OnError] calls and timers, and how many writes
    the consumer took without having counted them down. *)
Record sys := mkSys {
  trk : tracker;
  ackJobs : list (ackMap * list (retryEntry Tup));
  schedJobs : list (retryEntry Tup);
  pushing : list (readyWriteEntry Tup);
  taken : Z;
}.

Definition init (cfg : RetryConfig) : sys := mkSys (NewLSNTracker cfg) [] [] [] 0.

Inductive event :=
| EAdd (w : WriteRequest)
| EAddEmpty (lsn xid : Z)
| ESuccess (resp : Response)
| EError (now : Z) (backoff : Z → Z) (resp : ErrResponse)
| EAcks (i : nat)
| ESchedule (now : Z) (i : nat)
| ETimer (i : nat)
| EPush (i : nat)
| EPop
| EDec
| EMax
| EStop.

Definition with_trk t (s : sys) : sys := mkSys t (ackJobs s) (schedJobs s) (pushing s) (taken s).

(** One step; [None] is a step that is not possible, or the end of the process. *)
Definition step (e : event) (s : sys) : option sys :=
  let t := trk s in
  match e with
  | EAdd w => Some (with_trk (Add w t).1 s)
  | EAddEmpty l x => Some (with_trk (AddEmpty l x t) s)
  | ESuccess resp => Some (with_trk (OnSuccess enum resp t).1 s)
  | EError now backoff resp =>
      match er_Entries resp with
      | [] => Some s
      | _ =>
          match processErrorResponse now backoff resp t with
          | (_, PFatal) => None
          | (t, PShutdown err) => Some (with_trk (with_shutdown (shutdownCh t ++ [err]) t) s)
          | (t, PDone m rs) =>
              Some (mkSys t (ackJobs s ++ [(m, rs)]) (schedJobs s) (pushing s) (taken s))
          end
      end
  | EAcks i =>
      '(m, rs) ← ackJobs s !! i;
      Some (mkSys (ack_all (enum m) t) (delete i (ackJobs s)) (schedJobs s ++ rs) (pushing s) (taken s))
  | ESchedule now i =>
      e ← schedJobs s !! i;
      Some (mkSys (scheduleRetry SetTimer now e t) (ackJobs s) (delete i (schedJobs s)) (pushing s) (taken s))
  | ETimer i =>
      '(_, e) ← timers t !! i;
      let t := with_timers (delete i (timers t)) (retrySeq t) t in
      let t := with_retryGauge (retryGauge t - 1) t in
      if stopping t then Some (with_trk t s)
      else
        let '(b, t) := queue_write (e_tw e) (Some (e_write e)) t in
        Some (mkSys t (ackJobs s) (schedJobs s)
                    (pushing s ++ (if b then [mkReady (e_tw e) (e_write e)] else [])) (taken s))
  | EPush i =>
      e ← pushing s !! i;
      Some (mkSys (push_ready (r_tw e) (r_write e) t) (ackJobs s) (schedJobs s) (delete i (pushing s)) (taken s))
  | EPop =>
      let '(t, p) := PopReady (length (Spec.items (q_abs (readyQueue t)))) t in
      Some (mkSys t (ackJobs s) (schedJobs s) (pushing s)
                  (match p with Spec.PopItem _ => taken s + 1 | _ => taken s end))
  | EDec =>
      if bool_decide (0 < taken s)
      then Some (mkSys (with_writeGauge (writeGauge t - 1) t) (ackJobs s) (schedJobs s) (pushing s) (taken s - 1))
      else None
  | EMax => Some (with_trk (MaxAcknowledged t).1 s)
  | EStop => Some (with_trk (Stop t) s)
  end.

(** *** The history *)

(** How often the writer reported an error for an offset. *)
Definition fail_count (tr : list event) (l o : Z) : Z :=
  sum_Z (λ e, match e with EError _ _ resp => errors (er_Entries resp) l o | _ => 0 end) tr.

(** Why an offset may count as delivered: the writer confirmed it; or the write
    was reported as empty; or the writer failed on it with an error that is not
    retryable, or [MaxRetries] times. *)
Definition justified (cfg : RetryConfig) (tr : list event) (l o : Z) : Prop :=
  (∃ resp x, ESuccess resp ∈ tr ∧ x ∈ r_Entries resp ∧ re_LSN x = l ∧ re_Offset x = o) ∨
  (o = 0 ∧ ∃ xid, EAddEmpty l xid ∈ tr) ∨
  (∃ now backoff resp x, EError now backoff resp ∈ tr ∧ x ∈ er_Entries resp ∧ err_at l o x ∧
     (IsRetryable (Reason x) = false ∨ MaxRetries cfg ≤ fail_count tr l o)).

Lemma errors_nonneg es l o : 0 ≤ errors es l o.
Proof. unfold errors. lia. Qed.

Lemma fail_count_app tr e l o :
  fail_count (tr ++ [e]) l o = fail_count tr l o +
    match e with EError _ _ resp => errors (er_Entries resp) l o | _ => 0 end.
Proof. unfold fail_count. by rewrite sum_Z_app, sum_Z_singleton. Qed.

Lemma fail_count_nonneg tr l o : 0 ≤ fail_count tr l o.
Proof. apply sum_Z_nonneg. intros [] _; try done. apply errors_nonneg. Qed.

Lemma fail_count_mono tr e l o : fail_count tr l o ≤ fail_count (tr ++ [e]) l o.
Proof. rewrite fail_count_app. destruct e; try lia. pose proof (errors_nonneg (er_Entries resp) l o). lia. Qed.

Lemma justified_mono cfg tr e l o : justified cfg tr l o → justified cfg (tr ++ [e]) l o.
Proof.
  pose proof (fail_count_mono tr e l o).
  intros [(resp & x & H1 & H2)|[(-> & xid & H1)|(now & b & resp & x & H1 & H2 & H3 & H4)]].
  - left. exists resp, x. set_solver.
  - right; left. split; [done|]. exists xid. set_solver.
  - right; right. exists now, b, resp, x. split_and!; [set_solver|done|done|].
    destruct H4; [by left|right; lia].
Qed.

(** *** The invariant of the system *)

Record sinv (cfg : RetryConfig) (tr : list event) (s : sys) : Prop := mk_sinv {
  s_tinv : tinv (justified cfg tr) (fail_count tr) (trk s);
  s_cfg : retryConfig (trk s) = cfg;
  s_acks : Forall (λ j, (∀ l o, in_map j.1 l o → justified cfg tr l o) ∧
                        Forall (λ e, valid_ref (trk s) (e_tw e)) j.2) (ackJobs s);
  s_sched : Forall (λ e, valid_ref (trk s) (e_tw e)) (schedJobs s);
  s_push : Forall (λ e, valid_ref (trk s) (r_tw e)) (pushing s);
  s_acct : acct (taken s) (pushing s) (tws (trk s)) (Spec.items (q_abs (readyQueue (trk s)))) (writeGauge (trk s));
  s_timers : retryGauge (trk s) = Z.of_nat (length (timers (trk s)));
}.

(** An operation of the tracker that only touches requests and queues. *)
Record good cfg tr (s : sys) (t : tracker) : Prop := mk_good {
  g_tinv : tinv (justified cfg tr) (fail_count tr) t;
  g_cfg : retryConfig t = cfg;
  g_valid r : valid_ref (trk s) r → valid_ref t r;
  g_acct : acct (taken s) (pushing s) (tws t) (Spec.items (q_abs (readyQueue t))) (writeGauge t);
  g_timers : retryGauge t = Z.of_nat (length (timers t));
}.

Lemma sinv_good cfg tr s : sinv cfg tr s → good cfg tr s (trk s).
Proof. intros []. split; auto. Qed.

Lemma good_sinv cfg tr s t : sinv cfg tr s → good cfg tr s t → sinv cfg tr (with_trk t s).
Proof.
  intros [] [Hi Hc Hv Ha Ht]. split; simpl; try done.
  - eapply Forall_impl; [exact s_acks0|]. intros [m rs] [H1 H2]. split; [done|].
    eapply Forall_impl; [exact H2|]. intros e. apply Hv.
  - eapply Forall_impl; [exact s_sched0|]. intros e. apply Hv.
  - eapply Forall_impl; [exact s_push0|]. intros e. apply Hv.
Qed.

Lemma sinv_mono cfg tr e s : sinv cfg tr s → sinv cfg (tr ++ [e]) s.
Proof.
  intros []. split; try done.
  - eapply tinv_mono; [|apply fail_count_mono|done]. intros. by apply justified_mono.
  - eapply Forall_impl; [exact s_acks0|]. intros [m rs] [H1 H2]. split; [|done].
    intros. by apply justified_mono, H1.
Qed.

(** Acknowledging offsets of a tracked request. *)
Lemma good_ack_ref cfg tr s t r offsets tw :
  good cfg tr s t → tws t !! tid r = Some tw →
  (∀ o, o ∈ offsets → o ∈ pending tw → justified cfg tr (cp_LSN (point tw)) o) →
  good cfg tr s (ack_ref r offsets tw t).
Proof.
  intros [Hi Hc Hv Ha Ht] Htw HP.
  pose proof (ack_ref_tinv _ _ t r offsets tw Hi Htw HP) as Hi'.
  pose proof (c_tw _ _ _ _ (i_core _ _ _ Hi) _ _ Htw) as Hok.
  destruct (ack_release_ok _ _ offsets tw Hok HP) as (Hok' & Hsb & Hp).
  rewrite ack_ref_eq in *. split; try done.
  - intros r0 H. by apply (valid_ref_insert t (tid r) tw (ack_release offsets tw) r0), Hv.
  - simpl. eapply acct_set; [exact Ha|exact Htw| |].
    + unfold ack_release, Tracked.ack, release. simpl. destruct (isAcknowledged _); [|by split].
      destruct (released tw) eqn:E; simpl; [by rewrite E|done].
    + unfold ack_release, Tracked.ack, release, nqueued. simpl.
      destruct (isAcknowledged _); simpl; [|lia]. destruct (released tw) eqn:E; simpl; [|lia].
      destruct (ok_done _ _ tw Hok E) as (_ & -> & _). simpl. lia.
Qed.

Lemma good_ack_all cfg tr s t l :
  good cfg tr s t → (∀ cp os o, (cp, os) ∈ l → o ∈ os → justified cfg tr (cp_LSN cp) o) →
  good cfg tr s (ack_all l t).
Proof.
  unfold ack_all. revert t. induction l as [|[cp os] l IH]; intros t Hg HP; simpl; [done|].
  apply IH; [|intros cp' os' o Hin; apply HP; set_solver]. rewrite ack_point_eq.
  destruct (findTrackedWrite (cp_LSN cp) t) as [r|] eqn:Hf; [|done].
  destruct (find_ref _ _ t _ r (g_tinv _ _ _ _ Hg) Hf) as (_ & Hl & _ & tw & Htw & Hpt & _). rewrite Htw.
  apply good_ack_ref; try done. intros o Ho _. unfold lsn in Hl. rewrite Hpt, Hl.
  apply (HP cp os); [set_solver|done].
Qed.

Lemma good_advance cfg tr s t : good cfg tr s t → good cfg tr s (advanceMaxAcknowledged t).
Proof.
  intros [Hi Hc Hv Ha Ht].
  destruct (advance_spec _ _ t Hi) as (Hi' & _ & E1 & E2 & E3 & E4 & E5 & _ & E7 & _).
  split; rewrite ?E1, ?E2, ?E3, ?E4, ?E5, ?E7; try done.
  intros r Hr. apply Hv in Hr as (tw & H). exists tw. by rewrite E1.
Qed.

(** The ready queue and the unpushed entries refer to known requests. *)
Lemma good_refs cfg tr s t e :
  sinv cfg tr s → good cfg tr s t →
  e ∈ Spec.items (q_abs (readyQueue t)) ++ pushing s → is_Some (tws t !! tid (r_tw e)).
Proof.
  intros Hs [Hi Hc Hv Ha Ht] [He|He]%elem_of_app.
  - pose proof (c_ready _ _ _ _ (i_core _ _ _ Hi)) as Hr. rewrite Forall_forall in Hr.
    destruct (Hr e He) as (tw & H & _). by exists tw.
  - pose proof (s_push _ _ _ Hs) as Hr. rewrite Forall_forall in Hr.
    destruct (Hv _ (Hr e He)) as (tw & H & _). by exists tw.
Qed.

Lemma good_enqueue cfg tr s t r w :
  good cfg tr s t → valid_ref t r → good cfg tr s (enqueueReadyWrite r w t).
Proof.
  intros [Hi Hc Hv Ha Ht] Hr.
  pose proof (enqueue_tinv _ _ r w t Hi Hr) as Hi'. revert Hi'.
  unfold enqueueReadyWrite, queue_write. destruct Hr as (tw & Htw & _). rewrite Htw.
  pose proof (c_tw _ _ _ _ (i_core _ _ _ Hi) _ _ Htw) as Hok.
  pose proof (queueWrite_ok _ _ (Some w) tw Hok) as H. destruct (queueWrite (Some w) tw) as [b tw'].
  destruct H as (Hok' & Hsb & Hp & Hrel & Hb & Hq).
  assert (∀ r0, valid_ref (trk s) r0 → valid_ref (set_tw r tw' t) r0) as Hv'.
  { intros r0 H. by apply (valid_ref_insert t (tid r) tw tw' r0), Hv. }
  destruct b; intros Hi'; (split; simpl; try done).
  - destruct (push_ok (mkReady r w) (readyQueue t) (c_wfr _ _ _ _ (i_core _ _ _ Hi))) as [_ Heq].
    injection Heq as Habs _. rewrite Habs. simpl.
    eapply acct_push; [|symmetry; apply Permutation_cons_append].
    eapply acct_queue; [exact Ha|exact Htw|auto|rewrite Hrel; auto|exact Hq].
  - replace (writeGauge t) with (writeGauge t - 0) by lia. rewrite app_nil_r in Hq.
    eapply acct_set; [exact Ha|exact Htw|by rewrite Hrel, Hq|unfold nqueued; rewrite Hq; lia].
Qed.

Lemma good_insert cfg tr s t tw :
  sinv cfg tr s → good cfg tr s t → stopping t = false → tw_ok (justified cfg tr) (fail_count tr) tw →
  queued tw = [] → 0 ≤ cp_LSN (point tw) → isAckedLSN (cp_LSN (point tw)) t = false →
  findTrackedWrite (cp_LSN (point tw)) t = None →
  good cfg tr s (pushTrackedWrite (alloc tw t).1 (alloc tw t).2).
Proof.
  intros Hs Hg Hst Hok Hq H0 Hack Hf. pose proof Hg as [Hi Hc Hv Ha Ht].
  destruct (insert_tracked _ _ t tw Hi Hst Hok H0 Hack Hf) as (Hi' & _ & _).
  pose proof (alloc_fresh _ _ t Hi) as Hfr.
  split; try done; simpl.
  - intros r (tw0 & H & ?)%Hv. exists tw0. simpl. rewrite lookup_insert_ne; [done|]. congruence.
  - apply acct_new; try done. intros e He. by eapply good_refs.
Qed.

Lemma good_Add cfg tr s t w :
  sinv cfg tr s → good cfg tr s t → 0 ≤ LSN w → good cfg tr s (Add w t).1.
Proof.
  intros Hs Hg H0. unfold Add. destruct (stopping t) eqn:Hst; [done|]. cbv zeta. simpl fst.
  destruct (isAckedLSN (LSN w) t) eqn:Hack; [done|].
  destruct (findTrackedWrite (LSN w) t) as [r|] eqn:Hf.
  - destruct (find_ref _ _ t _ r (g_tinv _ _ _ _ Hg) Hf) as (_ & _ & _ & tw & Htw & Hpt & Hsz & _). rewrite Htw.
    destruct (isAcknowledged tw); [done|]. destruct (negb (hasFailures tw)); [done|].
    destruct (fullWrite tw); [|done]. apply good_enqueue; [done|]. by exists tw.
  - pose proof (good_insert cfg tr s t (newTrackedWriteRequest w) Hs Hg Hst
      (newTracked_ok _ _ w) eq_refl H0 Hack Hf) as H.
    apply good_enqueue; [exact H|].
    exists (newTrackedWriteRequest w). simpl. by rewrite lookup_insert_eq.
Qed.

Lemma good_AddEmpty cfg tr s t l x :
  sinv cfg tr s → good cfg tr s t → 0 ≤ l → justified cfg tr l 0 → good cfg tr s (AddEmpty l x t).
Proof.
  intros Hs Hg H0 HP. unfold AddEmpty. destruct (stopping t) eqn:Hst; [done|].
  destruct (isAckedLSN l t) eqn:Hack; [done|].
  destruct (findTrackedWrite l t) as [r|] eqn:Hf.
  - destruct (find_ref _ _ t _ r (g_tinv _ _ _ _ Hg) Hf) as (_ & Hl & _ & tw & Htw & Hpt & _). rewrite Htw.
    apply (good_ack_ref cfg tr s t r [0] tw Hg Htw). intros o Ho _.
    apply list_elem_of_singleton in Ho as ->. unfold lsn in Hl. by rewrite Hpt, Hl.
  - pose proof (good_insert cfg tr s t (emptyRequest l x) Hs Hg Hst
      (empty_ok _ _ l x HP) eq_refl H0 Hack Hf) as H.
    exact (eq_ind_r (good cfg tr s) H (empty_insert l x t)).
Qed.

(** *** Every step keeps the invariant *)

Hypothesis enum_perm : ∀ m, enum m ≡ₚ map_to_list m.

Lemma enum_in_map m cp os o : (cp, os) ∈ enum m → o ∈ os → in_map m (cp_LSN cp) o.
Proof. rewrite enum_perm, elem_of_map_to_list. intros. by exists cp, os. Qed.

Lemma group_acks_in es l o :
  in_map (group_acks es) l o → ∃ x, x ∈ es ∧ re_LSN x = l ∧ re_Offset x = o.
Proof.
  unfold group_acks.
  assert (∀ m, in_map (foldl (λ m e, addToAckMap (mkCP (re_LSN e) (re_XID e)) (re_Offset e) m) m es) l o →
    in_map m l o ∨ ∃ x, x ∈ es ∧ re_LSN x = l ∧ re_Offset x = o) as H.
  { induction es as [|e es IH]; intros m; simpl; [auto|].
    intros [H|(x & H & ?)]%IH; [|right; exists x; set_solver].
    apply in_addToAckMap in H as [H|[<- ->]]; [by left|]. right. exists e. set_solver. }
  intros [(cp & os & ? & _)|?]%H; [by rewrite lookup_empty in *|done].
Qed.

Definition event_ok (e : event) : Prop :=
  match e with EAdd w => 0 ≤ LSN w | EAddEmpty l _ => 0 ≤ l | _ => True end.

Lemma step_success cfg tr s resp :
  sinv cfg tr s → sinv cfg (tr ++ [ESuccess resp]) (with_trk (OnSuccess enum resp (trk s)).1 s).
Proof.
  intros Hs. apply (sinv_mono cfg tr (ESuccess resp)) in Hs. apply good_sinv; [done|].
  apply good_advance, good_ack_all; [by apply sinv_good|]. intros cp os o Hin Ho.
  destruct (group_acks_in (r_Entries resp) (cp_LSN cp) o) as (x & Hx & H1 & H2); [by eapply enum_in_map|].
  left. exists resp, x. set_solver.
Qed.

(** Processing an error response from the tracker [t]. *)
Lemma good_process cfg tr s now backoff resp t' out :
  sinv cfg tr s → processErrorResponse now backoff resp (trk s) = (t', out) →
  good cfg (tr ++ [EError now backoff resp]) s t' ∧
  match out with
  | PDone m rs => (∀ l o, in_map m l o → justified cfg (tr ++ [EError now backoff resp]) l o) ∧
                  Forall (λ e, valid_ref t' (e_tw e)) rs
  | _ => True
  end.
Proof.
  intros Hs Hp. pose proof (sinv_good _ _ _ (sinv_mono cfg tr (EError now backoff resp) s Hs)) as Hg.
  unfold processErrorResponse in Hp. destruct (stopping (trk s)).
  { injection Hp as <- <-. split; [done|]. split; [|done]. intros l o (cp & os & H & _). by rewrite lookup_empty in H. }
  destruct Hs as [Hi Hc Hj Hsc Hpu Ha Ht].
  pose proof (process_entries_inv _ now backoff (er_Entries resp) _ ∅ [] (trk s) Hi (fail_count_nonneg tr) (Forall_nil_2 _))
    as Hpost. rewrite Hp in Hpost. destruct Hpost as (Hi' & Hfr & Hout). simpl in Hi', Hfr, Hout.
  assert (∀ l o, fail_count tr l o + errors (er_Entries resp) l o
                 = fail_count (tr ++ [EError now backoff resp]) l o) as Efc.
  { intros l o. by rewrite fail_count_app. }
  pose proof Hfr as [Et Hv].
  split.
  - split.
    + eapply tinv_mono; [| |exact Hi']; [intros; by apply justified_mono|]. intros l o. simpl. by rewrite Efc.
    + by rewrite Et.
    + intros r. by apply frame_valid.
    + rewrite Et. simpl. by eapply acct_view.
    + rewrite Et. done.
  - destruct out as [m rs| |]; try done. destruct Hout as [Hrs Hm]. split; [|done].
    intros l o [(cp & os & H & _)|(e & He & Hat & Hr)]%Hm; [by rewrite lookup_empty in H|].
    right; right. exists now, backoff, resp, e. rewrite <- Efc, <- Hc. split_and!; [set_solver|done|done|done].
Qed.

Lemma step_error cfg tr s now backoff resp s' :
  sinv cfg tr s → step (EError now backoff resp) s = Some s' →
  sinv cfg (tr ++ [EError now backoff resp]) s'.
Proof.
  intros Hs. simpl. destruct (er_Entries resp) as [|x es] eqn:E; [intros [= <-]; by apply sinv_mono|].
  destruct (processErrorResponse now backoff resp (trk s)) as [t' out] eqn:Hp.
  destruct (good_process _ _ _ _ _ _ _ _ Hs Hp) as [Hg Hout].
  pose proof (good_sinv _ _ _ _ (sinv_mono cfg tr _ s Hs) Hg) as Hs'.
  destruct out as [m rs|err|]; intros [= <-]; destruct Hs' as [Hi Hc Hj Hsc Hpu Ha Ht]; simpl in *.
  - split; simpl; try done. apply Forall_app. split; [done|]. by constructor.
  - split; simpl; try done. destruct Hi as [[] ? ? ?]. by split.
Qed.

Lemma step_acks cfg tr s i s' :
  sinv cfg tr s → step (EAcks i) s = Some s' → sinv cfg (tr ++ [EAcks i]) s'.
Proof.
  intros Hs. apply (sinv_mono cfg tr (EAcks i)) in Hs. cbn [step]. cbv zeta.
  destruct (ackJobs s !! i) as [[m rs]|] eqn:Hj; simpl; [|done]. intros [= <-].
  pose proof (s_acks _ _ _ Hs) as Hf. rewrite Forall_lookup in Hf. destruct (Hf i _ Hj) as [Hm Hrs]. simpl in *.
  assert (good cfg (tr ++ [EAcks i]) s (ack_all (enum m) (trk s))) as Hg.
  { apply good_ack_all; [by apply sinv_good|]. intros cp os o Hin Ho. by eapply Hm, enum_in_map. }
  pose proof (good_sinv _ _ _ _ Hs Hg) as [Hi Hc Hj' Hsc Hpu Ha Ht]. split; simpl in *; try done.
  - by apply Forall_delete.
  - apply Forall_app. split; [done|]. eapply Forall_impl; [exact Hrs|]. intros e. apply Hg.
Qed.

Lemma step_schedule cfg tr s now i s' :
  sinv cfg tr s → step (ESchedule now i) s = Some s' → sinv cfg (tr ++ [ESchedule now i]) s'.
Proof.
  intros Hs. apply (sinv_mono cfg tr (ESchedule now i)) in Hs. cbn [step]. cbv zeta.
  destruct (schedJobs s !! i) as [e|] eqn:Hj; simpl; [|done]. intros [= <-].
  pose proof Hs as [Hi Hc Hj' Hsc Hpu Ha Ht].
  assert (valid_ref (trk s) (e_tw e)) as Hv by (rewrite Forall_lookup in Hsc; by eapply Hsc).
  pose proof (scheduleRetry_tinv _ _ SetTimer now e (trk s) Hi Hv) as Hi'.
  unfold scheduleRetry in *. destruct (stopping (trk s)); [|destruct (SetTimer _ _ _)];
    (split; simpl in *; try done; [by apply Forall_delete|..]).
  rewrite length_app. simpl. lia.
Qed.

Lemma delete_length {A} (l : list A) i x :
  l !! i = Some x → length (delete i l) = (length l - 1)%nat ∧ (0 < length l)%nat.
Proof.
  intros H. pose proof (lookup_lt_Some _ _ _ H). rewrite length_delete by (by exists x). lia.
Qed.

Lemma step_timer cfg tr s i s' :
  sinv cfg tr s → step (ETimer i) s = Some s' → sinv cfg (tr ++ [ETimer i]) s'.
Proof.
  intros Hs. apply (sinv_mono cfg tr (ETimer i)) in Hs. cbn [step]. cbv zeta.
  destruct (timers (trk s) !! i) as [[key e]|] eqn:Htm; simpl; [|done].
  pose proof Hs as [Hi Hc Hj' Hsc Hpu Ha Ht].
  set (t1 := with_retryGauge _ (with_timers (delete i (timers (trk s))) (retrySeq (trk s)) (trk s))).
  destruct (delete_length _ _ _ Htm) as [Hl1 Hl2].
  assert (tinv (justified cfg (tr ++ [ETimer i])) (fail_count (tr ++ [ETimer i])) t1) as Hi1.
  { destruct Hi as [[] ? ? ?]. split; [split|done..]; try done. simpl. by apply Forall_delete. }
  assert (retryGauge t1 = Z.of_nat (length (timers t1))) as Ht1.
  { unfold t1. simpl. rewrite Hl1. lia. }
  change (stopping (trk s)) with (stopping t1). destruct (stopping t1) eqn:Hst.
  { intros [= <-]. split; simpl; try done. }
  destruct (queue_write (e_tw e) (Some (e_write e)) t1) as [b t2] eqn:Hq. intros [= <-].
  pose proof (queue_write_tinv _ _ (e_tw e) (Some (e_write e)) t1 Hi1) as Hi2.
  pose proof (λ r, queue_write_valid (e_tw e) (Some (e_write e)) t1 r) as Hv2.
  rewrite Hq in Hi2, Hv2. simpl in Hi2, Hv2.
  assert (valid_ref t1 (e_tw e)) as (tw & Htw & Hrest).
  { pose proof (c_timers _ _ _ _ (i_core _ _ _ Hi)) as H. rewrite Forall_lookup in H. apply (H i _ Htm). }
  pose proof (c_tw _ _ _ _ (i_core _ _ _ Hi1) _ _ Htw) as Hok.
  pose proof (queueWrite_ok _ _ (Some (e_write e)) tw Hok) as Hqw.
  unfold queue_write in Hq. rewrite Htw in Hq. destruct (queueWrite (Some (e_write e)) tw) as [b' tw'].
  injection Hq as <- <-. destruct Hqw as (_ & _ & _ & Hrel & Hb & Hque).
  split; simpl; try done.
  - eapply Forall_impl; [exact Hj'|]. intros [m rs] [H1 H2]. split; [done|].
    eapply Forall_impl; [exact H2|]. intros x. apply Hv2.
  - eapply Forall_impl; [exact Hsc|]. intros x. apply Hv2.
  - apply Forall_app. split; [eapply Forall_impl; [exact Hpu|]; intros x; apply Hv2|].
    destruct b'; constructor; [|constructor]. apply Hv2. by exists tw.
  - destruct b'; simpl in *.
    + eapply acct_queue; [exact Ha|exact Htw|auto|rewrite Hrel; auto|exact Hque].
    + rewrite app_nil_r. rewrite app_nil_r in Hque.
      replace (writeGauge (trk s)) with (writeGauge (trk s) - 0) by lia.
      eapply acct_set; [exact Ha|exact Htw|by rewrite Hrel, Hque|unfold nqueued; rewrite Hque; lia].
Qed.

Lemma step_push cfg tr s i s' :
  sinv cfg tr s → step (EPush i) s = Some s' → sinv cfg (tr ++ [EPush i]) s'.
Proof.
  intros Hs. apply (sinv_mono cfg tr (EPush i)) in Hs. cbn [step]. cbv zeta.
  destruct (pushing s !! i) as [e|] eqn:Hp; simpl; [|done]. intros [= <-].
  pose proof Hs as [Hi Hc Hj' Hsc Hpu Ha Ht].
  assert (valid_ref (trk s) (r_tw e)) as Hv by (rewrite Forall_lookup in Hpu; by eapply Hpu).
  pose proof (push_ready_tinv _ _ (r_tw e) (r_write e) (trk s) Hi Hv) as Hi'.
  split; simpl; try done; [by apply Forall_delete|].
  destruct (push_ok (mkReady (r_tw e) (r_write e)) (readyQueue (trk s)) (c_wfr _ _ _ _ (i_core _ _ _ Hi))) as [_ Heq].
  injection Heq as Habs _. rewrite Habs. simpl.
  eapply acct_push; [exact Ha|]. replace (mkReady (r_tw e) (r_write e)) with e by (by destruct e).
  by apply delete_Permutation.
Qed.

Definition items_of (t : tracker) := Spec.items (q_abs (readyQueue t)).
Definition is_item {A} (p : Spec.popped A) : Z := match p with Spec.PopItem _ => 1 | _ => 0 end.

(** [PopReady] drops stale entries and takes at most one write; it blocks only
    when the ready queue is empty. *)
Lemma PopReady_acct P F k X fuel t :
  tinv P F t → acct k X (tws t) (items_of t) (writeGauge t) → (length (items_of t) ≤ fuel)%nat →
  let '(t', p) := PopReady fuel t in
  acct (k + is_item p) X (tws t') (items_of t') (writeGauge t') ∧
  (∀ r, valid_ref t r → valid_ref t' r) ∧
  retryConfig t' = retryConfig t ∧ retryGauge t' = retryGauge t ∧ timers t' = timers t ∧
  (p = Spec.PopStopped ↔ stopping t = true) ∧
  (p = Spec.PopBlocked → items_of t' = [] ∧ tws t' = tws t).
Proof.
  revert t. induction fuel as [|fuel IH]; intros t Hi Ha Hl; cbn [PopReady];
    destruct (op_pop (readyQueue t)) as [q p] eqn:Hp; cbv zeta;
    destruct (pop_ready P F t q p Hi Hp) as [Hi' Hcase]; unfold items_of in *;
    (destruct p as [| |e]; [destruct Hcase as [E Hst]|destruct Hcase as (E & E' & Hst)|destruct Hcase as [E Hst]]).
  1, 4: by simpl; rewrite E, Z.add_0_r.
  1, 3: simpl; rewrite E', Z.add_0_r; rewrite E in Ha; split_and!; try done; by rewrite Hst.
  { rewrite E in Hl. simpl in Hl. lia. }
  rewrite E in Ha. destruct (tws (with_ready q t) !! tid (r_tw e)) as [tw|] eqn:Htw.
  2: { pose proof (c_ready _ _ _ _ (i_core _ _ _ Hi)) as Hr. rewrite E in Hr.
       apply Forall_cons in Hr as [(tw & H & _) _]. simpl in Htw. congruence. }
  simpl in Htw. pose proof (popQueuedWrite_ok P F tw (c_tw _ _ _ _ (i_core _ _ _ Hi) _ _ Htw)) as H.
  destruct (popQueuedWrite tw) as [[w|] tw'] eqn:Epop; destruct H as (Hok & Hsb & Hpe & Hrel & Hq & Hsome).
  - simpl. split_and!; try done.
    + eapply acct_pop; [exact Ha|exact Htw|auto|rewrite Hrel; auto|exact Hq].
    + intros r Hr. by apply (valid_ref_insert t (tid (r_tw e)) tw tw' r).
    + by rewrite Hst.
  - assert (queued tw = []) as Hq0.
    { unfold popQueuedWrite in Epop. by destruct (queued tw). }
    destruct (acct_skip _ _ _ _ _ e tw Ha Htw Hq0) as [_ Ha'].
    specialize (IH (with_ready q t) Hi' Ha'). rewrite E in Hl. simpl in Hl. specialize (IH ltac:(simpl; lia)).
    destruct (PopReady fuel (with_ready q t)) as [t' p]. apply IH.
Qed.

Lemma step_pop cfg tr s s' :
  sinv cfg tr s → step EPop s = Some s' → sinv cfg (tr ++ [EPop]) s'.
Proof.
  intros Hs. apply (sinv_mono cfg tr EPop) in Hs. cbn [step]. cbv zeta.
  pose proof Hs as [Hi Hc Hj' Hsc Hpu Ha Ht].
  pose proof (PopReady_tinv _ _ (length (items_of (trk s))) (trk s) Hi) as Hi'.
  pose proof (PopReady_acct _ _ _ _ (length (items_of (trk s))) (trk s) Hi Ha ltac:(done)) as H.
  unfold items_of in *. destruct (PopReady _ (trk s)) as [t' p]. intros [= <-].
  destruct H as (Ha' & Hv & E1 & E2 & E3 & _ & _). simpl in Hi'.
  assert (good cfg (tr ++ [EPop]) (mkSys (trk s) (ackJobs s) (schedJobs s) (pushing s) (taken s + is_item p)) t') as Hg.
  { split; simpl; try done; congruence. }
  replace (match p with Spec.PopItem _ => taken s + 1 | _ => taken s end) with (taken s + is_item p)
    by (destruct p; simpl; lia).
  split; simpl; try done; try congruence.
  - eapply Forall_impl; [exact Hj'|]. intros [m rs] [H1 H2]. split; [done|].
    eapply Forall_impl; [exact H2|]. intros x. apply Hv.
  - eapply Forall_impl; [exact Hsc|]. intros x. apply Hv.
  - eapply Forall_impl; [exact Hpu|]. intros x. apply Hv.
Qed.

Lemma step_sinv cfg tr e s s' :
  sinv cfg tr s → event_ok e → step e s = Some s' → sinv cfg (tr ++ [e]) s'.
Proof.
  intros Hs Hok Hstep. destruct e as [w|l xid|resp|now backoff resp|i|now i|i|i| | | |]; simpl in Hok.
  - injection Hstep as <-. apply (sinv_mono cfg tr (EAdd w)) in Hs. apply good_sinv; [done|].
    apply good_Add; auto using sinv_good.
  - injection Hstep as <-. apply (sinv_mono cfg tr (EAddEmpty l xid)) in Hs. apply good_sinv; [done|].
    apply good_AddEmpty; auto using sinv_good. right; left. split; [done|]. exists xid. set_solver.
  - injection Hstep as <-. by apply step_success.
  - by apply (step_error cfg tr s).
  - by apply (step_acks cfg tr s).
  - by apply (step_schedule cfg tr s).
  - by apply (step_timer cfg tr s).
  - by apply (step_push cfg tr s).
  - by apply (step_pop cfg tr s).
  - apply (sinv_mono cfg tr EDec) in Hs. simpl in Hstep. case_bool_decide; [|done]. injection Hstep as <-.
    destruct Hs as [Hi Hc Hj' Hsc Hpu [Ha1 Ha2] Ht]. split; simpl; try done.
    + destruct Hi as [[] ? ? ?]. by split.
    + split; [done|]. simpl. lia.
  - injection Hstep as <-. apply (sinv_mono cfg tr EMax) in Hs. apply good_sinv; [done|].
    apply good_advance; auto using sinv_good.
  - injection Hstep as <-. apply (sinv_mono cfg tr EStop) in Hs. apply good_sinv; [done|].
    pose proof (sinv_good _ _ _ Hs) as [Hi Hc Hv Ha Ht].
    pose proof (Stop_tinv _ _ (trk s) Hi) as Hi'. unfold Stop in *. destruct (stopping (trk s)); [done|].
    destruct (stop_ok (readyQueue (trk s)) (c_wfr _ _ _ _ (i_core _ _ _ Hi))) as [_ E].
    split; try done. simpl. by rewrite E.
Qed.

(** *** Runs *)

Inductive run (cfg : RetryConfig) : list event → sys → Prop :=
| run_init : run cfg [] (init cfg)
| run_step tr s e s' : run cfg tr s → event_ok e → step e s = Some s' → run cfg (tr ++ [e]) s'.

Lemma run_sinv cfg tr s : run cfg tr s → sinv cfg tr s.
Proof.
  induction 1 as [|tr s e s' _ IH Hok Hstep]; [|by eapply step_sinv].
  destruct (WriteQueue.new_ok (QueueImpl := QR)) as [_ E].
  split; [apply new_tinv|done|done|done|done| |done]. simpl. rewrite E. split; [|done].
  intros id tw. by rewrite lookup_empty.
Qed.

(** *** What can be acknowledged to PostgreSQL *)

(** Nothing is acknowledged before it is delivered.  In every run, when
    the acknowledged LSN is at or past a tracked write, every offset of that
    write was confirmed by the writer, or reported as an empty transaction, or
    given up after an error that is not retryable or [MaxRetries] errors. *)
Lemma acknowledged_is_delivered cfg tr s id tw o :
  run cfg tr s → 0 < cp_LSN (maxAcknowledged (trk s)) →
  tws (trk s) !! id = Some tw → cp_LSN (point tw) ≤ cp_LSN (maxAcknowledged (trk s)) →
  o ∈ orig tw → justified cfg tr (cp_LSN (point tw)) o.
Proof.
  intros Hrun Hpos Htw Hle Ho. pose proof (i_core _ _ _ (s_tinv _ _ _ (run_sinv _ _ _ Hrun))) as Hc.
  pose proof (c_tw _ _ _ _ Hc _ _ Htw) as Hok. apply (ok_acked _ _ _ Hok); [done|].
  destruct (decide (id ∈ (tid <$> Spec.items (q_abs (trackingQueue (trk s)))))) as [Hin|Hout].
  - apply list_elem_of_fmap in Hin as (r & -> & Hr).
    destruct (c_above _ _ _ _ Hc r Hr) as [_ H]. specialize (H Hpos).
    pose proof (c_refs _ _ _ _ Hc) as Hrefs. rewrite Forall_forall in Hrefs.
    destruct (Hrefs r Hr) as (tw' & Htw' & Hp & _). unfold lsn in H. rewrite Htw in Htw'. simplify_eq.
    rewrite Hp in Hle. lia.
  - destruct (c_left _ _ _ _ Hc _ _ Htw Hout) as [-> _]. set_solver.
Qed.

(** C4: the tracking queue is strictly ordered by LSN and lies beyond the
    acknowledged LSN; every request that left it is fully acknowledged and at
    or before it; the entries of a request are released exactly once, namely
    when its last offset is acknowledged, and then nothing of it stays queued. *)
Theorem tracker_invariant cfg tr s :
  run cfg tr s →
  let q := Spec.items (q_abs (trackingQueue (trk s))) in
  StronglySorted lsn_lt q ∧
  (∀ r, r ∈ q → 0 < cp_LSN (maxAcknowledged (trk s)) → cp_LSN (maxAcknowledged (trk s)) < lsn r) ∧
  (∀ id tw, tws (trk s) !! id = Some tw →
     (id ∉ tid <$> q → pending tw = ∅ ∧ cp_LSN (point tw) ≤ cp_LSN (maxAcknowledged (trk s))) ∧
     pending tw ⊆ orig tw ∧
     releases tw = (if bool_decide (pending tw = ∅) then 1 else 0)%nat ∧
     (pending tw = ∅ → queued tw = [] ∧ write tw = None)).
Proof.
  intros Hrun. pose proof (i_core _ _ _ (s_tinv _ _ _ (run_sinv _ _ _ Hrun))) as Hc. cbv zeta.
  split_and!; [apply Hc|intros r Hr; by apply (c_above _ _ _ _ Hc)|].
  intros id tw Htw. pose proof (c_tw _ _ _ _ Hc _ _ Htw) as Hok.
  split_and!; [by apply (c_left _ _ _ _ Hc)|apply Hok| |].
  - rewrite (ok_releases _ _ _ Hok), (ok_released _ _ _ Hok). done.
  - intros Hp. destruct (ok_done _ _ _ Hok) as (? & ? & _); [|done].
    rewrite (ok_released _ _ _ Hok). by apply bool_decide_true.
Qed.

(** C5: [MaxAcknowledged] is as large as it can be: it returns the commit point
    of the last request of the fully acknowledged prefix of the queue, and the
    oldest request left is not fully acknowledged; it never goes back. *)
Theorem max_acknowledged_is_prefix cfg tr s :
  run cfg tr s → stopping (trk s) = false →
  let q := Spec.items (q_abs (trackingQueue (trk s))) in
  let '(t', cp) := MaxAcknowledged (trk s) in
  ∃ done rest,
    q = done ++ rest ∧ Spec.items (q_abs (trackingQueue t')) = rest ∧
    Forall (acked_ref (trk s)) done ∧
    (∀ r, head rest = Some r → ¬ acked_ref (trk s) r) ∧
    cp = default (maxAcknowledged (trk s)) (t_point <$> last done) ∧
    cp_LSN (maxAcknowledged (trk s)) ≤ cp_LSN cp.
Proof.
  intros Hrun Hst. unfold MaxAcknowledged.
  destruct (advance_spec _ _ _ (s_tinv _ _ _ (run_sinv _ _ _ Hrun)))
    as (_ & Hle & _ & _ & _ & _ & _ & _ & _ & _ & _ & H). destruct (H Hst) as [(l1 & E & Hf & Hm) Hh].
  exists l1, (tracked (advanceMaxAcknowledged (trk s))). split_and!; try done.
Qed.

(** C9: no queued write is stuck.  [Pop] ends within as many rounds as there
    are ready entries; when it blocks on a tracker that is not stopped, every
    request that is not released has nothing queued except writes whose ready
    entry is just being pushed. *)
Theorem pop_blocks_only_when_drained cfg tr s t' p :
  run cfg tr s →
  PopReady (length (Spec.items (q_abs (readyQueue (trk s))))) (trk s) = (t', p) →
  (p = Spec.PopStopped ↔ stopping (trk s) = true) ∧
  (p = Spec.PopBlocked →
   ∀ id tw, tws (trk s) !! id = Some tw → released tw = false →
     length (queued tw) = nready id (pushing s)).
Proof.
  intros Hrun Hp. pose proof (run_sinv _ _ _ Hrun) as [Hi _ _ _ _ Ha _].
  pose proof (PopReady_acct _ _ _ _ _ (trk s) Hi Ha (le_n _)) as H.
  unfold items_of in H. rewrite Hp in H. destruct H as (Ha' & _ & _ & _ & _ & Hs & Hb).
  split; [done|]. intros -> id tw Htw Hrel. destruct (Hb eq_refl) as [E1 E2].
  rewrite E1, E2 in Ha'. symmetry. apply (a_ready _ _ _ _ _ Ha' id tw Htw Hrel).
Qed.

(** The gauges are exact.  The retry gauge is the number of timers set;
    the write gauge is the number of writes queued on the tracked requests,
    less those whose push is under way, plus those the consumer has taken and
    not yet counted. *)
Lemma gauges_exact cfg tr s :
  run cfg tr s →
  retryGauge (trk s) = Z.of_nat (length (timers (trk s))) ∧
  writeGauge (trk s) = total_queued (tws (trk s)) - Z.of_nat (length (pushing s)) + taken s.
Proof. intros Hrun. destruct (run_sinv _ _ _ Hrun) as [_ _ _ _ _ [_ Hg] Ht]. done. Qed.

(** A write with this (non-zero) LSN was accepted. *)
Definition known (t : tracker) (l : Z) : Prop :=
  ∃ id tw, tws t !! id = Some tw ∧ cp_LSN (point tw) = l ∧ 0 < l.

Lemma frame_known t t' l : frame t t' → known t l → known t' l.
Proof.
  intros [_ Hv] (id & tw & Htw & Hl & H0). symmetry in Hv.
  destruct (view_lookup _ _ id tw Hv Htw) as (tw' & Htw' & E). exists id, tw'.
  injection E as E _ _ _ _. split_and!; try done. congruence.
Qed.

Lemma known_found P F t l :
  tinv P F t → stopping t = false → known t l → findTrackedWrite l t = None → isAckedLSN l t = true.
Proof.
  intros Hi Hst (id & tw & Htw & Hl & H0) Hf. pose proof (i_core _ _ _ Hi) as Hc.
  pose proof (find_none_ref P F t l Hi Hf Hst) as Hne.
  destruct (c_left _ _ _ _ Hc id tw Htw) as [_ Hle].
  - intros (r & -> & Hr)%list_elem_of_fmap. apply (Hne r Hr).
    pose proof (c_refs _ _ _ _ Hc) as Hrefs. rewrite Forall_forall in Hrefs.
    destruct (Hrefs r Hr) as (tw' & Htw' & Hp & _). unfold lsn. congruence.
  - unfold isAckedLSN. rewrite !bool_decide_true by lia. done.
Qed.

Lemma process_no_fatal P now backoff es F m rs t :
  tinv P F t → (∀ l o, 0 ≤ F l o) → stopping t = false →
  Forall (λ x, known t (re_LSN (ere_Entry x))) es →
  (process_entries now backoff es m rs t).2 ≠ PFatal.
Proof.
  revert F m rs t. induction es as [|e es IH]; intros F m rs t Hi HF Hst Hk; [done|].
  apply Forall_cons in Hk as [Hk Hks]. cbn [process_entries]. cbv zeta.
  destruct (findTrackedWrite (re_LSN (ere_Entry e)) t) as [r|] eqn:Hf.
  2: { rewrite (known_found P F t _ Hi Hst Hk Hf). by eapply IH. }
  destruct (find_ref P F t _ r Hi Hf) as (_ & _ & _ & tw & Htw & _). rewrite Htw.
  destruct (isAcknowledged tw) eqn:Hack; [by eapply IH|].
  pose proof (count_failure P F e r now t tw Hi HF Hf Htw Hack) as Hg.
  destruct (getFailedEntry _ _ now tw) as [fe tw']. destruct Hg as (Hi2 & Hfr & _ & _).
  assert (∀ m rs, (process_entries now backoff es m rs (set_tw r tw' t)).2 ≠ PFatal) as Hnext.
  { intros m' rs'. eapply IH; [exact Hi2| |done|].
    - intros l o. pose proof (count_first_le e F l o). specialize (HF l o). lia.
    - eapply Forall_impl; [exact Hks|]. intros x. by apply frame_known. }
  destruct (downstreamDown _ _ _); [done|]. destruct (skipEntry _ _ _); [apply Hnext|].
  destruct (bool_decide _); [|apply Hnext]. destruct (buildRetryEntry _ _ _ _ _ _); apply Hnext.
Qed.

(** An error response about writes that were accepted never ends the
    process: the tracker either still tracks such a write or has acknowledged
    it ([errWriteIsMissing] is unreachable for such responses). *)
Lemma known_errors_not_fatal cfg tr s now backoff resp :
  run cfg tr s → Forall (λ x, known (trk s) (re_LSN (ere_Entry x))) (er_Entries resp) →
  (processErrorResponse now backoff resp (trk s)).2 ≠ PFatal.
Proof.
  intros Hrun Hk. pose proof (s_tinv _ _ _ (run_sinv _ _ _ Hrun)) as Hi.
  unfold processErrorResponse. destruct (stopping (trk s)) eqn:Hst; [done|].
  eapply process_no_fatal; eauto. apply fail_count_nonneg.
Qed.

(** *** The acknowledged LSN never goes back *)

Lemma ack_all_max l t : maxAcknowledged (ack_all l t) = maxAcknowledged t.
Proof.
  unfold ack_all. revert t. induction l as [|[cp os] l IH]; intros t; simpl; [done|]. rewrite IH.
  rewrite ack_point_eq. destruct (findTrackedWrite _ t) as [r|]; [|done].
  destruct (tws t !! tid r); [|done]. by rewrite ack_ref_eq.
Qed.

Lemma enqueue_max r w t : maxAcknowledged (enqueueReadyWrite r w t) = maxAcknowledged t.
Proof.
  unfold enqueueReadyWrite, queue_write. destruct (tws t !! tid r) as [tw|]; [|done].
  by destruct (queueWrite (Some w) tw) as [[] tw'].
Qed.

Lemma queue_write_max r w t : maxAcknowledged (queue_write r w t).2 = maxAcknowledged t.
Proof. unfold queue_write. destruct (tws t !! tid r); [|done]. by destruct (queueWrite _ _). Qed.

Lemma Add_max w t : maxAcknowledged (Add w t).1 = maxAcknowledged t.
Proof.
  unfold Add. destruct (stopping t); [done|]. cbv zeta. simpl fst.
  destruct (isAckedLSN (LSN w) t); [done|]. destruct (findTrackedWrite (LSN w) t) as [r|].
  - destruct (tws t !! tid r) as [tw|]; [|done]. destruct (isAcknowledged tw); [done|]. destruct (hasFailures tw); [|done].
    simpl. destruct (fullWrite tw); [apply enqueue_max|done].
  - simpl. by rewrite enqueue_max.
Qed.

Lemma AddEmpty_max l x t : maxAcknowledged (AddEmpty l x t) = maxAcknowledged t.
Proof.
  unfold AddEmpty. destruct (stopping t); [done|]. destruct (isAckedLSN l t); [done|].
  destruct (findTrackedWrite l t) as [r|].
  - destruct (tws t !! tid r) as [tw|]; [|done].
    change (maxAcknowledged (ack_ref r [0] tw t) = maxAcknowledged t). by rewrite ack_ref_eq.
  - exact (f_equal maxAcknowledged (empty_insert l x t)).
Qed.

Lemma PopReady_max fuel t : maxAcknowledged (PopReady fuel t).1 = maxAcknowledged t.
Proof.
  revert t. induction fuel as [|fuel IH]; intros t; cbn [PopReady];
    destruct (op_pop (readyQueue t)) as [q [| |e]]; try done; cbv zeta;
    (destruct (tws _ !! _) as [tw|]; [|done]); destruct (popQueuedWrite tw) as [[w|] tw']; try done.
  by rewrite IH.
Qed.

Lemma process_max now backoff resp t :
  maxAcknowledged (processErrorResponse now backoff resp t).1 = maxAcknowledged t.
Proof.
  unfold processErrorResponse. destruct (stopping t); [done|].
  generalize (∅ : ackMap) ([] : list (retryEntry Tup)). revert t.
  induction (er_Entries resp) as [|e es IH]; intros t m rs; [done|]. cbn [process_entries]. cbv zeta.
  destruct (findTrackedWrite (re_LSN (ere_Entry e)) t) as [r|]; [|destruct (negb (isAckedLSN _ t)); [done|apply IH]].
  destruct (tws t !! tid r) as [tw|]; [|done]. destruct (isAcknowledged tw); [apply IH|].
  destruct (getFailedEntry _ _ now tw) as [fe tw'].
  destruct (downstreamDown _ _ _); [done|]. destruct (skipEntry _ _ _); [by rewrite IH|].
  destruct (bool_decide _); [|by rewrite IH]. destruct (buildRetryEntry _ _ _ _ _ _); by rewrite IH.
Qed.

(** The acknowledged LSN never goes back: no step of any caller makes the
    acknowledged commit point's LSN smaller. *)
Lemma max_acknowledged_monotone cfg tr s e s' :
  run cfg tr s → step e s = Some s' →
  cp_LSN (maxAcknowledged (trk s)) ≤ cp_LSN (maxAcknowledged (trk s')).
Proof.
  intros Hrun Hstep. pose proof (run_sinv _ _ _ Hrun) as Hs.
  assert (tinv (λ _ _, True) (fail_count tr) (trk s)) as Hi.
  { eapply tinv_mono; [done|by intros|apply Hs]. }
  destruct e as [w|l xid|resp|now backoff resp|i|now i|i|i| | | |]; cbn [step] in Hstep; cbv zeta in Hstep.
  - injection Hstep as <-. simpl. by rewrite Add_max.
  - injection Hstep as <-. simpl. by rewrite AddEmpty_max.
  - injection Hstep as <-. simpl. set (l := enum _).
    rewrite <- (ack_all_max l (trk s)). apply (advance_spec (λ _ _, True) (fail_count tr)).
    by apply ack_all_tinv.
  - destruct (er_Entries resp); [by injection Hstep as <-|].
    destruct (processErrorResponse now backoff resp (trk s)) as [t' out] eqn:Hp.
    pose proof (process_max now backoff resp (trk s)) as Hm. rewrite Hp in Hm. simpl in Hm.
    destruct out; [| |done]; injection Hstep as <-; simpl; by rewrite Hm.
  - destruct (ackJobs s !! i) as [[m rs]|]; [|done]. injection Hstep as <-. simpl. by rewrite ack_all_max.
  - destruct (schedJobs s !! i) as [e|]; [|done]. injection Hstep as <-. simpl. unfold scheduleRetry.
    destruct (stopping (trk s)); [done|]. by destruct (SetTimer _ _ _).
  - destruct (timers (trk s) !! i) as [[k e]|]; [|done]. simpl in Hstep.
    destruct (stopping (trk s)); [by injection Hstep as <-|].
    match type of Hstep with context [queue_write ?r ?w ?t] =>
      pose proof (queue_write_max r w t) as Hm; destruct (queue_write r w t) as [b t2] end.
    injection Hstep as <-. simpl in *. by rewrite Hm.
  - destruct (pushing s !! i) as [e|]; [|done]. by injection Hstep as <-.
  - pose proof (PopReady_max (length (Spec.items (q_abs (readyQueue (trk s))))) (trk s)) as Hm.
    destruct (PopReady _ (trk s)) as [t' p]. injection Hstep as <-. simpl in *. by rewrite Hm.
  - case_bool_decide; [|done]. by injection Hstep as <-.
  - injection Hstep as <-. simpl. by apply (advance_spec (λ _ _, True) (fail_count tr)).
  - injection Hstep as <-. simpl. unfold Stop. by destruct (stopping (trk s)).
Qed.
End system.

(** *** The order of Go's map iteration does not matter *)

Section order.
Context {Tup : Type}.
Context {QT : QueueImpl tref t_size} {QR : QueueImpl (readyWriteEntry Tup) ready_size}.
Notation tracker := (Tracker.tracker Tup).
Implicit Types t : tracker.

(** How much the gauge goes down when offsets of a request are acknowledged. *)
Definition ack_dec (offsets : list Z) (tw : trackedWriteRequest Tup) : Z :=
  if isAcknowledged (Tracked.ack offsets tw).2 then (release (Tracked.ack offsets tw).2).1 else 0.

Definition ok_tw := tw_ok (Tup := Tup) (λ _ _, True).

(** Acknowledging in two steps is acknowledging at once. *)
Lemma ack_release_app F o1 o2 tw :
  ok_tw F tw →
  ack_release o2 (ack_release o1 tw) = ack_release (o1 ++ o2) tw ∧
  ack_dec o1 tw + ack_dec o2 (ack_release o1 tw) = ack_dec (o1 ++ o2) tw.
Proof.
  intros Hok. pose proof (ok_released _ _ _ Hok) as Hr.
  unfold ack_release, ack_dec, Tracked.ack, isAcknowledged, release. simpl.
  rewrite list_to_set_app_L, <- difference_difference_l_L.
  destruct (decide (pending tw ∖ list_to_set o1 = ∅)) as [E1|E1];
    [rewrite (bool_decide_true (pending tw ∖ _ = ∅)) by done|
     rewrite (bool_decide_false (pending tw ∖ _ = ∅)) by done].
  - assert (pending tw ∖ list_to_set o1 ∖ list_to_set o2 = ∅) as E2 by set_solver.
    rewrite (bool_decide_true (_ ∖ _ ∖ _ = ∅)) by done. simpl.
    destruct (released tw) eqn:Hrel; simpl.
    + rewrite (bool_decide_true (_ ∖ _ ∖ _ = ∅)) by done. rewrite Hrel. done.
    + rewrite !bool_decide_true by set_solver. unfold with_pending. simpl. split; [|lia]. f_equal. set_solver.
  - simpl. assert (released tw = false) as Hrel.
    { rewrite Hr. apply bool_decide_eq_false. intros E. apply E1. rewrite E. set_solver. }
    destruct (decide (pending tw ∖ list_to_set o1 ∖ list_to_set o2 = ∅)) as [E2|E2];
      [rewrite !(bool_decide_true (_ ∖ _ ∖ _ = ∅)) by done|rewrite !(bool_decide_false (_ ∖ _ ∖ _ = ∅)) by done];
      simpl; rewrite ?Hrel; split; (done || lia).
Qed.

Lemma ack_release_comm F o1 o2 tw :
  ok_tw F tw →
  ack_release o2 (ack_release o1 tw) = ack_release o1 (ack_release o2 tw) ∧
  ack_dec o1 tw + ack_dec o2 (ack_release o1 tw) = ack_dec o2 tw + ack_dec o1 (ack_release o2 tw).
Proof.
  intros Hok. destruct (ack_release_app F o1 o2 tw Hok) as [-> ->].
  destruct (ack_release_app F o2 o1 tw Hok) as [-> ->].
  assert (list_to_set (C := gset Z) (o1 ++ o2) = list_to_set (o2 ++ o1)) as E.
  { rewrite !list_to_set_app_L. set_solver. }
  unfold ack_release, ack_dec, Tracked.ack. by rewrite E.
Qed.

Lemma ack_point_comm F c1 o1 c2 o2 t :
  tinv (λ _ _, True) F t →
  ack_point c2 o2 (ack_point c1 o1 t) = ack_point c1 o1 (ack_point c2 o2 t).
Proof.
  intros Hi.
  assert (∀ l c o, findTrackedWrite l (ack_point c o t) = findTrackedWrite l t) as Hfind.
  { intros l c o. rewrite ack_point_eq. destruct (findTrackedWrite (cp_LSN c) t) as [r|]; [|done].
    destruct (tws t !! tid r); [|done]. by rewrite ack_ref_eq. }
  rewrite (ack_point_eq c2 o2 (ack_point c1 o1 t)), (ack_point_eq c1 o1 (ack_point c2 o2 t)), !Hfind.
  rewrite !ack_point_eq.
  destruct (findTrackedWrite (cp_LSN c1) t) as [r1|] eqn:F1, (findTrackedWrite (cp_LSN c2) t) as [r2|] eqn:F2; try done.
  destruct (find_ref _ _ t _ r1 Hi F1) as (_ & _ & _ & tw1 & Htw1 & _ & _ & Hok1).
  destruct (find_ref _ _ t _ r2 Hi F2) as (_ & _ & _ & tw2 & Htw2 & _ & _ & Hok2).
  rewrite Htw1, Htw2, !ack_ref_eq. simpl. destruct (decide (tid r1 = tid r2)) as [E|E].
  - rewrite E, !lookup_insert_eq, !ack_ref_eq. rewrite E in Htw1. rewrite Htw1 in Htw2. injection Htw2 as <-.
    destruct (ack_release_comm F o1 o2 tw1 Hok1) as [Ec Ed].
    unfold set_tw, with_tws, with_writeGauge, ack_dec in *. simpl in *. rewrite E, !insert_insert_eq, Ec.
    f_equal. lia.
  - rewrite !lookup_insert_ne by done. rewrite Htw1, Htw2, !ack_ref_eq.
    unfold set_tw, with_tws, with_writeGauge. simpl. rewrite (insert_insert_ne _ (tid r1) (tid r2)) by done.
    f_equal. lia.
Qed.

Lemma ack_all_Permutation F l1 l2 t :
  tinv (λ _ _, True) F t → l1 ≡ₚ l2 → ack_all l1 t = ack_all l2 t.
Proof.
  intros Hi Hp. revert t Hi. induction Hp as [|[c o] l1 l2 _ IH|[c1 o1] [c2 o2] l|l1 l2 l3 _ IH1 _ IH2];
    intros t Hi; try done; simpl.
  - apply IH. by apply ack_point_tinv.
  - change (ack_all l (ack_point c1 o1 (ack_point c2 o2 t)) = ack_all l (ack_point c2 o2 (ack_point c1 o1 t))).
    by rewrite (ack_point_comm F).
  - rewrite IH1 by done. by apply IH2.
Qed.
End order.

Section order_claim.
Context {Tup : Type}.
Context {QT : QueueImpl tref t_size} {QR : QueueImpl (readyWriteEntry Tup) ready_size}.

(** The result of a success response does not depend on the iteration
    order of the map that groups its entries by commit point: with any two
    orders [OnSuccess] leaves the same tracker and returns the same commit
    point, in every state a run can reach. *)
Lemma success_order_irrelevant
    (enum1 enum2 : gmap CommitPoint (list Z) → list (CommitPoint * list Z)) SetTimer cfg tr
    (s : sys (Tup := Tup)) resp :
  (∀ m, enum1 m ≡ₚ map_to_list m) → (∀ m, enum2 m ≡ₚ map_to_list m) →
  run enum1 SetTimer cfg tr s →
  OnSuccess enum1 resp (trk s) = OnSuccess enum2 resp (trk s).
Proof.
  intros H1 H2 Hrun. pose proof (s_tinv _ _ _ (run_sinv enum1 SetTimer H1 _ _ _ Hrun)) as Hi.
  unfold OnSuccess. cbv zeta.
  rewrite (ack_all_Permutation (fail_count tr) (enum1 (group_acks (r_Entries resp)))
             (enum2 (group_acks (r_Entries resp)))); [done| |by rewrite H1, H2].
  eapply tinv_mono; [done|by intros|exact Hi].
Qed.
End order_claim.

(** *** Retries *)

Lemma round_spec delay iv :
  0 < iv → delay + iv < two63 →
  (iv | roundRetryDelay delay iv) ∧ iv ≤ roundRetryDelay delay iv ∧
  delay ≤ roundRetryDelay delay iv ∧ (0 < delay → roundRetryDelay delay iv < delay + iv).
Proof.
  intros Hiv Hov. unfold roundRetryDelay. rewrite (bool_decide_false (iv ≤ 0)) by lia.
  case_bool_decide as Hd; [split_and!; try lia; done|].
  pose proof (Z.rem_bound_pos delay iv ltac:(lia) ltac:(lia)) as Hr.
  pose proof (Z.quot_rem' delay iv) as Hq. pose proof (Z.quot_pos delay iv ltac:(lia) ltac:(lia)) as Hp.
  set (q := Z.quot delay iv) in *. set (m := Z.rem delay iv) in *.
  case_bool_decide as H0.
  - rewrite i64_small by (unfold two63 in *; lia). split_and!; [|nia|lia|lia].
    exists (q + 1). nia.
  - assert (m = 0) as Hm by lia. assert (1 ≤ q) by nia. split_and!; [|nia|lia|lia].
    exists q. nia.
Qed.

(** C40: the retry wheel.  Its interval is between one and ten milliseconds and
    at most the initial backoff when that is in this range; a rounded delay is
    a positive multiple of the interval, not shorter than the delay asked for
    and less than one interval longer, for every delay below the overflow of a
    64-bit duration. *)
Theorem retry_delay_bounds cfg delay :
  delay + retryWheelInterval cfg < two63 →
  let interval := retryWheelInterval cfg in
  let r := roundRetryDelay delay interval in
  Millisecond ≤ interval ≤ 10 * Millisecond ∧
  (Millisecond ≤ InitialBackoff cfg ≤ 10 * Millisecond → interval = InitialBackoff cfg) ∧
  (interval | r) ∧ interval ≤ r ∧ delay ≤ r ∧ (0 < delay → r < delay + interval).
Proof.
  intros Hov. cbv zeta.
  assert (Millisecond ≤ retryWheelInterval cfg ≤ 10 * Millisecond) as Hb.
  { unfold retryWheelInterval, defaultRetryWheelInterval, minRetryWheelInterval, Millisecond.
    destruct (bool_decide_reflect (0 < InitialBackoff cfg)),
      (bool_decide_reflect (InitialBackoff cfg < 10 * 1000000)); simpl; try case_bool_decide; lia. }
  set (iv := retryWheelInterval cfg) in *. unfold Millisecond in *.
  split_and!; [lia|lia| | | | |].
  - unfold iv, retryWheelInterval, defaultRetryWheelInterval, minRetryWheelInterval, Millisecond.
    destruct (bool_decide_reflect (0 < InitialBackoff cfg)),
      (bool_decide_reflect (InitialBackoff cfg < 10 * 1000000)); simpl; try case_bool_decide; lia.
  - apply (round_spec delay iv); lia.
  - apply (round_spec delay iv); lia.
  - apply (round_spec delay iv); lia.
  - apply (round_spec delay iv); lia.
Qed.

Section retry.
Context {Tup : Type}.
Context {QT : QueueImpl tref t_size} {QR : QueueImpl (readyWriteEntry Tup) ready_size}.
Context (enum : gmap CommitPoint (list Z) → list (CommitPoint * list Z)).
Hypothesis enum_perm : ∀ m, enum m ≡ₚ map_to_list m.
Context (SetTimer : Z → Z → bool → bool).

(** A retry of exactly the entry with this offset. *)
Definition retries_entry (r : tref) (l o : Z) (re : retryEntry Tup) : Prop :=
  e_tw re = r ∧ LSN (e_write re) = l ∧ ∃ e, Entries (e_write re) = [e] ∧ Offset e = o.

(** The retry that is built for a pending offset of a write with rows. *)
Lemma retry_of_pending P F now backoff r tw (x : ErrorResponseEntry) fe :
  tw_ok P F tw → cp_LSN (point tw) = re_LSN (ere_Entry x) → re_Offset (ere_Entry x) ∈ pending tw →
  (∀ w, write tw = Some w → Entries w ≠ []) →
  ∃ re, buildRetryEntry now backoff r tw x fe = Some re ∧
    retries_entry r (re_LSN (ere_Entry x)) (re_Offset (ere_Entry x)) re.
Proof.
  intros Hok Hl Hp Hne. assert (released tw = false) as Hrel.
  { rewrite (ok_released _ _ _ Hok). apply bool_decide_eq_false. set_solver. }
  destruct (ok_write _ _ _ Hok Hrel) as (w & Hw & HL & Ho). specialize (Hne w Hw).
  assert (re_Offset (ere_Entry x) ∈ Offset <$> Entries w) as Hin.
  { apply (ok_pending _ _ _ Hok) in Hp. rewrite Ho in Hp. unfold offsets_of in Hp.
    revert Hne Hp. destruct (Entries w); [done|]. intros _ Hp. by apply elem_of_list_to_set in Hp. }
  apply GetEntryByOffset_is_Some in Hin as [e' He']. unfold buildRetryEntry, retryWrite.
  rewrite Hw. simpl. rewrite bool_decide_true by done. simpl. rewrite He'. simpl.
  eexists. split; [done|]. split; [done|]. split; [simpl; congruence|].
  exists e'. split; [done|]. by destruct (GetEntryByOffset_Some _ _ _ He').
Qed.

(** The offset is among the acknowledgements or the retries to come. *)
Definition settled (r : tref) (l o : Z) (m : gmap CommitPoint (list Z)) (rs : list (retryEntry Tup)) : Prop :=
  in_map m l o ∨ ∃ re, re ∈ rs ∧ retries_entry r l o re.

Lemma settled_ack r l o m rs cp o' : settled r l o m rs → settled r l o (addToAckMap cp o' m) rs.
Proof. intros [H|H]; [left; apply in_addToAckMap; by left|by right]. Qed.

Lemma settled_retry r l o m rs re : settled r l o m rs → settled r l o m (rs ++ [re]).
Proof. intros [H|(re' & ? & ?)]; [by left|right; exists re'; set_solver]. Qed.

(** Counting a failure keeps the pending offsets and the write of any request. *)
Lemma count_keeps e r1 now t tw1 r tw :
  tws t !! tid r1 = Some tw1 → tws t !! tid r = Some tw →
  let tw' := (getFailedEntry (re_Offset (ere_Entry e)) (Reason e) now tw1).2 in
  ∃ tw2, tws (set_tw r1 tw' t) !! tid r = Some tw2 ∧ pending tw2 = pending tw ∧ write tw2 = write tw ∧
    point tw2 = point tw ∧ (r1 = r → tw2 = tw').
Proof.
  intros Htw1 Htw. simpl. destruct (decide (tid r1 = tid r)) as [E|E].
  - rewrite E in *. rewrite Htw in Htw1. injection Htw1 as <-. rewrite lookup_insert_eq. eexists. split; [done|].
    unfold getFailedEntry. by destruct (failures tw !! _).
  - rewrite lookup_insert_ne by done. exists tw. split_and!; try done. congruence.
Qed.

Lemma process_settles P F now backoff es m rs t r tw l o :
  tinv P F t → (∀ l o, 0 ≤ F l o) → 0 < MaxBackoff (retryConfig t) →
  Forall (λ y, findTrackedWrite (re_LSN (ere_Entry y)) t = None → isAckedLSN (re_LSN (ere_Entry y)) t = true) es →
  findTrackedWrite l t = Some r → tws t !! tid r = Some tw → o ∈ pending tw →
  (∀ w, write tw = Some w → Entries w ≠ []) →
  settled r l o m rs ∨ (∃ x, x ∈ es ∧ err_at l o x) →
  match (process_entries now backoff es m rs t).2 with
  | PDone m' rs' => settled r l o m' rs'
  | PShutdown _ => True
  | PFatal => False
  end.
Proof.
  revert F m rs t tw. induction es as [|e es IH]; intros F m rs t tw Hi HF Hmb Hk Hf Htw Hp Hne Hx.
  { destruct Hx as [H|(x & Hx & _)]; [done|set_solver]. }
  apply Forall_cons in Hk as [Hke Hk]. cbn [process_entries]. cbv zeta.
  assert ((settled r l o m rs ∨ ∃ x, x ∈ es ∧ err_at l o x) ∨ err_at l o e) as Hx'.
  { destruct Hx as [H|(x & [->|Hx]%elem_of_cons & H)]; [left; by left|by right|left; right; eauto]. }
  destruct (findTrackedWrite (re_LSN (ere_Entry e)) t) as [r1|] eqn:Hf1.
  2: { rewrite (Hke eq_refl). destruct Hx' as [Hx'|[E _]]; [by eapply IH|congruence]. }
  destruct (find_ref P F t _ r1 Hi Hf1) as (_ & _ & _ & tw1 & Htw1 & _). rewrite Htw1.
  destruct (isAcknowledged tw1) eqn:Hack.
  { destruct Hx' as [Hx'|[E _]]; [by eapply IH|]. apply bool_decide_eq_true in Hack.
    assert (tw1 = tw) as -> by congruence. set_solver. }
  pose proof (count_failure P F e r1 now t tw1 Hi HF Hf1 Htw1 Hack) as Hg.
  destruct (count_keeps e r1 now t tw1 r tw Htw1 Htw) as (tw2 & Htw2 & Ep & Ew & Epo & Er).
  destruct (getFailedEntry _ _ now tw1) as [fe tw']. simpl in Htw2, Er. destruct Hg as (Hi2 & _ & _ & _).
  assert (∀ m' rs', settled r l o m' rs' ∨ (∃ x, x ∈ es ∧ err_at l o x) →
    match (process_entries now backoff es m' rs' (set_tw r1 tw' t)).2 with
    | PDone m' rs' => settled r l o m' rs' | PShutdown _ => True | PFatal => False end) as Hnext.
  { intros m' rs' Hs. apply (IH (count_first e F) m' rs' (set_tw r1 tw' t) tw2); try done.
    - intros l' o'. pose proof (count_first_le e F l' o'). specialize (HF l' o'). lia.
    - by rewrite Ep.
    - intros w. rewrite Ew. apply Hne. }
  destruct (downstreamDown _ _ _); [done|]. destruct (skipEntry _ _ _).
  { apply Hnext. destruct Hx' as [[Hs|Hx']|[<- <-]]; [left; by apply settled_ack|by right|].
    left; left. apply in_addToAckMap. by right. }
  change (retryConfig (set_tw r1 tw' t)) with (retryConfig t). rewrite bool_decide_true by done.
  destruct Hx' as [Hx'|[<- <-]].
  - destruct (buildRetryEntry _ _ _ _ _ _); apply Hnext; [|done]. destruct Hx' as [Hs|Hx']; [left; by apply settled_retry|by right].
  - assert (r1 = r) as -> by congruence. rewrite (Er eq_refl) in Htw2, Ep, Ew, Epo. rewrite Htw in Htw1. injection Htw1 as <-.
    destruct (find_ref P F t _ r Hi Hf) as (_ & Hl & _ & tw0 & Htw0 & Hpt & _). rewrite Htw in Htw0. injection Htw0 as <-.
    destruct (retry_of_pending P (count_first e F) now backoff r tw' e fe) as (re & -> & Hr);
      [eapply c_tw; [apply Hi2|exact Htw2]|unfold lsn in Hl; congruence|by rewrite Ep|by rewrite Ew|].
    apply Hnext. left; right. exists re. split; [set_solver|done].
Qed.

(** Acknowledging touches only the requests and the gauge, and pending offsets
    only go away. *)
Definition acks_only (t t' : Tracker.tracker Tup) : Prop :=
  timers t' = timers t ∧ stopping t' = stopping t ∧ wheelStopped t' = wheelStopped t ∧
  trackingQueue t' = trackingQueue t ∧ shutdownCh t' = shutdownCh t.

Lemma ack_point_only cp os t : acks_only t (ack_point cp os t).
Proof.
  rewrite ack_point_eq. destruct (findTrackedWrite (cp_LSN cp) t) as [r|]; [|done].
  destruct (tws t !! tid r); [|done]. by rewrite ack_ref_eq.
Qed.

Lemma ack_point_pending cp os t r tw :
  tws t !! tid r = Some tw →
  ∃ tw', tws (ack_point cp os t) !! tid r = Some tw' ∧ pending tw' ⊆ pending tw ∧
    (findTrackedWrite (cp_LSN cp) t = Some r → pending tw' ⊆ pending tw ∖ list_to_set os).
Proof.
  intros Htw. rewrite ack_point_eq. destruct (findTrackedWrite (cp_LSN cp) t) as [r1|] eqn:Hf; [|by exists tw].
  destruct (tws t !! tid r1) as [tw1|] eqn:Htw1.
  2: { exists tw. split_and!; [done|done|]. intros [= ->]. congruence. }
  rewrite ack_ref_eq. simpl. destruct (decide (tid r1 = tid r)) as [E|E].
  - rewrite E in *. rewrite Htw in Htw1. injection Htw1 as <-. rewrite lookup_insert_eq. eexists. split; [done|].
    unfold ack_release, Tracked.ack, release. simpl.
    match goal with |- context [if isAcknowledged ?z then _ else _] => destruct (isAcknowledged z) end;
      [destruct (released tw)|]; simpl; set_solver.
  - rewrite lookup_insert_ne by done. exists tw. split_and!; [done|done|]. congruence.
Qed.

Lemma ack_all_settles lst t r tw l o :
  findTrackedWrite l t = Some r → tws t !! tid r = Some tw →
  acks_only t (ack_all lst t) ∧ ∃ tw', tws (ack_all lst t) !! tid r = Some tw' ∧ pending tw' ⊆ pending tw ∧
    ((∃ cp os, (cp, os) ∈ lst ∧ cp_LSN cp = l ∧ o ∈ os) → o ∉ pending tw').
Proof.
  unfold ack_all. revert t tw. induction lst as [|[cp os] lst IH]; intros t tw Hf Htw; simpl.
  { split; [done|]. exists tw. split_and!; [done|done|]. intros (cp & os & H & _). by apply not_elem_of_nil in H. }
  destruct (ack_point_pending cp os t r tw Htw) as (tw1 & Htw1 & Hsub & Hgone).
  destruct (ack_point_only cp os t) as (E1 & E2 & E3 & E4 & E5).
  destruct (IH (ack_point cp os t) tw1) as ((H1 & H2 & H3 & H4 & H5) & tw' & Htw' & Hsub' & Hgone').
  { unfold findTrackedWrite in *. by rewrite E4. } { done. }
  split; [split_and!; congruence|]. exists tw'. split_and!; [done|set_solver|].
  intros (cp' & os' & [[= <- <-]|Hin]%elem_of_cons & Hl & Ho).
  - rewrite Hl in Hgone. specialize (Hgone Hf). intros H. apply Hsub', Hgone in H. set_solver.
  - apply Hgone'. eauto.
Qed.

(** Every retry gets a timer. *)
Lemma schedule_all now rs t :
  stopping t = false → (∀ k d, SetTimer k d (wheelStopped t) = true) →
  let t' := foldl (λ t e, scheduleRetry SetTimer now e t) t rs in
  tws t' = tws t ∧ shutdownCh t' = shutdownCh t ∧ ∃ new, timers t' = timers t ++ new ∧ new.*2 = rs.
Proof.
  revert t. induction rs as [|e rs IH]; intros t Hst HST; simpl.
  { split_and!; [done|done|]. exists []. by rewrite app_nil_r. }
  assert (∃ k, tws (scheduleRetry SetTimer now e t) = tws t ∧
    shutdownCh (scheduleRetry SetTimer now e t) = shutdownCh t ∧ stopping (scheduleRetry SetTimer now e t) = false ∧
    wheelStopped (scheduleRetry SetTimer now e t) = wheelStopped t ∧
    timers (scheduleRetry SetTimer now e t) = timers t ++ [(k, e)]) as (k & E1 & E2 & E3 & E4 & E5).
  { unfold scheduleRetry. rewrite Hst, HST. simpl. by eexists. }
  destruct (IH (scheduleRetry SetTimer now e t)) as (H1 & H2 & new & H3 & H4); [done|by rewrite E4|].
  rewrite H1, H2, E1, E2. split_and!; [done|done|]. exists ((k, e) :: new).
  rewrite H3, E5, <- (assoc_L (++)), fmap_cons, H4. done.
Qed.

(** C8: a failed offset is never forgotten.  While the tracker is not stopping,
    with a backoff configured and a wheel that accepts timers, let an error
    response come whose writes the tracker knows (it tracks them or has
    acknowledged them).  For each entry of the response, with whatever others
    before or behind it, that names a pending offset of a tracked write with
    rows: the response ends in a coordinated shutdown; or the offset is given
    up and no longer pending; or a timer is set for the entry with that
    offset. *)
Theorem failed_offset_not_forgotten cfg tr (s : sys (Tup := Tup)) now backoff resp x r tw :
  run enum SetTimer cfg tr s → stopping (trk s) = false → 0 < MaxBackoff cfg →
  (∀ k d, SetTimer k d (wheelStopped (trk s)) = true) →
  Forall (λ y, findTrackedWrite (re_LSN (ere_Entry y)) (trk s) = None →
               isAckedLSN (re_LSN (ere_Entry y)) (trk s) = true) (er_Entries resp) →
  x ∈ er_Entries resp → findTrackedWrite (re_LSN (ere_Entry x)) (trk s) = Some r →
  tws (trk s) !! tid r = Some tw → re_Offset (ere_Entry x) ∈ pending tw →
  (∀ w, write tw = Some w → Entries w ≠ []) →
  ∃ t', OnError enum SetTimer now backoff (Some resp) (trk s) = Ok t' ∧
    ((∃ err, shutdownCh t' = shutdownCh (trk s) ++ [err]) ∨
     (∃ tw', tws t' !! tid r = Some tw' ∧ re_Offset (ere_Entry x) ∉ pending tw') ∨
     (∃ new te, timers t' = timers (trk s) ++ new ∧ te ∈ new ∧
        retries_entry r (re_LSN (ere_Entry x)) (re_Offset (ere_Entry x)) te.2)).
Proof.
  intros Hrun Hst Hmb HST Hk Hx Hf Htw Hp Hne.
  pose proof (run_sinv enum SetTimer enum_perm _ _ _ Hrun) as Hs. pose proof (s_tinv _ _ _ Hs) as Hi.
  pose proof (s_cfg _ _ _ Hs) as Hcfg. rewrite <- Hcfg in Hmb.
  pose proof (process_settles _ _ now backoff (er_Entries resp) ∅ [] (trk s) r tw (re_LSN (ere_Entry x))
    (re_Offset (ere_Entry x)) Hi (fail_count_nonneg tr) Hmb Hk Hf Htw Hp Hne) as Hset.
  pose proof (process_entries_inv _ now backoff (er_Entries resp) _ ∅ [] (trk s) Hi (fail_count_nonneg tr) (Forall_nil_2 _))
    as (_ & [Hfr Hv] & _).
  assert (er_Entries resp ≠ []) as Hnil by (intros E; rewrite E in Hx; by apply not_elem_of_nil in Hx).
  unfold OnError, processErrorResponse. rewrite Hst.
  destruct (process_entries now backoff (er_Entries resp) ∅ [] (trk s)) as [t1 out]. simpl in Hfr, Hv, Hset.
  destruct (er_Entries resp) as [|y ys]; [done|]. destruct out as [m rs|err|].
  - assert (∃ tw1, tws t1 !! tid r = Some tw1) as [tw1 Htw1].
    { apply (f_equal (λ m, m !! tid r)) in Hv. rewrite !lookup_fmap, Htw in Hv. simpl in Hv.
      apply fmap_Some in Hv as (tw1 & ? & _). by exists tw1. }
    assert (findTrackedWrite (re_LSN (ere_Entry x)) t1 = Some r) as Hf1 by (rewrite Hfr; exact Hf).
    destruct (ack_all_settles (enum m) t1 r tw1 _ (re_Offset (ere_Entry x)) Hf1 Htw1)
      as ((E1 & E2 & E3 & _ & E5) & tw' & Htw' & _ & Hgone).
    destruct (schedule_all now rs (ack_all (enum m) t1)) as (S1 & _ & new & S3 & S4).
    { rewrite E2, Hfr. exact Hst. } { rewrite E3, Hfr. exact HST. }
    eexists. split; [done|]. right. destruct Hset as [(cp & os & Hm & Hl & Ho)|(re & Hin & Hr)]; [by right; exists x|left|right].
    + exists tw'. rewrite S1. split; [done|]. apply Hgone. exists cp, os. split_and!; [|done|done].
      rewrite enum_perm. by apply elem_of_map_to_list.
    + rewrite <- S4 in Hin. apply list_elem_of_fmap in Hin as (te & -> & Hin). exists new, te.
      rewrite S3, E1, Hfr. done.
  - eexists. split; [done|]. left. exists err. simpl. rewrite Hfr. done.
  - destruct Hset. right. by exists x.
Qed.
End retry.
End System.

(** ** A concrete run *)

Module Samples.
Import System.

Definition tn : TableName := MakeTableName "public" "users".
Definition entry (o : Z) : WriteEntry unit := mkWE None None "7" Insert tn o.
Definition write10 : WriteRequest unit := mkWR [entry 0; entry 1] 10 7 None false.
Definition answer (o : Z) : ResponseEntry := mkRE "7" tn 10 7 o.
Definition soft : WriterError := mkWErr "timeout" true false.
Definition cfg : RetryConfig :=
  mkRetry 3 0 Millisecond (SpecFloat.S754_zero false) (SpecFloat.S754_zero false) Second.
Definition enum (m : gmap CommitPoint (list Z)) : list (CommitPoint * list Z) := map_to_list m.
Definition accepts (_ _ : Z) (stopped : bool) : bool := negb stopped.
Definition fail_at (o : Z) : ErrorResponseEntry := mkERE (answer o) soft.

Notation QTl := (linked_queue t_size).
Notation QRl := (linked_queue (ready_size (Tup := unit))).
Notation event := (event (Tup := unit)).
Notation sys := (sys (Tup := unit) (QT := QTl) (QR := QRl)).

Definition exec (es : list event) (s : sys) : option sys :=
  foldl (λ os e, s ← os; step enum accepts e s) (Some s) es.

Lemma exec_snoc es e s : exec (es ++ [e]) s = (s' ← exec es s; step enum accepts e s').
Proof. unfold exec. by rewrite foldl_app. Qed.

Lemma exec_run es s :
  exec es (init cfg) = Some s → Forall event_ok es → run enum accepts cfg es s.
Proof.
  revert s. induction es as [|e es IH] using rev_ind; intros s.
  - intros [= <-] _. constructor.
  - rewrite exec_snoc, Forall_app, Forall_singleton. intros (s' & H1 & H2)%bind_Some [H3 H4].
    eapply run_step; [by apply IH|done|done].
Qed.

(** A write with two entries: one error and one retry, then both confirmed. *)
Definition one : list event := [EAdd write10].
Definition whole : list event :=
  [EAdd write10; EPop; EDec; ESuccess (mkResp [answer 0] 10);
   EError 100 (λ _, 5) (mkErrResp [fail_at 1]); EAcks 0; ESchedule 100 0; ETimer 0; EPush 0; EPop;
   ESuccess (mkResp [answer 1] 10)].

Definition after (es : list event) : sys := default (init cfg) (exec es (init cfg)).

Example whole_runs :
  (λ s, (maxAcknowledged (trk s), writeGauge (trk s), retryGauge (trk s), taken s)) <$> exec whole (init cfg)
    = Some (mkCP 10 7, 1, 0, 1).
Proof. vm_compute. reflexivity. Qed.

Definition runs (es : list event) : bool := match exec es (init cfg) with Some _ => true | None => false end.

Lemma after_run es :
  runs es = true → Forall event_ok es → run enum accepts cfg es (after es).
Proof.
  unfold runs, after. destruct (exec es (init cfg)) as [s|] eqn:Hs; [|done]. intros _ Hok. by apply exec_run.
Qed.

Lemma one_run : run enum accepts cfg one (after one).
Proof. apply after_run; [vm_compute; reflexivity|]. by repeat constructor. Qed.

Lemma whole_run : run enum accepts cfg whole (after whole).
Proof. apply after_run; [vm_compute; reflexivity|]. by repeat constructor. Qed.

Lemma enum_ok m : enum m ≡ₚ map_to_list m.
Proof. reflexivity. Qed.

(** The request of [write10] after the whole run and after the first step. *)
Definition tw_at (es : list event) : trackedWriteRequest unit :=
  default (newTrackedWriteRequest write10) (tws (trk (after es)) !! 0%nat).

Lemma acknowledged_is_delivered_witness : justified cfg whole 10 1.
Proof.
  apply (acknowledged_is_delivered enum accepts enum_ok cfg whole (after whole) 0%nat (tw_at whole) 1 whole_run);
    [vm_compute; reflexivity|vm_compute; reflexivity|vm_compute; discriminate|].
  apply (bool_decide_unpack _). vm_compute. reflexivity.
Defined.

Lemma tracker_invariant_witness : releases (tw_at whole) = 1%nat.
Proof.
  destruct (tracker_invariant enum accepts enum_ok cfg whole (after whole) whole_run) as (_ & _ & H).
  destruct (H 0%nat (tw_at whole)) as (_ & _ & Hr & _); [vm_compute; reflexivity|].
  rewrite Hr. vm_compute. reflexivity.
Defined.

Lemma max_acknowledged_is_prefix_witness :
  (MaxAcknowledged (trk (after one))).2 = mkCP 0 0 ∧
  ∃ r, head (Spec.items (q_abs (trackingQueue (MaxAcknowledged (trk (after one))).1))) = Some r ∧
       ¬ acked_ref (trk (after one)) r.
Proof.
  split; [vm_compute; reflexivity|].
  assert (H := max_acknowledged_is_prefix enum accepts enum_ok cfg one (after one) one_run
                 ltac:(vm_compute; reflexivity)).
  assert (is_Some (head (Spec.items (q_abs (trackingQueue (MaxAcknowledged (trk (after one))).1))))) as [r Hr]
    by (vm_compute; eexists; reflexivity).
  cbv zeta in H. destruct (MaxAcknowledged (trk (after one))) as [t' cp].
  destruct H as (done & rest & _ & <- & _ & H & _). exists r. split; [exact Hr|]. exact (H r Hr).
Defined.

Lemma pop_blocks_only_when_drained_witness :
  (PopReady 0 (trk (init cfg : sys))).2 = Spec.PopBlocked ∧
  ¬ ((PopReady 0 (trk (init cfg : sys))).2 = Spec.PopStopped).
Proof.
  split; [vm_compute; reflexivity|].
  destruct (PopReady 0 (trk (init cfg : sys))) as [t' p] eqn:E.
  destruct (pop_blocks_only_when_drained enum accepts enum_ok cfg [] (init cfg) t' p (run_init _ _ _) E) as [H _].
  intros Hp. apply H in Hp. vm_compute in Hp. discriminate Hp.
Defined.

Lemma gauges_exact_witness : writeGauge (trk (after whole)) = 1.
Proof.
  destruct (gauges_exact enum accepts enum_ok cfg whole (after whole) whole_run) as [_ H].
  rewrite H. vm_compute. reflexivity.
Defined.

Lemma known_errors_not_fatal_witness :
  (processErrorResponse 0 (λ _, 1) (mkErrResp [fail_at 0]) (trk (after one))).2 ≠ PFatal.
Proof.
  apply (known_errors_not_fatal enum accepts enum_ok cfg one (after one) 0 (λ _, 1) (mkErrResp [fail_at 0]) one_run).
  constructor; [|constructor]. exists 0%nat, (tw_at one).
  split; [vm_compute; reflexivity|split; [vm_compute; reflexivity|vm_compute; reflexivity]].
Defined.

Lemma max_acknowledged_monotone_witness :
  ∃ s', step enum accepts EMax (after one) = Some s' ∧
        cp_LSN (maxAcknowledged (trk (after one))) ≤ cp_LSN (maxAcknowledged (trk s')).
Proof.
  eexists. split; [reflexivity|].
  apply (max_acknowledged_monotone enum accepts enum_ok cfg one (after one) EMax _ one_run). reflexivity.
Defined.

Lemma success_order_irrelevant_witness :
  OnSuccess enum (mkResp [answer 0] 10) (trk (after one)) =
  OnSuccess (λ m, reverse (enum m)) (mkResp [answer 0] 10) (trk (after one)).
Proof.
  apply (success_order_irrelevant enum (λ m, reverse (enum m)) accepts cfg one (after one) (mkResp [answer 0] 10)).
  - intros m. reflexivity.
  - intros m. apply reverse_Permutation.
  - exact one_run.
Defined.

Lemma retry_delay_bounds_witness :
  roundRetryDelay (15 * 100000) (retryWheelInterval cfg) < 15 * 100000 + Millisecond.
Proof.
  apply (retry_delay_bounds cfg (15 * 100000)); vm_compute; reflexivity.
Defined.

(** Both offsets of the write fail; the second is looked at. *)
Lemma failed_offset_not_forgotten_witness :
  ∃ t', OnError enum accepts 0 (λ _, 5) (Some (mkErrResp [fail_at 0; fail_at 1])) (trk (after one)) = Ok t'.
Proof.
  destruct (failed_offset_not_forgotten enum enum_ok accepts cfg one (after one) 0 (λ _, 5)
    (mkErrResp [fail_at 0; fail_at 1]) (fail_at 1) (mkRef 0 (mkCP 10 7) 2) (tw_at one) one_run) as (t' & Ht' & _).
  - vm_compute. reflexivity.
  - vm_compute. reflexivity.
  - intros k d. vm_compute. reflexivity.
  - repeat constructor; vm_compute; discriminate.
  - right. left.
  - vm_compute. reflexivity.
  - vm_compute. reflexivity.
  - apply (bool_decide_unpack _). vm_compute. reflexivity.
  - intros w Hw Hnil. assert (write (tw_at one) = Some write10) as E by (vm_compute; reflexivity).
    rewrite E in Hw. injection Hw as <-. discriminate Hnil.
  - exists t'. exact Ht'.
Defined.
End Samples.
