(* ===== verification/BufferedListener.v ===== *)
(** * The buffering listener (src/pg2buffer/buffered_listener.go)

    The listener receives the decoded messages of the replication stream.  It
    keeps the changes of every open transaction in a cache, one entry per row,
    and hands the whole transaction to the LSN tracker when it commits.

    - [TxList]: the cache of one transaction, a linked list with an index;
    - [Listener]: the listener's state and one definition per handler;
    - the tables the listener knows are merged from the configuration and the
      publication ([mergeConfigAndPubTables], [getReadIndexes]).

    The tracker is used through the class [WriteSink], so that the handlers run
    both on the LSN tracker and on a list that records the requests.  Tuples
    are ordered maps of decoded values.  The database's answers, the printing
    of key values ([%v]) and the iteration order of Go maps are arguments. *)

From stdpp Require Import base numbers list gmap strings pretty.
From S2P Require Import Prelude GoStrings OrderedMap PgSchema Decode PgWal.

(** What the listener asks of the tracker: accept a write request. *)
Class WriteSink (Tup T : Type) := sink_add : WriteRequest Tup → T → T.

(** The recording sink: the requests in the order they were added. *)
#[global] Instance record_sink Tup : WriteSink Tup (list (WriteRequest Tup)) := λ w ws, ws ++ [w].

Section entries.
Context {Tup : Type}.
Implicit Types e : WriteEntry Tup.

Definition with_Tuple (data : option Tup) e : WriteEntry Tup :=
  mkWE data (PrevTuple e) (we_PK e) (Kind e) (we_Table e) (Offset e).
Definition with_Offset (o : Z) e : WriteEntry Tup :=
  mkWE (Tuple e) (PrevTuple e) (we_PK e) (Kind e) (we_Table e) o.
End entries.

(** ** The rows of one transaction *)

Module TxList.
Section txlist.
Context {Tup : Type}.
Notation WriteEntry := (WriteEntry Tup).

(** The elements of the list have identities, to which the index refers. *)
Record txList := mkTL { entries : list (nat * WriteEntry); keys : gmap string nat; next_el : nat }.

Definition newTxList : txList := mkTL [] ∅ 0.

Definition element (id : nat) (tl : txList) : option WriteEntry :=
  snd <$> List.find (λ p, bool_decide (p.1 = id)) (entries tl).

Definition Get (key : string) (tl : txList) : option WriteEntry :=
  id ← keys tl !! key; element id tl.

Definition Add (txEntryKey : string) (entry : WriteEntry) (tl : txList) : txList :=
  mkTL (entries tl ++ [(next_el tl, entry)]) (<[txEntryKey := next_el tl]> (keys tl)) (S (next_el tl)).

(** [existingEntry.Tuple = data] through the pointer [Get] returned. *)
Definition set_tuple (key : string) (data : option Tup) (tl : txList) : txList :=
  match keys tl !! key with
  | None => tl
  | Some id => mkTL ((λ p, if bool_decide (p.1 = id) then (id, with_Tuple data p.2) else p) <$> entries tl)
                    (keys tl) (next_el tl)
  end.

(** [entries.MoveToBack(el)] *)
Definition move_to_back (id : nat) (l : list (nat * WriteEntry)) : list (nat * WriteEntry) :=
  match List.find (λ p, bool_decide (p.1 = id)) l with
  | None => l
  | Some p => filter (λ q, q.1 ≠ id) l ++ [p]
  end.
Definition MoveKeyToEnd (key : string) (tl : txList) : txList :=
  match keys tl !! key with
  | None => tl
  | Some id => mkTL (move_to_back id (entries tl)) (keys tl) (next_el tl)
  end.

(** The receiver may be nil. *)
Definition Len (tl : option txList) : Z :=
  match tl with None => 0 | Some tl => Z.of_nat (length (entries tl)) end.
End txlist.
Arguments txList : clear implicits.
End TxList.

(** ** Messages and state *)

Notation Tup := (OMap.OrderedMap goval).

Record RelationMessage := mkRel {
  rel_ID : Z; Namespace : string; RelationName : string; rel_Columns : list RelationMessageColumn }.

Record relationVersion := mkRV { rv_version : Z; rel : RelationMessage; rv_keyMap : KeyMap.KeyMap }.

Record PGTableWithConfig := mkPTWC { twc_Table : option Table; Cfg : option TableConfig }.

Inductive PgNumericMode := PgNumericModeFloat | PgNumericModeString | PgNumericModeOther (n : Z).
Definition convertNumericMode (mode : PgNumericMode) : NumericEncoding :=
  match mode with
  | PgNumericModeFloat => NumericEncodingFloat
  | PgNumericModeString => NumericEncodingString
  | PgNumericModeOther _ => NumericEncodingDefault
  end.

Record ListenerOptions := mkLO { Publication : string; NumericMode : NumericEncoding; AppName : string }.
Definition NewListenerOptions (publication : string) (numMode : PgNumericMode) (appName : string) : ListenerOptions :=
  mkLO publication (convertNumericMode numMode) appName.

Record TxCommitTimeOptions := mkTCO { Save : bool; tco_Name : string }.

(** The counters of src/pg2buffer/stats/buffered_listener_stats.go that the
    handlers touch. *)
Record BufferedListenerStats := mkStats {
  TxCount : Z; TxStreamedCount : Z;
  insertCount : gmap string Z; updateCount : gmap string Z; deleteCount : gmap string Z;
  snapshotReadCount : gmap string Z;
  TxLastProcessed : Z; LSNLastProcessed : Z }.

Definition NewStats (names : list string) : BufferedListenerStats :=
  let zero := list_to_map ((λ n, (n, 0)) <$> names) in
  mkStats 0 0 zero zero zero zero 0 0.

Definition counter_add (key : string) (v : Z) (m : gmap string Z) : gmap string Z :=
  <[key := default 0 (m !! key) + v]> m.
Definition InsertInc (n : string) (s : BufferedListenerStats) : BufferedListenerStats :=
  mkStats (TxCount s) (TxStreamedCount s) (counter_add n 1 (insertCount s)) (updateCount s) (deleteCount s)
          (snapshotReadCount s) (TxLastProcessed s) (LSNLastProcessed s).
Definition UpdateInc (n : string) (s : BufferedListenerStats) : BufferedListenerStats :=
  mkStats (TxCount s) (TxStreamedCount s) (insertCount s) (counter_add n 1 (updateCount s)) (deleteCount s)
          (snapshotReadCount s) (TxLastProcessed s) (LSNLastProcessed s).
Definition DeleteInc (n : string) (s : BufferedListenerStats) : BufferedListenerStats :=
  mkStats (TxCount s) (TxStreamedCount s) (insertCount s) (updateCount s) (counter_add n 1 (deleteCount s))
          (snapshotReadCount s) (TxLastProcessed s) (LSNLastProcessed s).
Definition SnapshotReadInc (n : string) (v : Z) (s : BufferedListenerStats) : BufferedListenerStats :=
  if bool_decide (0 < v)
  then mkStats (TxCount s) (TxStreamedCount s) (insertCount s) (updateCount s) (deleteCount s)
               (counter_add n v (snapshotReadCount s)) (TxLastProcessed s) (LSNLastProcessed s)
  else s.
(** The three statements at the top of [sendToLSNTracker]. *)
Definition tx_processed (xid lsn : Z) (s : BufferedListenerStats) : BufferedListenerStats :=
  mkStats (TxCount s + 1) (TxStreamedCount s) (insertCount s) (updateCount s) (deleteCount s)
          (snapshotReadCount s) xid lsn.
Definition streamed_inc (s : BufferedListenerStats) : BufferedListenerStats :=
  mkStats (TxCount s) (TxStreamedCount s + 1) (insertCount s) (updateCount s) (deleteCount s)
          (snapshotReadCount s) (TxLastProcessed s) (LSNLastProcessed s).

(** The database's answers when the publication is read. *)
Record dbAnswer := mkDB {
  db_version : goerr + Z;
  db_pub : pubAnswer;
  db_rows12 : goerr + list pubTableColumn;
  db_rows15 : goerr + list nullableRow }.

(** The messages of the replication stream (V2 of the protocol), with the fields
    the listener looks at; of an ordinary commit that is the LSN of its end. *)
Inductive message :=
| BeginMessage (Xid : Z)
| CommitMessage (TransactionEndLSN : Z) (CommitTime : Z)
| StreamStart (Xid : Z)
| StreamStop
| StreamCommit (Xid CommitLSN : Z) (CommitTime : Z)
| StreamAbort (Xid SubXid : Z)
| InsertMessage (Xid RelationID : Z) (Tuple : option (list TupleDataColumn))
| UpdateMessage (Xid RelationID : Z) (OldTuple NewTuple : option (list TupleDataColumn))
| DeleteMessage (Xid RelationID : Z) (OldTuple : option (list TupleDataColumn))
| LogicalDecodingMessage (LSN : Z) (Transactional : bool) (Prefix Content : string)
| TruncateMessage (Xid : Z)
| RelationMsg (r : RelationMessage) (ans : dbAnswer)
| OriginMessage
| TypeMessage.

Definition MsgHeartbeat : string := "heartbeat".

Module Listener.
Import TxList.

Section listener.
Context {T : Type} `{!WriteSink Tup T}.
(** The codecs of pgx; the printing of a key value, [None] for a missing one;
    the order in which a map of columns or of tables is ranged over. *)
Context (typeMap : Z → option (string → goerr + goval)).
Context (fmtv : option goval → string).
Context (colOrder : gmap string Column → list Column).
Context (tableOrder : gmap string Table → list Table).
(** The listener's options and those of its writer. *)
Context (opts : ListenerOptions) (txOpts : TxCommitTimeOptions).

Record listener := mkL {
  txCache : gmap Z (txList Tup);
  relations : gmap Z relationVersion;
  tables_ : gmap string PGTableWithConfig;
  arena : Arena.arena;
  relVersion : Z;
  currentXID : Z;
  lsnTracker : T;
  stats : BufferedListenerStats;
}.

Definition NewListener (configTables : gmap string TableConfig) (trk : T) : listener :=
  mkL ∅ ∅ ((λ tc, mkPTWC None (Some tc)) <$> configTables) Arena.NewArena 0 0 trk
      (NewStats (map_to_list configTables).*1).

Definition with_txCache v l :=
  mkL v (relations l) (tables_ l) (arena l) (relVersion l) (currentXID l) (lsnTracker l) (stats l).
Definition with_tables v l :=
  mkL (txCache l) (relations l) v (arena l) (relVersion l) (currentXID l) (lsnTracker l) (stats l).
Definition with_relations v a n l :=
  mkL (txCache l) v (tables_ l) a n (currentXID l) (lsnTracker l) (stats l).
Definition with_currentXID v l :=
  mkL (txCache l) (relations l) (tables_ l) (arena l) (relVersion l) v (lsnTracker l) (stats l).
Definition with_lsnTracker v l :=
  mkL (txCache l) (relations l) (tables_ l) (arena l) (relVersion l) (currentXID l) v (stats l).
Definition with_stats v l :=
  mkL (txCache l) (relations l) (tables_ l) (arena l) (relVersion l) (currentXID l) (lsnTracker l) v.

Definition PluginArguments (ver : goerr + Z) (pubName : string) : res (list string) :=
  match ver with
  | inl err => Err err
  | inr ver =>
      if bool_decide (14 ≤ ver)
      then Ok ["proto_version '2'"; "publication_names '" +:+ pubName +:+ "'"; "messages 'true'"; "streaming 'true'"]
      else Ok ["proto_version '1'"; "publication_names '" +:+ pubName +:+ "'"]
  end.

(** *** Tables *)

Definition getTable (tableKey : TableName) l : option PGTableWithConfig := tables_ l !! FullName tableKey.

Definition GetTable (tableName : TableName) l : option Table :=
  tn ← tables_ l !! FullName tableName; twc_Table tn.

Definition GetPubTables l : gmap string Table := omap twc_Table (tables_ l).

(** For every table, its full name with its columns' names; a table that is
    not set yet is a nil dereference. *)
Definition GetPubTableColumns l : res (gmap string (gset string)) :=
  if bool_decide (map_Forall (λ _ t, is_Some (twc_Table t)) (tables_ l))
  then Ok (list_to_map (omap (λ t, (λ t, (FullName (t_Name t), dom (Columns t))) <$> twc_Table t)
                             (map_to_list (tables_ l)).*2))
  else Panic "nil dereference".

Definition GetTableOption (table : TableName) (option : string) l : string * bool :=
  match getTable table l with
  | None => (EmptyString, false)
  | Some t => match Cfg t with
              | None => (EmptyString, false)
              | Some c => (Option_ c option, true)
              end
  end.

(** The two loops of [mergeConfigAndPubTable] over the configured columns. *)
Fixpoint missing_column (cols : list string) (table : Table) : option string :=
  match cols with
  | [] => None
  | c :: r => if bool_decide (c = "all") then missing_column r table
              else match Columns table !! c with None => Some c | Some _ => missing_column r table end
  end.
Fixpoint merged_columns (cols : list string) (table : Table) (m : gmap string Column) : gmap string Column :=
  match cols with
  | [] => m
  | c :: r => merged_columns r table
                (match Columns table !! c with Some pc => <[col_Name pc := pc]> m | None => m end)
  end.

Definition mergeConfigAndPubTable (table : Table) (tableConfig : TableConfig) : res Table :=
  match missing_column (tc_Columns tableConfig) table with
  | Some c => Err (GoErr ("config for table " +:+ FullName (t_Name table) +:+ " has column " +:+ c +:+
                          " which was not found in the publication. " +:+
                          "make sure app configuration contains correct column names"))
  | None =>
      if AllColumns tableConfig then Ok table
      else Ok (WithColumns (merged_columns (tc_Columns tableConfig) table ∅) table)
  end.

Fixpoint merge_tables (pub : list Table) (m : gmap string PGTableWithConfig) : res (gmap string PGTableWithConfig) :=
  match pub with
  | [] => Ok m
  | pubTable :: r =>
      let key := FullName (t_Name pubTable) in
      match m !! key with
      | None => merge_tables r (<[key := mkPTWC (Some pubTable) None]> m)
      | Some twc =>
          match Cfg twc with
          | None => merge_tables r m
          | Some cfg =>
              match mergeConfigAndPubTable pubTable cfg with
              | Err err => Err (GoWrap ("failed to merge config and publication table " +:+ key) err)
              | res => t ← res; merge_tables r (<[key := mkPTWC (Some t) (Some cfg)]> m)
              end
          end
      end
  end.

(** The names of the tables that are not in the publication. *)
Definition unpublished (m : gmap string PGTableWithConfig) : list string :=
  (filter (λ p, twc_Table p.2 = None) (map_to_list m)).*1.

Fixpoint join_missing (names : list string) (err : option goerr) : option goerr :=
  match names with
  | [] => err
  | n :: r =>
      let e := GoErr ("table " +:+ n +:+ " was not found in publication") in
      join_missing r (Some (match err with None => e | Some err => GoJoin err e end))
  end.

Definition mergeConfigAndPubTables (pubTables : gmap string Table) l : res listener :=
  m ← merge_tables (tableOrder pubTables) (tables_ l);
  match join_missing (unpublished m) None with
  | Some err => Err err
  | None => Ok (with_tables m l)
  end.

Definition isPubNotFound (e : goerr) : bool :=
  match e with GoWrap msg _ => bool_decide (msg = "publication not found") | _ => false end.

Definition LoadPubTables (ans : dbAnswer) l : res listener :=
  match db_version ans with
  | inl err => Err (GoWrap "failed to load publication tables" err)
  | inr ver =>
      match ReadPubTables EqualFold (db_pub ans) (db_rows12 ans) (db_rows15 ans) (Publication opts) ver with
      | Err err => if isPubNotFound err then Err (GoErr ("publication " +:+ Publication opts +:+ " not found"))
                   else Err (GoWrap "failed to read publication tables" err)
      | r => ts ← r; mergeConfigAndPubTables ts.1 l
      end
  end.

(** The positions of the columns the table has. *)
Fixpoint read_positions (i : Z) (columns : list RelationMessageColumn) (t : option Table) : res (list Z) :=
  match columns with
  | [] => Ok []
  | col :: r =>
      match t with
      | None => Panic "nil dereference"
      | Some tab =>
          rest ← read_positions (i + 1) r t;
          Ok (if bool_decide (is_Some (Columns tab !! rmc_Name col)) then i :: rest else rest)
      end
  end.

Definition getReadIndexes (table : TableName) (columns : list RelationMessageColumn) l : res ReadTupleConfig :=
  let enc := mkEnc BinaryEncodingBase64 (NumericMode opts) in
  let cfg := mkRTC None true enc in
  match getTable table l with
  | None => Ok cfg
  | Some twc =>
      if match Cfg twc with Some c => AllColumns c | None => false end then Ok cfg
      else cols ← read_positions 0 columns (twc_Table twc); Ok (mkRTC (Some cols) false enc)
  end.

(** *** Changes *)

Definition xidFromMsgOrCurrent (xid : Z) l : Z := if bool_decide (xid = 0) then currentXID l else xid.

(** The value of a key column: [tr.Get(col.Name)]. *)
Definition tuple_get (t : Tup) (k : string) : option goval :=
  match OMap.Get VNil k t with Ok (v, true) => Some v | _ => None end.

(** [CreatePK(pgTable.Table, data)]: a nil tuple is dereferenced when there is
    a key column to read. *)
Definition create_key (table : Table) (data : option Tup) : res string :=
  match data, colOrder (PK table) with
  | None, _ :: _ => Panic "nil dereference"
  | None, [] => Ok EmptyString
  | Some row, order => Ok (CreatePK fmtv order (tuple_get row))
  end.

Definition appendToTxCache (xid : Z) (rel : RelationMessage) (kind : OpKind)
    (getData getPrevData : TableName → res (option Tup)) l : res listener :=
  let tableNameKey := MakeTableName (Namespace rel) (RelationName rel) in
  let pgTable := getTable tableNameKey l in
  data ← getData tableNameKey;
  prevData ← getPrevData tableNameKey;
  match pgTable ≫= twc_Table with
  | None => Panic "nil dereference"
  | Some table =>
      primaryKey ← create_key table data;
      let txEntries := default newTxList (txCache l !! xid) in
      let txEntryKey := FullName (t_Name table) +:+ ":" +:+ primaryKey in
      let txEntries :=
        match Get txEntryKey txEntries with
        | Some _ => MoveKeyToEnd txEntryKey (set_tuple txEntryKey data txEntries)
        | None => Add txEntryKey (mkWE data prevData primaryKey kind (t_Name table) 0) txEntries
        end in
      Ok (with_txCache (<[xid := txEntries]> (txCache l)) l)
  end.

Definition ErrRelationNotFound : string := "relation not found".

(** [ReadTuple] as the three handlers call it. *)
Definition read_row (rv : relationVersion) (t : option (list TupleDataColumn)) l (tableKey : TableName) : res (option Tup) :=
  cfg ← getReadIndexes tableKey (rel_Columns (rel rv)) l;
  ReadTuple typeMap t (rel_Columns (rel rv)) cfg (Some (rv_keyMap rv)).

Definition find_relation (id : Z) l : res relationVersion :=
  match relations l !! id with
  | Some rv => Ok rv
  | None => Err (GoErr (ErrRelationNotFound +:+ ": " +:+ pretty id))
  end.

Definition OnInsert (Xid RelationID : Z) (tuple : option (list TupleDataColumn)) l : res listener :=
  let xid := xidFromMsgOrCurrent Xid l in
  rv ← find_relation RelationID l;
  appendToTxCache xid (rel rv) Insert (read_row rv tuple l) (λ _, Ok None) l.

Definition OnUpdate (Xid RelationID : Z) (OldTuple NewTuple : option (list TupleDataColumn)) l : res listener :=
  let xid := xidFromMsgOrCurrent Xid l in
  rv ← find_relation RelationID l;
  appendToTxCache xid (rel rv) Update (read_row rv NewTuple l) (read_row rv OldTuple l) l.

Definition OnDelete (Xid RelationID : Z) (OldTuple : option (list TupleDataColumn)) l : res listener :=
  let xid := xidFromMsgOrCurrent Xid l in
  rv ← find_relation RelationID l;
  appendToTxCache xid (rel rv) Delete (read_row rv OldTuple l) (λ _, Ok None) l.

(** *** Transactions *)

Definition sendWALRequestToLSNTracker (req : WriteRequest Tup) l : listener :=
  with_lsnTracker (sink_add req (lsnTracker l)) l.

(** The loop of [sendToLSNTracker]: the entries with their offsets, and the
    counters.  (A transaction has fewer than 2^32 rows.) *)
Fixpoint number_entries (offset : Z) (es : list (WriteEntry Tup)) (st : BufferedListenerStats)
    : res (list (WriteEntry Tup) * BufferedListenerStats) :=
  match es with
  | [] => Ok ([], st)
  | entry :: r =>
      st ← match Kind entry with
           | Insert => Ok (InsertInc (FullName (we_Table entry)) st)
           | Update => Ok (UpdateInc (FullName (we_Table entry)) st)
           | Delete => Ok (DeleteInc (FullName (we_Table entry)) st)
           | SnapshotRead => Fatal "snapshot read is not supposed to be sent to LSN tracker. Report the issue to the support"
           end;
      '(rest, st) ← number_entries (u32 (offset + 1)) r st;
      Ok (with_Offset offset entry :: rest, st)
  end.

Definition sendToLSNTracker (txl : option (txList Tup)) (lsn xid commitTime : Z) l : res listener :=
  let l := with_stats (tx_processed xid lsn (stats l)) l in
  if bool_decide (0 < Len txl) then
    '(es, st) ← number_entries 0 (from_option entries [] txl).*2 (stats l);
    Ok (sendWALRequestToLSNTracker (mkWR es lsn xid (Some commitTime) false) (with_stats st l))
  else Ok (sendWALRequestToLSNTracker (mkWR [] lsn xid (Some commitTime) false) l).

Definition OnTxBegin (Xid : Z) l : res listener := Ok (with_currentXID Xid l).

Definition OnTxCommit (TransactionEndLSN CommitTime : Z) l : res listener :=
  if bool_decide (0 < currentXID l) then
    let xid := currentXID l in
    l ← sendToLSNTracker (txCache l !! xid) TransactionEndLSN xid CommitTime l;
    Ok (with_currentXID 0 (with_txCache (delete xid (txCache l)) l))
  else Ok l.

Definition OnStreamStart (Xid : Z) l : res listener := Ok l.
Definition OnStreamStop l : res listener := Ok l.

Definition OnStreamCommit (Xid CommitLSN CommitTime : Z) l : res listener :=
  l ← sendToLSNTracker (txCache l !! Xid) CommitLSN Xid CommitTime l;
  let l := with_txCache (delete Xid (txCache l)) l in
  Ok (with_stats (streamed_inc (stats l)) l).

Definition OnStreamAbort (Xid : Z) l : res listener := Ok (with_txCache (delete Xid (txCache l)) l).

Definition OnLogicalDecodingMessage (LSN : Z) (Transactional : bool) (Prefix Content : string) l : res listener :=
  if Transactional && EqualFold Prefix (AppName opts) && negb (bool_decide (Content = EmptyString)) &&
     bool_decide (0 < currentXID l)
  then if EqualFold Content MsgHeartbeat
       then Ok (sendWALRequestToLSNTracker (mkWR [] LSN (currentXID l) None false) l)
       else Ok l
  else Ok l.

Definition OnTruncate (Xid : Z) l : res listener := Ok l.
Definition OnOrigin l : res listener := Ok l.
Definition OnType l : res listener := Ok l.

Definition OnSnapshotBatch (tableName : TableName) (batch : WriteRequest Tup) l : res listener :=
  let l := with_stats (SnapshotReadInc (FullName tableName) (Z.of_nat (length (Entries batch))) (stats l)) l in
  Ok (sendWALRequestToLSNTracker batch l).

(** *** Relations *)

Fixpoint known_columns (cols : list RelationMessageColumn) (t : option Table) : res (list string) :=
  match cols with
  | [] => Ok []
  | col :: r =>
      match t with
      | None => Panic "nil dereference"
      | Some tab =>
          rest ← known_columns r t;
          Ok (if bool_decide (is_Some (Columns tab !! rmc_Name col)) then rmc_Name col :: rest else rest)
      end
  end.

Definition OnRelation (msg : RelationMessage) (ans : dbAnswer) l : res listener :=
  let version := u64 (relVersion l + 1) in
  let tableNameKey := MakeTableName (Namespace msg) (RelationName msg) in
  match LoadPubTables ans l with
  | Err _ => Fatal ("failed to update config for table " +:+ RelationName msg)
  | r =>
      l ← r;
      match getTable tableNameKey l with
      | None => Fatal ("table " +:+ RelationName msg +:+ " was not found in publication")
      | Some pgTable =>
          cols ← known_columns (rel_Columns msg) (twc_Table pgTable);
          let cols := if Save txOpts && negb (bool_decide (tco_Name txOpts ∈ cols))
                      then cols ++ [tco_Name txOpts] else cols in
          let keyMap := KeyMap.New cols in
          Ok (with_relations (<[rel_ID msg := mkRV version msg keyMap]> (relations l))
                             (Arena.Add (FullName tableNameKey) (pretty version) keyMap (arena l)) version l)
      end
  end.

(** *** The stream *)

Definition handle (m : message) l : res listener :=
  match m with
  | BeginMessage x => OnTxBegin x l
  | CommitMessage lsn ct => OnTxCommit lsn ct l
  | StreamStart x => OnStreamStart x l
  | StreamStop => OnStreamStop l
  | StreamCommit x lsn ct => OnStreamCommit x lsn ct l
  | StreamAbort x _ => OnStreamAbort x l
  | InsertMessage x r t => OnInsert x r t l
  | UpdateMessage x r o n => OnUpdate x r o n l
  | DeleteMessage x r o => OnDelete x r o l
  | LogicalDecodingMessage lsn tr p c => OnLogicalDecodingMessage lsn tr p c l
  | TruncateMessage x => OnTruncate x l
  | RelationMsg r ans => OnRelation r ans l
  | OriginMessage => OnOrigin l
  | TypeMessage => OnType l
  end.

Fixpoint handle_all (ms : list message) l : res listener :=
  match ms with
  | [] => Ok l
  | m :: r => l ← handle m l; handle_all r l
  end.
End listener.
Arguments listener : clear implicits.
End Listener.
