(* ===== verification/ListenerSpec.v ===== *)
(** * Transactions the listener hands over

    The contract of the buffering listener: the changes of a transaction are
    kept apart from those of other transactions, collapsed to one entry per
    row, and handed to the tracker as one request when, and only when, the
    transaction commits.

    - [Collapse]: what a sequence of changes collapses to, and that the linked
      list with its index computes it;
    - [Tx]: the abstract machine of open transactions and sent requests;
    - [Refine]: the listener refines that machine, with any sink. *)

From stdpp Require Import base numbers list gmap strings pretty.
From S2P Require Import Prelude GoStrings OrderedMap PgSchema Decode PgWal BufferedListener.

(** ** Finding a pair by its key *)

Section assoc.
Context {K V : Type} `{EqDecision K}.
Implicit Types l : list (K * V).

Definition assoc (k : K) l : option (K * V) := List.find (λ p, bool_decide (p.1 = k)) l.

Lemma assoc_Some_1 k l p : assoc k l = Some p → p ∈ l ∧ p.1 = k.
Proof. intros [Hin Hk]%find_some. split; [by apply list_elem_of_In|]. by apply bool_decide_eq_true in Hk. Qed.

Lemma assoc_None k l : assoc k l = None ↔ k ∉ l.*1.
Proof.
  split.
  - intros H (p & -> & Hp)%list_elem_of_fmap. apply list_elem_of_In in Hp.
    pose proof (find_none _ _ H p Hp) as Hn. by apply bool_decide_eq_false in Hn.
  - intros H. destruct (assoc k l) as [p|] eqn:E; [|done]. apply assoc_Some_1 in E as [Hp <-].
    destruct H. by apply list_elem_of_fmap_2.
Qed.

Lemma assoc_Some k l p : NoDup l.*1 → assoc k l = Some p ↔ p ∈ l ∧ p.1 = k.
Proof.
  intros Hnd. split; [apply assoc_Some_1|]. intros [Hp <-].
  destruct (assoc p.1 l) as [q|] eqn:E.
  - apply assoc_Some_1 in E as [Hq Hk]. f_equal.
    apply list_elem_of_lookup in Hp as [i Hi]. apply list_elem_of_lookup in Hq as [j Hj].
    assert (i = j) as <-; [|congruence].
    eapply (NoDup_lookup _ _ _ p.1 Hnd); rewrite list_lookup_fmap; [by rewrite Hi|by rewrite Hj, <- Hk].
  - apply assoc_None in E. destruct E. by apply list_elem_of_fmap_2.
Qed.

Lemma NoDup_fst_filter (P : K * V → Prop) `{∀ p, Decision (P p)} l : NoDup l.*1 → NoDup (filter P l).*1.
Proof.
  induction l as [|p l IH]; csimpl; [done|]. intros [Hp Hl]%NoDup_cons. rewrite filter_cons.
  case_decide; [|by apply IH]. csimpl. constructor; [|by apply IH].
  intros (q & E & [_ Hq]%list_elem_of_filter)%list_elem_of_fmap. apply Hp. rewrite E. by apply list_elem_of_fmap_2.
Qed.
End assoc.

Lemma Forall_filter_keep {A} (P Q : A → Prop) `{∀ x, Decision (Q x)} l : Forall P l → Forall P (filter Q l).
Proof. rewrite !Forall_forall. intros Hl x [_ Hx]%list_elem_of_filter. auto. Qed.

Lemma Forall2_filter {A B} (R : A → B → Prop) (P : A → Prop) (Q : B → Prop)
    `{∀ x, Decision (P x)} `{∀ y, Decision (Q y)} l1 l2 :
  (∀ x y, x ∈ l1 → R x y → P x ↔ Q y) → Forall2 R l1 l2 → Forall2 R (filter P l1) (filter Q l2).
Proof.
  intros HPQ. induction 1 as [|x y l1 l2 Hxy _ IH]; [constructor|].
  assert (P x ↔ Q y) as Hx by (apply HPQ; [set_solver|done]).
  assert (Forall2 R (filter P l1) (filter Q l2)) by (apply IH; intros; apply HPQ; [set_solver|done]).
  rewrite !filter_cons. repeat case_decide; try tauto. by constructor.
Qed.

(** ** Collapsing a transaction *)

Module Collapse.
Section collapse.
Context {Tup : Type}.

(** One row change, as the listener caches it. *)
Record change := mkCh {
  ch_key : string; ch_kind : OpKind; ch_pk : string; ch_table : TableName;
  ch_data : option Tup; ch_prev : option Tup }.

Definition new_entry (c : change) : WriteEntry Tup :=
  mkWE (ch_data c) (ch_prev c) (ch_pk c) (ch_kind c) (ch_table c) 0.

(** The last occurrences, in order. *)
Fixpoint dedup_last (l : list string) : list string :=
  match l with
  | [] => []
  | x :: r => if decide (x ∈ r) then dedup_last r else x :: dedup_last r
  end.

Definition first_of (k : string) (cs : list change) : option change :=
  List.find (λ c, bool_decide (ch_key c = k)) cs.
Definition last_of (k : string) (cs : list change) : option change := first_of k (rev cs).

(** One entry per row, ordered by the rows' last changes: the data of the last
    change; the kind, the previous data and the identity of the first. *)
Definition entry_of (cs : list change) (k : string) : option (string * WriteEntry Tup) :=
  f ← first_of k cs; g ← last_of k cs; Some (k, with_Tuple (ch_data g) (new_entry f)).
Definition collapse (cs : list change) : list (string * WriteEntry Tup) :=
  omap (entry_of cs) (dedup_last (ch_key <$> cs)).

Lemma dedup_last_snoc l x :
  dedup_last (l ++ [x]) = filter (λ y, y ≠ x) (dedup_last l) ++ [x].
Proof.
  induction l as [|y l IH]; [done|]. cbn [app dedup_last]. rewrite IH.
  destruct (decide (y = x)) as [->|Hne].
  - rewrite decide_True by set_solver. case_decide; [done|]. by rewrite filter_cons_False by tauto.
  - destruct (decide (y ∈ l)); [by rewrite decide_True by set_solver|].
    rewrite decide_False by set_solver. by rewrite filter_cons_True.
Qed.

Lemma elem_of_dedup_last l x : x ∈ dedup_last l ↔ x ∈ l.
Proof. induction l as [|y l IH]; simpl; [done|]. case_decide; set_solver. Qed.

Lemma NoDup_dedup_last l : NoDup (dedup_last l).
Proof.
  induction l as [|y l IH]; simpl; [constructor|]. case_decide; [done|].
  constructor; [by rewrite elem_of_dedup_last|done].
Qed.

(** A row stands before another one when the other was still changed after its
    own last change. *)
Lemma dedup_last_order l i j x y :
  dedup_last l !! i = Some x → dedup_last l !! j = Some y → (i < j)%nat → ∃ q, l !! q = Some y ∧ x ∉ drop q l.
Proof.
  revert i j. induction l as [|z l IH]; intros i j; simpl; [done|]. case_decide as Hz.
  - intros Hi Hj Hij. destruct (IH i j Hi Hj Hij) as (q & Hq & Hx). by exists (S q).
  - destruct j as [|j]; [lia|]. destruct i as [|i]; simpl; intros Hi Hj Hij.
    + injection Hi as ->. apply list_elem_of_lookup_2 in Hj. rewrite elem_of_dedup_last in Hj.
      apply list_elem_of_lookup in Hj as [q Hq]. exists (S q). split; [done|]. simpl.
      intros H. apply Hz. apply list_elem_of_lookup in H as [n Hn]. rewrite lookup_drop in Hn. by eapply list_elem_of_lookup_2.
    + destruct (IH i j Hi Hj) as (q & Hq & Hx); [lia|]. by exists (S q).
Qed.

Lemma first_of_Some k cs c : first_of k cs = Some c → c ∈ cs ∧ ch_key c = k.
Proof. intros [Hin Hk]%find_some. split; [by apply list_elem_of_In|]. by apply bool_decide_eq_true in Hk. Qed.

Lemma first_of_is_Some k cs : k ∈ (ch_key <$> cs) → is_Some (first_of k cs).
Proof.
  intros (c & -> & Hc)%list_elem_of_fmap. destruct (first_of (ch_key c) cs) as [d|] eqn:E; [by eexists|].
  apply list_elem_of_In in Hc. pose proof (find_none _ _ E c Hc) as Hn. by apply bool_decide_eq_false in Hn.
Qed.

Lemma first_of_None k cs : k ∉ (ch_key <$> cs) → first_of k cs = None.
Proof.
  intros Hk. destruct (first_of k cs) as [c|] eqn:E; [|done]. apply first_of_Some in E as [Hc <-].
  destruct Hk. by apply list_elem_of_fmap_2.
Qed.

Lemma first_of_app k cs ds :
  first_of k (cs ++ ds) = match first_of k cs with Some c => Some c | None => first_of k ds end.
Proof. induction cs as [|c cs IH]; simpl; [done|]. unfold first_of in *. simpl. by case_bool_decide. Qed.

Lemma last_of_snoc k cs c :
  last_of k (cs ++ [c]) = if bool_decide (ch_key c = k) then Some c else last_of k cs.
Proof. unfold last_of. by rewrite rev_app_distr. Qed.

Lemma last_of_is_Some k cs : k ∈ (ch_key <$> cs) → is_Some (last_of k cs).
Proof.
  intros Hk. apply first_of_is_Some. rewrite list_elem_of_fmap in *. destruct Hk as (c & -> & Hc).
  exists c. split; [done|]. apply list_elem_of_In. rewrite <- in_rev. by apply list_elem_of_In.
Qed.

(** Every row changed has its entry, in the order of the last changes. *)
Lemma collapse_keys cs : (collapse cs).*1 = dedup_last (ch_key <$> cs).
Proof.
  unfold collapse.
  assert (Forall (λ k, k ∈ (ch_key <$> cs)) (dedup_last (ch_key <$> cs))) as H
    by (apply Forall_forall; intros k; by rewrite elem_of_dedup_last).
  induction H as [|k ks Hk _ IH]; [done|]. cbn [omap]. csimpl. unfold entry_of at 1.
  destruct (first_of_is_Some _ _ Hk) as [f ->]. destruct (last_of_is_Some _ _ Hk) as [g ->].
  csimpl. by rewrite IH.
Qed.

Lemma collapse_NoDup cs : NoDup (collapse cs).*1.
Proof. rewrite collapse_keys. apply NoDup_dedup_last. Qed.

Lemma elem_of_collapse cs k e :
  (k, e) ∈ collapse cs ↔
  ∃ f g, first_of k cs = Some f ∧ last_of k cs = Some g ∧ e = with_Tuple (ch_data g) (new_entry f).
Proof.
  unfold collapse. rewrite list_elem_of_omap. split.
  - intros (k' & _ & (f & Hf & (g & Hg & [= -> <-])%bind_Some)%bind_Some). by exists f, g.
  - intros (f & g & Hf & Hg & ->). exists k. split.
    + rewrite elem_of_dedup_last. apply first_of_Some in Hf as [Hf <-]. by apply list_elem_of_fmap_2.
    + unfold entry_of. by rewrite Hf, Hg.
Qed.

(** One more change: its row moves to the end with the new data. *)
Lemma collapse_snoc cs c :
  collapse (cs ++ [c]) =
    filter (λ p, p.1 ≠ ch_key c) (collapse cs) ++
    [(ch_key c, with_Tuple (ch_data c) (new_entry (default c (first_of (ch_key c) cs))))].
Proof.
  unfold collapse at 1. rewrite fmap_app. change (ch_key <$> [c]) with [ch_key c].
  rewrite dedup_last_snoc, omap_app. f_equal.
  - unfold collapse. induction (dedup_last _) as [|k ks IH]; [done|]. rewrite filter_cons. case_decide as Hk.
    + csimpl. rewrite IH. unfold entry_of at 1. rewrite first_of_app, last_of_snoc, bool_decide_false by done.
      assert (entry_of cs k = f ← first_of k cs; g ← last_of k cs; Some (k, with_Tuple (ch_data g) (new_entry f))) as -> by done.
      destruct (first_of k cs) as [f|]; csimpl.
      * destruct (last_of k cs) as [g|]; csimpl; [|done]. by rewrite filter_cons_True.
      * unfold first_of. simpl. by rewrite bool_decide_false.
    + rewrite IH. subst k. csimpl. unfold entry_of at 2.
      destruct (first_of (ch_key c) cs); csimpl; [|done]. destruct (last_of (ch_key c) cs); csimpl; [|done].
      by rewrite filter_cons_False by (simpl; tauto).
  - csimpl. unfold entry_of. rewrite first_of_app, last_of_snoc, bool_decide_true by done.
    destruct (first_of (ch_key c) cs) as [f|]; csimpl; [done|].
    unfold first_of. simpl. by rewrite bool_decide_true.
Qed.
End collapse.
Arguments change : clear implicits.
End Collapse.

(** ** The linked list with its index computes the collapse *)

Module Cache.
Import TxList Collapse.
Section cache.
Context {Tup : Type}.
Implicit Types (tl : txList Tup) (l : list (string * WriteEntry Tup)) (c : change Tup).

(** [tl] holds the pairs [l]: the elements in order, and the index knows the
    element of every key. *)
Record repr tl l : Prop := mk_repr {
  r_pairs : Forall2 (λ p q, p.2 = q.2 ∧ keys tl !! q.1 = Some p.1) (entries tl) l;
  r_ids : NoDup (entries tl).*1;
  r_fresh : Forall (λ p, (p.1 < next_el tl)%nat) (entries tl);
  r_keys : NoDup l.*1;
  r_dom k : is_Some (keys tl !! k) ↔ k ∈ l.*1;
}.

Lemma repr_new : repr newTxList [].
Proof.
  split; [constructor..|]. intros k. unfold newTxList. simpl. rewrite lookup_empty.
  split; [by intros [? ?]|by intros ?%not_elem_of_nil].
Qed.

(** An indexed key finds its own element, and no other key does. *)
Lemma repr_pos tl l k id :
  repr tl l → keys tl !! k = Some id → ∃ i e, entries tl !! i = Some (id, e) ∧ l !! i = Some (k, e).
Proof.
  intros Hr Hk. assert (k ∈ l.*1) as Hin by (apply (r_dom _ _ Hr); by eexists).
  apply list_elem_of_fmap in Hin as ([k' e] & -> & Hq). simpl in *.
  apply list_elem_of_lookup in Hq as [i Hi].
  destruct (Forall2_lookup_r _ _ _ _ _ (r_pairs _ _ Hr) Hi) as ([id' e'] & Hi' & He & Hk'). simpl in *. simplify_eq.
  by exists i, e.
Qed.

Lemma repr_element tl l k id :
  repr tl l → keys tl !! k = Some id →
  ∃ e, assoc id (entries tl) = Some (id, e) ∧ assoc k l = Some (k, e).
Proof.
  intros Hr Hk. destruct (repr_pos _ _ _ _ Hr Hk) as (i & e & Hi & Hl). exists e.
  split; (apply assoc_Some; [apply Hr|]); (split; [by eapply list_elem_of_lookup_2|done]).
Qed.

Lemma repr_inj tl l k1 k2 id :
  repr tl l → keys tl !! k1 = Some id → keys tl !! k2 = Some id → k1 = k2.
Proof.
  intros Hr H1 H2. destruct (repr_pos _ _ _ _ Hr H1) as (i & e & Hi & Hl).
  destruct (repr_pos _ _ _ _ Hr H2) as (j & e' & Hj & Hl').
  assert (i = j) as <-; [|congruence].
  apply (NoDup_lookup _ i j id (r_ids _ _ Hr)); rewrite list_lookup_fmap; [by rewrite Hi|by rewrite Hj].
Qed.

Lemma repr_Get tl l k : repr tl l → TxList.Get k tl = snd <$> assoc k l.
Proof.
  intros Hr. unfold Get, element. destruct (keys tl !! k) as [id|] eqn:Hk; csimpl.
  - destruct (repr_element _ _ _ _ Hr Hk) as (e & He & ->). unfold assoc in He. by rewrite He.
  - destruct (assoc k l) as [p|] eqn:E; [|done]. apply assoc_Some_1 in E as [Hp <-].
    assert (p.1 ∈ l.*1) as [? ?]%(r_dom _ _ Hr) by (by apply list_elem_of_fmap_2). congruence.
Qed.

Lemma repr_Add tl l k e : repr tl l → k ∉ l.*1 → repr (Add k e tl) (l ++ [(k, e)]).
Proof.
  intros [Hp Hi Hf Hk Hd] Hnew.
  assert (Forall (λ p, p.1 ≠ next_el tl) (entries tl)) as Hne.
  { eapply Forall_impl; [exact Hf|]. simpl. lia. }
  split; simpl.
  - apply Forall2_app.
    + apply Forall2_same_length_lookup in Hp as [Hlen Hp].
      apply Forall2_same_length_lookup. split; [done|]. intros i x y Hx Hy.
      destruct (Hp i x y Hx Hy) as [He Hl]. split; [done|]. rewrite lookup_insert_ne; [done|].
      intros ->. apply Hnew, list_elem_of_fmap_2. by eapply list_elem_of_lookup_2.
    + constructor; [|constructor]. simpl. by rewrite lookup_insert_eq.
  - rewrite fmap_app. apply NoDup_app. split_and!; [done| |apply NoDup_singleton].
    intros x (p & -> & Hp')%list_elem_of_fmap Hx%list_elem_of_singleton. rewrite Forall_forall in Hne. by apply (Hne p).
  - apply Forall_app. split; [eapply Forall_impl; [exact Hf|]; simpl; lia|]. repeat constructor.
  - rewrite fmap_app. apply NoDup_app. split_and!; [done| |apply NoDup_singleton].
    intros x ? ->%list_elem_of_singleton. done.
  - intros k'. rewrite fmap_app, elem_of_app, <- Hd, lookup_insert_is_Some'. simpl. rewrite list_elem_of_singleton. naive_solver.
Qed.

Definition set_data (id : nat) (data : option Tup) (p : nat * WriteEntry Tup) : nat * WriteEntry Tup :=
  if bool_decide (p.1 = id) then (id, with_Tuple data p.2) else p.

Lemma set_data_fst id data (ps : list (nat * WriteEntry Tup)) : (set_data id data <$> ps).*1 = ps.*1.
Proof.
  rewrite <- list_fmap_compose. apply list_fmap_ext. intros i p _. unfold set_data. simpl.
  by case_bool_decide.
Qed.

(** [existingEntry.Tuple = data] and [MoveKeyToEnd]. *)
Lemma repr_touch tl l k e data :
  repr tl l → assoc k l = Some (k, e) →
  repr (MoveKeyToEnd k (set_tuple k data tl)) (filter (λ p, p.1 ≠ k) l ++ [(k, with_Tuple data e)]).
Proof.
  intros Hr He. assert (k ∈ l.*1) as [id Hk]%(r_dom _ _ Hr).
  { apply assoc_Some_1 in He as [Hp _]. by apply (list_elem_of_fmap_2 fst) in Hp. }
  unfold MoveKeyToEnd, set_tuple, move_to_back. rewrite Hk. simpl. rewrite Hk.
  change ((λ p : nat * WriteEntry Tup, if bool_decide (p.1 = id) then (id, with_Tuple data p.2) else p) <$> entries tl)
    with (set_data id data <$> entries tl).
  destruct (repr_element _ _ _ _ Hr Hk) as (e' & Hid & He'). rewrite He in He'. injection He' as <-.
  pose proof Hr as [Hp Hi Hf Hnd Hd].
  assert (assoc id (set_data id data <$> entries tl) = Some (id, with_Tuple data e)) as E.
  { apply assoc_Some; [by rewrite set_data_fst|]. split; [|done].
    apply assoc_Some_1 in Hid as [Hid _]. apply (list_elem_of_fmap_2 (set_data id data)) in Hid.
    unfold set_data in Hid at 1. by rewrite bool_decide_true in Hid. }
  unfold assoc in E. rewrite E. clear E.
  assert (filter (λ q, q.1 ≠ id) (set_data id data <$> entries tl) = filter (λ q, q.1 ≠ id) (entries tl)) as ->.
  { clear. induction (entries tl) as [|p ps IH]; [done|]. csimpl. rewrite !filter_cons, IH.
    unfold set_data. case_bool_decide as Hb; simpl; repeat case_decide; simpl in *; tauto || done || congruence. }
  assert (∀ p q, p ∈ entries tl → p.2 = q.2 ∧ keys tl !! q.1 = Some p.1 → p.1 ≠ id ↔ q.1 ≠ k) as Hiff.
  { intros [i x] [k' y] _ [_ Hkk]. simpl in *. split; intros Hne ->; [congruence|].
    apply Hne. by eapply repr_inj. }
  split; simpl.
  - apply Forall2_app; [by apply Forall2_filter|]. by repeat constructor.
  - rewrite fmap_app. apply NoDup_app. split_and!; [|..|apply NoDup_singleton].
    + by apply NoDup_fst_filter.
    + intros x (p & -> & [Hne _]%list_elem_of_filter)%list_elem_of_fmap Hx%list_elem_of_singleton. done.
  - apply Forall_app. split; [by apply Forall_filter_keep|]. repeat constructor. simpl.
    apply assoc_Some_1 in Hid as [Hid _]. rewrite Forall_forall in Hf. by apply (Hf (id, e)).
  - rewrite fmap_app. apply NoDup_app. split_and!; [|..|apply NoDup_singleton].
    + by apply NoDup_fst_filter.
    + intros x (p & -> & [Hne _]%list_elem_of_filter)%list_elem_of_fmap Hx%list_elem_of_singleton. done.
  - intros k'. rewrite Hd, fmap_app, elem_of_app. csimpl. rewrite list_elem_of_singleton, !list_elem_of_fmap.
    setoid_rewrite list_elem_of_filter. apply assoc_Some_1 in He as [He _].
    split; [intros (p & -> & Hp')|intros [(p & -> & _ & ?)| ->]; [by exists p|by exists (k, e)]].
    destruct (decide (p.1 = k)); [by right|left; by exists p].
Qed.

(** The update of [appendToTxCache] on the cached rows. *)
Definition append (c : change Tup) tl : txList Tup :=
  match TxList.Get (ch_key c) tl with
  | Some _ => MoveKeyToEnd (ch_key c) (set_tuple (ch_key c) (ch_data c) tl)
  | None => Add (ch_key c) (new_entry c) tl
  end.

Lemma repr_append tl cs c : repr tl (collapse cs) → repr (append c tl) (collapse (cs ++ [c])).
Proof.
  intros Hr. unfold append. rewrite (repr_Get _ _ _ Hr), collapse_snoc.
  destruct (assoc (ch_key c) (collapse cs)) as [[k e]|] eqn:E; csimpl.
  - pose proof (assoc_Some_1 _ _ _ E) as [Hin Hk]. simpl in Hk. subst k.
    apply elem_of_collapse in Hin as (f & g & Hf & _ & ->). rewrite Hf. simpl.
    replace (with_Tuple (ch_data c) (new_entry f)) with (with_Tuple (ch_data c) (with_Tuple (ch_data g) (new_entry f))) by done.
    by apply repr_touch.
  - apply assoc_None in E. rewrite filter_all.
    + rewrite first_of_None; [|rewrite collapse_keys, elem_of_dedup_last in E; done].
      simpl. replace (with_Tuple (ch_data c) (new_entry c)) with (new_entry c) by (by destruct c). by apply repr_Add.
    + apply Forall_forall. intros p Hp Hk. apply E. rewrite <- Hk. by apply list_elem_of_fmap_2.
Qed.
End cache.
End Cache.

(** ** Open transactions and sent requests *)

Module Tx.
Import Collapse.
Section tx.
Context {Tup : Type}.

Inductive txop :=
| TChange (xid : Z) (c : change Tup)
| TCommit (xid lsn commitTime : Z)
| TAbort (xid : Z)
| TBeat (lsn xid : Z).

Record txs := mkTxs { open_ : gmap Z (list (change Tup)); sent : list (WriteRequest Tup) }.
Definition tx_init : txs := mkTxs ∅ [].

(** The request of a committed transaction: its collapsed changes, numbered. *)
Definition numbered (es : list (WriteEntry Tup)) : list (WriteEntry Tup) :=
  imap (λ i e, with_Offset (u32 (Z.of_nat i)) e) es.
Definition request (cs : list (change Tup)) (lsn xid commitTime : Z) : WriteRequest Tup :=
  mkWR (numbered (collapse cs).*2) lsn xid (Some commitTime) false.

Definition tx_step (s : txs) (op : txop) : txs :=
  match op with
  | TChange x c => mkTxs (<[x := default [] (open_ s !! x) ++ [c]]> (open_ s)) (sent s)
  | TCommit x lsn ct => mkTxs (delete x (open_ s)) (sent s ++ [request (default [] (open_ s !! x)) lsn x ct])
  | TAbort x => mkTxs (delete x (open_ s)) (sent s)
  | TBeat lsn x => mkTxs (open_ s) (sent s ++ [mkWR [] lsn x None false])
  end.
Definition tx_run (ops : list txop) (s : txs) : txs := foldl tx_step s ops.

(** What an open transaction is made of: its changes since it was last
    committed or aborted. *)
Fixpoint since (x : Z) (rops : list txop) : list (change Tup) :=
  match rops with
  | [] => []
  | TChange y c :: r => if decide (y = x) then since x r ++ [c] else since x r
  | TCommit y _ _ :: r | TAbort y :: r => if decide (y = x) then [] else since x r
  | TBeat _ _ :: r => since x r
  end.

Lemma open_since ops x : default [] (open_ (tx_run ops tx_init) !! x) = since x (rev ops).
Proof.
  induction ops as [|op ops IH] using rev_ind; [done|]. unfold tx_run in *.
  rewrite foldl_app, rev_app_distr. simpl. destruct op as [y c|y lsn ct|y|lsn y]; simpl; [..|exact IH];
    case_decide as Hy; subst; rewrite ?lookup_insert_eq, ?lookup_insert_ne, ?lookup_delete_eq, ?lookup_delete_ne by done;
    simpl; try done; by rewrite IH.
Qed.
End tx.
End Tx.

(** ** The listener refines the machine *)

Module Refine.
Import TxList Collapse Cache Tx Listener.

Section refine.
Context (typeMap : Z → option (string → goerr + goval)).
Context (fmtv : option goval → string).
Context (colOrder : gmap string Column → list Column).
Context (tableOrder : gmap string Table → list Table).
Context (opts : ListenerOptions) (txOpts : TxCommitTimeOptions).
Notation handle := (handle typeMap fmtv colOrder tableOrder opts txOpts).
Notation handle_all := (handle_all typeMap fmtv colOrder tableOrder opts txOpts).
Notation recorder := (listener (list (WriteRequest Tup))).

(** *** What a message does to the transactions *)

Section ops.
Context {T : Type} `{!WriteSink Tup T}.
Implicit Types l : listener T.

Definition change_from (rel : RelationMessage) (kind : OpKind)
    (getData getPrevData : TableName → res (option Tup)) l : res (change Tup) :=
  let tableNameKey := MakeTableName (Namespace rel) (RelationName rel) in
  data ← getData tableNameKey;
  prevData ← getPrevData tableNameKey;
  match getTable tableNameKey l ≫= twc_Table with
  | None => Panic "nil dereference"
  | Some table =>
      primaryKey ← create_key fmtv colOrder table data;
      Ok (mkCh (FullName (t_Name table) +:+ ":" +:+ primaryKey) kind primaryKey (t_Name table) data prevData)
  end.

Lemma appendToTxCache_change xid rel kind gd gp l :
  appendToTxCache fmtv colOrder xid rel kind gd gp l =
    c ← change_from rel kind gd gp l;
    Ok (with_txCache (<[xid := append c (default newTxList (txCache l !! xid))]> (txCache l)) l).
Proof.
  unfold appendToTxCache, change_from. destruct (gd _) as [d| | |]; simpl; [|done..].
  destruct (gp _) as [p| | |]; simpl; [|done..].
  destruct (getTable _ l ≫= twc_Table) as [t|]; [|done].
  by destruct (create_key fmtv colOrder t d).
Qed.

Definition changed (Xid RelationID : Z) (kind : OpKind) (data prev : option (option (list TupleDataColumn))) l
    : res (list (txop (Tup := Tup))) :=
  let get o rv := match o with Some t => read_row typeMap opts rv t l | None => λ _, Ok None end in
  rv ← find_relation RelationID l;
  c ← change_from (rel rv) kind (get data rv) (get prev rv) l;
  Ok [TChange (xidFromMsgOrCurrent Xid l) c].

Definition ops_of (m : message) l : res (list (txop (Tup := Tup))) :=
  match m with
  | CommitMessage lsn ct => Ok (if bool_decide (0 < currentXID l) then [TCommit (currentXID l) lsn ct] else [])
  | StreamCommit x lsn ct => Ok [TCommit x lsn ct]
  | StreamAbort x _ => Ok [TAbort x]
  | InsertMessage x r t => changed x r Insert (Some t) None l
  | UpdateMessage x r o n => changed x r Update (Some n) (Some o) l
  | DeleteMessage x r o => changed x r Delete (Some o) None l
  | LogicalDecodingMessage lsn tr p c =>
      Ok (if tr && EqualFold p (AppName opts) && negb (bool_decide (c = EmptyString)) &&
             bool_decide (0 < currentXID l) && EqualFold c MsgHeartbeat
          then [TBeat lsn (currentXID l)] else [])
  | _ => Ok []
  end.

(** The operations of a sequence of messages, as long as they are handled. *)
Fixpoint ops_all (ms : list message) l : list (txop (Tup := Tup)) :=
  match ms with
  | [] => []
  | m :: r =>
      match handle m l, ops_of m l with
      | Ok l', Ok ops => ops ++ ops_all r l'
      | _, _ => []
      end
  end.
End ops.

(** *** Refinement *)

Record refines (l : recorder) (s : txs (Tup := Tup)) : Prop := mk_refines {
  f_sent : lsnTracker l = sent s;
  f_cache x : option_Forall2 (λ tl cs, repr tl (collapse cs)) (txCache l !! x) (open_ s !! x);
  f_kinds x cs c : open_ s !! x = Some cs → c ∈ cs → ch_kind c ≠ SnapshotRead;
}.

Lemma number_entries_spec o es st :
  Forall (λ e, Kind e ≠ SnapshotRead) es →
  ∃ st', number_entries (u32 o) es st = Ok (imap (λ i e, with_Offset (u32 (o + Z.of_nat i)) e) es, st').
Proof.
  intros H. revert o st. induction H as [|e es He _ IH]; intros o st; [by eexists|].
  cbn [number_entries].
  assert (u32 (u32 o + 1) = u32 (o + 1)) as -> by (unfold u32; by rewrite Zplus_mod_idemp_l).
  assert (∀ st0, ∃ st', number_entries (u32 (o + 1)) es st0 =
     Ok (imap (λ i e, with_Offset (u32 (o + Z.of_nat (S i))) e) es, st')) as Hgo.
  { intros st0. destruct (IH (o + 1) st0) as [st' ->]. exists st'. do 2 f_equal.
    apply imap_ext. intros i x _. do 2 f_equal. lia. }
  rewrite imap_cons. rewrite Z.add_0_r.
  destruct (Kind e); simpl; try done;
    match goal with |- context [number_entries _ _ ?s0] => destruct (Hgo s0) as [st' ->] end; by exists st'.
Qed.

Lemma collapse_kinds (cs : list (change Tup)) :
  (∀ c, c ∈ cs → ch_kind c ≠ SnapshotRead) → Forall (λ e, Kind e ≠ SnapshotRead) (collapse cs).*2.
Proof.
  intros H. apply Forall_fmap, Forall_forall. intros [k e] (f & g & [Hf _]%first_of_Some & _ & ->)%elem_of_collapse.
  simpl. by apply H.
Qed.

Lemma repr_values tl (l : list (string * WriteEntry Tup)) : repr tl l → (entries tl).*2 = l.*2.
Proof. intros [H _ _ _ _]. induction H as [|p q ps qs [E _] _ IH]; [done|]. csimpl. by rewrite E, IH. Qed.

(** Sending a cached transaction sends its request and changes nothing else but
    the counters. *)
Lemma send_spec {T} `{!WriteSink Tup T} (l : listener T) txl (ocs : option (list (change Tup))) lsn x ct :
  option_Forall2 (λ tl cs, repr tl (collapse cs)) txl ocs →
  (∀ cs c, ocs = Some cs → c ∈ cs → ch_kind c ≠ SnapshotRead) →
  ∃ st, sendToLSNTracker txl lsn x ct l =
    Ok (with_lsnTracker (sink_add (request (default [] ocs) lsn x ct) (lsnTracker l)) (with_stats st l)).
Proof.
  intros Ho Hk. unfold sendToLSNTracker, Len, request, numbered. destruct Ho as [tl cs Hr|]; simpl; [|by eexists].
  rewrite (repr_values _ _ Hr). case_bool_decide as Hl.
  - destruct (number_entries_spec 0 (collapse cs).*2 (tx_processed x lsn (stats l))) as [st Hn];
      [apply collapse_kinds; intros c; by apply (Hk cs)|]. change (u32 0) with 0 in Hn. rewrite Hn. simpl. by exists st.
  - assert ((collapse cs).*2 = []) as ->; [|by eexists].
    rewrite <- (repr_values _ _ Hr). destruct (entries tl); [done|]. simpl in Hl. lia.
Qed.

Lemma refines_change l s x c :
  refines l s → ch_kind c ≠ SnapshotRead →
  refines (with_txCache (<[x := append c (default newTxList (txCache l !! x))]> (txCache l)) l)
          (tx_step s (TChange x c)).
Proof.
  intros [Hs Hc Hk] Hkind. split; [done| |].
  - intros y. simpl. destruct (decide (x = y)) as [<-|Hne]; [|rewrite !lookup_insert_ne by done; apply Hc].
    rewrite !lookup_insert_eq. constructor. apply repr_append.
    destruct (Hc x) as [tl cs Hr|]; [done|]. apply repr_new.
  - intros y cs d. simpl. destruct (decide (x = y)) as [<-|Hne].
    + rewrite lookup_insert_eq. intros [= <-] [Hd|Hd]%elem_of_app.
      * destruct (open_ s !! x) as [cs|] eqn:E; [by eapply Hk|by apply not_elem_of_nil in Hd].
      * apply list_elem_of_singleton in Hd as ->. done.
    + rewrite lookup_insert_ne by done. apply Hk.
Qed.

Lemma refines_close l s x st t n l' ws :
  refines l s → l' = mkL (delete x (txCache l)) (relations l) (tables_ l) (arena l) (relVersion l) n t st →
  t = ws → refines l' (mkTxs (delete x (open_ s)) ws).
Proof.
  intros [Hs Hc Hk] -> ->. split; [done| |]; simpl.
  - intros y. destruct (decide (x = y)) as [<-|Hne]; [rewrite !lookup_delete_eq; constructor|].
    rewrite !lookup_delete_ne by done. apply Hc.
  - intros y cs c. rewrite lookup_delete_Some. intros [_ ?]. by eapply Hk.
Qed.

Lemma refines_same l s l' :
  refines l s → txCache l' = txCache l → lsnTracker l' = lsnTracker l → refines l' s.
Proof. intros [Hs Hc Hk] E1 E2. split; [by rewrite E2|by rewrite E1|done]. Qed.

Section frames.
Context {T : Type} `{!WriteSink Tup T}.
Implicit Types l : listener T.

(** Reading the publication changes only the tables. *)
Lemma LoadPubTables_frame ans l l' :
  LoadPubTables tableOrder opts ans l = Ok l' → ∃ m, l' = with_tables m l.
Proof.
  unfold LoadPubTables, mergeConfigAndPubTables. destruct (db_version ans) as [|ver]; [done|].
  destruct (ReadPubTables _ _ _ _ _ _) as [ts|e| |]; simpl; try done; [|by destruct (isPubNotFound e)].
  destruct (merge_tables _ _) as [m| | |]; simpl; try done.
  destruct (join_missing _ _); [done|]. intros [= <-]. by exists m.
Qed.

(** A relation message changes only the tables, the relations and the arena. *)
Lemma OnRelation_frame msg ans l l' :
  OnRelation tableOrder opts txOpts msg ans l = Ok l' →
  ∃ m r a n, l' = with_relations r a n (with_tables m l).
Proof.
  unfold OnRelation. destruct (LoadPubTables _ _ _ _) as [l1| | |] eqn:E; simpl; try done.
  apply LoadPubTables_frame in E as [m ->]. destruct (getTable _ _) as [t|]; [|done].
  destruct (known_columns _ _) as [cols| | |]; simpl; try done. intros [= <-]. by eexists _, _, _, _.
Qed.

(** The three handlers of row changes append the message's change. *)
Lemma row_handlers m l x r kind d p :
  m = InsertMessage x r d ∧ kind = Insert ∧ p = None ∨
  (∃ o, m = UpdateMessage x r o d ∧ kind = Update ∧ p = Some o) ∨
  m = DeleteMessage x r d ∧ kind = Delete ∧ p = None →
  handle m l =
    rv ← find_relation r l;
    c ← change_from (rel rv) kind (read_row typeMap opts rv d l)
          match p with Some o => read_row typeMap opts rv o l | None => λ _, Ok None end l;
    let x := xidFromMsgOrCurrent x l in
    Ok (with_txCache (<[x := append c (default newTxList (txCache l !! x))]> (txCache l)) l).
Proof.
  intros [(-> & -> & ->)|[(o & -> & -> & ->)|(-> & -> & ->)]]; simpl;
    unfold OnInsert, OnUpdate, OnDelete; destruct (find_relation r l); simpl; try done; apply appendToTxCache_change.
Qed.
End frames.

Lemma change_from_kind {T} `{!WriteSink Tup T} rel kind gd gp (l : listener T) c :
  change_from rel kind gd gp l = Ok c → ch_kind c = kind.
Proof.
  unfold change_from. intros (d & _ & (p & _ & H)%res_bind_Ok)%res_bind_Ok.
  destruct (getTable _ l ≫= twc_Table) as [t|]; [|done]. apply res_bind_Ok in H as (pk & _ & [= <-]). done.
Qed.

Lemma changed_refines m l s l' x r kind d p :
  m = InsertMessage x r d ∧ kind = Insert ∧ p = None ∨
  (∃ o, m = UpdateMessage x r o d ∧ kind = Update ∧ p = Some o) ∨
  m = DeleteMessage x r d ∧ kind = Delete ∧ p = None →
  refines l s → handle m l = Ok l' →
  ∃ ops, ops_of m l = Ok ops ∧ refines l' (tx_run ops s).
Proof.
  intros Hm Href. rewrite (row_handlers m l x r kind d p Hm).
  intros (rv & Hrv & (c & Hc & [= <-])%res_bind_Ok)%res_bind_Ok.
  exists [TChange (xidFromMsgOrCurrent x l) c]. split.
  - destruct Hm as [(-> & -> & ->)|[(o & -> & -> & ->)|(-> & -> & ->)]]; simpl;
      unfold changed; rewrite Hrv; simpl; by rewrite Hc.
  - apply refines_change; [done|]. rewrite (change_from_kind _ _ _ _ _ _ Hc).
    destruct Hm as [(_ & -> & _)|[(o & _ & -> & _)|(_ & -> & _)]]; done.
Qed.

Lemma commit_refines l s x lsn ct (k : recorder → recorder) l' :
  refines l s → (∀ l0, ∃ n st, k l0 = mkL (delete x (txCache l0)) (relations l0) (tables_ l0) (arena l0)
                                        (relVersion l0) n (lsnTracker l0) st) →
  (l0 ← sendToLSNTracker (txCache l !! x) lsn x ct l; Ok (k l0)) = Ok l' →
  refines l' (tx_step s (TCommit x lsn ct)).
Proof.
  intros Href Hk. destruct (send_spec l (txCache l !! x) (open_ s !! x) lsn x ct) as [st ->].
  { apply Href. } { intros cs c. apply Href. }
  simpl. intros [= <-]. edestruct Hk as (n & st' & ->).
  eapply refines_close; [exact Href|done|]. simpl. by rewrite (f_sent _ _ Href).
Qed.

Lemma handle_refines m l s l' :
  refines l s → handle m l = Ok l' → ∃ ops, ops_of m l = Ok ops ∧ refines l' (tx_run ops s).
Proof.
  intros Href Hm.
  destruct m as [x|lsn ct|x| |x lsn ct|x sub|x r d|x r o d|x r d|lsn tr p c|x|r ans| |];
    try (injection Hm as <-; exists []; split; [done|]; by apply (refines_same l)).
  - simpl in Hm. unfold OnTxCommit in Hm. simpl. case_bool_decide; [|injection Hm as <-; by exists []].
    eexists; split; [done|]. eapply (commit_refines l s _ lsn ct (λ l0, with_currentXID 0 (with_txCache _ l0))); [done| |exact Hm].
    intros l0. by eexists _, _.
  - eexists; split; [done|]. eapply (commit_refines l s x lsn ct); [done| |exact Hm].
    intros l0. by eexists _, _.
  - injection Hm as <-. eexists; split; [done|]. eapply refines_close; [exact Href|done|]. apply Href.
  - eapply (changed_refines _ l s l' x r Insert d None); [left|..]; done.
  - eapply (changed_refines _ l s l' x r Update d (Some o)); [right; left; by exists o|..]; done.
  - eapply (changed_refines _ l s l' x r Delete d None); [right; right|..]; done.
  - simpl in Hm. unfold OnLogicalDecodingMessage in Hm. simpl. eexists; split; [done|].
    destruct (tr && _ && _ && _); simpl; [|injection Hm as <-; done].
    destruct (EqualFold c MsgHeartbeat); injection Hm as <-; [|done].
    destruct Href as [Hs Hc Hk]. split; [|done..]. simpl. by rewrite Hs.
  - apply OnRelation_frame in Hm as (m & rl & a & n & ->). exists []. split; [done|]. by apply (refines_same l).
Qed.

Lemma handle_all_refines ms l s l' :
  refines l s → handle_all ms l = Ok l' → refines l' (tx_run (ops_all ms l) s).
Proof.
  revert l s. induction ms as [|m ms IH]; intros l s Href; simpl; [by intros [= <-]|].
  intros (l1 & Hm & Hrest)%res_bind_Ok. destruct (handle_refines m l s l1 Href Hm) as (ops & Hops & H1).
  rewrite Hm, Hops. unfold tx_run. rewrite foldl_app. by apply (IH l1).
Qed.

Lemma refines_init cfgs : refines (NewListener cfgs []) tx_init.
Proof. split; [done|intros x; simpl; rewrite !lookup_empty; constructor|intros x cs c; simpl; by rewrite lookup_empty]. Qed.

(** *** Any sink *)

Section sink.
Context {T : Type} `{!WriteSink Tup T} (t0 : T).

Definition res_map {A B} (f : A → B) (r : res A) : res B :=
  match r with Ok a => Ok (f a) | Err e => Err e | Panic s => Panic s | Fatal s => Fatal s end.

(** The listener of a recorder, with the recorded requests added to [t0]. *)
Definition replay (ws : list (WriteRequest Tup)) : T := foldl (λ t w, sink_add w t) t0 ws.
Definition relabel (l : recorder) : listener T :=
  mkL (txCache l) (relations l) (tables_ l) (arena l) (relVersion l) (currentXID l) (replay (lsnTracker l)) (stats l).

Lemma relabel_send w l : relabel (sendWALRequestToLSNTracker w l) = sendWALRequestToLSNTracker w (relabel l).
Proof.
  unfold relabel, sendWALRequestToLSNTracker, replay. simpl.
  change (sink_add w (lsnTracker l)) with (lsnTracker l ++ [w]). by rewrite foldl_app.
Qed.

Lemma send_relabel txl lsn x ct l :
  sendToLSNTracker txl lsn x ct (relabel l) = res_map relabel (sendToLSNTracker txl lsn x ct l).
Proof.
  unfold sendToLSNTracker. case_bool_decide; simpl; [|f_equal; symmetry; apply relabel_send].
  destruct (number_entries _ _ _) as [[es st]| | |]; simpl; try done. f_equal. symmetry. apply relabel_send.
Qed.

Lemma LoadPubTables_relabel ans l :
  LoadPubTables tableOrder opts ans (relabel l) = res_map relabel (LoadPubTables tableOrder opts ans l).
Proof.
  unfold LoadPubTables, mergeConfigAndPubTables. destruct (db_version ans) as [|ver]; [done|].
  destruct (ReadPubTables _ _ _ _ _ _) as [ts|e| |]; simpl; try done; [|by destruct (isPubNotFound e)].
  destruct (merge_tables _ _) as [m| | |]; simpl; try done. by destruct (join_missing _ _).
Qed.

Lemma OnRelation_relabel msg ans l :
  OnRelation tableOrder opts txOpts msg ans (relabel l) = res_map relabel (OnRelation tableOrder opts txOpts msg ans l).
Proof.
  unfold OnRelation. rewrite LoadPubTables_relabel.
  destruct (LoadPubTables _ _ _ l) as [l1| | |]; simpl; try done.
  change (getTable (MakeTableName (Namespace msg) (RelationName msg)) (relabel l1))
    with (getTable (MakeTableName (Namespace msg) (RelationName msg)) l1).
  destruct (getTable _ l1) as [t|]; simpl; [|done].
  by destruct (known_columns _ _) as [cols| | |].
Qed.

Lemma append_relabel xid rel kind gd gp l :
  appendToTxCache fmtv colOrder xid rel kind gd gp (relabel l) =
  res_map relabel (appendToTxCache fmtv colOrder xid rel kind gd gp l).
Proof.
  unfold appendToTxCache. destruct (gd _) as [d| | |]; simpl; try done. destruct (gp _) as [p| | |]; simpl; try done.
  change (getTable (MakeTableName (Namespace rel) (RelationName rel)) (relabel l))
    with (getTable (MakeTableName (Namespace rel) (RelationName rel)) l).
  destruct (getTable _ l ≫= twc_Table) as [t|]; simpl; [|done]. by destruct (create_key fmtv colOrder t d).
Qed.

Lemma handle_relabel m l : handle m (relabel l) = res_map relabel (handle m l).
Proof.
  destruct m as [x|lsn ct|x| |x lsn ct|x sub|x r d|x r o d|x r d|lsn tr p c|x|r ans| |]; try done; simpl.
  - unfold OnTxCommit. simpl. case_bool_decide; [|done]. rewrite send_relabel.
    by destruct (sendToLSNTracker _ _ _ _ l).
  - unfold OnStreamCommit. simpl. rewrite send_relabel. by destruct (sendToLSNTracker _ _ _ _ l).
  - unfold OnInsert. change (find_relation r (relabel l)) with (find_relation r l).
    destruct (find_relation r l); simpl; try done. apply append_relabel.
  - unfold OnUpdate. change (find_relation r (relabel l)) with (find_relation r l).
    destruct (find_relation r l); simpl; try done. apply append_relabel.
  - unfold OnDelete. change (find_relation r (relabel l)) with (find_relation r l).
    destruct (find_relation r l); simpl; try done. apply append_relabel.
  - unfold OnLogicalDecodingMessage. simpl. destruct (tr && _ && _ && _); [|done].
    destruct (EqualFold c MsgHeartbeat); [|done]. simpl. f_equal. symmetry. apply relabel_send.
  - apply OnRelation_relabel.
Qed.

Lemma handle_all_relabel ms l : handle_all ms (relabel l) = res_map relabel (handle_all ms l).
Proof.
  revert l. induction ms as [|m ms IH]; intros l; simpl; [done|].
  rewrite handle_relabel. by destruct (handle m l); simpl; try done.
Qed.

(** C3: the listener hands whole committed transactions over, whatever it hands
    them to.  After any messages handled, the tracker is what it was at the
    start with the requests of the abstract machine added in order, and the
    cache of every transaction holds the collapsed changes since the
    transaction was last committed or aborted. *)
Theorem listener_sends_transactions cfgs ms l :
  handle_all ms (NewListener cfgs t0) = Ok l →
  let ops := ops_all ms (NewListener cfgs ([] : list (WriteRequest Tup))) in
  lsnTracker l = replay (sent (tx_run ops tx_init)) ∧
  ∀ x, (entries (default newTxList (txCache l !! x))).*2 = (collapse (since x (rev ops))).*2.
Proof.
  change (NewListener cfgs t0) with (relabel (NewListener cfgs [])). rewrite handle_all_relabel.
  destruct (handle_all ms (NewListener cfgs [])) as [l0| | |] eqn:E; simpl; try done. intros [= <-].
  pose proof (handle_all_refines _ _ _ _ (refines_init cfgs) E) as Href. split.
  - simpl. by rewrite (f_sent _ _ Href).
  - intros x. simpl. rewrite <- open_since. destruct (f_cache _ _ Href x) as [tl cs Hr|]; [|done].
    by apply repr_values.
Qed.
End sink.

(** A commit adds the request of its transaction and closes the cache. *)
Lemma commit_step {T} `{!WriteSink Tup T} (t0 : T) cfgs ms (l : listener T) m x lsn ct :
  handle_all ms (NewListener cfgs t0) = Ok l →
  m = StreamCommit x lsn ct ∨ (m = CommitMessage lsn ct ∧ currentXID l = x ∧ 0 < x) →
  let cs := since x (rev (ops_all ms (NewListener cfgs ([] : list (WriteRequest Tup))))) in
  ∃ l', handle m l = Ok l' ∧ lsnTracker l' = sink_add (request cs lsn x ct) (lsnTracker l) ∧
        txCache l' = delete x (txCache l).
Proof.
  change (NewListener cfgs t0) with (relabel t0 (NewListener cfgs [])). rewrite handle_all_relabel.
  destruct (handle_all ms (NewListener cfgs [])) as [l0| | |] eqn:E; simpl; try done. intros [= <-] Hm.
  pose proof (handle_all_refines _ _ _ _ (refines_init cfgs) E) as Href. rewrite <- open_since. set (s := tx_run _ _) in *.
  destruct (send_spec (relabel t0 l0) (txCache l0 !! x) (open_ s !! x) lsn x ct) as [st Hsend].
  { apply Href. } { intros cs c. apply Href. }
  destruct Hm as [->|(-> & <- & Hx)]; simpl; unfold OnStreamCommit, OnTxCommit; simpl in *.
  - rewrite Hsend. simpl. eexists. by split_and!.
  - rewrite bool_decide_true by done. rewrite Hsend. simpl. eexists. by split_and!.
Qed.

(** A commit always succeeds and sends exactly one request, with the
    changes the transaction made since it was last closed; its cache is gone
    afterwards, and the caches of other transactions are as they were.  (An
    ordinary commit uses the end LSN of the transaction begun last; a streamed
    commit the transaction and commit LSN of the message.) *)
Lemma commit_sends_changes cfgs ms (l : recorder) x lsn ct :
  handle_all ms (NewListener cfgs []) = Ok l →
  let cs := since x (rev (ops_all ms (NewListener cfgs ([] : list (WriteRequest Tup))))) in
  ∃ l', handle (StreamCommit x lsn ct) l = Ok l' ∧
        lsnTracker l' = lsnTracker l ++ [request cs lsn x ct] ∧
        txCache l' = delete x (txCache l) ∧
        (currentXID l = x → 0 < x →
         ∃ l'', handle (CommitMessage lsn ct) l = Ok l'' ∧ lsnTracker l'' = lsnTracker l' ∧
                txCache l'' = txCache l' ∧ currentXID l'' = 0).
Proof.
  intros E. pose proof (handle_all_refines _ _ _ _ (refines_init cfgs) E) as Href. cbv zeta.
  rewrite <- open_since. set (s := tx_run _ _) in *.
  destruct (send_spec l (txCache l !! x) (open_ s !! x) lsn x ct) as [st Hsend].
  { apply Href. } { intros cs c. apply Href. }
  simpl. unfold OnStreamCommit. rewrite Hsend. simpl. eexists. split_and!; [done..|].
  intros <- Hx. unfold OnTxCommit. rewrite bool_decide_true by done. rewrite Hsend. simpl.
  eexists. by split_and!.
Qed.

(** Nothing else is sent: a message that is neither a commit nor a
    heartbeat leaves the tracker alone, and an aborted transaction is forgotten
    without a trace in later requests. *)
Lemma only_commits_send (l l' : recorder) m :
  handle m l = Ok l' →
  (lsnTracker l' = lsnTracker l ∨
   (∃ lsn ct, m = CommitMessage lsn ct) ∨ (∃ x lsn ct, m = StreamCommit x lsn ct) ∨
   (∃ lsn p c, m = LogicalDecodingMessage lsn true p c ∧ EqualFold c MsgHeartbeat = true ∧
               lsnTracker l' = lsnTracker l ++ [mkWR [] lsn (currentXID l) None false])) ∧
  (∀ x sub, m = StreamAbort x sub → txCache l' !! x = None ∧ ∀ r, since x (TAbort x :: r) = @nil (change Tup)).
Proof.
  intros Hm. split; [|intros x sub ->; injection Hm as <-; split; [apply lookup_delete_eq|intros; simpl; by rewrite decide_True]].
  destruct m as [x|lsn ct|x| |x lsn ct|x sub|x r d|x r o d|x r d|lsn tr p c|x|r ans| |];
    try (left; injection Hm as <-; done); try (right; left; by eexists _, _).
  - right; right; left. by eexists _, _, _.
  - left. rewrite (row_handlers _ l x r Insert d None) in Hm by tauto.
    by apply res_bind_Ok in Hm as (rv & _ & (c & _ & [= <-])%res_bind_Ok).
  - left. rewrite (row_handlers _ l x r Update d (Some o)) in Hm by (right; left; by eexists).
    by apply res_bind_Ok in Hm as (rv & _ & (c & _ & [= <-])%res_bind_Ok).
  - left. rewrite (row_handlers _ l x r Delete d None) in Hm by tauto.
    by apply res_bind_Ok in Hm as (rv & _ & (c & _ & [= <-])%res_bind_Ok).
  - simpl in Hm. unfold OnLogicalDecodingMessage in Hm. destruct tr; simpl in Hm; [|left; by injection Hm as <-].
    destruct (_ && _ && _); [|left; by injection Hm as <-].
    destruct (EqualFold c MsgHeartbeat) eqn:Ec; injection Hm as <-; [|by left].
    right; right; right. by eexists _, _, _.
  - left. apply OnRelation_frame in Hm as (m & rl & a & n & ->). done.
Qed.

(** The request of a transaction. *)
Lemma request_rows (cs : list (change Tup)) lsn x ct :
  let r := request cs lsn x ct in
  let rows := dedup_last (ch_key <$> cs) in
  length (Entries r) = length rows ∧
  (∀ i e, Entries r !! i = Some e →
     Offset e = u32 (Z.of_nat i) ∧
     (Z.of_nat (length rows) ≤ two32 → GetEntryByOffset r (Offset e) = Some e) ∧
     ∃ k f g, rows !! i = Some k ∧ first_of k cs = Some f ∧ last_of k cs = Some g ∧
       Tuple e = ch_data g ∧ PrevTuple e = ch_prev f ∧ Kind e = ch_kind f ∧
       we_PK e = ch_pk f ∧ we_Table e = ch_table f).
Proof using Type.
  clear typeMap fmtv colOrder tableOrder opts txOpts.
  cbv zeta. split.
  { simpl. unfold numbered. by rewrite length_imap, length_fmap, <- collapse_keys, length_fmap. }
  intros i e He. simpl in He. unfold numbered in He. rewrite list_lookup_imap, list_lookup_fmap in He.
  destruct (collapse cs !! i) as [[k e0]|] eqn:Hi; [|done]. injection He as <-.
  split_and!; [done| |].
  - intros Hlen. rewrite <- collapse_keys, length_fmap in Hlen.
    destruct (GetEntryByOffset_is_Some (request cs lsn x ct) (u32 (Z.of_nat i))) as [_ [e' He']].
    { simpl. apply list_elem_of_lookup. exists i. unfold numbered.
      by rewrite list_lookup_fmap, list_lookup_imap, list_lookup_fmap, Hi. }
    simpl. rewrite He'. apply GetEntryByOffset_Some in He' as [Hin Ho]. simpl in Hin. f_equal.
    apply list_elem_of_lookup in Hin as [j Hj]. unfold numbered in Hj. rewrite list_lookup_imap, list_lookup_fmap in Hj.
    destruct (collapse cs !! j) as [[k' e1]|] eqn:Hj'; [|done]. injection Hj as <-. simpl in Ho.
    apply lookup_lt_Some in Hi as Hi'. apply lookup_lt_Some in Hj' as Hj2.
    rewrite !u32_small in Ho by lia. assert (i = j) as <- by lia. rewrite Hi in Hj'. by injection Hj' as -> ->.
  - pose proof (list_elem_of_lookup_2 _ _ _ Hi) as Hin. apply elem_of_collapse in Hin as (f & g & Hf & Hg & ->).
    exists k, f, g. split_and!; try done. by rewrite <- collapse_keys, list_lookup_fmap, Hi.
Qed.

(** C7: a committed transaction is handed over with one entry per row it
    changed.  After any messages handled, a stream commit, or an ordinary commit
    of the transaction begun last, is handled without an error and adds exactly
    one request to the sink, with the LSN the message carries (for an ordinary
    commit the end of the transaction), the transaction's id and commit time;
    the transaction's cache is gone and the others are as they were.  With [cs]
    the changes cached under the transaction's id since it was last closed, the
    request has one entry for each row among them, ordered by the rows' last
    changes and numbered from zero; an entry carries the data of the row's last
    change, and the kind, the previous data and the identity of its first, and
    with at most 2^32 rows it is the one found by its offset. *)
Theorem request_one_entry_per_row {T} `{!WriteSink Tup T} (t0 : T) cfgs ms (l : listener T) m x lsn ct :
  handle_all ms (NewListener cfgs t0) = Ok l →
  m = StreamCommit x lsn ct ∨ (m = CommitMessage lsn ct ∧ currentXID l = x ∧ 0 < x) →
  let cs := since x (rev (ops_all ms (NewListener cfgs ([] : list (WriteRequest Tup))))) in
  ∃ l' r rows,
    handle m l = Ok l' ∧ lsnTracker l' = sink_add r (lsnTracker l) ∧ txCache l' = delete x (txCache l) ∧
    LSN r = lsn ∧ XID r = x ∧ CommitTime r = Some ct ∧
    NoDup rows ∧ (∀ k, k ∈ rows ↔ k ∈ (ch_key <$> cs)) ∧
    (∀ i j a b, rows !! i = Some a → rows !! j = Some b → (i < j)%nat →
       ∃ q, (ch_key <$> cs) !! q = Some b ∧ a ∉ drop q (ch_key <$> cs)) ∧
    length (Entries r) = length rows ∧
    (∀ i e, Entries r !! i = Some e →
       Offset e = u32 (Z.of_nat i) ∧
       (Z.of_nat (length rows) ≤ two32 → GetEntryByOffset r (Offset e) = Some e) ∧
       ∃ k f g, rows !! i = Some k ∧ first_of k cs = Some f ∧ last_of k cs = Some g ∧
         Tuple e = ch_data g ∧ PrevTuple e = ch_prev f ∧ Kind e = ch_kind f ∧
         we_PK e = ch_pk f ∧ we_Table e = ch_table f).
Proof.
  intros E Hm cs. destruct (commit_step t0 cfgs ms l m x lsn ct E Hm) as (l' & H1 & H2 & H3).
  exists l', (request cs lsn x ct), (dedup_last (ch_key <$> cs)). destruct (request_rows cs lsn x ct) as [H4 H5].
  split_and!; try done; [apply NoDup_dedup_last|apply elem_of_dedup_last|apply dedup_last_order].
Qed.

(** *** Tables and rows *)

(** [merged_columns] keeps the configured columns that are published. *)
Lemma merged_columns_spec cols table m k :
  keyed (Columns table) →
  merged_columns cols table m !! k = (if decide (k ∈ cols ∧ is_Some (Columns table !! k)) then Columns table !! k else m !! k).
Proof using Type.
  clear typeMap fmtv colOrder tableOrder opts txOpts.
  intros Hkey. revert m. induction cols as [|c cols IH]; intros m; simpl.
  - done.
  - rewrite IH. destruct (decide (k ∈ cols ∧ is_Some (Columns table !! k))) as [[Hin Hs]|Hn].
    + by rewrite decide_True by set_solver.
    + destruct (Columns table !! c) as [pc|] eqn:Hc.
      * pose proof (Hkey _ _ Hc) as Hpc. rewrite Hpc. destruct (decide (k = c)) as [->|Hne].
        -- rewrite lookup_insert_eq, decide_True; [done|]. rewrite Hc. split; [set_solver|by eexists].
        -- rewrite lookup_insert_ne by done. rewrite decide_False; [done|]. set_solver.
      * destruct (decide (k = c)) as [->|Hne]; [|rewrite decide_False by set_solver; done].
        rewrite Hc. rewrite decide_False; [done|]. intros [_ [? ?]]. done.
Qed.

Lemma missing_column_None cols table c :
  missing_column cols table = None → c ∈ cols → c = "all" ∨ is_Some (Columns table !! c).
Proof using Type.
  clear typeMap fmtv colOrder tableOrder opts txOpts.
  induction cols as [|d cols IH]; simpl; [by intros _ ?%not_elem_of_nil|].
  case_bool_decide as Hd.
  - intros H [->|?]%elem_of_cons; auto.
  - destruct (Columns table !! d) eqn:E; [|done]. intros H [->|?]%elem_of_cons; [right; by rewrite E|by apply IH].
Qed.

(** A configured table gets exactly the configured columns, or all the
    published ones when the configuration asks for all; a configured column
    that is not published is refused, whether or not all are asked for. *)
Lemma merge_config_exact table cfg :
  keyed (Columns table) →
  match mergeConfigAndPubTable table cfg with
  | Ok t =>
      t_Name t = t_Name table ∧ PK t = PK table ∧
      (∀ c, c ∈ tc_Columns cfg → c ≠ "all" → is_Some (Columns table !! c)) ∧
      (∀ k, Columns t !! k = if AllColumns cfg || bool_decide (k ∈ tc_Columns cfg) then Columns table !! k else None)
  | Err _ => ∃ c, c ∈ tc_Columns cfg ∧ c ≠ "all" ∧ Columns table !! c = None
  | _ => False
  end.
Proof using Type.
  clear typeMap fmtv colOrder tableOrder opts txOpts.
  intros Hkey. unfold mergeConfigAndPubTable.
  destruct (missing_column (tc_Columns cfg) table) as [c|] eqn:E.
  - induction (tc_Columns cfg) as [|d cols IH]; simpl in E; [done|]. case_bool_decide as Hd.
    + destruct (IH E) as (c' & ? & ?). exists c'. set_solver.
    + destruct (Columns table !! d) eqn:Ed; [destruct (IH E) as (c' & ? & ?); exists c'; set_solver|].
      injection E as <-. exists d. set_solver.
  - assert (∀ c, c ∈ tc_Columns cfg → c ≠ "all" → is_Some (Columns table !! c)) as Hc.
    { intros c Hin Hne. destruct (missing_column_None _ _ c E Hin); done. }
    destruct (AllColumns cfg) eqn:Ea; split_and!; try done. intros k. simpl.
    rewrite merged_columns_spec, lookup_empty by done. case_bool_decide as Hk.
    + case_decide as Hd; [done|]. destruct (Columns table !! k) eqn:Ek; [|done]. destruct Hd. by split; [|eexists].
    + by rewrite decide_False by tauto.
Qed.

(** Loading the publication succeeds only if every table the listener knows is
    published. *)
Lemma join_missing_None names e : join_missing names e = None → names = [] ∧ e = None.
Proof using Type.
  clear typeMap fmtv colOrder tableOrder opts txOpts.
  revert e. induction names as [|n r IH]; intros e; simpl; [done|]. intros H%IH. by destruct H.
Qed.

Lemma merged_tables_set {T} `{!WriteSink Tup T} pub (l l' : listener T) :
  mergeConfigAndPubTables tableOrder pub l = Ok l' → map_Forall (λ _ t, is_Some (twc_Table t)) (tables_ l').
Proof.
  unfold mergeConfigAndPubTables. intros (m & _ & H)%res_bind_Ok.
  destruct (join_missing (unpublished m) None) as [|] eqn:E; [done|]. injection H as <-. simpl.
  apply join_missing_None in E as [E _]. unfold unpublished in E. apply fmap_nil_inv in E.
  intros k t Hk. destruct (twc_Table t) eqn:Et; [by eexists|].
  assert ((k, t) ∈ filter (λ p, twc_Table p.2 = None) (map_to_list m)) as Hin
    by (apply list_elem_of_filter; split; [done|by apply elem_of_map_to_list]).
  rewrite E in Hin. by apply not_elem_of_nil in Hin.
Qed.

Lemma LoadPubTables_set {T} `{!WriteSink Tup T} ans (l l' : listener T) :
  LoadPubTables tableOrder opts ans l = Ok l' → map_Forall (λ _ t, is_Some (twc_Table t)) (tables_ l').
Proof.
  unfold LoadPubTables. destruct (db_version ans) as [|ver]; [done|].
  destruct (ReadPubTables _ _ _ _ _ _) as [ts|e| |]; simpl; try done; [|by destruct (isPubNotFound e)].
  apply merged_tables_set.
Qed.

(** The positions and the names of the columns the table has. *)
Lemma read_positions_spec i cols tab :
  ∃ ps, read_positions i cols (Some tab) = Ok ps ∧
        ∀ z, z ∈ ps ↔ ∃ j rc, cols !! j = Some rc ∧ z = i + Z.of_nat j ∧ is_Some (Columns tab !! rmc_Name rc).
Proof using Type.
  clear typeMap fmtv colOrder tableOrder opts txOpts.
  revert i. induction cols as [|c cols IH]; intros i; simpl.
  { exists []. split; [done|]. intros z. split; [by intros ?%not_elem_of_nil|by intros (j & rc & ? & _)]. }
  destruct (IH (i + 1)) as (ps & -> & Hps). simpl. eexists. split; [done|]. intros z.
  assert ((∃ j rc, (c :: cols) !! j = Some rc ∧ z = i + Z.of_nat j ∧ is_Some (Columns tab !! rmc_Name rc)) ↔
          (z = i ∧ is_Some (Columns tab !! rmc_Name c)) ∨ z ∈ ps) as ->.
  { rewrite Hps. split.
    - intros ([|j] & rc & H1 & -> & H2); simpl in H1; [injection H1 as ->; left; split; [lia|done]|].
      right. exists j, rc. split_and!; [done|lia|done].
    - intros [[-> H]|(j & rc & H1 & -> & H2)]; [exists 0%nat, c; split_and!; [done|lia|done]|].
      exists (S j), rc. split_and!; [done|lia|done]. }
  case_bool_decide; [rewrite elem_of_cons|]; tauto.
Qed.

Lemma known_columns_spec cols tab :
  ∃ ks, known_columns cols (Some tab) = Ok ks ∧
        ∀ k, k ∈ ks ↔ k ∈ (rmc_Name <$> cols) ∧ is_Some (Columns tab !! k).
Proof using Type.
  clear typeMap fmtv colOrder tableOrder opts txOpts.
  induction cols as [|c cols (ks & E & IH)]; simpl.
  { exists []. split; [done|]. intros k. split; [by intros ?%not_elem_of_nil|by intros [?%not_elem_of_nil _]]. }
  rewrite E. simpl. eexists. split; [done|]. intros k. rewrite elem_of_cons.
  case_bool_decide as Hc; [rewrite elem_of_cons|]; rewrite IH; naive_solver.
Qed.

(** The reading configuration selects existing positions, among them all those
    of the table's columns. *)
Lemma getReadIndexes_spec {T} `{!WriteSink Tup T} name cols (l : listener T) twc table (tcols : list TupleDataColumn) :
  getTable name l = Some twc → twc_Table twc = Some table → length tcols = length cols →
  ∃ cfg, getReadIndexes opts name cols l = Ok cfg ∧
    Encoding cfg = mkEnc BinaryEncodingBase64 (NumericMode opts) ∧
    in_range (selected cfg tcols) tcols cols ∧
    ∀ j rc, cols !! j = Some rc → is_Some (Columns table !! rmc_Name rc) → Z.of_nat j ∈ selected cfg tcols.
Proof.
  intros Ht Htab Hlen. unfold getReadIndexes. rewrite Ht.
  destruct (match Cfg twc with Some c => AllColumns c | None => false end).
  - eexists. split_and!; [done|done|..]; unfold selected; simpl.
    + intros i (n & -> & Hn%elem_of_seq)%list_elem_of_fmap. lia.
    + intros j rc Hj _. apply list_elem_of_fmap_2, elem_of_seq. apply lookup_lt_Some in Hj. lia.
  - rewrite Htab. destruct (read_positions_spec 0 cols table) as (ps & -> & Hps). simpl.
    eexists. split_and!; [done|done|..]; unfold selected; simpl.
    + intros i (j & rc & Hj%lookup_lt_Some & -> & _)%Hps. lia.
    + intros j rc Hj Hs. apply Hps. exists j, rc. done.
Qed.

(** C12: after a relation message the rows of the table are read exactly: a row
    has the decoded value of a column exactly when the table has the column
    and the tuple carries a value for it.  The only failure is a column of the
    relation that cannot be decoded. *)
Theorem relation_rows_exact {T} `{!WriteSink Tup T} (l l1 : listener T) msg ans tcols :
  OnRelation tableOrder opts txOpts msg ans l = Ok l1 →
  NoDup (rmc_Name <$> rel_Columns msg) → length tcols = length (rel_Columns msg) →
  (Save txOpts = true → tco_Name txOpts ∉ (rmc_Name <$> rel_Columns msg)) →
  let name := MakeTableName (Namespace msg) (RelationName msg) in
  let enc := mkEnc BinaryEncodingBase64 (NumericMode opts) in
  ∃ rv table, relations l1 !! rel_ID msg = Some rv ∧ GetTable name l1 = Some table ∧
    match read_row typeMap opts rv (Some tcols) l1 name with
    | Ok (Some om) =>
        ∀ k v, OMap.abs om !! k = Some v ↔
          ∃ i rc tc, rel_Columns msg !! i = Some rc ∧ tcols !! i = Some tc ∧ rmc_Name rc = k ∧
                     is_Some (Columns table !! k) ∧ cell_value typeMap enc rc tc = Some (Ok v)
    | Err e => ∃ i rc tc wrap inner, rel_Columns msg !! i = Some rc ∧ tcols !! i = Some tc ∧
                 cell_value typeMap enc rc tc = Some (Err inner) ∧ e = GoWrap wrap inner
    | _ => False
    end.
Proof.
  intros Hrel Hnd Hlen Htx. cbv zeta. unfold OnRelation in Hrel.
  destruct (LoadPubTables tableOrder opts ans l) as [l0| | |] eqn:EL; simpl in Hrel; try done.
  set (name := MakeTableName _ _) in *. destruct (getTable name l0) as [twc|] eqn:Ht; [|done].
  assert (is_Some (twc_Table twc)) as [table Htab].
  { eapply (LoadPubTables_set ans l l0 EL). exact Ht. }
  rewrite Htab in Hrel. destruct (known_columns_spec (rel_Columns msg) table) as (ks & Eks & Hks).
  rewrite Eks in Hrel. simpl in Hrel. injection Hrel as <-. set (cols := if _ && _ then _ else _).
  assert (∀ k, k ∈ (rmc_Name <$> rel_Columns msg) → k ∈ cols ↔ is_Some (Columns table !! k)) as Hcols.
  { intros k Hk. unfold cols. destruct (Save txOpts); simpl; [|rewrite Hks; tauto].
    destruct (negb _); [|rewrite Hks; tauto]. rewrite elem_of_app, Hks, list_elem_of_singleton.
    split; [intros [[_ ?]| ->]; [done|by destruct Htx]|by left]. }
  eexists _, table. split_and!; [apply lookup_insert_eq| |].
  { unfold GetTable, with_relations. cbn [tables_]. unfold getTable in Ht. rewrite Ht. exact Htab. }
  unfold read_row. cbn [rel rv_keyMap].
  destruct (getReadIndexes_spec name (rel_Columns msg) l0 twc table tcols Ht Htab Hlen) as (cfg & Ecfg & Eenc & Hr & Hsel).
  match goal with |- context [getReadIndexes opts name ?c ?l'] =>
    change (getReadIndexes opts name c l') with (getReadIndexes opts name c l0) end.
  rewrite Ecfg. res_step. rewrite <- Eenc.
  pose proof (ReadTuple_row typeMap tcols (rel_Columns msg) cfg (KeyMap.New cols) (proj1 (KeyMap.key_map_wf cols)) Hnd Hr) as H.
  destruct (ReadTuple _ _ _ _ _) as [[om|]|e| |]; try done.
  - destruct H as (_ & _ & H). intros k v. rewrite H. unfold holds. split.
    + intros (i & rc & tc & _ & Hi & Htc & <- & Hk%KeyMap.GetIndex_New & Hv). exists i, rc, tc. split_and!; try done.
      apply Hcols; [|done]. apply list_elem_of_fmap_2. by eapply list_elem_of_lookup_2.
    + intros (i & rc & tc & Hi & Htc & <- & Hs & Hv). exists i, rc, tc. split_and!; try done.
      * by eapply Hsel.
      * apply KeyMap.GetIndex_New, Hcols; [|done]. apply list_elem_of_fmap_2. by eapply list_elem_of_lookup_2.
  - destruct H as (i & rc & tc & wrap & inner & _ & ?). by exists i, rc, tc, wrap, inner.
Qed.
End refine.
End Refine.
