(* ===== verification/ListenerSystem.v ===== *)
(** * From transactions to acknowledgements

    The listener on top of the LSN tracker and its concurrent callers, as
    src/pg2buffer/buffered_listener.go composes them: [OnTxCommit] and the
    other handlers add requests to the tracker, the write pipeline takes them
    out, [OnSuccess] and [OnError] report the writer's answers, and [CommitPos]
    is the position acknowledged to PostgreSQL.

    The main theorem says that a committed transaction is not acknowledged
    before each of its rows was delivered or given up. *)

From stdpp Require Import base numbers list gmap strings pretty.
From S2P Require Import Prelude GoStrings WriteQueue OrderedMap PgSchema Decode CircuitBreaker PgWal.
From S2P Require Import LSNTracker LSNSystem BufferedListener ListenerSpec.
Import Tracked Tracker TInv System.

(** ** Tracked requests stay what they are *)

Section keeps.
Context {Tup : Type}.
Context {QT : QueueImpl tref t_size} {QR : QueueImpl (readyWriteEntry Tup) ready_size}.
Notation WriteRequest := (PgWal.WriteRequest Tup).
Notation tracker := (Tracker.tracker Tup).
Notation event := (System.event (Tup := Tup)).
Notation sys := (System.sys (Tup := Tup) (QT := QT) (QR := QR)).
Implicit Types t : tracker.

(** No request is lost, and its commit point and offsets do not change. *)
Definition keeps t t' : Prop :=
  ∀ id tw, tws t !! id = Some tw →
    ∃ tw', tws t' !! id = Some tw' ∧ point tw' = point tw ∧ orig tw' = orig tw.

#[global] Instance keeps_preorder : PreOrder keeps.
Proof.
  split; [intros t id tw H; by exists tw|]. intros t1 t2 t3 H12 H23 id tw H.
  destruct (H12 id tw H) as (tw2 & H2 & E1 & E2). destruct (H23 id tw2 H2) as (tw3 & H3 & E3 & E4).
  exists tw3. split_and!; congruence.
Qed.

Lemma keeps_same t t' : tws t' = tws t → keeps t t'.
Proof. intros E id tw H. exists tw. by rewrite E. Qed.

Lemma keeps_set_tw r tw tw' t :
  tws t !! tid r = Some tw → point tw' = point tw → orig tw' = orig tw → keeps t (set_tw r tw' t).
Proof.
  intros Htw E1 E2 id tw0 H. simpl. destruct (decide (tid r = id)) as [<-|Hne].
  - rewrite lookup_insert_eq. exists tw'. split_and!; [done|congruence..].
  - rewrite lookup_insert_ne by done. by exists tw0.
Qed.

Lemma release_base (tw : trackedWriteRequest Tup) :
  point (release tw).2 = point tw ∧ orig (release tw).2 = orig tw.
Proof. unfold release. by destruct (released tw). Qed.

Lemma keeps_ack_ref r os tw t : tws t !! tid r = Some tw → keeps t (ack_ref r os tw t).
Proof.
  intros Htw. unfold ack_ref, Tracked.ack, release_tw.
  set (tw' := with_pending _ tw). destruct (isAcknowledged tw').
  - destruct (release_base tw') as [E1 E2]. destruct (release tw') as [n tw2].
    etransitivity; [by apply (keeps_set_tw r tw tw2)|by apply keeps_same].
  - by apply (keeps_set_tw r tw tw').
Qed.

Lemma keeps_ack_all l t : keeps t (ack_all l t).
Proof.
  unfold ack_all. revert t. induction l as [|[cp os] l IH]; intros t; simpl; [done|].
  etransitivity; [|apply IH]. rewrite ack_point_eq. destruct (findTrackedWrite _ t) as [r|]; [|done].
  destruct (tws t !! tid r) as [tw|] eqn:E; [|done]. by apply keeps_ack_ref.
Qed.

Lemma keeps_queue_write r w t : keeps t (queue_write r w t).2.
Proof.
  unfold queue_write. destruct (tws t !! tid r) as [tw|] eqn:E; [|done].
  assert (point (queueWrite w tw).2 = point tw ∧ orig (queueWrite w tw).2 = orig tw) as [E1 E2].
  { unfold queueWrite. destruct w as [w|]; [|done]. by destruct (_ || _). }
  destruct (queueWrite w tw) as [b tw']. by apply (keeps_set_tw r tw tw').
Qed.

Lemma keeps_enqueue r w t : keeps t (enqueueReadyWrite r w t).
Proof.
  unfold enqueueReadyWrite. pose proof (keeps_queue_write r (Some w) t) as H.
  destruct (queue_write r (Some w) t) as [[] t']; [|done]. etransitivity; [exact H|by apply keeps_same].
Qed.

Lemma keeps_alloc tw t : tws t !! next_tid t = None → keeps t (alloc tw t).2.
Proof.
  intros Hn id tw0 H. simpl. exists tw0. split; [|done]. rewrite lookup_insert_ne; [done|congruence].
Qed.

Lemma keeps_Add w t : tws t !! next_tid t = None → keeps t (Add w t).1.
Proof.
  intros Hn. unfold Add. destruct (stopping t); [done|]. cbv zeta. simpl fst.
  destruct (isAckedLSN (LSN w) t); [done|]. destruct (findTrackedWrite (LSN w) t) as [r|].
  - destruct (tws t !! tid r) as [tw|]; [|done]. destruct (isAcknowledged tw); [done|]. destruct (hasFailures tw); [|done].
    simpl. destruct (fullWrite tw); [apply keeps_enqueue|done].
  - simpl. etransitivity; [by apply (keeps_alloc (newTrackedWriteRequest w))|].
    etransitivity; [|apply keeps_enqueue]. by apply keeps_same.
Qed.

Lemma keeps_AddEmpty l x t : tws t !! next_tid t = None → keeps t (AddEmpty l x t).
Proof.
  intros Hn. unfold AddEmpty. destruct (stopping t); [done|]. destruct (isAckedLSN l t); [done|].
  destruct (findTrackedWrite l t) as [r|].
  - destruct (tws t !! tid r) as [tw|] eqn:E; [|done]. by apply keeps_ack_ref.
  - set (tw0 := newTrackedWriteRequest _). etransitivity; [by apply (keeps_alloc tw0)|].
    simpl. rewrite lookup_insert_eq. cbv zeta. unfold release_tw, Tracked.ack.
    match goal with |- context [release ?x] => destruct (release_base x) as [E1 E2]; destruct (release x) as [n tw2] end.
    etransitivity; [apply (keeps_set_tw (mkRef (next_tid t) (point tw0) (size tw0)) tw0 tw2);
                    [simpl; apply lookup_insert_eq|done..]|].
    by apply keeps_same.
Qed.

Lemma keeps_process now backoff es m rs t : keeps t (process_entries now backoff es m rs t).1.
Proof.
  revert t m rs. induction es as [|e es IH]; intros t m rs; [done|]. cbn [process_entries]. cbv zeta.
  destruct (findTrackedWrite (re_LSN (ere_Entry e)) t) as [r|]; [|destruct (negb (isAckedLSN _ t)); [done|apply IH]].
  destruct (tws t !! tid r) as [tw|] eqn:E; [|done]. destruct (isAcknowledged tw); [apply IH|].
  destruct (getFailedEntry _ _ now tw) as [fe tw'] eqn:Eg. unfold getFailedEntry in Eg. injection Eg as _ <-.
  set (tw' := with_failures _ tw).
  assert (keeps t (set_tw r tw' t)) as H by (by apply (keeps_set_tw r tw tw')).
  destruct (downstreamDown _ _ _); [done|]. destruct (skipEntry _ _ _); [etransitivity; [exact H|apply IH]|].
  destruct (bool_decide _); [|etransitivity; [exact H|apply IH]].
  destruct (buildRetryEntry _ _ _ _ _ _); (etransitivity; [exact H|apply IH]).
Qed.

Lemma keeps_PopReady fuel t : keeps t (PopReady fuel t).1.
Proof.
  revert t. induction fuel as [|fuel IH]; intros t; cbn [PopReady];
    destruct (op_pop (readyQueue t)) as [q [| |e]]; try (by apply keeps_same); cbv zeta;
    (destruct (tws (with_ready q t) !! tid (r_tw e)) as [tw|] eqn:E; [|by apply keeps_same]);
    destruct (popQueuedWrite tw) as [[w|] tw'] eqn:Ep; try (by apply keeps_same).
  1,2: unfold popQueuedWrite in Ep; destruct (queued tw); [done|]; injection Ep as _ <-;
    (etransitivity; [|by apply (keeps_set_tw _ tw)]); by apply keeps_same.
  etransitivity; [|apply IH]. by apply keeps_same.
Qed.

Section step.
Context (enum : gmap CommitPoint (list Z) → list (CommitPoint * list Z)).
Context (Henum : ∀ m, enum m ≡ₚ map_to_list m).
Context (SetTimer : Z → Z → bool → bool).

Lemma keeps_step cfg tr (s s' : sys) e :
  sinv cfg tr s → step enum SetTimer e s = Some s' → keeps (trk s) (trk s').
Proof using Henum.
  intros Hs Hstep. pose proof (s_tinv _ _ _ Hs) as Hi. pose proof (alloc_fresh _ _ _ Hi) as Hn.
  assert (∀ P F t, tinv P F t → keeps t (advanceMaxAcknowledged t)) as Hadv.
  { intros P F t Ht. apply keeps_same. by apply (advance_spec P F). }
  destruct e as [w|l xid|resp|now backoff resp|i|now i|i|i| | | |]; cbn [step] in Hstep; cbv zeta in Hstep.
  - injection Hstep as <-. by apply keeps_Add.
  - injection Hstep as <-. by apply keeps_AddEmpty.
  - injection Hstep as <-. simpl. etransitivity; [apply keeps_ack_all|].
    eapply (Hadv (λ _ _, True) (fail_count tr)). apply ack_all_tinv; [|done].
    eapply tinv_mono; [done|by intros|exact Hi].
  - destruct (er_Entries resp) as [|x xs] eqn:Ex; [by injection Hstep as <-|].
    assert (keeps (trk s) (processErrorResponse now backoff resp (trk s)).1) as H.
    { unfold processErrorResponse. destruct (stopping (trk s)); [done|]. apply keeps_process. }
    destruct (processErrorResponse now backoff resp (trk s)) as [t' out].
    destruct out; [| |done]; injection Hstep as <-; exact H.
  - destruct (ackJobs s !! i) as [[m rs]|]; [|done]. injection Hstep as <-. apply keeps_ack_all.
  - destruct (schedJobs s !! i) as [e|]; [|done]. injection Hstep as <-. simpl. unfold scheduleRetry.
    destruct (stopping (trk s)); [done|]. destruct (SetTimer _ _ _); by apply keeps_same.
  - destruct (timers (trk s) !! i) as [[k e]|]; [|done]. simpl in Hstep.
    destruct (stopping (trk s)); [injection Hstep as <-; by apply keeps_same|].
    match type of Hstep with context [queue_write ?r ?w ?t] =>
      pose proof (keeps_queue_write r w t) as Hq; destruct (queue_write r w t) as [b t2] end.
    injection Hstep as <-. etransitivity; [|exact Hq]. by apply keeps_same.
  - destruct (pushing s !! i) as [e|]; [|done]. injection Hstep as <-. by apply keeps_same.
  - pose proof (keeps_PopReady (length (Spec.items (q_abs (readyQueue (trk s))))) (trk s)) as Hp.
    destruct (PopReady _ (trk s)) as [t' p]. by injection Hstep as <-.
  - case_bool_decide; [|done]. injection Hstep as <-. by apply keeps_same.
  - injection Hstep as <-. by eapply Hadv.
  - injection Hstep as <-. apply keeps_same. simpl. unfold Stop. by destruct (stopping (trk s)).
Qed.

(** A write request is new to the tracker. *)
Definition fresh (w : WriteRequest) t : Prop :=
  stopping t = false ∧ isAckedLSN (LSN w) t = false ∧ findTrackedWrite (LSN w) t = None.

Lemma Add_fresh w t :
  fresh w t → ∃ id tw, tws (Add w t).1 !! id = Some tw ∧ point tw = mkCP (LSN w) (XID w) ∧ orig tw = offsets_of w.
Proof.
  intros (H1 & H2 & H3). unfold Add. rewrite H1, H2, H3. cbv zeta. cbn [fst alloc].
  set (t1 := pushTrackedWrite _ _). set (r := mkRef _ _ _).
  destruct (keeps_enqueue r w t1 (next_tid t) (newTrackedWriteRequest w)) as (tw & Htw & E1 & E2).
  { unfold t1. simpl. apply lookup_insert_eq. }
  by exists (next_tid t), tw.
Qed.

(** More steps after a run. *)
Inductive steps : list event → sys → sys → Prop :=
| steps_nil s : steps [] s s
| steps_snoc es s s1 e s2 : steps es s s1 → event_ok e → step enum SetTimer e s1 = Some s2 → steps (es ++ [e]) s s2.

Lemma steps_run cfg tr s es s' :
  run enum SetTimer cfg tr s → steps es s s' → run enum SetTimer cfg (tr ++ es) s' ∧ keeps (trk s) (trk s').
Proof using Henum.
  intros Hrun Hst. induction Hst as [|es s s1 e s2 _ IH Hok Hstep]; [by rewrite app_nil_r|].
  destruct (IH Hrun) as [Hrun1 Hk]. rewrite (assoc_L (++)). split; [by eapply run_step|].
  etransitivity; [exact Hk|]. eapply keeps_step; [by eapply run_sinv|done].
Qed.

(** When the acknowledged LSN has reached a request that was new when it was
    added, each of its offsets is accounted for. *)
Lemma added_delivered cfg tr s w es s' o :
  run enum SetTimer cfg tr s → fresh w (trk s) → 0 ≤ LSN w →
  steps es (with_trk (Add w (trk s)).1 s) s' →
  0 < cp_LSN (maxAcknowledged (trk s')) → LSN w ≤ cp_LSN (maxAcknowledged (trk s')) →
  o ∈ offsets_of w → justified cfg (tr ++ EAdd w :: es) (LSN w) o.
Proof using Henum.
  intros Hrun Hf H0 Hst Hpos Hle Ho.
  assert (run enum SetTimer cfg (tr ++ [EAdd w]) (with_trk (Add w (trk s)).1 s)) as Hrun1 by (by eapply run_step).
  destruct (steps_run _ _ _ _ _ Hrun1 Hst) as [Hrun2 Hk]. rewrite <- (assoc_L (++)) in Hrun2. simpl in Hrun2.
  destruct (Add_fresh w (trk s) Hf) as (id & tw & Htw & Hp & Hor).
  destruct (Hk id tw Htw) as (tw' & Htw' & Hp' & Hor').
  assert (cp_LSN (point tw') = LSN w) as E by (rewrite Hp', Hp; done).
  rewrite <- E. eapply acknowledged_is_delivered; [exact Henum|exact Hrun2|exact Hpos|exact Htw'|by rewrite E|].
  by rewrite Hor', Hor.
Qed.
End step.
End keeps.

(** ** The listener on the tracker *)

Module Pipeline.
Import TxList Collapse Tx Listener Refine.

Section pipeline.
Context {QT : QueueImpl tref t_size} {QR : QueueImpl (readyWriteEntry Tup) ready_size}.
Notation event := (System.event (Tup := Tup)).
Notation sys := (System.sys (Tup := Tup) (QT := QT) (QR := QR)).
Context (enum : gmap CommitPoint (list Z) → list (CommitPoint * list Z)).
Context (SetTimer : Z → Z → bool → bool).
Context (typeMap : Z → option (string → goerr + goval)).
Context (fmtv : option goval → string).
Context (colOrder : gmap string Column → list Column).
Context (tableOrder : gmap string Table → list Table).
Context (opts : ListenerOptions) (txOpts : TxCommitTimeOptions).

#[global] Instance tracker_sink : WriteSink Tup (Tracker.tracker Tup) := λ w t, (Tracker.Add w t).1.
#[global] Instance sys_sink : WriteSink Tup sys := λ w s, with_trk (sink_add w (trk s)) s.

Notation handle := (handle typeMap fmtv colOrder tableOrder opts txOpts).
Notation handle_all := (handle_all typeMap fmtv colOrder tableOrder opts txOpts).
Notation ops_all := (ops_all typeMap fmtv colOrder tableOrder opts txOpts).
Notation recorder := (listener (list (WriteRequest Tup))).

(** *** The other methods of the listener *)

Definition CommitPos (l : listener (Tracker.tracker Tup)) : listener (Tracker.tracker Tup) * CommitPoint :=
  let '(t, cp) := MaxAcknowledged (lsnTracker l) in (with_lsnTracker t l, cp).

Definition WriteQueueSize (l : listener (Tracker.tracker Tup)) : Z := Tracker.WriteQueueSize (lsnTracker l).

(** [OnSuccess]; the calls of the acknowledgement handler are listed. *)
Definition OnSuccess (ackHandler : bool) (resp : Response) (l : listener (Tracker.tracker Tup))
    : listener (Tracker.tracker Tup) * CommitPoint * list (Response * CommitPoint) :=
  let '(t, maxAcked) := Tracker.OnSuccess enum resp (lsnTracker l) in
  (with_lsnTracker t l, maxAcked, if ackHandler then [(resp, maxAcked)] else []).

Definition OnError (now : Z) (backoff : Z → Z) (resp : option ErrResponse) (l : listener (Tracker.tracker Tup))
    : res (listener (Tracker.tracker Tup)) :=
  t ← Tracker.OnError enum SetTimer now backoff resp (lsnTracker l);
  Ok (with_lsnTracker t l).

(** One round of [startWritePipeline]: take a write, count it down, hand it to
    the writer and remember the transaction sent last; [None] for the written
    request is waiting, and [false] the end of the loop. *)
Record sentGauges := mkSG { DownStreamLastSentTx : Z; DownStreamLastSentLSN : Z }.
Definition pipeline_round (cancelled : bool) (g : sentGauges) (l : listener (Tracker.tracker Tup))
    : listener (Tracker.tracker Tup) * sentGauges * option (WriteRequest Tup) * bool :=
  let t := lsnTracker l in
  match PopReady (length (Spec.items (q_abs (readyQueue t)))) t with
  | (t, Spec.PopStopped) => (with_lsnTracker t l, g, None, false)
  | (t, Spec.PopBlocked) => (with_lsnTracker t l, g, None, true)
  | (t, Spec.PopItem wr) =>
      if cancelled then (with_lsnTracker t l, g, None, false)
      else
        let t := writeQueueDec 1 t in
        let g := if IsSnapshot wr then g else mkSG (XID wr) (PgWal.LSN wr) in
        (with_lsnTracker t l, g, Some wr, true)
  end.

(** *** The listener with the tracker's callers *)

Inductive pev := PMsg (m : message) | PEv (e : event).

Definition msgs (ps : list pev) : list message := omap (λ p, match p with PMsg m => Some m | PEv _ => None end) ps.

(** LSNs are not negative. *)
Definition message_ok (m : message) : Prop :=
  match m with
  | CommitMessage lsn _ | StreamCommit _ lsn _ | LogicalDecodingMessage lsn _ _ _ => 0 ≤ lsn
  | _ => True
  end.

Definition set_trk {T T'} (t : T') (l : listener T) : listener T' :=
  mkL (txCache l) (relations l) (tables_ l) (arena l) (relVersion l) (currentXID l) t (stats l).

(** The requests a message adds. *)
Definition adds {T} (m : message) (l : listener T) : list (WriteRequest Tup) :=
  match handle m (set_trk [] l : recorder) with Ok l' => lsnTracker l' | _ => [] end.

Inductive psteps : list pev → list event → listener sys → listener sys → Prop :=
| ps_nil l : psteps [] [] l l
| ps_msg ps tr l l1 m l2 :
    psteps ps tr l l1 → message_ok m → handle m l1 = Ok l2 →
    psteps (ps ++ [PMsg m]) (tr ++ (EAdd <$> adds m l1)) l l2
| ps_ev ps tr l l1 e s2 :
    psteps ps tr l l1 → event_ok e → step enum SetTimer e (lsnTracker l1) = Some s2 →
    psteps (ps ++ [PEv e]) (tr ++ [e]) l (with_lsnTracker s2 l1).

Definition prun (cfg : RetryConfig) cfgs ps tr (l : listener sys) : Prop :=
  psteps ps tr (NewListener cfgs (init cfg)) l.

(** A message does to the listener what it does to the recorder, and adds its
    requests to the tracker. *)
Lemma handle_set_trk {T} `{!WriteSink Tup T} m (t : T) (l0 : recorder) :
  handle m (set_trk t l0) =
  res_map (λ l1, set_trk (replay t (lsnTracker l1)) l1) (handle m (set_trk [] l0 : recorder)).
Proof. exact (handle_relabel typeMap fmtv colOrder tableOrder opts txOpts t m (set_trk [] l0)). Qed.

Lemma handle_adds {T} `{!WriteSink Tup T} m (l l' : listener T) :
  handle m l = Ok l' → lsnTracker l' = replay (lsnTracker l) (adds m l).
Proof.
  assert (l = set_trk (lsnTracker l) (set_trk [] l : recorder)) as E by (by destruct l).
  rewrite E at 1. rewrite handle_set_trk. unfold adds.
  change (set_trk [] (set_trk [] l : recorder) : recorder) with (set_trk [] l : recorder).
  destruct (handle m (set_trk [] l : recorder)) as [l1| | |]; try done. by intros [= <-].
Qed.

Lemma handle_core {T T'} `{!WriteSink Tup T, !WriteSink Tup T'} m (l l' : listener T) (k : listener T') :
  handle m l = Ok l' → set_trk [] l = (set_trk [] k : recorder) →
  ∃ k', handle m k = Ok k' ∧ set_trk [] l' = (set_trk [] k' : recorder).
Proof.
  intros Hm E.
  assert (l = set_trk (lsnTracker l) (set_trk [] l : recorder)) as E1 by (by destruct l).
  assert (k = set_trk (lsnTracker k) (set_trk [] k : recorder)) as E2 by (by destruct k).
  rewrite E1, handle_set_trk in Hm. rewrite E2, handle_set_trk.
  change (set_trk [] (set_trk [] l : recorder) : recorder) with (set_trk [] l : recorder) in Hm.
  change (set_trk [] (set_trk [] k : recorder) : recorder) with (set_trk [] k : recorder).
  rewrite <- E. destruct (handle m (set_trk [] l : recorder)) as [l3| | |]; try done.
  injection Hm as <-. by eexists.
Qed.

Lemma handle_all_app {T} `{!WriteSink Tup T} a b (l : listener T) :
  handle_all (a ++ b) l = (l1 ← handle_all a l; handle_all b l1).
Proof.
  revert l. induction a as [|m a IH]; intros l; [done|]. simpl. by destruct (handle m l); simpl.
Qed.

(** The listener in a run is the recorder after the same messages. *)
Lemma psteps_core ps tr l l' (l0 : recorder) :
  psteps ps tr l l' → set_trk [] l = (set_trk [] l0 : recorder) →
  ∃ l0', handle_all (msgs ps) l0 = Ok l0' ∧ set_trk [] l' = (set_trk [] l0' : recorder).
Proof.
  intros H E. induction H as [l|ps tr l l1 m l2 _ IH Hok Hm|ps tr l l1 e s2 _ IH _ _]; [by exists l0|..];
    destruct (IH E) as (k & H0 & E0); unfold msgs; rewrite omap_app; fold (msgs ps); simpl.
  - destruct (handle_core m l1 l2 k Hm E0) as (k' & Hk & Ek). exists k'.
    rewrite handle_all_app, H0. simpl. rewrite Hk. done.
  - exists k. by rewrite app_nil_r.
Qed.

(** The requests of a message have the LSN of the message. *)
Lemma adds_ok {T} m (l : listener T) : message_ok m → Forall (λ w, 0 ≤ PgWal.LSN w) (adds m l).
Proof.
  unfold adds. intros Hok. destruct (handle m (set_trk [] l : recorder)) as [l'| | |] eqn:Hm; [|constructor..].
  set (l0 := set_trk [] l : recorder) in *.
  assert (∀ txl lsn x ct l1 l2, 0 ≤ lsn → lsnTracker l1 = [] → sendToLSNTracker txl lsn x ct (l1 : recorder) = Ok l2 →
          Forall (λ w, 0 ≤ PgWal.LSN w) (lsnTracker l2)) as Hsend.
  { intros txl lsn x ct l1 l2 H0 E. unfold sendToLSNTracker. case_bool_decide.
    - intros ([es st] & _ & [= <-])%res_bind_Ok. simpl. rewrite E. by repeat constructor.
    - intros [= <-]. simpl. rewrite E. by repeat constructor. }
  destruct m as [x|lsn ct|x| |x lsn ct|x sub|x r d|x r o d|x r d|lsn tr p c|x|r ans| |];
    try (injection Hm as <-; constructor); simpl in Hm, Hok.
  - unfold OnTxCommit in Hm. case_bool_decide; [|injection Hm as <-; constructor].
    apply res_bind_Ok in Hm as (l2 & Hs & [= <-]). by apply (Hsend _ _ _ _ l0 l2 Hok eq_refl Hs).
  - apply res_bind_Ok in Hm as (l2 & Hs & [= <-]). by apply (Hsend _ _ _ _ l0 l2 Hok eq_refl Hs).
  - change (OnInsert _ _ _ _ _ _ _ _ = _) with (handle (InsertMessage x r d) l0 = Ok l') in Hm.
    rewrite (row_handlers _ _ _ _ _ _ _ l0 x r Insert d None) in Hm by tauto.
    apply res_bind_Ok in Hm as (rv & _ & (c & _ & [= <-])%res_bind_Ok). constructor.
  - change (OnUpdate _ _ _ _ _ _ _ _ _ = _) with (handle (UpdateMessage x r o d) l0 = Ok l') in Hm.
    rewrite (row_handlers _ _ _ _ _ _ _ l0 x r Update d (Some o)) in Hm by (right; left; by eexists).
    apply res_bind_Ok in Hm as (rv & _ & (c & _ & [= <-])%res_bind_Ok). constructor.
  - change (OnDelete _ _ _ _ _ _ _ _ = _) with (handle (DeleteMessage x r d) l0 = Ok l') in Hm.
    rewrite (row_handlers _ _ _ _ _ _ _ l0 x r Delete d None) in Hm by tauto.
    apply res_bind_Ok in Hm as (rv & _ & (c & _ & [= <-])%res_bind_Ok). constructor.
  - unfold OnLogicalDecodingMessage in Hm. destruct (tr && _ && _ && _); [|injection Hm as <-; constructor].
    destruct (EqualFold c MsgHeartbeat); injection Hm as <-; by repeat constructor.
  - apply OnRelation_frame in Hm as (m & rl & a & n & ->). constructor.
Qed.

(** The tracker's side of a run is a run of the tracker's system. *)
Lemma replay_steps ws s :
  Forall (λ w, 0 ≤ PgWal.LSN w) ws → steps enum SetTimer (EAdd <$> ws) s (replay s ws).
Proof.
  intros H. induction ws as [|w ws IH] using rev_ind; [constructor|].
  apply Forall_app in H as [H1 H2]. rewrite fmap_app. unfold replay. rewrite foldl_app.
  rewrite Forall_singleton in H2. eapply steps_snoc; [by apply IH|exact H2|done].
Qed.

Lemma steps_trans es1 es2 s1 s2 s3 :
  steps enum SetTimer es1 s1 s2 → steps enum SetTimer es2 s2 s3 → steps enum SetTimer (es1 ++ es2) s1 s3.
Proof.
  intros H1 H2. induction H2 as [|es s s2' e s3 _ IH Hok Hstep]; [by rewrite app_nil_r|].
  rewrite (assoc_L (++)). eapply steps_snoc; [by apply IH|done|done].
Qed.

Lemma psteps_steps ps tr l l' : psteps ps tr l l' → steps enum SetTimer tr (lsnTracker l) (lsnTracker l').
Proof.
  induction 1 as [l|ps tr l l1 m l2 _ IH Hok Hm|ps tr l l1 e s2 _ IH Hok Hs]; [constructor|..].
  - eapply steps_trans; [exact IH|]. rewrite (handle_adds m l1 l2 Hm). by apply replay_steps, adds_ok.
  - by eapply steps_snoc.
Qed.

(** The message commits transaction [x] at [lsn]. *)
Definition commits {T} (m : message) (l : listener T) (x lsn ct : Z) : Prop :=
  m = StreamCommit x lsn ct ∨ (m = CommitMessage lsn ct ∧ currentXID l = x ∧ 0 < x).

(** The changes of [x] that the messages of a run left open. *)
Definition open_changes cfgs (ps : list pev) (x : Z) : list (change Tup) :=
  since x (rev (ops_all (msgs ps) (NewListener cfgs ([] : list (WriteRequest Tup))))).

Lemma commit_adds cfg cfgs ps tr l m x lsn ct :
  prun cfg cfgs ps tr l → commits m l x lsn ct → adds m l = [request (open_changes cfgs ps x) lsn x ct].
Proof.
  intros Hrun Hm. destruct (psteps_core ps tr _ _ (NewListener cfgs []) Hrun eq_refl) as (l0 & H0 & E0).
  pose proof (handle_all_refines _ _ _ _ _ _ _ _ _ _ (refines_init cfgs) H0) as Href.
  unfold open_changes. rewrite <- open_since. set (s := tx_run _ _) in *. unfold adds. rewrite E0.
  destruct (send_spec (set_trk [] l0 : recorder) (txCache l0 !! x) (open_ s !! x) lsn x ct) as [st Hsend];
    [apply Href|intros cs c; apply Href|].
  destruct Hm as [->|(-> & Hx & Hpos)]; simpl.
  - unfold OnStreamCommit. simpl. rewrite Hsend. done.
  - assert (currentXID l0 = x) as Hx0 by (rewrite <- Hx; by apply (f_equal currentXID) in E0).
    unfold OnTxCommit. simpl. rewrite Hx0, bool_decide_true by done. rewrite Hsend. done.
Qed.

Lemma request_offset (cs : list (change Tup)) lsn x ct i k :
  dedup_last (ch_key <$> cs) !! i = Some k → u32 (Z.of_nat i) ∈ offsets_of (request cs lsn x ct).
Proof.
  rewrite <- collapse_keys, list_lookup_fmap. intros (p & Hp & _)%fmap_Some.
  assert (Entries (request cs lsn x ct) !! i = Some (with_Offset (u32 (Z.of_nat i)) p.2)) as He.
  { simpl. unfold numbered. by rewrite list_lookup_imap, list_lookup_fmap, Hp. }
  unfold offsets_of. destruct (Entries (request cs lsn x ct)) as [|e es]; [done|].
  apply elem_of_list_to_set, list_elem_of_fmap. eexists. split; [|by eapply list_elem_of_lookup_2]. done.
Qed.

Context (Henum : ∀ m, enum m ≡ₚ map_to_list m).

(** A transaction is acknowledged only when its rows are delivered.  Take
    any run of the listener and the tracker's callers, then the commit of a
    transaction at a new LSN, then anything else.  Once the position
    acknowledged to PostgreSQL has reached that LSN, every row the transaction
    changed was confirmed by the writer, or given up after an error that is
    not retryable or [MaxRetries] errors, or reported as empty. *)
Lemma committed_transaction_delivered cfg cfgs ps tr l m x lsn ct l1 qs es l2 :
  prun cfg cfgs ps tr l → commits m l x lsn ct → 0 < lsn →
  let cs := open_changes cfgs ps x in
  fresh (request cs lsn x ct) (trk (lsnTracker l)) →
  handle m l = Ok l1 → psteps qs es l1 l2 →
  lsn ≤ cp_LSN (maxAcknowledged (trk (lsnTracker l2))) →
  ∀ i k, dedup_last (ch_key <$> cs) !! i = Some k →
    justified cfg (tr ++ EAdd (request cs lsn x ct) :: es) lsn (u32 (Z.of_nat i)).
Proof using Henum.
  intros Hrun Hm Hpos cs Hf Hl1 Hq Hle i k Hi.
  assert (run enum SetTimer cfg tr (lsnTracker l)) as Hsys.
  { pose proof (psteps_steps _ _ _ _ Hrun) as Hst.
    by apply (steps_run enum Henum SetTimer cfg [] _ _ _ (run_init _ _ _) Hst). }
  pose proof (handle_adds m l l1 Hl1) as Ht. rewrite (commit_adds cfg cfgs ps tr l m x lsn ct Hrun Hm) in Ht.
  apply psteps_steps in Hq. rewrite Ht in Hq.
  apply (added_delivered enum Henum SetTimer cfg tr (lsnTracker l) (request cs lsn x ct) es (lsnTracker l2));
    try done; [simpl; lia|simpl in *; lia|by eapply request_offset].
Qed.
End pipeline.
End Pipeline.
