(* ===== verification/ListenerSamples.v ===== *)
(** * A concrete session of the listener

    One table, one transaction with three changes of two rows, its delivery and
    its acknowledgement: the theorems about the listener hold on it, and their
    hypotheses can be met. *)

From stdpp Require Import base numbers list gmap strings pretty.
From S2P Require Import Prelude GoStrings WriteQueue OrderedMap PgSchema Decode CircuitBreaker PgWal.
From S2P Require Import LSNTracker LSNSystem BufferedListener ListenerSpec ListenerSystem.
Import Tracked Tracker TInv System TxList Collapse Tx Listener Refine Pipeline.

Definition types : Z → option (string → goerr + goval) := Decode.Samples.types.
Definition show (v : option goval) : string :=
  match v with
  | Some (VInt _ z) => pretty z
  | Some (VString s) => s
  | _ => "<nil>"
  end.
Definition cols_of (m : gmap string Column) : list Column := (map_to_list m).*2.
Definition tables_of (m : gmap string Table) : list Table := (map_to_list m).*2.
Definition opts : ListenerOptions := NewListenerOptions "pub" PgNumericModeFloat "app".
Definition no_tx : TxCommitTimeOptions := mkTCO false EmptyString.
Definition cfg : RetryConfig := LSNSystem.Samples.cfg.
Definition cfgs : gmap string TableConfig := ∅.

Notation QTl := (linked_queue t_size).
Notation QRl := (linked_queue (ready_size (Tup := Tup))).
Notation sys := (System.sys (Tup := Tup) (QT := QTl) (QR := QRl)).
Notation recorder := (listener (list (WriteRequest Tup))).
Notation handle := (handle types show cols_of tables_of opts no_tx).
Notation handle_all := (handle_all types show cols_of tables_of opts no_tx).
Notation enum := LSNSystem.Samples.enum.
Notation accepts := LSNSystem.Samples.accepts.
Notation psteps := (psteps enum accepts types show cols_of tables_of opts no_tx).

Definition row15 (c : string) (ty : Z) (pk : bool) (pos : Z) : nullableRow :=
  mkNR None (Some "public") (Some "users") (Some c) (Some ty) (Some pk) (Some pos).
Definition answers : dbAnswer :=
  mkDB (inr 15) PubFound (inr []) (inr [row15 "id" 23 true 1; row15 "name" 25 false 2]).
Definition users : RelationMessage := mkRel 5 "public" "users" [mkRMC "id" 23; mkRMC "name" 25].
Definition tuple (id name : string) : list TupleDataColumn := [mkTDC char_t id; mkTDC char_t name].

Definition session : list message :=
  [RelationMsg users answers; BeginMessage 7;
   InsertMessage 0 5 (Some (tuple "1" "ann")); InsertMessage 0 5 (Some (tuple "2" "bob"));
   UpdateMessage 0 5 None (Some (tuple "1" "eve"))].

Definition at_start : recorder := NewListener cfgs [].
Definition after_session : recorder :=
  match handle_all session at_start with Ok l => l | _ => at_start end.

Definition is_ok {A} (r : res A) : bool := match r with Ok _ => true | _ => false end.
Lemma is_ok_default {A} (r : res A) d : is_ok r = true → r = Ok (match r with Ok a => a | _ => d end).
Proof. by destruct r. Qed.

Lemma session_handled : handle_all session at_start = Ok after_session.
Proof. apply is_ok_default. vm_compute. reflexivity. Qed.

Definition summary (w : WriteRequest Tup) : list (string * OpKind * Z * option (res (list (string * goval)))) :=
  (λ e, (we_PK e, Kind e, Offset e, OMap.Iter <$> Tuple e)) <$> Entries w.

(** The row changed twice comes last, once, with its last data and its first kind. *)
Example session_request :
  summary <$> adds types show cols_of tables_of opts no_tx (CommitMessage 100 3) after_session =
  [[("2", Insert, 0, Some (Ok [("id", VInt 32 2); ("name", VString "bob")]));
    ("1", Insert, 1, Some (Ok [("id", VInt 32 1); ("name", VString "eve")]))]].
Proof. vm_compute. reflexivity. Qed.

Lemma listener_sends_transactions_witness :
  lsnTracker after_session =
  replay [] (sent (tx_run (ops_all types show cols_of tables_of opts no_tx session at_start) tx_init)).
Proof. exact (proj1 (listener_sends_transactions types show cols_of tables_of opts no_tx [] cfgs session after_session session_handled)). Defined.

Lemma request_one_entry_per_row_witness :
  ∃ l' r, handle (CommitMessage 100 3) after_session = Ok l' ∧ lsnTracker l' = lsnTracker after_session ++ [r] ∧
    LSN r = 100 ∧ XID r = 7.
Proof.
  destruct (request_one_entry_per_row types show cols_of tables_of opts no_tx [] cfgs session after_session
    (CommitMessage 100 3) 7 100 3 session_handled) as (l' & r & rows & H1 & H2 & _ & H3 & H4 & _).
  - right. split; [reflexivity|]. split; [vm_compute; reflexivity|reflexivity].
  - exists l', r. split; [exact H1|]. split; [exact H2|]. split; [exact H3|exact H4].
Defined.

Lemma commit_sends_changes_witness :
  ∃ l', handle (StreamCommit 7 100 3) after_session = Ok l' ∧ length (lsnTracker l') = 1%nat.
Proof.
  destruct (commit_sends_changes types show cols_of tables_of opts no_tx cfgs session after_session 7 100 3 session_handled)
    as (l' & H1 & H2 & _).
  exists l'. split; [exact H1|]. rewrite H2. vm_compute. reflexivity.
Defined.

Lemma only_commits_send_witness : lsnTracker (with_currentXID 9 after_session) = lsnTracker after_session.
Proof.
  destruct (only_commits_send types show cols_of tables_of opts no_tx after_session (with_currentXID 9 after_session)
              (BeginMessage 9) eq_refl) as [[H|[(? & ? & H)|[(? & ? & ? & H)|(? & ? & ? & H & _)]]] _];
    [exact H|discriminate H..].
Defined.

Definition users_table : Table := PgSchema.Samples.users.
Lemma users_keyed : keyed (Columns users_table).
Proof.
  intros k c. unfold users_table, PgSchema.Samples.users. simpl. rewrite !lookup_insert_Some, lookup_empty. naive_solver.
Qed.

Lemma merge_config_exact_witness :
  match mergeConfigAndPubTable users_table (NewTableConfig ["name"]) with
  | Ok t => PK t = PK users_table | _ => False
  end.
Proof.
  pose proof (merge_config_exact users_table (NewTableConfig ["name"]) users_keyed) as H.
  unfold mergeConfigAndPubTable in *. simpl in *. apply H.
Defined.

Definition start_relation : recorder :=
  match handle (RelationMsg users answers) at_start with Ok l => l | _ => at_start end.
Lemma relation_handled : OnRelation tables_of opts no_tx users answers at_start = Ok start_relation.
Proof. apply (is_ok_default (handle (RelationMsg users answers) at_start) at_start). vm_compute. reflexivity. Qed.

Lemma relation_rows_exact_witness :
  ∃ rv table, relations start_relation !! 5 = Some rv ∧
    GetTable (MakeTableName "public" "users") start_relation = Some table.
Proof.
  destruct (relation_rows_exact types tables_of opts no_tx at_start start_relation users answers (tuple "1" "ann")
              relation_handled) as (rv & table & H1 & H2 & _).
  - apply (bool_decide_unpack _). vm_compute. reflexivity.
  - reflexivity.
  - intros H. discriminate H.
  - exists rv, table. split; [exact H1|exact H2].
Defined.

(** *** The whole pipeline *)

Definition at_start_sys : listener sys := NewListener cfgs (init cfg).

Definition pstep (p : pev) (l : listener sys) : option (list (event (Tup := Tup)) * listener sys) :=
  match p with
  | PMsg m => match handle m l with
              | Ok l' => Some (EAdd <$> adds types show cols_of tables_of opts no_tx m l, l')
              | _ => None
              end
  | PEv e => s ← step enum accepts e (lsnTracker l); Some ([e], with_lsnTracker s l)
  end.

Fixpoint pexec (ps : list pev) (l : listener sys) : option (list (event (Tup := Tup)) * listener sys) :=
  match ps with
  | [] => Some ([], l)
  | p :: r => '(es, l) ← pstep p l; '(fs, l) ← pexec r l; Some (es ++ fs, l)
  end.

Definition pev_ok (p : pev) : Prop := match p with PMsg m => message_ok m | PEv e => event_ok e end.

Lemma pexec_psteps ps l0 ps0 tr0 l tr l' :
  psteps ps0 tr0 l0 l → Forall pev_ok ps → pexec ps l = Some (tr, l') → psteps (ps0 ++ ps) (tr0 ++ tr) l0 l'.
Proof.
  revert ps0 tr0 l tr. induction ps as [|p ps IH]; intros ps0 tr0 l tr H0 Hok; simpl.
  { intros [= <- <-]. by rewrite !app_nil_r. }
  apply Forall_cons in Hok as [Hp Hok].
  intros ([es l1] & H1 & ([fs l2] & H2 & [= <- <-])%bind_Some)%bind_Some.
  replace (ps0 ++ p :: ps) with ((ps0 ++ [p]) ++ ps) by (by rewrite <- (assoc_L (++))).
  rewrite (assoc_L (++)). apply (IH _ _ l1); [|done|done].
  destruct p as [m|e]; simpl in H1.
  - destruct (handle m l) as [l3| | |] eqn:Hm; try done. injection H1 as <- <-. by apply ps_msg.
  - apply bind_Some in H1 as (s & Hs & [= <- <-]). by apply ps_ev.
Qed.

Definition ran (r : option (list (event (Tup := Tup)) * listener sys)) : bool := match r with Some _ => true | None => false end.
Definition result (r : option (list (event (Tup := Tup)) * listener sys)) := default ([], at_start_sys) r.

Lemma pexec_result ps l :
  ran (pexec ps l) = true → Forall pev_ok ps → psteps ps (result (pexec ps l)).1 l (result (pexec ps l)).2.
Proof.
  intros Hr Hok. destruct (pexec ps l) as [[tr l']|] eqn:E; [|done].
  apply (pexec_psteps ps l [] [] l tr l'); [constructor|done|done].
Qed.

(** The session, then the commit, then delivery of both rows. *)
Definition before : list pev := PMsg <$> session.
Definition sent_row (o : Z) : ResponseEntry := mkRE EmptyString (MakeTableName "public" "users") 100 7 o.
Definition delivery : list pev := [PEv EPop; PEv EDec; PEv (ESuccess (mkResp [sent_row 0; sent_row 1] 100))].

Definition l_before : listener sys := (result (pexec before at_start_sys)).2.
Definition l_commit : listener sys := match handle (CommitMessage 100 3) l_before with Ok l => l | _ => l_before end.
Definition l_after : listener sys := (result (pexec delivery l_commit)).2.

Example delivery_acknowledges : maxAcknowledged (trk (lsnTracker l_after)) = mkCP 100 7.
Proof. vm_compute. reflexivity. Qed.

Lemma commit_handled : handle (CommitMessage 100 3) l_before = Ok l_commit.
Proof. unfold l_commit. apply is_ok_default. vm_compute. reflexivity. Qed.

Definition fresh_test (l : listener sys) : bool :=
  negb (stopping (trk (lsnTracker l))) && negb (isAckedLSN 100 (trk (lsnTracker l))) &&
  match findTrackedWrite 100 (trk (lsnTracker l)) with None => true | Some _ => false end.
Lemma fresh_test_ok (w : WriteRequest Tup) (l : listener sys) :
  LSN w = 100 → fresh_test l = true → fresh w (trk (lsnTracker l)).
Proof.
  intros E. unfold fresh_test, fresh. rewrite E.
  destruct (stopping _), (isAckedLSN _ _), (findTrackedWrite _ _); done.
Qed.

Definition changes7 : list (change Tup) := open_changes types show cols_of tables_of opts no_tx cfgs before 7.

Lemma committed_transaction_delivered_witness :
  justified cfg ((result (pexec before at_start_sys)).1 ++
                 EAdd (request changes7 100 7 3) :: (result (pexec delivery l_commit)).1) 100 1.
Proof.
  apply (committed_transaction_delivered enum accepts types show cols_of tables_of opts no_tx
           LSNSystem.Samples.enum_ok cfg cfgs before (result (pexec before at_start_sys)).1 l_before
           (CommitMessage 100 3) 7 100 3 l_commit delivery (result (pexec delivery l_commit)).1 l_after)
    with (i := 1%nat) (k := "public.users:1").
  - apply pexec_result; [vm_compute; reflexivity|by repeat constructor].
  - right. split; [reflexivity|]. split; [vm_compute; reflexivity|reflexivity].
  - reflexivity.
  - apply fresh_test_ok; [reflexivity|vm_compute; reflexivity].
  - exact commit_handled.
  - apply pexec_result; [vm_compute; reflexivity|by repeat constructor].
  - rewrite delivery_acknowledges. simpl. lia.
  - vm_compute. reflexivity.
Defined.

(** *** Corner cases *)

Definition committed (ms : list message) (c : gmap string TableConfig) (x : Z) : list (list (string * OpKind)) :=
  match handle_all (ms ++ [StreamCommit x 100 3]) (NewListener c [] : recorder) with
  | Ok l => (λ w, (λ e, (we_PK e, Kind e)) <$> Entries w) <$> lsnTracker l
  | _ => []
  end.

(** A row inserted and deleted in one transaction is handed over as an insert. *)
Example insert_then_delete :
  committed [RelationMsg users answers; InsertMessage 7 5 (Some (tuple "1" "ann"));
             DeleteMessage 7 5 (Some (tuple "1" "ann"))] cfgs 7 = [[("1", Insert)]].
Proof. vm_compute. reflexivity. Qed.

(** When the configured columns leave out the key, all rows are one row. *)
Example key_not_configured :
  committed [RelationMsg users answers; InsertMessage 7 5 (Some (tuple "1" "ann"));
             InsertMessage 7 5 (Some (tuple "2" "bob"))]
            {["public.users" := NewTableConfig ["name"]]} 7 = [[("<nil>", Insert)]].
Proof. vm_compute. reflexivity. Qed.

(** Changes streamed under a subtransaction's id are not part of the commit. *)
Example subtransaction_left_out :
  committed [RelationMsg users answers; InsertMessage 7 5 (Some (tuple "1" "ann"));
             InsertMessage 8 5 (Some (tuple "2" "bob"))] cfgs 7 = [[("1", Insert)]].
Proof. vm_compute. reflexivity. Qed.
