(* ===== verification/Replicator.v ===== *)
(** * The replicator (src/replicator/pg_replicator.go)

    The replicator reads the replication stream, hands its messages to the
    listener and reports the listener's commit position to PostgreSQL.

    - [Options] and [NewOptions]: the timeouts;
    - [ReplicationListener]: the interface of src/listener.go that the
      replicator calls, together with what other goroutines may do to the
      listener meanwhile, and [ListenerLaws], what the replicator relies on;
    - the methods: [sendStandBy], [processV2], [processMsg],
      [receiveAndProcessMsg], [advanceSlotsAndSaveState], [GracefulShutdown];
    - [rstep]: the loops [startReplication], [read] and
      [advanceReplSlotsLoop], cut at the points where other goroutines may
      run.

    The connection is not part of the program: what it delivers and whether a
    call fails are data of a step, and the parsers of pglogrepl are arguments.
    A handler that fails is taken to leave the listener as it was. *)

From stdpp Require Import base numbers list gmap strings pretty sorting.
From S2P Require Import Prelude GoStrings PgWal BufferedListener.

(** ** Errors *)

(** [errors.Join], which leaves out nil errors. *)
Definition errors_Join (a b : option goerr) : option goerr :=
  match a, b with
  | Some a, Some b => Some (GoJoin a b)
  | Some a, None | None, Some a => Some a
  | None, None => None
  end.

Definition Canceled : string := "context canceled".
Definition DeadlineExceeded : string := "context deadline exceeded".
Definition ErrOpened : string := "circuit open".

(** ** Options *)

Definition Second : Z := 1000000000.

Record Options := mkOptions {
  SlotName : string; PubName : string;
  StandByTimeout : Z; WatchXID : Z; WatchLSN : Z; ReceiveMsgTimeout : Z; StatsInterval : Z;
  MaxWriteQueueSize : Z; standbyThreshold : Z }.

Definition NewOptions (slotName pubName : string) (standByTimeout receiveTimeout statsInterval maxWriteQueueSize : Z)
    : Options :=
  let actualStandbyTimeout := if bool_decide (0 < standByTimeout) then standByTimeout else 10 * Second in
  let actualReceiveTimeout := if bool_decide (0 < receiveTimeout) then receiveTimeout else 8 * Second in
  let standbyThreshold := Z.quot (i64 (actualStandbyTimeout * 15)) 100 in
  let actualReceiveTimeout :=
    if bool_decide (actualStandbyTimeout ≤ actualReceiveTimeout)
    then Z.quot (i64 (actualStandbyTimeout * (100 - 15))) 100 else actualReceiveTimeout in
  mkOptions slotName pubName actualStandbyTimeout 0 0 actualReceiveTimeout statsInterval maxWriteQueueSize
            standbyThreshold.

(** ** The listener's interface *)

(** The fourteen [On...] methods are one operation on a message; [envStep] is
    what the other goroutines do to the listener. *)
Class ReplicationListener (L E : Type) := {
  onMessage : message → L → res L;
  commitPos : L → L * CommitPoint;
  writeQueueSize : L → Z;
  envStep : E → L → option L;
}.

(** What the replicator does to the listener. *)
Inductive act (E : Type) := AMsg (m : message) | ACommitPos | AEnv (e : E).
Arguments AMsg {_} _.
Arguments ACommitPos {_}.
Arguments AEnv {_} _.

(** ** The replicator *)

(** What is parsed from a WAL message; the database's answers to the queries of
    a relation message are not in it. *)
Inductive logicalMsg :=
| LRelation (r : RelationMessage)
| LMessage (m : message)
| LUnknown (ty : string).

(** What [ReceiveMessage] delivers. *)
Inductive received :=
| RxError (e : goerr)
| RxErrorResponse (msg : string)
| RxCopyData (data : string)
| RxOther (ty : string).

(** Where the replication goroutine is: about to get its first connection, at
    the loop of [startReplication] (with or without a connection), at one of the three parts of the loop of [read], or done. *)
Inductive place :=
| Starting
| Connecting (hasConn : bool)
| AtStandBy | AtReceive | AtUpdate
| Finished (err : option goerr).

Record state := mkState { inStream : bool; txActive : bool; pos : CommitPoint; nextStandBy : option Z }.

Record PGReplicator := mkRepl {
  r_state : state;
  lastSentLSN : Z;
  isStopping : bool;
  replicaLSN : Z;
  TxLastReported : Z;
  LSNLastReported : Z;
  (** [shutDownErr] and whether [childCtx] is cancelled, of the current [read]. *)
  shutDownErr : option goerr;
  childCancelled : bool;
  at_ : place;
  (** The local [lastSentLSN] of [advanceReplSlotsLoop]. *)
  slotsLSN : Z;
  (** The positions reported to PostgreSQL and those given to be saved, whether
      or not a store gave an error, in order. *)
  reported : list Z;
  saved : list Z;
}.

Definition with_state s r :=
  mkRepl s (lastSentLSN r) (isStopping r) (replicaLSN r) (TxLastReported r) (LSNLastReported r)
         (shutDownErr r) (childCancelled r) (at_ r) (slotsLSN r) (reported r) (saved r).
Definition with_stop b r :=
  mkRepl (r_state r) (lastSentLSN r) b (replicaLSN r) (TxLastReported r) (LSNLastReported r)
         (shutDownErr r) (childCancelled r) (at_ r) (slotsLSN r) (reported r) (saved r).
Definition with_err e c r :=
  mkRepl (r_state r) (lastSentLSN r) (isStopping r) (replicaLSN r) (TxLastReported r) (LSNLastReported r)
         e c (at_ r) (slotsLSN r) (reported r) (saved r).
Definition with_at a r :=
  mkRepl (r_state r) (lastSentLSN r) (isStopping r) (replicaLSN r) (TxLastReported r) (LSNLastReported r)
         (shutDownErr r) (childCancelled r) a (slotsLSN r) (reported r) (saved r).
Definition with_slots s sv r :=
  mkRepl (r_state r) (lastSentLSN r) (isStopping r) (replicaLSN r) (TxLastReported r) (LSNLastReported r)
         (shutDownErr r) (childCancelled r) (at_ r) s (reported r) sv.

Definition with_inStream b s := mkState b (txActive s) (pos s) (nextStandBy s).
Definition with_txActive b s := mkState (inStream s) b (pos s) (nextStandBy s).
Definition with_pos p s := mkState (inStream s) (txActive s) p (nextStandBy s).
Definition with_nextStandBy n s := mkState (inStream s) (txActive s) (pos s) n.

Definition canThrottlePgMessage (s : state) : bool := negb (inStream s) && negb (txActive s).

(** [watchAndRestart]: the position before the first one that is reported. *)
Definition startPos (lsn : Z) : CommitPoint := if bool_decide (0 < lsn) then mkCP (lsn - 1) 0 else mkCP 0 0.

Definition MustCreate (lsn : Z) : PGReplicator :=
  mkRepl (mkState false false (startPos lsn) None) 0 false 0 0 0 None false Starting 0 [] [].

Section replicator.
Context {L E : Type} `{!ReplicationListener L E}.
Context (opts : Options).
(** The parsers of pglogrepl, and the network errors (timeouts, closed
    connections, [net.OpError]) among the errors. *)
Context (ParsePrimaryKeepaliveMessage : string → goerr + bool).
Context (ParseXLogData : string → goerr + string).
Context (ParseV2 : string → bool → goerr + logicalMsg).
Context (net_error : goerr → bool).
Implicit Types r : PGReplicator.

Definition isErrRecoverable (e : goerr) : bool := net_error e || Contains (error_text e) "unexpected EOF".

(** *** Reporting *)

(** Whether a status is due; [None] for the zero time. *)
Definition standby_due (now : Z) r : bool :=
  match nextStandBy (r_state r) with
  | None => true
  | Some next => bool_decide (next < now) || bool_decide (next - now ≤ standbyThreshold opts)
  end || bool_decide (lastSentLSN r < cp_LSN (pos (r_state r))) || isStopping r.

(** [now] and [later] are the two readings of the clock; [sendErr] the outcome of
    [SendStandbyStatusUpdate]. *)
Definition sendStandBy (now later : Z) (sendErr : option goerr) r : PGReplicator * option goerr :=
  if standby_due now r then
    let lsnPos := u64 (cp_LSN (pos (r_state r)) + 1) in
    match sendErr with
    | Some e => (r, Some e)
    | None =>
        (mkRepl (with_nextStandBy (Some (later + StandByTimeout opts)) (r_state r))
                (cp_LSN (pos (r_state r))) (isStopping r) lsnPos
                (cp_XID (pos (r_state r))) lsnPos
                (shutDownErr r) (childCancelled r) (at_ r) (slotsLSN r) (reported r ++ [lsnPos]) (saved r), None)
    end
  else (r, None).

(** *** Messages *)

(** The replicator's flags for a message. *)
Definition track_message (m : message) (s : state) : state :=
  match m with
  | BeginMessage _ => with_txActive true s
  | CommitMessage _ _ => with_txActive false s
  | StreamStart _ => with_inStream true (with_txActive true s)
  | StreamStop => with_inStream false s
  | StreamCommit _ _ _ => with_txActive false s
  | _ => s
  end.

(** A result with the state it leaves: the flags are set before the listener is
    called and stay set when it fails. *)
Definition dispatch (m : message) r (l : L) : res (PGReplicator * L * list (act E) * option goerr) :=
  let r := with_state (track_message m (r_state r)) r in
  match onMessage m l with
  | Ok l => Ok (r, l, [AMsg m], None)
  | Err e => Ok (r, l, [], Some e)
  | Panic s => Panic s
  | Fatal s => Fatal s
  end.

Definition processV2 (walData : string) (ans : dbAnswer) r (l : L)
    : res (PGReplicator * L * list (act E) * option goerr) :=
  match ParseV2 walData (inStream (r_state r)) with
  | inl e => Ok (r, l, [], Some (GoWrap "failed to process WAL data" e))
  | inr (LRelation rel) => dispatch (RelationMsg rel ans) r l
  | inr (LMessage m) => dispatch m r l
  | inr (LUnknown ty) => Ok (r, l, [], Some (GoWrap "unknown message type in PG output stream" (GoErr ty)))
  end.

Definition processXLogData (data : string) (ans : dbAnswer) r (l : L) :=
  match ParseXLogData data with
  | inl e => Ok (r, l, [], Some (GoWrap "failed to parse xlogdata" e))
  | inr walData => processV2 walData ans r l
  end.

Definition processPrimaryKeepAlive (data : string) r : PGReplicator * option goerr :=
  match ParsePrimaryKeepaliveMessage data with
  | inl e => (r, Some (GoWrap "failed to parse primary keep alive message" e))
  | inr ReplyRequested =>
      (if (ReplyRequested : bool) then with_state (with_nextStandBy None (r_state r)) r else r, None)
  end.

Definition keepalive_byte : Ascii.ascii := Ascii.ascii_of_nat 107.
Definition xlogdata_byte : Ascii.ascii := Ascii.ascii_of_nat 119.

Definition processMsg (data : string) (ans : dbAnswer) r (l : L)
    : res (PGReplicator * L * list (act E) * option goerr) :=
  match data with
  | EmptyString => Panic "index out of range"
  | String b rest =>
      if decide (b = keepalive_byte) then let '(r, e) := processPrimaryKeepAlive rest r in Ok (r, l, [], e)
      else if decide (b = xlogdata_byte) then processXLogData rest ans r l
      else Ok (r, l, [], Some (GoWrap "command byte not supported" (GoErr (pretty (Z.of_nat (Ascii.nat_of_ascii b))))))
  end.

Definition receiveAndProcessMsg (rx : received) (ans : dbAnswer) r (l : L)
    : res (PGReplicator * L * list (act E) * option goerr) :=
  match rx with
  | RxError e =>
      Ok (r, l, [], if errors_Is e DeadlineExceeded then None else Some (GoWrap "failed to receive message" e))
  | RxErrorResponse msg => Ok (r, l, [], Some (GoWrap "received PG wal error" (GoErr msg)))
  | RxOther ty => Ok (r, l, [], Some (GoWrap "received unexpected message" (GoErr ty)))
  | RxCopyData data =>
      mbind (M := res) (λ '(r, l, acts, e), Ok (r, l, acts, GoWrap "failed to process message" <$> e))
            (processMsg data ans r l)
  end.

(** *** Saved positions *)

(** The errors of the two stores, the table of [appstate.Save] and the listener's
    [SaveState], are logged and change nothing here.  [advanceErr] is the outcome
    of advancing the slots of the replicas, [syncSlots] whether that is tried. *)
Definition advanceSlotsAndSaveState (syncSlots : bool) (advanceErr : option goerr) (pointLSN : Z) r
    : PGReplicator * Z :=
  if bool_decide (pointLSN = 0) then (r, 0)
  else
    let r := with_slots (slotsLSN r) (saved r ++ [pointLSN]) r in
    if syncSlots && bool_decide (is_Some advanceErr) then (r, 0) else (r, pointLSN).

(** One tick of [advanceReplSlotsLoop]. *)
Definition slots_tick (syncSlots : bool) (advanceErr : option goerr) r : PGReplicator :=
  let pointLSN := replicaLSN r in
  if bool_decide (slotsLSN r < pointLSN) then
    let '(r, ls) := advanceSlotsAndSaveState syncSlots advanceErr pointLSN r in
    if bool_decide (0 < ls) then with_slots ls (saved r) r else r
  else r.

(** [GracefulShutdown], after the listener has been shut down. *)
Definition GracefulShutdown (syncSlots : bool) (advanceErr : option goerr) r (l : L) : PGReplicator * L :=
  let '(l, cp) := commitPos l in
  ((advanceSlotsAndSaveState syncSlots advanceErr (cp_LSN cp) (with_stop true r)).1, l).

(** *** The loops *)

(** The end of [read] with an error, as [startReplication] takes it. *)
Definition end_read (err : option goerr) r : PGReplicator :=
  match err with
  | None => with_at (Connecting true) r
  | Some e => if bool_decide (0 < WatchXID opts) || negb (isErrRecoverable e)
              then with_at (Finished (Some e)) r else with_at (Connecting false) r
  end.

(** A round of [startReplication] up to the call of [read]: [connErr] is the
    outcome of connecting again, [startErr] that of [StartReplication]. *)
Definition connect_round (hasConn : bool) (now : Z) (connErr startErr : option goerr) r : PGReplicator :=
  if isStopping r then with_at (Finished (Some (GoErr Canceled))) r
  else match (if hasConn then None else connErr) with
       | Some e => if errors_Is e Canceled then with_at (Finished (Some e)) r else with_at (Connecting false) r
       | None =>
           match startErr with
           | Some e => if errors_Is e Canceled || errors_Is e ErrOpened
                       then with_at (Finished (Some e)) r else with_at (Connecting false) r
           | None =>
               with_at AtStandBy
                 (with_err None false
                    (with_state (with_nextStandBy (Some (now + StandByTimeout opts)) (r_state r)) r))
           end
       end.

(** The head of the loop of [read]. *)
Definition read_standby (now later : Z) (sendErr : option goerr) r : PGReplicator :=
  match sendStandBy now later sendErr r with
  | (r, Some e) => end_read (errors_Join (shutDownErr r) (Some e)) r
  | (r, None) => match shutDownErr r with
                 | Some e => end_read (Some e) r
                 | None => with_at AtReceive r
                 end
  end.

(** Its middle: a message, unless the write queue is full between transactions. *)
Definition throttled r (l : L) : bool :=
  negb (bool_decide (MaxWriteQueueSize opts = 0) || bool_decide (writeQueueSize l < MaxWriteQueueSize opts) ||
        negb (canThrottlePgMessage (r_state r))).
Definition read_receive (rx : received) (ans : dbAnswer) r (l : L) : res (PGReplicator * L * list (act E)) :=
  if throttled r l then Ok (with_at AtUpdate r, l, [])
  else mbind (M := res) (λ '(r, l, acts, e),
               Ok (with_at AtUpdate (with_err (errors_Join (shutDownErr r) e) (childCancelled r) r), l, acts))
             (receiveAndProcessMsg rx ans r l).

(** Its end: the new position. *)
Definition errWatchXID : string := "reached WatchXID".
Definition read_update r (l : L) : PGReplicator * L :=
  let '(l, cp) := commitPos l in
  let r := if bool_decide (cp_LSN (pos (r_state r)) < cp_LSN cp)
           then with_state (with_pos cp (r_state r)) r else r in
  if bool_decide (0 < WatchXID opts) && bool_decide (WatchXID opts ≤ cp_XID (pos (r_state r)))
  then (end_read (errors_Join (shutDownErr r) (Some (GoWrap errWatchXID (GoErr (pretty (WatchXID opts)))))) r, l)
  else (with_at AtStandBy r, l).

(** A step: of the replication goroutine, of the goroutine that waits for a
    coordinated shutdown, of the slots loop, of the shutdown of the process, or
    of the listener's goroutines. *)
Inductive rev :=
| RStart (connErr : option goerr)
| RConnect (now : Z) (connErr startErr : option goerr)
| RStandBy (now later : Z) (sendErr : option goerr)
| RReceive (rx : received) (ans : dbAnswer)
| RUpdate
| RSignal (err : option goerr)
| RSlots (syncSlots : bool) (advanceErr : option goerr)
| RStop
| RGraceful (syncSlots : bool) (advanceErr : option goerr)
| REnv (e : E).

(** With a cancelled context [ReceiveMessage] fails, and not with a deadline. *)
Definition rx_possible (rx : received) r : bool :=
  negb (childCancelled r) || match rx with RxError e => negb (errors_Is e DeadlineExceeded) | _ => false end.

Definition in_read r : bool := match at_ r with AtStandBy | AtReceive | AtUpdate => true | _ => false end.

(** [None] is a step that is not possible here, or the end of the process. *)
Definition rstep (ev : rev) (x : PGReplicator * L) : option (list (act E) * (PGReplicator * L)) :=
  let '(r, l) := x in
  match ev with
  | RStart connErr =>
      match at_ r with
      | Starting => Some ([], (match connErr with
                               | Some e => with_at (Finished (Some e)) r
                               | None => with_at (Connecting true) r
                               end, l))
      | _ => None
      end
  | RConnect now connErr startErr =>
      match at_ r with
      | Connecting hasConn => Some ([], (connect_round hasConn now connErr startErr r, l))
      | _ => None
      end
  | RStandBy now later sendErr =>
      match at_ r with AtStandBy => Some ([], (read_standby now later sendErr r, l)) | _ => None end
  | RReceive rx ans =>
      match at_ r, rx_possible rx r with
      | AtReceive, true =>
          match read_receive rx ans r l with
          | Ok (r, l, acts) => Some (acts, (r, l))
          | _ => None
          end
      | _, _ => None
      end
  | RUpdate => match at_ r with AtUpdate => Some ([ACommitPos], read_update r l) | _ => None end
  | RSignal err => if in_read r && negb (childCancelled r) then Some ([], (with_err err true r, l)) else None
  | RSlots sync advanceErr => Some ([], (slots_tick sync advanceErr r, l))
  | RStop => Some ([], (with_stop true r, l))
  | RGraceful sync advanceErr =>
      if isStopping r then Some ([ACommitPos], GracefulShutdown sync advanceErr r l) else None
  | REnv e => l' ← envStep e l; Some ([AEnv e], (r, l'))
  end.

Definition lact (a : act E) (l : L) : option L :=
  match a with
  | AMsg m => match onMessage m l with Ok l => Some l | _ => None end
  | ACommitPos => Some (commitPos l).1
  | AEnv e => envStep e l
  end.
Fixpoint lacts (acts : list (act E)) (l : L) : option L :=
  match acts with [] => Some l | a :: r => l ← lact a l; lacts r l end.

(** *** What steps change *)

(** The fields that say what was reported and saved. *)
Definition view r := (pos (r_state r), lastSentLSN r, replicaLSN r, slotsLSN r, reported r, saved r).

Lemma view_fields r r' :
  view r' = view r →
  pos (r_state r') = pos (r_state r) ∧ replicaLSN r' = replicaLSN r ∧ slotsLSN r' = slotsLSN r ∧
  reported r' = reported r ∧ saved r' = saved r.
Proof using Type. unfold view. intros [= -> _ -> -> -> ->]. done. Qed.

(** A message is either handed over or leaves the listener alone. *)
Definition handed (l l' : L) (acts : list (act E)) : Prop :=
  (acts = [] ∧ l' = l) ∨ ∃ m, acts = [AMsg m] ∧ onMessage m l = Ok l'.

Lemma dispatch_view m r l r' l' acts e :
  dispatch m r l = Ok (r', l', acts, e) → view r' = view r ∧ handed l l' acts.
Proof using Type.
  unfold dispatch, handed. destruct (onMessage m l) as [k| | |] eqn:Hm; try done.
  all: intros [= <- <- <- <-]; split; [by destruct m|eauto].
Qed.

Lemma receive_view rx ans r l r' l' acts e :
  receiveAndProcessMsg rx ans r l = Ok (r', l', acts, e) → view r' = view r ∧ handed l l' acts.
Proof using Type.
  assert (view r = view r ∧ handed l l []) as H0 by (split; [done|by left]).
  destruct rx as [err|msg|data|ty]; simpl; try (intros [= <- <- <- <-]; exact H0).
  intros ([[[r1 l1] a1] e1] & H & [= <- <- <- _])%res_bind_Ok. revert H.
  destruct data as [|b rest]; simpl; [done|]. case_decide; [|case_decide].
  - unfold processPrimaryKeepAlive. destruct (ParsePrimaryKeepaliveMessage rest) as [e0|[]];
      intros [= <- <- <- <-]; exact H0.
  - unfold processXLogData, processV2. destruct (ParseXLogData rest) as [e0|wal]; [intros [= <- <- <- <-]; exact H0|].
    destruct (ParseV2 wal _) as [e0|[rel|m|ty]]; try (intros [= <- <- <- <-]; exact H0); apply dispatch_view.
  - intros [= <- <- <- <-]. exact H0.
Qed.

Lemma end_read_view err r : view (end_read err r) = view r.
Proof using Type. unfold end_read. destruct err; [|done]. by destruct (_ || _). Qed.

Lemma connect_view hc now ce se r : view (connect_round hc now ce se r) = view r.
Proof using Type.
  unfold connect_round. destruct (isStopping r); [done|]. destruct (if hc then None else ce) as [e|].
  - by destruct (errors_Is e Canceled).
  - destruct se as [e|]; [|done]. by destruct (_ || _).
Qed.

Lemma standby_view now later se r :
  view (read_standby now later se r) = view r ∨
  (let p := u64 (cp_LSN (pos (r_state r)) + 1) in
   view (read_standby now later se r) =
     (pos (r_state r), cp_LSN (pos (r_state r)), p, slotsLSN r, reported r ++ [p], saved r)).
Proof using Type.
  unfold read_standby, sendStandBy. destruct (standby_due now r).
  - destruct se as [e|]; [left; apply end_read_view|]. right. cbn [shutDownErr].
    destruct (shutDownErr r); [by rewrite end_read_view|done].
  - left. destruct (shutDownErr r); [apply end_read_view|done].
Qed.

(** Saving positions changes only what is saved. *)
Definition saves (p : Z) r r' : Prop :=
  pos (r_state r') = pos (r_state r) ∧ replicaLSN r' = replicaLSN r ∧ reported r' = reported r ∧
  (saved r' = saved r ∨ saved r' = saved r ++ [p]).

Lemma advance_saves sync ad p r : saves p r (advanceSlotsAndSaveState sync ad p r).1.
Proof using Type.
  unfold advanceSlotsAndSaveState, saves. case_bool_decide; [by eauto|].
  destruct (sync && _); simpl; eauto.
Qed.

Lemma slots_saves sync ad r : saves (replicaLSN r) r (slots_tick sync ad r).
Proof using Type.
  unfold slots_tick. case_bool_decide; [|unfold saves; eauto].
  pose proof (advance_saves sync ad (replicaLSN r) r) as Hs.
  destruct (advanceSlotsAndSaveState _ _ _ _) as [r1 ls]. simpl in Hs. by case_bool_decide.
Qed.

Lemma rstep_acts ev r l acts r' l' : rstep ev (r, l) = Some (acts, (r', l')) → lacts acts l = Some l'.
Proof using Type.
  destruct ev as [ce|now ce se|now later se|rx ans| |err|sy ad| |sy ad|e]; cbn [rstep].
  - destruct (at_ r); try done. by intros [= <- _ <-].
  - destruct (at_ r); try done. by intros [= <- _ <-].
  - destruct (at_ r); try done. by intros [= <- _ <-].
  - destruct (at_ r), (rx_possible rx r); try done. unfold read_receive. destruct (throttled r l).
    { by intros [= <- _ <-]. }
    destruct (receiveAndProcessMsg rx ans r l) as [[[[r1 l1] a1] e1]| | |] eqn:Hr; try done.
    intros [= <- _ <-]. apply receive_view in Hr as [_ [[-> ->]|(m & -> & Hm)]]; [done|]. simpl. by rewrite Hm.
  - destruct (at_ r); try done. unfold read_update. destruct (commitPos l) as [l1 cp] eqn:Hc.
    destruct (_ && _); intros [= <- _ <-]; simpl; by rewrite Hc.
  - destruct (_ && _); [|done]. by intros [= <- _ <-].
  - by intros [= <- _ <-].
  - by intros [= <- _ <-].
  - destruct (isStopping r); [|done]. unfold GracefulShutdown. destruct (commitPos l) as [l1 cp] eqn:Hc.
    intros [= <- _ <-]. simpl. by rewrite Hc.
  - intros (l1 & He & [= <- _ <-])%bind_Some. simpl. by rewrite He.
Qed.

(** *** Runs *)

Context (act_ok : act E → Prop).

Inductive rsteps : list rev → list (act E) → PGReplicator * L → PGReplicator * L → Prop :=
| rs_nil x : rsteps [] [] x x
| rs_snoc evs acts x y ev as_ z :
    rsteps evs acts x y → rstep ev y = Some (as_, z) → Forall act_ok as_ →
    rsteps (evs ++ [ev]) (acts ++ as_) x z.
End replicator.

(** ** What the replicator relies on *)

(** The acknowledged position of a listener never goes back, and [CommitPos]
    returns it; [good] is an invariant of the listener. *)
Class ListenerLaws (L E : Type) `{!ReplicationListener L E} := {
  acked : L → Z;
  good : L → Prop;
  act_ok : act E → Prop;
  lact_law l a l' : good l → act_ok a → lact a l = Some l' → good l' ∧ acked l ≤ acked l';
  commitPos_law l : good l → cp_LSN (commitPos l).2 = acked (commitPos l).1;
  commitPos_ok : act_ok ACommitPos;
}.

Section safety.
Context {L E : Type} `{!ReplicationListener L E, !ListenerLaws L E}.
Context (opts : Options).
Context (ParsePrimaryKeepaliveMessage : string → goerr + bool).
Context (ParseXLogData : string → goerr + string).
Context (ParseV2 : string → bool → goerr + logicalMsg).
Context (net_error : goerr → bool).
Notation rstep := (rstep opts ParsePrimaryKeepaliveMessage ParseXLogData ParseV2 net_error).
Notation rsteps := (rsteps opts ParsePrimaryKeepaliveMessage ParseXLogData ParseV2 net_error act_ok).
Implicit Types (r : PGReplicator) (l : L).

Notation pos_of r := (cp_LSN (pos (r_state r))).

(** The position is between the start and the acknowledged one; what was
    reported or saved is not beyond; reports come in order. *)
Record rinv (start : Z) r l : Prop := {
  ri_good : good l;
  ri_nonneg : 0 ≤ pos_of r;
  ri_pos : pos_of r ≤ Z.max (cp_LSN (startPos start)) (acked l);
  ri_replica : replicaLSN r ≤ pos_of r + 1;
  ri_reported : Forall (λ p, p ≤ pos_of r + 1) (reported r);
  ri_saved : Forall (λ p, p ≤ Z.max (pos_of r + 1) (acked l)) (saved r);
  ri_sorted : pos_of r + 1 < two64 → StronglySorted Z.le (reported r);
}.

Lemma rinv_view start r r' l l' :
  rinv start r l → view r' = view r → good l' → acked l ≤ acked l' → rinv start r' l'.
Proof using Type.
  intros [Hg H0 Hp Hr Hf Hs Ho] (E1 & E2 & E3 & E4 & E5)%view_fields Hg' Ha.
  split; rewrite ?E1, ?E2, ?E4, ?E5; try done; [lia|].
  eapply Forall_impl; [exact Hs|]. simpl. lia.
Qed.

Lemma rinv_report start r r' l :
  let p := u64 (pos_of r + 1) in
  rinv start r l → view r' = (pos (r_state r), pos_of r, p, slotsLSN r, reported r ++ [p], saved r) → rinv start r' l.
Proof using Type.
  intros p [Hg H0 Hp Hr Hf Hs Ho]. unfold view. intros [= E1 E2 E3 E4 E5 E6].
  assert (p ≤ pos_of r + 1) by (apply Z.mod_le; unfold two64; lia).
  split; rewrite ?E1, ?E3, ?E5, ?E6; try done.
  - apply Forall_app. split; [done|]. by repeat constructor.
  - intros Hb. assert (p = pos_of r + 1) as -> by (apply u64_small; lia).
    apply StronglySorted_app; split_and!; [|by apply Ho|by repeat constructor].
    intros x y Hx ->%list_elem_of_singleton. rewrite Forall_forall in Hf. by apply Hf.
Qed.

Lemma rinv_saves start p r r' l l' :
  rinv start r l → saves p r r' → p ≤ Z.max (pos_of r + 1) (acked l') → good l' → acked l ≤ acked l' →
  rinv start r' l'.
Proof using Type.
  intros [Hg H0 Hp Hr Hf Hs Ho] (E1 & E2 & E3 & E4) Hle Hg' Ha.
  assert (Forall (λ q, q ≤ Z.max (pos_of r + 1) (acked l')) (saved r)) by
    (eapply Forall_impl; [exact Hs|]; simpl; lia).
  split; rewrite ?E1, ?E2, ?E3; try done; [lia|].
  destruct E4 as [->| ->]; [done|]. apply Forall_app. split; [done|]. by repeat constructor.
Qed.

(** *** Every step keeps the invariant *)

Lemma commitPos_inv l : good l → good (commitPos l).1 ∧ acked l ≤ acked (commitPos l).1.
Proof using Type. intros Hg. by apply (lact_law l ACommitPos (commitPos l).1 Hg commitPos_ok). Qed.

Lemma rinv_update start r l :
  rinv start r l → rinv start (read_update opts net_error r l).1 (read_update opts net_error r l).2.
Proof using Type.
  intros Hi. destruct (commitPos_inv l (ri_good _ _ _ Hi)) as [Hg Ha].
  pose proof (commitPos_law l (ri_good _ _ _ Hi)) as Hc. unfold read_update.
  destruct (commitPos l) as [l' cp]. simpl in *.
  set (r1 := if bool_decide _ then _ else r).
  assert (rinv start r1 l') as H1.
  { unfold r1. case_bool_decide; [|by eapply rinv_view].
    destruct Hi as [_ H0 Hp Hr Hf Hs Ho]. split; simpl; try done; try lia.
    - eapply Forall_impl; [exact Hf|]. simpl. lia.
    - eapply Forall_impl; [exact Hs|]. simpl. lia.
    - intros Hb. apply Ho. lia. }
  destruct (_ && _); simpl.
  - eapply rinv_view; [exact H1|apply end_read_view|done|done].
  - by eapply rinv_view.
Qed.

Lemma rinv_graceful start r l sync ad :
  rinv start r l → rinv start (GracefulShutdown sync ad r l).1 (GracefulShutdown sync ad r l).2.
Proof using Type.
  intros Hi. destruct (commitPos_inv l (ri_good _ _ _ Hi)) as [Hg Ha].
  pose proof (commitPos_law l (ri_good _ _ _ Hi)) as Hc. unfold GracefulShutdown.
  destruct (commitPos l) as [l' cp]. simpl in *.
  eapply (rinv_saves start (cp_LSN cp) (with_stop true r)); [|apply advance_saves|lia|done|done].
  eapply (rinv_view start r _ l l); [done|done|apply Hi|done].
Qed.

Lemma rinv_receive start r l rx ans r' l' acts :
  rinv start r l → Forall act_ok acts →
  read_receive opts ParsePrimaryKeepaliveMessage ParseXLogData ParseV2 rx ans r l = Ok (r', l', acts) →
  rinv start r' l'.
Proof using Type.
  intros Hi Hok. unfold read_receive. destruct (throttled opts r l).
  { intros [= <- <- <-]. eapply rinv_view; [exact Hi|done|apply Hi|done]. }
  intros ([[[r1 l1] a1] e1] & H1 & [= <- <- <-])%res_bind_Ok. apply receive_view in H1 as [Hv Hh].
  assert (good l1 ∧ acked l ≤ acked l1) as [Hg Ha].
  { destruct Hh as [[-> ->]|(m & -> & Hm)]; [split; [apply Hi|done]|]. rewrite Forall_singleton in Hok.
    apply (lact_law l (AMsg m)); [apply Hi|done|]. simpl. by rewrite Hm. }
  by eapply rinv_view.
Qed.

Lemma rinv_step start ev r l acts r' l' :
  rinv start r l → Forall act_ok acts → rstep ev (r, l) = Some (acts, (r', l')) → rinv start r' l'.
Proof using Type.
  intros Hi Hok. assert (Hg := ri_good _ _ _ Hi).
  destruct ev as [ce|now ce se|now later se|rx ans| |err|sy ad| |sy ad|e]; cbn [Replicator.rstep].
  - destruct (at_ r); try done. intros [= <- <- <-]. destruct ce; by eapply rinv_view.
  - destruct (at_ r); try done. intros [= <- <- <-]. eapply rinv_view; [exact Hi|apply connect_view|done|done].
  - destruct (at_ r); try done. intros [= <- <- <-].
    destruct (standby_view opts net_error now later se r) as [Hv|Hv];
      [by eapply rinv_view|by eapply rinv_report].
  - destruct (at_ r), (rx_possible rx r); try done.
    destruct (read_receive _ _ _ _ _ _ _ _) as [[[r1 l1] a1]| | |] eqn:H; try done. intros [= <- <- <-].
    by eapply rinv_receive.
  - destruct (at_ r); try done. intros [= <- Hu]. pose proof (rinv_update start r l Hi) as H. by rewrite Hu in H.
  - destruct (_ && _); [|done]. intros [= <- <- <-]. by eapply rinv_view.
  - intros [= <- <- <-]. eapply rinv_saves; [exact Hi|apply slots_saves| |done|done].
    pose proof (ri_replica _ _ _ Hi). lia.
  - intros [= <- <- <-]. by eapply rinv_view.
  - destruct (isStopping r); [|done]. intros [= <- Hu].
    pose proof (rinv_graceful start r l sy ad Hi) as H. by rewrite Hu in H.
  - intros (l1 & He & [= <- <- <-])%bind_Some. rewrite Forall_singleton in Hok.
    destruct (lact_law l (AEnv e) l1 Hg Hok He). by eapply rinv_view.
Qed.

Lemma rinv_start start l : 0 ≤ start → good l → 0 ≤ acked l → rinv start (MustCreate start) l.
Proof using Type.
  intros Hs Hg Ha. unfold MustCreate. split; simpl; try done; try constructor;
    unfold startPos; case_bool_decide; simpl; lia.
Qed.

Lemma rinv_run start evs acts x y :
  rinv start x.1 x.2 → rsteps evs acts x y → rinv start y.1 y.2.
Proof using Type.
  intros Hi H. induction H as [x|evs acts x [r l] ev as_ [r' l'] _ IH Hs Hok]; [done|].
  by eapply rinv_step; [apply IH|exact Hok|exact Hs].
Qed.

(** C13: the replicator reports and saves only what the listener acknowledges.
    Whatever arrives on the connection, however it breaks and is restarted, and
    whatever the other goroutines do meanwhile: a position reported to
    PostgreSQL or saved for a restart is at most one past the start position
    or the listener's acknowledged one, and the positions reported never go
    back. *)
Theorem reports_follow_listener start l0 evs acts r l :
  0 ≤ start → good l0 → 0 ≤ acked l0 → rsteps evs acts (MustCreate start, l0) (r, l) →
  let bound := Z.max (cp_LSN (startPos start)) (acked l) + 1 in
  (∀ p, p ∈ reported r → p ≤ bound) ∧ (∀ p, p ∈ saved r → p ≤ bound) ∧
  (bound < two64 → StronglySorted Z.le (reported r)).
Proof using Type.
  intros Hs Hg Ha H. apply (rinv_run start) in H; [|by apply rinv_start].
  destruct H as [_ H0 Hp _ Hf Hsv Ho]. rewrite Forall_forall in Hf, Hsv. cbv zeta. simpl in *. split_and!.
  - intros p Hin%Hf. lia.
  - intros p Hin%Hsv. lia.
  - intros Hb. apply Ho. lia.
Qed.

(** *** Errors end the connection *)

(** No message is handed over before a new connection is started. *)
Definition quiet r : Prop :=
  match at_ r with
  | AtStandBy | AtUpdate => shutDownErr r ≠ None ∨ childCancelled r = true
  | AtReceive => childCancelled r = true
  | _ => True
  end.

Definition connects (ev : rev (E := E)) : bool := match ev with RConnect _ _ _ => true | _ => false end.

Lemma end_read_out err r : in_read (end_read opts net_error err r) = false.
Proof using Type. unfold end_read. destruct err; [|done]. by destruct (_ || _). Qed.

Lemma out_quiet r : in_read r = false → quiet r.
Proof using Type. unfold in_read, quiet. by destruct (at_ r). Qed.

Lemma send_fields now later se r :
  let r' := (sendStandBy opts now later se r).1 in
  shutDownErr r' = shutDownErr r ∧ childCancelled r' = childCancelled r ∧ at_ r' = at_ r.
Proof using Type. unfold sendStandBy. destruct (standby_due opts now r); [|done]. by destruct se. Qed.

Lemma quiet_standby now later se r :
  at_ r = AtStandBy → quiet r → quiet (read_standby opts net_error now later se r).
Proof using Type.
  unfold quiet at 1. intros -> Hq. unfold read_standby.
  destruct (send_fields now later se r) as (E1 & E2 & E3). destruct (sendStandBy _ _ _ _ _) as [r1 [e|]]; simpl in *.
  - apply out_quiet, end_read_out.
  - rewrite <- E1, <- E2 in Hq. destruct (shutDownErr r1); [apply out_quiet; exact (end_read_out (Some _) _)|].
    unfold quiet. simpl. by destruct Hq.
Qed.

Lemma read_standby_out now later se r :
  shutDownErr r ≠ None → in_read (read_standby opts net_error now later se r) = false.
Proof using Type.
  intros Hq. unfold read_standby. destruct (send_fields now later se r) as (E1 & _ & _).
  destruct (sendStandBy _ _ _ _ _) as [r1 [e|]]; simpl in *; [apply end_read_out|].
  rewrite E1. destruct (shutDownErr r); [exact (end_read_out (Some _) _)|done].
Qed.

Lemma quiet_update r l :
  at_ r = AtUpdate → quiet r → quiet (read_update opts net_error r l).1.
Proof using Type.
  unfold quiet at 1. intros -> Hq. unfold read_update. destruct (commitPos l) as [l' cp].
  set (r1 := if bool_decide _ then _ else r).
  assert (shutDownErr r1 = shutDownErr r ∧ childCancelled r1 = childCancelled r) as [E1 E2]
    by (unfold r1; by case_bool_decide).
  destruct (_ && _); simpl; [apply out_quiet, end_read_out|]. unfold quiet. simpl. by rewrite E1, E2.
Qed.

Lemma quiet_receive rx ans r l r' l' acts :
  childCancelled r = true → rx_possible rx r = true →
  read_receive opts ParsePrimaryKeepaliveMessage ParseXLogData ParseV2 rx ans r l = Ok (r', l', acts) →
  quiet r' ∧ acts = [].
Proof using Type.
  unfold rx_possible. intros Hc Hrx. rewrite Hc in Hrx. unfold read_receive. destruct (throttled opts r l).
  - intros [= <- <- <-]. split; [|done]. by right.
  - destruct rx as [e| | |]; try done. simpl in Hrx. simpl. intros [= <- <- <-]. split; [|done]. right. exact Hc.
Qed.

Lemma quiet_same r r' :
  quiet r → at_ r' = at_ r → shutDownErr r' = shutDownErr r → childCancelled r' = childCancelled r → quiet r'.
Proof using Type. unfold quiet. intros Hq -> -> ->. done. Qed.

Lemma advance_place sync ad p r :
  let r' := (advanceSlotsAndSaveState sync ad p r).1 in
  at_ r' = at_ r ∧ shutDownErr r' = shutDownErr r ∧ childCancelled r' = childCancelled r.
Proof using Type. unfold advanceSlotsAndSaveState. case_bool_decide; [done|]. by destruct (sync && _). Qed.

Lemma slots_place sync ad r :
  let r' := slots_tick sync ad r in
  at_ r' = at_ r ∧ shutDownErr r' = shutDownErr r ∧ childCancelled r' = childCancelled r.
Proof using Type.
  unfold slots_tick. case_bool_decide; [|done]. pose proof (advance_place sync ad (replicaLSN r) r) as Hs.
  destruct (advanceSlotsAndSaveState _ _ _ _) as [r1 ls]. by case_bool_decide.
Qed.

Lemma quiet_step ev r l acts r' l' :
  quiet r → connects ev = false → rstep ev (r, l) = Some (acts, (r', l')) → quiet r' ∧ ∀ m, AMsg m ∉ acts.
Proof using Type.
  intros Hq Hc. destruct ev as [ce|now ce se|now later se|rx ans| |err|sy ad| |sy ad|e];
    cbn [Replicator.rstep].
  - destruct (at_ r); try done. intros [= <- <- <-]. split; [by destruct ce|set_solver].
  - done.
  - destruct (at_ r) eqn:Ea; try done. intros [= <- <- <-]. split; [by apply quiet_standby|set_solver].
  - destruct (at_ r) eqn:Ea, (rx_possible rx r) eqn:Hrx; try done.
    destruct (read_receive _ _ _ _ _ _ _ _) as [[[r1 l1] a1]| | |] eqn:Hr; try done. intros [= <- <- <-].
    unfold quiet in Hq. rewrite Ea in Hq. destruct (quiet_receive _ _ _ _ _ _ _ Hq Hrx Hr) as [Hq' ->].
    split; [done|set_solver].
  - destruct (at_ r) eqn:Ea; try done. intros [= <- Hu]. pose proof (quiet_update r l Ea Hq) as Hq'.
    rewrite Hu in Hq'. split; [done|set_solver].
  - destruct (in_read r) eqn:Hin; [|done]. destruct (childCancelled r); [done|]. intros [= <- <- <-].
    split; [|set_solver]. revert Hin. unfold quiet, in_read. simpl. destruct (at_ r); try done; by right.
  - intros [= <- <- <-]. destruct (slots_place sy ad r) as (? & ? & ?).
    split; [by eapply quiet_same|set_solver].
  - intros [= <- <- <-]. split; [by eapply quiet_same|set_solver].
  - destruct (isStopping r); [|done]. unfold GracefulShutdown. destruct (commitPos l) as [l1 cp].
    intros [= <- <- <-]. destruct (advance_place sy ad (cp_LSN cp) (with_stop true r)) as (? & ? & ?).
    split; [by eapply quiet_same|set_solver].
  - intros (l1 & _ & [= <- <- <-])%bind_Some. split; [done|set_solver].
Qed.

Lemma quiet_run evs acts x y :
  quiet x.1 → Forall (λ ev, connects ev = false) evs → rsteps evs acts x y → quiet y.1 ∧ ∀ m, AMsg m ∉ acts.
Proof using Type.
  intros Hq Hc H. induction H as [x|evs acts x [r l] ev as_ [r' l'] _ IH Hs _]; [split; [done|set_solver]|].
  apply Forall_app in Hc as [Hc Hev]. rewrite Forall_singleton in Hev.
  destruct (IH Hq Hc) as [Hq1 Hm]. destruct (quiet_step _ _ _ _ _ _ Hq1 Hev Hs). set_solver.
Qed.

(** Once the shutdown error is set the loop ends with its next two parts, and
    nothing is handed over meanwhile. *)
Lemma error_ends_loop r l :
  at_ r = AtUpdate → shutDownErr r ≠ None →
  (∀ evs acts y, rsteps evs acts (r, l) y → Forall (λ ev, connects ev = false) evs → ∀ m, AMsg m ∉ acts) ∧
  ∃ r2 l2, rstep RUpdate (r, l) = Some ([ACommitPos], (r2, l2)) ∧
    (in_read r2 = false ∨
     ∀ now later se, ∃ r3, rstep (RStandBy now later se) (r2, l2) = Some ([], (r3, l2)) ∧ in_read r3 = false).
Proof using Type.
  intros E1 He. split.
  - intros evs acts' y H Hc. apply (quiet_run evs acts' (r, l) y); [|done|done].
    unfold quiet. simpl. rewrite E1. by left.
  - cbn [Replicator.rstep]. rewrite E1. destruct (read_update opts net_error r l) as [r2 l2] eqn:Hu.
    exists r2, l2. split; [done|]. revert Hu. unfold read_update. destruct (commitPos l) as [l' cp].
    set (r0 := if bool_decide _ then _ else r).
    assert (shutDownErr r0 = shutDownErr r) as E0 by (unfold r0; by case_bool_decide).
    destruct (_ && _); intros [= <- <-]; [left; apply end_read_out|right].
    intros now later se. eexists. split; [done|]. apply read_standby_out. simpl. by rewrite E0.
Qed.

(** The message a WAL message is for the listener. *)
Definition logical_message (lm : logicalMsg) (ans : dbAnswer) : option message :=
  match lm with LRelation rel => Some (RelationMsg rel ans) | LMessage m => Some m | LUnknown _ => None end.

(** What can fail between the connection and the listener. *)
Inductive failing (ans : dbAnswer) r l : received → Prop :=
| fail_receive e : errors_Is e DeadlineExceeded = false → failing ans r l (RxError e)
| fail_response msg : failing ans r l (RxErrorResponse msg)
| fail_unexpected ty : failing ans r l (RxOther ty)
| fail_command b rest : b ≠ keepalive_byte → b ≠ xlogdata_byte → failing ans r l (RxCopyData (String b rest))
| fail_keepalive rest e :
    ParsePrimaryKeepaliveMessage rest = inl e → failing ans r l (RxCopyData (String keepalive_byte rest))
| fail_xlogdata rest e : ParseXLogData rest = inl e → failing ans r l (RxCopyData (String xlogdata_byte rest))
| fail_wal rest wal e :
    ParseXLogData rest = inr wal → ParseV2 wal (inStream (r_state r)) = inl e →
    failing ans r l (RxCopyData (String xlogdata_byte rest))
| fail_type rest wal ty :
    ParseXLogData rest = inr wal → ParseV2 wal (inStream (r_state r)) = inr (LUnknown ty) →
    failing ans r l (RxCopyData (String xlogdata_byte rest))
| fail_listener rest wal lm m e :
    ParseXLogData rest = inr wal → ParseV2 wal (inStream (r_state r)) = inr lm →
    logical_message lm ans = Some m → onMessage m l = Err e →
    failing ans r l (RxCopyData (String xlogdata_byte rest)).

(** Every failure comes out as an error, with the listener as it was. *)
Lemma failing_is_error rx ans r l :
  failing ans r l rx →
  ∃ r' e, receiveAndProcessMsg ParsePrimaryKeepaliveMessage ParseXLogData ParseV2 rx ans r l = Ok (r', l, [], Some e) ∧
    shutDownErr r' = shutDownErr r ∧ childCancelled r' = childCancelled r.
Proof using Type.
  destruct 1 as [e He|msg|ty|b rest H1 H2|rest e H|rest e H|rest wal e H1 H2|rest wal ty H1 H2|rest wal lm m e H1 H2 H3 H4];
    unfold receiveAndProcessMsg, processMsg, processPrimaryKeepAlive, processXLogData, processV2.
  - rewrite He. by eauto.
  - by eauto.
  - by eauto.
  - rewrite !decide_False by done. by eexists _, _.
  - rewrite decide_True, H by done. by eexists _, _.
  - rewrite decide_False, decide_True, H by done. by eexists _, _.
  - rewrite decide_False, decide_True, H1, H2 by done. by eexists _, _.
  - rewrite decide_False, decide_True, H1, H2 by done. by eexists _, _.
  - rewrite decide_False, decide_True, H1, H2 by done.
    destruct lm as [rel|m'|ty]; simpl in H3; [| |done]; injection H3 as <-; unfold dispatch; rewrite H4; by eexists _, _.
Qed.

(** C14: a message that fails is not skipped.  When the loop reads a message
    (it is not throttled) and receiving it, parsing it or handling it fails -
    any error but the end of the wait, an error response, an unexpected
    message, an unknown command byte or type, data that does not parse, an
    error of the listener - the round sets the shutdown error and leaves the
    listener as it was; no later message is handed to the listener on this
    connection, whatever the other goroutines do; and the loop ends when its
    next two parts have run. *)
Theorem failed_message_not_skipped rx ans r l :
  at_ r = AtReceive → rx_possible rx r = true → throttled opts r l = false → failing ans r l rx →
  ∃ r1, rstep (RReceive rx ans) (r, l) = Some ([], (r1, l)) ∧ shutDownErr r1 ≠ None ∧
  (∀ evs acts' y, rsteps evs acts' (r1, l) y → Forall (λ ev, connects ev = false) evs →
     ∀ m, AMsg m ∉ acts') ∧
  ∃ r2 l2, rstep RUpdate (r1, l) = Some ([ACommitPos], (r2, l2)) ∧
    (in_read r2 = false ∨
     ∀ now later se, ∃ r3, rstep (RStandBy now later se) (r2, l2) = Some ([], (r3, l2)) ∧ in_read r3 = false).
Proof using Type.
  intros Ea Hrx Ht (r' & e & Hr & E1 & E2)%failing_is_error. cbn [Replicator.rstep].
  rewrite Ea, Hrx. unfold read_receive. rewrite Ht, Hr. res_step.
  eexists. split; [done|]. assert (errors_Join (shutDownErr r') (Some e) ≠ None) as He by (by destruct (shutDownErr r')).
  split; [done|]. by apply error_ends_loop.
Qed.
End safety.

(** ** When a status is sent *)

Lemma NewOptions_threshold slot pub standby receive interval maxq :
  standby * 100 < two63 →
  let o := NewOptions slot pub standby receive interval maxq in
  0 < StandByTimeout o ∧ 0 ≤ ReceiveMsgTimeout o < StandByTimeout o ∧
  0 ≤ standbyThreshold o ∧ standbyThreshold o * 100 ≤ StandByTimeout o * 15 < (standbyThreshold o + 1) * 100 ∧
  (0 < standby → StandByTimeout o = standby) ∧
  (0 < receive → receive < StandByTimeout o → ReceiveMsgTimeout o = receive).
Proof.
  intros Hb o. set (s := if bool_decide (0 < standby) then standby else 10 * Second).
  assert (0 < s ∧ s * 100 < two63 ∧ (0 < standby → s = standby)) as (Hs & Hs63 & Es).
  { unfold s, Second. case_bool_decide; [done|]. unfold two63. split_and!; lia. }
  assert (StandByTimeout o = s) as Eo by done.
  set (rc := if bool_decide (0 < receive) then receive else 8 * Second).
  assert (0 < rc ∧ (0 < receive → rc = receive)) as [Hrc Erc] by (unfold rc, Second; case_bool_decide; lia).
  assert (standbyThreshold o = (s * 15) `div` 100) as Et.
  { change (standbyThreshold o) with (Z.quot (i64 (s * 15)) 100).
    rewrite i64_small by (unfold two63 in *; lia). apply Z.quot_div_nonneg; lia. }
  assert (ReceiveMsgTimeout o = if bool_decide (s ≤ rc) then (s * 85) `div` 100 else rc) as Er.
  { change (ReceiveMsgTimeout o) with (if bool_decide (s ≤ rc) then Z.quot (i64 (s * (100 - 15))) 100 else rc).
    case_bool_decide; [|done]. rewrite i64_small by (unfold two63 in *; lia). apply Z.quot_div_nonneg; lia. }
  rewrite Eo, Et, Er. split_and!; try done.
  - case_bool_decide; [euclid|lia].
  - case_bool_decide; [euclid|lia].
  - euclid.
  - euclid.
  - euclid.
  - intros H1 H2. rewrite bool_decide_false by (rewrite Erc by done; lia). by apply Erc.
Qed.

(** C15: when the position is reported.  A new position is reported at the next
    head of the loop, and so is any position when the server asked for a reply
    or the process is stopping.  With nothing new, the report follows the last
    one exactly when the clock has come within the threshold of the stand-by
    timeout; the threshold is 15 percent of that timeout, rounded down, and the
    timeout the configured one, or ten seconds; the wait for a message is
    shorter than the timeout. *)
Theorem standby_timing slot pub standby receive interval maxq r data now later now' later' :
  standby * 100 < two63 →
  let o := NewOptions slot pub standby receive interval maxq in
  let p := u64 (cp_LSN (pos (r_state r)) + 1) in
  let sent := (sendStandBy o now later None r).1 in
  (∀ parse, parse data = inr true →
     reported (sendStandBy o now later None (processPrimaryKeepAlive parse data r).1).1 = reported r ++ [p]) ∧
  (lastSentLSN r < cp_LSN (pos (r_state r)) ∨ isStopping r = true → reported sent = reported r ++ [p]) ∧
  (isStopping r = false → standby_due o now r = true →
     reported (sendStandBy o now' later' None sent).1 =
       reported r ++ [p] ++ (if bool_decide (later + StandByTimeout o - standbyThreshold o ≤ now') then [p] else [])) ∧
  0 ≤ ReceiveMsgTimeout o < StandByTimeout o ∧
  0 ≤ standbyThreshold o ∧ standbyThreshold o * 100 ≤ StandByTimeout o * 15 < (standbyThreshold o + 1) * 100 ∧
  StandByTimeout o = (if bool_decide (0 < standby) then standby else 10 * Second).
Proof.
  intros Hb o p sent. destruct (NewOptions_threshold slot pub standby receive interval maxq Hb)
    as (Hs & Hr & Ht & Ht' & _). fold o in Hs, Hr, Ht, Ht'. split_and!; try apply Hr; try apply Ht'; try done.
  - intros parse Hp. unfold processPrimaryKeepAlive. rewrite Hp. done.
  - intros Hd. unfold sent, sendStandBy. assert (standby_due o now r = true) as ->; [|done].
    unfold standby_due. destruct Hd as [Hd| ->]; [rewrite (bool_decide_true (_ < _)) by done|];
      by rewrite ?orb_true_r.
  - intros Hst Hd. unfold sent, sendStandBy at 2. rewrite Hd. cbn [fst]. unfold sendStandBy.
    match goal with |- context [standby_due o now' ?x] => set (x' := x) end.
    assert (standby_due o now' x' = bool_decide (later + StandByTimeout o - standbyThreshold o ≤ now')) as ->.
    { unfold standby_due, x'. cbn [nextStandBy r_state with_nextStandBy lastSentLSN pos isStopping].
      rewrite Hst, (bool_decide_false (_ < cp_LSN _)) by lia. rewrite !orb_false_r.
      repeat case_bool_decide; simpl; try done; lia. }
    case_bool_decide; simpl; by rewrite <- ?(assoc_L (++)), ?app_nil_r.
Qed.

Module Samples.
Lemma standby_timing_witness : reported (sendStandBy (NewOptions "s" "p" 0 0 0 0) 5 6 None (MustCreate 100)).1 = [100].
Proof.
  destruct (standby_timing "s" "p" 0 0 0 0 (MustCreate 100) "k" 5 6 7 8) as (_ & H & _); [reflexivity|].
  apply H. left. reflexivity.
Defined.
End Samples.
