(* ===== verification/ReplicatorSystem.v ===== *)
(** * From PostgreSQL to the store and back

    The whole way of a change: the replicator ([Replicator]) reads the stream
    and calls the buffered listener, which sits on the LSN tracker with its
    concurrent callers ([ListenerSystem]).  The listener is an instance of the
    interface [ReplicationListener], and the laws the replicator relies on are
    proved for it here.

    The main theorem follows a committed transaction to the positions that are
    reported to PostgreSQL or saved for a restart. *)

From stdpp Require Import base numbers list gmap strings pretty sorting.
From S2P Require Import Prelude GoStrings WriteQueue OrderedMap PgSchema Decode CircuitBreaker PgWal.
From S2P Require Import LSNTracker LSNSystem BufferedListener ListenerSpec ListenerSystem Replicator.
Import Tracked Tracker TInv System TxList Collapse Tx Listener Refine Pipeline.

Section system.
Context {QT : QueueImpl tref t_size} {QR : QueueImpl (readyWriteEntry Tup) ready_size}.
Notation event := (System.event (Tup := Tup)).
Notation sys := (System.sys (Tup := Tup) (QT := QT) (QR := QR)).
Context (enum : gmap CommitPoint (list Z) → list (CommitPoint * list Z)).
Context (SetTimer : Z → Z → bool → bool).
Context (typeMap : Z → option (string → goerr + goval)).
Context (fmtv : option goval → string).
Context (colOrder : gmap string Column → list Column).
Context (tableOrder : gmap string Table → list Table).
Context (lopts : ListenerOptions) (txOpts : TxCommitTimeOptions).
Context (cfg : RetryConfig).
Context (Henum : ∀ m, enum m ≡ₚ map_to_list m).
Notation handle := (handle typeMap fmtv colOrder tableOrder lopts txOpts).
Notation psteps := (psteps enum SetTimer typeMap fmtv colOrder tableOrder lopts txOpts).
Notation prun := (prun enum SetTimer typeMap fmtv colOrder tableOrder lopts txOpts).

(** ** The listener as the replicator sees it *)

#[local] Instance buffered_listener : ReplicationListener (listener sys) event := {
  onMessage m l := handle m l;
  commitPos l := (with_lsnTracker (with_trk (MaxAcknowledged (trk (lsnTracker l))).1 (lsnTracker l)) l,
                  (MaxAcknowledged (trk (lsnTracker l))).2);
  writeQueueSize l := Tracker.WriteQueueSize (trk (lsnTracker l));
  envStep e l := s ← step enum SetTimer e (lsnTracker l); Some (with_lsnTracker s l);
}.

Definition listener_acked (l : listener sys) : Z := cp_LSN (maxAcknowledged (trk (lsnTracker l))).
Definition listener_good (l : listener sys) : Prop := ∃ tr, run enum SetTimer cfg tr (lsnTracker l).
Definition listener_act_ok (a : act event) : Prop :=
  match a with AMsg m => message_ok m | AEnv e => event_ok e | ACommitPos => True end.

Lemma steps_acked tr s es s' :
  run enum SetTimer cfg tr s → steps enum SetTimer es s s' →
  (∃ tr', run enum SetTimer cfg tr' s') ∧
  cp_LSN (maxAcknowledged (trk s)) ≤ cp_LSN (maxAcknowledged (trk s')).
Proof using Henum.
  intros Hrun Hst. induction Hst as [s|es s s1 e s2 Hst IH Hok Hstep]; [split; [by exists tr|done]|].
  destruct (IH Hrun) as [[tr1 Hrun1] Hle]. split; [eexists; by eapply run_step|].
  etransitivity; [exact Hle|]. by eapply max_acknowledged_monotone.
Qed.

(** An action on the listener is a step of the pipeline. *)
Definition pev_of (a : act event) : pev :=
  match a with AMsg m => PMsg m | ACommitPos => PEv EMax | AEnv e => PEv e end.

Lemma lact_psteps a (l l' : listener sys) :
  listener_act_ok a → lact a l = Some l' → ∃ tr, psteps [pev_of a] tr l l'.
Proof using Type.
  intros Hok H. destruct a as [m| |e]; simpl in *.
  - destruct (handle m l) as [l1| | |] eqn:Hm; try done. injection H as <-.
    eexists. exact (ps_msg enum SetTimer _ _ _ _ _ _ [] [] l l m l1 (ps_nil _ _ _ _ _ _ _ _ l) Hok Hm).
  - injection H as <-. eexists.
    exact (ps_ev enum SetTimer _ _ _ _ _ _ [] [] l l EMax _ (ps_nil _ _ _ _ _ _ _ _ l) I eq_refl).
  - apply bind_Some in H as (s & Hs & [= <-]). eexists.
    exact (ps_ev enum SetTimer _ _ _ _ _ _ [] [] l l e s (ps_nil _ _ _ _ _ _ _ _ l) Hok Hs).
Qed.

#[local] Program Instance buffered_listener_laws : ListenerLaws (listener sys) event := {
  acked := listener_acked; good := listener_good; act_ok := listener_act_ok }.
Next Obligation.
  intros l a l' [tr Hrun] Hok H. destruct (lact_psteps a l l' Hok H) as [tr' Hp].
  by apply psteps_steps, (steps_acked tr) in Hp.
Qed.
Next Obligation. intros l _. done. Qed.
Next Obligation. done. Qed.

(** ** The run of the pipeline inside a run of the replicator *)

Lemma psteps_trans ps1 tr1 ps2 tr2 (l1 l2 l3 : listener sys) :
  psteps ps1 tr1 l1 l2 → psteps ps2 tr2 l2 l3 → psteps (ps1 ++ ps2) (tr1 ++ tr2) l1 l3.
Proof using Type.
  intros H1 H2. induction H2 as [l|ps tr l l3 m l4 _ IH Hok Hm|ps tr l l3 e s _ IH Hok Hs].
  - by rewrite !app_nil_r.
  - rewrite !(assoc_L (++)). apply ps_msg; [by apply IH|done|done].
  - rewrite !(assoc_L (++)). apply ps_ev; [by apply IH|done|done].
Qed.

Lemma psteps_head_msg m ps tr (l l' : listener sys) :
  psteps (PMsg m :: ps) tr l l' →
  ∃ l1 es, handle m l = Ok l1 ∧ psteps ps es l1 l' ∧
           tr = (EAdd <$> adds typeMap fmtv colOrder tableOrder lopts txOpts m l) ++ es.
Proof using Type.
  remember (PMsg m :: ps) as qs eqn:Eq. intros H. revert ps Eq.
  induction H as [l|ps0 tr l l1 m1 l2 H0 IH Hok Hm|ps0 tr l l1 e s H0 IH Hok Hs]; intros ps Eq; [done|..].
  - destruct ps0 as [|p0 ps0].
    + injection Eq as -> <-. inversion H0; subst; [|by destruct ps..]. exists l2, []. simpl. rewrite app_nil_r.
      split_and!; [done|constructor|done].
    + injection Eq as -> <-. destruct (IH _ eq_refl) as (k & es & H1 & H2 & ->).
      exists k, (es ++ (EAdd <$> adds typeMap fmtv colOrder tableOrder lopts txOpts m1 l1)).
      rewrite (assoc_L (++)). split_and!; [done|by apply ps_msg|done].
  - destruct ps0 as [|p0 ps0]; [done|]. injection Eq as -> <-.
    destruct (IH _ eq_refl) as (k & es & H1 & H2 & ->). exists k, (es ++ [e]).
    rewrite (assoc_L (++)). split_and!; [done|by apply ps_ev|done].
Qed.

Lemma lacts_psteps acts (l l' : listener sys) :
  Forall listener_act_ok acts → lacts acts l = Some l' → ∃ tr, psteps (pev_of <$> acts) tr l l'.
Proof using Type.
  revert l. induction acts as [|a acts IH]; intros l Hok; simpl.
  - intros [= <-]. eexists. constructor.
  - intros (l1 & H1 & H2)%bind_Some. apply Forall_cons in Hok as [Ha Hok].
    destruct (lact_psteps a l l1 Ha H1) as [tr1 P1]. destruct (IH l1 Hok H2) as [tr2 P2].
    eexists. exact (psteps_trans _ _ _ _ _ _ _ P1 P2).
Qed.

Context (opts : Options).
Context (ParsePrimaryKeepaliveMessage : string → goerr + bool).
Context (ParseXLogData : string → goerr + string).
Context (ParseV2 : string → bool → goerr + logicalMsg).
Context (net_error : goerr → bool).
Notation rstep := (rstep opts ParsePrimaryKeepaliveMessage ParseXLogData ParseV2 net_error).
Notation rsteps := (rsteps opts ParsePrimaryKeepaliveMessage ParseXLogData ParseV2 net_error act_ok).

Lemma rsteps_psteps evs acts r (l : listener sys) r' l' :
  rsteps evs acts (r, l) (r', l') → ∃ tr, psteps (pev_of <$> acts) tr l l'.
Proof using Type.
  remember (r, l) as x eqn:Ex. remember (r', l') as y eqn:Ey. intros H. revert r' l' Ey.
  induction H as [x|evs acts x [r1 l1] ev as_ [r2 l2] _ IH Hs Hok]; intros r' l' Ey; simplify_eq.
  { eexists. constructor. }
  destruct (IH eq_refl r1 l1 eq_refl) as [tr1 P1].
  destruct (lacts_psteps as_ l1 l' Hok) as [tr2 P2]; [by eapply rstep_acts|].
  rewrite fmap_app. eexists. exact (psteps_trans _ _ _ _ _ _ _ P1 P2).
Qed.

(** *** The writer's answers in a run *)

(** What justifies a delivery: answers of the writer and empty transactions. *)
Definition answering (e : event) : bool :=
  match e with ESuccess _ | EError _ _ _ | EAddEmpty _ _ => true | _ => false end.
Definition answers_in (tr : list event) : list event := filter (λ e, answering e = true) tr.

Lemma fail_count_answers tr lsn o : fail_count (answers_in tr) lsn o = fail_count tr lsn o.
Proof using Type.
  unfold fail_count, answers_in. induction tr as [|e tr IH]; [done|]. rewrite filter_cons, sum_Z_cons.
  case_decide as Hd; [by rewrite sum_Z_cons, IH|]. rewrite IH. by destruct e.
Qed.

Lemma justified_answers tr lsn o : justified cfg (answers_in tr) lsn o ↔ justified cfg tr lsn o.
Proof using Type.
  unfold justified. rewrite fail_count_answers. unfold answers_in.
  setoid_rewrite list_elem_of_filter. simpl. clear -cfg. naive_solver.
Qed.

Definition env_events (acts : list (act event)) : list event :=
  omap (λ a, match a with AEnv e => Some e | _ => None end) acts.

Lemma psteps_answers acts tr (l l' : listener sys) :
  psteps (pev_of <$> acts) tr l l' → answers_in tr = answers_in (env_events acts).
Proof using Type.
  remember (pev_of <$> acts) as ps eqn:Eps. intros H. revert acts Eps.
  induction H as [l|ps tr l l1 m l2 _ IH _ _|ps tr l l1 e s _ IH _ _]; intros acts Eps.
  - symmetry in Eps. apply fmap_nil_inv in Eps as ->. done.
  - symmetry in Eps. apply fmap_app_inv in Eps as (as1 & as2 & E1 & (a & -> & E3)%fmap_singleton_eq & ->).
    unfold env_events. rewrite omap_app. unfold answers_in. rewrite !filter_app.
    f_equal; [by apply IH|]. destruct a as [m'| |e]; simplify_eq/=. by induction (adds _ _ _ _ _ _ _ _).
  - symmetry in Eps. apply fmap_app_inv in Eps as (as1 & as2 & E1 & (a & -> & E3)%fmap_singleton_eq & ->).
    unfold env_events. rewrite omap_app. unfold answers_in. rewrite !filter_app.
    f_equal; [by apply IH|]. destruct a as [m'| |e']; simplify_eq/=; done.
Qed.

(** ** Delivery before acknowledgement *)

(** A position that is reported or given to be saved is at most one past the
    start position or the acknowledged one. *)
Lemma handed_on_acked cfgs start evs acts r l p :
  0 ≤ start → rsteps evs acts (MustCreate start, NewListener cfgs (init cfg)) (r, l) →
  p ∈ reported r ∨ p ∈ saved r → p ≤ Z.max (cp_LSN (startPos start)) (listener_acked l) + 1.
Proof using Henum.
  intros Hst H Hp.
  assert (rinv start (MustCreate start) (NewListener cfgs (init cfg) : listener sys)) as I0.
  { apply rinv_start; [done|exists []; apply run_init|done]. }
  pose proof (rinv_run opts ParsePrimaryKeepaliveMessage ParseXLogData ParseV2 net_error start _ _
                (MustCreate start, NewListener cfgs (init cfg)) (r, l) I0 H) as [_ _ Hpos _ Hrep Hsav _].
  simpl in *. rewrite Forall_forall in Hrep, Hsav. destruct Hp as [Hp%Hrep|Hp%Hsav]; lia.
Qed.

Lemma rsteps_app evs acts x y evs' acts' z :
  rsteps evs acts x y → rsteps evs' acts' y z → rsteps (evs ++ evs') (acts ++ acts') x z.
Proof using Type.
  intros H1 H2. induction H2 as [y|evs' acts' y z' ev as_ z _ IH Hs Hok]; [by rewrite !app_nil_r|].
  rewrite !(assoc_L (++)). eapply rs_snoc; [by apply IH|exact Hs|exact Hok].
Qed.

(** A transaction whose commit is acknowledged has its rows delivered. *)
Lemma acked_commit_delivered cfgs evs acts r0 r l m x lsn ct evs' acts' r2 l2 :
  rsteps evs acts (r0, NewListener cfgs (init cfg)) (r, l) → commits m l x lsn ct → 0 < lsn →
  let cs := open_changes typeMap fmtv colOrder tableOrder lopts txOpts cfgs (pev_of <$> acts) x in
  fresh (request cs lsn x ct) (trk (lsnTracker l)) →
  rsteps evs' (AMsg m :: acts') (r, l) (r2, l2) → lsn ≤ listener_acked l2 →
  ∀ i k, dedup_last (ch_key <$> cs) !! i = Some k →
    justified cfg (env_events (acts ++ acts')) lsn (u32 (Z.of_nat i)).
Proof using Henum.
  intros H1 Hm Hlsn cs Hf H2 Hack i k Hi.
  apply rsteps_psteps in H1 as [tr1 P1]. apply rsteps_psteps in H2 as [tr2 P2].
  pose proof (psteps_answers _ _ _ _ P1) as A1. pose proof (psteps_answers _ _ _ _ P2) as A2.
  destruct (psteps_head_msg m _ tr2 l l2 P2) as (l1 & es & Hl1 & P3 & E).
  rewrite (commit_adds enum SetTimer _ _ _ _ _ _ cfg cfgs _ _ _ _ _ _ _ P1 Hm) in E. simpl in E.
  apply justified_answers.
  assert (answers_in (env_events (acts ++ acts')) = answers_in (tr1 ++ tr2)) as ->.
  { unfold env_events, answers_in. rewrite omap_app, !filter_app. f_equal; symmetry; [exact A1|exact A2]. }
  apply justified_answers. rewrite E.
  eapply (committed_transaction_delivered enum SetTimer typeMap fmtv colOrder tableOrder lopts txOpts Henum
            cfg cfgs _ tr1 l m x lsn ct l1 _ es l2 P1 Hm); [lia|exact Hf|exact Hl1|exact P3|exact Hack|exact Hi].
Qed.

(** C2: PostgreSQL is told about a transaction only when its cached rows are
    delivered.  Take any run of the replicator and of everything behind it,
    from a start position on.  Let the next message be the commit of a
    transaction whose LSN (the end LSN of an ordinary transaction, the commit
    LSN of a streamed one) is beyond the start, and at which the tracker, which
    is not stopping, has neither acknowledged a write nor tracks one.  The rows
    are those whose changes are cached under the transaction's own id since it
    was last closed; changes that are streamed under the id of a subtransaction
    are not among them.  Whatever happens then, with broken and restarted
    connections: when some position reported to PostgreSQL, or given to be
    saved for a restart of the program, is past that LSN, every one of these
    rows was confirmed by the writer, or given up after an error that is not
    retryable or [MaxRetries] errors, or the LSN was reported as empty. *)
Theorem reported_transaction_delivered cfgs start evs acts r l m x lsn ct evs' acts' r2 l2 p :
  0 ≤ start → rsteps evs acts (MustCreate start, NewListener cfgs (init cfg)) (r, l) →
  commits m l x lsn ct → cp_LSN (startPos start) < lsn →
  let cs := open_changes typeMap fmtv colOrder tableOrder lopts txOpts cfgs (pev_of <$> acts) x in
  fresh (request cs lsn x ct) (trk (lsnTracker l)) →
  rsteps evs' (AMsg m :: acts') (r, l) (r2, l2) →
  p ∈ reported r2 ∨ p ∈ saved r2 → lsn < p →
  ∀ i k, dedup_last (ch_key <$> cs) !! i = Some k →
    justified cfg (env_events (acts ++ acts')) lsn (u32 (Z.of_nat i)).
Proof using Henum.
  intros Hst H1 Hm Hlsn cs Hf H2 Hp Hlt.
  pose proof (handed_on_acked _ _ _ _ _ _ _ Hst (rsteps_app _ _ _ _ _ _ _ H1 H2) Hp) as Hack.
  assert (0 ≤ cp_LSN (startPos start)) by (unfold startPos; case_bool_decide; simpl; lia).
  eapply acked_commit_delivered; [exact H1|exact Hm|lia|exact Hf|exact H2|lia].
Qed.
End system.
