(* ===== verification/ReplicatorSamples.v ===== *)
(** * A concrete session of the replicator

    The session of [ListenerSamples] as it arrives on a connection: the messages,
    the commit, the delivery of both rows, and the report of the new position. *)

From stdpp Require Import base numbers list gmap strings pretty sorting.
From S2P Require Import Prelude GoStrings WriteQueue OrderedMap PgSchema Decode CircuitBreaker PgWal.
From S2P Require Import LSNTracker LSNSystem BufferedListener ListenerSpec ListenerSystem ListenerSamples.
From S2P Require Import Replicator ReplicatorSystem.
Import Tracked Tracker TInv System TxList Collapse Tx Listener Refine Pipeline.

Notation event := (System.event (Tup := Tup)).
Notation sys := (System.sys (Tup := Tup) (QT := QTl) (QR := QRl)).

#[local] Instance sample_listener : ReplicationListener (listener sys) event :=
  buffered_listener enum accepts types show cols_of tables_of opts no_tx.
#[local] Instance sample_laws : ListenerLaws (listener sys) event :=
  buffered_listener_laws enum accepts types show cols_of tables_of opts no_tx cfg LSNSystem.Samples.enum_ok.

(** The messages are numbered by letters. *)
Definition stream : list logicalMsg :=
  (λ m, match m with RelationMsg r _ => LRelation r | m => LMessage m end) <$> session ++ [CommitMessage 100 3].
Definition parse_keepalive (s : string) : goerr + bool := inr (bool_decide (s = "reply")).
Definition parse_xlog (s : string) : goerr + string := inr s.
Definition parse_v2 (s : string) (_ : bool) : goerr + logicalMsg :=
  match s with
  | String c EmptyString => match stream !! (Ascii.nat_of_ascii c - 97)%nat with
                            | Some m => inr m | None => inl (GoErr "short message") end
  | _ => inl (GoErr "short message")
  end.
Definition no_net (_ : goerr) : bool := false.
Definition ropts : Options := NewOptions "slot" "pub" 0 0 0 0.
Notation rstep := (rstep ropts parse_keepalive parse_xlog parse_v2 no_net).
Notation rsteps := (rsteps ropts parse_keepalive parse_xlog parse_v2 no_net act_ok).

Fixpoint rexec (evs : list (rev (E := event))) (x : PGReplicator * listener sys)
    : option (list (act event) * (PGReplicator * listener sys)) :=
  match evs with
  | [] => Some ([], x)
  | ev :: r => '(as_, y) ← rstep ev x; '(bs, z) ← rexec r y; Some (as_ ++ bs, z)
  end.

Definition ok_act (a : act event) : bool :=
  match a with
  | AMsg (CommitMessage lsn _) | AMsg (StreamCommit _ lsn _) | AMsg (LogicalDecodingMessage lsn _ _ _) =>
      bool_decide (0 ≤ lsn)
  | AEnv (EAdd w) => bool_decide (0 ≤ LSN w)
  | AEnv (EAddEmpty l _) => bool_decide (0 ≤ l)
  | _ => true
  end.
Lemma ok_act_ok a : ok_act a = true → act_ok a.
Proof. destruct a as [m| |e]; [destruct m|..|destruct e]; simpl; try done; apply bool_decide_eq_true_1. Qed.

Lemma rexec_rsteps evs x acts y :
  rexec evs x = Some (acts, y) → forallb ok_act acts = true → rsteps evs acts x y.
Proof.
  intros H Hok. cut (∀ evs0 acts0 x0, rsteps evs0 acts0 x0 x → rsteps (evs0 ++ evs) (acts0 ++ acts) x0 y).
  { intros C. apply (C [] [] x). constructor. }
  revert x acts H Hok. induction evs as [|ev evs IH]; intros x acts; simpl.
  { intros [= <- <-] _ evs0 acts0 x0. by rewrite !app_nil_r. }
  intros ([as_ y1] & H1 & ([bs z] & H2 & [= <- <-])%bind_Some)%bind_Some Hok evs0 acts0 x0 H0.
  rewrite forallb_app in Hok. apply andb_prop in Hok as [Ha Hb].
  replace (evs0 ++ ev :: evs) with ((evs0 ++ [ev]) ++ evs) by (by rewrite <- (assoc_L (++))).
  rewrite (assoc_L (++)). apply (IH y1 bs H2 Hb). eapply rs_snoc; [exact H0|exact H1|].
  apply Forall_forall. intros a Hin. apply ok_act_ok. rewrite forallb_forall in Ha. apply Ha.
  by apply list_elem_of_In.
Qed.

Definition round (rx : received) : list (rev (E := event)) :=
  [RStandBy 0 0 None; RReceive rx answers; RUpdate].
Definition message_data (i : nat) : received :=
  RxCopyData (String xlogdata_byte (String (Ascii.ascii_of_nat (97 + i)) EmptyString)).
Definition nothing : received := RxError (GoErr DeadlineExceeded).

Definition until_commit : list (rev (E := event)) :=
  [RStart None; RConnect 0 None None] ++ (seq 0 5 ≫= λ i, round (message_data i)) ++ [RStandBy 0 0 None].
Definition after_commit : list (rev (E := event)) :=
  [RReceive (message_data 5) answers; RUpdate; REnv EPop; REnv EDec;
   REnv (ESuccess (mkResp [sent_row 0; sent_row 1] 100))] ++ round nothing ++ [RStandBy 0 0 None; RSlots false None].

Definition x_start : PGReplicator * listener sys := (MustCreate 1, NewListener cfgs (init cfg)).
Definition outcome (evs : list (rev (E := event))) (x : PGReplicator * listener sys) :=
  default ([], x) (rexec evs x).
Definition ran_ok (evs : list (rev (E := event))) x : bool :=
  match rexec evs x with Some (acts, _) => forallb ok_act acts | None => false end.
Lemma outcome_rsteps evs x : ran_ok evs x = true → rsteps evs (outcome evs x).1 x (outcome evs x).2.
Proof. unfold ran_ok, outcome. destruct (rexec evs x) as [[acts y]|] eqn:H; [|done]. by apply rexec_rsteps. Qed.

Definition x_commit := (outcome until_commit x_start).2.
Definition x_done := (outcome after_commit x_commit).2.

(** The position after the commit is reported once, and saved. *)
Example position_reported : reported x_done.1 = [101] ∧ saved x_done.1 = [101].
Proof. split; vm_compute; reflexivity. Qed.

(** When the connection breaks within a stream block, the flag that tells the
    parser to expect transaction ids is still set on the next connection. *)
Example stream_flag_survives_reconnect :
  inStream (r_state (connect_round ropts false 0 None None
    (with_state (track_message (StreamStart 7) (r_state (MustCreate 1))) (MustCreate 1)))) = true.
Proof. reflexivity. Qed.

(** An aborted streamed transaction leaves the flag that blocks throttling set. *)
Example abort_leaves_transaction_active :
  canThrottlePgMessage (foldl (λ s m, track_message m s) (r_state (MustCreate 1))
    [StreamStart 7; StreamStop; StreamAbort 7 7]) = false.
Proof. reflexivity. Qed.

Lemma until_ran : ran_ok until_commit x_start = true.
Proof. vm_compute. reflexivity. Qed.
Lemma after_ran : ran_ok after_commit x_commit = true.
Proof. vm_compute. reflexivity. Qed.

Definition is_msg (a : act event) : bool := match a with AMsg (CommitMessage 100 3) => true | _ => false end.
Definition head_is_commit : bool :=
  match (outcome after_commit x_commit).1 with AMsg (CommitMessage 100 3) :: _ => true | _ => false end.
Lemma after_acts : (outcome after_commit x_commit).1 = AMsg (CommitMessage 100 3) :: tail (outcome after_commit x_commit).1.
Proof.
  assert (head_is_commit = true) as H by (vm_compute; reflexivity). unfold head_is_commit in H. revert H.
  generalize (outcome after_commit x_commit).1 as acts. intros [|[m| |e] acts]; try done. destruct m; try done.
  simpl. intros H.
  repeat match goal with H : match ?z with _ => _ end = true |- _ => destruct z; try discriminate H end. done.
Qed.

Lemma reported_transaction_delivered_witness :
  justified cfg (env_events ((outcome until_commit x_start).1 ++ tail (outcome after_commit x_commit).1)) 100 1.
Proof.
  apply (reported_transaction_delivered enum accepts types show cols_of tables_of opts no_tx cfg
           LSNSystem.Samples.enum_ok ropts parse_keepalive parse_xlog parse_v2 no_net cfgs 1
           until_commit (outcome until_commit x_start).1 x_commit.1 x_commit.2 (CommitMessage 100 3) 7 100 3
           after_commit (tail (outcome after_commit x_commit).1) x_done.1 x_done.2 101)
    with (i := 1%nat) (k := "public.users:1").
  - lia.
  - rewrite <- surjective_pairing. exact (outcome_rsteps _ _ until_ran).
  - right. split; [reflexivity|]. split; [vm_compute; reflexivity|reflexivity].
  - reflexivity.
  - apply fresh_test_ok; [reflexivity|vm_compute; reflexivity].
  - rewrite <- after_acts, <- !surjective_pairing. exact (outcome_rsteps _ _ after_ran).
  - left. rewrite (proj1 position_reported). apply list_elem_of_singleton. reflexivity.
  - lia.
  - vm_compute. reflexivity.
Defined.

Definition x_all := (outcome (until_commit ++ after_commit) x_start).2.
Lemma all_ran : ran_ok (until_commit ++ after_commit) x_start = true.
Proof. vm_compute. reflexivity. Qed.
Lemma reports_follow_listener_witness : StronglySorted Z.le (reported x_all.1).
Proof.
  refine (proj2 (proj2 (reports_follow_listener ropts parse_keepalive parse_xlog parse_v2 no_net 1 x_start.2
    (until_commit ++ after_commit) (outcome (until_commit ++ after_commit) x_start).1 x_all.1 x_all.2 _ _ _ _)) _).
  - lia.
  - exists []. apply run_init.
  - reflexivity.
  - rewrite <- !surjective_pairing. exact (outcome_rsteps _ _ all_ran).
  - vm_compute. reflexivity.
Defined.

(** A message that cannot be parsed. *)
Lemma failed_message_not_skipped_witness :
  ∃ r1, rstep (RReceive (RxCopyData (String xlogdata_byte "zz")) answers) (x_commit.1, x_commit.2) = Some ([], (r1, x_commit.2)) ∧
    shutDownErr r1 ≠ None.
Proof.
  destruct (failed_message_not_skipped ropts parse_keepalive parse_xlog parse_v2 no_net
    (RxCopyData (String xlogdata_byte "zz")) answers x_commit.1 x_commit.2) as (r1 & H1 & H2 & _).
  - vm_compute. reflexivity.
  - vm_compute. reflexivity.
  - vm_compute. reflexivity.
  - apply (fail_wal _ _ _ _ _ _ "zz" "zz" (GoErr "short message")); reflexivity.
  - exists r1. split; [exact H1|exact H2].
Defined.
