(* ===== verification/RedisCommand.v ===== *)
(** * Redis commands (src/pg2redis/redis_command.go, src/pg2redis/redis_writer.go)

    A configured command is a list of patterns.  Each pattern is compiled once
    ([compileCommand]) into a closure that, for a row, first says how many
    arguments it needs and then writes them into a slice of that size
    ([buildCommand]).  Closures are values of [redisCompiledCommand].

    Not part of the program, hence arguments: the printing of floating-point
    numbers and of values without a case of their own ([%v]), the conversions of
    integers and numerics to float64 and its subtraction, and the JSON encoding of keys and
    values. *)

From stdpp Require Import base numbers list gmap strings pretty.
From S2P Require Import Prelude GoStrings OrderedMap PgSchema Decode PgWal BufferedListener.

(** ** Strings *)

Definition open_brace : Ascii.ascii := Ascii.ascii_of_nat 123.
Definition close_brace : Ascii.ascii := Ascii.ascii_of_nat 125.
Definition mark0 : string := String (Ascii.ascii_of_nat 0) EmptyString.
Definition mark1 : string := String (Ascii.ascii_of_nat 1) EmptyString.

(** ** Compiled commands *)

Inductive redisTemplatePart :=
| literalTemplatePart (value : string)
| tablePart | schemaPart | xidPart | pkPart
| oldColumnPart (colName : string)
| columnPart (colName matched : string).

Inductive redisCompiledCommand :=
| literalCommand (value : string)
| pairsStarCommand
| pairsSubsetCommand (cols : list string)
| columnsStarCommand
| jsonStarCommand
| jsonSubsetCommand (cols : list string)
| diffCommand (colName : string)
| templateCommand (parts : list redisTemplatePart).

(** [placeholderTemplatePart]; the argument is what stands between the braces. *)
Definition placeholderTemplatePart (content : string) : redisTemplatePart :=
  if bool_decide (content = "%table%") then tablePart
  else if bool_decide (content = "%schema%") then schemaPart
  else if bool_decide (content = "%xid%") then xidPart
  else if bool_decide (content = "%pk%") then pkPart
  else
    let colName := TrimSpace content in
    match cut_prefix "old:" colName with
    | Some c => oldColumnPart c
    | None => columnPart colName ("{" +:+ content +:+ "}")
    end.

(** The placeholder expression matched at the start of a string: an open brace,
    at least one character that is no brace, a closing brace.  [placeholder]
    continues after the open brace. *)
Fixpoint placeholder (s : string) (content : string) : option string :=
  match s with
  | EmptyString => None
  | String c r =>
      if decide (c = close_brace) then (if bool_decide (content = EmptyString) then None else Some content)
      else if decide (c = open_brace) then None
      else placeholder r (content +:+ String c EmptyString)
  end.

Definition unmark (s : string) : string := ReplaceAll (ReplaceAll s mark0 "{") mark1 "}".

Inductive piece := PLit (s : string) | PHold (content : string).

Definition flush (lit : string) : list piece := if bool_decide (lit = EmptyString) then [] else [PLit lit].

(** The literals and the matches of the pattern, from left to right; [skip]
    counts the characters of the match that are still to pass. *)
Fixpoint pieces (s : string) (skip : nat) (lit : string) : list piece :=
  match s with
  | EmptyString => flush lit
  | String c r =>
      match skip with
      | S skip => pieces r skip lit
      | O =>
          match (if decide (c = open_brace) then placeholder r EmptyString else None) with
          | Some content => flush lit ++ PHold content :: pieces r (S (String.length content)) EmptyString
          | None => pieces r 0 (lit +:+ String c EmptyString)
          end
      end
  end.

Definition is_hold (p : piece) : bool := match p with PHold _ => true | PLit _ => false end.

Definition part_of (p : piece) : redisTemplatePart :=
  match p with PLit s => literalTemplatePart (unmark s) | PHold c => placeholderTemplatePart c end.

Definition compileTemplateCommand (pattern : string) : redisCompiledCommand :=
  let ps := pieces pattern 0 EmptyString in
  if existsb is_hold ps then templateCommand (part_of <$> ps)
  else literalCommand (unmark pattern).

Definition comma : Ascii.ascii := Ascii.ascii_of_nat 44.
Definition splitPlaceholderColumns (colsStr : string) : list string := TrimSpace <$> split_byte comma colsStr.

(** [pattern] is [prefix], something without an open brace, and a closing brace. *)
Definition enclosed (prefix pattern : string) : option string :=
  r ← cut_prefix prefix pattern;
  inner ← cut_suffix r "}";
  if Contains inner "{" then None else Some inner.

Definition compileCommand (pattern : string) : redisCompiledCommand :=
  if bool_decide (pattern = "{pairs:*}") then pairsStarCommand
  else match enclosed "{pairs:" pattern with
  | Some cols => pairsSubsetCommand (splitPlaceholderColumns cols)
  | None =>
  if bool_decide (pattern = "{columns:*}") then columnsStarCommand
  else if bool_decide (pattern = "{json:*}") then jsonStarCommand
  else match enclosed "{json:" pattern with
  | Some cols => jsonSubsetCommand (splitPlaceholderColumns cols)
  | None =>
  match enclosed "{diff:" pattern with
  | Some col => diffCommand (TrimSpace col)
  | None =>
      let result := ReplaceAll pattern "{{" mark0 in
      let result := ReplaceAll result "}}" mark1 in
      compileTemplateCommand result
  end end end.

(** ** Running compiled commands *)

(** What is placed into the argument slice; [ANil] is an unset slot. *)
Inductive arg := ANil | AStr (s : string) | AFloat (f : gofloat).

Section run.
(** [strconv.FormatFloat] (for 32 or 64 bits); [fmt.Sprintf] with [%v]. *)
Context (fmt_float : bool → gofloat → string) (sprintv : goval → string).
(** The conversion [float64(z)] of an integer, [Float64Value] of a numeric
    ([pgtype]), and the subtraction of float64. *)
Context (of_int : Z → gofloat) (numeric_float : Numeric → res gofloat) (fsub : gofloat → gofloat → gofloat).
(** The JSON encoding of keys and values. *)
Context (enc_key : string → res string) (enc_val : goval → res string).
Context (txOpts : TxCommitTimeOptions).

Definition stringifyForRedis (v : goval) : string :=
  match v with
  | VBool b => if b then "1" else "0"
  | VString s => s
  | VInt _ z => pretty z
  | VFloat32 f | SmartFloat32 f => fmt_float true f
  | VFloat64 f | SmartFloat64 f => fmt_float false f
  | v => sprintv v
  end.

Notation entry_t := (WriteEntry Tup).

(** [entry.Tuple], which must not be nil. *)
Definition tuple_of (e : entry_t) : res Tup :=
  match Tuple e with Some t => Ok t | None => Panic "nil dereference" end.

Definition part_value (xid : Z) (e : entry_t) (p : redisTemplatePart) : res string :=
  match p with
  | literalTemplatePart v => Ok v
  | tablePart => Ok (Name (we_Table e))
  | schemaPart => Ok (Schema (we_Table e))
  | xidPart => Ok (pretty xid)
  | pkPart => Ok (we_PK e)
  | oldColumnPart col =>
      match PrevTuple e with
      | None => Ok EmptyString
      | Some t => '(v, ok) ← OMap.Get VNil col t; Ok (if (ok : bool) then stringifyForRedis v else EmptyString)
      end
  | columnPart col matched =>
      t ← tuple_of e; '(v, ok) ← OMap.Get VNil col t; Ok (if (ok : bool) then stringifyForRedis v else matched)
  end.

(** [arr[startAt] = x; startAt++] for a list of values. *)
Fixpoint put_all (xs : list arg) (arr : list arg) (startAt : Z) : res (Z * list arg) :=
  match xs with
  | [] => Ok (startAt, arr)
  | x :: r => arr ← store arr startAt x; put_all r arr (u32 (startAt + 1))
  end.

Fixpoint subset_pairs (cols : list string) (t : Tup) : res (list arg) :=
  match cols with
  | [] => Ok []
  | c :: r =>
      '(v, ok) ← OMap.Get VNil c t;
      rest ← subset_pairs r t;
      Ok (if (ok : bool) then AStr c :: AStr (stringifyForRedis v) :: rest else rest)
  end.

Definition pair_args (kv : string * goval) : list arg := [AStr kv.1; AStr (stringifyForRedis kv.2)].

(** [convertToFloat64]: the zero with an error for what is not a number. *)
Definition convertToFloat64 (v : goval) : gofloat * bool * option goerr :=
  match v with
  | VNil => (FFin 0 0, false, None)
  | SmartFloat32 f | SmartFloat64 f | VFloat64 f | VFloat32 f => (f, true, None)
  | VInt _ z => (of_int z, true, None)
  | VNumeric n => match numeric_float n with
                  | Ok f => (f, true, None)
                  | Err e => (FFin 0 0, false, Some e)
                  | Panic m | Fatal m => (FFin 0 0, false, Some (GoErr m))
                  end
  | v => (FFin 0 0, false, Some (GoErr ("convertToFloat64: unsupported type " +:+ type_name v)))
  end.

Definition float_at (col : string) (t : option Tup) : res gofloat :=
  match t with
  | None => Ok (FFin 0 0)
  | Some t => '(v, ok) ← OMap.Get VNil col t;
              Ok (if (ok : bool) then (convertToFloat64 v).1.1 else FFin 0 0)
  end.

(** The size a command asks for ([eval] is true). *)
Definition command_size (c : redisCompiledCommand) (e : entry_t) : res Z :=
  match c with
  | literalCommand _ | jsonStarCommand | jsonSubsetCommand _ | diffCommand _ | templateCommand _ => Ok 1
  | pairsStarCommand =>
      t ← tuple_of e; let n := u32 (OMap.Size t * 2) in Ok (if Save txOpts then u32 (n + 2) else n)
  | pairsSubsetCommand cols => Ok (u32 (Z.of_nat (length cols) * 2))
  | columnsStarCommand =>
      t ← tuple_of e; let n := OMap.Size t in Ok (if Save txOpts then u32 (n + 1) else n)
  end.

(** The arguments a command writes, and the row after it: [jsonStarCommand]
    stores the commit time in the row itself. *)
Definition command_args (c : redisCompiledCommand) (e : entry_t) (commitTime : gotime) (xid : Z)
    : res (list arg * entry_t) :=
  let stamp := RFC3339Nano commitTime in
  match c with
  | literalCommand v => Ok ([AStr v], e)
  | pairsStarCommand =>
      t ← tuple_of e; ps ← OMap.Iter t;
      Ok ((ps ≫= pair_args) ++ (if Save txOpts then [AStr (tco_Name txOpts); AStr stamp] else []), e)
  | pairsSubsetCommand cols => t ← tuple_of e; xs ← subset_pairs cols t; Ok (xs, e)
  | columnsStarCommand =>
      t ← tuple_of e; ps ← OMap.Iter t;
      Ok ((AStr ∘ fst <$> ps) ++ (if Save txOpts then [AStr (tco_Name txOpts)] else []), e)
  | jsonStarCommand =>
      t ← tuple_of e;
      t ← (if Save txOpts then OMap.Set_ (tco_Name txOpts) (VString stamp) t else Ok t);
      j ← OMap.MarshalJSON enc_key enc_val t;
      Ok ([AStr j], with_Tuple (Some t) e)
  | jsonSubsetCommand cols =>
      t ← tuple_of e; j ← OMap.CustomMarshalJSON enc_key enc_val (Some cols) [] t; Ok ([AStr j], e)
  | diffCommand col =>
      t ← tuple_of e; cur ← float_at col (Some t); prev ← float_at col (PrevTuple e);
      Ok ([AFloat (fsub cur prev)], e)
  | templateCommand parts =>
      vs ← OMap.mapR (part_value xid e) parts; Ok ([AStr (String.concat EmptyString vs)], e)
  end.

(** A command with [eval] false: it writes into [arr] from [startAt] on. *)
Definition run_command (c : redisCompiledCommand) (arr : list arg) (startAt : Z) (e : entry_t)
    (commitTime : gotime) (xid : Z) : res (Z * list arg * entry_t) :=
  '(xs, e) ← command_args c e commitTime xid;
  '(next, arr) ← put_all xs arr startAt;
  Ok (next, arr, e).

(** ** Building a command (src/pg2redis/redis_writer.go) *)

Record redisCompiledCommandConfig := mkRCC { rcc_name : string; rcc_args : list redisCompiledCommand }.
Record redisCommand := mkRC { rc_name : string; rc_args : list arg; rc_table : string }.

Fixpoint required_len (cs : list redisCompiledCommand) (e : entry_t) (n : Z) : res Z :=
  match cs with
  | [] => Ok n
  | c :: r => k ← command_size c e; required_len r e (u32 (n + k))
  end.

Fixpoint fill_args (cs : list redisCompiledCommand) (arr : list arg) (next : Z) (e : entry_t)
    (commitTime : gotime) (xid : Z) : res (Z * list arg * entry_t) :=
  match cs with
  | [] => Ok (next, arr, e)
  | c :: r =>
      '(next, arr, e) ← run_command c arr next e commitTime xid;
      fill_args r arr next e commitTime xid
  end.

Definition buildCommand (cmd : redisCompiledCommandConfig) (e : entry_t) (commitTime : gotime) (xid : Z)
    : res (option redisCommand * entry_t) :=
  if bool_decide (rcc_name cmd = EmptyString) then Ok (None, e)
  else
    n ← required_len (rcc_args cmd) e 1;
    args ← store (replicate (Z.to_nat n) ANil) 0 (AStr (rcc_name cmd));
    '(next, args, e') ← fill_args (rcc_args cmd) args 1 e commitTime xid;
    Ok (Some (mkRC (rcc_name cmd) (take (Z.to_nat next) args) (FullName (we_Table e))), e').

Definition compileCommandConfig (cmdCfg : list string) : option redisCompiledCommandConfig :=
  match cmdCfg with
  | [] => None
  | name :: args => Some (mkRCC (ToUpper name) (compileCommand <$> args))
  end.
End run.

(** ** Building is appending *)

Lemma mapR_app {A B} (f : A → res B) l1 l2 :
  OMap.mapR f (l1 ++ l2) = (xs ← OMap.mapR f l1; ys ← OMap.mapR f l2; Ok (xs ++ ys)).
Proof.
  induction l1 as [|x l1 IH]; cbn [OMap.mapR app].
  - by destruct (OMap.mapR f l2).
  - destruct (f x); simpl; try done. rewrite IH. destruct (OMap.mapR f l1); simpl; try done.
    by destruct (OMap.mapR f l2).
Qed.

Lemma put_all_app xs pre post :
  (length post ≥ length xs)%nat → Z.of_nat (length pre + length xs) < two32 →
  put_all xs (pre ++ post) (Z.of_nat (length pre)) =
    Ok (Z.of_nat (length pre + length xs), pre ++ xs ++ drop (length xs) post).
Proof.
  revert pre post. induction xs as [|x xs IH]; intros pre post Hl Hb; cbn [put_all length].
  - by rewrite Nat.add_0_r, drop_0.
  - destruct post as [|y post]; simpl in Hl; [lia|]. simpl in Hb.
    rewrite store_Ok by (rewrite length_app; simpl; lia).
    rewrite insert_app_r_alt, Nat.sub_diag by lia. cbn [mbind res_bind list_insert].
    specialize (IH (pre ++ [x]) post). rewrite length_app in IH. cbn [length] in IH.
    rewrite u32_small by lia. replace (Z.of_nat (length pre) + 1) with (Z.of_nat (length pre + 1)) by lia.
    simpl. replace (pre ++ x :: post) with ((pre ++ [x]) ++ post) by (by rewrite <- (assoc_L (++))).
    rewrite IH by lia. rewrite <- (assoc_L (++)). do 2 f_equal. lia.
Qed.

Section build.
Context (fmt_float : bool → gofloat → string) (sprintv : goval → string).
Context (of_int : Z → gofloat) (numeric_float : Numeric → res gofloat) (fsub : gofloat → gofloat → gofloat).
Context (enc_key : string → res string) (enc_val : goval → res string).
Context (txOpts : TxCommitTimeOptions).
Notation command_args := (command_args fmt_float sprintv of_int numeric_float fsub enc_key enc_val txOpts).
Notation fill_args := (fill_args fmt_float sprintv of_int numeric_float fsub enc_key enc_val txOpts).
Notation buildCommand := (buildCommand fmt_float sprintv of_int numeric_float fsub enc_key enc_val txOpts).

(** The number of slots a command may need, without wrap-around. *)
Definition slots (c : redisCompiledCommand) (t : Tup) : Z :=
  let n := Z.of_nat (length (OMap.pairs t)) in
  match c with
  | pairsStarCommand => 2 * n + (if Save txOpts then 2 else 0)
  | columnsStarCommand => n + (if Save txOpts then 1 else 0)
  | pairsSubsetCommand cols => 2 * Z.of_nat (length cols)
  | _ => 1
  end.

Lemma slots_nonneg c t : 0 ≤ slots c t.
Proof using Type. unfold slots. destruct c, (Save txOpts); lia. Qed.

(** Without the commit time, or without a whole-row JSON argument, building a
    command leaves the row alone. *)
Definition row_stable (cs : list redisCompiledCommand) : Prop := Save txOpts = true → jsonStarCommand ∉ cs.

Lemma size_pairs t : OMap.wf VNil t → OMap.Size t = u32 (Z.of_nat (length (OMap.pairs t))).
Proof using Type.
  intros Hwf. rewrite (OMap.Size_abs VNil t Hwf), <- (OMap.pairs_to_map VNil t Hwf).
  do 2 f_equal. rewrite <- size_dom, dom_list_to_map_L.
  rewrite size_list_to_set; [by rewrite length_fmap|by apply (OMap.pairs_NoDup VNil)].
Qed.

Lemma command_size_slots c e t :
  Tuple e = Some t → OMap.wf VNil t → slots c t < two32 → command_size txOpts c e = Ok (slots c t).
Proof using Type.
  intros Ht Hwf Hb. unfold command_size, tuple_of. rewrite Ht. pose proof (size_pairs t Hwf) as Hs.
  unfold slots in *. destruct c; simpl; try done.
  - assert (Z.of_nat (length (OMap.pairs t)) < two32) by (destruct (Save txOpts); lia).
    rewrite u32_small in Hs by lia. rewrite Hs.
    destruct (Save txOpts); f_equal; rewrite !(u32_small (_ * 2)) by lia; rewrite ?u32_small; lia.
  - f_equal. rewrite u32_small; lia.
  - assert (Z.of_nat (length (OMap.pairs t)) < two32) by (destruct (Save txOpts); lia).
    rewrite u32_small in Hs by lia. rewrite Hs. destruct (Save txOpts); f_equal; rewrite ?u32_small; lia.
Qed.

Lemma subset_pairs_length cols t xs :
  subset_pairs fmt_float sprintv cols t = Ok xs → (length xs ≤ 2 * length cols)%nat.
Proof using Type.
  revert xs. induction cols as [|c cols IH]; intros xs; cbn [subset_pairs]; [by intros [= <-]|].
  intros ([v ok] & _ & (rest & Hr & [= <-])%res_bind_Ok)%res_bind_Ok. specialize (IH rest Hr).
  destruct ok; simpl; lia.
Qed.

Lemma pair_args_length ps : length (ps ≫= pair_args fmt_float sprintv) = (2 * length ps)%nat.
Proof using Type. induction ps as [|p ps IH]; [done|]. rewrite bind_cons, length_app, IH. simpl. lia. Qed.

(** A command writes no more than it asked for. *)
Lemma command_args_fit c e t ct xid xs e' :
  Tuple e = Some t → OMap.wf VNil t → command_args c e ct xid = Ok (xs, e') →
  Z.of_nat (length xs) ≤ slots c t ∧ (row_stable [c] → e' = e).
Proof using Type.
  intros Ht Hwf. unfold command_args, tuple_of, slots. rewrite Ht.
  assert (OMap.Iter t = Ok (OMap.pairs t)) as Hit by (by apply (OMap.iter_from_pairs VNil)).
  destruct c; res_step.
  - intros [= <- <-]. done.
  - rewrite Hit. res_step. intros [= <- <-]. split; [|done].
    rewrite length_app.
    rewrite pair_args_length.
    destruct (Save txOpts); simpl; lia.
  - intros (ys & Hy%subset_pairs_length & [= <- <-])%res_bind_Ok. split; [lia|done].
  - rewrite Hit. res_step. intros [= <- <-]. split; [|done].
    rewrite length_app, length_fmap. destruct (Save txOpts); simpl; lia.
  - intros (t' & Ht' & (j & Hj & [= <- <-])%res_bind_Ok)%res_bind_Ok. split; [done|].
    unfold row_stable. destruct (Save txOpts); [intros H; destruct (H eq_refl); set_solver|].
    intros _. injection Ht' as <-. destruct e; simpl in *. by subst.
  - intros (j & _ & [= <- <-])%res_bind_Ok. done.
  - intros (a & _ & (b & _ & [= <- <-])%res_bind_Ok)%res_bind_Ok. done.
  - intros (vs & _ & [= <- <-])%res_bind_Ok. done.
Qed.

Lemma required_len_slots cs e t n :
  Tuple e = Some t → OMap.wf VNil t → 0 ≤ n → n + sum_Z (λ c, slots c t) cs < two32 →
  required_len txOpts cs e n = Ok (n + sum_Z (λ c, slots c t) cs).
Proof using Type.
  intros Ht Hwf. revert n. induction cs as [|c cs IH]; intros n Hn Hb; cbn [required_len].
  - rewrite sum_Z_nil, Z.add_0_r. done.
  - rewrite sum_Z_cons in *. pose proof (slots_nonneg c t).
    assert (0 ≤ sum_Z (λ c, slots c t) cs) by eauto using slots_nonneg with go_bounds.
    rewrite (command_size_slots c e t) by (done || lia). res_step.
    rewrite u32_small by lia. rewrite IH by lia. f_equal. lia.
Qed.

(** The arguments of each pattern, one after the other. *)
Definition expand (cs : list redisCompiledCommand) (e : WriteEntry Tup) (ct : gotime) (xid : Z)
    : res (list (list arg)) :=
  OMap.mapR (λ c, r ← command_args c e ct xid; Ok r.1) cs.

Lemma fill_args_expand cs pre post e t ct xid :
  Tuple e = Some t → OMap.wf VNil t → row_stable cs →
  Z.of_nat (length pre) + sum_Z (λ c, slots c t) cs < two32 →
  sum_Z (λ c, slots c t) cs ≤ Z.of_nat (length post) →
  fill_args cs (pre ++ post) (Z.of_nat (length pre)) e ct xid =
    (xss ← expand cs e ct xid;
     let xs := List.concat xss in
     Ok (Z.of_nat (length (pre ++ xs)), pre ++ xs ++ drop (length xs) post, e)).
Proof using Type.
  intros Ht Hwf. revert pre post. induction cs as [|c cs IH]; intros pre post Hst Hb Hp.
  { simpl. by rewrite app_nil_r. }
  rewrite sum_Z_cons in *. cbn [fill_args expand OMap.mapR]. unfold run_command.
  assert (0 ≤ sum_Z (λ c, slots c t) cs) by eauto using slots_nonneg with go_bounds.
  destruct (command_args c e ct xid) as [[xs e']| | |] eqn:Hc; cbn [mbind res_bind fst]; try done.
  destruct (command_args_fit c e t ct xid xs e' Ht Hwf Hc) as [Hlen He].
  rewrite put_all_app by lia. res_step. rewrite He by (unfold row_stable in *; set_solver).
  replace (pre ++ xs ++ drop (length xs) post) with ((pre ++ xs) ++ drop (length xs) post) by (by rewrite <- (assoc_L (++))).
  rewrite <- length_app, IH.
  - unfold expand. destruct (OMap.mapR _ cs) as [xss| | |]; cbn [mbind res_bind List.concat]; try done.
    rewrite drop_drop, <- !(assoc_L (++)), !length_app. repeat f_equal; lia.
  - unfold row_stable in *. set_solver.
  - rewrite length_app. lia.
  - rewrite length_drop. lia.
Qed.

End build.

(** ** Templates *)

Lemma split_at_absent sep s cur : Contains s sep = false → split_at sep s 0 cur = [cur +:+ s].
Proof.
  revert cur. induction s as [|c s IH]; intros cur H; cbn [split_at].
  - by rewrite (right_id_L EmptyString String.append).
  - cbn [Contains] in H. apply orb_false_iff in H as [-> H]. rewrite IH by done.
    by rewrite <- (assoc_L String.append), string_app_cons, string_app_nil.
Qed.

Lemma ReplaceAll_absent s old new : Contains s old = false → ReplaceAll s old new = s.
Proof. intros H. unfold ReplaceAll, Split. by rewrite split_at_absent. Qed.

Lemma concat_cons x l : String.concat EmptyString (x :: l) = x +:+ String.concat EmptyString l.
Proof. destruct l; simpl; [by rewrite (right_id_L EmptyString String.append)|done]. Qed.

Lemma has_byte_cons a c s : has_byte a (String c s) = false ↔ c ≠ a ∧ has_byte a s = false.
Proof. unfold has_byte. rewrite !bool_decide_eq_false. simpl. rewrite elem_of_cons. naive_solver. Qed.

(** A string without a byte contains nothing that starts with the byte. *)
Lemma Contains_skip a p s rest :
  has_byte a s = false → Contains (s +:+ rest) (String a p) = Contains rest (String a p).
Proof.
  induction s as [|c s IH]; [done|]. intros [Hc Hs]%has_byte_cons. rewrite string_app_cons. cbn [Contains].
  rewrite IH by done. unfold HasPrefix. cbn [cut_prefix]. rewrite decide_False by done. done.
Qed.

Lemma Contains_byte a s : has_byte a s = false → Contains s (String a EmptyString) = false.
Proof.
  intros H. pose proof (Contains_skip a EmptyString s EmptyString H) as E.
  rewrite (right_id_L EmptyString String.append) in E. by rewrite E.
Qed.

Inductive token := TText (s : string) | TField (content : string).

Definition print_token (t : token) : string :=
  match t with TText s => s | TField c => String open_brace (c +:+ String close_brace EmptyString) end.
Definition print_tokens (ts : list token) : string := String.concat EmptyString (print_token <$> ts).

(** Text without braces and marks; a field that is not empty, without braces. *)
Definition token_ok (t : token) : Prop :=
  match t with
  | TText s => has_byte open_brace s = false ∧ has_byte close_brace s = false ∧
               has_byte (Ascii.ascii_of_nat 0) s = false ∧ has_byte (Ascii.ascii_of_nat 1) s = false
  | TField c => c ≠ EmptyString ∧ has_byte open_brace c = false ∧ has_byte close_brace c = false
  end.

Lemma print_cons t ts : print_tokens (t :: ts) = print_token t +:+ print_tokens ts.
Proof. unfold print_tokens. rewrite fmap_cons. apply concat_cons. Qed.

Lemma print_field c ts : print_tokens (TField c :: ts) = String open_brace (c +:+ String close_brace (print_tokens ts)).
Proof. rewrite print_cons. simpl. rewrite string_app_cons, <- (assoc_L String.append), string_app_cons, string_app_nil. done. Qed.

Lemma print_no_close_first ts s :
  Forall token_ok ts → print_tokens ts = String close_brace s → False.
Proof.
  induction 1 as [|[x|c] ts Ht _ IH]; [done|..].
  - rewrite print_cons. destruct x as [|d x]; [done|]. cbn [print_token]. rewrite string_app_cons. intros [= -> _].
    destruct Ht as (_ & [? _]%has_byte_cons & _). done.
  - rewrite print_field. by intros [=].
Qed.

(** No doubled braces are printed. *)
Lemma print_no_double_open ts :
  Forall token_ok ts → Contains (print_tokens ts) "{{" = false.
Proof.
  change "{{" with (String open_brace (String open_brace EmptyString)).
  induction 1 as [|[x|c] ts Ht _ IH]; [done|..].
  - rewrite print_cons. cbn [print_token]. rewrite Contains_skip by apply Ht. done.
  - destruct Ht as (Hne & Ho & Hc). rewrite print_field. cbn [Contains].
    rewrite Contains_skip by done. cbn [Contains]. rewrite IH.
    destruct c as [|d c]; [done|]. apply has_byte_cons in Ho as [Hd _].
    unfold HasPrefix. rewrite string_app_cons. cbn [cut_prefix].
    rewrite decide_True by done. rewrite (decide_False (P := open_brace = d)) by done.
    rewrite decide_False by done. done.
Qed.

Lemma print_no_double_close ts :
  Forall token_ok ts → Contains (print_tokens ts) "}}" = false.
Proof.
  change "}}" with (String close_brace (String close_brace EmptyString)).
  induction 1 as [|[x|c] ts Ht Hts IH]; [done|..].
  - rewrite print_cons. cbn [print_token]. rewrite Contains_skip by apply Ht. done.
  - destruct Ht as (Hne & Ho & Hc). rewrite print_field. cbn [Contains].
    rewrite Contains_skip by done. cbn [Contains]. rewrite IH. unfold HasPrefix. cbn [cut_prefix].
    rewrite decide_False by done. rewrite decide_True by done.
    destruct (print_tokens ts) as [|d r] eqn:E; [done|]. cbn [cut_prefix].
    rewrite decide_False; [done|]. intros <-. by eapply print_no_close_first.
Qed.

Lemma pieces_text s rest lit :
  has_byte open_brace s = false → pieces (s +:+ rest) 0 lit = pieces rest 0 (lit +:+ s).
Proof.
  revert lit. induction s as [|c s IH]; intros lit.
  - by rewrite (right_id_L EmptyString String.append).
  - intros [Hc Hs]%has_byte_cons. rewrite string_app_cons. cbn [pieces]. rewrite decide_False by done.
    rewrite IH by done. by rewrite <- (assoc_L String.append), string_app_cons, string_app_nil.
Qed.

Lemma pieces_skip s rest lit : pieces (s +:+ rest) (String.length s) lit = pieces rest 0 lit.
Proof. induction s as [|c s IH]; [done|]. rewrite string_app_cons. cbn [pieces String.length]. exact IH. Qed.

Lemma placeholder_found c rest acc :
  has_byte open_brace c = false → has_byte close_brace c = false → acc +:+ c ≠ EmptyString →
  placeholder (c +:+ String close_brace rest) acc = Some (acc +:+ c).
Proof.
  revert acc. induction c as [|d c IH]; intros acc Ho Hc Hne.
  - rewrite (right_id_L EmptyString String.append) in *. rewrite string_app_nil. cbn [placeholder].
    rewrite decide_True by done. by rewrite bool_decide_false.
  - apply has_byte_cons in Ho as [Hd Ho]. apply has_byte_cons in Hc as [Hd' Hc].
    rewrite string_app_cons. cbn [placeholder]. rewrite !decide_False by done.
    rewrite IH; [|done|done|].
    + by rewrite <- (assoc_L String.append), string_app_cons, string_app_nil.
    + rewrite <- (assoc_L String.append), string_app_cons, string_app_nil. done.
Qed.

Lemma pieces_field c ts lit :
  token_ok (TField c) →
  pieces (print_tokens (TField c :: ts)) 0 lit = flush lit ++ PHold c :: pieces (print_tokens ts) 0 EmptyString.
Proof.
  intros (Hne & Ho & Hc). rewrite print_field. cbn [pieces]. rewrite decide_True by done.
  rewrite placeholder_found by (done || by rewrite string_app_nil). rewrite string_app_nil. do 2 f_equal.
  replace (c +:+ String close_brace (print_tokens ts)) with ((c +:+ String close_brace EmptyString) +:+ print_tokens ts)
    by (rewrite <- (assoc_L String.append), string_app_cons, string_app_nil; done).
  replace (S (String.length c)) with (String.length (c +:+ String close_brace EmptyString))
    by (rewrite string_length_app; simpl; lia).
  apply pieces_skip.
Qed.

Definition is_field (t : token) : bool := match t with TField _ => true | TText _ => false end.

Lemma flush_no_hold lit : existsb is_hold (flush lit) = false.
Proof. unfold flush. by case_bool_decide. Qed.

Lemma pieces_hold ts lit :
  Forall token_ok ts → existsb is_hold (pieces (print_tokens ts) 0 lit) = existsb is_field ts.
Proof.
  intros H. revert lit. induction H as [|[x|c] ts Ht _ IH]; intros lit.
  - apply flush_no_hold.
  - rewrite print_cons. cbn [print_token]. rewrite pieces_text by apply Ht. apply IH.
  - rewrite pieces_field by done. rewrite existsb_app. simpl. apply orb_true_r.
Qed.

Definition unmarked (s : string) : Prop :=
  has_byte (Ascii.ascii_of_nat 0) s = false ∧ has_byte (Ascii.ascii_of_nat 1) s = false.

Lemma unmark_id s : unmarked s → unmark s = s.
Proof.
  intros [H0 H1]. unfold unmark, mark0, mark1. rewrite (ReplaceAll_absent s) by (by apply Contains_byte).
  apply ReplaceAll_absent. by apply Contains_byte.
Qed.

Lemma unmarked_app s t : unmarked s → unmarked t → unmarked (s +:+ t).
Proof.
  unfold unmarked, has_byte. rewrite !bool_decide_eq_false, !to_list_app, !elem_of_app. tauto.
Qed.

Section template.
Context (fmt_float : bool → gofloat → string) (sprintv : goval → string).
Context (xid : Z) (e : WriteEntry Tup).
Notation part_value := (part_value fmt_float sprintv xid e).

Definition token_value (t : token) : res string :=
  match t with TText s => Ok s | TField c => part_value (placeholderTemplatePart c) end.

(** The concatenated values. *)
Definition joined {A} (f : A → res string) (l : list A) : res string :=
  vs ← OMap.mapR f l; Ok (String.concat EmptyString vs).

Lemma joined_cons {A} (f : A → res string) x l :
  joined f (x :: l) = (v ← f x; r ← joined f l; Ok (v +:+ r)).
Proof.
  unfold joined. cbn [OMap.mapR]. destruct (f x); res_step; try done.
  destruct (OMap.mapR f l); res_step; try done. by rewrite concat_cons.
Qed.

Lemma joined_flush lit l :
  unmarked lit →
  joined (part_value ∘ part_of) (flush lit ++ l) = (r ← joined (part_value ∘ part_of) l; Ok (lit +:+ r)).
Proof.
  intros Hl. unfold flush. case_bool_decide as E.
  - subst lit. simpl. destruct (joined _ l); simpl; done.
  - cbn [app]. rewrite joined_cons. simpl. by rewrite unmark_id.
Qed.

Lemma joined_pieces ts lit :
  Forall token_ok ts → unmarked lit →
  joined (part_value ∘ part_of) (pieces (print_tokens ts) 0 lit) = (r ← joined token_value ts; Ok (lit +:+ r)).
Proof.
  intros H. revert lit. induction H as [|[x|c] ts Ht _ IH]; intros lit Hl.
  - pose proof (joined_flush lit [] Hl) as E. rewrite app_nil_r in E. exact E.
  - rewrite print_cons. cbn [print_token]. rewrite pieces_text by apply Ht.
    rewrite IH by (apply unmarked_app; [done|]; split; apply Ht). rewrite joined_cons. simpl.
    destruct (joined token_value ts); simpl; try done. by rewrite (assoc_L String.append).
  - rewrite pieces_field, joined_flush, !joined_cons by done. simpl.
    destruct (part_value (placeholderTemplatePart c)); simpl; try done.
    rewrite IH by done. by destruct (joined token_value ts); simpl.
Qed.

Lemma joined_text ts :
  Forall token_ok ts → existsb is_field ts = false →
  joined token_value ts = Ok (print_tokens ts) ∧ unmarked (print_tokens ts).
Proof.
  induction 1 as [|[x|c] ts Ht _ IH]; intros Hf; [done| |done].
  destruct (IH Hf) as [E Hu]. rewrite joined_cons, E, print_cons. split; [done|].
  apply unmarked_app; [|done]. split; apply Ht.
Qed.
End template.

(** The pattern is not one of the forms that stand for several arguments, JSON
    or a difference. *)
Definition plain (pattern : string) : Prop :=
  pattern ≠ "{pairs:*}" ∧ pattern ≠ "{columns:*}" ∧ pattern ≠ "{json:*}" ∧
  enclosed "{pairs:" pattern = None ∧ enclosed "{json:" pattern = None ∧ enclosed "{diff:" pattern = None.

