(* ===== verification/Metrics.v ===== *)
(** * Metrics

    - [Counters]: the counters that several goroutines add to
      ([CounterMap] of src/pg2stats/statistics.go), as a system of the
      goroutines' steps under the read-write lock;
    - [Labels]: the labels of src/pg2redis/stats/redis_stats.go and their cache;
    - [Names]: the metrics each part registers
      (src/pg2buffer/stats/buffered_listener_stats.go,
      src/pg2redis/stats/redis_stats.go, src/pg2sqs/stats/sqs_stats.go,
      src/replicator/pg_replicator_stats.go).

    The registry of the metrics library is not part of the program: one float
    counter for each name, whose [Add] is atomic; an unusable name panics. *)

From stdpp Require Import base numbers list gmap strings.
From S2P Require Import Prelude GoStrings RedisCommand.

Definition dquote : string := String (Ascii.ascii_of_nat 34) EmptyString.

(** ** Lists of goroutines *)

Definition count {T} (P : T → bool) (l : list T) : nat := length (List.filter P l).
Definition one (b : bool) : nat := if b then 1 else 0.

Lemma count_insert {T} (P : T → bool) (l : list T) i t t' :
  l !! i = Some t → (count P (<[i:=t']> l) + one (P t) = count P l + one (P t'))%nat.
Proof.
  unfold count. revert i. induction l as [|x l IH]; intros [|i] H; simplify_eq/=.
  - destruct (P t), (P t'); simpl; lia.
  - specialize (IH i H). destruct (P x); simpl; lia.
Qed.

Lemma count_pos {T} (P : T → bool) (l : list T) i t : l !! i = Some t → P t = true → (0 < count P l)%nat.
Proof.
  unfold count. revert i. induction l as [|x l IH]; intros [|i] H HP; simplify_eq/=; [rewrite HP; simpl; lia|].
  specialize (IH i H HP). destruct (P x); simpl; lia.
Qed.

Lemma count_zero {T} (P : T → bool) (l : list T) i t : count P l = 0%nat → l !! i = Some t → P t = false.
Proof. intros H Hi. destruct (P t) eqn:E; [|done]. pose proof (count_pos P l i t Hi E). lia. Qed.

Lemma omap_insert_perm {T U} (f : T → option U) (l : list T) i t t' :
  l !! i = Some t → option_list (f t) ++ omap f (<[i:=t']> l) ≡ₚ option_list (f t') ++ omap f l.
Proof.
  revert i. induction l as [|x l IH]; intros [|i] H; simplify_eq/=.
  - destruct (f t), (f t'); simpl; try done. apply perm_swap.
  - specialize (IH i H). destruct (f x) as [u|]; simpl; [|done].
    rewrite <- !Permutation_middle. by rewrite IH.
Qed.

(** ** Counters by label *)

Module Counters.
Section counters.
(** Floats with their addition, the names that the metrics library accepts, and
    the order in which a map is ranged over. *)
Context {F : Type} (fadd : F → F → F) (fzero : F) (valid_name : string → bool).

Record Counter := mkCounter { c_name : string; c_help : string }.

(** [CounterMap]; its lock: the number of readers, and whether a writer holds it. *)
Record CounterMap := mkCM {
  nameBase : string; labelName : string; helpBase : string;
  readers : nat; locked : bool;
  counters : gmap string Counter }.

Context (enum : gmap string Counter → list (string * Counter)).

(** The counters of the library, by name. *)
Notation registry := (gmap string F).

Definition NewCounter (name help : string) (reg : registry) : res (Counter * registry) :=
  if valid_name name
  then Ok (mkCounter name help, match reg !! name with Some _ => reg | None => <[name := fzero]> reg end)
  else Panic "invalid metric name".
Definition Value (c : Counter) (reg : registry) : F := default fzero (reg !! c_name c).
Definition add_value (c : Counter) (v : F) (reg : registry) : registry := <[c_name c := fadd (Value c reg) v]> reg.

Definition label (labelName key : string) : string := "{" +:+ labelName +:+ "=" +:+ dquote +:+ key +:+ dquote +:+ "}".
Definition name_of (cm : CounterMap) (key : string) : string := nameBase cm +:+ label (labelName cm) key.
Definition help_of (cm : CounterMap) (key : string) : string := helpBase cm +:+ " (" +:+ key +:+ ")".

Definition with_lock (r : nat) (l : bool) (cm : CounterMap) : CounterMap :=
  mkCM (nameBase cm) (labelName cm) (helpBase cm) r l (counters cm).
Definition store (key : string) (c : Counter) (cm : CounterMap) : CounterMap :=
  mkCM (nameBase cm) (labelName cm) (helpBase cm) (readers cm) (locked cm) (<[key := c]> (counters cm)).

(** [Add] when nobody else uses the map. *)
Definition Add (key : string) (v : F) (cm : CounterMap) (reg : registry) : res (CounterMap * registry) :=
  match counters cm !! key with
  | Some c => Ok (cm, add_value c v reg)
  | None =>
      '(c, reg) ← NewCounter (name_of cm key) (help_of cm key) reg;
      Ok (store key c cm, add_value c v reg)
  end.

Fixpoint add_labels (labels : list string) (cm : CounterMap) (reg : registry) : res (CounterMap * registry) :=
  match labels with
  | [] => Ok (cm, reg)
  | l :: r => '(cm, reg) ← Add l fzero cm reg; add_labels r cm reg
  end.
Definition NewCounterMap (nameBase helpBase labelName : string) (initLabels : list string) (reg : registry)
    : res (CounterMap * registry) :=
  add_labels initLabels (mkCM nameBase labelName helpBase 0 false ∅) reg.

Definition GetStatsAsFields (cm : CounterMap) (reg : registry) : list (string * F) :=
  (λ p, (c_name p.2, Value p.2 reg)) <$> enum (counters cm).

(** *** Concurrent calls *)

(** A goroutine in [Add key v]: before the call, with the read lock, after a
    lookup that found nothing, with the lock before the second lookup, with the
    counter it has made and not yet stored, with its counter before the addition,
    returned.  A goroutine in [GetStatsAsFields]: before, with the read lock,
    returned. *)
Inductive thread :=
| TAdd (key : string) (v : F)
| TReading (key : string) (v : F)
| TMissing (key : string) (v : F)
| TLocked (key : string) (v : F)
| TStoring (key : string) (v : F) (c : Counter)
| THave (key : string) (v : F) (c : Counter)
| TDone (key : string) (v : F)
| TStats
| TListing
| TListed (fields : list (string * F)).

(** [made]: the keys of the calls of [NewCounter]; [added]: the additions, in order. *)
Record sys := mkSys {
  cm : CounterMap; reg : registry; threads : list thread;
  made : list string; added : list (string * F) }.

Definition goes (i : nat) (t : thread) (m : CounterMap) (s : sys) : sys :=
  mkSys m (reg s) (<[i := t]> (threads s)) (made s) (added s).

(** The next step of goroutine [i]: [Ok None] when it has to wait or has returned. *)
Definition step (i : nat) (s : sys) : res (option sys) :=
  let m := cm s in
  match threads s !! i with
  | Some (TAdd k v) =>
      Ok (if locked m then None else Some (goes i (TReading k v) (with_lock (S (readers m)) false m) s))
  | Some (TReading k v) =>
      Ok (Some (goes i (match counters m !! k with Some c => THave k v c | None => TMissing k v end)
                     (with_lock (pred (readers m)) (locked m) m) s))
  | Some (TMissing k v) =>
      Ok (if locked m || negb (bool_decide (readers m = 0%nat)) then None
          else Some (goes i (TLocked k v) (with_lock 0 true m) s))
  | Some (TLocked k v) =>
      match counters m !! k with
      | Some c => Ok (Some (goes i (THave k v c) (with_lock (readers m) false m) s))
      | None =>
          '(c, g) ← NewCounter (name_of m k) (help_of m k) (reg s);
          Ok (Some (mkSys m g (<[i := TStoring k v c]> (threads s)) (made s ++ [k]) (added s)))
      end
  | Some (TStoring k v c) =>
      Ok (Some (goes i (THave k v c) (with_lock (readers m) false (store k c m)) s))
  | Some (THave k v c) =>
      Ok (Some (mkSys m (add_value c v (reg s)) (<[i := TDone k v]> (threads s)) (made s) (added s ++ [(k, v)])))
  | Some TStats =>
      Ok (if locked m then None else Some (goes i TListing (with_lock (S (readers m)) false m) s))
  | Some TListing =>
      Ok (Some (goes i (TListed (GetStatsAsFields m (reg s))) (with_lock (pred (readers m)) (locked m) m) s))
  | _ => Ok None
  end.

(** Executing a schedule. *)
Fixpoint exec (sched : list nat) (s : sys) : res (option sys) :=
  match sched with
  | [] => Ok (Some s)
  | i :: r => (o ← step i s; match o with Some s => exec r s | None => Ok None end)
  end.

Definition starts (t : thread) : bool := match t with TAdd _ _ | TStats => true | _ => false end.
Definition returned (t : thread) : bool := match t with TDone _ _ | TListed _ => true | _ => false end.
Definition start (m : CounterMap) (g : registry) (ts : list thread) : sys := mkSys m g ts [] [].

(** Who reads the map, who writes it, and the calls that have returned. *)
Definition reading (t : thread) : bool := match t with TReading _ _ | TListing => true | _ => false end.
Definition writing (t : thread) : bool := match t with TLocked _ _ | TStoring _ _ _ => true | _ => false end.
Definition finished (t : thread) : option (string * F) := match t with TDone k v => Some (k, v) | _ => None end.
Definition call (t : thread) : option (string * F) :=
  match t with
  | TAdd k v | TReading k v | TMissing k v | TLocked k v | TStoring k v _ | THave k v _ | TDone k v => Some (k, v)
  | _ => None
  end.

(** The values added under a key, in their order. *)
Definition values_of (k : string) (l : list (string * F)) : list F := omap (λ p, if decide (p.1 = k) then Some p.2 else None) l.

(** *** The invariant *)

Definition counter_of (m : CounterMap) (k : string) : Counter := mkCounter (name_of m k) (help_of m k).
(** The stored counters are those of their keys, and registered. *)
Definition cm_ok (m : CounterMap) (g : registry) : Prop :=
  ∀ k c, counters m !! k = Some c → c = counter_of m k ∧ is_Some (g !! c_name c).

Definition same_base (m m' : CounterMap) : Prop :=
  nameBase m' = nameBase m ∧ labelName m' = labelName m ∧ helpBase m' = helpBase m.

Lemma same_base_names m m' k : same_base m m' → name_of m' k = name_of m k ∧ help_of m' k = help_of m k ∧ counter_of m' k = counter_of m k.
Proof using Type. intros (E1 & E2 & E3). unfold counter_of, name_of, help_of. by rewrite E1, E2, E3. Qed.

Lemma string_app_inj_l (p a b : string) : p +:+ a = p +:+ b → a = b.
Proof using Type. induction p as [|c p IH]; [done|]. intros [= H]. auto. Qed.
Lemma string_app_inj_r (a b q : string) : a +:+ q = b +:+ q → a = b.
Proof using Type.
  intros H. apply (f_equal to_list) in H. rewrite !to_list_app in H. apply app_inv_tail in H. by apply to_list_inj.
Qed.

(** Different keys have different names. *)
Lemma name_of_inj m k k' : name_of m k = name_of m k' → k = k'.
Proof using Type.
  unfold name_of, label. intros H.
  apply string_app_inj_l in H. do 4 apply string_app_inj_l in H. by apply string_app_inj_r in H.
Qed.

Record inv (m0 : CounterMap) (g0 : registry) (ts0 : list thread) (s : sys) : Prop := {
  i_readers : readers (cm s) = count reading (threads s);
  i_writer : one (locked (cm s)) = count writing (threads s);
  i_excl : locked (cm s) = true → readers (cm s) = 0%nat;
  i_base : same_base m0 (cm s);
  i_counters : cm_ok (cm s) (reg s);
  i_have i k v c : threads s !! i = Some (THave k v c) → counters (cm s) !! k = Some c;
  i_storing i k v c : threads s !! i = Some (TStoring k v c) →
    c = counter_of (cm s) k ∧ is_Some (reg s !! c_name c) ∧ counters (cm s) !! k = None;
  i_made : NoDup (made s);
  i_made_key k : k ∈ made s →
    is_Some (counters (cm s) !! k) ∨ ∃ i v c, threads s !! i = Some (TStoring k v c);
  i_done i k v : threads s !! i = Some (TDone k v) → is_Some (counters (cm s) !! k);
  i_value k : Value (counter_of m0 k) (reg s) = foldl fadd (Value (counter_of m0 k) g0) (values_of k (added s));
  i_others n : (∀ k, n ≠ name_of m0 k) → reg s !! n = g0 !! n;
  i_calls : omap call (threads s) = omap call ts0;
  i_length : length (threads s) = length ts0;
  i_added : omap finished (threads s) ≡ₚ added s }.

(** A goroutine in the list after the step of one. *)
Lemma insert_cases (ts : list thread) i j t t' x :
  ts !! i = Some t → <[i:=t']> ts !! j = Some x → (j = i ∧ x = t') ∨ ts !! j = Some x.
Proof using Type.
  intros Hi H. apply list_lookup_insert_Some in H as [(-> & <- & _)|[_ H]]; auto.
Qed.

Lemma calls_insert (ts : list thread) i t t' :
  ts !! i = Some t → call t' = call t → omap call (<[i:=t']> ts) = omap call ts.
Proof using Type.
  revert i. induction ts as [|x ts IH]; intros [|i] H Hc; simplify_eq/=; [by rewrite Hc|]. by rewrite (IH i).
Qed.

Lemma made_insert (ts : list thread) i t t' k :
  ts !! i = Some t → (∀ v c, t ≠ TStoring k v c) →
  (∃ j v c, ts !! j = Some (TStoring k v c)) → ∃ j v c, <[i:=t']> ts !! j = Some (TStoring k v c).
Proof using Type.
  intros Hi Hn (j & v & c & Hj). exists j, v, c. rewrite list_lookup_insert_ne; [done|].
  intros ->. rewrite Hi in Hj. injection Hj as ->. by apply (Hn v c).
Qed.

(** A step that only takes or gives back the lock. *)
Lemma lock_step_inv m0 g0 ts0 s i t t' r l :
  inv m0 g0 ts0 s → threads s !! i = Some t → call t' = call t → finished t' = finished t →
  (r + one (reading t) = readers (cm s) + one (reading t'))%nat →
  (one l + one (writing t) = one (locked (cm s)) + one (writing t'))%nat → (l = true → r = 0%nat) →
  (∀ k v c, t' = THave k v c → counters (cm s) !! k = Some c) →
  match t, t' with TStoring _ _ _, _ | _, (TStoring _ _ _ | TDone _ _) => False | _, _ => True end →
  inv m0 g0 ts0 (goes i t' (with_lock r l (cm s)) s).
Proof using Type.
  intros [] Hi Hc Hf Hr Hw Hl Hh Ht.
  pose proof (count_insert reading _ i _ t' Hi). pose proof (count_insert writing _ i _ t' Hi).
  split; cbn [goes with_lock cm reg threads made added readers locked counters nameBase labelName helpBase]; try done; try lia.
  - intros j k v c [[-> E]|Hj]%(insert_cases _ _ _ t); eauto.
  - intros j k v c [[-> E]|Hj]%(insert_cases _ _ _ t); [subst t'; by destruct t|by eapply i_storing0|done].
  - intros k Hk. destruct (i_made_key0 k Hk) as [?|Hex]; [by left|right]. eapply made_insert; [done| |done].
    intros v c ->. done.
  - intros j k v [[-> E]|Hj]%(insert_cases _ _ _ t); [subst t'; by destruct t|by eapply i_done0|done].
  - by rewrite (calls_insert _ i t).
  - by rewrite length_insert.
  - pose proof (omap_insert_perm finished _ i _ t' Hi) as HP. rewrite Hf in HP. apply Permutation_app_inv_l in HP. by rewrite HP.
Qed.

(** The only goroutine that writes the map. *)
Lemma writer_alone m0 g0 ts0 s i j t t' :
  inv m0 g0 ts0 s → threads s !! i = Some t → threads s !! j = Some t' → writing t = true → writing t' = true → i = j.
Proof using Type.
  intros [] Hi Hj Ht Ht'. destruct (decide (i = j)) as [?|Hne]; [done|]. exfalso.
  pose proof (count_insert writing _ i _ TStats Hi) as H1. rewrite Ht in H1. simpl in H1.
  assert (<[i:=TStats]> (threads s) !! j = Some t') as Hj' by (by rewrite list_lookup_insert_ne).
  pose proof (count_pos writing _ _ _ Hj' Ht'). destruct (locked (cm s)); simpl in *; lia.
Qed.

Lemma writer_locked m0 g0 ts0 s i t :
  inv m0 g0 ts0 s → threads s !! i = Some t → writing t = true → locked (cm s) = true ∧ readers (cm s) = 0%nat.
Proof using Type.
  intros [] Hi Ht. pose proof (count_pos writing _ _ _ Hi Ht). destruct (locked (cm s)); simpl in *; [auto|lia].
Qed.

Lemma values_of_snoc k l p :
  values_of k (l ++ [p]) = values_of k l ++ if decide (p.1 = k) then [p.2] else [].
Proof using Type. unfold values_of. rewrite omap_app. simpl. by destruct (decide (p.1 = k)). Qed.

Lemma NewCounter_inv name help g c g' :
  NewCounter name help g = Ok (c, g') →
  c = mkCounter name help ∧ is_Some (g' !! name) ∧ (∀ n, n ≠ name → g' !! n = g !! n) ∧
  (∀ n, is_Some (g !! n) → is_Some (g' !! n)) ∧ (∀ c, Value c g' = Value c g).
Proof using Type.
  unfold NewCounter. destruct (valid_name name); [|done]. intros [= <- <-]. destruct (g !! name) as [v|] eqn:E.
  - by split_and!.
  - split_and!; [done|by rewrite lookup_insert_eq|intros n Hn; by rewrite lookup_insert_ne| |].
    + intros n Hn. destruct (decide (n = name)) as [->|]; [by rewrite lookup_insert_eq|by rewrite lookup_insert_ne].
    + intros c. unfold Value. destruct (decide (c_name c = name)) as [->|]; [by rewrite lookup_insert_eq, E|by rewrite lookup_insert_ne].
Qed.

Lemma cm_ok_grow m g g' : cm_ok m g → (∀ n, is_Some (g !! n) → is_Some (g' !! n)) → cm_ok m g'.
Proof using Type. intros H Hg k c Hk. destruct (H k c Hk) as [-> ?]. split; [done|auto]. Qed.

Lemma create_inv m0 g0 ts0 s i k v c g :
  inv m0 g0 ts0 s → threads s !! i = Some (TLocked k v) → counters (cm s) !! k = None →
  NewCounter (name_of (cm s) k) (help_of (cm s) k) (reg s) = Ok (c, g) →
  inv m0 g0 ts0 (mkSys (cm s) g (<[i := TStoring k v c]> (threads s)) (made s ++ [k]) (added s)).
Proof using Type.
  intros Hinv Hi Hk Hn. pose proof Hinv as [].
  apply NewCounter_inv in Hn as (-> & Hg1 & Hg2 & Hg3 & Hg4).
  pose proof (count_insert reading _ i _ (TStoring k v (counter_of (cm s) k)) Hi) as Hcr.
  pose proof (count_insert writing _ i _ (TStoring k v (counter_of (cm s) k)) Hi) as Hcw. simpl in Hcr, Hcw.
  unfold counter_of in Hcr, Hcw.
  split; cbn [cm reg threads made added]; try done; try lia.
  - by eapply cm_ok_grow.
  - intros j k' v' c' [[-> E]|Hj]%(insert_cases _ _ _ (TLocked k v)); [done|eauto|done].
  - intros j k' v' c' [[-> E]|Hj]%(insert_cases _ _ _ (TLocked k v)); [| |done].
    + injection E as -> -> ->. done.
    + destruct (i_storing0 _ _ _ _ Hj) as (-> & ? & ?). split_and!; auto.
  - apply NoDup_app. split_and!; [done| |apply NoDup_singleton]. intros x Hx ->%list_elem_of_singleton.
    destruct (i_made_key0 k Hx) as [[? ?]|(j & v' & c' & Hj)]; [congruence|].
    pose proof (writer_alone _ _ _ _ _ _ _ _ Hinv Hi Hj eq_refl eq_refl). subst. congruence.
  - intros x [Hx| ->%list_elem_of_singleton]%elem_of_app.
    + destruct (i_made_key0 x Hx) as [?|Hex]; [by left|right]. by eapply made_insert.
    + right. exists i, v, (mkCounter (name_of (cm s) k) (help_of (cm s) k)). by eapply list_lookup_insert_eq, lookup_lt_Some.
  - intros j k' v' [[-> E]|Hj]%(insert_cases _ _ _ (TLocked k v)); [done|eauto|done].
  - intros k'. by rewrite Hg4.
  - intros n Hne. rewrite Hg2; [auto|]. destruct (same_base_names _ _ k i_base0) as (-> & _). apply Hne.
  - by rewrite (calls_insert _ i (TLocked k v)).
  - by rewrite length_insert.
  - pose proof (omap_insert_perm finished _ i _ (TStoring k v (mkCounter (name_of (cm s) k) (help_of (cm s) k))) Hi) as HP.
    simpl in HP. by rewrite HP.
Qed.

Lemma store_inv m0 g0 ts0 s i k v c :
  inv m0 g0 ts0 s → threads s !! i = Some (TStoring k v c) →
  inv m0 g0 ts0 (goes i (THave k v c) (with_lock (readers (cm s)) false (store k c (cm s))) s).
Proof using Type.
  intros Hinv Hi. pose proof Hinv as []. destruct (i_storing0 _ _ _ _ Hi) as (Hc & Hg & Hk).
  destruct (writer_locked _ _ _ _ _ _ Hinv Hi eq_refl) as [Hlk Hrd].
  pose proof (count_insert reading _ i _ (THave k v c) Hi) as Hcr.
  pose proof (count_insert writing _ i _ (THave k v c) Hi) as Hcw. simpl in Hcr, Hcw. rewrite Hlk in i_writer0. simpl in i_writer0.
  split; cbn [goes with_lock store cm reg threads made added readers locked counters nameBase labelName helpBase]; try done; try (simpl; lia).
  - intros k' c' Hk'. cbn [counters with_lock store] in Hk'. apply lookup_insert_Some in Hk' as [[<- <-]|[_ Hk']]; [done|].
    by apply i_counters0.
  - intros j k' v' c' [[-> E]|Hj]%(insert_cases _ _ _ (TStoring k v c)); [| |done].
    + injection E as -> -> ->. by rewrite lookup_insert_eq.
    + apply i_have0 in Hj. rewrite lookup_insert_ne; [done|]. intros ->. congruence.
  - intros j k' v' c' Hj. exfalso. apply list_lookup_insert_Some in Hj as [(-> & E & _)|[Hne Hj]]; [done|].
    by pose proof (writer_alone _ _ _ _ _ _ _ _ Hinv Hi Hj eq_refl eq_refl).
  - intros x Hx. left. destruct (i_made_key0 x Hx) as [[c' Hc']|(j & v' & c' & Hj)].
    + destruct (decide (x = k)) as [->|]; [by rewrite lookup_insert_eq|by rewrite lookup_insert_ne].
    + pose proof (writer_alone _ _ _ _ _ _ _ _ Hinv Hi Hj eq_refl eq_refl) as <-. rewrite Hi in Hj.
      injection Hj as -> -> ->. by rewrite lookup_insert_eq.
  - intros j k' v' [[-> E]|Hj]%(insert_cases _ _ _ (TStoring k v c)); [done| |done].
    apply i_done0 in Hj. destruct (decide (k' = k)) as [->|]; [by rewrite lookup_insert_eq|by rewrite lookup_insert_ne].
  - by rewrite (calls_insert _ i (TStoring k v c)).
  - by rewrite length_insert.
  - pose proof (omap_insert_perm finished _ i _ (THave k v c) Hi) as HP. simpl in HP. by rewrite HP.
Qed.

Lemma add_inv m0 g0 ts0 s i k v c :
  inv m0 g0 ts0 s → threads s !! i = Some (THave k v c) →
  inv m0 g0 ts0 (mkSys (cm s) (add_value c v (reg s)) (<[i := TDone k v]> (threads s)) (made s) (added s ++ [(k, v)])).
Proof using Type.
  intros Hinv Hi. pose proof Hinv as []. pose proof (i_have0 _ _ _ _ Hi) as Hk.
  destruct (i_counters0 _ _ Hk) as [Hc Hg]. destruct (same_base_names _ _ k i_base0) as (En & Eh & Ec).
  pose proof (count_insert reading _ i _ (TDone k v) Hi) as Hcr.
  pose proof (count_insert writing _ i _ (TDone k v) Hi) as Hcw. simpl in Hcr, Hcw.
  assert (∀ n, is_Some (reg s !! n) → is_Some (add_value c v (reg s) !! n)) as Hgrow.
  { intros n Hn. unfold add_value. destruct (decide (n = c_name c)) as [->|]; [by rewrite lookup_insert_eq|by rewrite lookup_insert_ne]. }
  split; cbn [cm reg threads made added]; try done; try lia.
  - by eapply cm_ok_grow.
  - intros j k' v' c' [[-> E]|Hj]%(insert_cases _ _ _ (THave k v c)); [done|eauto|done].
  - intros j k' v' c' [[-> E]|Hj]%(insert_cases _ _ _ (THave k v c)); [done| |done].
    destruct (i_storing0 _ _ _ _ Hj) as (-> & ? & ?). split_and!; auto.
  - intros x Hx. destruct (i_made_key0 x Hx) as [?|Hex]; [by left|right]. by eapply made_insert.
  - intros j k' v' [[-> E]|Hj]%(insert_cases _ _ _ (THave k v c)); [|eauto|done]. injection E as -> ->. by rewrite Hk.
  - intros k'. rewrite values_of_snoc. simpl. rewrite Hc, Ec. case_decide as Hkk.
    + subst k'. rewrite foldl_app, <- i_value0. simpl. unfold Value, add_value at 1. by rewrite lookup_insert_eq.
    + rewrite app_nil_r, <- i_value0. unfold Value, add_value. simpl. rewrite lookup_insert_ne; [done|].
      intros E. apply Hkk. by eapply name_of_inj.
  - intros n Hne. unfold add_value. rewrite Hc. simpl. rewrite En, lookup_insert_ne by (symmetry; apply Hne). auto.
  - by rewrite (calls_insert _ i (THave k v c)).
  - by rewrite length_insert.
  - pose proof (omap_insert_perm finished _ i _ (TDone k v) Hi) as HP. simpl in HP. rewrite HP, i_added0. apply Permutation_cons_append.
Qed.

Lemma counters_step_inv m0 g0 ts0 s i s' : inv m0 g0 ts0 s → step i s = Ok (Some s') → inv m0 g0 ts0 s'.
Proof using Type.
  intros Hinv. pose proof Hinv as []. unfold step.
  destruct (threads s !! i) as [[k v|k v|k v|k v|k v c|k v c|k v| | |fs]|] eqn:Hi; try done.
  - destruct (locked (cm s)) eqn:Hl; [done|]. intros [= <-]. eapply lock_step_inv; eauto; simpl; rewrite ?Hl; simpl; try done; lia.
  - intros [= <-]. pose proof (count_pos reading _ _ _ Hi eq_refl) as Hp.
    assert (locked (cm s) = false) as Hl by (destruct (locked (cm s)); [specialize (i_excl0 eq_refl); lia|done]).
    destruct (counters (cm s) !! k) as [c|] eqn:Hk; eapply lock_step_inv; eauto; simpl; rewrite ?Hl; simpl; try done; try lia.
    intros k' v' c' [= -> -> ->]. done.
  - destruct (locked (cm s)) eqn:Hl; [done|]. case_bool_decide as Hr; [|done]. intros [= <-].
    eapply lock_step_inv; eauto; simpl; rewrite ?Hl; simpl; try done; lia.
  - destruct (writer_locked _ _ _ _ _ _ Hinv Hi eq_refl) as [Hl Hr].
    destruct (counters (cm s) !! k) as [c|] eqn:Hk.
    + intros [= <-]. eapply lock_step_inv; eauto; simpl; rewrite ?Hl; simpl; try done; try lia.
      intros k' v' c' [= -> -> ->]. done.
    + intros ([c g] & Hn & [= <-])%res_bind_Ok. by apply create_inv.
  - intros [= <-]. by apply store_inv.
  - intros [= <-]. by apply add_inv.
  - destruct (locked (cm s)) eqn:Hl; [done|]. intros [= <-]. eapply lock_step_inv; eauto; simpl; rewrite ?Hl; simpl; try done; lia.
  - intros [= <-]. pose proof (count_pos reading _ _ _ Hi eq_refl) as Hp.
    assert (locked (cm s) = false) as Hl by (destruct (locked (cm s)); [specialize (i_excl0 eq_refl); lia|done]).
    eapply lock_step_inv; eauto; simpl; rewrite ?Hl; simpl; try done; lia.
Qed.

(** *** Runs *)

Lemma counters_start_inv m g ts :
  cm_ok m g → readers m = 0%nat → locked m = false → Forall (λ t, starts t = true) ts → inv m g ts (start m g ts).
Proof using Type.
  intros Hok Hr Hl Hs.
  assert (∀ P : thread → bool, (∀ t, starts t = true → P t = false) → count P ts = 0%nat) as Hz.
  { intros P HP. unfold count. induction Hs as [|t ts Ht _ IH]; [done|]. simpl. by rewrite (HP t Ht). }
  assert (∀ i t, ts !! i = Some t → starts t = true) as Hst.
  { intros i t Hi. by eapply Forall_lookup_1 in Hs. }
  split; cbn [start cm reg threads made added]; rewrite ?Hr, ?Hl; try done.
  - symmetry. apply Hz. by intros [].
  - symmetry. apply Hz. by intros [].
  - intros i k v c Hi. by apply Hst in Hi.
  - intros i k v c Hi. by apply Hst in Hi.
  - constructor.
  - intros k Hk. by apply not_elem_of_nil in Hk.
  - intros i k v Hi. by apply Hst in Hi.
  - clear -Hs. induction Hs as [|t ts Ht _ IH]; [done|]. simpl. destruct t; try done.
Qed.

Definition steps_of (t : thread) : nat :=
  match t with
  | TAdd _ _ => 6 | TReading _ _ => 5 | TMissing _ _ => 4 | TLocked _ _ => 3 | TStoring _ _ _ => 2
  | THave _ _ _ => 1 | TDone _ _ => 0 | TStats => 2 | TListing => 1 | TListed _ => 0
  end.
(** The steps the goroutines have left, at most. *)
Definition steps_left (ts : list thread) : nat := sum_list_with steps_of ts.

Lemma steps_insert ts i t t' :
  ts !! i = Some t → (steps_left (<[i:=t']> ts) + steps_of t = steps_left ts + steps_of t')%nat.
Proof using Type.
  revert i. induction ts as [|x ts IH]; intros [|i] H; simplify_eq/=; [lia|]. specialize (IH i H). lia.
Qed.

Lemma step_decreases i s s' : step i s = Ok (Some s') → (steps_left (threads s') < steps_left (threads s))%nat.
Proof using Type.
  unfold step. destruct (threads s !! i) as [[k v|k v|k v|k v|k v c|k v c|k v| | |fs]|] eqn:Hi; try done.
  all: try (destruct (counters (cm s) !! k)); try (destruct (locked (cm s))); try (destruct (bool_decide _)); simpl; try done.
  all: try (intros ([c g] & _ & [= <-])%res_bind_Ok). all: try (intros [= <-]); simpl.
  all: match goal with |- context [<[_:=?t]> _] => pose proof (steps_insert _ _ _ t Hi) as Hs; simpl in Hs; lia end.
Qed.

Lemma exec_inv m0 g0 ts0 sched s s' :
  inv m0 g0 ts0 s → exec sched s = Ok (Some s') →
  inv m0 g0 ts0 s' ∧ (length sched + steps_left (threads s') ≤ steps_left (threads s))%nat.
Proof using Type.
  revert s. induction sched as [|i r IH]; intros s Hi He; simpl in He; [injection He as <-; split; [done|simpl; lia]|].
  apply res_bind_Ok in He as ([s1|] & H1 & He); [|done].
  destruct (IH s1 (counters_step_inv _ _ _ _ _ _ Hi H1) He) as [H2 H3]. split; [done|].
  pose proof (step_decreases _ _ _ H1). simpl. lia.
Qed.

(** Nobody waits for ever: while calls are running one of them can go on. *)
Lemma halted_returned m0 g0 ts0 s :
  inv m0 g0 ts0 s → (∀ i, step i s = Ok None) → Forall (λ t, returned t = true) (threads s).
Proof using Type.
  intros Hinv Hh. apply Forall_lookup_2. intros i t Hi.
  assert (∀ j t', threads s !! j = Some t' → reading t' = true ∨ writing t' = true → False) as Hn.
  { intros j t' Hj Ht. specialize (Hh j). unfold step in Hh. rewrite Hj in Hh.
    destruct t'; simpl in Ht; try (by destruct Ht). destruct (counters (cm s) !! key); [done|].
    by destruct (NewCounter _ _ _) as [[c g]| | |]. }
  assert (∀ P : thread → bool, (∀ t, P t = true → reading t = true ∨ writing t = true) → count P (threads s) = 0%nat) as Hz.
  { intros P HP. unfold count. destruct (List.filter P (threads s)) as [|x l] eqn:E; [done|]. exfalso.
    assert (In x (List.filter P (threads s))) as [Hin Hx]%filter_In by (rewrite E; by left).
    apply list_elem_of_In, list_elem_of_lookup in Hin as [j Hj]. eapply Hn; [exact Hj|auto]. }
  destruct Hinv as [Ir Iw _ _ _ _ _ _ _ _ _ _ _ _ _].
  rewrite (Hz reading) in Ir by auto. rewrite (Hz writing) in Iw by auto.
  specialize (Hh i). unfold step in Hh. rewrite Hi in Hh.
  destruct (locked (cm s)); simpl in Iw; [done|]. destruct t; try done; try (by destruct (Hn _ _ Hi); auto); simpl in Hh; rewrite ?Ir in Hh; done.
Qed.

Lemma step_no_panic m0 g0 ts0 s i :
  inv m0 g0 ts0 s → (∀ k v, (k, v) ∈ omap call ts0 → valid_name (name_of m0 k) = true) → ∃ o, step i s = Ok o.
Proof using Type.
  intros [] Hv. unfold step. destruct (threads s !! i) as [[k v|k v|k v|k v|k v c|k v c|k v| | |fs]|] eqn:Hi; eauto.
  destruct (counters (cm s) !! k); [eauto|]. destruct (same_base_names _ _ k i_base0) as (En & _). rewrite En.
  unfold NewCounter. rewrite (Hv k v); [by eexists|]. rewrite <- i_calls0. apply list_elem_of_omap.
  exists (TLocked k v). split; [|done]. by eapply list_elem_of_lookup_2.
Qed.

Lemma returned_all (s : sys) :
  Forall (λ t, returned t = true) (threads s) → omap finished (threads s) = omap call (threads s).
Proof using Type. induction 1 as [|t l Ht _ IH]; [done|]. simpl. by destruct t; simplify_eq/=; rewrite ?IH. Qed.

(** C29: no increment of a labelled counter is lost.  In every interleaving of
    goroutines that add to the counters of a map and of goroutines that list
    them: the map is never written while it is read or written by another; a
    counter's value is what it was, with the values of the finished calls for
    its key added one after the other; for each key the counter is created at
    most once; no step panics while the library accepts the names; the calls
    need at most six steps each, and when nobody can go on all have
    returned, every value was added exactly once, and every key has its
    counter. *)
Theorem counters_exact m g ts sched s :
  cm_ok m g → readers m = 0%nat → locked m = false → Forall (λ t, starts t = true) ts →
  (∀ k v, (k, v) ∈ omap call ts → valid_name (name_of m k) = true) →
  exec sched (start m g ts) = Ok (Some s) →
  (count writing (threads s) ≤ 1 ∧ (count writing (threads s) = 1 → count reading (threads s) = 0))%nat ∧
  (∀ k, Value (counter_of m k) (reg s) = foldl fadd (Value (counter_of m k) g) (values_of k (added s))) ∧
  omap finished (threads s) ≡ₚ added s ∧ NoDup (made s) ∧
  (∀ i, ∃ o, step i s = Ok o) ∧ (length sched ≤ 6 * length ts)%nat ∧
  ((∀ i, step i s = Ok None) →
   Forall (λ t, returned t = true) (threads s) ∧ added s ≡ₚ omap call ts ∧
   ∀ k v, (k, v) ∈ omap call ts → counters (cm s) !! k = Some (counter_of m k)).
Proof using Type.
  intros Hok Hr Hl Hs Hv He. destruct (exec_inv m g ts _ _ _ (counters_start_inv m g ts Hok Hr Hl Hs) He) as [Hi Hlen].
  pose proof Hi as []. split_and!; try done.
  - rewrite <- i_writer0. destruct (locked (cm s)); simpl; lia.
  - rewrite <- i_writer0, <- i_readers0. destruct (locked (cm s)); simpl; [auto|done].
  - intros i. by eapply step_no_panic.
  - assert (steps_left ts ≤ 6 * length ts)%nat; [|simpl in Hlen; lia].
    clear. induction ts as [|t ts IH]; [done|]. simpl. destruct t; simpl; lia.
  - intros Hh. pose proof (halted_returned _ _ _ _ Hi Hh) as Hret. pose proof (returned_all s Hret) as Hf.
    split_and!; [done|by rewrite <- i_added0, Hf, i_calls0|].
    intros k v Hk. rewrite <- i_calls0, <- Hf in Hk. apply list_elem_of_omap in Hk as (t & Ht & Hft).
    apply list_elem_of_lookup in Ht as [i Ht]. destruct t; try done. injection Hft as -> ->.
    destruct (i_done0 _ _ _ Ht) as [c Hc]. destruct (i_counters0 _ _ Hc) as [-> _].
    destruct (same_base_names _ _ k i_base0) as (_ & _ & <-). done.
Qed.

(** A new map has the counters of its first labels. *)
Lemma Add_ok k v m g m' g' : cm_ok m g → Add k v m g = Ok (m', g') → cm_ok m' g' ∧ same_base m m' ∧
  readers m' = readers m ∧ locked m' = locked m ∧ dom (counters m') = {[k]} ∪ dom (counters m).
Proof using Type.
  intros Hok. unfold Add. destruct (counters m !! k) as [c|] eqn:Hk.
  - intros [= <- <-]. split_and!; try done; [|apply elem_of_dom_2 in Hk; set_solver].
    eapply cm_ok_grow; [done|]. intros n Hn. unfold add_value.
    destruct (decide (n = c_name c)) as [->|]; [by rewrite lookup_insert_eq|by rewrite lookup_insert_ne].
  - intros ([c g1] & (-> & H1 & H2 & H3 & _)%NewCounter_inv & [= <- <-])%res_bind_Ok.
    split_and!; try done; [|simpl; set_solver].
    intros k' c' Hk'. cbn [store counters] in Hk'.
    assert (∀ n, is_Some (g !! n) → is_Some (add_value (mkCounter (name_of m k) (help_of m k)) v g1 !! n)) as Hg.
    { intros n Hn. unfold add_value. simpl.
      destruct (decide (n = name_of m k)) as [->|]; [by rewrite lookup_insert_eq|rewrite lookup_insert_ne; auto]. }
    apply lookup_insert_Some in Hk' as [[<- <-]|[_ Hk']].
    + split; [done|]. unfold add_value. by rewrite lookup_insert_eq.
    + destruct (Hok _ _ Hk') as [-> ?]. split; [done|auto].
Qed.

Lemma NewCounterMap_ok base help lab labels g m g' :
  NewCounterMap base help lab labels g = Ok (m, g') →
  cm_ok m g' ∧ readers m = 0%nat ∧ locked m = false ∧ nameBase m = base ∧ labelName m = lab ∧
  dom (counters m) = list_to_set labels.
Proof using Type.
  unfold NewCounterMap. set (m0 := mkCM _ _ _ _ _ _).
  assert (cm_ok m0 g) as H0 by (intros k c Hk; simpl in Hk; by rewrite lookup_empty in Hk).
  assert (dom (counters m0) ∪ list_to_set labels = list_to_set labels) as Hd by (simpl; set_solver).
  assert (readers m0 = 0%nat ∧ locked m0 = false ∧ nameBase m0 = base ∧ labelName m0 = lab) as Hb by done.
  rewrite <- Hd. clear Hd. clearbody m0. revert m0 g H0 Hb. induction labels as [|l r IH]; intros m0 g H0 (E1 & E2 & E3 & E4); simpl.
  - intros [= <- <-]. split_and!; try done. set_solver.
  - intros ([m1 g1] & H1 & Hr)%res_bind_Ok. destruct (Add_ok _ _ _ _ _ _ H0 H1) as (A1 & (B1 & B2 & B3) & A2 & A3 & A4).
    destruct (IH m1 g1 A1) as (R1 & R2 & R3 & R4 & R5 & R6); [split_and!; congruence|done|].
    split_and!; try done. rewrite R6, A4. set_solver.
Qed.
End counters.
Arguments thread : clear implicits.
Arguments sys : clear implicits.
End Counters.

(** ** Labels *)

Module Labels.

(** The label of a command on a table: the quotes of the label's value are
    closed and opened again between the two. *)
Definition command_label (command table : string) : string :=
  command +:+ dquote +:+ ",table=" +:+ dquote +:+ table.
Definition failure_label (errType command table : string) : string :=
  errType +:+ dquote +:+ ",command=" +:+ dquote +:+ command +:+ dquote +:+ ",table=" +:+ dquote +:+ table.

(** [commandLabel]: [seen] is the cache at the first lookup, under the read
    lock, and [cache] at the second, under the lock. *)
Definition commandLabel (command table : string) (seen cache : gmap (string * string) string)
    : string * gmap (string * string) string :=
  match seen !! (command, table) with
  | Some label => (label, cache)
  | None =>
      let label := command_label command table in
      match cache !! (command, table) with
      | Some existing => (existing, cache)
      | None => (label, <[(command, table) := label]> cache)
      end
  end.

Definition cache_ok (cache : gmap (string * string) string) : Prop :=
  ∀ c t l, cache !! (c, t) = Some l → l = command_label c t.

(** The cache never changes a label, whatever was cached in between. *)
Lemma commandLabel_ok c t seen cache :
  cache_ok seen → cache_ok cache →
  (commandLabel c t seen cache).1 = command_label c t ∧ cache_ok (commandLabel c t seen cache).2.
Proof.
  intros Hs Hc. unfold commandLabel. destruct (seen !! (c, t)) as [l|] eqn:E; [by rewrite (Hs _ _ _ E)|].
  destruct (cache !! (c, t)) as [l|] eqn:E2; [by rewrite (Hc _ _ _ E2)|]. split; [done|].
  intros c' t' l' H. simpl in H. apply lookup_insert_Some in H as [[[= <- <-] <-]|[_ H]]; [done|]. by apply Hc.
Qed.

(** Commands without quotes do not share a counter. *)
Lemma command_label_inj c t c' t' :
  has_byte (Ascii.ascii_of_nat 34) c = false → has_byte (Ascii.ascii_of_nat 34) c' = false →
  command_label c t = command_label c' t' → c = c' ∧ t = t'.
Proof.
  intros Hc Hc' H.
  assert (∀ x y, has_byte (Ascii.ascii_of_nat 34) x = false →
    split_byte (Ascii.ascii_of_nat 34) (command_label x y) = x :: ",table=" :: split_byte (Ascii.ascii_of_nat 34) y) as Hs.
  { intros x y Hx. change (command_label x y) with (x +:+ String (Ascii.ascii_of_nat 34) (",table=" +:+ String (Ascii.ascii_of_nat 34) y)).
    rewrite split_byte_app by done. by f_equal. }
  pose proof (f_equal (split_byte (Ascii.ascii_of_nat 34)) H) as He. rewrite !Hs in He by done.
  injection He as -> _. split; [done|]. unfold command_label in H. by do 4 apply Counters.string_app_inj_l in H.
Qed.
End Labels.

(** ** The metrics of the parts *)

Module Names.

(** A metric as it is registered: a counter, a gauge, a histogram, or the base
    name of labelled counters with the first labels. *)
Inductive metric :=
| MCounter (name : string)
| MGauge (name : string)
| MHistogram (name : string)
| MCounterMap (base labelName : string) (labels : list string).
Definition metric_name (x : metric) : string :=
  match x with MCounter n | MGauge n | MHistogram n => n | MCounterMap n _ _ => n end.

(** [NewStats] of the buffered listener. *)
Definition listener_metrics (prefix : string) (tables : list string) : list metric :=
  let low := ToLower prefix +:+ "_" in
  [MCounter (low +:+ "tx_total"); MCounter (low +:+ "tx_streamed_total");
   MGauge (low +:+ "tx_last_processed"); MGauge (low +:+ "lsn_last_processed");
   MCounterMap (low +:+ "inserts_total") "table" tables; MCounterMap (low +:+ "updates_total") "table" tables;
   MCounterMap (low +:+ "deletes_total") "table" tables; MCounterMap (low +:+ "snapshot_read_total") "table" tables;
   MGauge (low +:+ "downstream_write_queue_length"); MGauge (low +:+ "downstream_retry_queue_length");
   MGauge (low +:+ "downstream_tx_last_sent"); MGauge (low +:+ "downstream_lsn_last_sent")].

(** [NewRedisStats] *)
Definition redis_prefix (prefix : string) : string :=
  let prefix := ToLower prefix in
  (if negb (bool_decide (prefix = EmptyString)) && negb (HasSuffix prefix "_")
   then prefix +:+ "_" else prefix) +:+ "redis_".
Definition redis_metrics (prefix : string) (tableNames : list string) : list metric :=
  let p := redis_prefix prefix in
  [MCounterMap (p +:+ "commands_total") "command" []; MCounterMap (p +:+ "failures_total") "error_type" [];
   MCounterMap (p +:+ "batches_total") "table" tableNames;
   MCounter (p +:+ "batches_flush_size_total"); MCounter (p +:+ "batches_flush_timer_total");
   MGauge (p +:+ "batches_inflight"); MGauge (p +:+ "batch_size"); MHistogram (p +:+ "batch_duration_seconds");
   MGauge (p +:+ "tx_last_sent"); MGauge (p +:+ "tx_last_ok"); MGauge (p +:+ "lsn_last_reported");
   MGauge (p +:+ "lsn_last_flushed"); MGauge (p +:+ "lag_seconds")].

(** [NewSQSStats] *)
Definition sqs_metrics (prefix : string) (queueNames : list string) : list metric :=
  let p := ToLower prefix +:+ "_" in
  [MCounterMap (p +:+ "sqs_request_total") "queue" queueNames; MCounterMap (p +:+ "sqs_failure_total") "queue" queueNames;
   MGauge (p +:+ "sqs_request_inflight_total"); MGauge (p +:+ "sqs_tx_last_sent"); MGauge (p +:+ "sqs_tx_last_ok")].

(** [NewStats] of the replicator. *)
Definition replicator_metrics (prefix : string) : list metric :=
  let low := ToLower prefix +:+ "_" in
  [MGauge (low +:+ "tx_last_reported"); MGauge (low +:+ "lsn_last_reported"); MGauge (low +:+ "tx_last_committed")].

(** *** Listing *)

(** A logged field: an unsigned number, a float, or a text. *)
Inductive field (F : Type) := FUint (z : Z) | FFloat (f : F) | FText (s : string).
Arguments FUint {_} _.
Arguments FFloat {_} _.
Arguments FText {_} _.

Section fields.
(** Conversions of a float to [uint64] and [uint32], and [LSN.String]. *)
Context {F : Type} (fzero : F) (to_uint to_uint32 : F → Z) (lsn_string : Z → string).
Context (enum : gmap string Counters.Counter → list (string * Counters.Counter)).
Notation registry := (gmap string F).

Definition metric_value (name : string) (reg : registry) : F := default fzero (reg !! name).
Definition uint_field (name : string) (reg : registry) : string * field F := (name, FUint (to_uint (metric_value name reg))).
Definition counter_fields (m : Counters.CounterMap) (reg : registry) : list (string * field F) :=
  (λ p, (p.1, FFloat p.2)) <$> Counters.GetStatsAsFields fzero enum m reg.

(** [GetStatsAsFields] of the buffered listener; the rows read by a snapshot and
    the last position sent are not listed. *)
Definition listener_fields (prefix : string) (insertCount updateCount deleteCount : Counters.CounterMap) (reg : registry)
    : list (string * field F) :=
  let low := ToLower prefix +:+ "_" in
  let lsn := low +:+ "lsn_last_processed" in
  [uint_field (low +:+ "tx_total") reg; uint_field (low +:+ "tx_streamed_total") reg;
   uint_field (low +:+ "tx_last_processed") reg; (lsn, FText (lsn_string (to_uint (metric_value lsn reg))));
   uint_field (low +:+ "downstream_write_queue_length") reg; uint_field (low +:+ "downstream_retry_queue_length") reg;
   uint_field (low +:+ "downstream_tx_last_sent") reg] ++
  counter_fields insertCount reg ++ counter_fields updateCount reg ++ counter_fields deleteCount reg.

Definition redis_fields (prefix : string) (commandsTotal failuresTotal batchesTotal : Counters.CounterMap) (reg : registry)
    : list (string * field F) :=
  let p := redis_prefix prefix in
  counter_fields commandsTotal reg ++ counter_fields failuresTotal reg ++ counter_fields batchesTotal reg ++
  [uint_field (p +:+ "batches_flush_size_total") reg; uint_field (p +:+ "batches_flush_timer_total") reg;
   uint_field (p +:+ "batches_inflight") reg; uint_field (p +:+ "batch_size") reg;
   uint_field (p +:+ "tx_last_sent") reg; uint_field (p +:+ "tx_last_ok") reg;
   uint_field (p +:+ "lsn_last_reported") reg; uint_field (p +:+ "lsn_last_flushed") reg;
   (p +:+ "lag_seconds", FFloat (metric_value (p +:+ "lag_seconds") reg))].

Definition sqs_fields (prefix : string) (requestsTotal failuresTotal : Counters.CounterMap) (reg : registry)
    : list (string * field F) :=
  let p := ToLower prefix +:+ "_" in
  counter_fields requestsTotal reg ++ counter_fields failuresTotal reg ++
  [uint_field (p +:+ "sqs_request_inflight_total") reg; uint_field (p +:+ "sqs_tx_last_sent") reg;
   uint_field (p +:+ "sqs_tx_last_ok") reg].

Definition Version : string := "0.9.2-debug".
Definition replicator_fields (prefix : string) (collector : option (list (string * field F))) (reg : registry)
    : list (string * field F) :=
  let low := ToLower prefix +:+ "_" in
  let lsn := low +:+ "lsn_last_reported" in
  [("version", FText Version); (low +:+ "tx_last_committed", FUint (to_uint32 (metric_value (low +:+ "tx_last_committed") reg)));
   (low +:+ "tx_last_reported", FUint (to_uint32 (metric_value (low +:+ "tx_last_reported") reg)));
   (lsn, FText (lsn_string (to_uint (metric_value lsn reg))))] ++ default [] collector.

(** [noLogger] *)
Definition nop_fields : list (string * field F) := [].
End fields.

(** The metrics that a program registers do not share a name, so that none is
    asked for as another kind, which the library refuses. *)
Definition redis_program (prefix : string) (tables redisTables : list string) : list metric :=
  listener_metrics prefix tables ++ redis_metrics prefix redisTables ++ replicator_metrics prefix.
Definition sqs_program (prefix : string) (tables queues : list string) : list metric :=
  listener_metrics prefix tables ++ sqs_metrics prefix queues ++ replicator_metrics prefix.

Lemma NoDup_prefix p (l : list string) : NoDup l → NoDup ((λ s, p +:+ s) <$> l).
Proof. intros H. apply NoDup_fmap_2; [|done]. intros a b E. by eapply Counters.string_app_inj_l. Qed.

Lemma program_names_distinct prefix ts rs qs :
  ToLower prefix ≠ EmptyString → HasSuffix (ToLower prefix) "_" = false →
  NoDup (metric_name <$> redis_program prefix ts rs) ∧ NoDup (metric_name <$> sqs_program prefix ts qs).
Proof.
  intros Hne Hs.
  assert (redis_prefix prefix = (ToLower prefix +:+ "_") +:+ "redis_") as Er.
  { unfold redis_prefix. rewrite bool_decide_false, Hs by done. done. }
  unfold redis_program, sqs_program, redis_metrics. rewrite Er. unfold listener_metrics, replicator_metrics, sqs_metrics.
  cbv zeta. set (p := ToLower prefix +:+ "_"). rewrite <- !(assoc_L (String.append) p).
  split.
  - change (NoDup ((λ s, p +:+ s) <$>
      ["tx_total"; "tx_streamed_total"; "tx_last_processed"; "lsn_last_processed"; "inserts_total"; "updates_total";
       "deletes_total"; "snapshot_read_total"; "downstream_write_queue_length"; "downstream_retry_queue_length";
       "downstream_tx_last_sent"; "downstream_lsn_last_sent"; "redis_commands_total"; "redis_failures_total";
       "redis_batches_total"; "redis_batches_flush_size_total"; "redis_batches_flush_timer_total"; "redis_batches_inflight";
       "redis_batch_size"; "redis_batch_duration_seconds"; "redis_tx_last_sent"; "redis_tx_last_ok"; "redis_lsn_last_reported";
       "redis_lsn_last_flushed"; "redis_lag_seconds"; "tx_last_reported"; "lsn_last_reported"; "tx_last_committed"])).
    apply NoDup_prefix. apply (bool_decide_unpack _). vm_compute. exact I.
  - change (NoDup ((λ s, p +:+ s) <$>
      ["tx_total"; "tx_streamed_total"; "tx_last_processed"; "lsn_last_processed"; "inserts_total"; "updates_total";
       "deletes_total"; "snapshot_read_total"; "downstream_write_queue_length"; "downstream_retry_queue_length";
       "downstream_tx_last_sent"; "downstream_lsn_last_sent"; "sqs_request_total"; "sqs_failure_total";
       "sqs_request_inflight_total"; "sqs_tx_last_sent"; "sqs_tx_last_ok"; "tx_last_reported"; "lsn_last_reported"; "tx_last_committed"])).
    apply NoDup_prefix. apply (bool_decide_unpack _). vm_compute. exact I.
Qed.
End Names.

(** ** Concrete counters *)

Module Samples.
Import Counters.

Definition any_name (_ : string) : bool := true.
Definition by_key (m : gmap string Counter) : list (string * Counter) := map_to_list m.
Notation exec_z := (exec Z.add 0 any_name by_key).
Definition fresh : CounterMap := mkCM "tx" "table" "rows" 0 false ∅.

(** Two goroutines miss the same key; the second finds the counter that the
    first has made. *)
Definition both_miss : list nat := [0; 1; 0; 1; 0; 0; 0; 1; 1; 1; 0]%nat.
Definition calls : list (thread Z) := [TAdd "a" 1; TAdd "a" 2].
Definition both_done : sys Z :=
  mkSys (mkCM "tx" "table" "rows" 0 false {["a" := counter_of fresh "a"]}) {[name_of fresh "a" := 3]}
        [TDone "a" 1; TDone "a" 2] ["a"] [("a", 2); ("a", 1)].
Example both_miss_run : exec_z both_miss (start fresh ∅ calls) = Ok (Some both_done).
Proof. vm_compute. reflexivity. Qed.

Lemma counters_exact_witness :
  exec_z both_miss (start fresh ∅ calls) = Ok (Some both_done) ∧
  Value 0 (counter_of fresh "a") (reg both_done) = foldl Z.add (Value 0 (counter_of fresh "a") ∅) [2; 1] ∧
  added both_done ≡ₚ omap call calls.
Proof.
  assert (exec_z both_miss (start fresh ∅ calls) = Ok (Some both_done)) as H by (vm_compute; reflexivity).
  destruct (counters_exact Z.add 0 any_name by_key fresh ∅ calls both_miss both_done) as (_ & Hv & _ & _ & _ & _ & Hh).
  - intros k c Hk. change ((∅ : gmap string Counter) !! k = Some c) in Hk. rewrite lookup_empty in Hk. discriminate Hk.
  - reflexivity.
  - reflexivity.
  - repeat constructor.
  - reflexivity.
  - exact H.
  - split_and!; [exact H|exact (Hv "a")|]. apply Hh. intros [|[|i]]; reflexivity.
Defined.

(** The label of a command with quotes is another command's label on another
    table. *)
Example quoted_labels_collide :
  Labels.command_label ("a" +:+ dquote +:+ ",table=" +:+ dquote +:+ "b") "c" =
  Labels.command_label "a" ("b" +:+ dquote +:+ ",table=" +:+ dquote +:+ "c").
Proof. vm_compute. reflexivity. Qed.
End Samples.
