(* ===== verification/RedisWriter.v ===== *)
(** * The Redis writer

    - [Condition]: src/pg2redis/condition/evaluator.go, the conditions under
      which a group of commands runs;
    - [Dynamic]: the commands of one row ([redisDynamicWriter] of
      src/pg2redis/redis_writer.go);
    - [Batch]: a batch of rows as one pipeline and its answers
      ([redisBatchBuffer]);
    - [Worker]: the worker that collects rows into batches and the workers of
      src/parallelio/parallel_io.go that flush them.

    The Redis client is not part of the program: a pipeline is the list of the
    commands queued on it, and whether its execution fails is an argument. *)

From stdpp Require Import base numbers list gmap strings pretty sorting.
From S2P Require Import Prelude GoStrings ParallelIO OrderedMap PgSchema Decode PgWal BufferedListener RedisCommand.

Notation entry_t := (WriteEntry Tup).

(** ** Conditions *)

Module Condition.

Inductive ConditionOperator :=
| OpEqual | OpNotEqual | OpLess | OpGreater | OpLessEq | OpGreaterEq
| OpIn | OpNotIn | OpIsNull | OpIsNotNull | OpIsDistinctFrom
| OpOther (s : string).

Record ConditionConfig := mkCC {
  Op : ConditionOperator; cc_Column : string; cc_Value : string; cc_Values : list string }.

Section condition.
(** The printing of floats and of other values, the conversion [float64(z)] of
    an integer, [strconv.ParseFloat] and the order of float64. *)
Context (fmt_float : bool → gofloat → string) (sprint : goval → string).
Context (of_int : Z → gofloat) (parse_float : string → option gofloat) (fltb fleb : gofloat → gofloat → bool).

Definition stringifyForCondition (v : goval) : string :=
  match v with
  | VBool b => if b then "true" else "false"
  | VString s => s
  | VInt _ z => pretty z
  | VFloat32 f | SmartFloat32 f => fmt_float true f
  | VFloat64 f | SmartFloat64 f => fmt_float false f
  | v => sprint v
  end.

Definition convertToFloat64 (v : goval) : option gofloat :=
  match v with
  | VInt _ z => Some (of_int z)
  | VFloat32 f | VFloat64 f | SmartFloat32 f | SmartFloat64 f => Some f
  | VString s => parse_float s
  | _ => None
  end.

Definition is_nil (v : goval) : bool := match v with VNil => true | _ => false end.

Definition isEqual (a b : goval) : bool :=
  if is_nil a || is_nil b then is_nil a && is_nil b
  else bool_decide (stringifyForCondition a = stringifyForCondition b).

Definition isDistinctFrom (a b : goval) : bool :=
  if is_nil a && is_nil b then false
  else if is_nil a || is_nil b then true
  else negb (isEqual a b).

(** The order of Go strings, byte by byte. *)
Fixpoint string_ltb (s t : string) : bool :=
  match s, t with
  | _, EmptyString => false
  | EmptyString, String _ _ => true
  | String a s, String b t =>
      bool_decide (Ascii.nat_of_ascii a < Ascii.nat_of_ascii b)%nat ||
      (bool_decide (a = b) && string_ltb s t)
  end.

Definition compare (a b : goval) (op : ConditionOperator) : res bool :=
  match op with
  | OpEqual => Ok (isEqual a b)
  | OpNotEqual => Ok (negb (isEqual a b))
  | _ =>
      let as_ := stringifyForCondition a in
      let bs := stringifyForCondition b in
      match op, convertToFloat64 a, convertToFloat64 b with
      | OpLess, Some af, Some bf => Ok (fltb af bf)
      | OpGreater, Some af, Some bf => Ok (fltb bf af)
      | OpLessEq, Some af, Some bf => Ok (fleb af bf)
      | OpGreaterEq, Some af, Some bf => Ok (fleb bf af)
      | OpLess, _, _ => Ok (string_ltb as_ bs)
      | OpGreater, _, _ => Ok (string_ltb bs as_)
      | OpLessEq, _, _ => Ok (negb (string_ltb bs as_))
      | OpGreaterEq, _, _ => Ok (negb (string_ltb as_ bs))
      | _, _, _ => Err (GoErr "unsupported operator for comparison")
      end
  end.

Definition get_from (t : option Tup) (col : string) : res goval :=
  match t with None => Panic "nil dereference" | Some t => r ← OMap.Get VNil col t; Ok r.1 end.
Definition get_old (t : option Tup) (col : string) : res goval :=
  match t with None => Ok VNil | Some t => r ← OMap.Get VNil col t; Ok r.1 end.

(** [{old:column}] and [{column}]: the column's name. *)
Definition old_name (s : string) : option string := r ← cut_prefix "{old:" s; cut_suffix r "}".
Definition braced_name (s : string) : option string := r ← cut_prefix "{" s; cut_suffix r "}".

(** A missing column is nil. *)
Definition resolveValue (colName : string) (entry : entry_t) : res goval :=
  match old_name colName with
  | Some inner => get_old (PrevTuple entry) inner
  | None =>
      match braced_name colName with
      | Some inner => get_from (Tuple entry) inner
      | None => get_from (Tuple entry) colName
      end
  end.
Definition resolveValueMacro (macro : string) (entry : entry_t) : res goval :=
  match old_name macro with
  | Some inner => get_old (PrevTuple entry) inner
  | None =>
      match braced_name macro with
      | Some inner => get_from (Tuple entry) inner
      | None => Ok (VString macro)
      end
  end.

(** Whether one of the values is equal, in order. *)
Fixpoint any_equal (val : goval) (macros : list string) (entry : entry_t) : res bool :=
  match macros with
  | [] => Ok false
  | m :: r => otherVal ← resolveValueMacro m entry;
              if isEqual val otherVal then Ok true else any_equal val r entry
  end.

Definition Evaluate (cond : option ConditionConfig) (entry : entry_t) : res bool :=
  match cond with
  | None => Ok true
  | Some cond =>
      val ← resolveValue (cc_Column cond) entry;
      match Op cond with
      | OpIsNull => Ok (is_nil val)
      | OpIsNotNull => Ok (negb (is_nil val))
      | OpIsDistinctFrom => otherVal ← resolveValueMacro (cc_Value cond) entry; Ok (isDistinctFrom val otherVal)
      | op =>
          if is_nil val then Ok false
          else
            match op with
            | OpIn => any_equal val (cc_Values cond) entry
            | OpNotIn => b ← any_equal val (cc_Values cond) entry; Ok (negb b)
            | OpOther _ => Err (GoErr "unsupported operator")
            | op =>
                otherVal ← resolveValueMacro (cc_Value cond) entry;
                if is_nil otherVal then Ok false else compare val otherVal op
            end
      end
  end.

(** *** Three-valued logic *)

(** The condition's value in the logic of SQL: [None] is unknown. *)
Definition sql_equal (a b : goval) : option bool :=
  if is_nil a || is_nil b then None
  else Some (bool_decide (stringifyForCondition a = stringifyForCondition b)).
Definition sql_not (x : option bool) : option bool := negb <$> x.
(** The order: of numbers when both sides are numbers, else of strings. *)
Definition sql_less (a b : goval) : option bool :=
  if is_nil a || is_nil b then None
  else match convertToFloat64 a, convertToFloat64 b with
       | Some x, Some y => Some (fltb x y)
       | _, _ => Some (string_ltb (stringifyForCondition a) (stringifyForCondition b))
       end.
Definition sql_less_eq (a b : goval) : option bool :=
  if is_nil a || is_nil b then None
  else match convertToFloat64 a, convertToFloat64 b with
       | Some x, Some y => Some (fleb x y)
       | _, _ => Some (negb (string_ltb (stringifyForCondition b) (stringifyForCondition a)))
       end.
Definition sql_cond (op : ConditionOperator) (a b : goval) : option bool :=
  match op with
  | OpEqual => sql_equal a b
  | OpNotEqual => sql_not (sql_equal a b)
  | OpLess => sql_less a b
  | OpGreater => sql_less b a
  | OpLessEq => sql_less_eq a b
  | OpGreaterEq => sql_less_eq b a
  | OpIsNull => Some (is_nil a)
  | OpIsNotNull => Some (negb (is_nil a))
  | OpIsDistinctFrom => Some (negb (if is_nil a || is_nil b then is_nil a && is_nil b
                                    else bool_decide (stringifyForCondition a = stringifyForCondition b)))
  | _ => None
  end.

Definition holds_ (x : option bool) : bool := default false x.

Definition single (op : ConditionOperator) : bool :=
  match op with OpIn | OpNotIn | OpOther _ => false | _ => true end.

(** Conditions follow three-valued logic.  A group of commands runs exactly
    when its condition is true: a comparison with a null is unknown and does
    not match, not even [<>]; the null tests and [is_distinct_from] are
    two-valued; [in] matches when some listed value equals the column, and
    [not_in] when the column is not null and none does (a null in the list
    never equals).  Only an operator that does not exist is an error. *)
Lemma condition_sql op col v vs entry a b :
  resolveValue col entry = Ok a → resolveValueMacro v entry = Ok b →
  let cond op := Evaluate (Some (mkCC op col v vs)) entry in
  (single op = true → cond op = Ok (holds_ (sql_cond op a b))) ∧
  (∀ bs, OMap.mapR (λ m, resolveValueMacro m entry) vs = Ok bs →
     cond OpIn = Ok (existsb (λ x, holds_ (sql_equal a x)) bs) ∧
     cond OpNotIn = Ok (negb (is_nil a) && forallb (λ x, negb (holds_ (sql_equal a x))) bs)) ∧
  (∀ s, cond (OpOther s) = if is_nil a then Ok false else Err (GoErr "unsupported operator")).
Proof.
  intros Ha Hb. cbv zeta. unfold Evaluate. cbn [cc_Column cc_Value cc_Values Op]. rewrite Ha.
  res_step. split_and!.
  - intros Hs. unfold sql_cond, holds_, sql_not, sql_equal, sql_less, sql_less_eq.
    destruct op; try done; rewrite ?Hb; res_step; unfold compare, isDistinctFrom, isEqual;
      destruct (is_nil a), (is_nil b); try done; simpl;
      try (destruct (convertToFloat64 a), (convertToFloat64 b); done).
  - intros bs Hbs.
    assert (∀ c, is_nil c = false →
      any_equal c vs entry = Ok (existsb (λ x, holds_ (sql_equal c x)) bs)) as Hany.
    { intros c Hc. revert bs Hbs. induction vs as [|m vs IH]; intros bs; cbn [OMap.mapR any_equal].
      - by intros [= <-].
      - intros (x & -> & (xs & Hxs & [= <-])%res_bind_Ok)%res_bind_Ok. cbn [mbind res_bind existsb].
        rewrite (IH xs Hxs). unfold isEqual, holds_, sql_equal. rewrite Hc. simpl.
        destruct (is_nil x); [done|]. simpl. by case_bool_decide. }
    destruct (is_nil a) eqn:En.
    + split; [|done]. f_equal. symmetry. unfold holds_, sql_equal. rewrite En. simpl. clear. by induction bs; simpl.
    + rewrite (Hany a En). res_step. split; [done|]. simpl. f_equal.
      clear. induction bs as [|x bs IH]; [done|]. cbn [existsb forallb]. by rewrite negb_orb, IH.
  - intros s. by destruct (is_nil a).
Qed.
End condition.
End Condition.

(** ** The commands of a row *)

Module Dynamic.
Import Condition.

Record redisCompiledCommandGroup := mkGroup {
  grp_condition : option ConditionConfig; grp_commands : list redisCompiledCommandConfig }.

(** [redisconfig.RedisCommandWithCondition] *)
Record RedisCommandWithCondition := mkRCWC { Commands : list (list string); rcwc_Condition : option ConditionConfig }.

Definition defaultDeleteCommands (tableName : string) : list RedisCommandWithCondition :=
  [mkRCWC [["DEL"; tableName +:+ ":%pk%"]] None].

Fixpoint mustCompileCommandGroups (groups : list RedisCommandWithCondition) : list redisCompiledCommandGroup :=
  match groups with
  | [] => []
  | group :: r =>
      let compiled := omap compileCommandConfig (Commands group) in
      let rest := mustCompileCommandGroups r in
      if bool_decide (compiled = []) then rest else mkGroup (rcwc_Condition group) compiled :: rest
  end.

Inductive OperationType := OpInsert | OpUpdate | OpDelete.

Record redisDynamicWriter := mkDW {
  resolvedCommands : list redisCompiledCommandGroup;
  insertCommands : list redisCompiledCommandGroup;
  updateCommands : list redisCompiledCommandGroup;
  deleteCommands : list redisCompiledCommandGroup;
  dw_defaultDelete : list redisCompiledCommandGroup }.

(** The groups of a table's configuration. *)
Record RedisTableConfig := mkRTbl {
  rt_FullName : string;
  ResolvedCommands : list RedisCommandWithCondition; InsertCommands : list RedisCommandWithCondition;
  UpdateCommands : list RedisCommandWithCondition; DeleteCommands : list RedisCommandWithCondition }.

Definition createPipelineWriter (cfg : RedisTableConfig) : redisDynamicWriter :=
  mkDW (mustCompileCommandGroups (ResolvedCommands cfg)) (mustCompileCommandGroups (InsertCommands cfg))
       (mustCompileCommandGroups (UpdateCommands cfg)) (mustCompileCommandGroups (DeleteCommands cfg))
       (mustCompileCommandGroups (defaultDeleteCommands (rt_FullName cfg))).

Definition getCommands (opType : OperationType) (r : redisDynamicWriter) : list redisCompiledCommandGroup :=
  let ops := match opType with
             | OpInsert => insertCommands r
             | OpUpdate => updateCommands r
             | OpDelete => deleteCommands r
             end in
  match ops with
  | _ :: _ => ops
  | [] => match opType with OpDelete => dw_defaultDelete r | _ => resolvedCommands r end
  end.

Section write.
Context (fmt_float : bool → gofloat → string) (sprintv : goval → string).
Context (of_int : Z → gofloat) (numeric_float : Numeric → res gofloat) (fsub : gofloat → gofloat → gofloat).
Context (enc_key : string → res string) (enc_val : goval → res string).
Context (txOpts : TxCommitTimeOptions).
Context (parse_float : string → option gofloat) (fltb fleb : gofloat → gofloat → bool).
Notation buildCommand := (buildCommand fmt_float sprintv of_int numeric_float fsub enc_key enc_val txOpts).
Notation Evaluate := (Evaluate fmt_float sprintv of_int parse_float fltb fleb).

(** The inner loop of [write]: the commands of one group. *)
Fixpoint build_group (cmds : list redisCompiledCommandConfig) (e : entry_t) (ct : gotime) (xid : Z)
    : res (list redisCommand * entry_t) :=
  match cmds with
  | [] => Ok ([], e)
  | cmd :: r =>
      match buildCommand cmd e ct xid with
      | Err err => Err (GoWrap ("failed to build Redis command " +:+ rcc_name cmd +:+ " for table " +:+
                                FullName (we_Table e)) err)
      | b =>
          '(c, e) ← b;
          '(cs, e) ← build_group r e ct xid;
          Ok (match c with Some c => c :: cs | None => cs end, e)
      end
  end.

(** The outer loop: a condition that fails to evaluate skips its group. *)
Fixpoint build_groups (groups : list redisCompiledCommandGroup) (e : entry_t) (ct : gotime) (xid : Z)
    : res (list redisCommand * entry_t) :=
  match groups with
  | [] => Ok ([], e)
  | g :: r =>
      match grp_condition g, Evaluate (grp_condition g) e with
      | Some _, Err _ | Some _, Ok false => build_groups r e ct xid
      | Some _, Panic s => Panic s
      | Some _, Fatal s => Fatal s
      | _, _ =>
          '(cs, e) ← build_group (grp_commands g) e ct xid;
          '(ds, e) ← build_groups r e ct xid;
          Ok (cs ++ ds, e)
      end
  end.

Definition op_of (k : OpKind) : OperationType :=
  match k with Insert | SnapshotRead => OpInsert | Update => OpUpdate | Delete => OpDelete end.

(** The commands queued on the pipeline, each with its arguments. *)
Definition enqueueTransaction (cmds : list redisCommand) : list (list arg) :=
  [[AStr "MULTI"]] ++ (rc_args <$> cmds) ++ [[AStr "EXEC"]].

Definition write (r : redisDynamicWriter) (e : entry_t) (ct : gotime) (xid : Z)
    : res (list (list arg) * entry_t) :=
  let commands := getCommands (op_of (Kind e)) r in
  match commands with
  | [] => Fatal "no commands configured"
  | _ =>
      '(cmds, e) ← build_groups commands e ct xid;
      Ok (if bool_decide (1 < length cmds)%nat then enqueueTransaction cmds else rc_args <$> cmds, e)
  end.
End write.
End Dynamic.

(** ** Batches *)

Module Batch.
Import Condition Dynamic.

(** [redisBatchEntry] with its [ParallelIOBatchEntry]. *)
Record redisBatchEntry := mkBE {
  b_LSN : Z; b_XID : Z; b_Table : TableName; b_PK : string; b_Offset : Z;
  walEntry : entry_t; b_commitTime : gotime }.

(** An error of the client: a reply of the server, or anything else. *)
Inductive redis_error := ServerError (msg : string) | OtherError (e : goerr).

Definition isNonRetryableRedisError (err : redis_error) : bool :=
  match err with
  | OtherError _ => false
  | ServerError msg =>
      let msg := ToUpper msg in
      HasPrefix msg "WRONGTYPE" || HasPrefix msg "ERR UNKNOWN COMMAND" || HasPrefix msg "ERR SYNTAX ERROR"
  end.

Definition redisFlushError (err : redis_error) : WriterError :=
  let retryable := negb (isNonRetryableRedisError err) in
  mkWErr (match err with ServerError m => m | OtherError _ => "error" end) retryable retryable.

Definition answer_of (b : redisBatchEntry) : ResponseEntry :=
  mkRE (b_PK b) (b_Table b) (b_LSN b) (b_XID b) (b_Offset b).

(** [enqueue]: what goes to the worker, and an answer for an empty request. *)
Definition enqueue (civil : option Z → gotime) (req : WriteRequest Tup) : list redisBatchEntry * option Response :=
  match Entries req with
  | [] => ([], Some (mkResp [mkRE EmptyString (mkTN EmptyString EmptyString EmptyString) (LSN req) (XID req) 0] 0))
  | es => ((λ e, mkBE (LSN req) (XID req) (we_Table e) (we_PK e) (Offset e) e (civil (CommitTime req))) <$> es, None)
  end.

Definition notifyError (es : list redisBatchEntry) (err : redis_error) : option ErrResponse :=
  match es with
  | [] => None
  | _ => Some (mkErrResp ((λ b, mkERE (answer_of b) (redisFlushError err)) <$> es))
  end.

(** What a flush tells the tracker. *)
Inductive flushed :=
| FlushedOk (resp : Response) (pipeline : list (list arg)) (maxXID lastLSN : Z)
| FlushedErr (resp : option ErrResponse)
| FlushedFatal (msg : string).

Section flush.
Context (fmt_float : bool → gofloat → string) (sprintv : goval → string).
Context (of_int : Z → gofloat) (numeric_float : Numeric → res gofloat) (fsub : gofloat → gofloat → gofloat).
Context (enc_key : string → res string) (enc_val : goval → res string).
Context (txOpts : TxCommitTimeOptions).
Context (parse_float : string → option gofloat) (fltb fleb : gofloat → gofloat → bool).
Context (writersMap : gmap string redisDynamicWriter).
Notation write := (write fmt_float sprintv of_int numeric_float fsub enc_key enc_val txOpts parse_float fltb fleb).

(** The loop of [flushBatch] over the rows. *)
Inductive queued_batch :=
| Queued (pipeline : list (list arg)) (maxXID lastLSN : Z)
| QueueError (err : goerr)
| QueueFatal (msg : string).

Fixpoint queue_entries (es : list redisBatchEntry) (pp : list (list arg)) (maxXID lastLSN : Z) : queued_batch :=
  match es with
  | [] => Queued pp maxXID lastLSN
  | b :: r =>
      match writersMap !! FullName (we_Table (walEntry b)) with
      | None => QueueFatal "cannot find writer for table"
      | Some w =>
          let maxXID := Z.max maxXID (b_XID b) in
          let lastLSN := Z.max lastLSN (b_LSN b) in
          match write w (walEntry b) (b_commitTime b) (b_XID b) with
          | Ok (cmds, _) => queue_entries r (pp ++ cmds) maxXID lastLSN
          | Err err => QueueError err
          | Panic msg | Fatal msg => QueueFatal msg
          end
      end
  end.

(** [execErr] is the answer of [pp.Exec]. *)
Definition flushBatch (es : list redisBatchEntry) (execErr : option redis_error) : flushed :=
  match queue_entries es [] 0 0 with
  | QueueFatal msg => FlushedFatal msg
  | QueueError err => FlushedErr (notifyError es (OtherError err))
  | Queued pp maxXID lastLSN =>
      match execErr with
      | Some err => FlushedErr (notifyError es err)
      | None => FlushedOk (mkResp (answer_of <$> es) 0) pp maxXID lastLSN
      end
  end.

(** The rows a flush reports on. *)
Definition reported (f : flushed) : list ResponseEntry :=
  match f with
  | FlushedOk resp _ _ _ => r_Entries resp
  | FlushedErr (Some resp) => ere_Entry <$> er_Entries resp
  | _ => []
  end.

Lemma reported_error es err : reported (FlushedErr (notifyError es err)) = answer_of <$> es.
Proof using Type. destruct es; [done|]. simpl. f_equal. rewrite <- list_fmap_compose. by apply list_fmap_ext. Qed.

(** The commands of one row of a batch. *)
Definition row_commands (b : redisBatchEntry) : res (list (list arg)) :=
  match writersMap !! FullName (we_Table (walEntry b)) with
  | None => Fatal "cannot find writer for table"
  | Some w => r ← write w (walEntry b) (b_commitTime b) (b_XID b); Ok r.1
  end.

Definition max_of (f : redisBatchEntry → Z) (es : list redisBatchEntry) (m : Z) : Z :=
  foldl (λ m b, Z.max m (f b)) m es.

Lemma queue_entries_spec es pp m l :
  queue_entries es pp m l =
    match OMap.mapR row_commands es with
    | Ok css => Queued (pp ++ List.concat css) (max_of b_XID es m) (max_of b_LSN es l)
    | Err err => QueueError err
    | Panic msg | Fatal msg => QueueFatal msg
    end.
Proof using Type.
  revert pp m l. induction es as [|b es IH]; intros pp m l; cbn [queue_entries OMap.mapR].
  { simpl. by rewrite app_nil_r. }
  destruct (row_commands b) as [cs| | |] eqn:Hr; unfold row_commands in Hr;
    (destruct (writersMap !! FullName (we_Table (walEntry b))) as [w|]; [|simplify_eq; done]);
    destruct (write w (walEntry b) (b_commitTime b) (b_XID b)) as [[cmds e0]| | |]; simplify_eq/=; try done.
  rewrite IH. destruct (OMap.mapR row_commands es); cbn [mbind res_bind List.concat]; try done.
  by rewrite <- (assoc_L (++)).
Qed.

(** A flush answers for every row of its batch, once and in order.  It
    succeeds exactly when the commands of all rows could be built and the
    pipeline did not fail; then the pipeline was the commands of the rows one
    after the other.  Otherwise every row of the batch is reported as failed,
    unless the process ends because a table has no writer or no commands. *)
Lemma flush_answers_every_row es execErr :
  match flushBatch es execErr with
  | FlushedFatal msg => OMap.mapR row_commands es = Fatal msg ∨ OMap.mapR row_commands es = Panic msg
  | FlushedOk resp pp maxXID lastLSN =>
      r_Entries resp = answer_of <$> es ∧ execErr = None ∧
      (∃ css, OMap.mapR row_commands es = Ok css ∧ pp = List.concat css) ∧
      maxXID = max_of b_XID es 0 ∧ lastLSN = max_of b_LSN es 0
  | FlushedErr resp =>
      reported (FlushedErr resp) = answer_of <$> es ∧
      (is_Some execErr ∨ ∃ err, OMap.mapR row_commands es = Err err)
  end.
Proof using Type.
  unfold flushBatch. rewrite queue_entries_spec.
  destruct (OMap.mapR row_commands es) as [css|err|msg|msg]; [destruct execErr as [err|]|..].
  - split; [apply reported_error|]. left. by eexists.
  - split_and!; try done. by exists css.
  - split; [apply reported_error|]. right. by eexists.
  - by right.
  - by left.
Qed.
End flush.
End Batch.

(** ** The batching worker *)

Module Worker.
Section worker.
Context {A : Type}.
(** [flush.BufferSize] and [flush.Workers]. *)
Context (BufferSize Workers : Z).

(** The channel of rows, the open batch, the batch the worker is waiting to
    submit, the timer, the parallel flushers, and the shutdown ([closeCh]: the
    channel is closed or the context is cancelled). *)
Record worker := mkW {
  eventCh : list A;
  batchBuffer : list A;
  submitting : option (list A);
  ticker : bool;
  isTimerRunning : bool;
  io : parallelIO (list A);
  closeCh : bool;
  stopped : bool }.

Definition idle : worker := mkW [] [] None true false (NewParallelIO Workers) false false.

Inductive event :=
| Enqueue (x : A)
| Take
| Tick
| SubmitBatch
| Flusher (e : io_event (list A))
| Close
| Stop.

(** [tryFlushBatch]: nothing for an empty batch, otherwise a new batch is begun
    and the worker calls [Submit]. *)
Definition tryFlushBatch (w : worker) : worker :=
  match batchBuffer w with
  | [] => w
  | b => mkW (eventCh w) [] (Some b) (ticker w) (isTimerRunning w) (io w) (closeCh w) (stopped w)
  end.

Definition full (b : list A) : bool :=
  bool_decide (0 < BufferSize) && bool_decide (BufferSize ≤ u32 (Z.of_nat (length b))).

(** The worker is in its [select], not in [Submit]. *)
Definition selecting (w : worker) : bool := negb (stopped w) && bool_decide (submitting w = None).

(** A row sent to the channel (whose capacity only delays the sender), one case
    of the loop of [runWorker], the end of a [Submit], a step of a flushing
    worker, or the shutdown; [None] is a step that has to wait. *)
Definition step (e : event) (w : worker) : option worker :=
  match e with
  | Enqueue x =>
      Some (mkW (eventCh w ++ [x]) (batchBuffer w) (submitting w) (ticker w) (isTimerRunning w) (io w) (closeCh w) (stopped w))
  | Take =>
      if negb (selecting w) then None
      else match eventCh w with
           | [] => None
           | x :: r =>
               let tick := if isTimerRunning w then ticker w else true in
               let w := mkW r (batchBuffer w ++ [x]) None tick true (io w) (closeCh w) (stopped w) in
               Some (if full (batchBuffer w) then tryFlushBatch w else w)
           end
  | Tick =>
      if selecting w && ticker w
      then Some (tryFlushBatch (mkW (eventCh w) (batchBuffer w) None false false (io w) (closeCh w) (stopped w)))
      else None
  | SubmitBatch =>
      b ← submitting w;
      io ← ParallelIO.Submit b (io w);
      Some (mkW (eventCh w) (batchBuffer w) None (ticker w) (isTimerRunning w) io (closeCh w) (stopped w))
  | Flusher (IOSubmit _) => None
  | Flusher e =>
      io ← io_step e (io w);
      Some (mkW (eventCh w) (batchBuffer w) (submitting w) (ticker w) (isTimerRunning w) io (closeCh w) (stopped w))
  | Close => Some (mkW (eventCh w) (batchBuffer w) (submitting w) (ticker w) (isTimerRunning w) (io w) true (stopped w))
  | Stop => if selecting w && closeCh w
            then Some (mkW (eventCh w) (batchBuffer w) None (ticker w) (isTimerRunning w) (io w) true true)
            else None
  end.

Inductive run : list event → worker → Prop :=
| run_idle : run [] idle
| run_snoc es w e w' : run es w → step e w = Some w' → run (es ++ [e]) w'.

(** The rows given to the worker. *)
Definition given (es : list event) : list A :=
  es ≫= λ e, match e with Enqueue x => [x] | _ => [] end.

(** The rows on their way, nearest to the answer first. *)
Definition underway (w : worker) : list A :=
  List.concat (inflight (io w)) ++ List.concat (requestCh (io w)) ++ default [] (submitting w) ++ batchBuffer w ++ eventCh w.
Definition answered_rows (w : worker) : list A := List.concat (answered (io w)).
Definition batches (w : worker) : list (list A) := requests (io w) ++ option_list (submitting w).
Definition rows (w : worker) : list A := List.concat (batches w) ++ batchBuffer w ++ eventCh w.

Lemma given_snoc es e : given (es ++ [e]) = given es ++ match e with Enqueue x => [x] | _ => [] end.
Proof using Type. unfold given. rewrite bind_app. simpl. by rewrite app_nil_r. Qed.

Lemma concat_option (o : option (list A)) : List.concat (option_list o) = default [] o.
Proof using Type. destruct o; simpl; [by rewrite app_nil_r|done]. Qed.

Lemma rows_underway w : rows w = answered_rows w ++ underway w.
Proof using Type.
  unfold rows, batches, requests, answered_rows, underway. rewrite !concat_app, concat_option. app_assoc.
Qed.

Lemma selecting_true w : selecting w = true → stopped w = false ∧ submitting w = None.
Proof using Type.
  unfold selecting. intros [H1 H2]%andb_prop. apply bool_decide_eq_true in H2. by destruct (stopped w).
Qed.

Lemma tryFlush_rows w : submitting w = None → rows (tryFlushBatch w) = rows w.
Proof using Type.
  unfold tryFlushBatch, rows, batches. intros E. destruct (batchBuffer w) as [|x b] eqn:Eb; [by rewrite Eb|].
  simpl. rewrite E. simpl. rewrite !concat_app. simpl. rewrite !app_nil_r. app_assoc.
Qed.

Lemma flusher_batches e w w' :
  step (Flusher e) w = Some w' → ∃ io', io_step e (io w) = Some io' ∧ requests io' ≡ₚ requests (io w) ∧
   w' = mkW (eventCh w) (batchBuffer w) (submitting w) (ticker w) (isTimerRunning w) io' (closeCh w) (stopped w).
Proof using Type.
  intros H. assert (¬ ∃ b, e = IOSubmit b) as Hne by (intros [b ->]; done).
  assert (∃ io', io_step e (io w) = Some io' ∧
    w' = mkW (eventCh w) (batchBuffer w) (submitting w) (ticker w) (isTimerRunning w) io' (closeCh w) (stopped w))
    as (io' & E & ->).
  { destruct e; [done|..]; apply bind_Some in H as (io' & E & [= <-]); eauto. }
  exists io'. split_and!; [done| |done]. rewrite (step_requests _ _ _ E). destruct e; [naive_solver|..]; by rewrite app_nil_r.
Qed.

(** Every row given is answered once or still on its way. *)
Lemma step_rows e w w' : step e w = Some w' → rows w' ≡ₚ rows w ++ match e with Enqueue x => [x] | _ => [] end.
Proof using Type.
  destruct e as [x| | | |e| |]; cbn [step]; rewrite ?app_nil_r.
  - intros [= <-]. unfold rows, batches. simpl. app_assoc.
  - destruct (selecting w) eqn:Hs; [|done]. apply selecting_true in Hs as [_ Hs].
    destruct (eventCh w) as [|x r] eqn:E; [done|]. simpl. intros [= <-].
    set (w1 := mkW _ _ _ _ _ _ _ _).
    assert (rows w1 = rows w) as E1 by (unfold rows, batches, w1; simpl; rewrite E, Hs; app_assoc).
    destruct (full _); [rewrite tryFlush_rows by done|]; by rewrite E1.
  - destruct (selecting w) eqn:Hs; [|done]. apply selecting_true in Hs as [_ Hs]. destruct (ticker w); [|done].
    intros [= <-]. rewrite tryFlush_rows by done. unfold rows, batches. simpl. by rewrite Hs.
  - intros (b & Hb & (io' & [E _]%Submit_spec & [= <-])%bind_Some)%bind_Some.
    unfold rows, batches. simpl. rewrite E, Hb. simpl. by rewrite app_nil_r.
  - intros (io' & _ & E & ->)%flusher_batches. unfold rows, batches. simpl. by rewrite E.
  - by intros [= <-].
  - destruct (selecting w) eqn:Hs; [|done]. apply selecting_true in Hs as [_ Hs]. destruct (closeCh w); [|done].
    intros [= <-]. unfold rows, batches. simpl. by rewrite Hs.
Qed.

Lemma run_conserves es w : run es w → answered_rows w ++ underway w ≡ₚ given es.
Proof using Type.
  rewrite <- rows_underway. induction 1 as [|es w e w' _ IH Hstep].
  - unfold rows, batches, idle. simpl. rewrite (run_requests Workers [] _ (io_run_new Workers)). done.
  - by rewrite given_snoc, <- IH, <- (step_rows _ _ _ Hstep).
Qed.

(** ** Sizes, timer and flushers *)

Definition ready (w : worker) : Prop :=
  io_inv Workers (io w) ∧
  (submitting w ≠ Some []) ∧
  (isTimerRunning w = true → ticker w = true) ∧
  (batchBuffer w ≠ [] → isTimerRunning w = true) ∧
  (0 < BufferSize → Z.of_nat (length (batchBuffer w)) < BufferSize ∧
     Forall (λ b, Z.of_nat (length b) ≤ BufferSize) (batches w)).

Lemma tryFlush_ready w :
  io_inv Workers (io w) → submitting w = None →
  (isTimerRunning w = true → ticker w = true) →
  (0 < BufferSize → Z.of_nat (length (batchBuffer w)) ≤ BufferSize ∧
     Forall (λ b, Z.of_nat (length b) ≤ BufferSize) (batches w)) → ready (tryFlushBatch w).
Proof using Type.
  unfold tryFlushBatch, ready, batches. intros H1 H2 H3 H4. destruct (batchBuffer w) as [|x b] eqn:E.
  - rewrite E, H2. split_and!; try done. intros Hb. rewrite H2 in H4. split; [done|by apply H4].
  - simpl. split_and!; try done. intros Hb. destruct (H4 Hb) as [Hl Hf]. rewrite H2 in Hf. simpl in Hf.
    rewrite app_nil_r in Hf. split; [done|]. apply Forall_app. split; [done|]. by constructor.
Qed.

Lemma step_ready e w w' : BufferSize < two32 → ready w → step e w = Some w' → ready w'.
Proof using Type.
  intros Hsz (H1 & H2 & H3 & H4 & H5) Hstep. destruct e as [x| | | |e| |]; cbn [step] in Hstep.
  - injection Hstep as <-. done.
  - destruct (selecting w) eqn:Hs; [|done]. apply selecting_true in Hs as [_ Hs].
    destruct (eventCh w) as [|x r] eqn:E; [done|]. simpl in Hstep.
    set (w1 := mkW _ _ _ _ _ _ _ _) in Hstep. injection Hstep as <-.
    assert (isTimerRunning w1 = true → ticker w1 = true) as Ht.
    { simpl. intros _. destruct (isTimerRunning w); [auto|done]. }
    assert (Hsz1 : 0 < BufferSize → Z.of_nat (length (batchBuffer w1)) ≤ BufferSize ∧
       Forall (λ b, Z.of_nat (length b) ≤ BufferSize) (batches w1)).
    { intros Hb. destruct (H5 Hb) as [Hl Hf]. unfold batches in *. rewrite Hs in Hf. simpl in *.
      rewrite length_app. simpl. split; [lia|done]. }
    destruct (full (batchBuffer w ++ [x])) eqn:Hc; [by apply tryFlush_ready|].
    split_and!; try done. intros Hb. destruct (Hsz1 Hb) as [Hl Hf]. split; [|done].
    unfold full in Hc. rewrite bool_decide_true in Hc by done. apply bool_decide_eq_false in Hc.
    change (batchBuffer w ++ [x]) with (batchBuffer w1) in Hc. rewrite u32_small in Hc by lia. lia.
  - destruct (selecting w) eqn:Hs; [|done]. apply selecting_true in Hs as [_ Hs]. destruct (ticker w); [|done].
    injection Hstep as <-. apply tryFlush_ready; try done. intros Hb. destruct (H5 Hb) as [Hl Hf].
    unfold batches in *. rewrite Hs in Hf. simpl in *. split; [lia|done].
  - apply bind_Some in Hstep as (b & Hb & (io' & E & [= <-])%bind_Some).
    pose proof (Submit_inv_io _ _ _ _ H1 E) as Hi. apply Submit_spec in E as [E _].
    split_and!; try done. intros Hp. destruct (H5 Hp) as [Hl Hf]. split; [done|]. unfold batches in *. simpl.
    rewrite E. rewrite Hb in Hf. simpl in Hf. by rewrite app_nil_r.
  - apply flusher_batches in Hstep as (io' & Hio & E & ->). split_and!; try done; [by eapply step_inv_io|].
    intros Hp. destruct (H5 Hp) as [Hl Hf]. split; [done|]. unfold batches in *. simpl. by rewrite E.
  - by injection Hstep as <-.
  - destruct (selecting w) eqn:Hs; [|done]. apply selecting_true in Hs as [_ Hs]. destruct (closeCh w); [|done].
    injection Hstep as <-. split_and!; try done. intros Hp. destruct (H5 Hp) as [Hl Hf]. split; [done|].
    unfold batches in *. simpl. by rewrite Hs in Hf.
Qed.

Lemma run_ready es w : BufferSize < two32 → run es w → ready w.
Proof using Type.
  intros Hsz. induction 1 as [|es w e w' _ IH Hstep]; [|by eapply step_ready].
  split_and!; try done; [apply new_inv|]. intros Hb. split; [done|]. unfold batches. simpl.
  rewrite app_nil_r, (run_requests Workers [] _ (io_run_new Workers)). constructor.
Qed.

(** ** Progress *)

(** A measure of the work left. *)
Definition work (w : worker) : nat :=
  5 * length (eventCh w) + 4 * length (batchBuffer w) + 3 * length (option_list (submitting w)) + io_work (io w).

Lemma tryFlush_work w :
  submitting w = None → (work (tryFlushBatch w) ≤ work w)%nat ∧
  (batchBuffer w ≠ [] → (work (tryFlushBatch w) < work w)%nat) ∧
  io (tryFlushBatch w) = io w ∧ stopped (tryFlushBatch w) = stopped w.
Proof using Type.
  intros E. unfold tryFlushBatch, work. destruct (batchBuffer w) as [|x b] eqn:Eb.
  - rewrite Eb. split_and!; try done.
  - simpl. rewrite E. simpl. split_and!; try done; intros; lia.
Qed.

Lemma progress w :
  ready w → stopped w = false → doneCh (io w) = false → 0 ≤ Workers → (0 < work w)%nat →
  ∃ e w', step e w = Some w' ∧ (work w' < work w)%nat ∧ stopped w' = false ∧ doneCh (io w') = false ∧ given [e] = [].
Proof using Type.
  intros (H1 & H2 & H3 & H4 & _) Hst Hd Hn Hw.
  destruct (decide (io_work (io w) = 0%nat)) as [Hz|Hz].
  2: { destruct (io_progress _ _ H1 Hd Hn ltac:(lia)) as (e & io' & Hs & (i & He) & Hlt & Hd').
       exists (Flusher e). eexists. split; [destruct He as [-> | ->]; cbn [step]; rewrite Hs; done|].
       unfold work. simpl. split_and!; try done. lia. }
  destruct (submitting w) as [b|] eqn:Es.
  { destruct (Submit_room b _ _ H1 Hn Hz) as [i' Ei]. exists SubmitBatch. eexists.
    split; [cbn [step]; rewrite Es; simpl; rewrite Ei; done|]. apply Submit_work in Ei as [Ei Ei'].
    unfold work. simpl. rewrite Es. simpl. split_and!; try done; [lia|congruence]. }
  assert (selecting w = true) as Hsel by (unfold selecting; by rewrite Hst, bool_decide_true).
  destruct (eventCh w) as [|x r] eqn:Ee.
  - assert (batchBuffer w ≠ []) as Hb.
    { intros Eb. unfold work in Hw. rewrite Ee, Es, Eb, Hz in Hw. simpl in Hw. lia. }
    exists Tick. eexists. split; [cbn [step]; rewrite Hsel, (H3 (H4 Hb)); done|].
    destruct (tryFlush_work (mkW (eventCh w) (batchBuffer w) None false false (io w) (closeCh w) (stopped w)))
      as (_ & T2 & T3 & T4); [done|]. rewrite T3, T4. split_and!; try done.
    specialize (T2 Hb). unfold work in T2 |- *. simpl in *. rewrite Es. simpl. lia.
  - exists Take. eexists. split; [cbn [step]; rewrite Hsel, Ee; done|]. cbv zeta.
    set (w1 := mkW r _ _ _ _ _ _ _).
    assert (work w1 < work w)%nat as Hlt.
    { unfold work, w1. simpl. rewrite length_app, Ee. simpl. lia. }
    destruct (tryFlush_work w1) as (T1 & _ & T3 & T4); [done|].
    destruct (full _); [rewrite T3, T4|]; split_and!; try done; lia.
Qed.

Lemma run_drains es w :
  BufferSize < two32 → run es w → stopped w = false → doneCh (io w) = false → 0 ≤ Workers →
  ∃ es' w', run (es ++ es') w' ∧ given es' = [] ∧ underway w' = [].
Proof using Type.
  intros Hsz. remember (work w) as n eqn:Hn. revert es w Hn.
  induction (lt_wf n) as [n _ IH]; intros es w -> Hrun Hc Hd Hw.
  destruct (decide (0 < work w)%nat) as [Hpos|Hz].
  - destruct (progress w (run_ready _ _ Hsz Hrun) Hc Hd Hw Hpos) as (e & w1 & Hstep & Hlt & Hc1 & Hd1 & Hg).
    destruct (IH (work w1) Hlt (es ++ [e]) w1 eq_refl) as (es' & w' & G1 & G2 & G3); [by eapply run_snoc|done|done|done|].
    exists (e :: es'), w'. split_and!; [by rewrite <- (assoc_L (++)) in G1| |done].
    change (e :: es') with ([e] ++ es'). unfold given in *. rewrite bind_app, Hg, G2. done.
  - exists [], w. rewrite app_nil_r. split_and!; [done|done|]. unfold work, io_work in Hz. unfold underway.
    destruct (eventCh w), (batchBuffer w), (submitting w), (requestCh (io w)), (inflight (io w)); simpl in Hz; try lia. done.
Qed.

(** C27: the writer answers for every row it was given, once.  At any moment the
    rows given are those answered, in that the flush of their batch has
    returned, and those on their way, none lost and none twice; no batch exceeds
    the configured size; a row that waits in the open batch has a timer running
    that will flush it; and unless the writer is shut down, finitely many further
    steps of the worker and the flushers can answer every row, with no more rows
    given. *)
Theorem writer_answers_every_row es w :
  run es w → BufferSize < two32 →
  answered_rows w ++ underway w ≡ₚ given es ∧
  (0 < BufferSize → Forall (λ b, Z.of_nat (length b) ≤ BufferSize) (batches w)) ∧
  (batchBuffer w ≠ [] → ticker w = true) ∧
  (stopped w = false → doneCh (io w) = false → 0 ≤ Workers →
   ∃ es' w', run (es ++ es') w' ∧ given es' = [] ∧ answered_rows w' ≡ₚ given es).
Proof using Type.
  intros Hrun Hsz. destruct (run_ready es w Hsz Hrun) as (_ & _ & H3 & H4 & H5).
  split_and!; [by apply run_conserves|intros Hb; by apply H5|auto|].
  intros Hc Hd Hn. destruct (run_drains es w Hsz Hrun Hc Hd Hn) as (es' & w' & G1 & G2 & G3).
  exists es', w'. split_and!; [done|done|]. pose proof (run_conserves _ _ G1) as H.
  rewrite G3, app_nil_r in H. rewrite H. unfold given in *. rewrite bind_app, G2, app_nil_r. done.
Qed.

Lemma run_foldl es es' w w' :
  run es w → foldl (λ o e, o ≫= step e) (Some w) es' = Some w' → run (es ++ es') w'.
Proof using Type.
  revert es w. induction es' as [|e es' IH]; intros es w H E; simpl in E.
  - injection E as <-. by rewrite app_nil_r.
  - destruct (step e w) as [w1|] eqn:E1.
    + rewrite cons_middle, (assoc_L (++)). apply (IH _ w1); [by eapply run_snoc|done].
    + exfalso. clear -E. induction es'; simpl in E; [done|auto].
Qed.
End worker.
Arguments worker : clear implicits.
Arguments event : clear implicits.
End Worker.

(** ** Concrete commands *)

Module Samples.
Import Condition Dynamic Batch.
Definition show_float (_ : bool) (f : gofloat) : string :=
  match f with FFin m _ => pretty m | FNaN => "NaN" | FInf b => if b then "-Inf" else "+Inf" end.
Definition show_other (_ : goval) : string := "<nil>".
Definition number (z : Z) : gofloat := FFin z 0.
Definition numeric_number (n : Numeric) : res gofloat := Err (GoErr "no numerics").
Definition no_parse (s : string) : option gofloat := None.
Definition minus (a b : gofloat) : gofloat :=
  match a, b with FFin x _, FFin y _ => FFin (x - y) 0 | _, _ => FNaN end.
Definition less (a b : gofloat) : bool := match a, b with FFin x _, FFin y _ => bool_decide (x < y) | _, _ => false end.
Definition less_eq (a b : gofloat) : bool := match a, b with FFin x _, FFin y _ => bool_decide (x ≤ y) | _, _ => false end.
Definition quote (s : string) : res string := Ok s.
Definition quote_v (v : goval) : res string := Ok (stringifyForRedis show_float show_other v).
Definition noon : gotime := mkTime 2024 3 7 12 0 0 0 0.

Definition no_stamp : TxCommitTimeOptions := mkTCO false EmptyString.
Definition stamp : TxCommitTimeOptions := mkTCO true "at".

Definition km : KeyMap.KeyMap := KeyMap.New ["id"; "name"; "at"].
Definition row_of (r : res Tup) : Tup := match r with Ok t => t | _ => OMap.New VNil km end.
Definition row : Tup :=
  row_of (t ← OMap.Set_ "id" (VInt 32 7) (OMap.New VNil km); OMap.Set_ "name" (VString "ann") t).
Definition entry : entry_t := mkWE (Some row) None "7" Update (MakeTableName "public" "users") 0.

Lemma row_wf : OMap.wf VNil row.
Proof.
  assert (OMap.wf VNil (OMap.New VNil km)) as H0 by (apply OMap.New_wf, KeyMap.key_map_wf).
  destruct (Set_insert (OMap.New VNil km) "id" (VInt 32 7) H0) as (t1 & E1 & H1 & K1 & _); [done|].
  destruct (Set_insert t1 "name" (VString "ann") H1) as (t2 & E2 & H2 & _); [by rewrite K1|].
  unfold row. rewrite E1. res_step. rewrite E2. done.
Qed.

Notation build tx := (buildCommand show_float show_other number numeric_number minus quote quote_v tx).
Definition args_of (r : res (option redisCommand * entry_t)) : res (list arg) :=
  p ← r; match p.1 with Some c => Ok (rc_args c) | None => Ok [] end.

Example hset :
  args_of (build stamp (mkRCC "HSET" (compileCommand <$> ["user:{id}"; "{pairs:*}"])) entry noon 3) =
  Ok [AStr "HSET"; AStr "user:7"; AStr "id"; AStr "7"; AStr "name"; AStr "ann"; AStr "at"; AStr "2024-03-07T12:00:00Z"].
Proof. vm_compute. reflexivity. Qed.

(** A whole-row JSON argument that adds the commit time to the row, before an
    argument that lists the row: the slice is too short. *)
Example json_then_pairs :
  args_of (build stamp (mkRCC "XADD" (compileCommand <$> ["{json:*}"; "{pairs:*}"])) entry noon 3) =
  Panic "index out of range".
Proof. vm_compute. reflexivity. Qed.

(** The default command of a delete has no placeholder in it. *)
Example default_delete :
  mustCompileCommandGroups (defaultDeleteCommands "public.users") =
  [mkGroup None [mkRCC "DEL" [literalCommand "public.users:%pk%"]]].
Proof. vm_compute. reflexivity. Qed.

(** Three closing braces are taken as an escaped one and a closing one. *)
Example escaped_field : compileCommand "{{{id}}}" =
  templateCommand [literalTemplatePart "{"; columnPart ("id" +:+ mark1) ("{id" +:+ mark1 +:+ "}")].
Proof. vm_compute. reflexivity. Qed.

Definition hset_args : list redisCompiledCommand := [templateCommand [literalTemplatePart "u:"; pkPart]; pairsStarCommand].

Definition tokens : list token := [TText "user:"; TField "id"; TText "/"; TField "%table%"].

Lemma condition_sql_witness :
  Evaluate show_float show_other number no_parse less less_eq (Some (mkCC OpLess "id" "{id}" [])) entry = Ok false.
Proof.
  destruct (condition_sql show_float show_other number no_parse less less_eq OpLess "id" "{id}" [] entry (VInt 32 7) (VInt 32 7))
    as [H _]; [reflexivity|reflexivity|].
  exact (H eq_refl).
Defined.

Definition two_rows : list (Worker.event nat) :=
  [Worker.Enqueue 1%nat; Worker.Enqueue 2%nat; Worker.Take; Worker.Take; Worker.SubmitBatch;
   Worker.Flusher (IOTake 0); Worker.Flusher (IOHandled 0 true)].
Definition worked : Worker.worker nat :=
  Worker.mkW [] [] None true true (mkPIO [] [mkPW None 2 false] false [(mkTR [1%nat; 2%nat] 1 1, true)]) false false.
Lemma writer_answers_every_row_witness :
  Worker.run 2 1 two_rows worked ∧
  Worker.answered_rows worked ++ Worker.underway worked ≡ₚ Worker.given two_rows.
Proof.
  assert (Worker.run 2 1 two_rows worked) as H.
  { apply (Worker.run_foldl 2 1 [] two_rows (Worker.idle 1) worked); [constructor|reflexivity]. }
  split; [exact H|]. exact (proj1 (Worker.writer_answers_every_row 2 1 two_rows worked H eq_refl)).
Defined.

(** With two flushing workers and single-row batches, the answer for the later
    of two rows may come first: nothing keeps the changes of a row in order. *)
Definition overtaking : list (Worker.event nat) :=
  [Worker.Enqueue 1%nat; Worker.Enqueue 2%nat; Worker.Take; Worker.SubmitBatch; Worker.Take; Worker.SubmitBatch;
   Worker.Flusher (IOTake 0); Worker.Flusher (IOTake 1); Worker.Flusher (IOHandled 1 true); Worker.Flusher (IOHandled 0 true)].
Example later_row_first :
  Worker.answered_rows <$> foldl (λ o e, o ≫= Worker.step 1 e) (Some (Worker.idle 2)) overtaking = Some [2%nat; 1%nat].
Proof. vm_compute. reflexivity. Qed.
End Samples.
