(* ===== verification/SQSMapper.v ===== *)
(** * The SQS queue mapper (src/pg2sqs/queuemapper/sqs_queue_mapper.go)

    Which queue a change goes to, and the ids SQS asks for: the deduplication
    id, by which SQS drops repeated messages, and the message group id, within
    which it keeps messages in order.  The printing of a column's value ([%v])
    is an argument. *)

From stdpp Require Import base numbers list gmap strings pretty sorting.
From S2P Require Import Prelude GoStrings OrderedMap PgSchema Decode PgWal BufferedListener.

(** ** Configuration *)

Inductive SQSQueueConfig := mkSQC {
  sqc_Name : string; sqc_URL : string;
  sqc_Insert : option SQSQueueConfig; sqc_Update : option SQSQueueConfig; sqc_Delete : option SQSQueueConfig;
  sqc_GroupID : string }.

Record SQSTableConfig := mkSTC { stc_Columns : list string; stc_QueueConfig : option SQSQueueConfig }.

Record TableQueueConfig := mkTQC {
  tableName : string; queueName : string; queueURL : string;
  fifo : bool; skip : bool; needsOpInJSON : bool; groupIDPattern : string }.

Definition SkipQueue : string := "skip".

(** The value of an [OpKind] constant. *)
Definition kind_number (k : OpKind) : Z :=
  match k with Insert => 0 | Update => 1 | Delete => 2 | SnapshotRead => 3 end.

Definition makeQueueConfigKey (tableName : string) (opKind : OpKind) : string :=
  tableName +:+ "-" +:+ pretty (kind_number opKind).

Definition newQueueConfig (opKind : OpKind) (tableName : string) (defaultConfig : SQSQueueConfig)
    (mergeConfig : option SQSQueueConfig) : string * TableQueueConfig :=
  let qc := mkTQC tableName (sqc_Name defaultConfig) (sqc_URL defaultConfig) false false true
                  (sqc_GroupID defaultConfig) in
  let qc :=
    match mergeConfig with
    | None => qc
    | Some mc =>
        let skipped := EqualFold (sqc_Name mc) SkipQueue in
        mkTQC tableName (if skipped then EmptyString else sqc_Name mc)
              (if skipped then EmptyString else sqc_URL mc) false skipped false
              (if bool_decide (sqc_GroupID mc = EmptyString) then groupIDPattern qc else sqc_GroupID mc)
    end in
  let qc :=
    if bool_decide (queueName qc = EmptyString) && negb (skip qc)
    then mkTQC tableName (ReplaceAll tableName "." "_") (queueURL qc) (fifo qc) (skip qc)
               (needsOpInJSON qc) (groupIDPattern qc)
    else qc in
  (makeQueueConfigKey tableName opKind, qc).

Notation SQSQueueMapper := (gmap string TableQueueConfig).

Definition add_config (kc : string * TableQueueConfig) (m : SQSQueueMapper) : SQSQueueMapper := <[kc.1 := kc.2]> m.

(** The tables in the order in which their map is ranged over. *)
Fixpoint add_tables (tables : list (string * SQSTableConfig)) (qm : SQSQueueMapper) : res SQSQueueMapper :=
  match tables with
  | [] => Ok qm
  | (name, cfg) :: r =>
      match stc_QueueConfig cfg with
      | None => Panic "nil dereference"
      | Some q =>
          add_tables r (add_config (newQueueConfig Delete name q (sqc_Delete q))
                       (add_config (newQueueConfig Update name q (sqc_Update q))
                       (add_config (newQueueConfig Insert name q (sqc_Insert q)) qm)))
      end
  end.
Definition NewSQSQueueMapper (tables : list (string * SQSTableConfig)) : res SQSQueueMapper := add_tables tables ∅.

Definition GetQueueConfig {Tup} (entry : WriteEntry Tup) (qm : SQSQueueMapper) : option TableQueueConfig :=
  qm !! makeQueueConfigKey (FullName (we_Table entry)) (Kind entry).

(** [Update], called for every configuration when the queues are looked up. *)
Definition Update_ (url : string) (isFifo : bool) (qc : TableQueueConfig) : TableQueueConfig :=
  mkTQC (tableName qc) (queueName qc) url isFifo (skip qc) (needsOpInJSON qc) (groupIDPattern qc).

(** The test for a FIFO queue. *)
Definition dot_byte : Ascii.ascii := Ascii.ascii_of_nat 46.
Definition is_fifo (queueName : string) : bool :=
  EqualFold (default EmptyString (last (split_byte dot_byte queueName))) "fifo".

(** What [GetQueueUrl] answers. *)
Inductive url_answer := QueueUrl (url : string) | QueueDoesNotExist | UrlError (err : goerr).

Section sqs.
(** SQS: the answers to [GetQueueUrl] and [CreateQueue] (with the attribute
    [FifoQueue]). *)
Context (get_url : string → url_answer) (create_queue : string → bool → goerr + string).

Definition ReadOrCreateSQSQueueURL (queueName : string) : goerr + (string * bool) :=
  let isFifo := is_fifo queueName in
  match get_url queueName with
  | QueueUrl u => inr (u, isFifo)
  | QueueDoesNotExist =>
      match create_queue queueName isFifo with
      | inl err => inl (GoWrap ("SQS writer: failed to create queue " +:+ queueName) err)
      | inr u => inr (u, isFifo)
      end
  | UrlError err => inl (GoWrap ("SQS writer: failed to get URL of the queue " +:+ queueName) err)
  end.

(** [ping], over the configurations in the order of the map's iteration: the
    first error ends it. *)
Fixpoint ping (order : list string) (qm : SQSQueueMapper) : SQSQueueMapper * option goerr :=
  match order with
  | [] => (qm, None)
  | k :: r =>
      match qm !! k with
      | None => ping r qm
      | Some qc =>
          match ReadOrCreateSQSQueueURL (queueName qc) with
          | inl err => (qm, Some err)
          | inr (u, f) => ping r (<[k := Update_ u f qc]> qm)
          end
      end
  end.
End sqs.

(** [slices.Sort] of the names, without repetitions. *)
Definition GetAllQueueNames (qm : SQSQueueMapper) : list string :=
  merge_sort String.le (elements (list_to_set (C := gset string) (queueName <$> (map_to_list qm).*2))).

(** ** Ids *)

Definition maxGroupIDLen : nat := 128.
Definition aws_char (c : Ascii.ascii) : bool :=
  let n := Ascii.nat_of_ascii c in ((33 <=? n) && (n <=? 126))%nat.

(** The loop of [wellFormAWSID] over the characters. *)
Fixpoint well_form_from (s : string) (curIndex : nat) : string :=
  match s with
  | EmptyString => EmptyString
  | String c r =>
      if (maxGroupIDLen <=? curIndex)%nat then EmptyString
      else if aws_char c then String c (well_form_from r (S curIndex)) else well_form_from r curIndex
  end.
Definition wellFormAWSID (awsID : string) : string := well_form_from awsID 0.

Definition dedup_text {Tup} (entry : WriteEntry Tup) (xid : Z) : string :=
  FullName (we_Table entry) +:+ ":" +:+ we_PK entry +:+ ":" +:+ pretty (kind_number (Kind entry)) +:+ ":" +:+ pretty xid.

Definition GetDeduplicationID {Tup} (qc : TableQueueConfig) (entry : WriteEntry Tup) (xid : Z) : option string :=
  if negb (fifo qc) then None
  else Some (wellFormAWSID (" " +:+ EncodeBinary (dedup_text entry xid) BinaryEncodingBase64)).

(** *** Group ids *)

Definition dollar : Ascii.ascii := Ascii.ascii_of_nat 36.
Definition open_curly : Ascii.ascii := Ascii.ascii_of_nat 123.
Definition close_curly : Ascii.ascii := Ascii.ascii_of_nat 125.

(** What stands before the next closing brace. *)
Fixpoint until_close (s : string) (content : string) : option string :=
  match s with
  | EmptyString => None
  | String c r => if decide (c = close_curly) then Some content
                  else until_close r (content +:+ String c EmptyString)
  end.

(** The macro of a match of [\$\{([^}]+)\}] at the start of a string. *)
Definition macro_at (s : string) : option string :=
  match s with
  | String d (String o r) =>
      if decide (d = dollar ∧ o = open_curly)
      then m ← until_close r EmptyString; if bool_decide (m = EmptyString) then None else Some m
      else None
  | _ => None
  end.

(** [ReplaceAllStringFunc]; [passed] counts the characters of a match still to
    pass. *)
Fixpoint replace_macros (f : string → res string) (s : string) (passed : nat) : res string :=
  match s with
  | EmptyString => Ok EmptyString
  | String c r =>
      match passed with
      | S n => replace_macros f r n
      | O =>
          match macro_at s with
          | Some m => v ← f m; rest ← replace_macros f r (2 + String.length m); Ok (v +:+ rest)
          | None => rest ← replace_macros f r 0; Ok (String c rest)
          end
      end
  end.

Definition schemaMacro : string := "%schema%".
Definition tableMacro : string := "%table%".
Definition xidMacro : string := "%xid%".

Section group.
Context (fmtv : goval → string).

Definition macro_value (entry : WriteEntry Tup) (xid : Z) (macro : string) : res string :=
  if bool_decide (macro = schemaMacro) then Ok (Schema (we_Table entry))
  else if bool_decide (macro = tableMacro) then Ok (Name (we_Table entry))
  else if bool_decide (macro = xidMacro) then Ok (pretty xid)
  else match Tuple entry with
       | None => Panic "nil dereference"
       | Some t =>
           '(v, ok) ← OMap.Get VNil macro t;
           Ok (if (ok : bool)
               then match v with VNil => EmptyString | v => wellFormAWSID (fmtv v) end
               else wellFormAWSID ("${" +:+ macro +:+ "}"))
       end.

Definition GetMessageGroupID (qc : TableQueueConfig) (entry : WriteEntry Tup) (xid : Z) : res (option string) :=
  if bool_decide (groupIDPattern qc = EmptyString) then Ok None
  else s ← replace_macros (macro_value entry xid) (groupIDPattern qc) 0; Ok (Some s).
End group.

(** The macros of a pattern ([FindAllString]). *)
Fixpoint macros (s : string) (passed : nat) : list string :=
  match s with
  | EmptyString => []
  | String c r =>
      match passed with
      | S n => macros r n
      | O => match macro_at s with
             | Some m => m :: macros r (2 + String.length m)
             | None => macros r 0
             end
      end
  end.

(** The macros of a group id that are not columns; no error when there are none. *)
Definition ValidateMessageGroupID (columns : list string) (qc : TableQueueConfig) : list string :=
  filter (λ m, negb (bool_decide (m = schemaMacro) || bool_decide (m = tableMacro) || bool_decide (m = xidMacro) ||
                     existsb (EqualFold m) columns) = true)
         (macros (groupIDPattern qc) 0).

(** [ValidateConfig], over the configurations in the order of the map's
    iteration: the tables that are not published, and for the first
    configuration seen of each other table the macros that are not columns. *)
Fixpoint validate_configs (order : list TableQueueConfig) (processed : list string) (pubTables : gmap string (list string))
    : list (string * option string) :=
  match order with
  | [] => []
  | qc :: r =>
      if bool_decide (tableName qc ∈ processed) then validate_configs r processed pubTables
      else match pubTables !! tableName qc with
           | None => (tableName qc, None) :: validate_configs r (tableName qc :: processed) pubTables
           | Some cols => ((λ m, (tableName qc, Some m)) <$> ValidateMessageGroupID cols qc) ++
                          validate_configs r (tableName qc :: processed) pubTables
           end
  end.
Definition ValidateConfig (order : list TableQueueConfig) (pubTables : gmap string (list string)) : list (string * option string) :=
  validate_configs order [] pubTables.

(** ** Every change has its queue *)

(** A string is cut at its last separator. *)
Lemma last_separator c s1 s2 d1 d2 :
  has_byte c d1 = false → has_byte c d2 = false →
  s1 +:+ String c d1 = s2 +:+ String c d2 → s1 = s2 ∧ d1 = d2.
Proof.
  assert (∀ s d d', has_byte c d = false → d ≠ s +:+ String c d') as Hno.
  { unfold has_byte. intros s d d' Hd ->. rewrite bool_decide_eq_false, to_list_app in Hd. set_solver. }
  intros H1 H2. revert s2. induction s1 as [|a s1 IH]; intros [|b s2]; rewrite ?string_app_cons, ?string_app_nil.
  - by intros [= ->].
  - intros [= _ E]. by apply Hno in E.
  - intros [= _ E]. symmetry in E. by apply Hno in E.
  - intros [= -> E]. by destruct (IH s2 E) as [-> ->].
Qed.

Lemma kind_number_plain k c : (c = Ascii.ascii_of_nat 45 ∨ c = Ascii.ascii_of_nat 58) →
  has_byte c (pretty (kind_number k)) = false.
Proof. intros [-> | ->]; by destruct k. Qed.

Lemma kind_number_inj k1 k2 : pretty (kind_number k1) = pretty (kind_number k2) → k1 = k2.
Proof. by destruct k1, k2. Qed.

Lemma queue_key_inj t1 t2 k1 k2 :
  makeQueueConfigKey t1 k1 = makeQueueConfigKey t2 k2 → t1 = t2 ∧ k1 = k2.
Proof.
  unfold makeQueueConfigKey. intros H.
  apply (last_separator (Ascii.ascii_of_nat 45) t1 t2) in H as [-> H]; [|apply kind_number_plain; by left..].
  split; [done|by apply kind_number_inj].
Qed.

(** The configuration of the operation. *)
Definition own_config (k : OpKind) (q : SQSQueueConfig) : option SQSQueueConfig :=
  match k with Insert => sqc_Insert q | Update => sqc_Update q | Delete => sqc_Delete q | SnapshotRead => None end.

Lemma add_tables_lookup tables qm qm' name k :
  NoDup tables.*1 → add_tables tables qm = Ok qm' →
  qm' !! makeQueueConfigKey name k =
    match list_to_map (M := gmap string SQSTableConfig) tables !! name, k with
    | None, _ => qm !! makeQueueConfigKey name k
    | Some _, SnapshotRead => qm !! makeQueueConfigKey name k
    | Some cfg, _ => q ← stc_QueueConfig cfg; Some (newQueueConfig k name q (own_config k q)).2
    end.
Proof.
  revert qm. induction tables as [|[t cfg] r IH]; intros qm Hnd; simpl.
  { by intros [= <-]. }
  apply NoDup_cons in Hnd as [Ht Hnd]. destruct (stc_QueueConfig cfg) as [q|] eqn:Hq; [|done].
  intros H. rewrite (IH _ Hnd H). clear IH H.
  set (K := makeQueueConfigKey name k).
  assert (∀ k', k' ≠ k ∨ t ≠ name → makeQueueConfigKey t k' ≠ K) as Hne
    by (intros k' Hk E; apply queue_key_inj in E; destruct Hk; tauto).
  destruct (decide (t = name)) as [->|Htn].
  - rewrite lookup_insert_eq, not_elem_of_list_to_map_1 by done.
    unfold add_config, K in *. destruct k; cbn [stc_QueueConfig fst snd newQueueConfig]; rewrite ?Hq.
    + rewrite 2!lookup_insert_ne by (apply Hne; by left). by rewrite lookup_insert_eq.
    + rewrite lookup_insert_ne by (apply Hne; by left). by rewrite lookup_insert_eq.
    + by rewrite lookup_insert_eq.
    + by rewrite 3!lookup_insert_ne by (apply Hne; by left).
  - rewrite lookup_insert_ne by done.
    assert (∀ c3 c2 c1, add_config (makeQueueConfigKey t Delete, c3) (add_config (makeQueueConfigKey t Update, c2)
              (add_config (makeQueueConfigKey t Insert, c1) qm)) !! K = qm !! K) as E.
    { intros c3 c2 c1. unfold add_config. simpl. rewrite !lookup_insert_ne by (apply Hne; by right). done. }
    destruct (list_to_map r !! name), k; try done; apply E.
Qed.

(** Every change of a configured table has its queue.  For an insert,
    update or delete of a configured table the mapper finds one configuration,
    whatever order the tables were added in: the queue and group id of the
    operation's own entry when it has one (no queue when it is to be skipped),
    else those of the table; without a name, the queue is named after the
    table; and the operation is written into the message exactly when it has no
    queue of its own.  Other changes have none. *)
Lemma queue_config_exact {Tup} tables qm (e : WriteEntry Tup) :
  NoDup tables.*1 → NewSQSQueueMapper tables = Ok qm →
  match list_to_map (M := gmap string SQSTableConfig) tables !! FullName (we_Table e), Kind e with
  | None, _ | _, SnapshotRead => GetQueueConfig e qm = None
  | Some cfg, k =>
      ∃ q qc, stc_QueueConfig cfg = Some q ∧ GetQueueConfig e qm = Some qc ∧
        let own := own_config k q in
        let skipped := from_option (λ c, EqualFold (sqc_Name c) SkipQueue) false own in
        let named := sqc_Name (default q own) in
        skip qc = skipped ∧ needsOpInJSON qc = bool_decide (own = None) ∧
        queueName qc = (if skipped then EmptyString
                        else if bool_decide (named = EmptyString)
                             then ReplaceAll (FullName (we_Table e)) "." "_" else named) ∧
        groupIDPattern qc = (if bool_decide (sqc_GroupID (default q own) = EmptyString)
                             then sqc_GroupID q else sqc_GroupID (default q own))
  end.
Proof.
  intros Hnd H. unfold GetQueueConfig. rewrite (add_tables_lookup tables ∅ qm _ (Kind e) Hnd H).
  assert (∀ name, list_to_map (M := gmap string SQSTableConfig) tables !! name = None ∨
           ∃ cfg q, list_to_map (M := gmap string SQSTableConfig) tables !! name = Some cfg ∧ stc_QueueConfig cfg = Some q) as Hq.
  { clear e. unfold NewSQSQueueMapper in H. revert H. generalize (∅ : SQSQueueMapper) as qm0.
    induction tables as [|[t cfg] r IH]; intros qm0 H name; simpl in *; [by left|].
    destruct (stc_QueueConfig cfg) as [q|] eqn:Eq; [|done]. apply NoDup_cons in Hnd as [_ Hnd].
    destruct (decide (t = name)) as [->|Hn]; [rewrite lookup_insert_eq; right; eauto|].
    rewrite lookup_insert_ne by done. by eapply IH. }
  destruct (Hq (FullName (we_Table e))) as [->|(cfg & q & -> & Eq)]; [apply lookup_empty|].
  rewrite Eq. destruct (Kind e); try apply lookup_empty; exists q; eexists; (split; [done|split; [done|]]);
    unfold newQueueConfig, own_config; simpl;
    match goal with |- context [from_option _ _ ?o] => destruct o as [c|] end; simpl;
    try (destruct (EqualFold (sqc_Name c) SkipQueue)); simpl; repeat (case_bool_decide; simpl); done.
Qed.

(** ** Deduplication ids *)

Fixpoint all_chars (p : Ascii.ascii → bool) (s : string) : bool :=
  match s with EmptyString => true | String c r => p c && all_chars p r end.

Lemma well_form_valid s n :
  all_chars aws_char (well_form_from s n) = true ∧ (n + String.length (well_form_from s n) ≤ Nat.max n maxGroupIDLen)%nat.
Proof.
  revert n. induction s as [|c r IH]; intros n; cbn [well_form_from]; [split; [done|simpl; lia]|].
  destruct (Nat.leb_spec maxGroupIDLen n); [split; [done|simpl; lia]|].
  destruct (aws_char c) eqn:E; [|apply IH]. cbn [all_chars String.length]. rewrite E.
  destruct (IH (S n)) as [H1 H2]. split; [done|lia].
Qed.

Lemma well_form_short s n :
  all_chars aws_char s = true → (n + String.length s ≤ maxGroupIDLen)%nat → well_form_from s n = s.
Proof.
  revert n. induction s as [|c r IH]; intros n; cbn [well_form_from all_chars String.length]; [done|].
  intros [Hc Hr]%andb_prop Hn.
  destruct (Nat.leb_spec maxGroupIDLen n); [lia|]. rewrite Hc. by rewrite IH by (done || lia).
Qed.

Lemma all_chars_list p s : all_chars p s = true ↔ Forall (λ c, p c = true) (to_list s).
Proof.
  induction s as [|c r IH]; simpl; [split; [constructor|done]|]. rewrite andb_true_iff, IH, Forall_cons. done.
Qed.

Lemma digit_aws i : aws_char (digit b64_alphabet i) = true.
Proof.
  unfold digit. destruct (b64_alphabet !! Z.to_nat i) as [c|] eqn:E; [|done]. simpl.
  assert (forallb aws_char b64_alphabet = true) as H by done. rewrite forallb_forall in H. apply H.
  apply list_elem_of_In. by eapply list_elem_of_lookup_2.
Qed.

Lemma base64_shape l :
  Forall (λ c, aws_char c = true) (base64_encode l) ∧
  ∃ k, (length (base64_encode l) = 4 * k ∧ 3 * k ≤ length l + 2)%nat.
Proof.
  induction l as [l IH] using (induction_ltof1 _ length). unfold ltof in IH.
  destruct l as [|a [|b [|c r]]]; cbn [base64_encode length].
  - split; [constructor|]. exists 0%nat. lia.
  - split; [repeat (constructor; [apply digit_aws || done|]); constructor|]. exists 1%nat. lia.
  - split; [repeat (constructor; [apply digit_aws || done|]); constructor|]. exists 1%nat. lia.
  - destruct (IH r) as (H1 & k & H2 & H3); [simpl; lia|]. split; [|exists (S k); lia].
    repeat (apply Forall_cons; split; [apply digit_aws|]). done.
Qed.

Lemma to_list_of_list l : to_list (of_list l) = l.
Proof. apply to_of_list. Qed.

Lemma length_of_list l : String.length (of_list l) = length l.
Proof. induction l as [|c r IH]; [done|]. simpl. by rewrite IH. Qed.

(** The id of a text of at most 96 bytes is the whole encoding of it. *)
Lemma short_dedup_id text :
  (length (to_list text) ≤ 96)%nat →
  wellFormAWSID (" " +:+ EncodeBinary text BinaryEncodingBase64) = EncodeBinary text BinaryEncodingBase64.
Proof.
  intros Hl. unfold wellFormAWSID. change (" " +:+ ?s) with (String (Ascii.ascii_of_nat 32) s). cbn [well_form_from].
  change (_ <=? 0)%nat with false. change (aws_char (Ascii.ascii_of_nat 32)) with false. cbn match.
  destruct (base64_shape (byte_val <$> to_list text)) as (H1 & k & H2 & H3). rewrite length_fmap in H3.
  apply well_form_short; unfold EncodeBinary.
  - apply all_chars_list. by rewrite to_list_of_list.
  - rewrite length_of_list. unfold maxGroupIDLen. lia.
Qed.

Lemma dedup_text_inj {Tup} (e1 e2 : WriteEntry Tup) x1 x2 :
  0 ≤ x1 → 0 ≤ x2 → FullName (we_Table e1) = FullName (we_Table e2) → dedup_text e1 x1 = dedup_text e2 x2 →
  we_PK e1 = we_PK e2 ∧ Kind e1 = Kind e2 ∧ x1 = x2.
Proof.
  intros H1 H2 Ht E. set (col := Ascii.ascii_of_nat 58).
  assert (∀ (e : WriteEntry Tup) x, dedup_text e x =
    ((FullName (we_Table e) +:+ ":" +:+ we_PK e) +:+ String col (pretty (kind_number (Kind e)))) +:+ String col (pretty x))
    as Hd by (intros e x; unfold dedup_text; by rewrite <- !(assoc_L String.append)).
  assert (∀ x, 0 ≤ x → has_byte col (pretty x) = false) as Hx.
  { intros x Hx. apply digits_no_byte; [unfold is_digit; vm_compute; naive_solver|by apply pretty_nonneg]. }
  rewrite !Hd in E. apply last_separator in E as [E Ex]; [|by apply Hx..].
  apply last_separator in E as [E Ek]; [|apply kind_number_plain; by right..].
  rewrite Ht in E. apply (inj (String.append _)), (inj (String.append _)) in E.
  split_and!; [done|by apply kind_number_inj|by apply (inj pretty)].
Qed.

(** Deduplication ids.  For a FIFO queue the id is a valid one (at most
    128 characters between ! and ~), and as long as table, key, kind and
    transaction fit into 96 bytes, two changes of a table have the same id
    exactly when they are the same kind of change of the same row in the same
    transaction: a repeated message is recognised, a different one never
    dropped.  For other queues there is none. *)
Lemma dedup_id_identifies_change {Tup} qc (e1 e2 : WriteEntry Tup) x1 x2 :
  0 ≤ x1 → 0 ≤ x2 → FullName (we_Table e1) = FullName (we_Table e2) →
  (String.length (dedup_text e1 x1) ≤ 96)%nat → (String.length (dedup_text e2 x2) ≤ 96)%nat →
  match GetDeduplicationID qc e1 x1 with
  | None => fifo qc = false
  | Some id =>
      fifo qc = true ∧ all_chars aws_char id = true ∧ (String.length id ≤ 128)%nat ∧
      (GetDeduplicationID qc e2 x2 = Some id ↔ we_PK e1 = we_PK e2 ∧ Kind e1 = Kind e2 ∧ x1 = x2)
  end.
Proof.
  intros H1 H2 Ht L1 L2. unfold GetDeduplicationID. destruct (fifo qc); [|done]. cbn [negb].
  assert (∀ s, length (to_list s) = String.length s) as Hlen
    by (intros s; induction s as [|c r IH]; [done|]; simpl; by rewrite IH).
  destruct (well_form_valid (" " +:+ EncodeBinary (dedup_text e1 x1) BinaryEncodingBase64) 0) as [Hv Hl].
  unfold maxGroupIDLen in Hl. split_and!; [done|exact Hv|unfold wellFormAWSID; lia|].
  rewrite !short_dedup_id by (by rewrite Hlen). split.
  - intros E%(inj Some). apply (f_equal (λ s, DecodeBinary s BinaryEncodingBase64)) in E.
    cbv beta in E. rewrite !encode_binary_roundtrip in E. injection E as E.
    destruct (dedup_text_inj e1 e2 x1 x2) as (-> & -> & ->); done.
  - intros (E1 & E2 & ->). unfold dedup_text. by rewrite Ht, E1, E2.
Qed.

(** ** Concrete queues *)

Module Samples.
Definition entry (pk : string) (k : OpKind) : WriteEntry Tup :=
  mkWE None None pk k (MakeTableName "public" "users") 0.
Definition users_queue : SQSQueueConfig :=
  mkSQC EmptyString EmptyString (Some (mkSQC "users.fifo" EmptyString None None None EmptyString)) None
        (Some (mkSQC "SKIP" EmptyString None None None EmptyString)) "${%table%}-${id}".
Definition tables : list (string * SQSTableConfig) := [("public.users", mkSTC ["id"] (Some users_queue))].
Definition mapper : SQSQueueMapper := match NewSQSQueueMapper tables with Ok m => m | _ => ∅ end.
Definition fifo_config : TableQueueConfig := mkTQC "public.users" "users.fifo" "url" true false false EmptyString.

Lemma queue_config_exact_witness : ∃ qc, GetQueueConfig (entry "7" Insert) mapper = Some qc ∧ queueName qc = "users.fifo".
Proof.
  pose proof (queue_config_exact tables mapper (entry "7" Insert) ltac:(repeat constructor; set_solver) eq_refl) as H.
  simpl in H. destruct H as (q & qc & [= <-] & H1 & _ & _ & H2 & _). exists qc. split; [exact H1|exact H2].
Defined.

Lemma dedup_id_identifies_change_witness :
  GetDeduplicationID fifo_config (entry "8" Insert) 5 ≠ GetDeduplicationID fifo_config (entry "7" Insert) 5.
Proof.
  pose proof (dedup_id_identifies_change fifo_config (entry "7" Insert) (entry "8" Insert) 5 5) as H.
  destruct (GetDeduplicationID fifo_config (entry "7" Insert) 5) as [id|] eqn:E; [|discriminate E].
  intros E2. destruct H as (_ & _ & _ & H); [lia|lia|reflexivity|vm_compute; lia|vm_compute; lia|].
  apply H in E2 as [E2 _]. discriminate E2.
Defined.

(** Long keys are cut off: two rows whose keys differ only at the end have the
    same id, and SQS drops the second message. *)
Definition long_key (last : string) : string := of_list (replicate 100 (Ascii.ascii_of_nat 97)) +:+ last.
Example long_keys_collide :
  GetDeduplicationID fifo_config (entry (long_key "1") Insert) 5 =
  GetDeduplicationID fifo_config (entry (long_key "2") Insert) 5.
Proof. vm_compute. reflexivity. Qed.

(** A column named in another case is accepted by the validation but not
    replaced. *)
Definition upper_config : TableQueueConfig := mkTQC "public.users" "users.fifo" "url" true false false "${ID}".
Definition row : Tup := match OMap.Set_ "id" (VInt 32 7) (OMap.New VNil (KeyMap.New ["id"])) with
                        | Ok t => t | _ => OMap.New VNil (KeyMap.New ["id"]) end.
Example validated_but_not_replaced :
  ValidateMessageGroupID ["id"] upper_config = [] ∧
  GetMessageGroupID (λ _, "7") upper_config (with_Tuple (Some row) (entry "7" Insert)) 5 = Ok (Some "${ID}").
Proof. split; vm_compute; reflexivity. Qed.

(** Only one of a table's three configurations is validated, whichever comes
    first: the same configuration is accepted or refused by chance. *)
Definition bad_insert : TableQueueConfig := mkTQC "public.users" "q" EmptyString false false false "${nope}".
Definition good_update : TableQueueConfig := mkTQC "public.users" "q" EmptyString false false false "${id}".
Example validation_depends_on_order :
  ValidateConfig [good_update; bad_insert] {["public.users" := ["id"]]} = [] ∧
  ValidateConfig [bad_insert; good_update] {["public.users" := ["id"]]} = [("public.users", Some "nope")].
Proof. split; vm_compute; reflexivity. Qed.

(** A queue that is to be skipped is a queue without a name. *)
Example skipped_queue : (λ qc, (queueName qc, skip qc)) <$> GetQueueConfig (entry "7" Delete) mapper = Some (EmptyString, true).
Proof. vm_compute. reflexivity. Qed.
End Samples.
