(* ===== verification/SQSWriter.v ===== *)
(** * The SQS writer

    - [Message]: the JSON of a row, the rows of a request on their way to the
      worker ([getJSON], [enqueueOrWrite] of src/pg2sqs/sqs_writer.go and
      [Write] of src/pg2sqs/listener_sqs.go);
    - [Flush]: a batch as one call of [SendMessageBatch] and its answers
      ([sqsQueueBatchBuffer.flushBatch]);
    - [Queues]: the worker that collects the rows of each queue into batches
      ([runWorker]), with the flushing workers of src/parallelio.

    SQS is not part of the program: the ids drawn for messages and the answer
    of SQS are arguments. *)

From stdpp Require Import base numbers list gmap strings pretty sorting.
From S2P Require Import Prelude GoStrings ParallelIO OrderedMap PgSchema Decode PgWal BufferedListener SQSMapper.

Notation entry_t := (WriteEntry Tup).

Record sqsBatchEntry := mkSBE {
  s_LSN : Z; s_XID : Z; s_Table : TableName; s_PK : string; s_Offset : Z;
  s_queueConfig : TableQueueConfig; s_message : string;
  s_deduplicationID : option string; s_groupID : option string }.

(** ** Messages *)

Module Message.

(** Overwrites the column of that name, or adds a pair behind the columns. *)
Definition put_value (key : string) (v : goval) (t : Tup) (custom : list (string * goval))
    : res (Tup * list (string * goval)) :=
  '(_, exists_) ← OMap.Get VNil key t;
  if (exists_ : bool) then t ← OMap.Set_ key v t; Ok (t, custom) else Ok (t, custom ++ [(key, v)]).

(** The pairs of an object with the value of a key replaced, or the pair added. *)
Fixpoint overlay (k : string) (v : goval) (ps : list (string * goval)) : list (string * goval) :=
  match ps with
  | [] => [(k, v)]
  | p :: r => if decide (p.1 = k) then (k, v) :: r else p :: overlay k v r
  end.

Definition columns (t : Tup) : list (string * goval) := OMap.select (KeyMap.Keys (OMap.keyMap t)) t.

Lemma overlay_absent k v ps : k ∉ ps.*1 → overlay k v ps = ps ++ [(k, v)].
Proof.
  induction ps as [|[k' v'] r IH]; simpl; [done|]. intros Hk. rewrite decide_False by set_solver. rewrite IH by set_solver. done.
Qed.

Lemma select_keys k keys (t : Tup) : k ∈ (OMap.select keys t).*1 → is_Some (OMap.abs t !! k) ∧ k ∈ keys.
Proof.
  unfold OMap.select. intros ([k' v] & -> & H)%list_elem_of_fmap. apply list_elem_of_omap in H as (x & Hx & Hv).
  apply fmap_Some in Hv as (v' & Hv & [= -> ->]). split; [by eexists|done].
Qed.

Lemma overlay_select k v keys (t t' : Tup) ps :
  NoDup keys → k ∈ keys → is_Some (OMap.abs t !! k) → OMap.abs t' = <[k := v]> (OMap.abs t) →
  overlay k v (OMap.select keys t ++ ps) = OMap.select keys t' ++ ps.
Proof.
  intros Hnd Hk [w Hw] E. unfold OMap.select. revert Hk. induction Hnd as [|x keys Hx Hnd IH]; intros Hk; [set_solver|].
  cbn [omap list_omap]. rewrite E. destruct (decide (x = k)) as [->|Hne].
  - rewrite Hw, lookup_insert_eq. simpl. rewrite decide_True by done. f_equal. f_equal.
    apply list_omap_ext, Forall_Forall2_diag, Forall_forall. intros y Hy. rewrite lookup_insert_ne by set_solver. done.
  - rewrite lookup_insert_ne by done. specialize (IH ltac:(set_solver)). rewrite E in IH.
    destruct (OMap.abs t !! x) as [u|]; simpl; [|exact IH]. rewrite decide_False by done. f_equal. exact IH.
Qed.

Lemma put_value_spec k v t custom :
  OMap.wf VNil t → NoDup (KeyMap.Keys (OMap.keyMap t)) → k ∉ custom.*1 →
  ∃ t' custom', put_value k v t custom = Ok (t', custom') ∧ OMap.wf VNil t' ∧ OMap.keyMap t' = OMap.keyMap t ∧
    (∀ c, c ∈ custom'.*1 → c ∈ custom.*1 ∨ c = k) ∧
    columns t' ++ custom' = overlay k v (columns t ++ custom).
Proof.
  intros Hwf Hnd Hk. unfold put_value. rewrite OMap.Get_abs by done. destruct (OMap.abs t !! k) as [w|] eqn:E; res_step.
  - pose proof E as Ek. rewrite OMap.abs_lookup in Ek. apply bind_Some in Ek as (z & Hz & _).
    destruct (KeyMap.wf_index _ (OMap.wf_km _ _ Hwf) _ _ Hz) as (i & _ & Hi).
    apply list_elem_of_lookup_2 in Hi. destruct (OMap.Set_put VNil t k v Hwf Hi) as (j & -> & Hj & Hm). res_step.
    exists (OMap.put j v t), custom. split_and!; [done|by eapply OMap.put_wf|done|by left|].
    unfold columns. symmetry. apply overlay_select; [done|done|by eexists|by eapply OMap.put_abs].
  - exists t, (custom ++ [(k, v)]). split_and!; [done|done|done| |].
    + intros c. rewrite fmap_app. set_solver.
    + rewrite overlay_absent; [app_assoc|]. rewrite fmap_app, not_elem_of_app. split; [|done].
      intros [[? H] _]%select_keys. congruence.
Qed.

Lemma replace_macros_Ok f s n : (∀ m, is_Ok (f m)) → is_Ok (replace_macros f s n).
Proof.
  intros Hf. revert n. induction s as [|c r IH]; intros n; cbn [replace_macros]; [by eexists|].
  destruct n as [|n]; [|apply IH]. destruct (macro_at (String c r)) as [m|].
  - destruct (Hf m) as [v ->]. res_step. destruct (IH (2 + String.length m)%nat) as [x ->]. by eexists.
  - destruct (IH 0%nat) as [x ->]. by eexists.
Qed.

Section message.
Context (fmtv : goval → string) (enc_key : string → res string) (enc_val : goval → res string).
Context (txOpts : TxCommitTimeOptions).

Definition kind_name (k : OpKind) : string :=
  match k with Insert => "insert" | Update => "update" | Delete => "delete" | SnapshotRead => EmptyString end.

(** The JSON and the row, which the overwritten columns change. *)
Definition getJSON (e : entry_t) (commitTime : gotime) (needsOp : bool) : res (string * entry_t) :=
  match Tuple e with
  | None => Panic "nil dereference"
  | Some t =>
      '(t, custom) ← (if Save txOpts then put_value (tco_Name txOpts) (VString (RFC3339Nano commitTime)) t []
                      else Ok (t, []));
      '(t, custom) ← (if needsOp && negb (bool_decide (kind_name (Kind e) = EmptyString))
                      then put_value "kind" (VString (kind_name (Kind e))) t custom else Ok (t, custom));
      match OMap.CustomMarshalJSON enc_key enc_val None custom t with
      | Err err => Err (GoWrap "failed to marshal JSON" err)
      | r => j ← r; Ok (j, with_Tuple (Some t) e)
      end
  end.

(** The loop of [enqueueOrWrite]: what was given to the worker, and the error
    that ended it.  (A queue that is to be skipped is not treated apart.) *)
Fixpoint enqueue_entries (qm : SQSQueueMapper) (lsn xid : Z) (commitTime : gotime) (es : list entry_t)
    : res (list sqsBatchEntry * option goerr) :=
  match es with
  | [] => Ok ([], None)
  | e :: r =>
      match GetQueueConfig e qm with
      | None => Ok ([], Some (GoWrap "table configuration not found" (GoErr (FullName (we_Table e)))))
      | Some tableCfg =>
          match getJSON e commitTime (needsOpInJSON tableCfg) with
          | Err err => Ok ([], Some err)
          | j =>
              '(j, e) ← j;
              groupID ← GetMessageGroupID fmtv tableCfg e xid;
              '(rest, err) ← enqueue_entries qm lsn xid commitTime r;
              Ok (mkSBE lsn xid (we_Table e) (we_PK e) (Offset e) tableCfg j
                        (GetDeduplicationID tableCfg e xid) groupID :: rest, err)
          end
      end
  end.

(** What a call of [Write] does: rows for the worker and answers. *)
Inductive written := Written (queued : list sqsBatchEntry) (ok : option Response) (failed : option ErrResponse).

Definition SQSError (reason : goerr) : WriterError :=
  mkWErr (error_text reason) true (errors_Is reason "circuit open").

Definition Write (qm : SQSQueueMapper) (civil : option Z → gotime) (req : WriteRequest Tup) : res written :=
  match Entries req with
  | [] => Ok (Written [] (Some (mkResp [mkRE EmptyString (mkTN EmptyString EmptyString EmptyString)
                                            (LSN req) (XID req) 0] 0)) None)
  | es =>
      '(queued, err) ← enqueue_entries qm (LSN req) (XID req) (civil (CommitTime req)) es;
      Ok (Written queued None
            ((λ err, mkErrResp ((λ e, mkERE (mkRE (we_PK e) (we_Table e) (LSN req) (XID req) (Offset e))
                                            (SQSError err)) <$> es)) <$> err))
  end.

(** *** The message of a row *)

(** The object a message carries: the columns, with the commit time and the
    kind of the change. *)
Definition message_pairs (e : entry_t) (t : Tup) (commitTime : gotime) (needsOp : bool) : list (string * goval) :=
  let ps := columns t in
  let ps := if Save txOpts then overlay (tco_Name txOpts) (VString (RFC3339Nano commitTime)) ps else ps in
  if needsOp && negb (bool_decide (kind_name (Kind e) = EmptyString))
  then overlay "kind" (VString (kind_name (Kind e))) ps else ps.

Lemma getJSON_object e t commitTime needsOp :
  Tuple e = Some t → OMap.wf VNil t → NoDup (KeyMap.Keys (OMap.keyMap t)) → tco_Name txOpts ≠ "kind" →
  ∃ t', OMap.wf VNil t' ∧ OMap.keyMap t' = OMap.keyMap t ∧
    getJSON e commitTime needsOp =
      match OMap.json_object enc_key enc_val (message_pairs e t commitTime needsOp) with
      | Err err => Err (GoWrap "failed to marshal JSON" err)
      | r => j ← r; Ok (j, with_Tuple (Some t') e)
      end.
Proof using Type.
  intros Ht Hwf Hnd Hname. unfold getJSON, message_pairs. rewrite Ht.
  assert (∃ t1 c1, (if Save txOpts then put_value (tco_Name txOpts) (VString (RFC3339Nano commitTime)) t [] else Ok (t, [])) =
      Ok (t1, c1) ∧ OMap.wf VNil t1 ∧ OMap.keyMap t1 = OMap.keyMap t ∧ "kind" ∉ c1.*1 ∧
      columns t1 ++ c1 = if Save txOpts then overlay (tco_Name txOpts) (VString (RFC3339Nano commitTime)) (columns t)
                         else columns t) as (t1 & c1 & E1 & W1 & K1 & N1 & P1).
  { destruct (Save txOpts).
    - destruct (put_value_spec (tco_Name txOpts) (VString (RFC3339Nano commitTime)) t [] Hwf Hnd) as (t1 & c1 & E & W & K & S & P);
        [by apply not_elem_of_nil|]. exists t1, c1. rewrite app_nil_r in P. split_and!; try done.
      intros [H|H]%S; [by apply elem_of_nil in H|done].
    - exists t, []. rewrite app_nil_r. split_and!; try done. by apply not_elem_of_nil. }
  rewrite E1, <- P1. res_step. rewrite <- K1 in Hnd. destruct (needsOp && _).
  - destruct (put_value_spec "kind" (VString (kind_name (Kind e))) t1 c1 W1 Hnd N1) as (t2 & c2 & -> & W2 & K2 & _ & <-).
    res_step. exists t2. split_and!; [done|congruence|]. by rewrite (OMap.CustomMarshalJSON_object VNil).
  - res_step. exists t1. split_and!; [done|done|]. by rewrite (OMap.CustomMarshalJSON_object VNil).
Qed.

(** The message of a row is the JSON object of its columns in their order,
    where the commit time (when it is to be saved) and the kind of the change
    (when the queue serves several kinds) replace the column of their name or
    stand behind the columns; an error of the encoder is passed on. *)
Lemma sqs_message_object e t commitTime needsOp :
  Tuple e = Some t → OMap.wf VNil t → NoDup (KeyMap.Keys (OMap.keyMap t)) → tco_Name txOpts ≠ "kind" →
  match OMap.json_object enc_key enc_val (message_pairs e t commitTime needsOp) with
  | Err err => getJSON e commitTime needsOp = Err (GoWrap "failed to marshal JSON" err)
  | Ok j => ∃ e', getJSON e commitTime needsOp = Ok (j, e') ∧
      we_PK e' = we_PK e ∧ we_Table e' = we_Table e ∧ Kind e' = Kind e ∧ Offset e' = Offset e ∧ PrevTuple e' = PrevTuple e
  | Panic m => getJSON e commitTime needsOp = Panic m
  | Fatal m => getJSON e commitTime needsOp = Fatal m
  end.
Proof using Type.
  intros Ht Hwf Hnd Hn. destruct (getJSON_object e t commitTime needsOp Ht Hwf Hnd Hn) as (t' & _ & _ & ->).
  destruct (OMap.json_object _ _ _); try done. by eexists.
Qed.

(** *** What becomes of a request *)

Lemma GetMessageGroupID_Ok qc e t xid : Tuple e = Some t → OMap.wf VNil t → is_Ok (GetMessageGroupID fmtv qc e xid).
Proof using Type.
  intros Ht Hwf. unfold GetMessageGroupID. case_bool_decide; [by eexists|].
  destruct (replace_macros_Ok (macro_value fmtv e xid) (groupIDPattern qc) 0) as [x ->]; [|by eexists].
  intros m. unfold macro_value. repeat case_bool_decide; try by eexists. rewrite Ht, OMap.Get_abs by done. destruct (OMap.abs t !! m); by eexists.
Qed.

(** Rows as the listener sends them. *)
Definition sendable (e : entry_t) : Prop :=
  ∃ t, Tuple e = Some t ∧ OMap.wf VNil t ∧ NoDup (KeyMap.Keys (OMap.keyMap t)).

(** Encoders return a value or an error. *)
Definition no_crash {B} (r : res B) : Prop := match r with Ok _ | Err _ => True | _ => False end.
Context (Hkey : ∀ k, no_crash (enc_key k)) (Hval : ∀ v, no_crash (enc_val v)).

Lemma json_object_no_crash ps : no_crash (OMap.json_object enc_key enc_val ps).
Proof using Hkey Hval.
  unfold OMap.json_object. assert (no_crash (OMap.mapR (OMap.enc_pair enc_key enc_val) ps)) as H.
  { induction ps as [|[k v] r IH]; [done|]. cbn [OMap.mapR].
    assert (no_crash (OMap.enc_pair enc_key enc_val (k, v))) as Hp.
    { unfold OMap.enc_pair. simpl. specialize (Hkey k). specialize (Hval v). by destruct (enc_key k), (enc_val v). }
    destruct (OMap.enc_pair enc_key enc_val (k, v)), (OMap.mapR _ r); done. }
  by destruct (OMap.mapR _ ps).
Qed.

Definition row_answer (lsn xid : Z) (e : entry_t) : ResponseEntry := mkRE (we_PK e) (we_Table e) lsn xid (Offset e).
Definition sbe_answer (b : sqsBatchEntry) : ResponseEntry :=
  mkRE (s_PK b) (s_Table b) (s_LSN b) (s_XID b) (s_Offset b).

Lemma enqueue_entries_spec qm lsn xid ct es :
  tco_Name txOpts ≠ "kind" → Forall sendable es →
  ∃ queued err, enqueue_entries qm lsn xid ct es = Ok (queued, err) ∧
    ∃ n, sbe_answer <$> queued = take n (row_answer lsn xid <$> es) ∧ (err = None ↔ n = length es) ∧ (n ≤ length es)%nat ∧
      Forall2 (λ b e, GetQueueConfig e qm = Some (s_queueConfig b)) queued (take n es).
Proof using Hkey Hval.
  intros Hname. induction 1 as [|e es (t & Ht & Hwf & Hnd) _ IH].
  { exists [], None. split; [done|]. exists 0%nat. split_and!; try done. }
  cbn [enqueue_entries]. destruct (GetQueueConfig e qm) as [cfg|] eqn:Ec.
  2: { eexists [], _. split; [done|]. exists 0%nat. split_and!; [done|done|lia|constructor]. }
  destruct (getJSON_object e t ct (needsOpInJSON cfg) Ht Hwf Hnd Hname) as (t' & Hwf' & Hk' & ->).
  pose proof (json_object_no_crash (message_pairs e t ct (needsOpInJSON cfg))) as Hnc.
  destruct (OMap.json_object _ _ _) as [j|err| |]; [|eexists [], _; split; [done|]; exists 0%nat; split_and!; [done|done|lia|constructor]|done..].
  res_step. destruct (GetMessageGroupID_Ok cfg (with_Tuple (Some t') e) t' xid eq_refl Hwf') as [g ->]. res_step.
  destruct IH as (queued & err & -> & n & H1 & H2 & H3 & H4). res_step. eexists (_ :: queued), err. split; [done|].
  exists (S n). simpl. split_and!; [by f_equal| |lia|by constructor]. rewrite H2. split; lia.
Qed.

(** A request to SQS leaves no row behind.  An empty request is acknowledged
    at once; otherwise either every row is given to the worker, with the queue
    of its table and operation, and nothing is answered yet, or a row has no
    queue or no JSON, and every row of the request is reported as failed with
    an error that may be retried (those before it were given to the worker
    nonetheless).  The call never panics. *)
Lemma sqs_write_leaves_no_row qm civil req :
  tco_Name txOpts ≠ "kind" → Forall sendable (Entries req) →
  ∃ queued ok failed, Write qm civil req = Ok (Written queued ok failed) ∧
    let rows := row_answer (LSN req) (XID req) <$> Entries req in
    (Entries req = [] → queued = [] ∧ failed = None ∧ ∃ r, ok = Some r ∧ length (r_Entries r) = 1%nat) ∧
    (Entries req ≠ [] → ok = None ∧
       (failed = None → sbe_answer <$> queued = rows ∧
          Forall2 (λ b e, GetQueueConfig e qm = Some (s_queueConfig b)) queued (Entries req)) ∧
       (∀ f, failed = Some f → ere_Entry <$> er_Entries f = rows ∧
          Forall (λ r, IsRetryable (Reason r) = true) (er_Entries f) ∧
          ∃ n, (n < length rows)%nat ∧ sbe_answer <$> queued = take n rows)).
Proof using Hkey Hval.
  intros Hname Hes. unfold Write. destruct (Entries req) as [|e0 es0] eqn:Ees.
  { eexists [], _, None. split; [done|]. split; [|done]. intros _. split_and!; try done. by eexists. }
  rewrite <- Ees in *. destruct (enqueue_entries_spec qm (LSN req) (XID req) (civil (CommitTime req)) (Entries req) Hname Hes)
    as (queued & err & -> & n & H1 & H2 & H3 & H4). res_step. eexists queued, None, _. split; [done|]. cbv zeta.
  split; [by rewrite Ees|]. intros _. split_and!; [done|..].
  - destruct err; [done|]. intros _. assert (n = length (Entries req)) as -> by by apply H2.
    rewrite firstn_all in H4. split; [|done]. rewrite H1.
    apply take_ge. by rewrite length_fmap.
  - intros f Hf. destruct err as [err|]; [|done]. injection Hf as <-. cbn [er_Entries].
    rewrite <- list_fmap_compose. split_and!; [done|by apply Forall_fmap, Forall_forall|].
    exists n. rewrite length_fmap. split; [|done]. destruct H2 as [_ H2]. destruct (decide (n = length (Entries req))) as [E|]; [|lia].
    by specialize (H2 E).
Qed.
End message.
End Message.

(** ** Flushing a batch *)

Module Flush.

Definition maxBatchSizeInSQS : Z := 10.

(** A failed entry of the response. SQS promises an id and a code; the message
    is optional. All three are pointers. *)
Record failedEntry := mkFE {
  fe_Id : option string; fe_Code : option string; fe_Message : option string; fe_SenderFault : bool }.

(** [*p]. *)
Definition deref {X} (p : option X) : res X :=
  match p with Some x => Ok x | None => Panic "nil dereference" end.

Definition flushError (code message : string) (senderFault : bool) : WriterError :=
  mkWErr (code +:+ ": " +:+ message) (negb senderFault) false.
Definition sqsSendError (reason : string) : WriterError := mkWErr reason true true.

Definition answer_of (b : sqsBatchEntry) : ResponseEntry :=
  mkRE (s_PK b) (s_Table b) (s_LSN b) (s_XID b) (s_Offset b).

(** The loop over the entries: each gets an id and a place in the batch, which
    has room for ten. *)
Fixpoint fill_batch (i : Z) (ids : list string) (es : list sqsBatchEntry) (m : gmap string sqsBatchEntry)
    : res (gmap string sqsBatchEntry) :=
  match es, ids with
  | e :: es, id :: ids =>
      if bool_decide (i < maxBatchSizeInSQS) then fill_batch (i + 1) ids es (<[id := e]> m)
      else Panic "index out of range"
  | _, _ => Ok m
  end.

(** [processFailuresFromSQSResponse]: the error entries and the messages left.
    The id, the code and the message of an entry are dereferenced for the log
    before the id is looked up; an id that is not (or no longer) known ends the
    process. *)
Fixpoint process_failed (failed : list failedEntry) (m : gmap string sqsBatchEntry)
    : res (list ErrorResponseEntry * gmap string sqsBatchEntry) :=
  match failed with
  | [] => Ok ([], m)
  | f :: r =>
      id ← deref (fe_Id f); code ← deref (fe_Code f); message ← deref (fe_Message f);
      match m !! id with
      | None => Fatal "got unknown ID from SQS"
      | Some e =>
          '(errs, m) ← process_failed r (delete id m);
          Ok (mkERE (answer_of e) (flushError code message (fe_SenderFault f)) :: errs, m)
      end
  end.

(** What an entry says when none of its pointers is nil, and the id it names. *)
Definition details (f : failedEntry) : option (string * string * string) :=
  id ← fe_Id f; code ← fe_Code f; message ← fe_Message f; Some (id, code, message).
Definition named (f : failedEntry) : option string := (λ d, d.1.1) <$> details f.

Lemma fill_batch_spec ids es i m :
  NoDup ids → length ids = length es → i + Z.of_nat (length es) ≤ maxBatchSizeInSQS → (∀ id, id ∈ ids → m !! id = None) →
  ∃ m', fill_batch i ids es m = Ok m' ∧ map_to_list m' ≡ₚ map_to_list m ++ zip ids es.
Proof.
  revert ids i m. induction es as [|e es IH]; intros [|id ids] i m Hn Hl Hi Hm; try done.
  - exists m. by rewrite app_nil_r.
  - simpl in *. apply NoDup_cons in Hn as [Hid Hn]. rewrite bool_decide_true by lia.
    destruct (IH ids (i + 1) (<[id := e]> m)) as (m' & -> & HP); [done|lia|lia| |].
    { intros k Hk. rewrite lookup_insert_ne by (intros ->; done). apply Hm. by right. }
    exists m'. split; [done|]. rewrite HP, map_to_list_insert by (apply Hm; by left). simpl. by rewrite Permutation_middle.
Qed.

(** The failed entries are complete and name ids of the batch, each once. *)
Definition acceptable (failed : list failedEntry) (ids : list string) : Prop :=
  NoDup (named <$> failed) ∧ Forall (λ o, o ∈ Some <$> ids) (named <$> failed).
#[global] Instance acceptable_dec failed ids : Decision (acceptable failed ids).
Proof. unfold acceptable. apply _. Defined.

(** The same for the messages that are left. *)
Definition accepted (m : gmap string sqsBatchEntry) (failed : list failedEntry) : Prop :=
  NoDup (named <$> failed) ∧ Forall (λ o, ∃ id, o = Some id ∧ is_Some (m !! id)) (named <$> failed).

Lemma accepted_cons m f r :
  accepted m (f :: r) ↔ ∃ id, named f = Some id ∧ is_Some (m !! id) ∧ accepted (delete id m) r.
Proof.
  unfold accepted. rewrite fmap_cons, NoDup_cons, Forall_cons. split.
  - intros ((Hf & Hn) & (id & E & Hid) & Hr). exists id. split_and!; [done|done|done|].
    rewrite Forall_forall in Hr |- *. intros o Ho. destruct (Hr o Ho) as (id' & -> & H'). exists id'. split; [done|].
    rewrite lookup_delete_ne; [done|]. intros ->. apply Hf. by rewrite E.
  - intros (id & E & Hid & Hn & Hr). rewrite Forall_forall in Hr. split_and!; [|done|by exists id|].
    + rewrite E. intros Hin. destruct (Hr _ Hin) as (id' & [= <-] & H'). rewrite lookup_delete_eq in H'. by destruct H'.
    + rewrite Forall_forall. intros o Ho. destruct (Hr o Ho) as (id' & -> & [e He]). exists id'. split; [done|].
      apply lookup_delete_Some in He as [_ He]. by eexists.
Qed.

(** One round of the loop over a complete entry. *)
Lemma process_failed_named f r m id code message :
  details f = Some (id, code, message) →
  process_failed (f :: r) m =
    match m !! id with
    | None => Fatal "got unknown ID from SQS"
    | Some e => '(errs, m) ← process_failed r (delete id m);
                Ok (mkERE (answer_of e) (flushError code message (fe_SenderFault f)) :: errs, m)
    end.
Proof.
  unfold details. destruct f as [i c msg s]. simpl. intros H.
  apply bind_Some in H as (? & -> & (? & -> & (? & -> & [= -> -> ->])%bind_Some)%bind_Some). done.
Qed.

Lemma process_failed_unnamed f r m : named f = None → process_failed (f :: r) m = Panic "nil dereference".
Proof. destruct f as [[i|] [c|] [msg|] s]; done. Qed.

Lemma named_details f id : named f = Some id → ∃ code message, details f = Some (id, code, message).
Proof. unfold named. intros ([[i c] msg] & E & ->)%fmap_Some. by exists c, msg. Qed.

Definition answers_failed (m : gmap string sqsBatchEntry) (f : failedEntry) (r : ErrorResponseEntry) : Prop :=
  ∃ id code message e, details f = Some (id, code, message) ∧ m !! id = Some e ∧
    r = mkERE (answer_of e) (flushError code message (fe_SenderFault f)).

Lemma process_failed_ok failed m :
  accepted m failed →
  ∃ errs m', process_failed failed m = Ok (errs, m') ∧ Forall2 (answers_failed m) failed errs ∧
    (ere_Entry <$> errs) ++ (answer_of <$> (map_to_list m').*2) ≡ₚ answer_of <$> (map_to_list m).*2.
Proof.
  revert m. induction failed as [|f r IH]; intros m Hk.
  - exists [], m. split_and!; [done|constructor|done].
  - apply accepted_cons in Hk as (id & (code & message & Ed)%named_details & [e He] & Hk).
    rewrite (process_failed_named f r m id code message Ed), He. destruct (IH _ Hk) as (errs & m' & -> & HF & HP).
    res_step. eexists _, m'. split_and!; [done| |].
    + constructor; [by eexists _, _, _, _|]. eapply Forall2_impl; [exact HF|].
      intros g er (id' & c & msg & e' & E1 & E2 & E3). exists id', c, msg, e'. split_and!; [done| |done].
      apply lookup_delete_Some in E2. tauto.
    + simpl. rewrite HP, <- (map_to_list_delete m id e He). done.
Qed.

(** What stops the loop: the first entry that is not complete, is not known or
    is named again. *)
Definition stopped_by {X} (f : failedEntry) : res X :=
  match named f with None => Panic "nil dereference" | Some _ => Fatal "got unknown ID from SQS" end.

Lemma process_failed_stopped pre f post m :
  accepted m pre → ¬ accepted m (pre ++ [f]) → process_failed (pre ++ f :: post) m = stopped_by f.
Proof.
  revert m. induction pre as [|g pre IH]; intros m Hp Hf; cbn [app] in *.
  - unfold stopped_by. destruct (named f) as [id|] eqn:En; [|by apply process_failed_unnamed].
    pose proof (named_details f id En) as (code & message & Ed). rewrite (process_failed_named f _ m id code message Ed).
    destruct (m !! id) as [e|] eqn:He; [|done]. destruct Hf. apply accepted_cons. exists id.
    split_and!; [done|by eexists|split; constructor].
  - apply accepted_cons in Hp as (id & En & [e He] & Hp). pose proof (named_details g id En) as (code & message & Ed).
    rewrite (process_failed_named g _ m id code message Ed), He, IH; [unfold stopped_by; by destruct (named f)|done|].
    intros H. apply Hf, accepted_cons. exists id. split_and!; [done|by eexists|done].
Qed.

(** The call failed: every row of the batch is to be sent again. *)
Definition processFailureFromSend (currentEntries : list sqsBatchEntry) (reason : string) : ErrResponse :=
  mkErrResp ((λ e, mkERE (answer_of e) (sqsSendError reason)) <$> currentEntries).

(** What a flush tells the tracker: perhaps errors, perhaps a success. *)
Record flushed := mkFlushed { f_errors : option ErrResponse; f_ok : option Response; f_maxXID : Z }.

(** The messages of a batch and their ids. *)
Lemma batch_place ids es (m : gmap string sqsBatchEntry) id e :
  map_to_list m ≡ₚ zip ids es → m !! id = Some e → ∃ i, ids !! i = Some id ∧ es !! i = Some e.
Proof.
  intros HP He. apply elem_of_map_to_list in He. rewrite HP in He. apply list_elem_of_lookup in He as [i Hi].
  rewrite lookup_zip_with in Hi. apply bind_Some in Hi as (? & ? & (? & ? & [= -> ->])%bind_Some). by exists i.
Qed.

Lemma accepted_batch ids es (m : gmap string sqsBatchEntry) failed :
  length ids = length es → map_to_list m ≡ₚ zip ids es → acceptable failed ids ↔ accepted m failed.
Proof.
  intros Hl HP. unfold acceptable, accepted. apply and_iff_compat_l. apply Forall_iff. intros o.
  rewrite list_elem_of_fmap. apply exist_proper. intros id. apply and_iff_compat_l. split.
  - intros [i Hi]%list_elem_of_lookup. destruct (lookup_lt_is_Some_2 es i) as [e He]; [rewrite <- Hl; by eapply lookup_lt_Some|].
    exists e. apply elem_of_map_to_list. rewrite HP. apply list_elem_of_lookup. exists i. by rewrite lookup_zip_with, Hi, He.
  - intros [e He]. destruct (batch_place ids es m id e HP He) as (i & Hi & _). by eapply list_elem_of_lookup_2.
Qed.

Lemma first_unacceptable failed ids :
  acceptable failed ids ∨ ∃ pre f post, failed = pre ++ f :: post ∧ acceptable pre ids ∧ ¬ acceptable (pre ++ [f]) ids.
Proof.
  induction failed as [|f failed IH] using rev_ind; [left; split; constructor|].
  destruct IH as [H|(pre & g & post & -> & Hp & Hf)].
  - destruct (decide (acceptable (failed ++ [f]) ids)) as [Hd|Hd]; [by left|]. right. by exists failed, f, [].
  - right. exists pre, g, (post ++ [f]). split_and!; [|done|done]. by rewrite <- app_assoc.
Qed.

Section flush.
(** The order in which the map of messages is ranged over. *)
Context (enum : gmap string sqsBatchEntry → list (string * sqsBatchEntry)).

(** [reply] is the answer of [SendMessageBatch]: the text of its error, or the
    entries that failed. *)
Definition flushBatch (ids : list string) (es : list sqsBatchEntry) (reply : string + list failedEntry) : res flushed :=
  m ← fill_batch 0 ids es ∅;
  match reply with
  | inl err =>
      Ok (mkFlushed (Some (processFailureFromSend es ("SendMessageBatch error: " +:+ err))) None
                    (foldl (λ x e, Z.max x (s_XID e)) 0 es))
  | inr failed =>
      '(errs, m) ← process_failed failed m;
      let left_ := (enum m).*2 in
      Ok (mkFlushed (match failed with [] => None | _ => Some (mkErrResp errs) end)
                    (Some (mkResp (answer_of <$> left_) 0))
                    (foldl (λ x e, Z.max x (s_XID e)) 0 left_))
  end.

Context (Henum : ∀ m, enum m ≡ₚ map_to_list m).

(** C31: what a flush tells the tracker about the rows of its batch.  When the
    call fails, every row is reported as failed, with an error that may be
    retried.  Otherwise, when the entries SQS names as failed carry an id, a code
    and a message and their ids are ids of the batch, each named once, every row
    is answered exactly once: the named ones as failed, in the order of SQS's
    list and retryable unless SQS blames the sender, and all others as written.
    The first entry that breaks this ends the process with no row answered: a
    panic when its id, code or message is missing, a fatal error when its id is
    unknown or named before.  The batch never overruns its ten places. *)
Theorem sqs_flush_answers_every_row ids es reply :
  NoDup ids → length ids = length es → Z.of_nat (length es) ≤ maxBatchSizeInSQS →
  match reply with
  | inl err => ∃ resp x, flushBatch ids es reply = Ok (mkFlushed (Some resp) None x) ∧
      ere_Entry <$> er_Entries resp = answer_of <$> es ∧
      Forall (λ r, IsRetryable (Reason r) = true ∧ IsDownStreamDown (Reason r) = true) (er_Entries resp)
  | inr failed =>
      (acceptable failed ids →
       ∃ errs oks x, flushBatch ids es reply =
           Ok (mkFlushed (match failed with [] => None | _ => Some (mkErrResp errs) end) (Some (mkResp oks 0)) x) ∧
         (ere_Entry <$> errs) ++ oks ≡ₚ answer_of <$> es ∧
         Forall2 (λ f r, ∃ id code message i e, details f = Some (id, code, message) ∧
                         ids !! i = Some id ∧ es !! i = Some e ∧ ere_Entry r = answer_of e ∧
                         Reason r = flushError code message (fe_SenderFault f) ∧
                         IsRetryable (Reason r) = negb (fe_SenderFault f)) failed errs) ∧
      (∀ pre f post, failed = pre ++ f :: post → acceptable pre ids → ¬ acceptable (pre ++ [f]) ids →
         flushBatch ids es reply =
           match named f with None => Panic "nil dereference" | Some _ => Fatal "got unknown ID from SQS" end) ∧
      (acceptable failed ids ∨
       ∃ pre f post, failed = pre ++ f :: post ∧ acceptable pre ids ∧ ¬ acceptable (pre ++ [f]) ids)
  end.
Proof using Henum.
  intros Hn Hl Hs. destruct (fill_batch_spec ids es 0 ∅ Hn Hl ltac:(lia)) as (m & Em & HP); [intros; apply lookup_empty|].
  rewrite map_to_list_empty in HP. simpl in HP. unfold flushBatch. rewrite Em. res_step.
  pose proof (λ failed, accepted_batch ids es m failed Hl HP) as Ha. destruct reply as [err|failed].
  - eexists _, _. split_and!; [done| |].
    + simpl. rewrite <- list_fmap_compose. done.
    + apply Forall_fmap. by apply Forall_forall.
  - split_and!.
    + intros Hk. destruct (process_failed_ok failed m) as (errs & m' & -> & HF & HR); [by apply Ha|].
      res_step. eexists errs, _, _. split_and!; [done| |].
      * rewrite Henum, HR, HP, snd_zip by lia. done.
      * eapply Forall2_impl; [exact HF|]. intros f r (id & code & msg & e & E1 & E2 & ->).
        destruct (batch_place ids es m id e HP E2) as (i & Hi & He). by exists id, code, msg, i, e.
    + intros pre f post -> Hp Hf. rewrite (process_failed_stopped pre f post m) by (rewrite <- ?Ha; done).
      unfold stopped_by. by destruct (named f).
    + apply first_unacceptable.
Qed.
End flush.
End Flush.

(** ** The batching worker *)

Module Queues.
Section queues.
Context {A : Type}.
(** The URL of a row's queue, and [flushWorkers]. *)
Context (url : A → string) (flushWorkers : Z).

(** The channel of rows; the open batch of each queue; the queues a timer flush
    has still to visit; the batch the worker is waiting to submit; the timer;
    the flushers; the shutdown. *)
Record worker := mkW {
  eventCh : list A;
  queueBatches : gmap string (list A);
  flushing : list string;
  submitting : option (list A);
  ticker : bool;
  isTimerRunning : bool;
  io : parallelIO (list A);
  closeCh : bool;
  stopped : bool }.

Definition idle : worker := mkW [] ∅ [] None true false (NewParallelIO flushWorkers) false false.

(** [Tick order]: the timer fires, and the queues are ranged over in [order]. *)
Inductive event :=
| Enqueue (x : A)
| Take
| Tick (order : list string)
| FlushNext
| SubmitBatch
| Flusher (e : io_event (list A))
| Close
| Stop.

Definition isMaxedOut (b : list A) : bool := bool_decide (Flush.maxBatchSizeInSQS ≤ Z.of_nat (length b)).

(** [tryFlushBatch]: nothing for an unknown queue or an empty batch. *)
Definition tryFlushBatch (queueURL : string) (w : worker) : worker :=
  match queueBatches w !! queueURL with
  | None | Some [] => w
  | Some b => mkW (eventCh w) (<[queueURL := []]> (queueBatches w)) (flushing w) (Some b) (ticker w) (isTimerRunning w)
                  (io w) (closeCh w) (stopped w)
  end.

(** The worker is in its [select]. *)
Definition selecting (w : worker) : bool :=
  negb (stopped w) && bool_decide (submitting w = None) && bool_decide (flushing w = []).

Definition with_io (i : parallelIO (list A)) (w : worker) : worker :=
  mkW (eventCh w) (queueBatches w) (flushing w) (submitting w) (ticker w) (isTimerRunning w) i (closeCh w) (stopped w).

Definition step (e : event) (w : worker) : option worker :=
  match e with
  | Enqueue x =>
      Some (mkW (eventCh w ++ [x]) (queueBatches w) (flushing w) (submitting w) (ticker w) (isTimerRunning w) (io w)
                (closeCh w) (stopped w))
  | Take =>
      if negb (selecting w) then None
      else match eventCh w with
           | [] => None
           | x :: r =>
               let b := default [] (queueBatches w !! url x) ++ [x] in
               let tick := if isTimerRunning w then ticker w else true in
               let w := mkW r (<[url x := b]> (queueBatches w)) [] None tick true (io w) (closeCh w) (stopped w) in
               Some (if isMaxedOut b then tryFlushBatch (url x) w else w)
           end
  | Tick order =>
      if selecting w && ticker w && bool_decide (order ≡ₚ (map_to_list (queueBatches w)).*1)
      then Some (mkW (eventCh w) (queueBatches w) order None false false (io w) (closeCh w) (stopped w))
      else None
  | FlushNext =>
      match submitting w, flushing w with
      | None, u :: r => Some (tryFlushBatch u (mkW (eventCh w) (queueBatches w) r None (ticker w) (isTimerRunning w)
                                                   (io w) (closeCh w) (stopped w)))
      | _, _ => None
      end
  | SubmitBatch =>
      b ← submitting w;
      i ← Submit b (io w);
      Some (mkW (eventCh w) (queueBatches w) (flushing w) None (ticker w) (isTimerRunning w) i (closeCh w) (stopped w))
  | Flusher (IOSubmit _) => None
  | Flusher e => i ← io_step e (io w); Some (with_io i w)
  | Close => Some (mkW (eventCh w) (queueBatches w) (flushing w) (submitting w) (ticker w) (isTimerRunning w) (io w)
                       true (stopped w))
  | Stop => if selecting w && closeCh w
            then Some (mkW (eventCh w) (queueBatches w) [] None (ticker w) (isTimerRunning w) (io w) true true)
            else None
  end.

(** A run, with the batches submitted so far in their order. *)
Inductive run : list event → worker → list (list A) → Prop :=
| run_idle : run [] idle []
| run_snoc es w bs e w' : run es w bs → step e w = Some w' →
    run (es ++ [e]) w' (bs ++ match e with SubmitBatch => option_list (submitting w) | _ => [] end).

Definition given (es : list event) : list A :=
  es ≫= λ e, match e with Enqueue x => [x] | _ => [] end.
Definition answered_rows (w : worker) : list A := List.concat (answered (io w)).

(** The rows of one queue. *)
Definition of_queue (u : string) (l : list A) : list A := filter (λ x, url x = u) l.

Lemma queues_given_snoc es e : given (es ++ [e]) = given es ++ match e with Enqueue x => [x] | _ => [] end.
Proof using Type. unfold given. rewrite bind_app. simpl. by rewrite app_nil_r. Qed.

Lemma of_queue_app u l1 l2 : of_queue u (l1 ++ l2) = of_queue u l1 ++ of_queue u l2.
Proof using Type. apply filter_app. Qed.

Lemma queues_selecting_true w : selecting w = true → stopped w = false ∧ submitting w = None ∧ flushing w = [].
Proof using Type.
  unfold selecting. intros [[H1 H2]%andb_prop H3]%andb_prop.
  apply bool_decide_eq_true in H2, H3. by destruct (stopped w).
Qed.

Lemma flusher_inv e w w' :
  step (Flusher e) w = Some w' →
  ∃ i, io_step e (io w) = Some i ∧ requests i ≡ₚ requests (io w) ∧ w' = with_io i w.
Proof using Type.
  intros H. assert (¬ ∃ b, e = IOSubmit b) as Hne by (intros [b ->]; done).
  assert (∃ i, io_step e (io w) = Some i ∧ w' = with_io i w) as (i & E & ->).
  { destruct e; [done|..]; apply bind_Some in H as (i' & E & [= <-]); eauto. }
  exists i. split_and!; [done| |done]. rewrite (step_requests _ _ _ E). destruct e; [naive_solver|..]; by rewrite app_nil_r.
Qed.

(** *** The invariant *)

Definition batch_ok (b : list A) : Prop :=
  b ≠ [] ∧ Z.of_nat (length b) ≤ Flush.maxBatchSizeInSQS ∧ ∃ u, Forall (λ x, url x = u) b.

(** A queue's open batch has less than ten rows, all of the queue; if it has any, the
    timer runs or the queue is about to be flushed. *)
Definition open_ok (m : gmap string (list A)) (timer : bool) (fl : list string) : Prop :=
  ∀ u b, m !! u = Some b → Forall (λ x, url x = u) b ∧ Z.of_nat (length b) < Flush.maxBatchSizeInSQS ∧
    (b ≠ [] → timer = true ∨ u ∈ fl).

(** The rows of queue [u] in the order they were given. *)
Definition queue_rows (u : string) (w : worker) (bs : list (list A)) : list A :=
  of_queue u (List.concat (bs ++ option_list (submitting w))) ++ default [] (queueBatches w !! u) ++ of_queue u (eventCh w).

Record winv (es : list event) (w : worker) (bs : list (list A)) : Prop := {
  wi_io : io_inv flushWorkers (io w);
  wi_log : requests (io w) ≡ₚ bs;
  wi_sizes : Forall batch_ok (bs ++ option_list (submitting w));
  wi_open : open_ok (queueBatches w) (isTimerRunning w) (flushing w);
  wi_timer : isTimerRunning w = true → ticker w = true;
  wi_fifo : ∀ u, queue_rows u w bs = of_queue u (given es) }.

(** What [tryFlushBatch] keeps. *)
Lemma tryFlush_inv u w :
  let w' := tryFlushBatch u w in
  eventCh w' = eventCh w ∧ io w' = io w ∧ ticker w' = ticker w ∧ isTimerRunning w' = isTimerRunning w ∧
  flushing w' = flushing w ∧ stopped w' = stopped w ∧ closeCh w' = closeCh w.
Proof using Type. unfold tryFlushBatch. by destruct (queueBatches w !! u) as [[|x b]|]. Qed.

Lemma of_queue_all u b : Forall (λ x, url x = u) b → of_queue u b = b.
Proof using Type. apply filter_all. Qed.

Lemma of_queue_other u v b : u ≠ v → Forall (λ x, url x = v) b → of_queue u b = [].
Proof using Type. intros Hne H. apply filter_none. eapply Forall_impl; [exact H|]. simpl. congruence. Qed.

Lemma queues_tryFlush_rows u v w bs :
  submitting w = None → (∀ u b, queueBatches w !! u = Some b → Forall (λ x, url x = u) b) →
  queue_rows v (tryFlushBatch u w) bs = queue_rows v w bs.
Proof using Type.
  intros Hs Ho. unfold tryFlushBatch, queue_rows. destruct (queueBatches w !! u) as [[|x b]|] eqn:E; try done.
  cbn [submitting queueBatches eventCh]. rewrite Hs. cbn [option_list from_option]. rewrite app_nil_r, concat_app, of_queue_app.
  change (List.concat (option_list (Some (x :: b)))) with ((x :: b) ++ []). rewrite app_nil_r.
  pose proof (Ho u _ E) as Hb. destruct (decide (u = v)) as [->|Hne].
  - rewrite lookup_insert_eq, E, (of_queue_all v (x :: b)) by done. simpl. app_assoc.
  - rewrite lookup_insert_ne by done. rewrite (of_queue_other v u (x :: b)) by done. by rewrite app_nil_r.
Qed.

Lemma tryFlush_batches u w bs :
  submitting w = None → Forall batch_ok bs →
  (∀ b, queueBatches w !! u = Some b → Forall (λ x, url x = u) b ∧ Z.of_nat (length b) ≤ Flush.maxBatchSizeInSQS) →
  Forall batch_ok (bs ++ option_list (submitting (tryFlushBatch u w))).
Proof using Type.
  intros Hs Hb Ho. unfold tryFlushBatch. destruct (queueBatches w !! u) as [[|x b]|] eqn:E.
  - by rewrite Hs, app_nil_r.
  - simpl. apply Forall_app. split; [done|]. apply Forall_singleton. destruct (Ho _ eq_refl). split_and!; [done|done|by exists u].
  - by rewrite Hs, app_nil_r.
Qed.

(** After the flush of [u] its open batch is empty. *)
Lemma tryFlush_open u w t fl :
  (∀ v b, queueBatches w !! v = Some b → Forall (λ x, url x = v) b ∧
     (v ≠ u → Z.of_nat (length b) < Flush.maxBatchSizeInSQS ∧ (b ≠ [] → t = true ∨ v ∈ fl))) →
  open_ok (queueBatches (tryFlushBatch u w)) t fl.
Proof using Type.
  intros H v b Hv. unfold tryFlushBatch in Hv. destruct (decide (v = u)) as [->|Hne].
  - assert (b = []) as ->; [|split_and!; [constructor|done|done]].
    destruct (queueBatches w !! u) as [[|x b']|] eqn:E; simpl in Hv; rewrite ?E, ?lookup_insert_eq in Hv; congruence.
  - assert (queueBatches w !! v = Some b) as Hv'.
    { destruct (queueBatches w !! u) as [[|x b']|]; simpl in Hv; rewrite ?lookup_insert_ne in Hv by done; done. }
    destruct (H v b Hv') as [H1 H2]. split_and!; [done|by apply H2..].
Qed.

Lemma take_inv_w es w bs w' : winv es w bs → step Take w = Some w' → winv (es ++ [Take]) w' bs.
Proof using Type.
  intros [H1 H2 H3 H4 H5 H6]. cbn [step]. destruct (selecting w) eqn:Hs; [|done].
  apply queues_selecting_true in Hs as (_ & Hs & Hf). destruct (eventCh w) as [|x r] eqn:E; [done|]. cbn [negb].
  set (b := default [] (queueBatches w !! url x) ++ [x]). cbv zeta. set (w1 := mkW _ _ _ _ _ _ _ _ _). intros [= <-].
  assert (Hq : ∀ u c, queueBatches w1 !! u = Some c → Forall (λ x, url x = u) c ∧ Z.of_nat (length c) ≤ Flush.maxBatchSizeInSQS ∧
     (u ≠ url x ∨ isMaxedOut b = false → Z.of_nat (length c) < Flush.maxBatchSizeInSQS)).
  { intros u c Hc. simpl in Hc. apply lookup_insert_Some in Hc as [[<- <-]|[Hne Hc]].
    - assert (Forall (λ y, url y = url x) (default [] (queueBatches w !! url x)) ∧
              Z.of_nat (length (default [] (queueBatches w !! url x))) < Flush.maxBatchSizeInSQS) as [Ho Hl].
      { destruct (queueBatches w !! url x) as [c|] eqn:Ec; [|by split; [constructor|]].
        destruct (H4 _ _ Ec) as (? & ? & _). done. }
      unfold b. rewrite length_app. simpl. split_and!; [apply Forall_app; split; [done|by constructor]|lia|].
      intros [?|Hm]; [done|]. unfold isMaxedOut in Hm. apply bool_decide_eq_false in Hm. unfold b in Hm.
      rewrite length_app in Hm. simpl in Hm. lia.
    - destruct (H4 _ _ Hc) as (? & ? & _). split_and!; [done|lia|done]. }
  assert (Hrows : ∀ u, queue_rows u w1 bs = queue_rows u w bs).
  { intros u. unfold queue_rows. simpl. rewrite E, Hs. f_equal. destruct (decide (u = url x)) as [->|Hne].
    - rewrite lookup_insert_eq. unfold of_queue. rewrite filter_cons_True by done. unfold b. simpl. app_assoc.
    - rewrite lookup_insert_ne by done. unfold of_queue. by rewrite filter_cons_False. }
  rewrite Hs, app_nil_r in H3.
  assert (isTimerRunning w1 = true → ticker w1 = true) as Ht.
  { simpl. intros _. destruct (isTimerRunning w); [auto|done]. }
  destruct (isMaxedOut b) eqn:Hm.
  - destruct (tryFlush_inv (url x) w1) as (E1 & E2 & E3 & E4 & E5 & _). split.
    + by rewrite E2.
    + by rewrite E2.
    + apply tryFlush_batches; [done|done|]. intros c Hc. destruct (Hq _ _ Hc) as (? & ? & _). done.
    + rewrite E4, E5. apply tryFlush_open. intros u c Hc. destruct (Hq _ _ Hc) as (? & _ & Hlt). split; [done|].
      intros Hne. split; [auto|by left].
    + by rewrite E3, E4.
    + intros u. rewrite queues_tryFlush_rows, Hrows, H6, queues_given_snoc, app_nil_r; [done|done|].
      intros v c Hc. by destruct (Hq _ _ Hc).
  - split; try done.
    + simpl. by rewrite app_nil_r.
    + intros u c Hc. destruct (Hq _ _ Hc) as (? & _ & Hlt). split_and!; [done|auto|by left].
    + intros u. by rewrite Hrows, H6, queues_given_snoc, app_nil_r.
Qed.

Lemma flush_next_inv es w bs w' : winv es w bs → step FlushNext w = Some w' → winv (es ++ [FlushNext]) w' bs.
Proof using Type.
  intros [H1 H2 H3 H4 H5 H6]. cbn [step]. destruct (submitting w) eqn:Hs; [done|].
  destruct (flushing w) as [|u r] eqn:Hf; [done|]. set (w1 := mkW _ _ _ _ _ _ _ _ _). intros [= <-].
  destruct (tryFlush_inv u w1) as (E1 & E2 & E3 & E4 & E5 & _). simpl in H3. rewrite app_nil_r in H3. split.
  - by rewrite E2.
  - by rewrite E2.
  - apply tryFlush_batches; [done|done|]. intros c Hc. destruct (H4 _ _ Hc) as (? & ? & _). split; [done|lia].
  - rewrite E4, E5. apply tryFlush_open. intros v c Hc. destruct (H4 _ _ Hc) as (? & ? & Hor). split; [done|].
    intros Hne. split; [done|]. intros Hb. destruct (Hor Hb) as [?|Hin]; [by left|right].
    apply elem_of_cons in Hin as [?|?]; done.
  - by rewrite E3, E4.
  - intros v. rewrite queues_tryFlush_rows; [|done|].
    + rewrite queues_given_snoc, app_nil_r, <- H6. unfold queue_rows. by rewrite Hs.
    + intros v' c Hc. by destruct (H4 _ _ Hc).
Qed.

Lemma step_inv_w es w bs e w' :
  winv es w bs → step e w = Some w' →
  winv (es ++ [e]) w' (bs ++ match e with SubmitBatch => option_list (submitting w) | _ => [] end).
Proof using Type.
  intros Hinv Hstep. destruct e as [x| |order| | |e| |]; rewrite ?app_nil_r;
    [|by eapply take_inv_w| |by eapply flush_next_inv|..]; pose proof Hinv as [H1 H2 H3 H4 H5 H6]; cbn [step] in Hstep.
  - injection Hstep as <-. split; try done. intros u. rewrite queues_given_snoc, of_queue_app, <- H6. unfold queue_rows. simpl.
    rewrite of_queue_app. app_assoc.
  - destruct (selecting w) eqn:Hs; [|done]. apply queues_selecting_true in Hs as (_ & Hs & Hf). destruct (ticker w); [|done].
    destruct (bool_decide (order ≡ₚ _)) eqn:Ho; [|done]. apply bool_decide_eq_true in Ho. injection Hstep as <-.
    rewrite Hs in H3. split; try done.
    + intros u b Hb. destruct (H4 _ _ Hb) as (? & ? & _). split_and!; [done|done|]. intros _. right.
      simpl. rewrite Ho. apply list_elem_of_fmap. exists (u, b). split; [done|]. by apply elem_of_map_to_list.
    + intros u. rewrite queues_given_snoc, app_nil_r, <- H6. unfold queue_rows. simpl. by rewrite Hs.
  - apply bind_Some in Hstep as (b & Hb & (i & Ei & [= <-])%bind_Some). rewrite Hb in *. cbn [option_list from_option] in *.
    pose proof (Submit_inv_io _ _ _ _ H1 Ei) as Hi. apply Submit_spec in Ei as [Er _]. split; try done.
    + cbn [io]. by rewrite Er, H2.
    + simpl. by rewrite app_nil_r.
    + intros u. rewrite queues_given_snoc, app_nil_r, <- H6. unfold queue_rows. simpl. by rewrite Hb, app_nil_r.
  - apply flusher_inv in Hstep as (i & Hi & E & ->). split; try done.
    + by eapply step_inv_io.
    + simpl. by rewrite E.
    + intros u. rewrite queues_given_snoc, app_nil_r, <- H6. done.
  - injection Hstep as <-. split; try done. intros u. by rewrite queues_given_snoc, app_nil_r, <- H6.
  - destruct (selecting w) eqn:Hs; [|done]. apply queues_selecting_true in Hs as (_ & Hs & Hf). destruct (closeCh w); [|done].
    injection Hstep as <-. rewrite Hs in H3. rewrite Hf in H4. split; try done.
    intros u. rewrite queues_given_snoc, app_nil_r, <- H6. unfold queue_rows. simpl. by rewrite Hs.
Qed.

Lemma run_inv es w bs : run es w bs → winv es w bs.
Proof using Type.
  induction 1 as [|es w bs e w' _ IH Hstep]; [|by apply step_inv_w].
  split; [apply new_inv|apply (run_requests flushWorkers []), io_run_new|constructor| |done|done].
  intros u b Hb. cbn in Hb. by rewrite lookup_empty in Hb.
Qed.

(** *** Progress *)

(** The rows in open batches. *)
Definition open_rows (m : gmap string (list A)) : list A := List.concat (map_to_list m).*2.

Lemma open_rows_insert u b m : open_rows (<[u := b]> m) ≡ₚ b ++ open_rows (delete u m).
Proof using Type.
  unfold open_rows. rewrite <- insert_delete_eq.
  rewrite (map_to_list_insert (delete u m) u b) by apply lookup_delete_eq. done.
Qed.

Lemma open_rows_lookup u b m : m !! u = Some b → open_rows m ≡ₚ b ++ open_rows (delete u m).
Proof using Type. intros H. rewrite <- (insert_id m u b H) at 1. apply open_rows_insert. Qed.

Lemma open_rows_add u x m :
  open_rows (<[u := default [] (m !! u) ++ [x]]> m) ≡ₚ x :: open_rows m.
Proof using Type.
  rewrite open_rows_insert. destruct (m !! u) as [b|] eqn:E; simpl.
  - rewrite (open_rows_lookup u b m E). by rewrite <- Permutation_cons_append.
  - by rewrite delete_id.
Qed.

(** The work left, where at most [q] queues will be seen: a row to come may open
    a queue and start the timer, whose flush visits every queue. *)
Definition work (q : nat) (w : worker) : nat :=
  (q + 7) * length (eventCh w) + 4 * length (open_rows (queueBatches w)) + 3 * length (option_list (submitting w)) +
  io_work (io w) + length (flushing w) + (if ticker w then q + 1 else 0).

Definition bounded (q : nat) (w : worker) : Prop := (size (queueBatches w) + length (eventCh w) ≤ q)%nat.

Lemma size_add u b (m : gmap string (list A)) : (size (<[u := b]> m) ≤ S (size m))%nat.
Proof using Type. rewrite map_size_insert. destruct (m !! u); simpl; lia. Qed.

Lemma queues_tryFlush_work q u w :
  submitting w = None →
  (work q (tryFlushBatch u w) ≤ work q w)%nat ∧ size (queueBatches (tryFlushBatch u w)) = size (queueBatches w).
Proof using Type.
  intros Hs. unfold tryFlushBatch, work. destruct (queueBatches w !! u) as [[|x b]|] eqn:E; try done.
  cbn [eventCh queueBatches submitting io flushing ticker]. split.
  - rewrite (open_rows_lookup _ _ _ E), open_rows_insert, Hs, !length_app. cbn [length option_list from_option]. simpl. lia.
  - rewrite map_size_insert, E. done.
Qed.

Lemma keys_length (m : gmap string (list A)) : length (map_to_list m).*1 = size m.
Proof using Type. rewrite length_fmap. apply length_map_to_list. Qed.

Lemma queues_progress es w bs q :
  winv es w bs → bounded q w → stopped w = false → doneCh (io w) = false → 0 ≤ flushWorkers →
  eventCh w ≠ [] ∨ open_rows (queueBatches w) ≠ [] ∨ submitting w ≠ None ∨ (0 < io_work (io w))%nat →
  ∃ e w', step e w = Some w' ∧ (work q w' < work q w)%nat ∧ bounded q w' ∧ stopped w' = false ∧
    doneCh (io w') = false ∧ given [e] = [].
Proof using Type.
  intros [H1 H2 H3 H4 H5 H6] Hq Hst Hd Hn Hw.
  destruct (decide (io_work (io w) = 0%nat)) as [Hz|Hz].
  2: { destruct (io_progress _ _ H1 Hd Hn ltac:(lia)) as (e & i & Hs & (k & He) & Hlt & Hd').
       exists (Flusher e), (with_io i w). split; [destruct He as [-> | ->]; cbn [step]; rewrite Hs; done|].
       unfold work. simpl. split_and!; try done. lia. }
  destruct (submitting w) as [b|] eqn:Es.
  { destruct (Submit_room b _ _ H1 Hn Hz) as [i Ei]. exists SubmitBatch. eexists.
    split; [cbn [step]; rewrite Es; simpl; rewrite Ei; done|]. apply Submit_work in Ei as [Ei Ei'].
    unfold work. simpl. rewrite Es. simpl. split_and!; try done; [lia|congruence]. }
  destruct (flushing w) as [|u r] eqn:Ef.
  2: { exists FlushNext. eexists. split; [cbn [step]; rewrite Es, Ef; done|]. set (w1 := mkW _ _ _ _ _ _ _ _ _).
       destruct (queues_tryFlush_work q u w1 eq_refl) as [T1 T2].
       destruct (tryFlush_inv u w1) as (E1 & E2 & _ & _ & _ & E6 & _). rewrite E2, E6.
       split_and!; try done; [|unfold bounded; by rewrite T2, E1].
       eapply Nat.le_lt_trans; [exact T1|]. unfold work. simpl. rewrite Es, Ef. simpl. lia. }
  assert (selecting w = true) as Hsel by (unfold selecting; by rewrite Hst, Es, Ef).
  destruct (eventCh w) as [|x r] eqn:Ee.
  - assert (ticker w = true) as Ht.
    { apply H5. destruct Hw as [?|[Hw|[?|?]]]; [done| |done|lia].
      destruct (isTimerRunning w) eqn:Hr; [done|]. exfalso. apply Hw. unfold open_rows.
      assert (Forall (λ p : string * list A, p.2 = []) (map_to_list (queueBatches w))) as Hall.
      { apply Forall_forall. intros [u b] Hin%elem_of_map_to_list. destruct (H4 _ _ Hin) as (_ & _ & Hor). simpl.
        destruct b; [done|]. destruct Hor as [?|Hu]; [done|done|]. by apply elem_of_nil in Hu. }
      induction Hall as [|[u b] l Hb _ IH]; [done|]. simpl in *. by rewrite Hb. }
    exists (Tick (map_to_list (queueBatches w)).*1). eexists.
    split; [cbn [step]; rewrite Hsel, Ht, bool_decide_true by done; done|].
    split_and!; try done.
    unfold work. simpl. rewrite Ht, Es, Ef, keys_length. unfold bounded in Hq. simpl. lia.
  - exists Take. eexists. split; [cbn [step]; rewrite Hsel, Ee; done|]. cbv zeta. set (w1 := mkW r _ _ _ _ _ _ _ _).
    assert (work q w1 < work q w)%nat as Hlt.
    { unfold work, w1. cbn [eventCh queueBatches submitting io flushing ticker]. rewrite open_rows_add, Ee, Es, Ef. simpl.
      destruct (isTimerRunning w) eqn:Hr; [rewrite (H5 eq_refl); lia|]. destruct (ticker w); lia. }
    assert (bounded q w1) as Hq1.
    { unfold bounded, w1 in *. cbn [eventCh queueBatches]. rewrite Ee in Hq. simpl in Hq.
      pose proof (size_add (url x) (default [] (queueBatches w !! url x) ++ [x]) (queueBatches w)). lia. }
    destruct (queues_tryFlush_work q (url x) w1 eq_refl) as [T1 T2].
    destruct (tryFlush_inv (url x) w1) as (E1 & E2 & _ & _ & _ & E6 & _).
    destruct (isMaxedOut _); [|split_and!; try done].
    rewrite E2, E6. split_and!; try done; [lia|unfold bounded; by rewrite T2, E1].
Qed.

(** Nothing of the rows is on its way. *)
Definition drained (w : worker) : Prop :=
  eventCh w = [] ∧ open_rows (queueBatches w) = [] ∧ submitting w = None ∧ io_work (io w) = 0%nat.

#[global] Instance drained_dec w : Decision (drained w).
Proof using Type.
  clear url flushWorkers. unfold drained.
  destruct (eventCh w), (open_rows (queueBatches w)), (submitting w), (decide (io_work (io w) = 0%nat));
    try (right; naive_solver); by left.
Defined.

Lemma queues_run_drains es w bs :
  run es w bs → stopped w = false → doneCh (io w) = false → 0 ≤ flushWorkers →
  ∃ es' w' bs', run (es ++ es') w' bs' ∧ given es' = [] ∧ drained w'.
Proof using Type.
  set (q := (size (queueBatches w) + length (eventCh w))%nat).
  assert (bounded q w) as Hq by (unfold bounded, q; lia). clearbody q.
  remember (work q w) as n eqn:Hn. revert es w bs Hq Hn.
  induction (lt_wf n) as [n _ IH]; intros es w bs Hq -> Hrun Hc Hd Hw.
  destruct (decide (drained w)) as [Hdr|Hz].
  { exists [], w, bs. by rewrite app_nil_r. }
  destruct (queues_progress es w bs q (run_inv _ _ _ Hrun) Hq Hc Hd Hw) as (e & w1 & Hstep & Hlt & Hq1 & Hc1 & Hd1 & Hg).
  { unfold drained in Hz. destruct (eventCh w), (open_rows (queueBatches w)), (submitting w),
      (decide (io_work (io w) = 0%nat)); naive_solver lia. }
  destruct (IH (work q w1) Hlt (es ++ [e]) w1 _ Hq1 eq_refl (run_snoc _ _ _ _ _ Hrun Hstep) Hc1 Hd1 Hw)
    as (es' & w' & bs' & G1 & G2 & G3).
  exists (e :: es'), w', bs'. split_and!; [by rewrite <- (assoc_L (++)) in G1| |done].
  change (e :: es') with ([e] ++ es'). unfold given in *. by rewrite bind_app, Hg, G2.
Qed.

(** C30: the SQS worker keeps the rows of each queue in order and loses none.
    At any moment the rows given for a queue are, in their order, those in the
    queue's submitted batches, in its open batch and in the channel.  A batch
    has one to ten rows of one queue, every submitted batch is answered once (its
    flush has returned) or in the flushers' hands, a waiting row has a running
    timer or its queue is still to be visited by the timer flush under way, and
    unless the writer is shut down finitely many further steps can answer every
    row, with no more rows given. *)
Theorem sqs_queues_in_order es w bs :
  run es w bs →
  (∀ u, of_queue u (List.concat bs) ++ of_queue u (default [] (submitting w)) ++ default [] (queueBatches w !! u) ++
        of_queue u (eventCh w) = of_queue u (given es)) ∧
  Forall batch_ok (bs ++ option_list (submitting w)) ∧
  answered (io w) ++ inflight (io w) ++ requestCh (io w) ≡ₚ bs ∧
  (∀ u b, queueBatches w !! u = Some b → b ≠ [] → ticker w = true ∨ u ∈ flushing w) ∧
  (stopped w = false → doneCh (io w) = false → 0 ≤ flushWorkers →
   ∃ es' w' bs', run (es ++ es') w' bs' ∧ given es' = [] ∧
     ∀ u, of_queue u (List.concat bs') = of_queue u (given es) ∧ answered (io w') ≡ₚ bs').
Proof using Type.
  intros Hrun. destruct (run_inv _ _ _ Hrun) as [H1 H2 H3 H4 H5 H6]. split_and!; [|done|done|..].
  - intros u. rewrite <- H6. unfold queue_rows. rewrite concat_app, of_queue_app, <- (assoc_L (++)). f_equal. f_equal.
    destruct (submitting w); simpl; by rewrite ?app_nil_r.
  - intros u b Hb Hne. destruct (H4 _ _ Hb) as (_ & _ & Hor). destruct (Hor Hne); auto.
  - intros Hc Hd Hn. destruct (queues_run_drains _ _ _ Hrun Hc Hd Hn) as (es' & w' & bs' & G1 & G2 & D1 & D2 & D3 & D4).
    exists es', w', bs'. split_and!; [done|done|]. intros u. destruct (run_inv _ _ _ G1) as [_ I2 _ _ _ I6]. split.
    + specialize (I6 u). unfold given in I6 |- *. rewrite bind_app in I6. unfold given in G2. rewrite G2, app_nil_r in I6.
      rewrite <- I6. unfold queue_rows. rewrite D1, D3. cbn [option_list from_option]. rewrite app_nil_r.
      destruct (queueBatches w' !! u) as [b|] eqn:Eb; simpl; [|by rewrite app_nil_r].
      pose proof (open_rows_lookup _ _ _ Eb) as HP. rewrite D2 in HP. apply Permutation_nil_l in HP.
      symmetry in HP; apply app_nil in HP as [-> _]. by rewrite app_nil_r.
    + rewrite <- I2. unfold requests. unfold io_work in D4.
      destruct (requestCh (io w')), (inflight (io w')); simpl in D4; try lia. by rewrite app_nil_r.
Qed.

Lemma queues_run_foldl es es' w w' bs bs' :
  run es w bs →
  foldl (λ o e, p ← o; w1 ← step e p.1;
           Some (w1, p.2 ++ match e with SubmitBatch => option_list (submitting p.1) | _ => [] end))
        (Some (w, bs)) es' = Some (w', bs') → run (es ++ es') w' bs'.
Proof using Type.
  revert es w bs. induction es' as [|e es' IH]; intros es w bs H E; cbn [foldl] in E.
  - injection E as <- <-. by rewrite app_nil_r.
  - destruct (step e w) as [w1|] eqn:E1; simpl in E; rewrite E1 in E; simpl in E.
    + rewrite cons_middle, (assoc_L (++)). eapply IH; [by eapply run_snoc|exact E].
    + exfalso. clear -E. induction es'; simpl in E; [done|auto].
Qed.
End queues.
Arguments worker : clear implicits.
Arguments event : clear implicits.
End Queues.

(** ** Concrete runs *)

Module Samples.
Import Flush Queues.

Definition orders : TableQueueConfig := mkTQC "public.orders" "orders.fifo" "https://sqs/orders.fifo" true false true EmptyString.
Definition sent (n : Z) : sqsBatchEntry :=
  mkSBE 100 7 (MakeTableName "public" "orders") (pretty n) n orders "{}" None None.
Definition by_id (m : gmap string sqsBatchEntry) : list (string * sqsBatchEntry) := map_to_list m.

Definition order_km : KeyMap.KeyMap := KeyMap.New ["id"; "kind"].
Definition order_row : Tup :=
  match OMap.Set_ "id" (VInt 32 7) (OMap.New VNil order_km) with Ok t => t | _ => OMap.New VNil order_km end.
Definition order : entry_t := mkWE (Some order_row) None "7" Insert (MakeTableName "public" "orders") 0.
Definition show_v (v : goval) : string := match v with VString s => s | VInt _ z => pretty z | _ => "null" end.
Definition bare_v (v : goval) : res string := Ok (show_v v).
Definition with_time : TxCommitTimeOptions := mkTCO true "at".
Definition noon : gotime := mkTime 2024 3 7 12 0 0 0 0.

Lemma order_row_wf : OMap.wf VNil order_row.
Proof.
  destruct (Set_insert (OMap.New VNil order_km) "id" (VInt 32 7)) as (t & E & H & _);
    [apply OMap.New_wf, KeyMap.key_map_wf|done|]. unfold order_row. by rewrite E.
Qed.

Lemma order_keys : NoDup (KeyMap.Keys (OMap.keyMap order_row)).
Proof. apply (bool_decide_unpack _). vm_compute. exact I. Qed.

Lemma sqs_message_object_witness :
  ∃ e', Message.getJSON (@Ok string) bare_v with_time order noon true =
    Ok ("{id:7,at:2024-03-07T12:00:00Z,kind:insert}", e') ∧ we_PK e' = "7".
Proof.
  destruct (Message.sqs_message_object (@Ok string) bare_v with_time order order_row noon true eq_refl order_row_wf order_keys
              ltac:(discriminate)) as (e' & E & Hpk & _).
  exists e'. split; [exact E|exact Hpk].
Defined.

Lemma sqs_write_leaves_no_row_witness :
  ∃ queued ok failed,
    Message.Write show_v (@Ok string) bare_v with_time {[makeQueueConfigKey "public.orders" Insert := orders]} (λ _, noon)
      (mkWR [order] 100 7 None false) = Ok (Message.Written queued ok failed).
Proof.
  destruct (Message.sqs_write_leaves_no_row show_v (@Ok string) bare_v with_time (λ _, I) (λ _, I)
    {[makeQueueConfigKey "public.orders" Insert := orders]} (λ _, noon) (mkWR [order] 100 7 None false))
    as (q & ok & f & E & _).
  - discriminate.
  - apply Forall_singleton. exists order_row. split; [reflexivity|]. split; [apply order_row_wf|apply order_keys].
  - exists q, ok, f. exact E.
Defined.

(** A column named kind is overwritten, and with the commit time stored under
    that name the key stands twice. *)
Definition kind_row : Tup :=
  match OMap.Set_ "kind" (VString "book") order_row with Ok t => t | _ => order_row end.
Definition text_of (r : res (string * entry_t)) : res string := p ← r; Ok p.1.
Example kind_column_overwritten :
  text_of (Message.getJSON (@Ok string) bare_v (mkTCO false EmptyString) (with_Tuple (Some kind_row) order) noon true) =
  Ok "{id:7,kind:insert}".
Proof. vm_compute. reflexivity. Qed.
Example kind_twice :
  text_of (Message.getJSON (@Ok string) bare_v (mkTCO true "kind") order noon true) =
  Ok "{id:7,kind:2024-03-07T12:00:00Z,kind:insert}".
Proof. vm_compute. reflexivity. Qed.

(** A queue configured to be skipped is not skipped: the row is given to the
    worker, for a queue without name and URL. *)
Example skip_is_ignored :
  match Message.Write show_v (@Ok string) bare_v (mkTCO false EmptyString)
          {[makeQueueConfigKey "public.orders" Insert := mkTQC "public.orders" EmptyString EmptyString false true false EmptyString]}
          (λ _, noon) (mkWR [order] 100 7 None false) with
  | Ok (Message.Written queued _ _) => queueURL ∘ s_queueConfig <$> queued
  | _ => []
  end = [EmptyString].
Proof. vm_compute. reflexivity. Qed.

(** A failed entry without a message, which SQS need not send, is a nil
    dereference: the other rows of the batch are not answered either. *)
Example failed_without_message :
  flushBatch by_id ["a"; "b"] [sent 0; sent 1] (inr [mkFE (Some "b") (Some "Busy") None false]) = Panic "nil dereference".
Proof. vm_compute. reflexivity. Qed.

Lemma sqs_flush_answers_every_row_witness :
  flushBatch by_id ["a"; "b"] [sent 0; sent 1] (inr [mkFE (Some "x") (Some "c") (Some "m") false]) =
    Fatal "got unknown ID from SQS" ∧
  ∃ errs oks x, flushBatch by_id ["a"; "b"] [sent 0; sent 1] (inr [mkFE (Some "b") (Some "Busy") (Some "later") false]) =
      Ok (mkFlushed (Some (mkErrResp errs)) (Some (mkResp oks 0)) x) ∧
    (ere_Entry <$> errs) ++ oks ≡ₚ [answer_of (sent 0); answer_of (sent 1)].
Proof.
  assert (NoDup ["a"; "b"]) as Hn by (apply (bool_decide_unpack _); vm_compute; exact I).
  split.
  - destruct (sqs_flush_answers_every_row by_id (λ m, reflexivity _) ["a"; "b"] [sent 0; sent 1]
             (inr [mkFE (Some "x") (Some "c") (Some "m") false]) Hn eq_refl ltac:(vm_compute; discriminate)) as (_ & H & _).
    refine (H [] _ [] eq_refl _ _); apply (bool_decide_unpack _); vm_compute; exact I.
  - destruct (proj1 (sqs_flush_answers_every_row by_id (λ m, reflexivity _) ["a"; "b"] [sent 0; sent 1]
             (inr [mkFE (Some "b") (Some "Busy") (Some "later") false]) Hn eq_refl ltac:(vm_compute; discriminate)))
      as (errs & oks & x & E1 & E2 & _); [apply (bool_decide_unpack _); vm_compute; exact I|].
    exists errs, oks, x. split; [exact E1|exact E2].
Defined.

(** Rows named by their queue and a number. *)
Definition rows_run : list (event (string * nat)) :=
  [Enqueue ("q1", 1%nat); Enqueue ("q2", 2%nat); Enqueue ("q1", 3%nat); Take; Take; Take;
   Tick ["q2"; "q1"]; FlushNext; SubmitBatch; FlushNext; Flusher (IOTake 0); SubmitBatch; Flusher (IOHandled 0 true)].
Definition rows_end : worker (string * nat) :=
  mkW [] {["q1" := []; "q2" := []]} [] None false false
      (mkPIO [[("q1", 1%nat); ("q1", 3%nat)]] [mkPW None 2 false] false [(mkTR [("q2", 2%nat)] 1 1, true)]) false false.

Lemma sqs_queues_in_order_witness :
  run fst 1 rows_run rows_end [[("q2", 2%nat)]; [("q1", 1%nat); ("q1", 3%nat)]] ∧
  of_queue fst "q1" (given rows_run) = [("q1", 1%nat); ("q1", 3%nat)].
Proof.
  assert (run fst 1 rows_run rows_end [[("q2", 2%nat)]; [("q1", 1%nat); ("q1", 3%nat)]]) as H.
  { apply (queues_run_foldl fst 1 [] rows_run (idle 1) rows_end []); [constructor|vm_compute; reflexivity]. }
  split; [exact H|]. rewrite <- (proj1 (sqs_queues_in_order fst 1 _ _ _ H) "q1"). vm_compute. reflexivity.
Defined.
End Samples.
