(* ===== verification/Shutdown.v ===== *)
(** * The graceful shutdown of the writers

    [gracefulShutdown] of src/pg2redis/redis_writer.go and [GracefulShutdown]
    of src/pg2sqs/sqs_writer.go are the same: the channel [closeCh] is closed,
    which stops the worker when it is next in its [select]; then the flushers
    are closed and waited for ([ParallelIO.Close]); then the worker is.

    - [BatchWriter] and [BatchWriterLaws]: what the shutdown needs of a
      writer's worker, with the Redis writer ([RedisWriter.Worker]) and the SQS
      writer ([SQSWriter.Queues]) as instances;
    - [Shutdown]: the worker, the flushers and the goroutine that shuts them
      down as one system of steps, and which shutdowns return;
    - [ListenerShutdown]: [PGBufferedListener.GracefulShutdown] of
      src/pg2buffer/buffered_listener.go. *)

From stdpp Require Import base numbers list gmap strings.
From S2P Require Import Prelude GoStrings WriteQueue PgSchema Decode PgWal ParallelIO LSNTracker BufferedListener ListenerSystem Replicator.
From S2P Require Import RedisWriter SQSMapper SQSWriter.

(** ** The flushers *)

Section flushers.
Context {B : Type}.
Implicit Types io : parallelIO B.

(** The steps of the flushing workers. *)
Definition io_local (e : io_event B) : bool :=
  match e with IOTake _ | IOHandled _ _ | IOExit _ => true | IOSubmit _ | IOClose => false end.

Definition unfinished io : nat := length (filter (λ w, finished w = false) (workers io)).
(** The steps the flushers have left. *)
Definition io_measure io : nat := io_work io + unfinished io.

(** Nobody is left to take a request, and the channel has no room. *)
Definition io_dead io : Prop :=
  Forall (λ w, finished w = true) (workers io) ∧ (length (workers io) ≤ length (requestCh io))%nat.

Lemma unfinished_insert (ws : list (pworker B)) i w w' :
  ws !! i = Some w → finished w = false →
  length (filter (λ w, finished w = false) (<[i:=w']> ws)) =
    (length (filter (λ w, finished w = false) ws) - (if finished w' then 1 else 0))%nat ∧
  (0 < length (filter (λ w, finished w = false) ws))%nat.
Proof.
  intros H Hw. pose proof (lookup_lt_Some _ _ _ H) as Hl.
  assert (ws = take i ws ++ w :: drop (S i) ws) as E by (symmetry; by apply take_drop_middle).
  rewrite insert_take_drop by done. rewrite E at 3 4. rewrite !filter_app, !length_app, (filter_cons_True _ w) by done.
  destruct (finished w') eqn:Ew; [rewrite filter_cons_False by congruence|rewrite filter_cons_True by done];
    simpl; split; lia.
Qed.

Lemma io_local_step e io io' :
  io_local e = true → io_step e io = Some io' →
  (io_measure io' < io_measure io)%nat ∧ doneCh io' = doneCh io ∧ length (workers io') = length (workers io) ∧
  requests io' ≡ₚ requests io ∧ (length (requestCh io') ≤ length (requestCh io))%nat.
Proof.
  intros Hl Hs. pose proof (step_requests _ _ _ Hs) as HP. unfold io_measure, unfinished.
  destruct e as [b|i|i ok|i|]; try done; rewrite app_nil_r in HP; simpl in Hs.
  - assert (answered io' = answered io ∧ (length (requestCh io') < length (requestCh io))%nat) as [Ha Hlt].
    { apply take_inv in Hs as (b & r & n & E & H & ->). split; [done|]. rewrite E. simpl. lia. }
    pose proof (work_requests _ _ HP Ha Hlt) as Hwk. apply take_inv in Hs as (b & r & n & E & H & ->). cbn [workers doneCh].
    destruct (unfinished_insert _ _ _ (mkPW (Some b) n false) H eq_refl) as [-> _]. rewrite length_insert.
    split_and!; try done; simpl in *; lia.
  - apply handled_inv in Hs as (b & n & H & ->). cbn [workers doneCh requestCh].
    destruct (unfinished_insert _ _ _ (mkPW None (u64 (n + 1)) false) H eq_refl) as [-> _]. rewrite length_insert.
    split_and!; try done.
    pose proof (Permutation_length HP) as HL. unfold requests, answered, io_work in *. simpl in *.
    rewrite !length_app, !length_fmap, length_app in HL. simpl in HL. lia.
  - apply exit_inv in Hs as (n & H & _ & ->). cbn [workers doneCh requestCh].
    destruct (unfinished_insert _ _ _ (mkPW None n true) H eq_refl) as [-> Hp]. rewrite length_insert.
    split_and!; try done.
    pose proof (Permutation_length HP) as HL. unfold requests, answered, io_work in *. simpl in *.
    rewrite !length_app in HL. lia.
Qed.

(** With the channel [doneCh] closed a flusher that has not returned can move. *)
Lemma io_unfinished_moves io :
  doneCh io = true → ¬ Forall (λ w, finished w = true) (workers io) →
  ∃ e, io_local e = true ∧ is_Some (io_step e io).
Proof.
  intros Hd (w & Hin & Hw)%not_Forall_Exists%Exists_exists; [|tc_solve].
  apply list_elem_of_lookup in Hin as [i Hi]. destruct w as [[b|] n []]; simpl in Hw; try done.
  - exists (IOHandled i true). simpl. unfold processIO_handled. rewrite Hi. by eexists.
  - exists (IOExit i). simpl. unfold processIO_exit. rewrite Hi, Hd. by eexists.
Qed.

Lemma io_dead_stays e io : io_dead io → io_local e = true → io_step e io = None.
Proof.
  intros [Hd _] Hl. destruct (io_step e io) as [io'|] eqn:E; [|done]. exfalso.
  assert (∃ i w, workers io !! i = Some w ∧ finished w = false) as (i & w & Hi & Hw).
  { destruct e as [b|i|i ok|i|]; try done; simpl in E.
    - apply take_inv in E as (b & r & n & _ & H & _). eauto.
    - apply handled_inv in E as (b & n & H & _). eauto.
    - apply exit_inv in E as (n & H & _). eauto. }
  pose proof (Forall_lookup_1 _ _ _ _ Hd Hi). simpl in *. congruence.
Qed.

Lemma io_dead_Submit b io : io_dead io → Submit b io = None.
Proof. intros [_ Hd]. unfold Submit. by rewrite bool_decide_false by lia. Qed.

Lemma Submit_None b io : Submit b io = None → (length (workers io) ≤ length (requestCh io))%nat.
Proof. unfold Submit. case_bool_decide; [done|lia]. Qed.

Lemma Close_begin_inv io io' :
  Close_begin io = Ok io' → doneCh io = false ∧ doneCh io' = true ∧ workers io' = workers io ∧
    requestCh io' = requestCh io ∧ handled io' = handled io.
Proof. unfold Close_begin. destruct (doneCh io); [done|]. by intros [= <-]. Qed.
End flushers.

(** ** What the shutdown needs of a worker *)

(** The worker of a writer with its flushers: its steps, the event of a row
    that is given to it, the closing of [closeCh] (or the cancelling of its
    context) and of the flushers' [doneCh]; [bw_local] are the steps that the
    worker and the flushers make by themselves. *)
Class BatchWriter (W E A : Type) := {
  bw_step : E → W → option W;
  bw_give : A → E;
  bw_close : E;
  bw_closeIO : E;
  bw_local : E → bool;
  bw_io : W → parallelIO (list A);
  bw_submitting : W → option (list A);
  (** the rows in the channel and in open batches *)
  bw_waiting : W → list A;
  bw_closing : W → bool;
  bw_stopped : W → bool;
  bw_measure : W → nat }.

(** The batches in the flushers' channel or on the way into it, with a batch for every row
    that waits. *)
Definition potential `{BatchWriter W E A} (w : W) : nat :=
  length (requestCh (bw_io w)) + length (option_list (bw_submitting w)) + length (bw_waiting w).
(** The rows answered, and those that are not. *)
Definition bw_answered `{BatchWriter W E A} (w : W) : list A := List.concat (answered (bw_io w)).
Definition bw_left `{BatchWriter W E A} (w : W) : list A :=
  List.concat (requestCh (bw_io w)) ++ default [] (bw_submitting w) ++ bw_waiting w.
Definition bw_rows `{BatchWriter W E A} (w : W) : list A :=
  List.concat (requests (bw_io w)) ++ default [] (bw_submitting w) ++ bw_waiting w.

(** The parts of a worker that a step of the shutdown leaves alone. *)
Definition same_work `{BatchWriter W E A} (w w' : W) : Prop :=
  bw_submitting w' = bw_submitting w ∧ bw_waiting w' = bw_waiting w ∧ bw_stopped w' = bw_stopped w.

(** What a step of the worker or of a flusher does to the requests: nothing,
    which a worker in [Submit] cannot do; the worker's [Submit]; or a
    flusher's step. *)
Inductive io_move `{BatchWriter W E A} (w w' : W) : Prop :=
| move_none : bw_submitting w = None → bw_io w' = bw_io w → io_move w w'
| move_submit b : bw_submitting w = Some b → bw_submitting w' = None → Submit b (bw_io w) = Some (bw_io w') → io_move w w'
| move_flush f : io_local f = true → io_step f (bw_io w) = Some (bw_io w') →
    bw_submitting w' = bw_submitting w → io_move w w'.

Class BatchWriterLaws (n : Z) (W E A : Type) `{BatchWriter W E A} (idle : W) (inv : W → Prop) : Prop := {
  bw_idle : inv idle ∧ bw_io idle = NewParallelIO n ∧ bw_closing idle = false ∧ bw_stopped idle = false ∧
            bw_rows idle = [];
  bw_inv_io w : inv w → io_inv n (bw_io w);
  bw_inv_step e w w' : inv w → bw_step e w = Some w' → inv w';
  bw_local_step e w w' :
    inv w → bw_local e = true → bw_step e w = Some w' →
    (bw_measure w' < bw_measure w)%nat ∧ bw_closing w' = bw_closing w ∧
    bw_rows w' ≡ₚ bw_rows w ∧ (potential w' ≤ potential w)%nat;
  bw_local_move e w w' : inv w → bw_local e = true → bw_step e w = Some w' → io_move w w';
  bw_stopped_step e w w' :
    bw_local e = true → bw_stopped w = true → bw_step e w = Some w' → bw_stopped w' = true;
  (** the flushers run by themselves *)
  bw_flusher f w :
    io_local f = true → is_Some (io_step f (bw_io w)) → ∃ e, bw_local e = true ∧ is_Some (bw_step e w);
  (** a worker that has to stop and cannot move is in [Submit] *)
  bw_worker_waits w :
    inv w → bw_closing w = true → bw_stopped w = false → (∀ e, bw_local e = true → bw_step e w = None) →
    ∃ b, bw_submitting w = Some b ∧ Submit b (bw_io w) = None;
  bw_stopped_idle w : inv w → bw_stopped w = true → bw_submitting w = None;
  bw_close_step w :
    ∃ w', bw_step bw_close w = Some w' ∧ bw_io w' = bw_io w ∧ bw_closing w' = true ∧ same_work w w' ∧
          bw_measure w' = bw_measure w;
  bw_closeIO_step w :
    doneCh (bw_io w) = false →
    ∃ w', bw_step bw_closeIO w = Some w' ∧ Close_begin (bw_io w) = Ok (bw_io w') ∧
          bw_closing w' = bw_closing w ∧ same_work w w' ∧ bw_measure w' = bw_measure w;
  bw_give_step x w :
    ∃ w', bw_step (bw_give x) w = Some w' ∧ bw_io w' = bw_io w ∧ bw_closing w' = bw_closing w ∧
          bw_submitting w' = bw_submitting w ∧ bw_stopped w' = bw_stopped w ∧
          bw_waiting w' ≡ₚ bw_waiting w ++ [x] }.

(** ** The shutdown *)

Module Shutdown.
Section shutdown.
Context {W E A : Type} `{Hbw : BatchWriter W E A}.

(** Where the goroutine that calls [gracefulShutdown] is: before the call;
    after [close(closeCh)]; in [parallelIO.Close()], waiting for the flushers;
    in [wg.Wait()], waiting for the worker; after the return. *)
Inductive phase := Running | Closed | WaitFlushers | WaitWorker | Returned.
#[global] Instance phase_eq_dec : EqDecision phase.
Proof. solve_decision. Defined.

(** [started]: the goroutine of the worker has begun to run, which creates
    [parallelIO]; until then it is nil. *)
Record sys := mkSys { writer : W; started : bool; at_ : phase }.

Inductive sevent :=
| SGive (x : A)
| SCancel
| SBegin
| SWorker (e : E)
| SCloseCh
| SCloseIO
| SFlushersDone
| SWorkerDone.

Definition sd_step (e : sevent) (s : sys) : option sys :=
  match e with
  | SGive x => w ← bw_step (bw_give x) (writer s); Some (mkSys w (started s) (at_ s))
  | SCancel => w ← bw_step bw_close (writer s); Some (mkSys w (started s) (at_ s))
  | SBegin => if started s then None else Some (mkSys (writer s) true (at_ s))
  | SWorker e =>
      if started s && bw_local e then w ← bw_step e (writer s); Some (mkSys w true (at_ s)) else None
  | SCloseCh =>
      if bool_decide (at_ s = Running)
      then w ← bw_step bw_close (writer s); Some (mkSys w (started s) Closed) else None
  | SCloseIO =>
      if bool_decide (at_ s = Closed)
      then if started s then w ← bw_step bw_closeIO (writer s); Some (mkSys w true WaitFlushers)
           else Some (mkSys (writer s) false WaitWorker)
      else None
  | SFlushersDone =>
      if bool_decide (at_ s = WaitFlushers) && Close_returns (bw_io (writer s))
      then Some (mkSys (writer s) (started s) WaitWorker) else None
  | SWorkerDone =>
      if bool_decide (at_ s = WaitWorker) && bw_stopped (writer s)
      then Some (mkSys (writer s) (started s) Returned) else None
  end.

Fixpoint sd_run (es : list sevent) (s : sys) : option sys :=
  match es with [] => Some s | e :: r => s ← sd_step e s; sd_run r s end.

(** What happens by itself once no more rows are given. *)
Definition quiet (e : sevent) : bool := match e with SGive _ | SCancel => false | _ => true end.

Definition given (es : list sevent) : list A := es ≫= λ e, match e with SGive x => [x] | _ => [] end.

(** The worker waits in [Submit] for room in a channel that nobody empties. *)
Definition blocked (s : sys) : Prop := io_dead (bw_io (writer s)) ∧ is_Some (bw_submitting (writer s)).

Definition phase_weight (p : phase) : nat :=
  match p with Running => 4 | Closed => 3 | WaitFlushers => 2 | WaitWorker => 1 | Returned => 0 end.
Definition sd_measure (s : sys) : nat :=
  bw_measure (writer s) + phase_weight (at_ s) + (if started s then 0 else 1).

Context (n : Z) (idle : W) (inv : W → Prop) `{Hlaws : !BatchWriterLaws n W E A idle inv}.

Definition start : sys := mkSys idle false Running.

(** *** Invariant *)

Record sinv (es : list sevent) (s : sys) : Prop := {
  si_inv : inv (writer s);
  si_rows : bw_rows (writer s) ≡ₚ given es;
  si_open : at_ s = Running ∨ at_ s = Closed → doneCh (bw_io (writer s)) = false;
  si_flushers : at_ s = WaitFlushers → doneCh (bw_io (writer s)) = true ∧ started s = true;
  si_finished : doneCh (bw_io (writer s)) = true → at_ s = WaitWorker ∨ at_ s = Returned →
    Forall (λ w, finished w = true) (workers (bw_io (writer s)));
  si_closing : at_ s ≠ Running → bw_closing (writer s) = true;
  si_begun : doneCh (bw_io (writer s)) = true → started s = true;
  si_returned : at_ s = Returned → bw_stopped (writer s) = true }.

Lemma sd_given_snoc es e : given (es ++ [e]) = given es ++ match e with SGive x => [x] | _ => [] end.
Proof using Type. unfold given. rewrite bind_app. simpl. by rewrite app_nil_r. Qed.

Lemma rows_same w w' : bw_io w' = bw_io w → same_work w w' → bw_rows w' = bw_rows w ∧ potential w' = potential w.
Proof using Type. intros E1 (E2 & E3 & _). unfold bw_rows, potential. by rewrite E1, E2, E3. Qed.

Lemma rows_closeIO w w' :
  Close_begin (bw_io w) = Ok (bw_io w') → same_work w w' → bw_rows w' = bw_rows w ∧ potential w' = potential w.
Proof using Type.
  intros (_ & _ & H1 & H2 & H3)%Close_begin_inv (E2 & E3 & _).
  unfold bw_rows, potential, requests, answered, inflight. by rewrite E2, E3, H1, H2, H3.
Qed.

Lemma move_doneCh w w' : io_move w w' → doneCh (bw_io w') = doneCh (bw_io w).
Proof using Type.
  intros [_ ->|b _ _ (_ & _ & H & _)%Submit_spec|f Hf H _]; [done|done|].
  by destruct (io_local_step _ _ _ Hf H) as (_ & ? & _).
Qed.

Lemma move_finished w w' :
  io_move w w' → Forall (λ w, finished w = true) (workers (bw_io w)) →
  Forall (λ w, finished w = true) (workers (bw_io w')).
Proof using Type.
  intros [_ ->|b _ _ (_ & -> & _)%Submit_spec|f Hf H _] Hall; [done|done|].
  destruct f as [b|i|i ok|i|]; try done; simpl in H; exfalso.
  - apply take_inv in H as (b & r & k & _ & H & _). by apply (Forall_lookup_1 _ _ _ _ Hall) in H.
  - apply handled_inv in H as (b & k & H & _). by apply (Forall_lookup_1 _ _ _ _ Hall) in H.
  - apply exit_inv in H as (k & H & _). by apply (Forall_lookup_1 _ _ _ _ Hall) in H.
Qed.

Lemma start_inv : sinv [] start.
Proof using Hlaws.
  destruct (bw_idle (inv := inv) (n := n)) as (H1 & H2 & H3 & H4 & H5). unfold start.
  split; simpl; rewrite ?H2, ?H5; try done; by intros ? [].
Qed.

Lemma closed_all_finished (io : parallelIO (list A)) :
  Close_returns io = true → Forall (λ w, finished w = true) (workers io).
Proof using Type. intros [_ H]%andb_prop. apply Forall_forall. intros w Hw. by eapply forallb_forall in H; [|apply list_elem_of_In]. Qed.

Lemma step_inv es e s s' : sinv es s → sd_step e s = Some s' → sinv (es ++ [e]) s'.
Proof using Hlaws.
  intros [I1 I2 I3 I4 I5 I6 I7 I8] Hs.
  assert (∀ w, bw_rows w = bw_rows (writer s) → match e with SGive _ => False | _ => True end →
          bw_rows w ≡ₚ given (es ++ [e])) as Hrows.
  { intros w -> He. rewrite sd_given_snoc, I2. destruct e; try done; by rewrite app_nil_r. }
  destruct e as [x| | |e| | | |]; cbn [sd_step] in Hs.
  - apply bind_Some in Hs as (w & Hw & [= <-]). destruct (bw_give_step x (writer s)) as (w1 & E1 & E2 & E3 & E4 & E5 & E6).
    simplify_eq. split; cbn [writer at_ started]; rewrite ?E2, ?E3, ?E5; try done; [by eapply bw_inv_step|].
    rewrite sd_given_snoc, <- I2. unfold bw_rows. rewrite E2, E4, E6. app_assoc.
  - apply bind_Some in Hs as (w & Hw & [= <-]). destruct (bw_close_step (writer s)) as (w1 & E1 & E2 & E3 & E4 & E5).
    simplify_eq. destruct (rows_same _ _ E2 E4) as [Er _]. destruct E4 as (_ & _ & E4).
    split; cbn [writer at_ started]; rewrite ?E2, ?E3, ?E4; try done; [by eapply bw_inv_step|by apply Hrows].
  - destruct (started s) eqn:Est; [done|]. injection Hs as <-.
    split; cbn [writer at_ started]; try done; [by apply Hrows|]. intros H. by destruct (I4 H).
  - destruct (started s) eqn:Est; [|done]. destruct (bw_local e) eqn:Hl; [|done].
    apply bind_Some in Hs as (w & Hw & [= <-]).
    destruct (bw_local_step (n := n) e _ _ I1 Hl Hw) as (_ & E1 & E2 & _).
    pose proof (bw_local_move (n := n) e _ _ I1 Hl Hw) as Hm. pose proof (move_doneCh _ _ Hm) as Ed.
    split; cbn [writer at_ started]; rewrite ?E1, ?Ed; try done.
    + by eapply bw_inv_step.
    + by rewrite sd_given_snoc, app_nil_r, E2, I2.
    + intros Hd Hp. eapply move_finished; [exact Hm|auto].
    + intros Hp. eapply bw_stopped_step; eauto.
  - case_bool_decide as Hp; [|done]. apply bind_Some in Hs as (w & Hw & [= <-]).
    destruct (bw_close_step (writer s)) as (w1 & E1 & E2 & E3 & E4 & E5). simplify_eq.
    destruct (rows_same _ _ E2 E4) as [Er _].
    split; cbn [writer at_ started]; rewrite ?E2, ?E3; try done;
      [by eapply bw_inv_step|by apply Hrows|by intros; apply I3; left|by intros ? []].
  - case_bool_decide as Hp; [|done]. destruct (started s) eqn:Est.
    + apply bind_Some in Hs as (w & Hw & [= <-]).
      destruct (bw_closeIO_step (writer s)) as (w1 & E1 & E2 & E3 & E4 & E5); [by apply I3; right|]. simplify_eq.
      destruct (rows_closeIO _ _ E2 E4) as [Er _]. apply Close_begin_inv in E2 as (_ & E2 & _).
      split; cbn [writer at_ started]; rewrite ?E2, ?E3; try done;
        [by eapply bw_inv_step|by apply Hrows|by intros []|by intros ? []|by intros; apply I6; rewrite Hp].
    + injection Hs as <-. assert (doneCh (bw_io (writer s)) = false) as Hd by (by apply I3; right).
      split; cbn [writer at_ started]; rewrite ?Hd; try done; [by apply Hrows|by intros; apply I6; rewrite Hp].
  - destruct (bool_decide (at_ s = WaitFlushers)) eqn:Hp; [|done]. destruct (Close_returns _) eqn:Hc; [|done].
    apply bool_decide_eq_true in Hp. injection Hs as <-. destruct (I4 Hp) as [Hd Hst].
    split; cbn [writer at_ started]; try done; [by apply Hrows|by intros []|intros; by apply closed_all_finished|].
    intros _. apply I6. by rewrite Hp.
  - destruct (bool_decide (at_ s = WaitWorker)) eqn:Hp; [|done]. destruct (bw_stopped _) eqn:Hc; [|done].
    apply bool_decide_eq_true in Hp. injection Hs as <-.
    split; cbn [writer at_ started]; try done; [by apply Hrows|by intros []|intros ? _; apply I5; auto|].
    intros _. apply I6. by rewrite Hp.
Qed.

Lemma run_snoc_inv es0 es s s' : sinv es0 s → sd_run es s = Some s' → sinv (es0 ++ es) s'.
Proof using Hlaws.
  revert es0 s. induction es as [|e es IH]; intros es0 s Hi Hr; simpl in Hr.
  - injection Hr as <-. by rewrite app_nil_r.
  - apply bind_Some in Hr as (s1 & H1 & Hr). rewrite cons_middle, (assoc_L (++)).
    eapply IH; [by eapply step_inv|done].
Qed.

Lemma sd_run_inv es s : sd_run es start = Some s → sinv es s.
Proof using Hlaws. apply (run_snoc_inv []), start_inv. Qed.

(** *** Every shutdown ends, or blocks for ever *)

Lemma quiet_decreases es e s s' :
  sinv es s → quiet e = true → sd_step e s = Some s' → (sd_measure s' < sd_measure s)%nat.
Proof using Hlaws.
  intros [I1 I2 I3 I4 I5 I6 I7 I8] Hq Hs. unfold sd_measure.
  destruct e as [x| | |e| | | |]; try done; cbn [sd_step] in Hs.
  - destruct (started s); [done|]. injection Hs as <-. simpl. lia.
  - destruct (started s); [|done]. destruct (bw_local e) eqn:Hl; [|done].
    apply bind_Some in Hs as (w & Hw & [= <-]). destruct (bw_local_step (n := n) e _ _ I1 Hl Hw) as (Hlt & _).
    simpl. lia.
  - case_bool_decide as Hp; [|done]. apply bind_Some in Hs as (w & Hw & [= <-]).
    destruct (bw_close_step (writer s)) as (w1 & E1 & _ & _ & _ & E5). simplify_eq. rewrite Hp. simpl. lia.
  - case_bool_decide as Hp; [|done]. rewrite Hp. destruct (started s).
    + apply bind_Some in Hs as (w & Hw & [= <-]).
      destruct (bw_closeIO_step (writer s)) as (w1 & E1 & _ & _ & _ & E5); [by apply I3; right|]. simplify_eq. simpl. lia.
    + injection Hs as <-. simpl. lia.
  - destruct (bool_decide (at_ s = WaitFlushers)) eqn:Hp; [|done]. apply bool_decide_eq_true in Hp.
    destruct (Close_returns _); [|done]. injection Hs as <-. rewrite Hp. simpl. lia.
  - destruct (bool_decide (at_ s = WaitWorker)) eqn:Hp; [|done]. apply bool_decide_eq_true in Hp.
    destruct (bw_stopped _); [|done]. injection Hs as <-. rewrite Hp. simpl. lia.
Qed.

Lemma quiet_bounded es0 es s s' :
  sinv es0 s → Forall (λ e, quiet e = true) es → sd_run es s = Some s' → (length es + sd_measure s' ≤ sd_measure s)%nat.
Proof using Hlaws.
  revert es0 s. induction es as [|e es IH]; intros es0 s Hi Hq Hr; simpl in Hr; [by injection Hr as <-|].
  apply Forall_cons in Hq as [Hq Hqs]. apply bind_Some in Hr as (s1 & H1 & Hr).
  pose proof (quiet_decreases _ _ _ _ Hi Hq H1). pose proof (IH _ _ (step_inv _ _ _ _ Hi H1) Hqs Hr). simpl. lia.
Qed.

(** Nothing can happen any more. *)
Definition halted (s : sys) : Prop := ∀ e, quiet e = true → sd_step e s = None.

Lemma halted_worker s : started s = true → halted s → ∀ e, bw_local e = true → bw_step e (writer s) = None.
Proof using Type.
  intros Hst Hh e Hl. pose proof (Hh (SWorker e) eq_refl) as H. simpl in H. rewrite Hst, Hl in H. simpl in H.
  by destruct (bw_step e (writer s)).
Qed.

Lemma halted_flushers s f : started s = true → halted s → io_local f = true → io_step f (bw_io (writer s)) = None.
Proof using Hlaws.
  intros Hst Hh Hf. destruct (io_step f (bw_io (writer s))) as [io'|] eqn:Ef; [|done]. exfalso.
  destruct (bw_flusher f (writer s) Hf) as (e & Hl & w & Hw); [by rewrite Ef|].
  pose proof (halted_worker s Hst Hh e Hl). congruence.
Qed.

Lemma halted_finished s :
  started s = true → doneCh (bw_io (writer s)) = true → halted s →
  Forall (λ w, finished w = true) (workers (bw_io (writer s))).
Proof using Hlaws.
  intros Hst Hd Hh. destruct (decide (Forall (λ w, finished w = true) (workers (bw_io (writer s))))) as [H|H]; [done|].
  destruct (io_unfinished_moves _ Hd H) as (f & Hf & io' & Ef). by rewrite (halted_flushers s f Hst Hh Hf) in Ef.
Qed.

Lemma halted_returned_or_blocked es s :
  0 ≤ n → sinv es s → at_ s ≠ Running → halted s → at_ s = Returned ∨ (at_ s = WaitWorker ∧ blocked s).
Proof using Hlaws.
  intros Hn [I1 I2 I3 I4 I5 I6 I7 I8] Hp Hh.
  assert (started s = true) as Hst.
  { pose proof (Hh SBegin eq_refl) as H. simpl in H. by destruct (started s). }
  destruct (at_ s) eqn:Ep; [done|..|by left].
  - exfalso. pose proof (Hh SCloseIO eq_refl) as H. simpl in H. rewrite Ep, Hst in H. simpl in H.
    destruct (bw_closeIO_step (writer s)) as (w1 & E1 & _); [by apply I3; right|]. by rewrite E1 in H.
  - exfalso. destruct (I4 eq_refl) as [Hd _]. pose proof (halted_finished s Hst Hd Hh) as Hf.
    pose proof (Hh SFlushersDone eq_refl) as H. simpl in H. rewrite Ep in H. simpl in H.
    unfold Close_returns in H. rewrite Hd in H. simpl in H.
    destruct (forallb finished (workers (bw_io (writer s)))) eqn:Hall; [done|].
    assert (forallb finished (workers (bw_io (writer s))) = true); [|congruence].
    apply forallb_forall. intros w Hw%list_elem_of_In. by eapply Forall_forall in Hf.
  - right. split; [done|]. destruct (bw_stopped (writer s)) eqn:Hstop.
    { pose proof (Hh SWorkerDone eq_refl) as H. simpl in H. by rewrite Ep, Hstop in H. }
    destruct (bw_worker_waits (n := n) (writer s) I1 (I6 Hp) Hstop (halted_worker s Hst Hh)) as (b & Hb & Hsub).
    split; [|by rewrite Hb]. apply Submit_None in Hsub as Hlen. split; [|done].
    destruct (doneCh (bw_io (writer s))) eqn:Hd; [by apply halted_finished|]. exfalso.
    assert (io_work (bw_io (writer s)) = 0%nat) as Hz.
    { destruct (decide (io_work (bw_io (writer s)) = 0%nat)) as [?|Hne]; [done|].
      destruct (io_progress n _ (bw_inv_io (writer s) I1) Hd Hn ltac:(lia)) as (f & io' & Hf & (i & Hi) & _).
      assert (io_local f = true) as Hl by (by destruct Hi as [-> | ->]).
      by rewrite (halted_flushers s f Hst Hh Hl) in Hf. }
    destruct (Submit_room b n _ (bw_inv_io (writer s) I1) Hn Hz) as [? ?]. congruence.
Qed.

(** *** Blocked for ever *)

Lemma blocked_step es e s s' : sinv es s → blocked s → sd_step e s = Some s' → blocked s' ∧ at_ s' ≠ Returned.
Proof using Hlaws.
  intros [I1 I2 I3 I4 I5 I6 I7 I8] [Hd Hb] Hs. unfold blocked.
  assert (bw_stopped (writer s) = true → False) as Hns.
  { intros Hst. rewrite (bw_stopped_idle (n := n) _ I1 Hst) in Hb. by destruct Hb. }
  assert (at_ s ≠ Returned) as Hr by (intros Hp; by apply Hns, I8).
  destruct e as [x| | |e| | | |]; cbn [sd_step] in Hs.
  - apply bind_Some in Hs as (w & Hw & [= <-]). destruct (bw_give_step x (writer s)) as (w1 & E1 & E2 & _ & E4 & _).
    simplify_eq. cbn [writer at_]. by rewrite E2, E4.
  - apply bind_Some in Hs as (w & Hw & [= <-]). destruct (bw_close_step (writer s)) as (w1 & E1 & E2 & _ & (E4 & _) & _).
    simplify_eq. cbn [writer at_]. by rewrite E2, E4.
  - destruct (started s); [done|]. injection Hs as <-. done.
  - destruct (started s); [|done]. destruct (bw_local e) eqn:Hl; [|done]. exfalso.
    apply bind_Some in Hs as (w & Hw & [= <-]). destruct (bw_local_move (n := n) e _ _ I1 Hl Hw) as [H _|b H _ Hsub|f Hf H _].
    + rewrite H in Hb. by destruct Hb.
    + by rewrite (io_dead_Submit b _ Hd) in Hsub.
    + by rewrite (io_dead_stays f _ Hd Hf) in H.
  - case_bool_decide as Hp; [|done]. apply bind_Some in Hs as (w & Hw & [= <-]).
    destruct (bw_close_step (writer s)) as (w1 & E1 & E2 & _ & (E4 & _) & _). simplify_eq. cbn [writer at_]. by rewrite E2, E4.
  - case_bool_decide as Hp; [|done]. destruct (started s).
    + apply bind_Some in Hs as (w & Hw & [= <-]).
      destruct (bw_closeIO_step (writer s)) as (w1 & E1 & E2 & _ & (E4 & _) & _); [by apply I3; right|]. simplify_eq.
      cbn [writer at_]. rewrite E4. apply Close_begin_inv in E2 as (_ & _ & H1 & H2 & _). unfold io_dead. by rewrite H1, H2.
    + injection Hs as <-. done.
  - destruct (_ && _); [|done]. injection Hs as <-. done.
  - destruct (bool_decide _); [|done]. destruct (bw_stopped (writer s)) eqn:Hst; [|done]. by exfalso; apply Hns.
Qed.

Lemma blocked_run es0 es s s' : sinv es0 s → blocked s → sd_run es s = Some s' → blocked s' ∧ at_ s' ≠ Returned.
Proof using Hlaws.
  revert es0 s. induction es as [|e es IH]; intros es0 s Hi Hb Hr; simpl in Hr.
  - injection Hr as <-. split; [done|]. intros Hp. destruct Hi as [I1 _ _ _ _ _ _ I8]. destruct Hb as [_ Hb].
    rewrite (bw_stopped_idle (n := n) _ I1 (I8 Hp)) in Hb. by destruct Hb.
  - apply bind_Some in Hr as (s1 & H1 & Hr). destruct (blocked_step _ _ _ _ Hi Hb H1) as [Hb1 _].
    by eapply IH; [eapply step_inv| |].
Qed.

(** *** When it cannot block *)

Lemma quiet_potential es e s s' :
  sinv es s → quiet e = true → sd_step e s = Some s' →
  (potential (writer s') ≤ potential (writer s))%nat ∧
  length (workers (bw_io (writer s'))) = length (workers (bw_io (writer s))).
Proof using Hlaws.
  intros [I1 I2 I3 I4 I5 I6 I7 I8] Hq Hs. destruct e as [x| | |e| | | |]; try done; cbn [sd_step] in Hs.
  - destruct (started s); [done|]. by injection Hs as <-.
  - destruct (started s); [|done]. destruct (bw_local e) eqn:Hl; [|done].
    apply bind_Some in Hs as (w & Hw & [= <-]). split; [by destruct (bw_local_step (n := n) e _ _ I1 Hl Hw) as (_ & _ & _ & ?)|].
    destruct (bw_local_move (n := n) e _ _ I1 Hl Hw) as [_ E1|b _ _ E1|f Hf E1 _]; simpl.
    + by rewrite E1.
    + by apply Submit_spec in E1 as (_ & -> & _).
    + by destruct (io_local_step _ _ _ Hf E1) as (_ & _ & ? & _).
  - case_bool_decide as Hp; [|done]. apply bind_Some in Hs as (w & Hw & [= <-]).
    destruct (bw_close_step (writer s)) as (w1 & E1 & E2 & _ & E4 & _). simplify_eq.
    destruct (rows_same _ _ E2 E4) as [_ Ep]. simpl. by rewrite Ep, E2.
  - case_bool_decide as Hp; [|done]. destruct (started s); [|by injection Hs as <-].
    apply bind_Some in Hs as (w & Hw & [= <-]).
    destruct (bw_closeIO_step (writer s)) as (w1 & E1 & E2 & _ & E4 & _); [by apply I3; right|]. simplify_eq.
    destruct (rows_closeIO _ _ E2 E4) as [_ Ep]. simpl. rewrite Ep. by apply Close_begin_inv in E2 as (_ & _ & -> & _).
  - destruct (_ && _); [|done]. by injection Hs as <-.
  - destruct (_ && _); [|done]. by injection Hs as <-.
Qed.

Lemma quiet_never_blocked es0 es s s' :
  sinv es0 s → (potential (writer s) ≤ length (workers (bw_io (writer s))))%nat →
  Forall (λ e, quiet e = true) es → sd_run es s = Some s' → ¬ blocked s'.
Proof using Hlaws.
  revert es0 s. induction es as [|e es IH]; intros es0 s Hi Hp Hq Hr; simpl in Hr.
  - injection Hr as <-. intros [[_ Hd] [b Hb]]. unfold potential in Hp. rewrite Hb in Hp. simpl in Hp. lia.
  - apply Forall_cons in Hq as [Hq Hqs]. apply bind_Some in Hr as (s1 & H1 & Hr).
    destruct (quiet_potential _ _ _ _ Hi Hq H1) as [E1 E2].
    eapply IH; [by eapply step_inv|lia|done|done].
Qed.

Lemma returned_rows es s :
  sinv es s → at_ s = Returned → bw_stopped (writer s) = true ∧
  (doneCh (bw_io (writer s)) = true →
   inflight (bw_io (writer s)) = [] ∧ bw_answered (writer s) ++ bw_left (writer s) ≡ₚ given es).
Proof using Hlaws.
  intros [I1 I2 I3 I4 I5 I6 I7 I8] Hp. split; [auto|]. intros Hd.
  assert (inflight (bw_io (writer s)) = []) as Hfl.
  { destruct (bw_inv_io (writer s) I1) as (_ & _ & _ & Hidle & _). specialize (I5 Hd (or_intror Hp)).
    unfold inflight. induction I5 as [|w ws Hw _ IH]; [done|]. apply Forall_cons in Hidle as [Hi Hs].
    simpl. rewrite (Hi Hw). auto. }
  split; [done|]. rewrite <- I2. unfold bw_answered, bw_left, bw_rows, requests. rewrite Hfl, !concat_app. simpl. app_assoc.
Qed.

Lemma run_began es s s' : at_ s ≠ Running → sd_run es s = Some s' → at_ s' ≠ Running.
Proof using Type.
  revert s. induction es as [|e es IH]; intros s Hp Hr; simpl in Hr; [by injection Hr as <-|].
  apply bind_Some in Hr as (s1 & H1 & Hr). eapply IH; [|done].
  destruct e; cbn [sd_step] in H1;
    repeat match type of H1 with
           | (if ?b then _ else _) = _ => destruct b; [|try done]
           | mbind _ _ = _ => apply bind_Some in H1 as (? & _ & H1)
           end; try done; by injection H1 as <-.
Qed.

(** C28: a shutdown of a writer ends, and returns unless the worker is stuck.
    From the moment [gracefulShutdown] has closed [closeCh], whatever the
    worker and the flushers do: when no more rows are given, finitely many steps
    later nothing moves, and then either the shutdown has returned or the worker
    waits in [Submit] for room in a full channel whose flushers have all
    returned.  In that state nothing that may still happen lets the shutdown
    return.  It is never reached when the channel, the batch being submitted and
    the rows not yet in a batch need no more room than the channel has.  When
    the shutdown has returned the worker has stopped; and when it has closed the
    flushers, which it does unless it came before the worker's goroutine began
    and created them, no row is in a flusher's hands, and the rows given are
    those answered and those left unanswered, each once. *)
Theorem writer_shutdown es s :
  0 ≤ n → sd_run es start = Some s → at_ s ≠ Running →
  (∀ es' s', Forall (λ e, quiet e = true) es' → sd_run es' s = Some s' →
     (length es' ≤ sd_measure s)%nat ∧
     (halted s' → at_ s' = Returned ∨ (at_ s' = WaitWorker ∧ blocked s')) ∧
     ((potential (writer s) ≤ length (workers (bw_io (writer s))))%nat → ¬ blocked s')) ∧
  (blocked s → ∀ es' s', sd_run es' s = Some s' → at_ s' ≠ Returned) ∧
  (at_ s = Returned →
     bw_stopped (writer s) = true ∧
     (doneCh (bw_io (writer s)) = true →
      inflight (bw_io (writer s)) = [] ∧ bw_answered (writer s) ++ bw_left (writer s) ≡ₚ given es)).
Proof using Hlaws.
  intros Hn Hrun Hp. pose proof (sd_run_inv _ _ Hrun) as Hi. split_and!.
  - intros es' s' Hq Hr. pose proof (run_snoc_inv _ _ _ _ Hi Hr) as Hi'. split_and!.
    + pose proof (quiet_bounded _ _ _ _ Hi Hq Hr). lia.
    + apply (halted_returned_or_blocked _ _ Hn Hi'). by eapply run_began.
    + intros Hpot. exact (quiet_never_blocked _ _ _ _ Hi Hpot Hq Hr).
  - intros Hb es' s' Hr. by destruct (blocked_run _ _ _ _ Hi Hb Hr).
  - apply (returned_rows _ _ Hi).
Qed.
End shutdown.
Arguments sys : clear implicits.
Arguments sevent : clear implicits.
End Shutdown.

(** ** The two writers *)

Module Writers.

(** *** Redis *)

Section redis.
Context {A : Type} (BufferSize Workers : Z).
Import Worker.
Implicit Types w : worker A.

Definition redis_measure w : nat :=
  6 * length (eventCh w) + 4 * length (batchBuffer w) + 3 * length (option_list (submitting w)) + io_measure (io w) +
  (if ticker w then 1 else 0) + (if stopped w then 0 else 1).

#[export] Instance redis_writer : BatchWriter (worker A) (event A) A := {|
  bw_step := step BufferSize;
  bw_give := Enqueue;
  bw_close := Close;
  bw_closeIO := Flusher IOClose;
  bw_local e := match e with Take | Tick | SubmitBatch | Stop => true | Flusher f => io_local f | _ => false end;
  bw_io := io;
  bw_submitting := submitting;
  bw_waiting w := batchBuffer w ++ eventCh w;
  bw_closing := closeCh;
  bw_stopped := stopped;
  bw_measure := redis_measure |}.

Definition redis_inv w : Prop := io_inv Workers (io w) ∧ (stopped w = true → submitting w = None).

Lemma redis_flush w :
  submitting w = None →
  let w' := tryFlushBatch w in
  (redis_measure w' ≤ redis_measure w)%nat ∧ closeCh w' = closeCh w ∧ io w' = io w ∧ stopped w' = stopped w ∧
  bw_rows w' = bw_rows w ∧ (potential w' ≤ potential w)%nat.
Proof.
  intros Hs. unfold tryFlushBatch, redis_measure, bw_rows, potential. destruct (batchBuffer w) as [|x b] eqn:Eb; simpl.
  - by rewrite Eb.
  - rewrite Hs, Eb. simpl. split_and!; try done; [lia|rewrite !length_app; simpl; lia].
Qed.

Lemma redis_local e w w' :
  redis_inv w → bw_local e = true → step BufferSize e w = Some w' →
  (redis_measure w' < redis_measure w)%nat ∧ closeCh w' = closeCh w ∧ bw_rows w' ≡ₚ bw_rows w ∧
  (potential w' ≤ potential w)%nat ∧ io_move w w' ∧ (stopped w = true → stopped w' = true).
Proof.
  intros [H1 H2] Hl Hs. destruct e as [x| | | |f| |]; try done; cbn [step] in Hs.
  - destruct (selecting w) eqn:Hsel; [|done]. apply selecting_true in Hsel as [Hst Hsu].
    destruct (eventCh w) as [|x r] eqn:Ee; [done|]. simpl in Hs. set (w1 := mkW _ _ _ _ _ _ _ _) in Hs.
    assert ((redis_measure w1 < redis_measure w)%nat ∧ bw_rows w1 = bw_rows w ∧ potential w1 = potential w) as (M1 & M2 & M3).
    { unfold redis_measure, bw_rows, potential, w1. simpl. rewrite Ee, Hsu, !length_app. simpl. split_and!; [|app_assoc|lia].
      destruct (isTimerRunning w), (ticker w), (stopped w); lia. }
    destruct (redis_flush w1) as (F1 & F2 & F3 & F4 & F5 & F6); [done|].
    destruct (full BufferSize _); injection Hs as <-.
    + rewrite F2, F4, F5. split_and!; [lia|done|by rewrite M2|lia|by apply move_none|done].
    + split_and!; [lia|done|by rewrite M2|lia|by apply move_none|done].
  - destruct (selecting w) eqn:Hsel; [|done]. apply selecting_true in Hsel as [Hst Hsu].
    destruct (ticker w) eqn:Ht; [|done]. injection Hs as <-. set (w1 := mkW _ _ _ _ _ _ _ _).
    destruct (redis_flush w1) as (F1 & F2 & F3 & F4 & F5 & F6); [done|].
    assert ((redis_measure w1 < redis_measure w)%nat ∧ bw_rows w1 = bw_rows w ∧ potential w1 = potential w) as (M1 & M2 & M3).
    { unfold redis_measure, bw_rows, potential, w1. simpl. rewrite Ht, Hsu. simpl. split_and!; [|done|done].
      destruct (stopped w); lia. }
    rewrite F2, F4, F5. split_and!; [lia|done|by rewrite M2|lia|by apply move_none|done].
  - apply bind_Some in Hs as (b & Hb & (i & Hi & [= <-])%bind_Some).
    pose proof (Submit_spec _ _ _ Hi) as (E1 & E2 & E3 & E4 & E5). pose proof (Submit_work _ _ _ Hi) as [E6 _].
    unfold redis_measure, bw_rows, potential, io_measure, unfinished. simpl. rewrite E1, E2, E5, E6, Hb, !concat_app, !length_app. simpl.
    split_and!; [destruct (ticker w), (stopped w); lia|done|by rewrite app_nil_r, <- (assoc_L (++))|lia|by eapply move_submit|done].
  - assert (∃ i, io_step f (io w) = Some i ∧
      w' = mkW (eventCh w) (batchBuffer w) (submitting w) (ticker w) (isTimerRunning w) i (closeCh w) (stopped w))
      as (i & Hi & ->).
    { destruct f; try done; apply bind_Some in Hs as (i' & Hi & [= <-]); eauto. }
    destruct (io_local_step f _ _ Hl Hi) as (E1 & E2 & E3 & E4 & E5).
    unfold redis_measure, bw_rows, potential. simpl. rewrite E4.
    split_and!; [destruct (ticker w), (stopped w); lia|done|done|lia|by apply (move_flush _ _ f)|done].
  - destruct (selecting w) eqn:Hsel; [|done]. apply selecting_true in Hsel as [Hst Hsu].
    destruct (closeCh w) eqn:Hc; [|done]. injection Hs as <-.
    unfold redis_measure, bw_rows, potential. simpl. rewrite Hsu, Hst. simpl.
    split_and!; [lia|done|done|lia|by apply move_none|done].
Qed.

Lemma redis_step_inv e w w' : redis_inv w → step BufferSize e w = Some w' → redis_inv w'.
Proof.
  intros [H1 H2] Hs. unfold redis_inv. destruct e as [x| | | |f| |]; cbn [step] in Hs.
  - by injection Hs as <-.
  - destruct (selecting w) eqn:Hsel; [|done]. apply selecting_true in Hsel as [Hst Hsu].
    destruct (eventCh w); [done|]. injection Hs as <-.
    destruct (full _ _); [unfold tryFlushBatch; simpl; destruct (batchBuffer w ++ _)|]; simpl; by rewrite Hst.
  - destruct (selecting w) eqn:Hsel; [|done]. apply selecting_true in Hsel as [Hst Hsu]. destruct (ticker w); [|done].
    injection Hs as <-. unfold tryFlushBatch. simpl. destruct (batchBuffer w); simpl; by rewrite Hst.
  - apply bind_Some in Hs as (b & Hb & (i & Hi & [= <-])%bind_Some). split; [by eapply Submit_inv_io|done].
  - apply (flusher_batches BufferSize f w) in Hs as (i & Hi & _ & ->). split; [by eapply step_inv_io|done].
  - by injection Hs as <-.
  - destruct (_ && _); [|done]. by injection Hs as <-.
Qed.

#[export] Instance redis_writer_laws : BatchWriterLaws Workers (worker A) (event A) A (idle Workers) redis_inv.
Proof.
  split.
  - split_and!; try done. { split; [apply new_inv|done]. }
    unfold bw_rows, idle. simpl. rewrite app_nil_r.
    pose proof (run_requests Workers [] _ (io_run_new Workers (B := list A))) as H.
    apply Permutation_nil_r in H. by rewrite H.
  - by intros w [].
  - apply redis_step_inv.
  - intros e w w' Hi Hl Hs. destruct (redis_local e w w' Hi Hl Hs) as (? & ? & ? & ? & _). done.
  - intros e w w' Hi Hl Hs. by destruct (redis_local e w w' Hi Hl Hs) as (_ & _ & _ & _ & ? & _).
  - intros e w w' Hl Hst Hs. assert (stopped w' = true); [|done]. destruct e as [x| | | |f| |]; try done; simpl in Hs.
    + unfold selecting in Hs. simpl in Hst. by rewrite Hst in Hs.
    + unfold selecting in Hs. simpl in Hst. by rewrite Hst in Hs.
    + by apply bind_Some in Hs as (b & Hb & (i & Hi & [= <-])%bind_Some).
    + apply (flusher_batches BufferSize f w) in Hs as (i & _ & _ & ->). done.
    + destruct (_ && _); [|done]. by injection Hs as <-.
  - intros f w Hf [i Hi]. exists (Flusher f). split; [done|]. simpl in *. destruct f; try done; simpl in *; rewrite Hi; by eexists.
  - intros w [H1 H2] Hc Hst Hn. simpl in *. destruct (submitting w) as [b|] eqn:Hsu.
    + exists b. split; [done|]. pose proof (Hn SubmitBatch eq_refl) as H. simpl in H. rewrite Hsu in H. simpl in H.
      by destruct (Submit b (io w)).
    + pose proof (Hn Stop eq_refl) as H. simpl in H. unfold selecting in H. by rewrite Hst, Hsu, Hc in H.
  - intros w [_ H]. done.
  - intros w. eexists. split; [done|]. by split_and!.
  - intros w Hd. simpl in *. unfold Close_begin. rewrite Hd. eexists. split; [done|]. split_and!; try done.
  - intros x w. eexists. split; [done|]. split_and!; try done. simpl. app_assoc.
Qed.
End redis.

(** *** SQS *)

Section sqs.
Context {A : Type} (url : A → string) (flushWorkers : Z).
Import Queues.
Implicit Types w : worker A.

Definition queues_seen w : nat := size (queueBatches w) + length (eventCh w).
Definition sqs_measure w : nat := work (queues_seen w) w + unfinished (io w) + (if stopped w then 0 else 1).

#[export] Instance sqs_writer : BatchWriter (worker A) (event A) A := {|
  bw_step := step url;
  bw_give := Enqueue;
  bw_close := Close;
  bw_closeIO := Flusher IOClose;
  bw_local e := match e with
                | Take | Tick _ | FlushNext | SubmitBatch | Stop => true
                | Flusher f => io_local f
                | _ => false
                end;
  bw_io := io;
  bw_submitting := submitting;
  bw_waiting w := open_rows (queueBatches w) ++ eventCh w;
  bw_closing := closeCh;
  bw_stopped := stopped;
  bw_measure := sqs_measure |}.

Definition sqs_inv w : Prop :=
  io_inv flushWorkers (io w) ∧ (stopped w = true → submitting w = None ∧ flushing w = []).

Lemma work_mono q q' w : (q ≤ q')%nat → (work q w ≤ work q' w)%nat.
Proof. unfold work. intros H. pose proof (Nat.mul_le_mono_r q q' (length (eventCh w)) H). destruct (ticker w); lia. Qed.

Lemma sqs_flush u q w :
  submitting w = None → (queues_seen w ≤ q)%nat →
  let w' := tryFlushBatch u w in
  (work q w' ≤ work q w)%nat ∧ (queues_seen w' ≤ q)%nat ∧ closeCh w' = closeCh w ∧ io w' = io w ∧
  stopped w' = stopped w ∧ bw_rows w' ≡ₚ bw_rows w ∧ (potential w' ≤ potential w)%nat.
Proof.
  intros Hs Hq. destruct (queues_tryFlush_work q u w Hs) as [T1 T2].
  destruct (tryFlush_inv u w) as (E1 & E2 & _ & _ & _ & E6 & E7). simpl.
  split_and!; try done; [unfold queues_seen in *; rewrite E1, T2; lia|..];
    unfold tryFlushBatch, bw_rows, potential; destruct (queueBatches w !! u) as [[|x b]|] eqn:E; try done; simpl;
    pose proof (open_rows_lookup _ _ _ E) as H1; pose proof (open_rows_insert u [] (queueBatches w)) as H2; simpl in H2.
  - rewrite Hs, H1, H2. simpl. app_assoc.
  - rewrite Hs, !length_app, H1, H2. simpl. rewrite !length_app. lia.
Qed.

Lemma sqs_local e w w' :
  sqs_inv w → bw_local e = true → step url e w = Some w' →
  (sqs_measure w' < sqs_measure w)%nat ∧ closeCh w' = closeCh w ∧ bw_rows w' ≡ₚ bw_rows w ∧
  (potential w' ≤ potential w)%nat ∧ io_move w w' ∧ (stopped w = true → stopped w' = true).
Proof.
  intros [H1 H2] Hl Hs. pose proof (reflexivity (queues_seen w) : (queues_seen w = queues_seen w)) as Hq.
  unfold sqs_measure. set (q := queues_seen w) in *.
  destruct e as [x| |order| | |f| |]; try done; cbn [step] in Hs.
  - destruct (selecting w) eqn:Hsel; [|done]. apply queues_selecting_true in Hsel as (Hst & Hsu & Hf).
    destruct (eventCh w) as [|x r] eqn:Ee; [done|]. cbn [negb] in Hs. cbv zeta in Hs.
    set (w1 := mkW _ _ _ _ _ _ _ _ _) in Hs.
    assert ((work q w1 < work q w)%nat ∧ (queues_seen w1 ≤ q)%nat ∧ bw_rows w1 ≡ₚ bw_rows w ∧ potential w1 = potential w)
      as (M1 & M0 & M2 & M3).
    { pose proof (open_rows_add (url x) x (queueBatches w)) as Ho.
      pose proof (size_add (url x) (default [] (queueBatches w !! url x) ++ [x]) (queueBatches w)) as Hz.
      unfold work, queues_seen, bw_rows, potential, w1. simpl. rewrite Hsu, !length_app, Ho, Ee, Hf. simpl.
      split_and!; [| |by f_equiv; apply Permutation_middle|lia].
      - destruct (isTimerRunning w), (ticker w); lia.
      - unfold q, queues_seen. rewrite Ee. simpl. lia. }
    destruct (sqs_flush (url x) q w1) as (F1 & F0 & F2 & F3 & F4 & F5 & F6); [done|done|].
    destruct (isMaxedOut _); injection Hs as <-.
    + rewrite F2, F3, F4, F5. pose proof (work_mono _ _ (tryFlushBatch (url x) w1) F0). simpl.
      split_and!; [lia|done|done|lia|by apply move_none|done].
    + pose proof (work_mono _ _ w1 M0). split_and!; [simpl in *; lia|done|done|lia|by apply move_none|done].
  - destruct (selecting w) eqn:Hsel; [|done]. apply queues_selecting_true in Hsel as (Hst & Hsu & Hf).
    destruct (ticker w) eqn:Ht; [|done]. destruct (bool_decide (order ≡ₚ _)) eqn:Ho; [|done].
    apply bool_decide_eq_true, Permutation_length in Ho. rewrite keys_length in Ho. injection Hs as <-.
    unfold work, queues_seen, bw_rows, potential. simpl. rewrite Hsu, Hf, Ht, Hst. simpl.
    split_and!; [unfold q, queues_seen in *; lia|done|done|lia|by apply move_none|done].
  - destruct (submitting w) eqn:Hsu; [done|]. destruct (flushing w) as [|u r] eqn:Hf; [done|]. injection Hs as <-.
    set (w1 := mkW _ _ _ _ _ _ _ _ _).
    destruct (sqs_flush u q w1) as (F1 & F0 & F2 & F3 & F4 & F5 & F6); [done|done|].
    pose proof (work_mono _ _ (tryFlushBatch u w1) F0).
    assert ((work q w1 < work q w)%nat ∧ bw_rows w1 = bw_rows w ∧ potential w1 = potential w) as (M1 & M2 & M3).
    { unfold work, bw_rows, potential, w1. simpl. rewrite Hf, Hsu. simpl. split_and!; [lia|done|done]. }
    rewrite F2, F3, F4, F5, M2. split_and!; [simpl; lia|done|done|lia|by apply move_none|done].
  - apply bind_Some in Hs as (b & Hb & (i & Hi & [= <-])%bind_Some).
    pose proof (Submit_spec _ _ _ Hi) as (E1 & E2 & E3 & E4 & E5). pose proof (Submit_work _ _ _ Hi) as [E6 _].
    unfold work, queues_seen, bw_rows, potential, unfinished. simpl. rewrite E1, E2, E5, E6, Hb, !concat_app, !length_app. simpl.
    unfold q, queues_seen.
    split_and!; [destruct (ticker w), (stopped w); lia|done|by rewrite app_nil_r, <- (assoc_L (++))|lia|by eapply move_submit|done].
  - assert (∃ i, io_step f (io w) = Some i ∧ w' = with_io i w) as (i & Hi & ->).
    { destruct f; try done; apply bind_Some in Hs as (i' & Hi & [= <-]); eauto. }
    destruct (io_local_step f _ _ Hl Hi) as (E1 & E2 & E3 & E4 & E5). unfold io_measure in E1.
    unfold work, queues_seen, bw_rows, potential. simpl. rewrite E4. unfold q, queues_seen.
    split_and!; [destruct (ticker w), (stopped w); lia|done|done|lia|by apply (move_flush _ _ f)|done].
  - destruct (selecting w) eqn:Hsel; [|done]. apply queues_selecting_true in Hsel as (Hst & Hsu & Hf).
    destruct (closeCh w) eqn:Hc; [|done]. injection Hs as <-.
    unfold work, queues_seen, bw_rows, potential. simpl. rewrite Hsu, Hst, Hf. simpl. unfold q, queues_seen.
    split_and!; [lia|done|done|lia|by apply move_none|done].
Qed.

Lemma sqs_step_inv e w w' : sqs_inv w → step url e w = Some w' → sqs_inv w'.
Proof.
  intros [H1 H2] Hs. unfold sqs_inv. destruct e as [x| |order| | |f| |]; cbn [step] in Hs.
  - by injection Hs as <-.
  - destruct (selecting w) eqn:Hsel; [|done]. apply queues_selecting_true in Hsel as (Hst & Hsu & Hf).
    destruct (eventCh w); [done|]. cbn [negb] in Hs. cbv zeta in Hs. set (w1 := mkW _ _ _ _ _ _ _ _ _) in Hs.
    injection Hs as <-. destruct (isMaxedOut _); [|simpl; by rewrite Hst].
    destruct (tryFlush_inv (url a) w1) as (_ & -> & _ & _ & _ & -> & _). simpl. by rewrite Hst.
  - destruct (_ && _ && _) eqn:Hsel; [|done]. apply andb_prop in Hsel as [[Hsel _]%andb_prop _].
    apply queues_selecting_true in Hsel as (Hst & Hsu & Hf). injection Hs as <-. simpl. by rewrite Hst.
  - destruct (submitting w) eqn:Hsu; [done|]. destruct (flushing w) as [|u r] eqn:Hf; [done|]. injection Hs as <-.
    set (w1 := mkW _ _ _ _ _ _ _ _ _). destruct (tryFlush_inv u w1) as (_ & -> & _ & _ & _ & -> & _). simpl.
    split; [done|]. intros Hst. by destruct (H2 Hst).
  - apply bind_Some in Hs as (b & Hb & (i & Hi & [= <-])%bind_Some). split; [by eapply Submit_inv_io|].
    intros Hst. by destruct (H2 Hst).
  - apply (flusher_inv url f w) in Hs as (i & Hi & _ & ->). split; [by eapply step_inv_io|done].
  - by injection Hs as <-.
  - destruct (_ && _); [|done]. by injection Hs as <-.
Qed.

#[export] Instance sqs_writer_laws : BatchWriterLaws flushWorkers (worker A) (event A) A (idle flushWorkers) sqs_inv.
Proof.
  split.
  - split_and!; try done. { split; [apply new_inv|done]. }
    unfold bw_rows, idle. simpl. unfold open_rows. rewrite map_to_list_empty. simpl. rewrite app_nil_r.
    pose proof (run_requests flushWorkers [] _ (io_run_new flushWorkers (B := list A))) as H.
    apply Permutation_nil_r in H. by rewrite H.
  - by intros w [].
  - apply sqs_step_inv.
  - intros e w w' Hi Hl Hs. destruct (sqs_local e w w' Hi Hl Hs) as (? & ? & ? & ? & _). done.
  - intros e w w' Hi Hl Hs. by destruct (sqs_local e w w' Hi Hl Hs) as (_ & _ & _ & _ & ? & _).
  - intros e w w' Hl Hst Hs. assert (stopped w' = true); [|done]. simpl in Hst.
    destruct e as [x| |order| | |f| |]; try done; simpl in Hs.
    + unfold selecting in Hs. by rewrite Hst in Hs.
    + unfold selecting in Hs. by rewrite Hst in Hs.
    + destruct (submitting w); [done|]. destruct (flushing w) as [|u r]; [done|]. injection Hs as <-.
      set (w1 := mkW _ _ _ _ _ _ _ _ _). by destruct (tryFlush_inv u w1) as (_ & _ & _ & _ & _ & -> & _).
    + by apply bind_Some in Hs as (b & Hb & (i & Hi & [= <-])%bind_Some).
    + apply (flusher_inv url f w) in Hs as (i & _ & _ & ->). done.
    + destruct (_ && _); [|done]. by injection Hs as <-.
  - intros f w Hf [i Hi]. exists (Flusher f). split; [done|]. simpl in *. destruct f; try done; simpl in *; rewrite Hi; by eexists.
  - intros w [H1 H2] Hc Hst Hn. simpl in *. destruct (submitting w) as [b|] eqn:Hsu.
    + exists b. split; [done|]. pose proof (Hn SubmitBatch eq_refl) as H. simpl in H. rewrite Hsu in H. simpl in H.
      by destruct (Submit b (io w)).
    + exfalso. pose proof (Hn FlushNext eq_refl) as H. simpl in H. rewrite Hsu in H.
      destruct (flushing w) eqn:Hf; [|done].
      pose proof (Hn Stop eq_refl) as H3. simpl in H3. unfold selecting in H3. by rewrite Hst, Hsu, Hf, Hc in H3.
  - intros w [_ H] Hst. by destruct (H Hst).
  - intros w. eexists. split; [done|]. by split_and!.
  - intros w Hd. simpl in *. unfold Close_begin. rewrite Hd. eexists. split; [done|]. by split_and!.
  - intros x w. eexists. split; [done|]. split_and!; try done. simpl. app_assoc.
Qed.
End sqs.
End Writers.

(** ** The listener *)

Module ListenerShutdown.
Import Tracker TInv Listener Pipeline.
Section listener.
Context {QT : QueueImpl tref t_size} {QR : QueueImpl (readyWriteEntry Tup) ready_size}.
Notation listener := (listener (Tracker.tracker Tup)).

(** An error that is only logged: that of a cancelled context is not. *)
Definition warned (what : string) (err : option goerr) : list (string * goerr) :=
  match err with
  | Some e => if errors_Is e Canceled || errors_Is e DeadlineExceeded then [] else [(what, e)]
  | None => []
  end.

(** [PGBufferedListener.GracefulShutdown] once the writer's shutdown has
    returned, with or without an error; the warnings, and the error returned.
    [lsnTracker.Stop] never fails. *)
Definition GracefulShutdown (writerErr : option goerr) (l : listener)
    : listener * list (string * goerr) * option goerr :=
  (with_lsnTracker (Stop (lsnTracker l)) l, warned "writer shutdown error" writerErr, None).

(** After the shutdown the tracker has stopped and the commit position, which
    [PGReplicator.GracefulShutdown] saves, is the one acknowledged so far: after
    an answer of the writer it is the position which that answer reached, and
    no later answer changes it. *)
Lemma shutdown_position P F writerErr l :
  tinv P F (lsnTracker l) → stopping (lsnTracker l) = false →
  let l' := (GracefulShutdown writerErr l).1.1 in
  stopping (lsnTracker l') = true ∧ tinv P F (lsnTracker l') ∧
  (CommitPos l').2 = maxAcknowledged (lsnTracker l) ∧
  (∀ t enum resp, lsnTracker l = (Tracker.OnSuccess enum resp t).1 → (CommitPos l').2 = (Tracker.OnSuccess enum resp t).2).
Proof.
  intros Hi Hst. simpl. unfold CommitPos. simpl.
  assert (stopping (Stop (lsnTracker l)) = true) as Hs by (unfold Stop; by rewrite Hst).
  pose proof (Stop_tinv _ _ _ Hi) as Hi'. destruct (advance_spec _ _ _ Hi') as (_ & _ & _ & _ & _ & _ & _ & _ & _ & _ & Ha & _).
  destruct (Ha Hs) as [_ Hm].
  assert (maxAcknowledged (Stop (lsnTracker l)) = maxAcknowledged (lsnTracker l)) as E by (unfold Stop; by rewrite Hst).
  split_and!; [done|done|by rewrite Hm, E|]. intros t enum resp Ht. unfold MaxAcknowledged. simpl. by rewrite Hm, E, Ht.
Qed.
End listener.
End ListenerShutdown.

(** ** Concrete shutdowns *)

Module Samples.
Import Shutdown Writers.
Local Open Scope list_scope.

(** A Redis writer of single-row batches with one flusher. *)
Notation rsys := (sys (Worker.worker nat)).
Notation rev_ := (sevent (Worker.event nat) nat).
Notation r_start := (start (Worker.idle 1)).
Notation r_run := (sd_run (Hbw := redis_writer 1)).

(** Three rows arrive while the only flusher is idle: the first fills the
    channel, the worker waits in [Submit] with the second when the writer is
    shut down, and the flusher returns. *)
Definition too_late : list rev_ :=
  [SBegin; SGive 1%nat; SGive 2%nat; SGive 3%nat; SWorker Worker.Take; SWorker Worker.SubmitBatch; SWorker Worker.Take;
   SCloseCh; SCloseIO; SWorker (Worker.Flusher (IOExit 0)); SFlushersDone].
Definition hung : rsys :=
  mkSys (Worker.mkW [3%nat] [] (Some [2%nat]) true true (mkPIO [[1%nat]] [mkPW None 1 true] true []) true false) true WaitWorker.
Example shutdown_hangs : r_run too_late r_start = Some hung ∧ blocked (Hbw := redis_writer 1) hung.
Proof. split; [reflexivity|]. split; [split; [repeat constructor|simpl; lia]|by eexists]. Qed.

(** The same rows when the flusher serves the channel first. *)
Definition in_time : list rev_ :=
  [SBegin; SGive 1%nat; SGive 2%nat; SWorker Worker.Take; SWorker Worker.SubmitBatch; SWorker Worker.Take;
   SWorker (Worker.Flusher (IOTake 0)); SWorker Worker.SubmitBatch; SCloseCh; SCloseIO;
   SWorker (Worker.Flusher (IOHandled 0 true)); SWorker (Worker.Flusher (IOExit 0)); SWorker Worker.Stop;
   SFlushersDone; SWorkerDone].
Definition done_ : rsys :=
  mkSys (Worker.mkW [] [] None true true (mkPIO [[2%nat]] [mkPW None 2 true] true [(mkTR [1%nat] 1 1, true)]) true true) true
        Returned.

Lemma writer_shutdown_witness :
  r_run too_late r_start = Some hung ∧ (∀ es s, r_run es hung = Some s → at_ s ≠ Returned) ∧
  r_run in_time r_start = Some done_ ∧
  bw_answered (H := redis_writer 1) (writer done_) ++ bw_left (H := redis_writer 1) (writer done_) ≡ₚ [1%nat; 2%nat].
Proof.
  assert (r_run too_late r_start = Some hung) as H1 by reflexivity.
  assert (r_run in_time r_start = Some done_) as H2 by reflexivity.
  assert (blocked (Hbw := redis_writer 1) hung) as Hb.
  { split; [split; [repeat constructor|simpl; lia]|by eexists]. }
  split_and!; [exact H1| |exact H2|].
  - destruct (writer_shutdown (Hbw := redis_writer 1) 1 (Worker.idle 1) (redis_inv 1) too_late hung) as (_ & Hh & _);
      [lia|exact H1|discriminate|]. exact (Hh Hb).
  - destruct (writer_shutdown (Hbw := redis_writer 1) 1 (Worker.idle 1) (redis_inv 1) in_time done_) as (_ & _ & Hr);
      [lia|exact H2|discriminate|]. destruct (Hr eq_refl) as [_ Hd]. exact (proj2 (Hd eq_refl)).
Defined.

(** The writer of SQS waits in the same way. *)
Definition q_run := sd_run (Hbw := sqs_writer (fst : string * nat → string)).
Example sqs_shutdown_hangs :
  at_ <$> q_run [SBegin; SGive ("a", 1%nat); SGive ("b", 2%nat); SWorker Queues.Take; SWorker Queues.Take;
                 SWorker (Queues.Tick ["a"; "b"]); SWorker Queues.FlushNext; SWorker Queues.SubmitBatch; SWorker Queues.FlushNext;
                 SCloseCh; SCloseIO; SWorker (Queues.Flusher (IOExit 0)); SFlushersDone] (start (Queues.idle 1)) = Some WaitWorker ∧
  ∀ s, q_run [SBegin; SGive ("a", 1%nat); SGive ("b", 2%nat); SWorker Queues.Take; SWorker Queues.Take;
                 SWorker (Queues.Tick ["a"; "b"]); SWorker Queues.FlushNext; SWorker Queues.SubmitBatch; SWorker Queues.FlushNext;
                 SCloseCh; SCloseIO; SWorker (Queues.Flusher (IOExit 0)); SFlushersDone] (start (Queues.idle 1)) = Some s →
    blocked (Hbw := sqs_writer fst) s.
Proof.
  split; [vm_compute; reflexivity|]. intros s H. vm_compute in H. injection H as <-.
  split; [split; [repeat constructor|simpl; lia]|by eexists].
Qed.
End Samples.
