(* ===== verification/SnapshotPlan.v ===== *)
(** * Planning the snapshot of a table (src/snapshot/manager.go, query_builder.go)

    A table is read in parallel by tasks, each a range of physical row ids
    (ctid) or the table's whole query.  The file holds the configuration and its
    validation (src/config/appconfig/snapshot_config.go), the state of a table,
    the SQL texts, and the splitting of a table into ranges.

    The database is not part of the program: estimates of sizes and the lowest
    and highest row id of a query are arguments. *)

From stdpp Require Import base numbers list gmap strings pretty sorting.
From S2P Require Import Prelude GoStrings OrderedMap PgSchema Decode PgWal BufferedListener.

(** ** Configuration *)

Record SnapshotTableConfig := mkSnapTable { st_Name : string; st_Type : string; st_Query : string }.

Record SnapshotConfig := mkSnapConfig {
  Mode : string; Config : list (option SnapshotTableConfig); BatchSize : Z; ParallelWorkers : Z;
  AbortOnError : bool; QueryTimeout : string; MaxWriteQueueSize : Z }.

Definition ModeOneTime : string := "onetime".
Definition ModeOneTimeOnly : string := "onetime_only".
Definition ModeAuto : string := "auto".
Definition ModeNever : string := "never".
Definition SnapshotTableFull : string := "full".
Definition SnapshotTableQuery : string := "query".

(** The loop over the tables, with the trimmed names it writes back. *)
Fixpoint validate_tables (cs : list (option SnapshotTableConfig)) (seen : gset string)
    : res (list (option SnapshotTableConfig)) :=
  match cs with
  | [] => Ok []
  | None :: _ => Err (GoErr "snapshot config is empty")
  | Some c :: r =>
      let tableName := TrimSpace (st_Name c) in
      if bool_decide (tableName = EmptyString) then Err (GoErr "snapshot table name must not be empty")
      else if bool_decide (tableName ∈ seen) then Err (GoErr "snapshot table is configured more than once")
      else
        let c := mkSnapTable tableName (st_Type c) (st_Query c) in
        if bool_decide (st_Type c = SnapshotTableFull) then
          r ← validate_tables r ({[tableName]} ∪ seen); Ok (Some c :: r)
        else if bool_decide (st_Type c = SnapshotTableQuery) then
          if bool_decide (TrimSpace (st_Query c) = EmptyString) then Err (GoErr "snapshot query must not be empty")
          else r ← validate_tables r ({[tableName]} ∪ seen); Ok (Some c :: r)
        else Err (GoErr "unsupported snapshot type")
  end.

Section validate.
(** [time.ParseDuration] accepts the text. *)
Context (is_duration : string → bool).

Definition Validate (c : SnapshotConfig) : res SnapshotConfig :=
  let mode := if bool_decide (Mode c = EmptyString) then ModeOneTime else Mode c in
  let batch := if bool_decide (BatchSize c ≤ 0) then 1000 else BatchSize c in
  let workers := if bool_decide (ParallelWorkers c ≤ 0) then 1 else ParallelWorkers c in
  if negb (bool_decide (mode = ModeNever)) && bool_decide (Config c = []) then
    Err (GoErr "snapshot config must define at least one table")
  else if negb (bool_decide (QueryTimeout c = EmptyString)) && negb (is_duration (QueryTimeout c)) then
    Err (GoErr "invalid snapshot query timeout")
  else
    tables ← validate_tables (Config c) ∅;
    Ok (mkSnapConfig mode tables batch workers (AbortOnError c) (QueryTimeout c) (MaxWriteQueueSize c)).
End validate.

(** ** The state of a table *)

Inductive SnapshotStatus := StatusPending | StatusInProgress | StatusCompleted | StatusFailed.
#[global] Instance SnapshotStatus_eq_dec : EqDecision SnapshotStatus.
Proof. solve_decision. Defined.

(** Without the times, which only the database sets. *)
Record TableState := mkTS {
  AppName : string; ts_Name : string; SnapshotLSN : string; SnapshotType : string; SnapshotQuery : option string;
  TotalRows : option Z; ProcessedRows : Z; Status : SnapshotStatus; ErrorMessage : option string;
  whereClause : string }.

Definition TotalRowsValue (t : TableState) : Z := default 0 (TotalRows t).

(** ** SQL texts *)

Definition BuildSelectQuery (tableName : string) (columns : list string) (where_ : string) : string :=
  let cols := if bool_decide (columns = []) then "*" else String.concat ", " columns in
  "SELECT " +:+ cols +:+ " FROM " +:+ tableName +:+
    (if bool_decide (where_ = EmptyString) then EmptyString else " WHERE " +:+ where_).

Definition BuildBatchQuery (baseQuery : string) (hasWhereClause : bool) : string :=
  baseQuery +:+ (if hasWhereClause then " AND " else " WHERE ") +:+ "ctid >= $1 AND ctid <= $2" +:+ " ORDER BY ctid".

Definition buildCtidBoundsQuery (tableName where_ : string) : string :=
  "SELECT min(ctid), max(ctid) FROM " +:+ tableName +:+
    (if bool_decide (where_ = EmptyString) then EmptyString else " WHERE " +:+ where_).

Definition snapshotColumnNames (table : option Table) : list string :=
  match table with
  | None => []
  | Some t => col_Name <$> merge_sort col_le (map_to_list (Columns t)).*2
  end.

Definition snapshotQueryColumns (table : option Table) : list string :=
  if HasAllPhysicalColumns table then [] else snapshotColumnNames table.

Definition snapshotKeyMap (columns : list string) (txOpts : TxCommitTimeOptions) : KeyMap.KeyMap :=
  KeyMap.New (if Save txOpts && negb (bool_decide (tco_Name txOpts ∈ columns)) then columns ++ [tco_Name txOpts] else columns).

(** [prepareTableState]: the state to start from, and whether it is to be saved;
    [table] is the listener's table of that name. *)
Definition prepareTableState (appName tableName : string) (tableCfg : SnapshotTableConfig) (state : option TableState)
    (table : option Table) (snapshotLSN : string) : TableState * bool :=
  let fresh :=
    let base := default (mkTS appName tableName EmptyString EmptyString None None 0 StatusPending None EmptyString) state in
    let where_ := if bool_decide (st_Type tableCfg = SnapshotTableQuery)
                  then " ( " +:+ TrimSpace (st_Query tableCfg) +:+ " ) " else EmptyString in
    let query := BuildSelectQuery tableName (snapshotQueryColumns table) where_ in
    (mkTS (AppName base) (ts_Name base) snapshotLSN (st_Type tableCfg) (Some query) None 0 StatusPending None where_, true) in
  match state with
  | Some s => if bool_decide (Status s = StatusCompleted) then (s, false) else fresh
  | None => fresh
  end.

(** ** Ranges of row ids *)

Record TID := mkTID { BlockNumber : Z; OffsetNumber : Z; Valid : bool }.
Record ctidRange := mkRange { r_min : TID; r_max : TID }.
Record ctidBounds := mkBounds { b_min : TID; b_max : TID }.

Definition MaxUint16 : Z := 65535.
Definition makeTID (blockNumber offsetNumber : Z) : TID := mkTID (u32 blockNumber) offsetNumber true.

Definition ceilDiv (a b : Z) : Z := if bool_decide (b ≤ 0) then 0 else Z.quot (i64 (i64 (a + b) - 1)) b.

Record tableEstimate := mkEst { estimatedRows : Z; baseEstimatedRows : Z; totalBlocks : Z }.

Definition blocksPerBatch (estimate : tableEstimate) (batchSize : Z) : Z :=
  if bool_decide (totalBlocks estimate ≤ 0) then 0
  else if bool_decide (batchSize ≤ 0) || bool_decide (estimatedRows estimate ≤ 0) then 1
  else let blocks := ceilDiv (i64 (batchSize * totalBlocks estimate)) (estimatedRows estimate) in
       if bool_decide (blocks ≤ 0) then 1 else blocks.

(** The loop of [splitCtidRange]; [None] is a loop that did not end within the
    fuel. *)
Fixpoint split_from (fuel : nat) (blockStart total perRange : Z) : option (list ctidRange) :=
  if bool_decide (blockStart < total) then
    match fuel with
    | O => None
    | S f =>
        let blockEnd := Z.min (i64 (blockStart + perRange)) total - 1 in
        r ← split_from f (i64 (blockStart + perRange)) total perRange;
        Some (mkRange (makeTID blockStart 0) (makeTID blockEnd MaxUint16) :: r)
    end
  else Some [].
Definition split_fuel (width perRange : Z) : nat := S (Z.to_nat (width / perRange)).

Definition splitCtidRange (total perRange : Z) : option (list ctidRange) :=
  if bool_decide (total ≤ 0) || bool_decide (perRange ≤ 0) then Some []
  else split_from (split_fuel total perRange) 0 total perRange.

(** The loop of [splitCtidRangeBetween]. *)
Fixpoint between_from (fuel : nat) (blockStart maxBlock perRange : Z) : option (list ctidRange) :=
  if bool_decide (blockStart ≤ maxBlock) then
    match fuel with
    | O => None
    | S f =>
        let blockEnd := Z.min (i64 (blockStart + perRange - 1)) maxBlock in
        r ← between_from f (i64 (blockStart + perRange)) maxBlock perRange;
        Some (mkRange (makeTID blockStart 0) (makeTID blockEnd MaxUint16) :: r)
    end
  else Some [].

Definition splitCtidRangeBetween (bounds : ctidBounds) (perRange : Z) : goerr + option (list ctidRange) :=
  let minBlock := BlockNumber (b_min bounds) in
  let maxBlock := BlockNumber (b_max bounds) in
  if bool_decide (maxBlock < minBlock) then inl (GoErr "invalid ctid bounds")
  else if bool_decide (perRange ≤ 0) then inr (Some [])
  else inr (between_from (split_fuel (maxBlock - minBlock + 1) perRange) minBlock maxBlock perRange).

Definition ctidBoundsBlockWidth (bounds : ctidBounds) : goerr + Z :=
  let minBlock := BlockNumber (b_min bounds) in
  let maxBlock := BlockNumber (b_max bounds) in
  if bool_decide (maxBlock < minBlock) then inl (GoErr "invalid ctid bounds") else inr (maxBlock - minBlock + 1).

(** ** Plans *)

Record snapshotTablePlan := mkPlan {
  p_query : string; p_ranges : option (list ctidRange); usesCtidRanges : bool; strategy : string; p_blocksPerBatch : Z }.

Section plan.
(** [config.BatchSize]. *)
Context (batchSize : Z).

Definition shouldRunQuerySnapshotAsSingleTask (estimate : tableEstimate) (maxWorkers : Z) : bool :=
  if bool_decide (estimatedRows estimate ≤ 0) then false
  else let threshold := i64 (batchSize * maxWorkers) in
       if bool_decide (threshold ≤ 0) then false else bool_decide (estimatedRows estimate ≤ threshold).

Definition shouldProbeSparseQueryBounds (estimate : tableEstimate) : bool :=
  if bool_decide (estimatedRows estimate ≤ 0) || bool_decide (baseEstimatedRows estimate ≤ 0) then false
  else bool_decide (i64 (estimatedRows estimate * 100) < i64 (baseEstimatedRows estimate * 10)).

Definition planCtidRanges (baseQuery : string) (hasWhereClause : bool) (estimate : tableEstimate) (strategy : string)
    : snapshotTablePlan :=
  let per := blocksPerBatch estimate batchSize in
  mkPlan (BuildBatchQuery baseQuery hasWhereClause) (splitCtidRange (totalBlocks estimate) per) true strategy per.

(** [bounds]: the answer of [getQueryCtidBounds], an error, no row, or the
    lowest and the highest id. *)
Definition planQuerySnapshotFromBounds (snapshotQuery : string) (estimate : tableEstimate)
    (bounds : goerr + option ctidBounds) (strategy : string) : goerr + snapshotTablePlan :=
  match bounds with
  | inl err => inl err
  | inr None => inr (mkPlan EmptyString (Some []) false (strategy +:+ "_none") 0)
  | inr (Some bounds) =>
      let per := if bool_decide (estimatedRows estimate ≤ 0) then ctidBoundsBlockWidth bounds
                 else inr (blocksPerBatch estimate batchSize) in
      match per with
      | inl err => inl err
      | inr per =>
          match splitCtidRangeBetween bounds per with
          | inl err => inl err
          | inr ranges => inr (mkPlan (BuildBatchQuery snapshotQuery true) ranges true strategy per)
          end
      end
  end.

Definition planSnapshotTable (st : TableState) (estimate : tableEstimate) (maxWorkers : Z)
    (bounds : goerr + option ctidBounds) : goerr + snapshotTablePlan :=
  match SnapshotQuery st with
  | None => inl (GoErr "snapshot query for table is not set")
  | Some query =>
      if bool_decide (whereClause st = EmptyString) then inr (planCtidRanges query false estimate "ctid_range")
      else if bool_decide (estimatedRows estimate = 0) then
        planQuerySnapshotFromBounds query estimate bounds "empty_query_bounds"
      else if shouldRunQuerySnapshotAsSingleTask estimate maxWorkers then
        inr (mkPlan query (Some []) false "single_query" 0)
      else
        let full := planCtidRanges query true estimate "ctid_range" in
        if shouldProbeSparseQueryBounds estimate then
          match planQuerySnapshotFromBounds query estimate bounds "sparse_query_bounds" with
          | inr plan => inr plan
          | inl _ => inr full
          end
        else inr full
  end.
End plan.

(** A task of [runSnapshotLoop]: a query with the bounds of its range, if any. *)
Definition plan_tasks (plan : snapshotTablePlan) : option (list (string * option ctidRange)) :=
  ranges ← p_ranges plan;
  Some (if usesCtidRanges plan && negb (bool_decide (length ranges = 0%nat))
        then (λ r, (p_query plan, Some r)) <$> ranges
        else if negb (usesCtidRanges plan) && negb (bool_decide (p_query plan = EmptyString))
        then [(p_query plan, None)] else []).

(** ** Validation *)

Definition table_ok (o : option SnapshotTableConfig) : Prop :=
  ∃ c, o = Some c ∧ TrimSpace (st_Name c) ≠ EmptyString ∧
    (st_Type c = SnapshotTableFull ∨ st_Type c = SnapshotTableQuery ∧ TrimSpace (st_Query c) ≠ EmptyString).
Definition trimmed_names (cs : list (option SnapshotTableConfig)) : list string :=
  omap (fmap (TrimSpace ∘ st_Name)) cs.
Definition trim_name (c : SnapshotTableConfig) : SnapshotTableConfig := mkSnapTable (TrimSpace (st_Name c)) (st_Type c) (st_Query c).

(** Tables that can be snapshot, none of them seen before. *)
Definition tables_ok (cs : list (option SnapshotTableConfig)) (seen : gset string) : Prop :=
  Forall table_ok cs ∧ NoDup (trimmed_names cs) ∧ Forall (λ n, n ∉ seen) (trimmed_names cs).

Lemma tables_ok_cons c r seen :
  tables_ok (Some c :: r) seen ↔
  table_ok (Some c) ∧ TrimSpace (st_Name c) ∉ seen ∧ tables_ok r ({[TrimSpace (st_Name c)]} ∪ seen).
Proof.
  unfold tables_ok, trimmed_names. csimpl. rewrite Forall_cons, NoDup_cons, Forall_cons. split.
  - intros (? & [Hn ?] & ? & Hs). split_and!; try done; [tauto..|]. rewrite Forall_forall in Hs |- *.
    intros n Hin. specialize (Hs n Hin). set_solver.
  - intros (? & ? & ? & ? & Hs). rewrite Forall_forall in Hs. split_and!; try done; try tauto.
    + intros Hin. apply Hs in Hin. set_solver.
    + apply Forall_forall. intros n Hin%Hs. set_solver.
Qed.

Lemma validate_tables_spec cs seen :
  match validate_tables cs seen with
  | Ok cs' => tables_ok cs seen ∧ cs' = option_map trim_name <$> cs
  | Err _ => ¬ tables_ok cs seen
  | _ => False
  end.
Proof.
  revert seen. induction cs as [|[c|] r IH]; intros seen; cbn [validate_tables].
  { split; [|done]. split_and!; constructor. }
  2: { intros (H & _). inversion H as [|? ? (c & Hc & _)]. done. }
  set (n := TrimSpace (st_Name c)). specialize (IH ({[n]} ∪ seen)).
  assert (table_ok (Some c) → n ∉ seen →
    match r ← validate_tables r ({[n]} ∪ seen); Ok (Some (mkSnapTable n (st_Type c) (st_Query c)) :: r) with
    | Ok cs' => tables_ok (Some c :: r) seen ∧ cs' = option_map trim_name <$> Some c :: r
    | Err _ => ¬ tables_ok (Some c :: r) seen
    | _ => False
    end) as Hrec.
  { intros Hc Hn. destruct (validate_tables r ({[n]} ∪ seen)) as [r'| | |]; res_step; [|rewrite tables_ok_cons; tauto|done..].
    destruct IH as [IH ->]. split; [by apply tables_ok_cons|done]. }
  assert (∀ P, tables_ok (Some c :: r) seen → ((∃ c', Some c = Some c' ∧ TrimSpace (st_Name c') ≠ EmptyString ∧
     (st_Type c' = SnapshotTableFull ∨ st_Type c' = SnapshotTableQuery ∧ TrimSpace (st_Query c') ≠ EmptyString)) → n ∉ seen → P) → P) as Hno.
  { intros P H%tables_ok_cons HP. apply HP; tauto. }
  cbv zeta. cbn [st_Type st_Query]. case_bool_decide as H1.
  { intros H. apply (Hno _ H). by intros (c' & [= <-] & H2 & _). }
  case_bool_decide as H2; [intros H; by apply (Hno _ H)|].
  case_bool_decide as H3; [apply Hrec; [|done]; exists c; tauto|].
  case_bool_decide as H4; [|intros H; apply (Hno _ H); intros (c' & [= <-] & _ & [?|[? _]]); congruence].
  case_bool_decide as H5; [|apply Hrec; [|done]; exists c; tauto].
  intros H. apply (Hno _ H). intros (c' & [= <-] & _ & [?|[_ ?]]); congruence.
Qed.

Section validated.
Context (is_duration : string → bool).

Definition acceptable (c : SnapshotConfig) : Prop :=
  (Mode c ≠ ModeNever → Config c ≠ []) ∧ (QueryTimeout c = EmptyString ∨ is_duration (QueryTimeout c) = true) ∧
  Forall table_ok (Config c) ∧ NoDup (trimmed_names (Config c)).

Lemma acceptable_tables c : acceptable c ↔
  (Mode c ≠ ModeNever → Config c ≠ []) ∧ (QueryTimeout c = EmptyString ∨ is_duration (QueryTimeout c) = true) ∧
  tables_ok (Config c) ∅.
Proof using Type.
  unfold acceptable, tables_ok. split; [|tauto]. intros (? & ? & ? & ?). split_and!; try done.
  apply Forall_forall. intros n _. apply not_elem_of_empty.
Qed.

Lemma Validate_spec c :
  match Validate is_duration c with
  | Ok c' => acceptable c ∧
      c' = mkSnapConfig (if bool_decide (Mode c = EmptyString) then ModeOneTime else Mode c) (option_map trim_name <$> Config c)
             (if bool_decide (BatchSize c ≤ 0) then 1000 else BatchSize c)
             (if bool_decide (ParallelWorkers c ≤ 0) then 1 else ParallelWorkers c)
             (AbortOnError c) (QueryTimeout c) (MaxWriteQueueSize c)
  | Err _ => ¬ acceptable c
  | _ => False
  end.
Proof using Type.
  unfold Validate. cbv zeta. set (mode := if bool_decide (Mode c = EmptyString) then ModeOneTime else Mode c).
  assert (mode = ModeNever ↔ Mode c = ModeNever) as Hmode.
  { unfold mode. case_bool_decide as E; [rewrite E; split; discriminate|done]. }
  rewrite (bool_decide_ext _ _ Hmode). destruct (negb (bool_decide (Mode c = ModeNever)) && _) eqn:H1.
  { apply andb_prop in H1 as [H1 H2]. apply negb_true_iff, bool_decide_eq_false in H1. apply bool_decide_eq_true in H2.
    intros (H & _). by apply H. }
  destruct (negb (bool_decide (QueryTimeout c = EmptyString)) && _) eqn:H2.
  { apply andb_prop in H2 as [H2 H3]. apply negb_true_iff, bool_decide_eq_false in H2.
    intros (_ & [?|H] & _); [done|]. by rewrite H in H3. }
  pose proof (validate_tables_spec (Config c) ∅) as Ht. pose proof (acceptable_tables c) as Ha.
  destruct (validate_tables (Config c) ∅) as [cs| | |]; res_step; [|tauto|done..].
  destruct Ht as [Ht ->]. split; [|done]. apply Ha. split_and!; [|..|done].
  - intros Hm. rewrite bool_decide_false in H1 by done. simpl in H1. by apply bool_decide_eq_false in H1.
  - case_bool_decide; [by left|right]. simpl in H2. by destruct (is_duration _).
Qed.

Lemma default_positive x d : 0 < d → 0 < if bool_decide (x ≤ 0) then d else x.
Proof using Type. case_bool_decide; lia. Qed.

Lemma table_ok_trim o : table_ok o → table_ok (option_map trim_name o).
Proof using Type. intros (c & -> & H1 & H2). exists (trim_name c). simpl. by rewrite TrimSpace_idemp. Qed.

Lemma trimmed_names_trim cs : trimmed_names (option_map trim_name <$> cs) = trimmed_names cs.
Proof using Type.
  unfold trimmed_names. induction cs as [|[c|] r IH]; csimpl; [done| |exact IH]. by rewrite TrimSpace_idemp, IH.
Qed.

(** C25: the validation of a snapshot configuration accepts exactly the
    configurations whose tables have distinct non-empty names (after trimming)
    and a known type, with a condition where one is needed.  What it returns
    has a mode, a positive batch size and number of workers and trimmed names,
    and is accepted unchanged when it is validated again. *)
Theorem snapshot_config_validated c :
  match Validate is_duration c with
  | Ok c' => acceptable c ∧ Mode c' ≠ EmptyString ∧ 0 < BatchSize c' ∧ 0 < ParallelWorkers c' ∧
      Config c' = option_map trim_name <$> Config c ∧ Validate is_duration c' = Ok c'
  | Err _ => ¬ acceptable c
  | _ => False
  end.
Proof using Type.
  pose proof (Validate_spec c) as H. destruct (Validate is_duration c) as [c'| | |]; [|done..]. destruct H as [Hc ->]. simpl.
  assert ((if bool_decide (Mode c = EmptyString) then ModeOneTime else Mode c) ≠ EmptyString) as Hm by (by case_bool_decide).
  assert (0 < if bool_decide (BatchSize c ≤ 0) then 1000 else BatchSize c) as Hb by (apply default_positive; lia).
  assert (0 < if bool_decide (ParallelWorkers c ≤ 0) then 1 else ParallelWorkers c) as Hw by (apply default_positive; lia).
  split_and!; try done. set (c' := mkSnapConfig _ _ _ _ _ _ _).
  pose proof (Validate_spec c') as H. destruct (Validate is_duration c') as [c2|e| |]; [|exfalso|done..].
  - destruct H as [_ ->]. unfold c'. cbn [Mode Config BatchSize ParallelWorkers AbortOnError QueryTimeout MaxWriteQueueSize].
    rewrite (bool_decide_false (_ = EmptyString) Hm).
    do 2 f_equal; [|rewrite bool_decide_false by lia; done..].
    rewrite <- list_fmap_compose. apply list_fmap_ext. intros _ [d|] _; [|done]. simpl. unfold trim_name. simpl.
    by rewrite TrimSpace_idemp.
  - apply H. destruct Hc as (H1 & H2 & H3 & H4). split_and!; simpl.
    + intros Hn E. apply fmap_nil_inv in E. apply H1; [|done]. intros E'. rewrite E' in Hn. done.
    + done.
    + apply Forall_fmap. eapply Forall_impl; [exact H3|]. apply table_ok_trim.
    + by rewrite trimmed_names_trim.
Qed.
End validated.

(** ** Every row is read once *)

(** The order of row ids in PostgreSQL. *)
Definition tid_le (a b : TID) : bool :=
  bool_decide (BlockNumber a < BlockNumber b ∨ BlockNumber a = BlockNumber b ∧ OffsetNumber a ≤ OffsetNumber b).
(** The query of a task returns the row. *)
Definition task_reads (t : TID) (task : string * option ctidRange) : bool :=
  match task.2 with None => true | Some r => tid_le (r_min r) t && tid_le t (r_max r) end.
Definition readers (t : TID) (tasks : list (string * option ctidRange)) : nat :=
  length (filter (λ k, task_reads t k = true) tasks).

Definition row_id (t : TID) : Prop := 0 ≤ BlockNumber t < two32 ∧ 0 ≤ OffsetNumber t ≤ MaxUint16.

Lemma range_reads q lo hi t :
  row_id t → 0 ≤ lo → hi < two32 → lo ≤ hi →
  task_reads t (q, Some (mkRange (makeTID lo 0) (makeTID hi MaxUint16))) = bool_decide (lo ≤ BlockNumber t ≤ hi).
Proof.
  intros [Hb Ho] H0 H1 H2. unfold task_reads, tid_le, makeTID. simpl. rewrite !u32_small by lia.
  repeat case_bool_decide; simpl; try done; exfalso; lia.
Qed.

Lemma readers_cons t k ks : readers t (k :: ks) = ((if task_reads t k then 1 else 0) + readers t ks)%nat.
Proof. unfold readers. rewrite filter_cons. case_decide as H; destruct (task_reads t k); done. Qed.

(** Ranges that begin at [lo] and end before [hi] read each row of these blocks
    once, and no other. *)
Definition covers (lo hi : Z) (q : string) (ranges : list ctidRange) : Prop :=
  ∀ t, row_id t → readers t ((λ r, (q, Some r)) <$> ranges) = if bool_decide (lo ≤ BlockNumber t < hi) then 1%nat else 0%nat.

Lemma covers_nil lo hi q : hi ≤ lo → covers lo hi q [].
Proof. intros H t Ht. rewrite bool_decide_false by lia. done. Qed.

Lemma covers_cons lo mid hi q ranges :
  0 ≤ lo → lo < mid → mid ≤ hi → hi ≤ two32 → covers mid hi q ranges →
  covers lo hi q (mkRange (makeTID lo 0) (makeTID (mid - 1) MaxUint16) :: ranges).
Proof.
  intros H0 H1 H2 H3 Hc t Ht. rewrite fmap_cons, readers_cons, (Hc t Ht), range_reads by (done || lia).
  repeat case_bool_decide; try done; exfalso; lia.
Qed.

Definition max_per : Z := 2305843009213693952.

Lemma split_from_covers fuel lo hi per q :
  0 ≤ lo → hi ≤ two32 → lo ≤ max_per + two32 → 0 < per ≤ max_per → hi - lo ≤ Z.of_nat fuel * per →
  ∃ rs, split_from fuel lo hi per = Some rs ∧ covers lo hi q rs.
Proof.
  revert lo. induction fuel as [|f IH]; intros lo H0 H1 Hlo Hp Hf; cbn [split_from]; case_bool_decide as Hlt.
  - lia.
  - exists []. split; [done|apply covers_nil; lia].
  - unfold two32, max_per in *.
    assert (i64 (lo + per) = lo + per) as -> by (apply i64_small; unfold two63, two32, max_per in *; lia).
    destruct (decide (lo + per < hi)) as [Hm|Hm].
    + destruct (IH (lo + per)) as (rs & -> & Hc); [lia|lia|lia|lia|nia|]. simpl. eexists. split; [done|].
      rewrite Z.min_l by lia. apply covers_cons; unfold two32; [lia|lia|lia|lia|done].
    + exists [mkRange (makeTID lo 0) (makeTID (hi - 1) MaxUint16)]. rewrite Z.min_r by lia. split.
      * destruct f; simpl; rewrite bool_decide_false by lia; done.
      * apply covers_cons; unfold two32; [lia|lia|lia|lia|apply covers_nil; lia].
  - exists []. split; [done|apply covers_nil; lia].
Qed.

Lemma between_is_split fuel lo hi per :
  0 ≤ lo → hi < two32 → lo ≤ max_per + two32 → 0 < per ≤ max_per →
  between_from fuel lo hi per = split_from fuel lo (hi + 1) per.
Proof.
  revert lo. unfold two32, max_per in *. induction fuel as [|f IH]; intros lo H0 H1 H2 H3; cbn [between_from split_from].
  - repeat case_bool_decide; try done; exfalso; lia.
  - rewrite (bool_decide_ext (lo ≤ hi) (lo < hi + 1)) by lia. case_bool_decide as Hl; [|done].
    rewrite !i64_small by (unfold two63; lia). rewrite IH by lia.
    by replace (Z.min (lo + per - 1) hi) with (Z.min (lo + per) (hi + 1) - 1) by lia.
Qed.

Lemma split_fuel_enough width per : 0 ≤ width → 0 < per → width ≤ Z.of_nat (split_fuel width per) * per.
Proof.
  intros Hw Hp. unfold split_fuel. rewrite Nat2Z.inj_succ, Z2Nat.id by (apply Z.div_pos; lia).
  pose proof (Z.mul_succ_div_gt width per Hp). lia.
Qed.

Lemma blocksPerBatch_bounds est batchSize :
  0 < totalBlocks est ≤ two32 → 0 ≤ batchSize ≤ 536870912 → estimatedRows est < max_per →
  0 < blocksPerBatch est batchSize ≤ max_per.
Proof.
  unfold blocksPerBatch, two32, max_per. intros Ht Hb He.
  rewrite bool_decide_false by lia. destruct (bool_decide (batchSize ≤ 0)) eqn:E1; [simpl; lia|].
  destruct (bool_decide (estimatedRows est ≤ 0)) eqn:E2; [simpl; lia|].
  apply bool_decide_eq_false in E1, E2. cbn [orb]. cbv zeta.
  assert (0 < batchSize * totalBlocks est ≤ 2305843009213693952) as Hm by nia.
  rewrite (i64_small (_ * _)) by (unfold two63; lia). unfold ceilDiv.
  rewrite (bool_decide_false (estimatedRows est ≤ 0)) by lia.
  set (a := batchSize * totalBlocks est) in *.
  rewrite (i64_small (a + _)) by (unfold two63; lia). rewrite (i64_small (_ - 1)) by (unfold two63; lia).
  rewrite Z.quot_div_nonneg by lia.
  assert ((a + estimatedRows est - 1) / estimatedRows est ≤ a) by (apply Z.div_le_upper_bound; nia).
  case_bool_decide; lia.
Qed.

Lemma splitCtidRange_covers total per q :
  total ≤ two32 → 0 < per ≤ max_per → ∃ rs, splitCtidRange total per = Some rs ∧ covers 0 total q rs.
Proof.
  intros Ht Hp. unfold splitCtidRange. rewrite (bool_decide_false (per ≤ 0)) by lia. rewrite orb_false_r.
  case_bool_decide as H0; [exists []; split; [done|by apply covers_nil]|].
  apply split_from_covers; [lia|done|unfold max_per, two32; lia|done|].
  rewrite Z.sub_0_r. apply split_fuel_enough; lia.
Qed.

Lemma splitCtidRangeBetween_covers b per q :
  0 ≤ BlockNumber (b_min b) ≤ BlockNumber (b_max b) → BlockNumber (b_max b) < two32 → 0 < per ≤ max_per →
  ∃ rs, splitCtidRangeBetween b per = inr (Some rs) ∧ covers (BlockNumber (b_min b)) (BlockNumber (b_max b) + 1) q rs.
Proof.
  intros H1 H2 H3. unfold splitCtidRangeBetween. rewrite bool_decide_false by lia. rewrite bool_decide_false by lia.
  rewrite between_is_split by (done || unfold max_per, two32 in *; lia).
  destruct (split_from_covers (split_fuel (BlockNumber (b_max b) - BlockNumber (b_min b) + 1) per)
              (BlockNumber (b_min b)) (BlockNumber (b_max b) + 1) per q) as (rs & -> & Hc);
    [lia|lia|unfold max_per, two32 in *; lia|done| |by exists rs].
  pose proof (split_fuel_enough (BlockNumber (b_max b) - BlockNumber (b_min b) + 1) per). lia.
Qed.

(** What the query for the lowest and highest id may answer, for the rows that
    the condition selects. *)
Definition bounds_right (rows : list TID) (bounds : goerr + option ctidBounds) : Prop :=
  match bounds with
  | inl _ => True
  | inr None => rows = []
  | inr (Some b) => 0 ≤ BlockNumber (b_min b) ≤ BlockNumber (b_max b) ∧ BlockNumber (b_max b) < two32 ∧
      Forall (λ t, BlockNumber (b_min b) ≤ BlockNumber t ≤ BlockNumber (b_max b)) rows
  end.

(** Tasks that read every row once. *)
Definition complete (rows : list TID) (plan : snapshotTablePlan) : Prop :=
  ∃ tasks, plan_tasks plan = Some tasks ∧ Forall (λ t, readers t tasks = 1%nat) rows.

Lemma ranges_complete rows lo hi q rs s per :
  Forall row_id rows → Forall (λ t, lo ≤ BlockNumber t < hi) rows → covers lo hi q rs →
  complete rows (mkPlan q (Some rs) true s per).
Proof.
  intros Hr Hb Hc. unfold complete, plan_tasks. simpl. eexists. split; [done|].
  apply Forall_forall. intros t Ht. rewrite Forall_forall in Hr, Hb. specialize (Hr t Ht). specialize (Hb t Ht).
  pose proof (Hc t Hr) as E. rewrite bool_decide_true in E by done.
  destruct rs as [|r rs]; [done|]. exact E.
Qed.

Section complete.
Context (batchSize : Z) (Hbatch : 0 ≤ batchSize ≤ 536870912).
Context (est : tableEstimate) (Htotal : totalBlocks est ≤ two32) (Hest : estimatedRows est < max_per).
Context (rows : list TID).
Context (Hrows : Forall (λ t, row_id t ∧ BlockNumber t < totalBlocks est) rows).

Lemma rows_ids : Forall row_id rows.
Proof using Hrows. eapply Forall_impl; [exact Hrows|]. intros t [H _]. exact H. Qed.

Lemma full_complete q hasWhere s : complete rows (planCtidRanges batchSize q hasWhere est s).
Proof using Hbatch Hest Hrows Htotal.
  unfold planCtidRanges. destruct (decide (0 < totalBlocks est)) as [H0|H0].
  - destruct (splitCtidRange_covers (totalBlocks est) (blocksPerBatch est batchSize) (BuildBatchQuery q hasWhere))
      as (rs & -> & Hc); [done|by apply blocksPerBatch_bounds|].
    eapply ranges_complete; [apply rows_ids| |exact Hc]. eapply Forall_impl; [exact Hrows|].
    intros t [[Hb _] Ht]. simpl in *. lia.
  - destruct rows as [|t r].
    + unfold splitCtidRange. rewrite bool_decide_true by lia. by exists [].
    + inversion_clear Hrows as [|? ? [[Hb _] Ht] _]. lia.
Qed.

Lemma bounds_complete q bounds s :
  bounds_right rows bounds →
  match planQuerySnapshotFromBounds batchSize q est bounds s with
  | inl err => bounds = inl err
  | inr plan => complete rows plan
  end.
Proof using Hbatch Hest Hrows Htotal.
  unfold planQuerySnapshotFromBounds. destruct bounds as [err|[b|]]; simpl; [done| |intros ->; by exists []].
  intros (H1 & H2 & H3).
  assert (rows = [] ∨ 0 < totalBlocks est) as [Er|Hz].
  { destruct rows as [|t0 r0]; [by left|right]. inversion_clear Hrows as [|? ? [[Hb _] Ht] _]. lia. }
  - rewrite Er. destruct (if bool_decide (estimatedRows est ≤ 0) then ctidBoundsBlockWidth b else _) as [err|per] eqn:Ep.
    + case_bool_decide; [|done]. unfold ctidBoundsBlockWidth in Ep. rewrite bool_decide_false in Ep by lia. done.
    + destruct (decide (0 < per ≤ max_per)) as [Hp|Hp].
      * destruct (splitCtidRangeBetween_covers b per (BuildBatchQuery q true) H1 H2 Hp) as (rs & -> & _).
        eexists. split; [done|constructor].
      * unfold splitCtidRangeBetween. rewrite bool_decide_false by lia.
        assert (per ≤ 0) as Hn.
        { case_bool_decide as He.
          - unfold ctidBoundsBlockWidth in Ep. rewrite bool_decide_false in Ep by lia. injection Ep as <-.
            unfold max_per, two32 in *. lia.
          - injection Ep as <-. destruct (decide (0 < totalBlocks est)) as [Hz|Hz].
            + destruct Hp. by apply blocksPerBatch_bounds.
            + unfold blocksPerBatch. rewrite bool_decide_true by lia. lia. }
        rewrite bool_decide_true by done. by exists [].
  - assert (∃ per, (if bool_decide (estimatedRows est ≤ 0) then ctidBoundsBlockWidth b
                    else inr (blocksPerBatch est batchSize)) = inr per ∧ 0 < per ≤ max_per) as (per & -> & Hp).
    { case_bool_decide as He.
      - unfold ctidBoundsBlockWidth. rewrite bool_decide_false by lia. eexists. split; [done|].
        unfold max_per, two32 in *. lia.
      - eexists. split; [done|]. by apply blocksPerBatch_bounds. }
    destruct (splitCtidRangeBetween_covers b per (BuildBatchQuery q true) H1 H2 Hp) as (rs & -> & Hc).
    eapply ranges_complete; [by apply rows_ids| |exact Hc].
    eapply Forall_impl; [exact H3|]. simpl. lia.
Qed.

(** Every row of a table that its query selects is read by exactly one task
    of the snapshot, whichever strategy is chosen: the loops that split the
    table end, and the ranges neither overlap nor leave a block out, up to the
    largest table PostgreSQL allows.  Planning fails only when the probe for
    row ids fails for a query estimated to be empty. *)
Lemma plan_reads_each_row_once st query maxWorkers bounds :
  SnapshotQuery st = Some query → query ≠ EmptyString → bounds_right rows bounds →
  match planSnapshotTable batchSize st est maxWorkers bounds with
  | inl err => bounds = inl err ∧ estimatedRows est = 0 ∧ whereClause st ≠ EmptyString
  | inr plan => ∃ tasks, plan_tasks plan = Some tasks ∧ Forall (λ t, readers t tasks = 1%nat) rows
  end.
Proof using Hbatch Hest Hrows Htotal.
  intros Hq Hne Hb. unfold planSnapshotTable. rewrite Hq.
  case_bool_decide as Hw; [apply full_complete|]. case_bool_decide as He.
  - pose proof (bounds_complete query bounds "empty_query_bounds" Hb) as H.
    destruct (planQuerySnapshotFromBounds _ _ _ _ _); [done|exact H].
  - destruct (shouldRunQuerySnapshotAsSingleTask _ _ _).
    + unfold plan_tasks. simpl. rewrite bool_decide_false by done. eexists. split; [done|].
      apply Forall_forall. done.
    + destruct (shouldProbeSparseQueryBounds _); [|apply full_complete].
      pose proof (bounds_complete query bounds "sparse_query_bounds" Hb) as H.
      destruct (planQuerySnapshotFromBounds _ _ _ _ _); [apply full_complete|exact H].
Qed.
End complete.

(** ** Concrete plans *)

Module Samples.
Definition cfg : SnapshotTableConfig := mkSnapTable "public.users" SnapshotTableFull EmptyString.
Definition users : TableState := (prepareTableState "app" "public.users" cfg None None "0/1").1.
Definition rows : list TID := [mkTID 0 1 true; mkTID 1 3 true; mkTID 4 2 true].
Definition est : tableEstimate := mkEst 3 3 5.

Example users_query : SnapshotQuery users = Some "SELECT * FROM public.users".
Proof. reflexivity. Qed.
Example users_plan :
  (λ p, (p_query p, p_ranges p)) <$> match planSnapshotTable 2 users est 1 (inr None) with inr p => Some p | inl _ => None end =
  Some ("SELECT * FROM public.users WHERE ctid >= $1 AND ctid <= $2 ORDER BY ctid",
        Some [mkRange (mkTID 0 0 true) (mkTID 3 65535 true); mkRange (mkTID 4 0 true) (mkTID 4 65535 true)]).
Proof. vm_compute. reflexivity. Qed.

Example users_rows_read :
  match planSnapshotTable 2 users est 1 (inl (GoErr "not asked")) with
  | inl err => inl (GoErr "not asked") = (inl err : goerr + option ctidBounds) ∧ estimatedRows est = 0 ∧ whereClause users ≠ EmptyString
  | inr plan => ∃ tasks, plan_tasks plan = Some tasks ∧ Forall (λ t, readers t tasks = 1%nat) rows
  end.
Proof.
  apply (plan_reads_each_row_once 2 ltac:(lia) est ltac:(unfold two32; simpl; lia) ltac:(unfold max_per; simpl; lia) rows) with
    (query := "SELECT * FROM public.users").
  - unfold rows, row_id, MaxUint16, two32. repeat constructor; simpl; lia.
  - reflexivity.
  - discriminate.
  - exact I.
Defined.

(** A relation without blocks of its own has no task, although its query may
    return rows (the partitions of a partitioned table hold its rows). *)
Example no_blocks_no_task :
  (match planSnapshotTable 1000 users (mkEst 500 500 0) 4 (inr None) with inr p => plan_tasks p | inl _ => None end) = Some [].
Proof. vm_compute. reflexivity. Qed.
End Samples.
