(* ===== verification/RedisConfig.v ===== *)
(** * The configuration of the Redis application
      (src/pg2redis/redisconfig/redis_config.go)

    - [Values]: the values that the YAML reader and the environment give, and the
      commands read from them;
    - [Config]: the tables with their resolved commands, the validation of the
      configuration and its validation against the published tables, and the
      columns that the listener is told to read.

    The theorem about the whole says that a table whose configuration was
    accepted is accepted by the listener, and then has every column that one of
    its commands or conditions reads.

    Texts of the errors that only name the place are left out of the model; which
    errors are joined, and in which order, is not. *)

From stdpp Require Import base numbers list gmap strings pretty.
From S2P Require Import Prelude GoStrings OrderedMap PgSchema Decode PgWal BufferedListener ListenerSpec RedisCommand RedisWriter SnapshotPlan.
Import Condition Dynamic.

(** [errors.Join(err, e)] *)
Definition join_err (err e : option goerr) : option goerr :=
  match err, e with
  | None, e => e
  | err, None => err
  | Some err, Some e => Some (GoJoin err e)
  end.

Lemma join_err_None err e : join_err err e = None ↔ err = None ∧ e = None.
Proof. destruct err, e; naive_solver. Qed.

(** ** Values of a configuration file *)

Module Values.

(** A value of type [any]; [AnyOther] is neither a text nor a list or map. *)
Inductive any :=
| AnyNil
| AnyString (s : string)
| AnySlice (l : list any)
| AnyStrings (l : list string)
| AnyMap (m : list (string * any))
| AnyOther (printed : string).

Fixpoint field (m : list (string * any)) (k : string) : option any :=
  match m with
  | [] => None
  | (k', v) :: r => if bool_decide (k = k') then Some v else field r k
  end.
(** [m[k] != nil] *)
Definition has_field (m : list (string * any)) (k : string) : bool :=
  match field m k with None | Some AnyNil => false | Some _ => true end.

(** The values under the keys 0, 1, 2, ... up to the first that is missing;
    there are no more of them than entries. *)
Fixpoint numbered_from (fuel : nat) (i : nat) (m : list (string * any)) : list any :=
  match fuel with
  | O => []
  | S fuel => match field m (pretty (Z.of_nat i)) with
              | Some v => v :: numbered_from fuel (S i) m
              | None => []
              end
  end.
Definition numbered (m : list (string * any)) : list any := numbered_from (length m) 0 m.

Definition resolveSliceParts (raw : any) : option (list any) :=
  match raw with
  | AnySlice v => Some v
  | AnyStrings v => Some (AnyString <$> v)
  | AnyMap m => Some (numbered m)
  | _ => None
  end.

Definition ErrInvalidCommandFormat : goerr := GoErr "invalid command format".
Definition ErrEmptyCommandGroup : goerr := GoErr "command group cannot be empty".
Definition is_invalid (e : goerr) : bool :=
  match e with GoErr m => bool_decide (m = "invalid command format") | _ => false end.

Fixpoint strings_of (parts : list any) : option (list string) :=
  match parts with
  | [] => Some []
  | AnyString s :: r => (s ::.) <$> strings_of r
  | _ :: _ => None
  end.

Definition parseCommandStringSlice (raw : any) : goerr + list string :=
  match resolveSliceParts raw with
  | None | Some [] => inl ErrInvalidCommandFormat
  | Some parts => match strings_of parts with
                  | Some ss => inr ss
                  | None => inl (GoWrap "argument is not a string" ErrInvalidCommandFormat)
                  end
  end.

Fixpoint parse_each (cmds : list any) : goerr + list (list string) :=
  match cmds with
  | [] => inr []
  | cmd :: r =>
      match parseCommandStringSlice cmd with
      | inl err => inl (if is_invalid err then GoWrap "command is invalid or empty" ErrInvalidCommandFormat else err)
      | inr ss => match parse_each r with inl err => inl err | inr l => inr (ss :: l) end
      end
  end.

(** A single command or a list of commands. *)
Definition parseCommands (raw : any) : goerr + list (list string) :=
  match raw with
  | AnyNil => inl ErrInvalidCommandFormat
  | AnySlice [] => inl ErrEmptyCommandGroup
  | AnySlice (AnyString s :: r) =>
      match parseCommandStringSlice (AnySlice (AnyString s :: r)) with inl err => inl err | inr ss => inr [ss] end
  | AnySlice multi => parse_each multi
  | raw =>
      match parseCommandStringSlice raw with
      | inr ss => inr [ss]
      | inl err => if is_invalid err then inl ErrInvalidCommandFormat else inl err
      end
  end.

Section resolve.
(** [fmt.Sprintf] with [%v] of a value that is not a text. *)
Context (sprintv : any → string).

Definition resolveStringSlice (raw : any) : list string :=
  match resolveSliceParts raw with
  | None => []
  | Some parts => (λ p, match p with AnyString s => s | p => sprintv p end) <$> parts
  end.

Definition text_at (m : list (string * any)) (k : string) : string :=
  match field m k with Some (AnyString s) => s | _ => EmptyString end.

Definition parse_op (s : string) : ConditionOperator :=
  if bool_decide (s = "=") then OpEqual else if bool_decide (s = "<>") then OpNotEqual
  else if bool_decide (s = "<") then OpLess else if bool_decide (s = ">") then OpGreater
  else if bool_decide (s = "<=") then OpLessEq else if bool_decide (s = ">=") then OpGreaterEq
  else if bool_decide (s = "in") then OpIn else if bool_decide (s = "not_in") then OpNotIn
  else if bool_decide (s = "is_null") then OpIsNull else if bool_decide (s = "is_not_null") then OpIsNotNull
  else if bool_decide (s = "is_distinct_from") then OpIsDistinctFrom else OpOther s.

Definition condition_of (m : list (string * any)) : option ConditionConfig :=
  match field m "condition" with
  | Some (AnyMap c) =>
      Some (mkCC (parse_op (text_at c "op")) (text_at c "column") (text_at c "value")
                 (match field c "values" with Some v => resolveStringSlice v | None => [] end))
  | _ => None
  end.

(** One round of [resolveCommandsStrict]: the group, if any, or an error. *)
Definition resolve_one (cmd : any) : goerr + option RedisCommandWithCondition :=
  let plain_group := match parseCommands cmd with
                     | inl err => inl (GoWrap "command" err)
                     | inr parsed => inr (if bool_decide (parsed = []) then None else Some (mkRCWC parsed None))
                     end in
  match cmd with
  | AnyMap m =>
      if has_field m "command" || has_field m "condition" then
        if has_field m "command" then
          match parseCommands (default AnyNil (field m "command")) with
          | inl err => inl (GoWrap "conditional command" err)
          | inr cmds => inr (if bool_decide (cmds = []) then None else Some (mkRCWC cmds (condition_of m)))
          end
        else inl (GoWrap "conditional command missing command" ErrInvalidCommandFormat)
      else plain_group
  | _ => plain_group
  end.

(** The groups that could be read, and the errors of the others. *)
Fixpoint resolve_all (cmds : list any) (groups : list RedisCommandWithCondition) (err : option goerr)
    : list RedisCommandWithCondition * option goerr :=
  match cmds with
  | [] => (groups, err)
  | cmd :: r =>
      match resolve_one cmd with
      | inl e => resolve_all r groups (join_err err (Some e))
      | inr None => resolve_all r groups err
      | inr (Some g) => resolve_all r (groups ++ [g]) err
      end
  end.
Definition resolveCommandsStrict (cmds : list any) : list RedisCommandWithCondition * option goerr :=
  resolve_all cmds [] None.
Definition resolveCommands (cmds : list any) : list RedisCommandWithCondition := (resolveCommandsStrict cmds).1.
End resolve.

(** *** From the environment *)

(** A text is a command with its parts between slashes. *)
Definition slash : Ascii.ascii := Ascii.ascii_of_nat 47.
Definition readSliceFromEnv (slice : any) : list string :=
  match slice with AnyString s => TrimSpace <$> split_byte slash s | _ => [] end.

Fixpoint env_commands (fuel : nat) (i : nat) (m : list (string * any)) : list any :=
  match fuel with
  | O => []
  | S fuel =>
      match field m (pretty (Z.of_nat i)) with
      | Some cmd =>
          match readSliceFromEnv cmd, cmd with
          | _ :: _ as parts, _ => AnyStrings parts :: env_commands fuel (S i) m
          | [], AnyMap c => AnyMap c :: env_commands fuel (S i) m
          | [], _ => env_commands fuel (S i) m
          end
      | None => []
      end
  end.
Definition readCommandsAsAnyFromEnv (commands : option any) : list any :=
  match commands with Some (AnyMap m) => env_commands (length m) 0 m | _ => [] end.
Definition readOperationConfigFromEnv (op : option any) : option (list any) :=
  match op with Some (AnyMap m) => Some (readCommandsAsAnyFromEnv (field m "commands")) | _ => None end.
End Values.

(** ** The tables *)

Module Config.
Import Values.

(** A table as it was read. *)
Record rawTable := mkRaw {
  Options : gmap string string;
  raw_Insert : option (list any); raw_Update : option (list any); raw_Delete : option (list any);
  raw_Commands : list any }.

Definition text_options (opts : option any) : gmap string string :=
  match opts with
  | Some (AnyMap m) => list_to_map (omap (λ kv, match kv.2 with AnyString s => Some (kv.1, s) | _ => None end) m)
  | _ => ∅
  end.

(** A table without a name is left out. *)
Definition readTableCfgFromEnv (tableMap : list (string * any)) : option (string * rawTable) :=
  let tableName := text_at tableMap "name" in
  if bool_decide (tableName = EmptyString) then None
  else Some (tableName,
    mkRaw (text_options (field tableMap "options"))
          (readOperationConfigFromEnv (field tableMap "insert")) (readOperationConfigFromEnv (field tableMap "update"))
          (readOperationConfigFromEnv (field tableMap "delete")) (readCommandsAsAnyFromEnv (field tableMap "commands"))).

(** [mergeFromEnv]; [values] in the order of the iteration. *)
Definition mergeFromEnv (values : list any) (tables : gmap string rawTable) : gmap string rawTable :=
  foldl (λ m v, match v with
                | AnyMap t => match readTableCfgFromEnv t with Some (n, cfg) => <[n := cfg]> m | None => m end
                | _ => m
                end) tables values.

Definition dot : Ascii.ascii := Ascii.ascii_of_nat 46.
Definition WellFormTableName (key : string) : string := if has_byte dot key then key else "public." +:+ key.

(** [wellFormTableNames], for the tables in the order of the iteration. *)
Definition wellFormTableNames (tables : list (string * rawTable)) : gmap string rawTable :=
  foldl (λ m kt, <[WellFormTableName kt.1 := kt.2]> m) ∅ tables.

Section config.
Context (sprintv : any → string).
(** The order in which Go goes through a map and a set. *)
Context (table_order : ∀ A, gmap string A → list (string * A)).
Context (column_order : gset string → list string).

(** The commands of a table, with the default when it has none, and the errors. *)
Definition well_form_table (name : string) (t : rawTable) : RedisTableConfig * option goerr :=
  let read o := match o with Some cmds => resolveCommandsStrict sprintv cmds | None => ([], None) end in
  let '(all, e1) := resolveCommandsStrict sprintv (raw_Commands t) in
  let '(ins, e2) := read (raw_Insert t) in
  let '(upd, e3) := read (raw_Update t) in
  let '(del, e4) := read (raw_Delete t) in
  let wrap field e := GoWrap ("table " +:+ name +:+ " " +:+ field) <$> e in
  let err := join_err (join_err (join_err (wrap "commands" e1) (wrap "insert.commands" e2)) (wrap "update.commands" e3))
                      (wrap "delete.commands" e4) in
  let all := if bool_decide (all = []) && bool_decide (ins = []) && bool_decide (upd = []) && bool_decide (del = [])
             then [mkRCWC [["HSET"; name +:+ ":" +:+ "{%pk%}"; "{pairs:*}"]] None] else all in
  (mkRTbl name all ins upd del, err).

Record RedisAppConfig := mkApp {
  Tables : gmap string RedisTableConfig; TableOptions : gmap string (gmap string string);
  Snapshot_ : option SnapshotConfig; validationErr : option goerr }.

(** [WellForm]. *)
Definition WellForm (env : option (list any)) (tables : gmap string rawTable) (snapshot : option SnapshotConfig) : RedisAppConfig :=
  let tables := match env with Some values => mergeFromEnv values tables | None => tables end in
  let tables := wellFormTableNames (table_order _ tables) in
  mkApp (map_imap (λ name t, Some (well_form_table name t).1) tables) (Options <$> tables) snapshot
        (foldl (λ err kt, join_err err (well_form_table kt.1 kt.2).2) None (table_order _ tables)).

(** *** Validation *)

Definition isSupportedRedisCommand (cmd : string) : bool :=
  bool_decide (cmd ∈ ["SET"; "SETEX"; "MSET"; "INCR"; "DECR"; "INCRBY"; "DECRBY"; "APPEND"; "DEL"; "EXPIRE"; "HSET"; "HINCRBY";
                      "HDEL"; "SADD"; "SREM"; "ZADD"; "ZINCRBY"; "ZREM"; "XADD"; "XDEL"; "PUBLISH"]).

(** An error when the test holds. *)
Definition complain (b : bool) (msg : string) : option goerr := if b then Some (GoErr msg) else None.
Definition join_all (errs : list (option goerr)) : option goerr := foldl join_err None errs.

Definition validate_command (cmd : list string) : option goerr :=
  match cmd with
  | [] => Some (GoErr "empty command found")
  | name :: args =>
      join_err (complain (negb (isSupportedRedisCommand (ToUpper name))) "unsupported Redis command")
               (complain (bool_decide (args = [])) "command must have at least a key pattern")
  end.

Definition validate_condition (cond : ConditionConfig) : option goerr :=
  join_err (complain (bool_decide (cc_Column cond = EmptyString)) "condition must have a column")
    (match Op cond with
     | OpEqual | OpNotEqual | OpLess | OpGreater | OpLessEq | OpGreaterEq | OpIsDistinctFrom =>
         complain (bool_decide (cc_Value cond = EmptyString)) "condition must have a value"
     | OpIn | OpNotIn => complain (bool_decide (cc_Values cond = [])) "condition must have values array"
     | OpIsNull | OpIsNotNull =>
         complain (negb (bool_decide (cc_Value cond = EmptyString)) || negb (bool_decide (cc_Values cond = [])))
                  "condition must not have value or values"
     | OpOther s => Some (GoErr (if bool_decide (s = EmptyString) then "condition must have an operator"
                                 else "unsupported condition operator"))
     end).

Definition validate_group (g : RedisCommandWithCondition) : option goerr :=
  match Commands g with
  | [] => Some (GoErr "command group is empty")
  | cmds => join_err (join_all (validate_command <$> cmds))
                     (match rcwc_Condition g with Some c => validate_condition c | None => None end)
  end.

Definition all_groups (t : RedisTableConfig) : list RedisCommandWithCondition :=
  ResolvedCommands t ++ InsertCommands t ++ UpdateCommands t ++ DeleteCommands t.

Definition validate_table (name : string) (t : RedisTableConfig) : option goerr :=
  join_err (join_err (complain (negb (has_byte dot name)) "table must follow Postgres naming conventions")
                     (complain (bool_decide (all_groups t = [])) "table must have at least one of commands, insert, update, or delete defined"))
           (join_all (validate_group <$> all_groups t)).

(** [Validate]; the snapshot's configuration is the validated one afterwards. *)
Definition Validate (is_duration : string → bool) (cfg : RedisAppConfig) : option goerr :=
  let err := join_err (validationErr cfg) (join_all ((λ kt, validate_table kt.1 kt.2) <$> table_order _ (Tables cfg))) in
  match Snapshot_ cfg with
  | None => err
  | Some s => match SnapshotPlan.Validate is_duration s with
              | Ok _ => err
              | Err e => join_err err (Some (GoWrap "snapshot" e))
              | Panic m | Fatal m => join_err err (Some (GoErr m))
              end
  end.

(** *** The columns of a pattern *)

(** The placeholders of a text. *)
Definition holds (s : string) : list string :=
  omap (λ p, match p with PHold c => Some c | PLit _ => None end) (pieces s 0 EmptyString).

(** What follows one of the four prefixes. *)
Definition list_content (placeholder : string) : option string :=
  match cut_prefix "pairs:" placeholder with
  | Some c => Some c
  | None => match cut_prefix "json:" placeholder with
            | Some c => Some c
            | None => match cut_prefix "columns:" placeholder with
                      | Some c => Some c
                      | None => cut_prefix "diff:" placeholder
                      end
            end
  end.

(** The columns of one placeholder; [None] for all. *)
Definition placeholder_columns (placeholder : string) : option (list string) :=
  match list_content placeholder with
  | Some content =>
      if bool_decide (content = "*") then None
      else Some (List.filter (λ p, negb (bool_decide (p = EmptyString))) (TrimSpace <$> split_byte comma content))
  | None =>
      let p := TrimSpace placeholder in
      Some (if negb (HasPrefix p "%") && negb (HasSuffix p "%") then [default p (cut_prefix "old:" p)] else [])
  end.

Fixpoint extract (matches : list string) (cols : list string) : list string * bool :=
  match matches with
  | [] => (cols, false)
  | m :: r => match placeholder_columns m with
              | None => ([], true)
              | Some cs => extract r (cols ++ cs)
              end
  end.
Definition extractColumnsFromPlaceholder (s : string) : list string * bool := extract (holds s) [].

Definition columnsFromPattern (pattern : string) : list string := (extractColumnsFromPlaceholder pattern).1.

(** The columns a group names. *)
Definition condition_columns (cond : ConditionConfig) : list string :=
  columnsFromPattern ("{" +:+ cc_Column cond +:+ "}") ++
  (if bool_decide (cc_Value cond = EmptyString) then [] else columnsFromPattern (cc_Value cond)) ++
  (cc_Values cond ≫= columnsFromPattern).
Definition group_columns (g : RedisCommandWithCondition) : list string :=
  (Commands g ≫= λ cmd, cmd ≫= columnsFromPattern) ++
  match rcwc_Condition g with Some c => condition_columns c | None => [] end.
Definition group_all (g : RedisCommandWithCondition) : bool :=
  existsb (λ cmd, existsb (λ arg, (extractColumnsFromPlaceholder arg).2) cmd) (Commands g).

Definition ExtractColumns (t : RedisTableConfig) : list string :=
  (if existsb group_all (all_groups t) then ["all"] else []) ++
  column_order (list_to_set (all_groups t ≫= group_columns)).

(** [TablesConfig] *)
Definition TablesConfig (cfg : RedisAppConfig) : gmap string TableConfig :=
  map_imap (λ name t, Some (mkTC (ExtractColumns t) (default ∅ (TableOptions cfg !! name)))) (Tables cfg).

(** *** Validation against the publication *)

Definition BoolOID : Z := 16.
Definition JSONOID : Z := 114.
Definition JSONBOID : Z := 3802.

Definition conditionOperatorAllowedForType (op : ConditionOperator) (typeID : Z) : bool :=
  match op with
  | OpIsNull | OpIsNotNull => true
  | _ =>
      if bool_decide (typeID = BoolOID) then
        match op with OpEqual | OpNotEqual | OpIn | OpNotIn | OpIsDistinctFrom => true | _ => false end
      else if bool_decide (typeID = JSONOID) || bool_decide (typeID = JSONBOID) then
        match op with OpIsDistinctFrom => true | _ => false end
      else true
  end.

Definition known (table : Table) (cols : list string) : option goerr :=
  join_all ((λ c, complain (negb (HasColumn table c)) "references a column which does not exist") <$> cols).

Definition check_condition (table : Table) (cond : ConditionConfig) : option goerr :=
  join_err
    (match Columns table !! cc_Column cond with
     | None => Some (GoErr "condition column does not exist")
     | Some col => complain (negb (conditionOperatorAllowedForType (Op cond) (TypeID col))) "condition operator is not supported for column"
     end)
    (join_err (known table (columnsFromPattern (cc_Value cond)))
              (join_all ((λ v, known table (columnsFromPattern v)) <$> cc_Values cond))).

Definition check_group (table : Table) (g : RedisCommandWithCondition) : option goerr :=
  join_err (join_all ((λ cmd, join_all ((λ arg, known table (columnsFromPattern arg)) <$> cmd)) <$> Commands g))
           (match rcwc_Condition g with Some c => check_condition table c | None => None end).

Definition check_table (pubTables : gmap string Table) (name : string) (t : RedisTableConfig) : option goerr :=
  match pubTables !! name with
  | None => Some (GoErr "table is not available in publication metadata")
  | Some table => join_all (check_group table <$> all_groups t)
  end.

Definition ValidateAgainstSchema (pubTables : gmap string Table) (cfg : RedisAppConfig) : option goerr :=
  join_all ((λ kt, check_table pubTables kt.1 kt.2) <$> table_order _ (Tables cfg)).
End config.
End Config.

(** ** What the commands read *)

Module Reads.
Import Values Config.

(** A name of a column as it may stand in a placeholder. *)
Definition column_name (c : string) : Prop :=
  c ≠ EmptyString ∧ has_byte open_brace c = false ∧ has_byte close_brace c = false ∧ has_byte comma c = false ∧
  TrimSpace c = c ∧ c ≠ "*" ∧ list_content c = None ∧ cut_prefix "old:" c = None ∧
  HasPrefix c "%" = false ∧ HasSuffix c "%" = false.

Definition special (c : string) : Prop := c ∈ ["%table%"; "%schema%"; "%xid%"; "%pk%"].

(** The arguments of a command as the documentation has them: texts with
    fields, lists of columns, a difference, or the whole row. *)
Inductive argument :=
| ArgText (ts : list token)
| ArgPairs (cols : list string)
| ArgJson (cols : list string)
| ArgDiff (col : string)
| ArgAllPairs | ArgAllColumns | ArgAllJson.

Definition comma_list (cols : list string) : string := String.concat "," cols.
Definition print_argument (a : argument) : string :=
  match a with
  | ArgText ts => print_tokens ts
  | ArgPairs cols => print_tokens [TField ("pairs:" +:+ comma_list cols)]
  | ArgJson cols => print_tokens [TField ("json:" +:+ comma_list cols)]
  | ArgDiff col => print_tokens [TField ("diff:" +:+ col)]
  | ArgAllPairs => "{pairs:*}"
  | ArgAllColumns => "{columns:*}"
  | ArgAllJson => "{json:*}"
  end.

Definition field_ok (c : string) : Prop := special c ∨ column_name c ∨ ∃ n, c = "old:" +:+ n ∧ column_name n.
Definition argument_ok (a : argument) : Prop :=
  match a with
  | ArgText ts => Forall token_ok ts ∧ Forall (λ t, match t with TField c => field_ok c | TText _ => True end) ts ∧
                  plain (print_tokens ts)
  | ArgPairs cols | ArgJson cols => cols ≠ [] ∧ Forall column_name cols
  | ArgDiff col => column_name col
  | _ => True
  end.

(** The columns that a compiled argument looks up, and whether it takes the
    whole row. *)
Definition part_reads (p : redisTemplatePart) : list string :=
  match p with oldColumnPart c | columnPart c _ => [c] | _ => [] end.
Definition reads (c : redisCompiledCommand) : list string :=
  match c with
  | pairsSubsetCommand cols | jsonSubsetCommand cols => cols
  | diffCommand col => [col]
  | templateCommand parts => parts ≫= part_reads
  | _ => []
  end.
Definition reads_row (c : redisCompiledCommand) : bool :=
  match c with pairsStarCommand | columnsStarCommand | jsonStarCommand => true | _ => false end.

(** *** Both readings of a pattern agree *)

Lemma enclosed_print prefix s :
  has_byte open_brace s = false → enclosed (String open_brace prefix) (print_tokens [TField (prefix +:+ s)]) = Some s.
Proof.
  intros Ho. unfold enclosed. rewrite print_field.
  change (print_tokens []) with EmptyString.
  replace (String open_brace ((prefix +:+ s) +:+ String close_brace EmptyString))
    with (String open_brace prefix +:+ (s +:+ String close_brace EmptyString))
    by (rewrite string_app_cons, (assoc_L String.append); done).
  rewrite cut_prefix_app. cbn [mbind option_bind]. change "}" with (String close_brace EmptyString).
  rewrite cut_suffix_app by done. cbn [mbind option_bind]. change "{" with (String open_brace EmptyString).
  by rewrite Contains_byte.
Qed.

Lemma split_comma_list cols :
  cols ≠ [] → Forall (λ c, has_byte comma c = false) cols → split_byte comma (comma_list cols) = cols.
Proof.
  intros Hne H. induction H as [|c [|d r] Hc Hr IH]; [done|by apply split_byte_none|].
  unfold comma_list in *. change (String.concat "," (c :: d :: r)) with (c +:+ "," +:+ String.concat "," (d :: r)).
  change ("," +:+ ?x) with (String comma x). rewrite split_byte_app by done. by rewrite IH.
Qed.

Lemma has_byte_list a cols :
  a ≠ comma → Forall (λ c, has_byte a c = false) cols → has_byte a (comma_list cols) = false.
Proof.
  intros Ha H. unfold comma_list. induction H as [|c [|d r] Hc Hr IH]; [done|done|].
  change (String.concat "," (c :: d :: r)) with (c +:+ "," +:+ String.concat "," (d :: r)).
  rewrite !has_byte_app, Hc, IH. simpl. rewrite orb_false_r. unfold has_byte. apply bool_decide_eq_false_2.
  simpl. rewrite list_elem_of_singleton. done.
Qed.

(** The placeholders of printed tokens are their fields. *)
Definition fields (ts : list token) : list string := omap (λ t, match t with TField c => Some c | TText _ => None end) ts.

Lemma holds_print ts : Forall token_ok ts → holds (print_tokens ts) = fields ts.
Proof.
  intros H. unfold holds. generalize EmptyString as lit.
  assert (∀ lit l, omap (λ p, match p with PHold c => Some c | PLit _ => None end) (flush lit ++ l) =
                   omap (λ p, match p with PHold c => Some c | PLit _ => None end) l) as Hf.
  { intros lit l. unfold flush. by case_bool_decide. }
  induction H as [|[x|c] ts Ht _ IH]; intros lit.
  - pose proof (Hf lit []) as E. rewrite app_nil_r in E. exact E.
  - rewrite print_cons. cbn [print_token]. rewrite pieces_text by apply Ht. apply IH.
  - rewrite pieces_field by done. rewrite Hf. simpl. by rewrite IH.
Qed.

Lemma extract_app ms cols cs : Forall2 (λ m c, placeholder_columns m = Some c) ms cs → extract ms cols = (cols ++ List.concat cs, false).
Proof.
  intros H. revert cols. induction H as [|m c ms cs Hm _ IH]; intros cols; simpl; [by rewrite app_nil_r|].
  rewrite Hm, IH. by rewrite <- (assoc_L (++)).
Qed.

Lemma trim_right_fixed c : TrimSpace c = c → trim_right c = c.
Proof. unfold TrimSpace. intros H. rewrite <- H at 1. by rewrite trim_right_idemp. Qed.

Lemma HasSuffix_cons a s : s ≠ EmptyString → HasSuffix (String a s) "%" = HasSuffix s "%".
Proof.
  intros Hs. unfold HasSuffix. cbn [cut_suffix]. rewrite decide_False by (intros [= _ E]; done).
  apply bool_decide_ext. by rewrite fmap_is_Some.
Qed.

Lemma trim_right_cons a s : s ≠ EmptyString → trim_right s = s → trim_right (String a s) = String a s.
Proof. intros Hne H. cbn [trim_right]. rewrite H. by destruct s. Qed.

Lemma TrimSpace_old n : n ≠ EmptyString → TrimSpace n = n → TrimSpace ("old:" +:+ n) = "old:" +:+ n.
Proof.
  intros Hne Hn%trim_right_fixed. unfold TrimSpace.
  assert (trim_left ("old:" +:+ n) = "old:" +:+ n) as -> by reflexivity.
  change ("old:" +:+ n) with (String (Ascii.ascii_of_nat 111) (String (Ascii.ascii_of_nat 108) (String (Ascii.ascii_of_nat 100) (String (Ascii.ascii_of_nat 58) n)))).
  by repeat (apply trim_right_cons; [done|]).
Qed.

Lemma percent_not_special c : HasPrefix c "%" = false → ¬ special c.
Proof.
  intros H Hs. unfold special in Hs. repeat (apply elem_of_cons in Hs as [->|Hs]; [by vm_compute in H|]).
  by apply elem_of_nil in Hs.
Qed.

(** A field is looked up under the name that is extracted from it. *)
Lemma field_columns c : field_ok c → placeholder_columns c = Some (part_reads (placeholderTemplatePart c)).
Proof.
  intros [Hs|[(H1 & _ & _ & _ & H5 & _ & H7 & H8 & H9 & H10)|(n & -> & H1 & _ & _ & _ & H5 & _ & _ & _ & _ & H10)]].
  - unfold special in Hs. repeat (apply elem_of_cons in Hs as [->|Hs]; [vm_compute; reflexivity|]). by apply elem_of_nil in Hs.
  - unfold placeholder_columns, placeholderTemplatePart. rewrite H7. cbv zeta. rewrite !H5, H9, H10, H8. simpl.
    pose proof (percent_not_special c H9) as Hns. unfold special in Hns. rewrite !not_elem_of_cons in Hns.
    destruct Hns as (? & ? & ? & ? & _). by rewrite !bool_decide_false.
  - unfold placeholder_columns, placeholderTemplatePart.
    assert (list_content ("old:" +:+ n) = None) as -> by reflexivity. cbv zeta. rewrite (TrimSpace_old n H1 H5).
    rewrite cut_prefix_app. assert (HasPrefix ("old:" +:+ n) "%" = false) as -> by reflexivity.
    assert (HasSuffix ("old:" +:+ n) "%" = false) as ->.
    { change ("old:" +:+ n) with (String (Ascii.ascii_of_nat 111) (String (Ascii.ascii_of_nat 108) (String (Ascii.ascii_of_nat 100) (String (Ascii.ascii_of_nat 58) n)))). by rewrite !HasSuffix_cons. }
    reflexivity.
Qed.

Lemma pieces_reads ts lit :
  Forall token_ok ts →
  (part_of <$> pieces (print_tokens ts) 0 lit) ≫= part_reads = fields ts ≫= (part_reads ∘ placeholderTemplatePart).
Proof.
  intros H. revert lit.
  assert (∀ lit l, (part_of <$> (flush lit ++ l)) ≫= part_reads = (part_of <$> l) ≫= part_reads) as Hf.
  { intros lit l. unfold flush. by case_bool_decide. }
  induction H as [|[x|c] ts Ht _ IH]; intros lit.
  - pose proof (Hf lit []) as E. rewrite app_nil_r in E. exact E.
  - rewrite print_cons. cbn [print_token]. rewrite pieces_text by apply Ht. apply IH.
  - rewrite pieces_field by done. rewrite Hf. simpl. by rewrite IH.
Qed.

Lemma fields_ok_columns ts :
  Forall (λ t, match t with TField c => field_ok c | TText _ => True end) ts →
  Forall2 (λ m c, placeholder_columns m = Some c) (fields ts) (part_reads ∘ placeholderTemplatePart <$> fields ts).
Proof.
  induction 1 as [|[x|c] ts Ht _ IH]; [constructor|exact IH|]. constructor; [by apply field_columns|exact IH].
Qed.

Lemma concat_bind {A B} (f : A → list B) l : List.concat (f <$> l) = l ≫= f.
Proof. induction l as [|x l IH]; [done|]. rewrite fmap_cons, bind_cons. cbn [List.concat]. by rewrite IH. Qed.

Lemma text_reads ts :
  argument_ok (ArgText ts) →
  extractColumnsFromPlaceholder (print_tokens ts) = (reads (compileCommand (print_tokens ts)), false) ∧
  reads_row (compileCommand (print_tokens ts)) = false.
Proof.
  intros (Hts & Hf & (H1 & H2 & H3 & H4 & H5 & H6)). unfold extractColumnsFromPlaceholder.
  rewrite holds_print, (extract_app _ [] _ (fields_ok_columns ts Hf)), concat_bind by done. cbn [app].
  unfold compileCommand. rewrite !bool_decide_false by done. rewrite H4, H5, H6. cbv zeta.
  rewrite (ReplaceAll_absent _ "{{") by (by apply print_no_double_open).
  rewrite ReplaceAll_absent by (by apply print_no_double_close).
  unfold compileTemplateCommand. rewrite pieces_hold by done.
  destruct (existsb is_field ts) eqn:Ef; simpl; [by rewrite pieces_reads|].
  assert (fields ts = []) as ->; [|done]. clear -Ef. induction ts as [|[x|c] ts IH]; [done|by apply IH|done].
Qed.

Lemma names_bytes a cols :
  (a = open_brace ∨ a = close_brace) → Forall column_name cols → has_byte a (comma_list cols) = false.
Proof.
  intros Ha H. apply has_byte_list; [by destruct Ha as [-> | ->]|]. eapply Forall_impl; [exact H|].
  intros c (_ & H1 & H2 & _). by destruct Ha as [-> | ->].
Qed.

Lemma names_split cols :
  cols ≠ [] → Forall column_name cols →
  TrimSpace <$> split_byte comma (comma_list cols) = cols ∧ comma_list cols ≠ "*" ∧
  List.filter (λ p, negb (bool_decide (p = EmptyString))) cols = cols.
Proof.
  intros Hne H. rewrite split_comma_list; [|done|eapply Forall_impl; [exact H|]; intros c Hc; apply Hc]. split_and!.
  - induction H as [|c cs Hc _ IH]; [done|]. rewrite fmap_cons. f_equal; [apply Hc|]. destruct cs; [done|by apply IH].
  - intros E. assert (cols = ["*"]) as ->.
    { rewrite <- (split_comma_list cols), E; [done|done|]. eapply Forall_impl; [exact H|]. intros c Hc. apply Hc. }
    by apply (Forall_inv H).
  - clear Hne. induction H as [|c cs Hc _ IH]; [done|]. cbn [List.filter].
    rewrite bool_decide_false by apply Hc. simpl. by rewrite IH.
Qed.

Lemma list_token prefix s :
  has_byte open_brace prefix = false → has_byte close_brace prefix = false → prefix ≠ EmptyString →
  has_byte open_brace s = false → has_byte close_brace s = false → Forall token_ok [TField (prefix +:+ s)].
Proof.
  intros H1 H2 H3 H4 H5. apply Forall_singleton. rewrite <- (string_app_nil (prefix +:+ s)). simpl. rewrite !has_byte_app, H1, H2, H4, H5.
  by destruct prefix.
Qed.

(** An argument looks up just the columns extracted from it, or the whole row
    when all columns are. *)
Lemma argument_reads a :
  argument_ok a →
  extractColumnsFromPlaceholder (print_argument a) =
    (reads (compileCommand (print_argument a)), reads_row (compileCommand (print_argument a))).
Proof.
  destruct a as [ts|cols|cols|col| | |]; [intros H; cbn [print_argument]; destruct (text_reads ts H) as [-> ->]; done| | | |
    intros _; vm_compute; reflexivity..].
  - intros [Hne H]. destruct (names_split cols Hne H) as (Hs & Hstar & Hfil). cbn [print_argument].
    pose proof (names_bytes open_brace cols (or_introl eq_refl) H) as Ho.
    pose proof (names_bytes close_brace cols (or_intror eq_refl) H) as Hc.
    unfold extractColumnsFromPlaceholder. rewrite holds_print by (by apply list_token).
    pose proof (enclosed_print "pairs:" (comma_list cols) Ho) as He.
    unfold compileCommand. rewrite bool_decide_false.
    2: { intros E. rewrite E in He. change (Some "*" = Some (comma_list cols)) in He. by injection He as He. }
    change "{pairs:" with (String open_brace "pairs:"). rewrite He. cbn [fields omap list_omap extract].
    unfold placeholder_columns, list_content. rewrite cut_prefix_app, bool_decide_false, Hs, Hfil by done.
    unfold splitPlaceholderColumns. by rewrite Hs.
  - intros [Hne H]. destruct (names_split cols Hne H) as (Hs & Hstar & Hfil). cbn [print_argument].
    pose proof (names_bytes open_brace cols (or_introl eq_refl) H) as Ho.
    pose proof (names_bytes close_brace cols (or_intror eq_refl) H) as Hc.
    unfold extractColumnsFromPlaceholder. rewrite holds_print by (by apply list_token).
    pose proof (enclosed_print "json:" (comma_list cols) Ho) as He.
    unfold compileCommand. rewrite (bool_decide_false (_ = "{pairs:*}")) by (rewrite print_field; done).
    assert (enclosed "{pairs:" (print_tokens [TField ("json:" +:+ comma_list cols)]) = None) as -> by (rewrite print_field; done).
    rewrite (bool_decide_false (_ = "{columns:*}")) by (rewrite print_field; done).
    rewrite bool_decide_false.
    2: { intros E. rewrite E in He. change (Some "*" = Some (comma_list cols)) in He. by injection He as He. }
    change "{json:" with (String open_brace "json:"). rewrite He. cbn [fields omap list_omap extract].
    unfold placeholder_columns, list_content. change (cut_prefix "pairs:" ("json:" +:+ comma_list cols)) with (@None string).
    rewrite cut_prefix_app, bool_decide_false, Hs, Hfil by done.
    unfold splitPlaceholderColumns. by rewrite Hs.
  - intros Hcol. pose proof Hcol as (H1 & H2 & H3 & H4 & H5 & H6 & _). cbn [print_argument].
    unfold extractColumnsFromPlaceholder. rewrite holds_print by (by apply list_token).
    pose proof (enclosed_print "diff:" col H2) as He.
    unfold compileCommand. rewrite (bool_decide_false (_ = "{pairs:*}")) by (rewrite print_field; done).
    assert (enclosed "{pairs:" (print_tokens [TField ("diff:" +:+ col)]) = None) as -> by (rewrite print_field; done).
    rewrite (bool_decide_false (_ = "{columns:*}")) by (rewrite print_field; done).
    rewrite (bool_decide_false (_ = "{json:*}")) by (rewrite print_field; done).
    assert (enclosed "{json:" (print_tokens [TField ("diff:" +:+ col)]) = None) as -> by (rewrite print_field; done).
    change "{diff:" with (String open_brace "diff:"). rewrite He. cbn [fields omap list_omap extract].
    unfold placeholder_columns, list_content. change (cut_prefix "pairs:" ("diff:" +:+ col)) with (@None string).
    change (cut_prefix "json:" ("diff:" +:+ col)) with (@None string). change (cut_prefix "columns:" ("diff:" +:+ col)) with (@None string).
    rewrite cut_prefix_app, bool_decide_false, split_byte_none by done. cbn [fmap list_fmap List.filter].
    rewrite !H5, bool_decide_false by done. done.
Qed.

Lemma field_pattern c :
  token_ok (TField c) → field_ok c →
  extractColumnsFromPlaceholder (print_tokens [TField c]) = (part_reads (placeholderTemplatePart c), false).
Proof.
  intros Ht Hf. unfold extractColumnsFromPlaceholder. rewrite holds_print by (by apply Forall_singleton).
  cbn [fields omap list_omap extract]. by rewrite field_columns.
Qed.

Lemma column_part c : column_name c → part_reads (placeholderTemplatePart c) = [c].
Proof.
  intros (H1 & _ & _ & _ & H5 & _ & H7 & H8 & H9 & H10). unfold placeholderTemplatePart. rewrite H5, H8.
  pose proof (percent_not_special c H9) as Hns. unfold special in Hns. rewrite !not_elem_of_cons in Hns.
  destruct Hns as (? & ? & ? & ? & _). by rewrite !bool_decide_false.
Qed.

(** *** Groups of commands *)

(** The value of a condition: a text without braces, or one column. *)
Definition value_ok (v : string) : Prop :=
  has_byte open_brace v = false ∨
  ∃ c, v = print_tokens [TField c] ∧ token_ok (TField c) ∧ (column_name c ∨ ∃ n, c = "old:" +:+ n ∧ column_name n).
Definition condition_ok (cond : ConditionConfig) : Prop :=
  column_name (cc_Column cond) ∧ value_ok (cc_Value cond) ∧ Forall value_ok (cc_Values cond).
Definition command_ok (cmd : list string) : Prop :=
  ∃ name args, cmd = name :: (print_argument <$> args) ∧ Forall argument_ok args.
Definition group_ok (g : RedisCommandWithCondition) : Prop :=
  Forall command_ok (Commands g) ∧ match rcwc_Condition g with Some c => condition_ok c | None => True end.

(** The columns that [resolveValue] and [resolveValueMacro] look up. *)
Definition macro_reads (v : string) : list string :=
  option_list (match old_name v with Some c => Some c | None => braced_name v end).
Definition condition_reads (cond : ConditionConfig) : list string :=
  default [cc_Column cond] (match macro_reads (cc_Column cond) with [] => None | l => Some l end) ++
  macro_reads (cc_Value cond) ++ (cc_Values cond ≫= macro_reads).

(** What a compiled group looks up in a row. *)
Definition compiled_reads (g : redisCompiledCommandGroup) : list string :=
  (grp_commands g ≫= λ c, rcc_args c ≫= reads) ++
  match grp_condition g with Some c => condition_reads c | None => [] end.
Definition compiled_reads_row (g : redisCompiledCommandGroup) : bool :=
  existsb (λ c, existsb reads_row (rcc_args c)) (grp_commands g).
Definition writer_groups (w : redisDynamicWriter) : list redisCompiledCommandGroup :=
  resolvedCommands w ++ insertCommands w ++ updateCommands w ++ deleteCommands w.

Lemma cut_prefix_extend p c a r :
  has_byte a p = false → is_Some (cut_prefix p (c +:+ String a r)) → is_Some (cut_prefix p c).
Proof.
  revert c. induction p as [|b p IH]; intros c; [by eexists|]. intros [Hb Hp]%has_byte_cons.
  destruct c as [|d c].
  - rewrite string_app_nil. cbn [cut_prefix]. rewrite decide_False by done. by intros [? ?].
  - rewrite string_app_cons. cbn [cut_prefix]. case_decide; [by apply IH|done].
Qed.

Lemma no_brace_reads v : has_byte open_brace v = false → macro_reads v = [].
Proof.
  intros H. unfold macro_reads, old_name, braced_name. destruct v as [|a v]; [done|]. apply has_byte_cons in H as [Ha _].
  change "{old:" with (String open_brace "old:"). change "{" with (String open_brace EmptyString). cbn [cut_prefix].
  by rewrite !decide_False.
Qed.

Lemma braced_field c : braced_name (print_tokens [TField c]) = Some c.
Proof.
  unfold braced_name. rewrite print_field. change (print_tokens []) with EmptyString.
  change "{" with (String open_brace EmptyString). cbn [cut_prefix]. rewrite decide_True by done.
  cbn [mbind option_bind]. by apply cut_suffix_app.
Qed.

Lemma old_field n : old_name (print_tokens [TField ("old:" +:+ n)]) = Some n.
Proof.
  unfold old_name. rewrite print_field. change (print_tokens []) with EmptyString. rewrite <- (assoc_L String.append).
  change (String open_brace ("old:" +:+ ?x)) with ("{old:" +:+ x). rewrite cut_prefix_app. cbn [mbind option_bind].
  by apply cut_suffix_app.
Qed.

Lemma column_not_old c : cut_prefix "old:" c = None → old_name (print_tokens [TField c]) = None.
Proof.
  intros H. unfold old_name. rewrite print_field. change (print_tokens []) with EmptyString.
  assert (∀ p r, cut_prefix (String open_brace p) (String open_brace r) = cut_prefix p r) as Hcut by (intros; cbn [cut_prefix]; by rewrite decide_True).
  change "{old:" with (String open_brace "old:"). rewrite Hcut.
  destruct (cut_prefix "old:" (c +:+ String close_brace EmptyString)) as [r|] eqn:E; [|done].
  destruct (cut_prefix_extend "old:" c close_brace EmptyString) as [x Hx]; [done|by rewrite E|congruence].
Qed.

Lemma value_reads v : value_ok v → ∀ c, c ∈ macro_reads v → c ∈ columnsFromPattern v.
Proof.
  intros [H|(f & -> & Ht & [Hf|(n & -> & Hn)])] c; [rewrite no_brace_reads by done; by intros ?%elem_of_nil|..];
    unfold macro_reads, columnsFromPattern.
  - rewrite column_not_old, braced_field by apply Hf. rewrite field_pattern, column_part; [done|done|done|by right; left].
  - rewrite old_field, field_pattern; [|done|by right; right; exists n].
    unfold placeholderTemplatePart. destruct Hn as (H1 & _ & _ & _ & H5 & _). rewrite (TrimSpace_old n H1 H5), cut_prefix_app. done.
Qed.

Lemma column_pattern c : column_name c → columnsFromPattern ("{" +:+ c +:+ "}") = [c].
Proof.
  intros Hc. unfold columnsFromPattern.
  assert ("{" +:+ c +:+ "}" = print_tokens [TField c]) as -> by (rewrite print_field; done).
  rewrite field_pattern, column_part; [done|done| |by right; left]. destruct Hc as (? & ? & ? & _). done.
Qed.

Lemma condition_reads_extracted cond c :
  condition_ok cond → c ∈ condition_reads cond → c ∈ condition_columns cond.
Proof.
  intros (H1 & H2 & H3) Hc. unfold condition_columns. rewrite column_pattern by done.
  unfold condition_reads in Hc. rewrite (no_brace_reads (cc_Column cond)) in Hc by apply H1. cbn [default] in Hc.
  rewrite !elem_of_app in *. destruct Hc as [Hc|[Hc|Hc]]; [by left|right; left|right; right].
  - case_bool_decide as E; [rewrite E in Hc; by apply elem_of_nil in Hc|]. by apply value_reads.
  - apply list_elem_of_bind in Hc as (v & Hc & Hv). apply list_elem_of_bind. exists v. split; [|done].
    rewrite Forall_forall in H3. by apply value_reads; [apply H3|].
Qed.

Lemma compiled_commands cmds c args :
  Forall command_ok cmds → c ∈ omap compileCommandConfig cmds → args = rcc_args c →
  ∃ cmd name l, cmd ∈ cmds ∧ cmd = name :: (print_argument <$> l) ∧ Forall argument_ok l ∧
    args = compileCommand <$> (print_argument <$> l).
Proof.
  intros H Hc ->. apply list_elem_of_omap in Hc as (cmd & Hin & E). rewrite Forall_forall in H.
  destruct (H cmd Hin) as (name & l & -> & Hl). injection E as <-. by exists (name :: (print_argument <$> l)), name, l.
Qed.

(** What a compiled group looks up was extracted from its configuration. *)
Lemma group_reads_extracted g cg :
  group_ok g → cg ∈ mustCompileCommandGroups [g] →
  (∀ c, c ∈ compiled_reads cg → c ∈ group_columns g) ∧ (compiled_reads_row cg = true → group_all g = true).
Proof.
  intros [Hcmds Hcond] Hcg. cbn [mustCompileCommandGroups] in Hcg. case_bool_decide; [by apply elem_of_nil in Hcg|].
  apply list_elem_of_singleton in Hcg as ->. unfold compiled_reads, compiled_reads_row, group_columns, group_all. simpl. split.
  - intros c. rewrite !elem_of_app. intros [Hc|Hc]; [left|right].
    + apply list_elem_of_bind in Hc as (cc & Hc & Hcc).
      destruct (compiled_commands _ _ _ Hcmds Hcc eq_refl) as (cmd & name & l & Hin & -> & Hl & E). rewrite E in Hc.
      apply list_elem_of_bind in Hc as (k & Hk & Hkin). apply list_elem_of_fmap in Hkin as (p & -> & Hp).
      apply list_elem_of_fmap in Hp as (a & -> & Ha). rewrite Forall_forall in Hl.
      apply list_elem_of_bind. eexists. split; [|exact Hin]. apply list_elem_of_bind. exists (print_argument a).
      split; [|right; apply list_elem_of_fmap; by exists a]. unfold columnsFromPattern. by rewrite (argument_reads a (Hl a Ha)).
    + destruct (rcwc_Condition g) as [cond|]; [|by apply elem_of_nil in Hc]. by apply condition_reads_extracted.
  - intros (cc & Hcc & Hr)%existsb_exists. apply list_elem_of_In in Hcc.
    destruct (compiled_commands _ _ _ Hcmds Hcc eq_refl) as (cmd & name & l & Hin & -> & Hl & E). rewrite E in Hr.
    apply existsb_exists in Hr as (k & Hk & Hkr). apply list_elem_of_In, list_elem_of_fmap in Hk as (p & -> & Hp).
    apply list_elem_of_fmap in Hp as (a & -> & Ha). rewrite Forall_forall in Hl.
    apply existsb_exists. eexists. split; [by apply list_elem_of_In|]. apply existsb_exists. exists (print_argument a).
    split; [apply list_elem_of_In; right; apply list_elem_of_fmap; by exists a|]. by rewrite (argument_reads a (Hl a Ha)).
Qed.
End Reads.

(** ** Accepted configurations *)

Lemma join_all_None errs : Config.join_all errs = None ↔ Forall (λ e, e = None) errs.
Proof.
  unfold Config.join_all. assert (∀ e0, foldl join_err e0 errs = None ↔ e0 = None ∧ Forall (λ e, e = None) errs) as H.
  { induction errs as [|e r IH]; intros e0; simpl; [by split; [split|intros [-> _]]|].
    rewrite IH, join_err_None, Forall_cons. tauto. }
  rewrite H. tauto.
Qed.

Lemma join_all_fmap_None {A} (f : A → option goerr) l : Config.join_all (f <$> l) = None ↔ ∀ x, x ∈ l → f x = None.
Proof. rewrite join_all_None, Forall_fmap, Forall_forall. done. Qed.

Module Accepted.
Import Values Config Reads.

Section accepted.
Context (table_order : ∀ A, gmap string A → list (string * A)).
Context (column_order : gset string → list string).
Hypothesis table_order_perm : ∀ A (m : gmap string A), table_order A m ≡ₚ map_to_list m.
Hypothesis column_order_elem : ∀ s c, c ∈ column_order s ↔ c ∈ s.

Lemma known_columns table cols : known table cols = None → ∀ c, c ∈ cols → is_Some (Columns table !! c).
Proof using Type.
  unfold known. rewrite join_all_fmap_None. intros H c Hc. specialize (H c Hc). unfold complain, HasColumn in H.
  destruct (decide (is_Some (Columns table !! c))) as [?|Hn]; [done|]. rewrite bool_decide_false in H by done. done.
Qed.

(** Every column extracted from a checked group is published. *)
Lemma checked_group table g :
  group_ok g → check_group table g = None → ∀ c, c ∈ group_columns g → is_Some (Columns table !! c).
Proof using Type.
  intros [_ Hcond] [H1 H2]%join_err_None c Hc. rewrite join_all_fmap_None in H1.
  unfold group_columns in Hc. apply elem_of_app in Hc as [Hc|Hc].
  - apply list_elem_of_bind in Hc as (cmd & Hc & Hcmd). apply list_elem_of_bind in Hc as (arg & Hc & Harg).
    specialize (H1 cmd Hcmd). rewrite join_all_fmap_None in H1. by apply (known_columns table _ (H1 arg Harg)).
  - destruct (rcwc_Condition g) as [cond|]; [|by apply elem_of_nil in Hc]. destruct Hcond as (Hcol & _ & _).
    unfold check_condition in H2. apply join_err_None in H2 as [H2 [H3 H4]%join_err_None].
    unfold condition_columns in Hc. rewrite column_pattern in Hc by done. rewrite !elem_of_app in Hc.
    destruct Hc as [Hc|[Hc|Hc]].
    + apply list_elem_of_singleton in Hc as ->. by destruct (Columns table !! cc_Column cond); [eexists|].
    + case_bool_decide; [by apply elem_of_nil in Hc|]. by apply (known_columns table _ H3).
    + apply list_elem_of_bind in Hc as (v & Hc & Hv). rewrite join_all_fmap_None in H4.
      by apply (known_columns table _ (H4 v Hv)).
Qed.

Lemma extracted t c :
  c ∈ ExtractColumns column_order t ↔ (c = "all" ∧ existsb group_all (all_groups t) = true) ∨ ∃ g, g ∈ all_groups t ∧ c ∈ group_columns g.
Proof using column_order_elem.
  unfold ExtractColumns. rewrite elem_of_app, column_order_elem, elem_of_list_to_set, list_elem_of_bind.
  destruct (existsb group_all (all_groups t)); rewrite ?list_elem_of_singleton, ?elem_of_nil; split.
  - intros [->|(g & ? & ?)]; [by left|right; by exists g].
  - intros [[-> _]|(g & ? & ?)]; [by left|right; by exists g].
  - intros [[]|(g & ? & ?)]. right. by exists g.
  - intros [[_ H]|(g & ? & ?)]; [done|right; by exists g].
Qed.

(** The compiled groups come from the configured ones. *)
Lemma compiled_from gs cg : cg ∈ mustCompileCommandGroups gs → ∃ g, g ∈ gs ∧ cg ∈ mustCompileCommandGroups [g].
Proof using Type.
  induction gs as [|g gs IH]; cbn [mustCompileCommandGroups]; [by intros ?%elem_of_nil|].
  case_bool_decide as Hc.
  - intros (g' & ? & ?)%IH. exists g'. split; [by right|done].
  - intros [->|H]%elem_of_cons.
    + exists g. split; [by left|]. rewrite bool_decide_false by done. by left.
    + destruct (IH H) as (g' & ? & ?). exists g'. split; [by right|done].
Qed.

Lemma writer_group_from t cg : cg ∈ writer_groups (createPipelineWriter t) → ∃ g, g ∈ all_groups t ∧ cg ∈ mustCompileCommandGroups [g].
Proof using Type.
  unfold writer_groups, createPipelineWriter, all_groups. simpl. rewrite !elem_of_app.
  intros [H|[H|[H|H]]]; apply compiled_from in H as (g & ? & ?); exists g; (split; [|done]); rewrite !elem_of_app; auto.
Qed.

(** C26: a configuration that was accepted works.  When the validation against
    the publication reports no error, every configured table is published, the
    listener merges its configuration without an error, and the columns it then
    reads are, as published, all the columns that any compiled command or
    condition of the table looks up; all columns of the table when a command
    takes the whole row.  (For commands and conditions written as documented:
    texts with column fields, column lists, a difference, or the whole row.) *)
Theorem accepted_configuration_reads_columns cfg pub name t :
  Tables cfg !! name = Some t → Forall group_ok (all_groups t) →
  (∀ table, pub !! name = Some table → keyed (Columns table)) →
  ValidateAgainstSchema table_order pub cfg = None →
  ∃ table tc merged,
    pub !! name = Some table ∧ TablesConfig column_order cfg !! name = Some tc ∧
    Listener.mergeConfigAndPubTable table tc = Ok merged ∧
    ∀ cg, cg ∈ writer_groups (createPipelineWriter t) →
      (∀ c, c ∈ compiled_reads cg → is_Some (Columns merged !! c) ∧ Columns merged !! c = Columns table !! c) ∧
      (compiled_reads_row cg = true → Columns merged = Columns table).
Proof using column_order_elem table_order_perm.
  intros Ht Hok Hkey Hval. unfold ValidateAgainstSchema in Hval. rewrite join_all_fmap_None in Hval.
  assert ((name, t) ∈ table_order _ (Tables cfg)) as Hin by (by rewrite table_order_perm, elem_of_map_to_list).
  specialize (Hval _ Hin). simpl in Hval. unfold check_table in Hval. destruct (pub !! name) as [table|] eqn:Hpub; [|done].
  rewrite join_all_fmap_None in Hval. rewrite Forall_forall in Hok.
  set (tc := mkTC (ExtractColumns column_order t) (default ∅ (TableOptions cfg !! name))).
  pose proof (Refine.merge_config_exact table tc (Hkey table eq_refl)) as Hmerge.
  destruct (Listener.mergeConfigAndPubTable table tc) as [merged|err| |] eqn:Em; [|exfalso|done|done].
  - exists table, tc, merged. split_and!; [done|unfold TablesConfig; by rewrite map_lookup_imap, Ht|done|].
    intros cg Hcg. destruct (writer_group_from t cg Hcg) as (g & Hg & Hcg').
    destruct (group_reads_extracted g cg (Hok g Hg) Hcg') as [Hr Hrow]. destruct Hmerge as (_ & _ & _ & Hcols). split.
    + intros c Hc. assert (c ∈ tc_Columns tc) as Hct by (apply extracted; right; exists g; split; [done|by apply Hr]).
      rewrite Hcols, (bool_decide_true _ Hct), orb_true_r. split; [|done].
      apply (checked_group table g (Hok g Hg) (Hval g Hg)). by apply Hr.
    + intros Hrr. apply map_eq. intros k. rewrite Hcols.
      assert (AllColumns tc = true) as ->; [|done]. unfold AllColumns, tc. simpl. unfold ExtractColumns.
      rewrite (proj2 (existsb_exists _ _)); [done|]. exists g. split; [by apply list_elem_of_In|]. by apply Hrow.
  - destruct Hmerge as (c & Hc & Hne & Hnone). apply extracted in Hc as [[? _]|(g & Hg & Hc)]; [done|].
    destruct (checked_group table g (Hok g Hg) (Hval g Hg) c Hc) as [x Hx]. congruence.
Qed.
End accepted.
End Accepted.

(** ** A configuration *)

Module Samples.
Import Values Config Reads Accepted.

Ltac closed_facts := repeat split; first [done | reflexivity | by vm_compute].

Definition order A (m : gmap string A) : list (string * A) := map_to_list m.
Definition backwards A (m : gmap string A) : list (string * A) := rev (map_to_list m).
Definition columns_in_order (s : gset string) : list string := elements s.
Definition v_ (_ : any) : string := "?".

Definition id_col : Column := mkCol "id" 23 true 1.
Definition status_col : Column := mkCol "status" 25 false 2.
Definition body_col : Column := mkCol "body" 114 false 3.
Definition users_table : Table :=
  mkTable (MakeTableName "public" "users") (list_to_map [("id", id_col); ("status", status_col); ("body", body_col)])
          {[ "id" := id_col ]} 3.
Definition published : gmap string Table := {[ "public.users" := users_table ]}.

(** A table with a command for every change and one under a condition. *)
Definition hset : any := AnyStrings ["HSET"; "user:{id}"; "{pairs:status,body}"].
Definition notify : any :=
  AnyMap [("command", AnySlice [AnyString "PUBLISH"; AnyString "status"; AnyString "{id}"]);
          ("condition", AnyMap [("op", AnyString "is_distinct_from"); ("column", AnyString "status");
                                ("value", AnyString "{old:status}")])].
Definition users_raw : rawTable := mkRaw ∅ None (Some [notify]) None [hset].
Definition app : RedisAppConfig := WellForm v_ order None {[ "users" := users_raw ]} None.

Definition hset_args : list argument :=
  [ArgText [TText "user:"; TField "id"]; ArgPairs ["status"; "body"]].
Definition notify_args : list argument := [ArgText [TText "status"]; ArgText [TField "id"]].
Definition status_condition : ConditionConfig := mkCC OpIsDistinctFrom "status" "{old:status}" [].
Definition users_config : RedisTableConfig :=
  mkRTbl "public.users" [mkRCWC ["HSET" :: (print_argument <$> hset_args)] None] []
         [mkRCWC ["PUBLISH" :: (print_argument <$> notify_args)] (Some status_condition)] [].

Lemma app_read : Tables app !! "public.users" = Some users_config ∧ validationErr app = None.
Proof. split; vm_compute; reflexivity. Qed.

Lemma app_accepted : Validate order (λ _, true) app = None ∧ ValidateAgainstSchema order published app = None.
Proof. split; vm_compute; reflexivity. Qed.

Lemma id_name : column_name "id". Proof. closed_facts. Qed.
Lemma status_name : column_name "status". Proof. closed_facts. Qed.
Lemma body_name : column_name "body". Proof. closed_facts. Qed.

(** Arguments of the sample, piece by piece. *)
Ltac argument_facts :=
  repeat (apply Forall_cons_2 || apply Forall_nil_2);
  first [done | apply id_name | apply status_name | apply body_name | right; left; apply id_name | closed_facts].
Lemma hset_ok : Forall argument_ok hset_args.
Proof. repeat apply Forall_cons_2; [split_and!; argument_facts|split; [done|argument_facts]|apply Forall_nil_2]. Qed.
Lemma notify_ok : Forall argument_ok notify_args.
Proof. repeat apply Forall_cons_2; [split_and!; argument_facts..|apply Forall_nil_2]. Qed.

Lemma users_ok : Forall group_ok (all_groups users_config).
Proof.
  repeat apply Forall_cons_2; [| |apply Forall_nil_2].
  - split; [|done]. apply Forall_singleton. exists "HSET", hset_args. by split; [|apply hset_ok].
  - split; [apply Forall_singleton; exists "PUBLISH", notify_args; by split; [|apply notify_ok]|].
    split_and!; [apply status_name| |apply Forall_nil_2]. right. exists "old:status".
    split_and!; [done|closed_facts|]. right. exists "status". split; [done|apply status_name].
Qed.

Lemma users_table_keyed : keyed (Columns users_table).
Proof.
  intros k c Hk. unfold users_table in Hk. simpl in Hk. rewrite !lookup_insert_Some, lookup_empty in Hk.
  destruct Hk as [[<- <-]|(_ & [[<- <-]|(_ & [[<- <-]|(_ & Hk)])])]; done.
Qed.

Lemma accepted_configuration_reads_columns_witness :
  ∃ table tc merged,
    published !! "public.users" = Some table ∧
    TablesConfig columns_in_order app !! "public.users" = Some tc ∧
    Listener.mergeConfigAndPubTable table tc = Ok merged ∧
    ∀ cg, cg ∈ writer_groups (createPipelineWriter users_config) →
      (∀ c, c ∈ compiled_reads cg → is_Some (Columns merged !! c) ∧ Columns merged !! c = Columns table !! c) ∧
      (compiled_reads_row cg = true → Columns merged = Columns table).
Proof.
  apply (accepted_configuration_reads_columns order columns_in_order (λ A m, reflexivity _) (λ s c, elem_of_elements s c)
           app published "public.users" users_config (proj1 app_read) users_ok).
  - intros table Ht. assert (table = users_table) as -> by (vm_compute in Ht; by injection Ht as <-). apply users_table_keyed.
  - vm_compute. reflexivity.
Defined.

(** The group under the condition reads the row and the condition's column. *)
Example notify_reads :
  (compiled_reads <$> writer_groups (createPipelineWriter users_config)) =
  [["id"; "status"; "body"]; ["id"; "status"; "status"]].
Proof. vm_compute. reflexivity. Qed.

(** Braces written twice stand for themselves in a command, but their content
    is still taken for a column: the table below is refused although its
    command reads no column [note]. *)
Definition escaped : string := "{{note}}:{id}".
Example escaped_not_read :
  reads (compileCommand escaped) = ["id"] ∧ columnsFromPattern escaped ≠ ["id"] ∧
  existsb (λ c, negb (HasColumn users_table c)) (columnsFromPattern escaped) = true.
Proof. split_and!; vm_compute; [reflexivity|discriminate|reflexivity]. Qed.

(** A table that is named with and without its schema: which of the two is kept
    depends on the order in which the map is gone through, and no error says so. *)
Definition second_raw : rawTable := mkRaw ∅ None None None [AnyStrings ["DEL"; "user:{id}"]].
Definition twice : gmap string rawTable := {[ "users" := users_raw; "public.users" := second_raw ]}.
Definition kept (o : ∀ A, gmap string A → list (string * A)) : option (list (list (list string))) :=
  (λ t, Commands <$> all_groups t) <$> (Tables (WellForm v_ o None twice None) !! "public.users").
Example one_of_both_kept :
  kept order ≠ kept backwards ∧ validationErr (WellForm v_ order None twice None) = None ∧
  validationErr (WellForm v_ backwards None twice None) = None.
Proof. split_and!; vm_compute; [discriminate|reflexivity|reflexivity]. Qed.
End Samples.
