(* ===== verification/SnapshotWorker.v ===== *)
(** * The workers of a snapshot (src/snapshot/worker.go)

    - [processTableRange]: the rows of one task become batches of entries;
    - [Numbers]: the numbering of batches ([snapshotLSNTracker]), whose
      compare-and-swap loop is a step relation of concurrent workers.

    What a query returns, the printing of key values and the iteration order of
    Go maps are arguments. *)

From stdpp Require Import base numbers list gmap strings pretty sorting.
From S2P Require Import Prelude GoStrings OrderedMap PgSchema Decode PgWal BufferedListener SnapshotPlan.

(** ** The rows of a task *)

Section range.
Context (fmtv : option goval → string) (colOrder : gmap string Column → list Column).

Record tableRangeTask := mkTask { rt_table : Table; rt_keyMap : option KeyMap.KeyMap }.

Definition snapshotKeyMapFromFields (fields : list string) (txOpts : TxCommitTimeOptions) : KeyMap.KeyMap :=
  snapshotKeyMap fields txOpts.

(** The columns of a row are stored one after the other. *)
Fixpoint set_fields (fields : list string) (values : list goval) (rowMap : Tup) : res Tup :=
  match fields, values with
  | [], _ => Ok rowMap
  | f :: fs, v :: vs => rowMap ← OMap.Set_ f v rowMap; set_fields fs vs rowMap
  | _ :: _, [] => Panic "index out of range"
  end.

Definition row_entry (table : Table) (rowKeyMap : KeyMap.KeyMap) (fields : list string) (values : list goval) (offset : Z)
    : res (WriteEntry Tup) :=
  rowMap ← set_fields fields values (OMap.New VNil rowKeyMap);
  Ok (mkWE (Some rowMap) None (CreatePK fmtv (colOrder (PK table)) (Listener.tuple_get rowMap)) SnapshotRead (t_Name table) offset).

(** [sendBatch], with the state of whatever it reaches. *)
Context {St : Type} (send : list (WriteEntry Tup) → St → St * option goerr).
Context (batchSize : Z) (txOpts : TxCommitTimeOptions).

(** The loop over the rows; a row is an error of the scan or its values. *)
Fixpoint read_rows (table : Table) (km : KeyMap.KeyMap) (fields : list string) (rows : list (goerr + list goval))
    (rowsErr : option goerr) (batchCount : Z) (entries : list (WriteEntry Tup)) (s : St) : res (St * option goerr) :=
  match rows with
  | [] =>
      match rowsErr with
      | Some err => Ok (s, Some (GoWrap "failed to read rows" err))
      | None => Ok (if bool_decide (0 < batchCount) then send entries s else (s, None))
      end
  | inl err :: _ => Ok (s, Some (GoWrap "failed to scan row" err))
  | inr values :: rows =>
      e ← row_entry table km fields values batchCount;
      let entries := entries ++ [e] in
      let batchCount := u32 (batchCount + 1) in
      if bool_decide (u32 batchSize ≤ batchCount) then
        match send entries s with
        | (s, Some err) => Ok (s, Some err)
        | (s, None) => read_rows table km fields rows rowsErr 0 [] s
        end
      else read_rows table km fields rows rowsErr batchCount entries s
  end.

(** From the answer of the query on. *)
Definition processTableRange (task : tableRangeTask) (fields : list string) (rows : list (goerr + list goval))
    (rowsErr : option goerr) (s : St) : res (St * option goerr) :=
  let rowKeyMap := default (snapshotKeyMapFromFields fields txOpts) (rt_keyMap task) in
  match List.find (λ f, bool_decide (KeyMap.GetIndex rowKeyMap f < 0)) fields with
  | Some f => Ok (s, Some (GoErr ("snapshot keymap for table is missing query column " +:+ f)))
  | None => read_rows (rt_table task) rowKeyMap fields rows rowsErr 0 [] s
  end.
End range.

(** *** Batches are the rows in order *)

(** A list cut into parts of [n] elements, the last one shorter. *)
Inductive chunked {A} (n : nat) : list A → list (list A) → Prop :=
| chunked_nil : chunked n [] []
| chunked_last b : b ≠ [] → (length b < n)%nat → chunked n b [b]
| chunked_full b r bs : length b = n → chunked n r bs → chunked n (b ++ r) (b :: bs).

Lemma chunked_concat {A} n (l : list A) bs : chunked n l bs → List.concat bs = l.
Proof. induction 1; simpl; [done|by rewrite app_nil_r|by f_equal]. Qed.

Section sends.
Context (fmtv : option goval → string) (colOrder : gmap string Column → list Column).
Context (batchSize : Z) (Hbatch : 0 ≤ batchSize < two32) (txOpts : TxCommitTimeOptions).
Context (table : Table) (km : KeyMap.KeyMap) (Hkm : KeyMap.wf km).
Context (fields : list string) (Hfields : Forall (λ f, 0 ≤ KeyMap.GetIndex km f) fields).

(** The recording of what is sent. *)
Definition record_batch (es : list (WriteEntry Tup)) (sent : list (list (WriteEntry Tup)))
    : list (list (WriteEntry Tup)) * option goerr := (sent ++ [es], None).

(** The row of a query's answer as a finite map. *)
Definition row_map (values : list goval) : gmap string goval :=
  foldl (λ m fv, <[fv.1 := fv.2]> m) ∅ (zip fields values).

Lemma set_fields_spec fs vs (t : Tup) :
  OMap.wf VNil t → OMap.keyMap t = km → Forall (λ f, 0 ≤ KeyMap.GetIndex km f) fs → length vs = length fs →
  ∃ t', set_fields fs vs t = Ok t' ∧ OMap.wf VNil t' ∧ OMap.keyMap t' = km ∧
    OMap.abs t' = foldl (λ m fv, <[fv.1 := fv.2]> m) (OMap.abs t) (zip fs vs).
Proof using Type.
  revert vs t. induction fs as [|f fs IH]; intros [|v vs] t Hwf Hk Hf Hl; try done; [by exists t|].
  apply Forall_cons in Hf as [Hf Hfs]. rewrite <- Hk in Hf.
  destruct (Set_insert t f v Hwf Hf) as (t1 & E1 & H1 & K1 & A1). cbn [set_fields]. rewrite E1. res_step.
  destruct (IH vs t1) as (t2 & -> & H2 & K2 & A2); [done|congruence|done|by injection Hl|].
  exists t2. split_and!; [done|done|done|]. rewrite A2, A1. done.
Qed.

(** The entry of a row. *)
Definition entry_of (values : list goval) (offset : Z) (e : WriteEntry Tup) : Prop :=
  ∃ t, e = mkWE (Some t) None (CreatePK fmtv (colOrder (PK table)) (λ k, row_map values !! k)) SnapshotRead (t_Name table) offset ∧
    OMap.wf VNil t ∧ OMap.keyMap t = km ∧ OMap.abs t = row_map values.

Lemma tuple_get_abs (t : Tup) k : OMap.wf VNil t → Listener.tuple_get t k = OMap.abs t !! k.
Proof using Type. intros H. unfold Listener.tuple_get. rewrite OMap.Get_abs by done. by destruct (OMap.abs t !! k). Qed.

Lemma CreatePK_ext order get get' :
  (∀ k, get k = get' k) → CreatePK fmtv order get = CreatePK fmtv order get'.
Proof using Type.
  intros H. unfold CreatePK. generalize (merge_sort col_le order) as l. intros l. generalize EmptyString at 1 3 as key.
  generalize EmptyString as sep. induction l as [|c r IH]; intros sep key; [done|]. simpl. rewrite H. apply IH.
Qed.

Lemma row_entry_spec values offset :
  length values = length fields →
  ∃ e, row_entry fmtv colOrder table km fields values offset = Ok e ∧ entry_of values offset e.
Proof using Hfields Hkm.
  intros Hl. destruct (set_fields_spec fields values (OMap.New VNil km)) as (t & E & H1 & H2 & H3);
    [by apply OMap.New_wf|done|done|done|].
  unfold row_entry. rewrite E. res_step. eexists. split; [done|]. exists t.
  assert (OMap.abs t = row_map values) as H4 by (rewrite H3, OMap.abs_New by done; done).
  split_and!; try done. f_equal. apply CreatePK_ext. intros k. by rewrite tuple_get_abs, H4.
Qed.

(** The batch of the given rows: their entries, numbered from zero. *)
Definition batch_of (rows : list (list goval)) (es : list (WriteEntry Tup)) : Prop :=
  length es = length rows ∧ ∀ i vs e, rows !! i = Some vs → es !! i = Some e → entry_of vs (Z.of_nat i) e.

Lemma batch_snoc rows es vs e :
  batch_of rows es → entry_of vs (Z.of_nat (length rows)) e → batch_of (rows ++ [vs]) (es ++ [e]).
Proof using Type.
  intros [Hl H] He. split; [rewrite !length_app; simpl; lia|]. intros i vs' e' H1 H2.
  apply lookup_app_Some in H1 as [H1|[H1 H1']].
  - rewrite lookup_app_l in H2 by (rewrite Hl; by eapply lookup_lt_Some). by eapply H.
  - rewrite lookup_app_r in H2 by lia. rewrite Hl in H2. apply list_lookup_singleton_Some in H1' as [Hi <-].
    rewrite Hi in H2. injection H2 as <-. by replace i with (length rows) by lia.
Qed.

Notation n := (Nat.max 1 (Z.to_nat batchSize)).

Lemma read_rows_sends rows done_ es sent :
  Forall (λ vs, length vs = length fields) rows → (length done_ < n)%nat → batch_of done_ es →
  Z.of_nat (length done_ + length rows) < two32 →
  ∃ bs rs, read_rows fmtv colOrder record_batch batchSize table km fields (inr <$> rows) None
             (Z.of_nat (length done_)) es sent = Ok (sent ++ bs, None) ∧
    chunked n (done_ ++ rows) rs ∧ Forall2 batch_of rs bs.
Proof using Hbatch Hfields Hkm.
  revert done_ es sent. induction rows as [|vs rows IH]; intros done_ es sent Hf Hlt Hb Hsz; cbn [fmap list_fmap read_rows].
  - rewrite app_nil_r. case_bool_decide as Hz.
    + exists [es], [done_]. split_and!; [done| |by constructor]. apply chunked_last; [|done]. intros ->. simpl in Hz. lia.
    + assert (done_ = []) as -> by (destruct done_; [done|simpl in Hz; lia]).
      exists [], []. rewrite app_nil_r. split_and!; [done|constructor|constructor].
  - apply Forall_cons in Hf as [Hv Hf]. destruct (row_entry_spec vs (Z.of_nat (length done_)) Hv) as (e & -> & He). res_step.
    pose proof (batch_snoc _ _ _ _ Hb He) as Hb'. simpl in Hsz.
    rewrite !u32_small by lia. case_bool_decide as Hful.
    + destruct (IH [] [] (sent ++ [es ++ [e]])) as (bs & rs & E & H1 & H2);
        [done|simpl; lia|split; [done|intros i vs' e' H; by rewrite lookup_nil in H]|simpl; lia|].
      change (record_batch (es ++ [e]) sent) with (sent ++ [es ++ [e]], @None goerr). cbv iota beta zeta. change (Z.of_nat (length [])) with 0 in E. rewrite E. exists ((es ++ [e]) :: bs), ((done_ ++ [vs]) :: rs). split_and!.
      * app_assoc.
      * rewrite cons_middle, (assoc_L (++)). apply chunked_full; [rewrite length_app; simpl; lia|exact H1].
      * by constructor.
    + destruct (IH (done_ ++ [vs]) (es ++ [e]) sent) as (bs & rs & E & H1 & H2);
        [done|rewrite length_app; simpl; lia|done|rewrite length_app; simpl; lia|].
      rewrite length_app in E. simpl in E. replace (Z.of_nat (length done_) + 1) with (Z.of_nat (length done_ + 1)) by lia.
      rewrite E. exists bs, rs. split_and!; [done| |done]. by rewrite <- (assoc_L (++)) in H1.
Qed.

(** C23: a task sends every row its query returns, once and in order.  The rows
    are cut into batches of the configured size (the last one shorter), and the
    entry of a row holds exactly the columns of the query, the row's key, and
    its place in the batch as offset; no row makes the worker panic. *)
Theorem range_sends_every_row rows :
  Forall (λ vs, length vs = length fields) rows → Z.of_nat (length rows) < two32 →
  ∃ sent parts,
    processTableRange fmtv colOrder record_batch batchSize txOpts (mkTask table (Some km)) fields (inr <$> rows) None [] =
      Ok (sent, None) ∧
    chunked n rows parts ∧ Forall2 batch_of parts sent.
Proof using Hbatch Hfields Hkm.
  intros Hr Hsz. unfold processTableRange. simpl.
  assert (List.find (λ f, bool_decide (KeyMap.GetIndex km f < 0)) fields = None) as ->.
  { clear -Hfields. induction Hfields as [|f fs Hf Hfs IH]; [done|]. cbn [List.find]. rewrite bool_decide_false by lia. exact (IH Hfs). }
  destruct (read_rows_sends rows [] [] []) as (bs & rs & E & H1 & H2);
    [done|simpl; lia|split; [done|intros i vs e H; by rewrite lookup_nil in H]|done|].
  by exists bs, rs.
Qed.
End sends.

(** ** Numbering batches *)

Module Numbers.

Record snapshotLSNTracker := mkNums { nextLSN : Z; maxSubmitted : Z }.
Definition no_numbers : snapshotLSNTracker := mkNums 0 0.

(** [nextLSN.Add(1)] *)
Definition NextLSN (t : snapshotLSNTracker) : Z * snapshotLSNTracker :=
  let n := u64 (nextLSN t + 1) in (n, mkNums n (maxSubmitted t)).
Definition MaxLSN (t : snapshotLSNTracker) : Z := nextLSN t.
Definition MaxSubmitted (t : snapshotLSNTracker) : Z := maxSubmitted t.

(** Where a worker is in [MarkSubmitted]: outside, before the load, or before
    the compare-and-swap with the value it loaded. *)
Inductive mark_pc := Outside | Loading (submitted : Z) | Swapping (submitted current : Z).

Definition load (maxSub : Z) (pc : mark_pc) : option mark_pc :=
  match pc with
  | Loading s => Some (if bool_decide (s ≤ maxSub) then Outside else Swapping s maxSub)
  | _ => None
  end.
(** [CompareAndSwap]: the new maximum and the place. *)
Definition swap (maxSub : Z) (pc : mark_pc) : option (Z * mark_pc) :=
  match pc with
  | Swapping s c => Some (if bool_decide (maxSub = c) then (s, Outside) else (maxSub, Loading s))
  | _ => None
  end.

(** The workers and the shared maximum. *)
Record marks := mkMarks { mk_max : Z; mk_pcs : list mark_pc }.
Inductive mark_event := Mark (i : nat) (lsn : Z) | Load (i : nat) | Swap (i : nat).

Definition mark_step (e : mark_event) (s : marks) : option marks :=
  match e with
  | Mark i lsn =>
      match mk_pcs s !! i with
      | Some Outside => Some (mkMarks (mk_max s) (<[i := Loading lsn]> (mk_pcs s)))
      | _ => None
      end
  | Load i =>
      pc ← mk_pcs s !! i; pc ← load (mk_max s) pc; Some (mkMarks (mk_max s) (<[i := pc]> (mk_pcs s)))
  | Swap i =>
      pc ← mk_pcs s !! i; '(m, pc) ← swap (mk_max s) pc; Some (mkMarks m (<[i := pc]> (mk_pcs s)))
  end.

Inductive mark_run (n : nat) : list mark_event → marks → Prop :=
| mark_init : mark_run n [] (mkMarks 0 (replicate n Outside))
| mark_snoc es s e s' : mark_run n es s → mark_step e s = Some s' → mark_run n (es ++ [e]) s'.

Definition calls (es : list mark_event) : list Z := omap (λ e, match e with Mark _ l => Some l | _ => None end) es.
Definition submitting (pc : mark_pc) : option Z :=
  match pc with Outside => None | Loading s | Swapping s _ => Some s end.

Record mark_inv (es : list mark_event) (s : marks) : Prop := {
  mi_done l : l ∈ calls es → l ≤ mk_max s ∨ ∃ i pc, mk_pcs s !! i = Some pc ∧ submitting pc = Some l;
  mi_max : mk_max s = 0 ∨ mk_max s ∈ calls es;
  mi_calls i pc l : mk_pcs s !! i = Some pc → submitting pc = Some l → l ∈ calls es;
  mi_swap i l c : mk_pcs s !! i = Some (Swapping l c) → c < l ∧ c ≤ mk_max s }.

Lemma calls_snoc es e : calls (es ++ [e]) = calls es ++ match e with Mark _ l => [l] | _ => [] end.
Proof. unfold calls. rewrite omap_app. by destruct e. Qed.

(** A worker moves on with the same number, or is done with it. *)
Lemma moved es (s : marks) i pc pc' m :
  mark_inv es s → mk_pcs s !! i = Some pc → mk_max s ≤ m → (m = mk_max s ∨ submitting pc = Some m) →
  (∀ l, submitting pc = Some l → submitting pc' = Some l ∨ submitting pc' = None ∧ l ≤ m) →
  (∀ l c, pc' = Swapping l c → c < l ∧ c ≤ m) → (submitting pc' = None ∨ submitting pc' = submitting pc) →
  mark_inv es (mkMarks m (<[i := pc']> (mk_pcs s))).
Proof.
  intros [H1 H2 H3 H4] Hi Hm Hnew Hdone Hswap Hsame. split; simpl.
  - intros l Hl. destruct (H1 l Hl) as [?|(j & pcj & Hj & Ej)]; [left; lia|].
    destruct (decide (i = j)) as [<-|Hne].
    + rewrite Hi in Hj. injection Hj as <-. destruct (Hdone l Ej) as [?|[_ ?]]; [|by left].
      right. exists i, pc'. split; [|done]. apply list_lookup_insert_eq. by eapply lookup_lt_Some.
    + right. exists j, pcj. split; [|done]. by rewrite list_lookup_insert_ne.
  - destruct Hnew as [->|Hs]; [done|]. right. by eapply H3.
  - intros j pcj l Hj El. apply list_lookup_insert_Some in Hj as [(<- & <- & _)|[_ Hj]]; [|by eapply H3].
    destruct Hsame as [Hsame|Hsame]; rewrite Hsame in El; [done|]. by eapply H3.
  - intros j l c Hj. apply list_lookup_insert_Some in Hj as [(<- & E & _)|[_ Hj]]; [by apply Hswap|].
    destruct (H4 j l c Hj). split; [done|lia].
Qed.

Lemma mark_run_inv n es s : mark_run n es s → mark_inv es s.
Proof.
  induction 1 as [|es s e s' _ IH Hstep].
  { split; simpl; [intros l H; by apply elem_of_nil in H|by left|..]; intros ? ?; [intros ?|intros ?]; 
      rewrite ?lookup_replicate; naive_solver. }
  destruct e as [i l|i|i]; simpl in Hstep.
  - destruct (mk_pcs s !! i) as [[]|] eqn:Hi; try done. injection Hstep as <-. destruct IH as [H1 H2 H3 H4].
    split; simpl; rewrite ?calls_snoc.
    + intros l' [Hl|Hl]%elem_of_app.
      * destruct (H1 l' Hl) as [?|(j & pcj & Hj & Ej)]; [by left|]. right. exists j, pcj. split; [|done].
        rewrite list_lookup_insert_ne; [done|]. intros <-. rewrite Hi in Hj. by injection Hj as <-.
      * apply list_elem_of_singleton in Hl as ->. right. exists i, (Loading l). split; [|done].
        apply list_lookup_insert_eq. by eapply lookup_lt_Some.
    + destruct H2; [by left|right]. apply elem_of_app. by left.
    + intros j pcj l' Hj El. apply elem_of_app. apply list_lookup_insert_Some in Hj as [(<- & <- & _)|[_ Hj]].
      * right. injection El as <-. by apply list_elem_of_singleton.
      * left. by eapply H3.
    + intros j l' c Hj. apply list_lookup_insert_Some in Hj as [(<- & E & _)|[_ Hj]]; [done|by eapply H4].
  - destruct (mk_pcs s !! i) as [pc|] eqn:Hi; [|done]. simpl in Hstep. destruct pc as [|l|]; try done. simpl in Hstep.
    injection Hstep as <-.
    assert (calls (es ++ [Load i]) = calls es) as E by (by rewrite calls_snoc, app_nil_r).
    assert (mark_inv es (mkMarks (mk_max s) (<[i := if bool_decide (l ≤ mk_max s) then Outside else Swapping l (mk_max s)]> (mk_pcs s)))) as [].
    { case_bool_decide; (eapply moved; [exact IH|exact Hi|done|by left|..]); simpl.
      - intros l' [= <-]. by right.
      - done.
      - by left.
      - intros l' [= <-]. by left.
      - intros l' c [= <- <-]. split; lia.
      - by right. }
    split; rewrite ?E; done.
  - destruct (mk_pcs s !! i) as [pc|] eqn:Hi; [|done]. simpl in Hstep. destruct pc as [| |l c]; try done. simpl in Hstep.
    assert (calls (es ++ [Swap i]) = calls es) as E by (by rewrite calls_snoc, app_nil_r).
    destruct (mi_swap _ _ IH i l c Hi) as [Hlt Hle].
    assert (mark_inv es s') as [].
    { case_bool_decide as Hc; injection Hstep as <-; (eapply moved; [exact IH|exact Hi|simpl; lia|simpl; auto|..]); simpl.
      - intros l' [= <-]. right. split; [done|lia].
      - done.
      - by left.
      - intros l' [= <-]. by left.
      - done.
      - by right. }
    split; rewrite ?E; done.
Qed.

(** Steps of one worker alone. *)
Definition alone (es : list mark_event) (s : marks) : option marks := foldl (λ o e, o ≫= mark_step e) (Some s) es.

Lemma max_nonneg n es s : mark_run n es s → 0 ≤ mk_max s.
Proof.
  induction 1 as [|es s e s' Hr IH Hs]; [done|]. destruct e as [i l|i|i]; simpl in Hs.
  - destruct (mk_pcs s !! i) as [[]|]; try done. by injection Hs as <-.
  - destruct (mk_pcs s !! i) as [[]|]; try done. by injection Hs as <-.
  - destruct (mk_pcs s !! i) as [[| |l c]|] eqn:Hi; try done. simpl in Hs.
    destruct (mi_swap _ _ (mark_run_inv _ _ _ Hr) i l c Hi). case_bool_decide; injection Hs as <-; simpl; lia.
Qed.

Lemma foldr_max_le (l : list Z) m : Forall (λ x, x ≤ m) l → 0 ≤ m → foldr Z.max 0 l ≤ m.
Proof. induction 1; simpl; lia. Qed.

Lemma foldr_max_ge (l : list Z) x : x ∈ l → x ≤ foldr Z.max 0 l.
Proof.
  induction l as [|y r IH]; [intros H; by apply elem_of_nil in H|].
  intros [->|Hl]%elem_of_cons; simpl; [lia|]. specialize (IH Hl). lia.
Qed.

Lemma foldr_max_nonneg (l : list Z) : 0 ≤ foldr Z.max 0 l.
Proof. induction l; simpl; lia. Qed.

Lemma alone_from_load i l s :
  mk_pcs s !! i = Some (Loading l) →
  ∃ es' s', (length es' ≤ 2)%nat ∧ alone es' s = Some s' ∧ mk_pcs s' !! i = Some Outside.
Proof.
  intros Hi. assert (i < length (mk_pcs s))%nat as Hlen by (by eapply lookup_lt_Some).
  destruct (decide (l ≤ mk_max s)) as [Hle|Hgt].
  - exists [Load i], (mkMarks (mk_max s) (<[i := Outside]> (mk_pcs s))). split_and!; [simpl; lia| |by apply list_lookup_insert_eq].
    unfold alone. simpl. rewrite Hi. simpl. by rewrite bool_decide_true.
  - exists [Load i; Swap i], (mkMarks l (<[i := Outside]> (<[i := Swapping l (mk_max s)]> (mk_pcs s)))).
    split_and!; [simpl; lia| |apply list_lookup_insert_eq; by rewrite length_insert].
    unfold alone. simpl. rewrite Hi. simpl. rewrite bool_decide_false by done. simpl.
    rewrite list_lookup_insert_eq by done. simpl. by rewrite bool_decide_true.
Qed.

Lemma alone_returns i pc s :
  mk_pcs s !! i = Some pc →
  ∃ es' s', (length es' ≤ 3)%nat ∧ alone es' s = Some s' ∧ mk_pcs s' !! i = Some Outside.
Proof.
  intros Hi. assert (i < length (mk_pcs s))%nat as Hlen by (by eapply lookup_lt_Some). destruct pc as [|l|l c].
  - exists [], s. split_and!; [simpl; lia|done|done].
  - destruct (alone_from_load i l s Hi) as (es' & s' & ? & ? & ?). exists es', s'. split_and!; [lia|done|done].
  - destruct (decide (mk_max s = c)) as [Hc|Hc].
    + exists [Swap i], (mkMarks l (<[i := Outside]> (mk_pcs s))). split_and!; [simpl; lia| |by apply list_lookup_insert_eq].
      unfold alone. simpl. rewrite Hi. simpl. by rewrite bool_decide_true.
    + set (s1 := mkMarks (mk_max s) (<[i := Loading l]> (mk_pcs s))).
      destruct (alone_from_load i l s1) as (es' & s' & ? & Hs & ?); [by apply list_lookup_insert_eq|].
      exists (Swap i :: es'), s'. split_and!; [simpl; lia| |done]. unfold alone in *. simpl. rewrite Hi. simpl.
      by rewrite bool_decide_false.
Qed.

(** In every interleaving of the workers' compare-and-swap loops the shared
    maximum is the largest number submitted: no number is lost to a race, and
    it is never larger than what was submitted.  A worker that runs on its own
    leaves its loop after at most three steps, and a swap fails only when
    another worker raised the maximum since the load. *)
Lemma max_submitted_exact n es s :
  mark_run n es s →
  (Forall (λ pc, pc = Outside) (mk_pcs s) → mk_max s = foldr Z.max 0 (calls es)) ∧
  (∀ l, l ∈ calls es → l ≤ mk_max s ∨ ∃ i pc, mk_pcs s !! i = Some pc ∧ submitting pc = Some l) ∧
  (∀ i pc, mk_pcs s !! i = Some pc →
     ∃ es' s', (length es' ≤ 3)%nat ∧ alone es' s = Some s' ∧ mk_pcs s' !! i = Some Outside) ∧
  (∀ i l c, mk_pcs s !! i = Some (Swapping l c) → c ≤ mk_max s ∧
     (mk_max s = c → mark_step (Swap i) s = Some (mkMarks l (<[i := Outside]> (mk_pcs s))))).
Proof.
  intros Hrun. destruct (mark_run_inv _ _ _ Hrun) as [H1 H2 H3 H4]. split_and!; [|done|intros i pc; apply alone_returns|].
  - intros Hout. apply Z.le_antisymm.
    + destruct H2 as [->|Hin]; [apply foldr_max_nonneg|by apply foldr_max_ge].
    + apply foldr_max_le; [|by eapply max_nonneg].
      apply Forall_forall. intros l Hl. destruct (H1 l Hl) as [?|(i & pc & Hi & E)]; [done|].
      rewrite Forall_lookup in Hout. by rewrite (Hout i pc Hi) in E.
  - intros i l c Hi. destruct (H4 i l c Hi). split; [done|]. intros E. simpl. rewrite Hi. simpl.
    by rewrite bool_decide_true.
Qed.
End Numbers.

(** ** Concrete batches *)

Module Samples.
Definition table : Table := AddColumn (mkCol "id" 23 true 1) (NewTable "public" "users").
Definition km : KeyMap.KeyMap := KeyMap.New ["id"].
Definition show (v : option goval) : string := match v with Some (VInt _ z) => pretty z | _ => "<nil>" end.
Definition order (m : gmap string Column) : list Column := (map_to_list m).*2.
Definition rows : list (list goval) := [[VInt 32 1]; [VInt 32 2]; [VInt 32 3]].

Definition keys_sent (r : res (list (list (WriteEntry Tup)) * option goerr)) : list (list string) :=
  match r with Ok (sent, None) => List.map (List.map we_PK) sent | _ => [] end.
Example three_rows :
  keys_sent (processTableRange show order record_batch 2 (mkTCO false EmptyString) (mkTask table (Some km)) ["id"]
               (List.map inr rows) None []) = [["1"; "2"]; ["3"]].
Proof. vm_compute. reflexivity. Qed.

Lemma range_sends_every_row_witness :
  ∃ sent parts,
    processTableRange show order record_batch 2 (mkTCO false EmptyString) (mkTask table (Some km)) ["id"] (inr <$> rows) None [] =
      Ok (sent, None) ∧ chunked 2 rows parts.
Proof.
  destruct (range_sends_every_row show order 2 ltac:(unfold two32; lia) (mkTCO false EmptyString) table km
    (proj1 (KeyMap.key_map_wf ["id"])) ["id"]) with (rows := rows) as (sent & parts & E & Hc & _).
  - apply Forall_singleton. vm_compute. discriminate.
  - repeat constructor.
  - reflexivity.
  - exists sent, parts. split; [exact E|exact Hc].
Defined.

Import Numbers.
Definition race : list mark_event := [Mark 0 1; Mark 1 2; Load 0; Load 1; Swap 1; Swap 0; Load 0].
Definition race_end : marks := mkMarks 2 [Outside; Outside].
Lemma max_submitted_exact_witness : mark_run 2 race race_end ∧ mk_max race_end = foldr Z.max 0 (calls race).
Proof.
  assert (mark_run 2 race race_end) as H.
  { refine (mark_snoc 2 [Mark 0 1; Mark 1 2; Load 0; Load 1; Swap 1; Swap 0] (mkMarks 2 [Loading 1; Outside]) (Load 0) race_end _ eq_refl).
    refine (mark_snoc 2 [Mark 0 1; Mark 1 2; Load 0; Load 1; Swap 1] (mkMarks 2 [Swapping 1 0; Outside]) (Swap 0) _ _ eq_refl).
    refine (mark_snoc 2 [Mark 0 1; Mark 1 2; Load 0; Load 1] (mkMarks 0 [Swapping 1 0; Swapping 2 0]) (Swap 1) _ _ eq_refl).
    refine (mark_snoc 2 [Mark 0 1; Mark 1 2; Load 0] (mkMarks 0 [Swapping 1 0; Loading 2]) (Load 1) _ _ eq_refl).
    refine (mark_snoc 2 [Mark 0 1; Mark 1 2] (mkMarks 0 [Loading 1; Loading 2]) (Load 0) _ _ eq_refl).
    refine (mark_snoc 2 [Mark 0 1] (mkMarks 0 [Loading 1; Outside]) (Mark 1 2) _ _ eq_refl).
    exact (mark_snoc 2 [] (mkMarks 0 [Outside; Outside]) (Mark 0 1) _ (mark_init 2) eq_refl). }
  split; [exact H|]. destruct (max_submitted_exact 2 race race_end H) as (Hm & _).
  apply Hm. repeat constructor.
Defined.
End Samples.
