(* ===== verification/SnapshotProgress.v ===== *)
(** * The progress of a snapshot (src/snapshot)

    - [Tracker]: the progress of each table ([snapshotProgressTracker] of
      progress_tracker.go), which decides when a table is complete;
    - [Store]: the saved state of the tables (state.go), a row per table;
    - [Reporter]: the queue of reports between the workers and the goroutine that
      follows the progress ([snapshotProgressReporter] of manager.go);
    - [Follow]: that goroutine ([trackProgress]) and the end of [runSnapshot].

    The states of the tables are shared by the manager and the tracker through
    pointers; they are a map from the tables' names, which the validation of the
    configuration keeps distinct.  Whether a database statement succeeds is an
    argument. *)

From stdpp Require Import base numbers list gmap strings pretty sorting.
From S2P Require Import Prelude GoStrings WriteQueue PgSchema PgWal SnapshotPlan.

(** ** The progress tracker *)

Module Tracker.

Record snapshotTableProgress := mkTP {
  processedRows : Z; processedSinceLastReport : Z; dispatched : bool; tasksCount : Z; doneTasks : Z;
  totalRows : Z; maxLSN : Z }.

Definition isDone (table : snapshotTableProgress) (maxAck : Z) : bool :=
  bool_decide (doneTasks table = tasksCount table) && dispatched table && bool_decide (maxLSN table ≤ maxAck) &&
  bool_decide (0 < maxLSN table).

(** The tracker and the states of the tables. *)
Record tracker := mkPT {
  tables : gmap string snapshotTableProgress; reportEvery : Z; ackedLSN : Z; states : gmap string TableState }.

Definition newSnapshotProgressTracker (tableStates : gmap string TableState) (every : Z) : tracker :=
  mkPT ((λ st, mkTP (ProcessedRows st) 0 false 0 0 (TotalRowsValue st) 0) <$> tableStates) every 0 tableStates.

Definition with_state (f : TableState → TableState) (name : string) (t : tracker) : tracker :=
  mkPT (tables t) (reportEvery t) (ackedLSN t) (alter f name (states t)).
Definition with_table (name : string) (p : snapshotTableProgress) (t : tracker) : tracker :=
  mkPT (<[name := p]> (tables t)) (reportEvery t) (ackedLSN t) (states t).

Definition set_status (s : SnapshotStatus) (st : TableState) : TableState :=
  mkTS (AppName st) (ts_Name st) (SnapshotLSN st) (SnapshotType st) (SnapshotQuery st) (TotalRows st) (ProcessedRows st) s
       (ErrorMessage st) (whereClause st).
Definition set_processed (n : Z) (st : TableState) : TableState :=
  mkTS (AppName st) (ts_Name st) (SnapshotLSN st) (SnapshotType st) (SnapshotQuery st) (TotalRows st) n (Status st)
       (ErrorMessage st) (whereClause st).
Definition set_total (n : Z) (st : TableState) : TableState :=
  mkTS (AppName st) (ts_Name st) (SnapshotLSN st) (SnapshotType st) (SnapshotQuery st) (Some n) (ProcessedRows st) (Status st)
       (ErrorMessage st) (whereClause st).

Definition status_of (t : tracker) (name : string) : option SnapshotStatus := Status <$> states t !! name.

(** The tables that are complete now and were not, for some order of the map. *)
Definition newly_done (t : tracker) : list string :=
  filter (λ n, status_of t n ≠ Some StatusCompleted)
         (filter (λ p, isDone p.2 (ackedLSN t) = true) (map_to_list (tables t))).*1.

Definition Ack (lsn : Z) (t : tracker) : tracker * list string :=
  if bool_decide (lsn ≤ ackedLSN t) then (t, [])
  else
    let t := mkPT (tables t) (reportEvery t) lsn (states t) in
    let doneTables := newly_done t in
    (foldr (with_state (set_status StatusCompleted)) t doneTables, doneTables).

Definition MarkStarted (name : string) (total : Z) (t : tracker) : tracker :=
  match tables t !! name with
  | None => t
  | Some p =>
      let t := with_table name (mkTP (processedRows p) (processedSinceLastReport p) (dispatched p) (tasksCount p) (doneTasks p)
                                     total (maxLSN p)) t in
      with_state (λ st, set_status StatusInProgress (set_total total st)) name t
  end.

(** The common end of the methods: the table is complete when it is done. *)
Definition settle (name : string) (p : snapshotTableProgress) (t : tracker) : tracker * (Z * Z * bool) :=
  let isDone := isDone p (ackedLSN t) in
  (if isDone then with_state (set_status StatusCompleted) name t else t, (processedRows p, totalRows p, isDone)).

(** [Add]: also whether the progress is to be logged. *)
Definition Add (name : string) (rows : Z) (t : tracker) : tracker * (Z * Z * bool * bool) :=
  match tables t !! name with
  | None => (t, (0, 0, false, false))
  | Some p =>
      let processed := i64 (processedRows p + rows) in
      let est := totalRows p in
      let '(since, report) :=
        if bool_decide (0 < est) && bool_decide (0 < reportEvery t) && bool_decide (reportEvery t < 100) then
          let since := i64 (processedSinceLastReport p + rows) in
          let threshold := Z.quot (i64 (est * reportEvery t)) 100 in
          if bool_decide (threshold ≤ since) then (0, true) else (since, false)
        else (processedSinceLastReport p, true) in
      let p := mkTP processed since (dispatched p) (tasksCount p) (doneTasks p) est (maxLSN p) in
      let t := with_state (set_processed processed) name (with_table name p t) in
      let '(t, (processed, est, isDone)) := settle name p t in
      (t, (processed, est, report, isDone))
  end.

Definition CompleteTask (name : string) (t : tracker) : tracker * (Z * Z * bool) :=
  match tables t !! name with
  | None => (t, (0, 0, false))
  | Some p =>
      let p := mkTP (processedRows p) (processedSinceLastReport p) (dispatched p) (tasksCount p) (doneTasks p + 1)
                    (totalRows p) (maxLSN p) in
      settle name p (with_table name p t)
  end.

Definition MarkDispatched (name : string) (count : Z) (t : tracker) : tracker * (Z * Z * bool) :=
  match tables t !! name with
  | None => (t, (0, 0, false))
  | Some p =>
      let p := mkTP (processedRows p) (processedSinceLastReport p) true count (doneTasks p) (totalRows p) (maxLSN p) in
      settle name p (with_table name p t)
  end.

Definition AddMaxLSN (name : string) (lsn : Z) (t : tracker) : tracker * (Z * Z * bool) :=
  match tables t !! name with
  | None => (t, (0, 0, false))
  | Some p =>
      let p := mkTP (processedRows p) (processedSinceLastReport p) (dispatched p) (tasksCount p) (doneTasks p) (totalRows p)
                    (if bool_decide (maxLSN p < lsn) then lsn else maxLSN p) in
      settle name p (with_table name p t)
  end.

(** [Stats], without the percentage. *)
Record snapshotProgressStats := mkStats {
  tablesTotal : Z; tablesPending : Z; tablesInProgress : Z; tablesCompleted : Z; tablesFailed : Z;
  rowsProcessed : Z; rowsTotalEstimated : Z; rowsRemaining : Z; st_ackedLSN : Z }.

Definition count_table (t : tracker) (name : string) (p : snapshotTableProgress) (s : snapshotProgressStats)
    : snapshotProgressStats :=
  let b (q : bool) := if q then 1 else 0 in
  let status := default StatusPending (status_of t name) in
  mkStats (tablesTotal s) (tablesPending s + b (bool_decide (status = StatusPending)))
    (tablesInProgress s + b (bool_decide (status = StatusInProgress)))
    (tablesCompleted s + b (bool_decide (status = StatusCompleted))) (tablesFailed s + b (bool_decide (status = StatusFailed)))
    (i64 (rowsProcessed s + processedRows p)) (i64 (rowsTotalEstimated s + totalRows p))
    (if bool_decide (processedRows p < totalRows p) then i64 (rowsRemaining s + (totalRows p - processedRows p)) else rowsRemaining s)
    (st_ackedLSN s).

Definition Stats (t : tracker) : snapshotProgressStats :=
  foldr (λ kp s, count_table t kp.1 kp.2 s) (mkStats (Z.of_nat (size (tables t))) 0 0 0 0 0 0 0 (ackedLSN t))
        (map_to_list (tables t)).

End Tracker.

(** ** The saved states *)

Module Store.

(** A row of [pgwalk.snapshot_state], without the times other than whether the
    snapshot ended. *)
Record row := mkRow {
  d_lsn : string; d_type : string; d_query : option string; d_total : option Z; d_processed : Z;
  d_status : SnapshotStatus; d_ended : bool; d_error : option string }.
Notation db := (gmap string row).

Definition LoadTablesState (appName : string) (d : db) : gmap string TableState :=
  map_imap (λ name r, Some (mkTS appName name (d_lsn r) (d_type r) (d_query r) (d_total r) (d_processed r) (d_status r)
                                (d_error r) EmptyString)) d.

(** On a conflict the error message of the row stays as it was. *)
Definition UpsertTableState (st : TableState) (d : db) : db :=
  <[ts_Name st := mkRow (SnapshotLSN st) (SnapshotType st) (SnapshotQuery st) (TotalRows st) (ProcessedRows st) (Status st) false
                    (r ← d !! ts_Name st; d_error r)]> d.

(** What the chosen statement does to the row; [None] when there is none. *)
Definition progressUpdateStatement (processed : Z) (status : SnapshotStatus) (msg : option string) : option (row → row) :=
  match status with
  | StatusInProgress =>
      if bool_decide (0 < processed)
      then Some (λ r, mkRow (d_lsn r) (d_type r) (d_query r) (d_total r) processed StatusInProgress (d_ended r) (d_error r))
      else None
  | StatusCompleted =>
      Some (λ r, mkRow (d_lsn r) (d_type r) (d_query r) (d_total r)
                       (if bool_decide (0 < processed) then processed else d_processed r) StatusCompleted true msg)
  | StatusFailed =>
      Some (λ r, mkRow (d_lsn r) (d_type r) (d_query r) (d_total r) (d_processed r) StatusFailed (d_ended r) msg)
  | StatusPending => None
  end.

Definition UpdateProgress (name : string) (processed : Z) (status : SnapshotStatus) (msg : option string) (d : db) : db :=
  match progressUpdateStatement processed status msg with
  | Some f => alter f name d
  | None => d
  end.

Definition SetInProgress (name : string) (total : Z) (d : db) : db :=
  alter (λ r, mkRow (d_lsn r) (d_type r) (d_query r) (Some total) (d_processed r) StatusInProgress false (d_error r)) name d.
End Store.

(** ** Reports *)

Inductive progressReport :=
| TableStarted (name : string) (total : Z)
| TableDispatched (name : string) (count : Z)
| MaxLSN (name : string) (lsn : Z)
| TaskDone (name : string)
| LSNAck (lsn : Z)
| RangeDone (name : string) (rows : Z)
| StopReport.

Definition report_size (_ : progressReport) : Z := 1.

(** The reports for a response of the writer: the rows of each table, then the
    acknowledged position. *)
Definition rows_by_table (es : list ResponseEntry) : gmap string Z :=
  foldl (λ m e, if bool_decide (FullName (re_Table e) = EmptyString) then m
                else <[FullName (re_Table e) := default 0 (m !! FullName (re_Table e)) + 1]> m) ∅ es.
Definition reportSnapshotAckProgress (resp : option Response) (maxAcked : Z) : list progressReport :=
  match resp with
  | None => []
  | Some resp =>
      ((λ p, RangeDone p.1 p.2) <$> map_to_list (rows_by_table (r_Entries resp))) ++
      (if bool_decide (0 < maxAcked) then [LSNAck maxAcked] else [])
  end.

Module Reporter.
Section reporter.
Context `{QI : QueueImpl progressReport report_size}.

(** The queue, the channel to the follower (in the order of delivery), and
    whether it is closed. *)
Record reporter := mkReporter { queue : Q QI; delivered : list progressReport; closed : bool; ended : bool }.
Definition newSnapshotProgressReporter : reporter := mkReporter op_new [] false false.

Definition Report (cancelled : bool) (r : progressReport) (rp : reporter) : reporter :=
  if cancelled || closed rp then rp else mkReporter (op_push r (queue rp)).1 (delivered rp) (closed rp) (ended rp).
Definition Close (rp : reporter) : reporter :=
  if closed rp then rp else mkReporter (op_push StopReport (queue rp)).1 (delivered rp) true (ended rp).

(** One round of [dispatch]; [None] when it waits or has returned. *)
Definition dispatch_round (cancelled : bool) (rp : reporter) : option reporter :=
  if ended rp then None
  else match op_pop (queue rp) with
       | (_, Spec.PopBlocked) => None
       | (q, Spec.PopStopped) => Some (mkReporter q (delivered rp) (closed rp) true)
       | (q, Spec.PopItem StopReport) => Some (mkReporter q (delivered rp) (closed rp) true)
       | (q, Spec.PopItem r) =>
           if cancelled then Some (mkReporter q (delivered rp) (closed rp) true)
           else Some (mkReporter q (delivered rp ++ [r]) (closed rp) (ended rp))
       end.
End reporter.
End Reporter.

(** ** Following the progress *)

Module Follow.
Import Tracker Store.
Section follow.
(** Whether a database statement for a table succeeds. *)
Context (db_ok : string → bool).

Record follower := mkF { trk : tracker; saved : db }.

Definition update_ok (name : string) (processed : Z) (status : SnapshotStatus) (msg : option string) (d : db) : db :=
  if db_ok name then UpdateProgress name processed status msg d else d.

Definition setTableCompleted (name : string) (processed : Z) (f : follower) : follower :=
  mkF (trk f) (update_ok name processed StatusCompleted None (saved f)).

(** One round of [trackProgress]. *)
Definition handle_report (r : progressReport) (f : follower) : follower :=
  match r with
  | TableStarted name total => mkF (MarkStarted name total (trk f)) (saved f)
  | TableDispatched name count =>
      let '(t, (processed, _, tableDone)) := MarkDispatched name count (trk f) in
      let f := mkF t (saved f) in
      if bool_decide (count = 0) || tableDone then setTableCompleted name processed f else f
  | MaxLSN name lsn =>
      let '(t, (processed, _, tableDone)) := AddMaxLSN name lsn (trk f) in
      let f := mkF t (saved f) in
      if (tableDone : bool) then setTableCompleted name processed f else f
  | TaskDone name =>
      let '(t, (processed, _, tableDone)) := CompleteTask name (trk f) in
      let f := mkF t (saved f) in
      if (tableDone : bool) then setTableCompleted name processed f else f
  | LSNAck lsn =>
      let '(t, tablesDone) := Ack lsn (trk f) in
      foldl (λ f name, setTableCompleted name 0 f) (mkF t (saved f)) tablesDone
  | RangeDone name rows =>
      let '(t, (processed, _, _, tableDone)) := Add name rows (trk f) in
      let f := mkF t (update_ok name processed StatusInProgress None (saved f)) in
      if negb (db_ok name) then f
      else if (tableDone : bool) then setTableCompleted name processed f else f
  | StopReport => f
  end.

Definition trackProgress (rs : list progressReport) (f : follower) : follower := foldl (λ f r, handle_report r f) f rs.

(** *** The end of [runSnapshot] *)

(** The tables with errors are marked as failed ... *)
Definition mark_failed (name : string) (msgs : list string) (f : follower) : follower :=
  mkF (with_state (set_status StatusFailed) name (trk f))
      (update_ok name 0 StatusFailed (Some (String.concat (String (Ascii.ascii_of_nat 10) EmptyString) msgs)) (saved f)).
(** ... and those neither complete nor failed as complete. *)
Definition mark_rest (name : string) (f : follower) : follower :=
  match states (trk f) !! name with
  | None => f
  | Some st =>
      if bool_decide (Status st = StatusCompleted) || bool_decide (Status st = StatusFailed) then f
      else mkF (trk f) (update_ok name (ProcessedRows st) StatusCompleted None (saved f))
  end.

Definition finish (abortOnError cancelled : bool) (errors : list (string * list string)) (names : list string) (f : follower)
    : follower * option goerr :=
  let f := foldl (λ f e, mark_failed e.1 e.2 f) f errors in
  if negb (bool_decide (errors = [])) && abortOnError then (f, Some (GoErr "snapshot finished with errors for table(s)"))
  else if cancelled then (f, Some (GoErr "context canceled"))
  else (foldl (λ f name, mark_rest name f) f names, None).
End follow.

(** [waitForSnapshotAcks], with the positions polled and whether the context
    ends in between; [None] is still waiting. *)
Fixpoint waitForSnapshotAcks (target : Z) (polls : list (Z * bool)) : option (option goerr) :=
  if bool_decide (target = 0) then Some None
  else match polls with
       | [] => None
       | (pos, cancelled) :: r =>
           if bool_decide (target ≤ pos) then Some None
           else if (cancelled : bool) then Some (Some (GoErr "context canceled"))
           else waitForSnapshotAcks target r
       end.
End Follow.

(** ** When a table is complete *)

Module Complete.
Import Tracker Store Follow.

(** What was reported about a table. *)
Definition lsns (name : string) (rs : list progressReport) : list Z :=
  omap (λ r, match r with MaxLSN n l => if bool_decide (n = name) then Some l else None | _ => None end) rs.
Definition counts (name : string) (rs : list progressReport) : list Z :=
  omap (λ r, match r with TableDispatched n c => if bool_decide (n = name) then Some c else None | _ => None end) rs.
Definition dones (name : string) (rs : list progressReport) : nat :=
  length (omap (λ r, match r with TaskDone n => if bool_decide (n = name) then Some tt else None | _ => None end) rs).
Definition acks (rs : list progressReport) : list Z :=
  omap (λ r, match r with LSNAck l => Some l | _ => None end) rs.
Definition largest (l : list Z) : Z := foldl Z.max 0 l.

(** The progress of a table is what was reported about it. *)
Definition reported (name : string) (rs : list progressReport) (p : snapshotTableProgress) : Prop :=
  doneTasks p = Z.of_nat (dones name rs) ∧ maxLSN p = largest (lsns name rs) ∧
  dispatched p = negb (bool_decide (counts name rs = [])) ∧ tasksCount p = default 0 (last (counts name rs)).

Lemma lsns_snoc n rs r : lsns n (rs ++ [r]) = lsns n rs ++ lsns n [r].
Proof. apply omap_app. Qed.
Lemma counts_snoc n rs r : counts n (rs ++ [r]) = counts n rs ++ counts n [r].
Proof. apply omap_app. Qed.
Lemma acks_snoc rs r : acks (rs ++ [r]) = acks rs ++ acks [r].
Proof. apply omap_app. Qed.
Lemma dones_snoc n rs r : dones n (rs ++ [r]) = (dones n rs + dones n [r])%nat.
Proof. unfold dones. by rewrite omap_app, length_app. Qed.
Lemma largest_snoc l x : largest (l ++ [x]) = Z.max (largest l) x.
Proof. unfold largest. by rewrite foldl_app. Qed.
Hint Rewrite lsns_snoc counts_snoc acks_snoc dones_snoc largest_snoc @app_nil_r : reports.

(** The table a report is about. *)
Definition about (r : progressReport) : option string :=
  match r with
  | TableStarted n _ | TableDispatched n _ | MaxLSN n _ | TaskDone n | RangeDone n _ => Some n
  | LSNAck _ | StopReport => None
  end.

Lemma reported_other name rs r p : about r ≠ Some name → reported name rs p → reported name (rs ++ [r]) p.
Proof.
  intros Hr (H1 & H2 & H3 & H4). unfold reported. autorewrite with reports.
  assert (lsns name [r] = [] ∧ counts name [r] = [] ∧ dones name [r] = 0%nat) as (-> & -> & ->).
  { destruct r; simpl in *; unfold lsns, counts, dones; simpl; rewrite ?bool_decide_false by congruence; done. }
  autorewrite with reports. rewrite Nat.add_0_r. done.
Qed.

(** *** What a report changes *)

(** The status a table has after a report about it. *)
Definition settled (p : snapshotTableProgress) (ack : Z) (old : option SnapshotStatus) : option SnapshotStatus :=
  if isDone p ack then Some StatusCompleted else old.

Lemma status_with_state g name n t :
  status_of (with_state g name t) n =
    if decide (n = name) then (Status ∘ g) <$> states t !! n else status_of t n.
Proof.
  unfold status_of, with_state. simpl. destruct (decide (n = name)) as [->|Hne].
  - rewrite lookup_alter_eq. by destruct (states t !! name).
  - by rewrite lookup_alter_ne.
Qed.

Lemma settle_spec name p t :
  tables (settle name p t).1 = tables t ∧ ackedLSN (settle name p t).1 = ackedLSN t ∧
  (settle name p t).2.2 = isDone p (ackedLSN t) ∧
  (is_Some (states t !! name) → status_of (settle name p t).1 name = settled p (ackedLSN t) (status_of t name)) ∧
  (∀ n, n ≠ name → status_of (settle name p t).1 n = status_of t n) ∧
  (∀ n, is_Some (states (settle name p t).1 !! n) ↔ is_Some (states t !! n)).
Proof.
  unfold settle, settled. cbv zeta. destruct (isDone p (ackedLSN t)); simpl; [|done]. split_and!; try done.
  - intros [st Hst]. rewrite status_with_state, decide_True by done. by rewrite Hst.
  - intros n Hn. by rewrite status_with_state, decide_False.
  - intros n. destruct (decide (n = name)) as [->|Hn]; [rewrite lookup_alter_eq|by rewrite lookup_alter_ne].
    by rewrite fmap_is_Some.
Qed.

(** A tracker that differs in the progress of one table and in the statuses. *)
Record moves (name : string) (p : snapshotTableProgress) (status : option SnapshotStatus → option SnapshotStatus)
    (t t' : tracker) : Prop := {
  mv_table : tables t' = <[name := p]> (tables t);
  mv_ack : ackedLSN t' = ackedLSN t;
  mv_status : is_Some (states t !! name) → status_of t' name = status (status_of t name);
  mv_other n : n ≠ name → status_of t' n = status_of t n;
  mv_states n : is_Some (states t' !! n) ↔ is_Some (states t !! n) }.

Lemma settle_moves name p t : moves name p (settled p (ackedLSN t)) t (settle name p (with_table name p t)).1.
Proof.
  destruct (settle_spec name p (with_table name p t)) as (H1 & H2 & _ & H4 & H5 & H6). by split.
Qed.

Lemma unchanged_moves name p t : tables t !! name = Some p → moves name p id t t.
Proof. intros H. split; try done. by rewrite insert_id. Qed.

Lemma Add_moves name rows t p :
  tables t !! name = Some p →
  ∃ p', moves name p' (settled p' (ackedLSN t)) t (Add name rows t).1 ∧
    (Add name rows t).2.2 = isDone p' (ackedLSN t) ∧
    doneTasks p' = doneTasks p ∧ maxLSN p' = maxLSN p ∧ dispatched p' = dispatched p ∧ tasksCount p' = tasksCount p.
Proof.
  intros Hp. unfold Add. rewrite Hp. cbv zeta.
  match goal with |- context [match ?x with pair _ _ => _ end] => destruct x as [since rep] end. set (p' := mkTP _ since _ _ _ _ _).
  set (t1 := with_state _ _ _). exists p'.
  destruct (settle_spec name p' t1) as (H1 & H2 & H3 & H4 & H5 & H6).
  destruct (settle name p' t1) as [t2 [[a b] d]]. simpl in *. split_and!; try done.
  assert (∀ n, status_of t1 n = status_of t n) as Hst.
  { intros n. unfold t1. rewrite status_with_state. destruct (decide (n = name)) as [->|]; [|done]. unfold status_of. simpl.
    by destruct (states t !! name). }
  split; try done.
  - intros Hs. rewrite H4, Hst; [done|]. unfold t1. simpl. by rewrite lookup_alter_eq, fmap_is_Some.
  - intros n Hn. by rewrite H5, Hst.
  - intros n. rewrite H6. unfold t1. simpl. destruct (decide (n = name)) as [->|Hn]; [rewrite lookup_alter_eq|by rewrite lookup_alter_ne].
    by rewrite fmap_is_Some.
Qed.

(** *** Acknowledgements *)

Lemma newly_done_elem t n :
  n ∈ newly_done t ↔ (∃ p, tables t !! n = Some p ∧ isDone p (ackedLSN t) = true) ∧ status_of t n ≠ Some StatusCompleted.
Proof.
  unfold newly_done. rewrite list_elem_of_filter, list_elem_of_fmap. split.
  - intros (H1 & [k p] & -> & [H2 H3]%list_elem_of_filter). apply elem_of_map_to_list in H3. simpl in *. eauto.
  - intros ((p & Hp & Hd) & Hs). split; [done|]. exists (n, p). split; [done|]. apply list_elem_of_filter.
    split; [done|]. by apply elem_of_map_to_list.
Qed.

Lemma complete_all_status ns t n :
  is_Some (states t !! n) →
  status_of (foldr (with_state (set_status StatusCompleted)) t ns) n =
    (if decide (n ∈ ns) then Some StatusCompleted else status_of t n) ∧
  is_Some (states (foldr (with_state (set_status StatusCompleted)) t ns) !! n).
Proof.
  intros Hs. induction ns as [|k ns [IH1 IH2]]; cbn [foldr]; [by rewrite decide_False by apply not_elem_of_nil|].
  rewrite status_with_state. split.
  - destruct (decide (n = k)) as [->|Hne].
    + rewrite decide_True by set_solver. by destruct IH2 as [st ->].
    + rewrite IH1. destruct (decide (n ∈ ns)); [rewrite decide_True by set_solver|rewrite decide_False by set_solver]; done.
  - simpl. destruct (decide (n = k)) as [->|Hne]; [rewrite lookup_alter_eq|by rewrite lookup_alter_ne]. by rewrite fmap_is_Some.
Qed.

Lemma complete_all_frame ns t :
  tables (foldr (with_state (set_status StatusCompleted)) t ns) = tables t ∧
  ackedLSN (foldr (with_state (set_status StatusCompleted)) t ns) = ackedLSN t.
Proof. induction ns as [|k ns IH]; [done|]. exact IH. Qed.

(** What a report does to the progress of the table it is about. *)
Definition advance (r : progressReport) (p p' : snapshotTableProgress) : Prop :=
  match r with
  | TableDispatched _ c => dispatched p' = true ∧ tasksCount p' = c
  | _ => dispatched p' = dispatched p ∧ tasksCount p' = tasksCount p
  end ∧
  maxLSN p' = match r with MaxLSN _ l => Z.max (maxLSN p) l | _ => maxLSN p end ∧
  doneTasks p' = match r with TaskDone _ => doneTasks p + 1 | _ => doneTasks p end.

Definition status_after (r : progressReport) (p' : snapshotTableProgress) (ack : Z) (old : option SnapshotStatus)
    : option SnapshotStatus :=
  match r with TableStarted _ _ => Some StatusInProgress | _ => settled p' ack old end.

(** *** The order of reports *)

(** What the manager and the workers keep to: a table is dispatched once, after
    it is started; a worker reports a batch before the end of its task, so as
    long as some task is not done; and no more tasks end than were dispatched. *)
Record protocol (name : string) (rs : list progressReport) : Prop := {
  pr_once : (length (counts name rs) ≤ 1)%nat;
  pr_start rs1 rs2 total : rs = rs1 ++ TableStarted name total :: rs2 → counts name rs1 = [];
  pr_tasks rs1 rs2 l c : rs = rs1 ++ MaxLSN name l :: rs2 → c ∈ counts name rs → Z.of_nat (dones name rs1) < c;
  pr_done c : c ∈ counts name rs → Z.of_nat (dones name rs) ≤ c }.

Lemma protocol_prefix name rs r : protocol name (rs ++ [r]) → protocol name rs.
Proof.
  intros [H1 H2 H3 H4]. autorewrite with reports in *. split.
  - rewrite length_app in H1. lia.
  - intros rs1 rs2 total ->. eapply H2. by rewrite <- (assoc_L (++)).
  - intros rs1 rs2 l c -> Hc. eapply (H3 rs1 (rs2 ++ [r]) l); [by rewrite <- (assoc_L (++))|]. apply elem_of_app. by left.
  - intros c Hc. specialize (H4 c). rewrite elem_of_app in H4. specialize (H4 (or_introl Hc)). lia.
Qed.

(** All tasks of the table are done, and everything they sent is acknowledged. *)
Definition finished (name : string) (rs : list progressReport) : Prop :=
  counts name rs ≠ [] ∧ Z.of_nat (dones name rs) = default 0 (last (counts name rs)) ∧
  0 < largest (lsns name rs) ≤ largest (acks rs).

Lemma isDone_finished name rs p :
  reported name rs p → isDone p (largest (acks rs)) = true ↔ finished name rs.
Proof.
  intros (H1 & H2 & H3 & H4). unfold isDone, finished. rewrite H1, H2, H3, H4, !andb_true_iff, negb_true_iff.
  rewrite !bool_decide_eq_true, bool_decide_eq_false. naive_solver lia.
Qed.

Lemma finished_stays name rs r : protocol name (rs ++ [r]) → finished name rs → finished name (rs ++ [r]).
Proof.
  intros [H1 H2 H3 H4] (F1 & F2 & F3). unfold finished. autorewrite with reports in *. rewrite length_app in H1.
  destruct (counts name rs) as [|c [|c' cs]] eqn:Ec; [done| |simpl in H1; lia]. simpl in F2.
  assert (counts name [r] = []) as Ec0 by (destruct (counts name [r]); [done|simpl in H1; lia]).
  rewrite Ec0 in *. autorewrite with reports in *.
  assert (dones name [r] = 0%nat) as E0.
  { specialize (H4 c ltac:(set_solver)). lia. }
  assert (lsns name [r] = []) as El.
  { destruct r as [| |n l| | | |]; try done. unfold lsns. simpl. case_bool_decide as Hn; [subst n|done].
    specialize (H3 rs [] l c eq_refl ltac:(set_solver)). lia. }
  rewrite E0, El, app_nil_r, Nat.add_0_r. split_and!; [done|done|lia|].
  destruct F3 as [_ F3]. etransitivity; [exact F3|].
  destruct r; unfold acks; simpl; rewrite ?app_nil_r, ?largest_snoc; lia.
Qed.

Lemma counts_one n c : counts n [TableDispatched n c] = [c].
Proof. unfold counts. simpl. by rewrite bool_decide_true. Qed.
Lemma lsns_one n l : lsns n [MaxLSN n l] = [l].
Proof. unfold lsns. simpl. by rewrite bool_decide_true. Qed.
Lemma dones_one n : dones n [TaskDone n] = 1%nat.
Proof. unfold dones. simpl. by rewrite bool_decide_true. Qed.

Lemma advance_reported r name rs p p' :
  about r = Some name → reported name rs p → advance r p p' → reported name (rs ++ [r]) p'.
Proof.
  intros Hr (R1 & R2 & R3 & R4) (A1 & A2 & A3). unfold reported.
  rewrite lsns_snoc, counts_snoc, dones_snoc.
  destruct r as [n total|n c|n l|n|l|n rows|]; simpl in Hr; simplify_eq; destruct A1 as [A1 A1']; simpl in A2, A3;
    rewrite ?counts_one, ?lsns_one, ?dones_one.
  - rewrite !app_nil_r, Nat.add_0_r. split_and!; congruence.
  - rewrite !app_nil_r, Nat.add_0_r, last_snoc, bool_decide_false by (intros E; by apply app_nil in E as [_ ?]).
    split_and!; simpl; congruence.
  - rewrite !app_nil_r, Nat.add_0_r, largest_snoc. split_and!; congruence.
  - rewrite !app_nil_r. split_and!; try congruence. lia.
  - rewrite !app_nil_r, Nat.add_0_r. split_and!; congruence.
Qed.

Lemma saved_mono name rs r :
  protocol name (rs ++ [r]) → finished name rs ∨ 0 ∈ counts name rs → finished name (rs ++ [r]) ∨ 0 ∈ counts name (rs ++ [r]).
Proof.
  intros Hp [H|H]; [left; by apply finished_stays|right]. rewrite counts_snoc. apply elem_of_app. by left.
Qed.

(** The status after the report agrees with the reports. *)
Lemma settled_finished name rs r p' ack old :
  protocol name (rs ++ [r]) → (isDone p' ack = true ↔ finished name (rs ++ [r])) →
  (old = Some StatusCompleted ↔ finished name rs) →
  settled p' ack old = Some StatusCompleted ↔ finished name (rs ++ [r]).
Proof.
  intros Hp Hd Ho. unfold settled. destruct (isDone p' ack) eqn:E; [tauto|].
  rewrite Ho. split; [by apply finished_stays|]. intros H%Hd. done.
Qed.

Lemma elem_lsns name rs l : l ∈ lsns name rs ↔ MaxLSN name l ∈ rs.
Proof.
  unfold lsns. rewrite list_elem_of_omap. split.
  - intros ([] & Hr & E); simplify_eq. case_bool_decide; simplify_eq. done.
  - intros H. eexists. split; [exact H|]. simpl. by rewrite bool_decide_true.
Qed.
Lemma elem_counts name rs c : c ∈ counts name rs ↔ TableDispatched name c ∈ rs.
Proof.
  unfold counts. rewrite list_elem_of_omap. split.
  - intros ([] & Hr & E); simplify_eq. case_bool_decide; simplify_eq. done.
  - intros H. eexists. split; [exact H|]. simpl. by rewrite bool_decide_true.
Qed.
Lemma elem_acks rs l : l ∈ acks rs ↔ LSNAck l ∈ rs.
Proof.
  unfold acks. rewrite list_elem_of_omap. split; [by intros ([] & Hr & E); simplify_eq|]. intros H. by eexists.
Qed.

Lemma largest_ge l x : x ∈ l → x ≤ largest l.
Proof.
  induction l as [|y l IH] using rev_ind; [intros H; by apply elem_of_nil in H|]. rewrite largest_snoc.
  intros [H|H]%elem_of_app; [specialize (IH H); lia|]. apply list_elem_of_singleton in H as ->. lia.
Qed.
Lemma largest_elem l : 0 < largest l → largest l ∈ l.
Proof.
  induction l as [|y l IH] using rev_ind; [done|]. rewrite largest_snoc. intros H. apply elem_of_app.
  destruct (Z.max_spec (largest l) y) as [[? E]|[? E]]; rewrite E in *; [right; by apply list_elem_of_singleton|left; auto].
Qed.

(** The same, in terms of the reports. *)
Definition all_acknowledged (name : string) (rs : list progressReport) : Prop :=
  ∃ c, TableDispatched name c ∈ rs ∧ Z.of_nat (dones name rs) = c ∧ (∃ l, MaxLSN name l ∈ rs ∧ 0 < l) ∧
    ∃ a, LSNAck a ∈ rs ∧ ∀ l, MaxLSN name l ∈ rs → l ≤ a.

Lemma finished_acknowledged name rs : protocol name rs → finished name rs ↔ all_acknowledged name rs.
Proof.
  intros [H1 _ _ _]. unfold finished, all_acknowledged. setoid_rewrite <- elem_counts. setoid_rewrite <- elem_lsns.
  setoid_rewrite <- elem_acks. split.
  - intros (F1 & F2 & F3 & F4). destruct (counts name rs) as [|c [|]]; [done| |simpl in H1; lia]. exists c. simpl in F2.
    split_and!; [set_solver|done|exists (largest (lsns name rs)); split; [by apply largest_elem|done]|].
    exists (largest (acks rs)). split; [apply largest_elem; lia|]. intros l Hl%largest_ge. lia.
  - intros (c & C1 & C2 & (l & L1 & L2) & a & A1 & A2).
    destruct (counts name rs) as [|c' [|]]; [by apply elem_of_nil in C1| |simpl in H1; lia].
    apply list_elem_of_singleton in C1 as ->. simpl. pose proof (largest_ge _ _ L1). pose proof (largest_ge _ _ A1).
    split_and!; [done|done|lia|]. etransitivity; [|exact H0]. apply A2, largest_elem. lia.
Qed.

(** *** What is saved *)

Definition saved_completed (d : db) (name : string) : Prop :=
  ∃ r, d !! name = Some r ∧ d_status r = StatusCompleted.

Section saved.
Context (db_ok : string → bool).

Lemma update_other n name processed status msg (d : db) :
  n ≠ name → update_ok db_ok name processed status msg d !! n = d !! n.
Proof using Type.
  intros Hn. unfold update_ok, UpdateProgress. destruct (db_ok name); [|done].
  destruct (progressUpdateStatement _ _ _); [|done]. by rewrite lookup_alter_ne.
Qed.

Lemma update_in_progress name processed (d : db) :
  saved_completed (update_ok db_ok name processed StatusInProgress None d) name → saved_completed d name.
Proof using Type.
  unfold update_ok, UpdateProgress. destruct (db_ok name); [|done]. simpl. case_bool_decide; [|done].
  intros (r & Hr & Hs). rewrite lookup_alter_eq in Hr. destruct (d !! name) as [r0|]; [|done]. by injection Hr as <-.
Qed.

Lemma handle_unknown r f n :
  about r = Some n → tables (trk f) !! n = None → trk (handle_report db_ok r f) = trk f.
Proof using Type.
  intros Hr Hn. destruct r as [m total|m c|m l|m|l|m rows|]; simpl in Hr; simplify_eq; cbn [handle_report].
  - unfold MarkStarted. by rewrite Hn.
  - unfold MarkDispatched. rewrite Hn. by destruct (bool_decide (c = 0)).
  - unfold AddMaxLSN. by rewrite Hn.
  - unfold CompleteTask. by rewrite Hn.
  - unfold Add. rewrite Hn. by destruct (db_ok n).
Qed.

Lemma handle_known r f n p :
  about r = Some n → tables (trk f) !! n = Some p →
  ∃ p', moves n p' (status_after r p' (ackedLSN (trk f))) (trk f) (trk (handle_report db_ok r f)) ∧ advance r p p' ∧
    (saved_completed (saved (handle_report db_ok r f)) n →
     saved_completed (saved f) n ∨ isDone p' (ackedLSN (trk f)) = true ∨ r = TableDispatched n 0).
Proof using Type.
  intros Hr Hp. destruct r as [m total|m c|m l|m|l|m rows|]; simpl in Hr; simplify_eq; cbn [handle_report].
  - unfold MarkStarted. rewrite Hp. eexists (mkTP _ _ _ _ _ total _). split_and!; [|done..|by left]. split; simpl; [done|done|..].
    + intros [st Hst]. unfold status_of. simpl. by rewrite lookup_alter_eq, Hst.
    + intros k Hk. unfold status_of. simpl. by rewrite lookup_alter_ne.
    + intros k. destruct (decide (k = n)) as [->|Hk]; [rewrite lookup_alter_eq|by rewrite lookup_alter_ne]. by rewrite fmap_is_Some.
  - unfold MarkDispatched. rewrite Hp. cbv zeta. set (p' := mkTP _ _ true _ _ _ _). exists p'.
    pose proof (settle_moves n p' (trk f)) as M. destruct (settle_spec n p' (with_table n p' (trk f))) as (_ & _ & Hd & _).
    destruct (settle n p' _) as [t' [[a b] d]]. cbn [fst snd] in *.
    change (ackedLSN (with_table n p' (trk f))) with (ackedLSN (trk f)) in Hd. rewrite <- Hd. split_and!; [|done..|].
    + by destruct (_ || _).
    + case_bool_decide as Hc; [subst c; simpl; auto|]. destruct d; simpl; auto.
  - unfold AddMaxLSN. rewrite Hp. cbv zeta. set (p' := mkTP _ _ _ _ _ _ _). exists p'.
    pose proof (settle_moves n p' (trk f)) as M. destruct (settle_spec n p' (with_table n p' (trk f))) as (_ & _ & Hd & _).
    destruct (settle n p' _) as [t' [[a b] d]]. cbn [fst snd] in *.
    change (ackedLSN (with_table n p' (trk f))) with (ackedLSN (trk f)) in Hd. rewrite <- Hd. split_and!.
    + by destruct d.
    + unfold advance. simpl. split_and!; [done|done|case_bool_decide; lia|done].
    + destruct d; simpl; auto.
  - unfold CompleteTask. rewrite Hp. cbv zeta. set (p' := mkTP _ _ _ _ _ _ _). exists p'.
    pose proof (settle_moves n p' (trk f)) as M. destruct (settle_spec n p' (with_table n p' (trk f))) as (_ & _ & Hd & _).
    destruct (settle n p' _) as [t' [[a b] d]]. cbn [fst snd] in *.
    change (ackedLSN (with_table n p' (trk f))) with (ackedLSN (trk f)) in Hd. rewrite <- Hd. split_and!; [|done..|].
    + by destruct d.
    + destruct d; simpl; auto.
  - destruct (Add_moves n rows (trk f) p Hp) as (p' & M & Hd & E1 & E2 & E3 & E4). exists p'.
    destruct (Add n rows (trk f)) as [t' [[[a b] rep] d]]. cbn [fst snd] in *. rewrite <- Hd. split_and!; try done.
    + destruct (db_ok n); simpl; [by destruct d|done].
    + destruct (db_ok n); simpl; [destruct d; simpl; auto|]; intros H; left; by eapply update_in_progress.
Qed.

(** A report about another table leaves a table alone. *)
Lemma handle_saved_other r f name :
  about r ≠ Some name → (∀ l, r ≠ LSNAck l) → saved (handle_report db_ok r f) !! name = saved f !! name.
Proof using Type.
  intros Hr Ha. destruct r as [n total|n c|n l|n|l|n rows|]; cbn [handle_report]; try done;
    try (assert (name ≠ n) as Hn by (intros ->; done)).
  - destruct (MarkDispatched n c (trk f)) as [t' [[a b] d]]. destruct (_ || _); simpl; by rewrite ?update_other.
  - destruct (AddMaxLSN n l (trk f)) as [t' [[a b] d]]. destruct d; simpl; by rewrite ?update_other.
  - destruct (CompleteTask n (trk f)) as [t' [[a b] d]]. destruct d; simpl; by rewrite ?update_other.
  - by destruct (Ha l).
  - destruct (Add n rows (trk f)) as [t' [[[a b] rep] d]]. destruct (db_ok n); simpl; [destruct d|]; simpl; by rewrite ?update_other.
Qed.

Lemma handle_other r f name :
  about r ≠ Some name → (∀ l, r ≠ LSNAck l) →
  let f' := handle_report db_ok r f in
  tables (trk f') !! name = tables (trk f) !! name ∧ ackedLSN (trk f') = ackedLSN (trk f) ∧
  status_of (trk f') name = status_of (trk f) name ∧
  (is_Some (states (trk f') !! name) ↔ is_Some (states (trk f) !! name)).
Proof using Type.
  intros Hr Ha. cbv zeta. destruct (about r) as [n|] eqn:Hn.
  - destruct (tables (trk f) !! n) as [p|] eqn:Hp.
    + destruct (handle_known r f n p Hn Hp) as (p' & [M1 M2 _ M4 M5] & _). rewrite M1, lookup_insert_ne by congruence.
      split_and!; [done|done|apply M4; congruence|apply M5].
    + by rewrite (handle_unknown r f n Hn Hp).
  - destruct r; try done. by destruct (Ha lsn).
Qed.

Lemma save_all ns f n :
  trk (foldl (λ f name, setTableCompleted db_ok name 0 f) f ns) = trk f ∧
  (saved_completed (saved (foldl (λ f name, setTableCompleted db_ok name 0 f) f ns)) n → saved_completed (saved f) n ∨ n ∈ ns).
Proof using Type.
  revert f. induction ns as [|k ns IH]; intros f; cbn [foldl]; [by auto|].
  destruct (IH (setTableCompleted db_ok k 0 f)) as [H1 H2]. split; [done|]. intros [H|H]%H2; [|set_solver].
  destruct (decide (n = k)) as [->|Hne]; [set_solver|]. left. unfold saved_completed in *. simpl in H.
  by rewrite update_other in H.
Qed.

Lemma handle_ack l f name p :
  tables (trk f) !! name = Some p → is_Some (states (trk f) !! name) →
  let f' := handle_report db_ok (LSNAck l) f in
  tables (trk f') !! name = Some p ∧ is_Some (states (trk f') !! name) ∧
  ackedLSN (trk f') = Z.max (ackedLSN (trk f)) l ∧
  status_of (trk f') name =
    (if bool_decide (ackedLSN (trk f) < l) then settled p l (status_of (trk f) name) else status_of (trk f) name) ∧
  (saved_completed (saved f') name → saved_completed (saved f) name ∨ ackedLSN (trk f) < l ∧ isDone p l = true).
Proof using Type.
  intros Hp Hs. cbv zeta. cbn [handle_report]. unfold Ack. case_bool_decide as Hl.
  - simpl. rewrite bool_decide_false by lia. split_and!; try done; [lia|by left].
  - rewrite bool_decide_true by lia. cbv zeta. set (t1 := mkPT _ _ l _). set (ns := newly_done t1).
    destruct (save_all ns (mkF (foldr (with_state (set_status StatusCompleted)) t1 ns) (saved f)) name) as [E Hsv].
    rewrite E. cbn [trk saved] in *. destruct (complete_all_frame ns t1) as [E1 E2].
    destruct (complete_all_status ns t1 name Hs) as [E3 E4]. rewrite E1, E2.
    assert (name ∈ ns ↔ isDone p l = true ∧ status_of (trk f) name ≠ Some StatusCompleted) as Hin.
    { unfold ns. rewrite newly_done_elem. split.
      - intros ((q & Hq & Hd) & H). simpl in Hq, Hd. rewrite Hp in Hq. injection Hq as <-. done.
      - intros [Hd H]. split; [by exists p|done]. }
    split_and!; [done|done|simpl; lia| |].
    + rewrite E3. unfold settled. change (status_of t1 name) with (status_of (trk f) name).
      destruct (decide (name ∈ ns)) as [H|H]; [by rewrite (proj1 (proj1 Hin H))|].
      destruct (isDone p l) eqn:Hd; [|done]. destruct (decide (status_of (trk f) name = Some StatusCompleted)); [done|].
      destruct H. by apply Hin.
    + intros [H|H]%Hsv; [by left|]. right. apply Hin in H. split; [lia|tauto].
Qed.

(** *** The invariant *)

Definition follows (name : string) (rs : list progressReport) (f : follower) : Prop :=
  ∃ p, tables (trk f) !! name = Some p ∧ reported name rs p ∧ is_Some (states (trk f) !! name) ∧
    ackedLSN (trk f) = largest (acks rs) ∧
    (status_of (trk f) name = Some StatusCompleted ↔ finished name rs) ∧
    (saved_completed (saved f) name → finished name rs ∨ 0 ∈ counts name rs).

Lemma follows_ack name rs l f :
  protocol name (rs ++ [LSNAck l]) → follows name rs f → follows name (rs ++ [LSNAck l]) (handle_report db_ok (LSNAck l) f).
Proof using Type.
  intros Hpr (p & Hp & Hr & Hs & Ha & Hst & Hsv).
  destruct (handle_ack l f name p Hp Hs) as (E1 & E2 & E3 & E4 & E5). exists p.
  assert (reported name (rs ++ [LSNAck l]) p) as Hr' by (by apply reported_other).
  assert (largest (acks (rs ++ [LSNAck l])) = Z.max (ackedLSN (trk f)) l) as Hl.
  { rewrite acks_snoc. change (acks [LSNAck l]) with [l]. by rewrite largest_snoc, Ha. }
  pose proof (isDone_finished _ _ _ Hr') as Hd. rewrite Hl in Hd. split_and!; try done.
  - by rewrite E3, Hl.
  - rewrite E4. case_bool_decide as Hlt.
    + rewrite Z.max_r in Hd by lia. by apply (settled_finished name rs).
    + rewrite Hst. split; [by apply finished_stays|]. intros H%Hd. rewrite Z.max_l in H by lia. rewrite Ha in H.
      by apply (isDone_finished _ _ _ Hr).
  - intros [H|[Hlt H]]%E5; [by apply saved_mono, Hsv|]. left. apply Hd. by rewrite Z.max_r by lia.
Qed.

Lemma follows_about name rs r f :
  about r = Some name → protocol name (rs ++ [r]) → follows name rs f → follows name (rs ++ [r]) (handle_report db_ok r f).
Proof using Type.
  intros Hr Hpr (p & Hp & Hrep & Hs & Ha & Hst & Hsv).
  destruct (handle_known r f name p Hr Hp) as (p' & [M1 M2 M3 M4 M5] & Hadv & Hsave). exists p'.
  pose proof (advance_reported r name rs p p' Hr Hrep Hadv) as Hrep'.
  assert (acks (rs ++ [r]) = acks rs) as Eacks by (rewrite acks_snoc; destruct r; simpl; rewrite ?app_nil_r; done).
  pose proof (isDone_finished _ _ _ Hrep') as Hd. rewrite Eacks, <- Ha in Hd. split_and!.
  - by rewrite M1, lookup_insert_eq.
  - done.
  - by apply M5.
  - by rewrite M2, Ha, Eacks.
  - rewrite (M3 Hs). unfold status_after. destruct r as [n total| | | | | |]; try (by apply (settled_finished name rs)).
    simpl in Hr. injection Hr as ->. split; [done|]. intros (F1 & _). destruct F1. rewrite counts_snoc.
    rewrite (pr_start _ _ Hpr rs [] total eq_refl). done.
  - intros [H|[H| ->]]%Hsave; [by apply saved_mono, Hsv|left; by apply Hd|].
    right. rewrite counts_snoc. rewrite counts_one. set_solver.
Qed.

Lemma follows_step name rs r f :
  protocol name (rs ++ [r]) → follows name rs f → follows name (rs ++ [r]) (handle_report db_ok r f).
Proof using Type.
  intros Hpr Hf. destruct (decide (about r = Some name)) as [Hr|Hr]; [by apply follows_about|].
  assert (Hcase : (∃ l, r = LSNAck l) ∨ ∀ l, r ≠ LSNAck l) by (destruct r; naive_solver).
  destruct Hcase as [[l ->]|Hne]; [by apply follows_ack|].
  destruct Hf as (p & Hp & Hrep & Hs & Ha & Hst & Hsv).
  destruct (handle_other r f name Hr Hne) as (E1 & E2 & E3 & E4). pose proof (handle_saved_other r f name Hr Hne) as E5.
  assert (acks (rs ++ [r]) = acks rs) as Eacks by (rewrite acks_snoc; destruct r; simpl; rewrite ?app_nil_r; naive_solver).
  pose proof (reported_other name rs r p Hr Hrep) as Hrep'. exists p.
  pose proof (isDone_finished _ _ _ Hrep) as Hd. pose proof (isDone_finished _ _ _ Hrep') as Hd'. rewrite Eacks in Hd'.
  split_and!; [by rewrite E1|done|by apply E4|by rewrite E2, Eacks|rewrite E3, Hst; tauto|].
  intros H. apply saved_mono; [done|]. apply Hsv. unfold saved_completed in *. by rewrite E5 in H.
Qed.

Lemma follows_run name rs f :
  follows name [] f → protocol name rs → follows name rs (trackProgress db_ok rs f).
Proof using Type.
  intros H0. induction rs as [|r rs IH] using rev_ind; [done|]. intros Hp.
  unfold trackProgress. rewrite foldl_app. apply follows_step; [done|]. apply IH. by eapply protocol_prefix.
Qed.

(** C22: what the goroutine that follows the reports makes of a table.  The
    table is known under the name reported and was not complete before, neither
    in memory nor saved; and its reports keep to [protocol]: it is dispatched at
    most once and not before it is started, a batch is reported while some task
    is not done, and no more tasks end than were dispatched.  With other reports
    between them in any order, and whichever database statements fail, the table
    counts as complete exactly when it was dispatched with the number of tasks
    that have ended, some batch of it was reported and everything reported is
    acknowledged; a table whose tasks sent no batch does not count as complete.
    What these reports have saved for a restart says that it is complete only
    then, or when it was dispatched with no task.  (The marks that [runSnapshot]
    sets at its end, [finish], are not reports.) *)
Theorem table_completed_exactly name rs (sts : gmap string TableState) every (d : db) st :
  sts !! name = Some st → Status st ≠ StatusCompleted → ¬ saved_completed d name → protocol name rs →
  let f := trackProgress db_ok rs (mkF (newSnapshotProgressTracker sts every) d) in
  (status_of (trk f) name = Some StatusCompleted ↔ all_acknowledged name rs) ∧
  (saved_completed (saved f) name → all_acknowledged name rs ∨ TableDispatched name 0 ∈ rs).
Proof using Type.
  intros Hst Hne Hd Hpr f. rewrite <- elem_counts, <- (finished_acknowledged name rs Hpr).
  destruct (follows_run name rs (mkF (newSnapshotProgressTracker sts every) d)) as (p & _ & _ & _ & _ & H1 & H2); [|done|done].
  eexists. split_and!; [simpl; rewrite lookup_fmap, Hst; done|done|by exists st|done| |by intros ?%Hd].
  unfold status_of. simpl. rewrite Hst. simpl. split; [intros [= ?]; done|]. by intros (? & _).
Qed.
End saved.
End Complete.

(** ** Concrete runs *)

Module Samples.
Import Tracker Store Follow Complete.
Definition fresh (name : string) : TableState := mkTS "app" name "0/1" "full" (Some "SELECT 1") None 0 StatusPending None EmptyString.
Definition sts : gmap string TableState := {["public.a" := fresh "public.a"; "public.b" := fresh "public.b"]}.
Definition rows0 : db := UpsertTableState (fresh "public.b") (UpsertTableState (fresh "public.a") ∅).
Definition always (_ : string) : bool := true.
Definition start : follower := mkF (newSnapshotProgressTracker sts 10) rows0.
Definition saved_status (f : follower) (name : string) : option SnapshotStatus := d_status <$> saved f !! name.

(** One task of table a: a batch, its acknowledgement, the end of the task. *)
Definition reports : list progressReport :=
  [TableStarted "public.a" 3; MaxLSN "public.a" 1; RangeDone "public.a" 3; LSNAck 1; TableDispatched "public.a" 1; TaskDone "public.a"].

Lemma reports_protocol : protocol "public.a" reports.
Proof.
  split.
  - vm_compute. lia.
  - intros rs1 rs2 total E. destruct rs1 as [|r rs1]; [done|]. injection E as <- E.
    assert (TableStarted "public.a" total ∈ rs1 ++ TableStarted "public.a" total :: rs2) as H by set_solver.
    rewrite <- E in H. set_solver.
  - intros rs1 rs2 l c E Hc%elem_counts. assert (c = 1) as -> by (unfold reports in Hc; set_solver).
    destruct rs1 as [|r [|r2 rs1]]; [discriminate E|injection E as <- _ _; vm_compute; done|]. injection E as <- <- E.
    assert (MaxLSN "public.a" l ∈ rs1 ++ MaxLSN "public.a" l :: rs2) as H by set_solver.
    rewrite <- E in H. set_solver.
  - intros c Hc%elem_counts. assert (c = 1) as -> by (unfold reports in Hc; set_solver). vm_compute. done.
Qed.

Lemma table_completed_exactly_witness :
  status_of (trk (trackProgress always reports start)) "public.a" = Some StatusCompleted.
Proof.
  apply (table_completed_exactly always "public.a" reports sts 10 rows0 (fresh "public.a")).
  - reflexivity.
  - discriminate.
  - intros (r & Hr & Hs). vm_compute in Hr. injection Hr as <-. discriminate Hs.
  - apply reports_protocol.
  - exists 1. unfold reports. split_and!; [set_solver|reflexivity|exists 1; split; [set_solver|lia]|].
    exists 1. split; [set_solver|]. intros l Hl. assert (l = 1) by set_solver. lia.
Defined.

(** A table that fails ends the dispatching of tasks.  Without [AbortOnError] the
    tables behind it, of which no row was read, are then saved as complete, and
    will be left out when the snapshot is run again. *)
Example undispatched_table_completed :
  let '(f, err) := finish always false false [("public.a", ["no connection"])] ["public.a"; "public.b"] start in
  (saved_status f "public.a", saved_status f "public.b", err) = (Some StatusFailed, Some StatusCompleted, None).
Proof. vm_compute. reflexivity. Qed.

(** The workers report a table under its full name.  A table configured without
    its schema is not found, and its progress is not followed. *)
Definition short : follower := mkF (newSnapshotProgressTracker {["a" := fresh "a"]} 10) (UpsertTableState (fresh "a") ∅).
Example short_name_not_followed :
  let f := trackProgress always
    [TableStarted "a" 3; MaxLSN "public.a" 1; RangeDone "public.a" 3; LSNAck 1; TableDispatched "a" 1; TaskDone "public.a"] short in
  (status_of (trk f) "a", d_processed <$> saved f !! "a") = (Some StatusInProgress, Some 0).
Proof. vm_compute. reflexivity. Qed.
End Samples.
