(* ===== verification/SnapshotSystem.v ===== *)
(** * The workers of a snapshot on the LSN tracker

    src/snapshot/worker.go hands each batch to the listener
    ([OnSnapshotBatch] of src/pg2buffer/buffered_listener.go, which adds it to
    the LSN tracker) under a number of its own ([NextLSN]), and marks the
    number as submitted afterwards; src/snapshot/manager.go waits until the
    acknowledged LSN has reached the largest number submitted.  Here the
    workers run beside the tracker's other callers of [LSNSystem]: the write
    pipeline, the writer's answers and the retries.

    With one worker the wait is enough: every row of every submitted batch was
    delivered or given up.  With several it is not, as [Samples] shows. *)

From stdpp Require Import base numbers list gmap strings.
From S2P Require Import Prelude WriteQueue PgSchema CircuitBreaker PgWal LSNTracker LSNSystem ListenerSystem.
From S2P Require Import SnapshotPlan SnapshotWorker SnapshotProgress.
Import Tracked LSNTracker.Tracker TInv System.

(** ** What the tracker's other callers leave alone *)

Section undisturbed.
Context {Tup : Type}.
Context {QT : QueueImpl tref t_size} {QR : QueueImpl (readyWriteEntry Tup) ready_size}.
Notation tracker := (LSNTracker.Tracker.tracker Tup).
Notation event := (System.event (Tup := Tup)).
Notation sys := (System.sys (Tup := Tup) (QT := QT) (QR := QR)).
Implicit Types t : tracker.

(** The same requests are tracked, with the same position acknowledged. *)
Record undisturbed t t' : Prop := mk_undisturbed {
  u_queue : trackingQueue t' = trackingQueue t;
  u_max : maxAcknowledged t' = maxAcknowledged t;
  u_stop : stopping t' = stopping t }.

#[global] Instance undisturbed_preorder : PreOrder undisturbed.
Proof. split; [by split|]. intros ??? [] []. split; congruence. Qed.

Lemma undisturbed_ack_ref r os tw t : undisturbed t (ack_ref r os tw t).
Proof. rewrite ack_ref_eq. by split. Qed.

Lemma undisturbed_ack_all l t : undisturbed t (ack_all l t).
Proof.
  unfold ack_all. revert t. induction l as [|[cp os] l IH]; intros t; simpl; [done|].
  etransitivity; [|apply IH]. rewrite ack_point_eq. destruct (findTrackedWrite _ t) as [r|]; [|done].
  destruct (tws t !! tid r) as [tw|]; [|done]. apply undisturbed_ack_ref.
Qed.

Lemma undisturbed_queue_write r w t : undisturbed t (queue_write r w t).2.
Proof.
  unfold queue_write. destruct (tws t !! tid r) as [tw|]; [|done]. by destruct (queueWrite w tw) as [b tw'].
Qed.

Lemma undisturbed_enqueue r w t : undisturbed t (enqueueReadyWrite r w t).
Proof.
  unfold enqueueReadyWrite. pose proof (undisturbed_queue_write r (Some w) t) as H.
  destruct (queue_write r (Some w) t) as [[] t']; [|done]. etransitivity; [exact H|by split].
Qed.

Lemma undisturbed_process now backoff resp t :
  undisturbed t (processErrorResponse now backoff resp t).1.
Proof.
  unfold processErrorResponse. destruct (stopping t); [done|].
  generalize (∅ : gmap CommitPoint (list Z)) ([] : list (retryEntry Tup)). revert t.
  induction (er_Entries resp) as [|e es IH]; intros t m rs; [done|]. cbn [process_entries]. cbv zeta.
  destruct (findTrackedWrite (re_LSN (ere_Entry e)) t) as [r|]; [|destruct (negb (isAckedLSN _ t)); [done|apply IH]].
  destruct (tws t !! tid r) as [tw|] eqn:E; [|done]. destruct (isAcknowledged tw); [apply IH|].
  destruct (getFailedEntry _ _ now tw) as [fe tw'].
  assert (undisturbed t (set_tw r tw' t)) as H by by split.
  destruct (downstreamDown _ _ _); [done|].
  destruct (skipEntry _ _ _); [etransitivity; [exact H|apply IH]|].
  destruct (bool_decide _); [|etransitivity; [exact H|apply IH]].
  destruct (buildRetryEntry _ _ _ _ _ _); (etransitivity; [exact H|apply IH]).
Qed.

Lemma undisturbed_PopReady fuel t : undisturbed t (PopReady fuel t).1.
Proof.
  revert t. induction fuel as [|fuel IH]; intros t; cbn [PopReady];
    destruct (op_pop (readyQueue t)) as [q [| |e]]; try (by split); cbv zeta;
    (destruct (tws _ !! _) as [tw|]; [|by split]); destruct (popQueuedWrite tw) as [[w|] tw']; try (by split).
  etransitivity; [|apply IH]. by split.
Qed.

(** What a step other than a new request may do to them: acknowledge some of
    the tracked requests, or stop. *)
Record settles t t' : Prop := mk_settles {
  se_tracked r : r ∈ tracked t' → r ∈ tracked t;
  se_max : maxAcknowledged t' = maxAcknowledged t ∨ ∃ r, r ∈ tracked t ∧ maxAcknowledged t' = t_point r;
  se_stop : stopping t = true → stopping t' = true ∧ maxAcknowledged t' = maxAcknowledged t }.

Lemma undisturbed_settles t t' : undisturbed t t' → settles t t'.
Proof.
  intros [E1 E2 E3]. split; [intros r; unfold tracked; by rewrite E1|by left|]. intros H. split; congruence.
Qed.

Lemma settles_after t t1 t' : undisturbed t t1 → settles t1 t' → settles t t'.
Proof.
  intros [E1 E2 E3] [H1 H2 H3]. split.
  - intros r Hr%H1. unfold tracked in *. by rewrite E1 in Hr.
  - rewrite <- E2. unfold tracked in *. by rewrite E1 in H2.
  - rewrite <- E2, <- E3. done.
Qed.

Lemma advance_settles P F t : tinv P F t → settles t (advanceMaxAcknowledged t).
Proof.
  intros Hi. destruct (advance_spec P F t Hi) as (_ & _ & _ & _ & _ & _ & _ & Hst & _ & _ & H1 & H2).
  destruct (stopping t) eqn:E.
  - destruct (H1 eq_refl) as [Et Em]. split; [by rewrite Et|by left|done].
  - destruct (H2 eq_refl) as [(l1 & El & _ & Hm) _]. split; [|rewrite Hm|congruence].
    + intros r Hr. rewrite El, elem_of_app. by right.
    + destruct (last l1) as [r|] eqn:Hl; [|by left]. right. exists r. split; [|done].
      rewrite El, elem_of_app. left. by apply last_Some_elem_of.
Qed.

Lemma Stop_settles P F t : tinv P F t → settles t (Stop t).
Proof.
  intros Hi. unfold Stop. destruct (stopping t) eqn:E; [split; auto|].
  split; [|by left|congruence]. intros r. unfold tracked. simpl.
  destruct (stop_ok (trackingQueue t) (i_wft _ _ _ Hi)) as [_ ->]. done.
Qed.

(** Not a new request. *)
Definition other (e : event) : Prop :=
  match e with EAdd _ | EAddEmpty _ _ => False | _ => True end.

Section step.
Context (enum : gmap CommitPoint (list Z) → list (CommitPoint * list Z)).
Context (SetTimer : Z → Z → bool → bool).

Lemma other_settles cfg tr (s s' : sys) e :
  sinv cfg tr s → other e → step enum SetTimer e s = Some s' → settles (trk s) (trk s').
Proof.
  intros Hs Ho Hstep. pose proof (s_tinv _ _ _ Hs) as Hi.
  assert (settles (trk s) (trk s)) as Hid by (by apply undisturbed_settles).
  destruct e as [w|l xid|resp|now backoff resp|i|now i|i|i| | | |]; try done; cbn [step] in Hstep; cbv zeta in Hstep.
  - injection Hstep as <-. simpl. set (l := enum _).
    eapply settles_after; [apply (undisturbed_ack_all l)|].
    eapply (advance_settles (λ _ _, True) (fail_count tr)). apply ack_all_tinv; [|done].
    eapply tinv_mono; [done|by intros|exact Hi].
  - destruct (er_Entries resp); [by injection Hstep as <-|].
    pose proof (undisturbed_process now backoff resp (trk s)) as H.
    destruct (processErrorResponse now backoff resp (trk s)) as [t' out].
    destruct out; [| |done]; injection Hstep as <-; apply undisturbed_settles; [exact H|].
    etransitivity; [exact H|by split].
  - destruct (ackJobs s !! i) as [[m rs]|]; [|done]. injection Hstep as <-.
    apply undisturbed_settles, undisturbed_ack_all.
  - destruct (schedJobs s !! i) as [e|]; [|done]. injection Hstep as <-. apply undisturbed_settles. simpl.
    unfold scheduleRetry. destruct (stopping (trk s)) eqn:E; [done|]. destruct (SetTimer _ _ _); split; simpl; congruence.
  - destruct (timers (trk s) !! i) as [[k e]|]; [|done]. simpl in Hstep.
    destruct (stopping (trk s)) eqn:E; [injection Hstep as <-; apply undisturbed_settles; by split|].
    match type of Hstep with context [queue_write ?r ?w ?t] =>
      pose proof (undisturbed_queue_write r w t) as Hq; destruct (queue_write r w t) as [b t2] end.
    injection Hstep as <-. apply undisturbed_settles. etransitivity; [|exact Hq]. by split.
  - destruct (pushing s !! i) as [e|]; [|done]. injection Hstep as <-. apply undisturbed_settles. by split.
  - pose proof (undisturbed_PopReady (length (Spec.items (q_abs (readyQueue (trk s))))) (trk s)) as Hp.
    destruct (PopReady _ (trk s)) as [t' p]. injection Hstep as <-. by apply undisturbed_settles.
  - case_bool_decide; [|done]. injection Hstep as <-. apply undisturbed_settles. by split.
  - injection Hstep as <-. by eapply advance_settles.
  - injection Hstep as <-. by eapply Stop_settles.
Qed.

(** A new request is tracked, or nothing changes. *)
Lemma Add_tracked cfg tr (s : sys) w :
  sinv cfg tr s → 0 ≤ LSN w →
  let t' := (Add w (trk s)).1 in
  (∀ r, r ∈ tracked t' → r ∈ tracked (trk s) ∨ lsn r = LSN w) ∧
  maxAcknowledged t' = maxAcknowledged (trk s) ∧ stopping t' = stopping (trk s).
Proof.
  intros Hs H0. pose proof (s_tinv _ _ _ Hs) as Hi. cbv zeta. unfold Add.
  destruct (stopping (trk s)) eqn:Hst; [by split; [by left|]|]. cbv zeta. simpl fst.
  assert (∀ t, undisturbed (trk s) t → (∀ r, r ∈ tracked t → r ∈ tracked (trk s) ∨ lsn r = LSN w) ∧
            maxAcknowledged t = maxAcknowledged (trk s) ∧ stopping t = false) as Hu.
  { intros t [E1 E2 E3]. split_and!; [|done|congruence]. intros r. unfold tracked. rewrite E1. by left. }
  destruct (isAckedLSN (LSN w) (trk s)) eqn:Ha; [by apply Hu|].
  destruct (findTrackedWrite (LSN w) (trk s)) as [r|] eqn:Hf.
  - apply Hu. destruct (tws (trk s) !! tid r) as [tw|]; [|done]. destruct (isAcknowledged tw); [done|].
    destruct (hasFailures tw); [|done]. simpl. destruct (fullWrite tw); [apply undisturbed_enqueue|done].
  - pose proof (insert_tracked _ _ (trk s) (newTrackedWriteRequest w) Hi Hst (newTracked_ok _ _ w) H0 Ha Hf) as H.
    cbn [alloc] in H. destruct H as (_ & Hp & _).
    set (r := mkRef _ _ _) in *. set (t1 := pushTrackedWrite _ _) in *.
    destruct (undisturbed_enqueue r w t1) as [E1 E2 E3]. split_and!; [|done|by rewrite E3].
    intros r'. unfold tracked in *. rewrite E1, Hp, elem_of_cons. intros [->|?]; [by right|by left].
Qed.
End step.
End undisturbed.

(** ** The workers *)

Module Workers.
Import SnapshotWorker.Numbers.
Section workers.
Context {Tup : Type}.
Context {QT : QueueImpl tref t_size} {QR : QueueImpl (readyWriteEntry Tup) ready_size}.
Notation event := (System.event (Tup := Tup)).
Notation sys := (System.sys (Tup := Tup) (QT := QT) (QR := QR)).
Notation batch := (list (WriteEntry Tup)).
Context (enum : gmap CommitPoint (list Z) → list (CommitPoint * list Z)).
Context (SetTimer : Z → Z → bool → bool).

(** Where a worker is in [sendBatch]. *)
Inductive place := Between | Numbered (lsn : Z) (es : batch) | Added (lsn : Z) (es : batch).

(** The tracker with its callers, the numbers, and the workers; what was
    submitted is kept for the statements. *)
Record snapshot := mkSnap {
  tracker_ : sys;
  lsnTracker_ : snapshotLSNTracker;
  places : list place;
  submitted : list (Z * batch) }.

Definition start (cfg : RetryConfig) (workers : nat) : snapshot :=
  mkSnap (init cfg) no_numbers (replicate workers Between) [].

(** [MarkSubmitted], which [Numbers] shows to keep the larger number. *)
Definition MarkSubmitted (lsn : Z) (t : snapshotLSNTracker) : snapshotLSNTracker :=
  mkNums (nextLSN t) (if bool_decide (lsn ≤ maxSubmitted t) then maxSubmitted t else lsn).

Inductive snapshot_event :=
| Next (i : nat) (es : batch)
| Send (i : nat)
| Submit (i : nat)
| Tracker (e : event).

Definition set_place (i : nat) (p : place) (s : snapshot) : list place := <[i := p]> (places s).

(** A step, and what it is to the tracker. *)
Definition snapshot_step (e : snapshot_event) (s : snapshot) : option (snapshot * list event) :=
  match e with
  | Next i es =>
      match places s !! i with
      | Some Between =>
          let '(lsn, n) := NextLSN (lsnTracker_ s) in
          Some (mkSnap (tracker_ s) n (set_place i (Numbered lsn es) s) (submitted s), [])
      | _ => None
      end
  | Send i =>
      match places s !! i with
      | Some (Numbered lsn es) =>
          let w := NewSnapshotRequest lsn es in
          Some (mkSnap (with_trk (Add w (trk (tracker_ s))).1 (tracker_ s)) (lsnTracker_ s)
                       (set_place i (Added lsn es) s) (submitted s), [EAdd w])
      | _ => None
      end
  | Submit i =>
      match places s !! i with
      | Some (Added lsn es) =>
          Some (mkSnap (tracker_ s) (MarkSubmitted lsn (lsnTracker_ s)) (set_place i Between s)
                       (submitted s ++ [(lsn, es)]), [])
      | _ => None
      end
  | Tracker e =>
      match e with
      | EAdd _ | EAddEmpty _ _ => None
      | _ =>
          t ← step enum SetTimer e (tracker_ s);
          Some (mkSnap t (lsnTracker_ s) (places s) (submitted s), [e])
      end
  end.

Inductive snapshot_run (cfg : RetryConfig) (n : nat) : list snapshot_event → list event → snapshot → Prop :=
| snapshot_start : snapshot_run cfg n [] [] (start cfg n)
| snapshot_snoc es tr s e s' evs :
    snapshot_run cfg n es tr s → snapshot_step e s = Some (s', evs) → snapshot_run cfg n (es ++ [e]) (tr ++ evs) s'.

(** How many numbers were taken. *)
Definition numbers (es : list snapshot_event) : Z :=
  Z.of_nat (length (omap (λ e, match e with Next _ b => Some b | _ => None end) es)).

(** The largest number a request can have been added under. *)
Definition last_added (s : snapshot) : Z :=
  match places s with [Numbered _ _] => nextLSN (lsnTracker_ s) - 1 | _ => nextLSN (lsnTracker_ s) end.

(** A batch that was handed over: it was new to the tracker, or the tracker had
    been stopped before its number was reached. *)
Definition handed_over (cfg : RetryConfig) (tr : list event) (s : snapshot) (lsn : Z) (es : batch) : Prop :=
  let w := NewSnapshotRequest lsn es in
  (∃ tr0 s0 evs, tr = tr0 ++ EAdd w :: evs ∧ run enum SetTimer cfg tr0 s0 ∧ fresh w (trk s0) ∧
     steps enum SetTimer evs (with_trk (Add w (trk s0)).1 s0) (tracker_ s)) ∨
  (stopping (trk (tracker_ s)) = true ∧ cp_LSN (maxAcknowledged (trk (tracker_ s))) < lsn).

Record snapshot_inv (cfg : RetryConfig) (es : list snapshot_event) (tr : list event) (s : snapshot) : Prop := {
  sn_run : run enum SetTimer cfg tr (tracker_ s);
  sn_next : nextLSN (lsnTracker_ s) = numbers es;
  sn_place : ∃ p, places s = [p] ∧
    match p with
    | Between => True
    | Numbered l _ => l = nextLSN (lsnTracker_ s) ∧ 0 < l
    | Added l b => 0 < l ∧ handed_over cfg tr s l b
    end;
  sn_above r : r ∈ tracked (trk (tracker_ s)) → lsn r ≤ last_added s;
  sn_max : cp_LSN (maxAcknowledged (trk (tracker_ s))) ≤ last_added s;
  sn_sub l b : (l, b) ∈ submitted s → 0 < l ≤ maxSubmitted (lsnTracker_ s) ∧ handed_over cfg tr s l b }.

Lemma numbers_snoc es e : numbers (es ++ [e]) = numbers es + match e with Next _ _ => 1 | _ => 0 end.
Proof. unfold numbers. rewrite omap_app, length_app. destruct e; simpl; lia. Qed.

Lemma handed_over_same cfg tr s s' l b :
  tracker_ s' = tracker_ s → handed_over cfg tr s l b → handed_over cfg tr s' l b.
Proof. unfold handed_over. by intros ->. Qed.

(** A step of the tracker keeps what was handed over. *)
Lemma handed_over_step cfg tr s s' e l b :
  handed_over cfg tr s l b → event_ok e → step enum SetTimer e (tracker_ s) = Some (tracker_ s') →
  (stopping (trk (tracker_ s)) = true →
     stopping (trk (tracker_ s')) = true ∧ maxAcknowledged (trk (tracker_ s')) = maxAcknowledged (trk (tracker_ s))) →
  handed_over cfg (tr ++ [e]) s' l b.
Proof.
  intros [(tr0 & s0 & evs & -> & Hr & Hf & Hst)|[Hs Hl]] Hok Hstep Hstop.
  - left. exists tr0, s0, (evs ++ [e]). split_and!; [by rewrite <- (assoc_L (++))|done|done|by eapply steps_snoc].
  - right. destruct (Hstop Hs) as [H1 H2]. by rewrite H2.
Qed.

Context (Henum : ∀ m, enum m ≡ₚ map_to_list m).

(** Adding the next batch. *)
Lemma add_hands_over cfg tr s l b :
  run enum SetTimer cfg tr (tracker_ s) → 0 < l →
  (∀ r, r ∈ tracked (trk (tracker_ s)) → lsn r < l) → cp_LSN (maxAcknowledged (trk (tracker_ s))) < l →
  let w := NewSnapshotRequest l b in
  let s' := with_trk (Add w (trk (tracker_ s))).1 (tracker_ s) in
  ∀ nums ps subs, handed_over cfg (tr ++ [EAdd w]) (mkSnap s' nums ps subs) l b.
Proof using Henum.
  intros Hrun Hl Hq Hm w s' nums ps subs. pose proof (run_sinv _ _ Henum _ _ _ Hrun) as Hs.
  destruct (stopping (trk (tracker_ s))) eqn:Hst.
  - right. unfold s'. simpl. unfold Add. rewrite Hst. done.
  - left. exists tr, (tracker_ s), []. split_and!; [done|done| |constructor].
    split_and!; [done|apply andb_false_iff; right; by apply bool_decide_eq_false, Z.lt_nge|].
    destruct (findTrackedWrite (LSN w) (trk (tracker_ s))) as [r|] eqn:Hf; [|done].
    destruct (find_ref _ _ _ _ r (s_tinv _ _ _ Hs) Hf) as (Hin & Hr & _). apply Hq in Hin.
    change (LSN w) with l in Hr. lia.
Qed.

Lemma snapshot_init_inv cfg : snapshot_inv cfg [] [] (start cfg 1).
Proof.
  split; simpl; [constructor|done|by exists Between| |done|].
  - unfold tracked. simpl. destruct (WriteQueue.new_ok (QueueImpl := QT)) as [_ ->]. intros r H. by apply elem_of_nil in H.
  - intros l b H. by apply elem_of_nil in H.
Qed.

(** A step of the tracker's other callers. *)
Lemma tracker_step_inv cfg es tr s e t :
  snapshot_inv cfg es tr s → other e → step enum SetTimer e (tracker_ s) = Some t →
  snapshot_inv cfg (es ++ [Tracker e]) (tr ++ [e]) (mkSnap t (lsnTracker_ s) (places s) (submitted s)).
Proof using Henum.
  intros [Hr Hn (p & Hp & Hpl) Ha Hm Hsub] Ho Hstep. pose proof (run_sinv _ _ Henum _ _ _ Hr) as Hs.
  destruct (other_settles enum SetTimer cfg tr (tracker_ s) t e Hs Ho Hstep) as [Ht Hmax Hstop].
  set (s' := mkSnap t _ _ _).
  assert (event_ok e) as Hok by (by destruct e).
  assert (∀ l b, handed_over cfg tr s l b → handed_over cfg (tr ++ [e]) s' l b) as Hh.
  { intros l b H. by eapply handed_over_step. }
  split; simpl.
  - by eapply run_step.
  - rewrite numbers_snoc. lia.
  - exists p. split; [done|]. destruct p; [done|done|]. destruct Hpl as [? ?]. by auto.
  - intros r Hin. by apply Ha, Ht.
  - destruct Hmax as [->|(r & Hin & ->)]; [done|]. by apply Ha.
  - intros l b Hin. destruct (Hsub l b Hin) as [? ?]. by auto.
Qed.

Lemma snapshot_step_inv cfg es tr s e s' evs :
  snapshot_inv cfg es tr s → snapshot_step e s = Some (s', evs) → numbers (es ++ [e]) < two64 →
  snapshot_inv cfg (es ++ [e]) (tr ++ evs) s'.
Proof using Henum.
  intros Hinv Hstep Hlt. destruct e as [i b|i|i|e]; simpl in Hstep.
  4: { destruct e; try done; apply bind_Some in Hstep as (t & Ht & [= <- <-]); by apply tracker_step_inv. }
  all: destruct Hinv as [Hr Hn (p & Hp & Hpl) Ha Hm Hsub].
  all: destruct (places s !! i) as [p'|] eqn:Hi; [|done].
  all: assert (i = 0%nat ∧ p' = p) as [-> ->]
    by (rewrite Hp in Hi; apply list_lookup_singleton_Some in Hi as [-> <-]; done).
  all: unfold last_added in *; rewrite Hp in *; destruct p as [|l0 b0|l0 b0]; try done.
  - injection Hstep as <- <-. rewrite numbers_snoc in Hlt. simpl in Hlt. assert (0 ≤ numbers es) as H0 by (unfold numbers; lia).
    assert (u64 (nextLSN (lsnTracker_ s) + 1) = nextLSN (lsnTracker_ s) + 1) as E by (apply u64_small; lia).
    unfold set_place. rewrite app_nil_r, Hp. split; simpl; rewrite ?E.
    + done.
    + rewrite numbers_snoc. lia.
    + eexists. split; [done|]. simpl. rewrite ?E. lia.
    + unfold last_added. simpl. rewrite ?E. intros r Hin%Ha. lia.
    + unfold last_added. simpl. rewrite ?E. lia.
    + intros l b1 Hin. destruct (Hsub l b1 Hin). split; [done|by eapply handed_over_same].
  - injection Hstep as <- <-. destruct Hpl as [-> Hpos].
    set (l := nextLSN (lsnTracker_ s)) in *. set (w := NewSnapshotRequest l b0).
    pose proof (run_sinv _ _ Henum _ _ _ Hr) as Hs.
    destruct (Add_tracked cfg tr (tracker_ s) w Hs (Z.lt_le_incl _ _ Hpos)) as (Ht & Hmx & Hstp).
    assert (0 ≤ LSN w) as Hok by (simpl; lia).
    unfold set_place. rewrite Hp. split; simpl.
    + by eapply run_step.
    + rewrite numbers_snoc. lia.
    + eexists. split; [done|]. split; [done|]. apply add_hands_over; try done; [intros r Hin%Ha; lia|lia].
    + unfold last_added. simpl. intros r Hin. destruct (Ht r Hin) as [Hin'%Ha|E]; [lia|]. change (LSN w) with l in E. lia.
    + unfold last_added. simpl. rewrite Hmx. lia.
    + intros l1 b1 Hin. destruct (Hsub l1 b1 Hin). split; [done|].
      eapply handed_over_step; [done|exact Hok|done|]. simpl. rewrite Hmx. split; congruence.
  - injection Hstep as <- <-. destruct Hpl as [Hpos Hh]. unfold set_place. rewrite app_nil_r, Hp. split; simpl.
    + done.
    + rewrite numbers_snoc. lia.
    + by eexists.
    + done.
    + done.
    + intros l1 b1 [Hin|Hin]%elem_of_app.
      * destruct (Hsub l1 b1 Hin). split; [case_bool_decide; lia|by eapply handed_over_same].
      * apply list_elem_of_singleton in Hin as [= -> ->].
        split; [case_bool_decide; lia|by eapply handed_over_same].
Qed.

Lemma snapshot_run_inv cfg es tr s :
  snapshot_run cfg 1 es tr s → numbers es < two64 → snapshot_inv cfg es tr s.
Proof using Henum.
  induction 1 as [|es tr s e s' evs Hr IH Hstep]; [intros; apply snapshot_init_inv|].
  intros Hlt. eapply snapshot_step_inv; [|exact Hstep|done]. apply IH. rewrite numbers_snoc in Hlt.
  destruct e; lia.
Qed.

Lemma wait_returns target polls :
  SnapshotProgress.Follow.waitForSnapshotAcks target polls = Some None →
  target = 0 ∨ ∃ p, p ∈ polls ∧ target ≤ p.1.
Proof.
  induction polls as [|[pos c] r IH]; simpl; (case_bool_decide; [by left|]); [done|].
  case_bool_decide; [intros _; right; exists (pos, c); by split; [left|]|].
  destruct c; [done|]. intros [?|(p & ? & ?)]%IH; [by left|]. right. exists p. split; [by right|done].
Qed.

(** C19: a snapshot with one worker (the default) does not finish before its
    rows are delivered.  Take any run of the worker, the write pipeline, the
    writer's answers and the retries, and the acknowledged positions that the
    manager polls, none ahead of the tracker's.  When [waitForSnapshotAcks]
    has returned without an error, each row of each submitted batch was
    confirmed by the writer, or given up after an error that is not retryable
    or [MaxRetries] errors. *)
Theorem snapshot_waits_for_rows cfg es tr s polls :
  snapshot_run cfg 1 es tr s → numbers es < two64 →
  Forall (λ p, p.1 ≤ cp_LSN (maxAcknowledged (trk (tracker_ s)))) polls →
  SnapshotProgress.Follow.waitForSnapshotAcks (MaxSubmitted (lsnTracker_ s)) polls = Some None →
  ∀ l b o, (l, b) ∈ submitted s → o ∈ offsets_of (NewSnapshotRequest l b) → justified cfg tr l o.
Proof using Henum.
  intros Hrun Hlt Hpolls Hwait l b o Hin Ho.
  destruct (snapshot_run_inv cfg es tr s Hrun Hlt) as [_ _ _ _ _ Hsub].
  destruct (Hsub l b Hin) as [Hl Hh]. unfold MaxSubmitted in Hwait.
  assert (l ≤ cp_LSN (maxAcknowledged (trk (tracker_ s)))) as Hle.
  { apply wait_returns in Hwait as [?|(p & Hp & Hle)]; [lia|]. rewrite Forall_forall in Hpolls.
    specialize (Hpolls p Hp). lia. }
  destruct Hh as [(tr0 & s0 & evs & -> & Hr & Hf & Hst)|[_ H]]; [|lia].
  eapply (added_delivered enum Henum SetTimer cfg tr0 s0 (NewSnapshotRequest l b)); try done; simpl; lia.
Qed.
End workers.
End Workers.

(** ** Concrete snapshots *)

Module Samples.
Import SnapshotWorker.Numbers Workers LSNSystem.Samples.
Notation snapshot := (snapshot (Tup := unit) (QT := QTl) (QR := QRl)).
Notation snapshot_event := (snapshot_event (Tup := unit)).

Definition exec_all (n : nat) (es : list snapshot_event) : option (snapshot * list event) :=
  foldl (λ o e, '(s, tr) ← o; '(s, evs) ← snapshot_step enum accepts e s; Some (s, tr ++ evs))
        (Some (start cfg n, [])) es.

Lemma exec_all_run n es s tr :
  exec_all n es = Some (s, tr) → snapshot_run enum accepts cfg n es tr s.
Proof.
  revert s tr. induction es as [|e es IH] using rev_ind; intros s tr.
  - intros [= <- <-]. constructor.
  - unfold exec_all. rewrite foldl_app. simpl. fold (exec_all n es).
    destruct (exec_all n es) as [[s1 tr1]|] eqn:E; [|done]. simpl.
    destruct (snapshot_step enum accepts e s1) as [[s2 evs]|] eqn:E2; [|done]. simpl. intros [= <- <-].
    eapply snapshot_snoc; [by apply IH|done].
Qed.

Definition answer_at (lsn o : Z) : ResponseEntry := mkRE "7" tn lsn 0 o.
Definition confirm (lsn : Z) : snapshot_event := Tracker (ESuccess (mkResp [answer_at lsn 0] lsn)).

(** One worker, two batches of a row each. *)
Definition two_batches : list snapshot_event :=
  [Next 0 [entry 0]; Send 0; Submit 0; Tracker EPop; Next 0 [entry 0]; Send 0; Submit 0; Tracker EPop; confirm 1; confirm 2].
Definition result (n : nat) (es : list snapshot_event) : snapshot * list event := default (start cfg n, []) (exec_all n es).
Definition ended (n : nat) (es : list snapshot_event) : bool := match exec_all n es with Some _ => true | None => false end.

Lemma result_run n es : ended n es = true → snapshot_run enum accepts cfg n es (result n es).2 (result n es).1.
Proof.
  unfold ended, result. destruct (exec_all n es) as [[s tr]|] eqn:E; [|done]. intros _. by apply exec_all_run.
Qed.

Definition acked_position (s : snapshot) : Z := cp_LSN (maxAcknowledged (trk (tracker_ s))).
Definition waited (s : snapshot) : bool :=
  match SnapshotProgress.Follow.waitForSnapshotAcks (MaxSubmitted (lsnTracker_ s)) [(acked_position s, false)] with
  | Some None => true
  | _ => false
  end.

Lemma snapshot_waits_for_rows_witness :
  submitted (result 1 two_batches).1 = [(1, [entry 0]); (2, [entry 0])] ∧ justified cfg (result 1 two_batches).2 1 0.
Proof.
  split; [vm_compute; reflexivity|].
  refine (snapshot_waits_for_rows enum accepts enum_ok cfg two_batches _ _ [(2, false)]
            (result_run 1 two_batches ltac:(vm_compute; reflexivity)) _ _ _ 1 [entry 0] 0 _ _).
  - vm_compute. reflexivity.
  - apply Forall_singleton. vm_compute. discriminate.
  - vm_compute. reflexivity.
  - assert (submitted (result 1 two_batches).1 = [(1, [entry 0]); (2, [entry 0])]) as -> by (vm_compute; reflexivity).
    apply list_elem_of_In. left. reflexivity.
  - apply (bool_decide_unpack _). vm_compute. reflexivity.
Defined.

(** Two workers: the first takes number 1, the second takes number 2, adds its
    batch first and has it confirmed.  The tracker then takes number 1 for
    acknowledged and drops the first worker's batch: both numbers are
    submitted, the wait ends, and the rows of the first batch never reach the
    writer's queue. *)
Definition overtaken : list snapshot_event :=
  [Next 0 [entry 0]; Next 1 [entry 0]; Send 1; Submit 1; Tracker EPop; confirm 2; Send 0; Submit 0].

Example overtaken_batch_dropped :
  let '(s, tr) := result 2 overtaken in
  (submitted s, waited s, stdpp.base.size (tws (trk (tracker_ s))), items_of (trk (tracker_ s)))
    = ([(2, [entry 0]); (1, [entry 0])], true, 1%nat, []).
Proof. vm_compute. reflexivity. Qed.

(** No event of that run could have delivered the row. *)
Lemma overtaken_not_delivered : ¬ justified cfg (result 2 overtaken).2 1 0.
Proof.
  assert ((result 2 overtaken).2 =
          [EAdd (NewSnapshotRequest 2 [entry 0]); EPop; ESuccess (mkResp [answer_at 2 0] 2); EAdd (NewSnapshotRequest 1 [entry 0])])
    as -> by (vm_compute; reflexivity).
  intros [(resp & x & H1 & H2 & H3 & _)|[(_ & xid & H)|(now & b & resp & x & H & _)]].
  - repeat (apply elem_of_cons in H1 as [[=]|H1]); [|by apply elem_of_nil in H1]. subst resp. simpl in H2.
    apply list_elem_of_singleton in H2 as ->. discriminate.
  - repeat (apply elem_of_cons in H as [[=]|H]). by apply elem_of_nil in H.
  - repeat (apply elem_of_cons in H as [[=]|H]). by apply elem_of_nil in H.
Qed.
End Samples.
