(* ===== verification/SnapshotManager.v ===== *)
(** * The manager of a snapshot (src/snapshot/manager.go)

    - [initTablesState]: what a restarted snapshot begins with, from the saved
      states of an earlier run;
    - [runSnapshotLoop]: the dispatching of the tables to the workers, with the
      reports, tasks and errors it sends;
    - [Execute]: the order of these parts and what is saved in the end.

    What the database answers is an argument.  [runSnapshotLoop] also pauses
    while the write queue of the listener is full, which changes nothing that
    it sends. *)

From stdpp Require Import base numbers list gmap strings.
From S2P Require Import Prelude GoStrings OrderedMap PgSchema Decode PgWal BufferedListener SnapshotPlan SnapshotWorker SnapshotProgress.
Import SnapshotProgress.Store.

Notation db := (gmap string row).

(** ** The states to start from *)

Section init.
Context (appName : string).
(** The listener's table of a name. *)
Context (getTable : TableName → option Table).
(** The error of saving a table's state, if any. *)
Context (upsert_error : string → option goerr).

(** The loop over the configured tables; a table without configuration is a
    nil pointer. *)
Fixpoint init_tables (existing : gmap string TableState) (snapshotLSN : string) (cs : list (option SnapshotTableConfig)) (d : db)
    : db * res (list TableState) :=
  match cs with
  | [] => (d, Ok [])
  | None :: _ => (d, Panic "nil pointer")
  | Some c :: cs =>
      let '(state, shouldUpsert) :=
        prepareTableState appName (st_Name c) c (existing !! st_Name c) (getTable (ParseTableName (st_Name c))) snapshotLSN in
      match (if (shouldUpsert : bool) then upsert_error (ts_Name state) else None) with
      | Some err => (d, Err err)
      | None =>
          let d := if (shouldUpsert : bool) then UpsertTableState state d else d in
          let '(d, sts) := init_tables existing snapshotLSN cs d in
          (d, sts ← sts; Ok (state :: sts))
      end
  end.

Definition initTablesState (load_error : option goerr) (config : SnapshotConfig) (snapshotLSN : string) (d : db)
    : db * res (list TableState) :=
  match load_error with
  | Some err => (d, Err err)
  | None => init_tables (LoadTablesState appName d) snapshotLSN (Config config) d
  end.

(** *** A restart *)

(** The state a table starts with: it was complete and stays what it was, or it
    begins anew, and so it is saved. *)
Definition restarted (snapshotLSN : string) (d0 d : db) (c : SnapshotTableConfig) (st : TableState) : Prop :=
  ts_Name st = st_Name c ∧
  ((∃ r, d0 !! st_Name c = Some r ∧ d_status r = StatusCompleted ∧ d !! st_Name c = Some r ∧
         Status st = StatusCompleted ∧ ProcessedRows st = d_processed r) ∨
   (¬ (∃ r, d0 !! st_Name c = Some r ∧ d_status r = StatusCompleted) ∧
    Status st = StatusPending ∧ ProcessedRows st = 0 ∧ SnapshotLSN st = snapshotLSN ∧ SnapshotType st = st_Type c ∧
    (∃ r, d !! st_Name c = Some r ∧ d_status r = StatusPending ∧ d_lsn r = snapshotLSN ∧ d_processed r = 0 ∧ d_ended r = false))).

Lemma load_lookup d name :
  LoadTablesState appName d !! name =
  (λ r, mkTS appName name (d_lsn r) (d_type r) (d_query r) (d_total r) (d_processed r) (d_status r) (d_error r) EmptyString) <$> d !! name.
Proof using Type. unfold LoadTablesState. rewrite map_lookup_imap. by destruct (d !! name). Qed.

Lemma upsert_other st (d : db) name : ts_Name st ≠ name → UpsertTableState st d !! name = d !! name.
Proof using Type. intros H. unfold UpsertTableState. by rewrite lookup_insert_ne. Qed.

Definition config_names (cs : list (option SnapshotTableConfig)) : list string := omap (fmap st_Name) cs.

Lemma config_name_elem (c : SnapshotTableConfig) cs : Some c ∈ cs → st_Name c ∈ config_names cs.
Proof using Type. intros H. apply list_elem_of_omap. by exists (Some c). Qed.

(** One table: its state, and the database afterwards. *)
Lemma prepare_restarted snapshotLSN d0 (d : db) c :
  d !! st_Name c = d0 !! st_Name c →
  let '(st, up) := prepareTableState appName (st_Name c) c (LoadTablesState appName d0 !! st_Name c)
                     (getTable (ParseTableName (st_Name c))) snapshotLSN in
  restarted snapshotLSN d0 (if up then UpsertTableState st d else d) c st.
Proof using Type.
  intros Hd. rewrite load_lookup. destruct (d0 !! st_Name c) as [r|] eqn:Hr; simpl.
  - unfold prepareTableState. simpl. case_bool_decide as Hs; cbn [restarted].
    + split; [done|]. left. exists r. by rewrite Hd.
    + split; [done|]. right. split_and!; try done.
      * intros (r' & Hr' & Hs'). simpl in Hr'. congruence.
      * eexists. split; [apply lookup_insert_eq|done].
  - split; [done|]. right. split_and!; try done; [intros (r' & Hr' & _); simpl in Hr'; congruence|].
    eexists. split; [apply lookup_insert_eq|done].
Qed.

Lemma init_tables_spec snapshotLSN d0 cs d :
  (∀ c, c ∈ cs → is_Some c) → NoDup (config_names cs) →
  (∀ name, name ∈ config_names cs → d !! name = d0 !! name) →
  let '(d', out) := init_tables (LoadTablesState appName d0) snapshotLSN cs d in
  (∀ name, name ∉ config_names cs → d' !! name = d !! name) ∧
  match out with
  | Ok sts => Forall2 (λ c st, ∃ c', c = Some c' ∧ restarted snapshotLSN d0 d' c' st) cs sts
  | Err err => ∃ name, name ∈ config_names cs ∧ upsert_error name = Some err
  | _ => False
  end.
Proof using Type.
  revert d. induction cs as [|[c|] cs IH]; intros d Hc Hnd Hd; simpl; [by split| |].
  2: { destruct (Hc None); [by left|done]. }
  apply NoDup_cons in Hnd as [Hnin Hnd].
  pose proof (prepare_restarted snapshotLSN d0 d c (Hd _ (list_elem_of_here _ _))) as Hone.
  destruct (prepareTableState _ _ _ _ _ _) as [st up]. pose proof (proj1 Hone) as Hname.
  destruct (if up then upsert_error (ts_Name st) else None) as [err|] eqn:Herr.
  { split; [done|]. destruct up; [|done]. exists (ts_Name st). rewrite Hname. split; [by left|congruence]. }
  set (d1 := if up then UpsertTableState st d else d) in *.
  assert (∀ name, name ≠ st_Name c → d1 !! name = d !! name) as Hd1.
  { intros name Hne. unfold d1. destruct up; [|done]. apply upsert_other. congruence. }
  specialize (IH d1). destruct (init_tables _ _ cs d1) as [d' out] eqn:E. cbv zeta in *.
  destruct IH as [H1 H2]; [by intros; apply Hc; right|done| |].
  { intros name Hin. rewrite Hd1; [apply Hd; by right|]. by intros ->. }
  split.
  - intros name [Hne Hin]%not_elem_of_cons. by rewrite H1, Hd1.
  - destruct out as [sts|err| |]; simpl; try done.
    + constructor; [|done]. exists c. split; [done|]. unfold restarted in *. by rewrite (H1 _ Hnin).
    + destruct H2 as (name & ? & ?). exists name. split; [by right|done].
Qed.

(** A restarted snapshot begins where the last one ended: a table whose
    saved state is complete keeps it and is not started again, and every other
    configured table begins anew, is saved as pending with the new position,
    and has nothing counted; no other saved state changes.  Only an error of
    the database prevents that. *)
Lemma restart_keeps_completed_tables load_error config snapshotLSN d :
  (∀ c, c ∈ Config config → is_Some c) → NoDup (config_names (Config config)) →
  let '(d', out) := initTablesState load_error config snapshotLSN d in
  (∀ name, name ∉ config_names (Config config) → d' !! name = d !! name) ∧
  match out with
  | Ok sts => load_error = None ∧
      Forall2 (λ c st, ∃ c', c = Some c' ∧ restarted snapshotLSN d d' c' st) (Config config) sts
  | Err err => load_error = Some err ∨ ∃ name, name ∈ config_names (Config config) ∧ upsert_error name = Some err
  | _ => False
  end.
Proof using Type.
  intros Hc Hnd. unfold initTablesState. destruct load_error as [err|]; [split; [done|by left]|].
  pose proof (init_tables_spec snapshotLSN d (Config config) d Hc Hnd (λ _ _, eq_refl)) as H.
  destruct (init_tables _ _ _ _) as [d' out]. destruct H as [H1 H2]. split; [done|].
  destruct out; try done. by right.
Qed.
End init.

(** ** Dispatching the tables *)

(** What the loop does: the start of a table is saved, a report is queued, a
    task is put into the channel of the workers, an error into that of the
    errors. *)
Inductive loop_event :=
| StartSaved (name : string) (total : Z)
| Reported (name : string) (r : progressReport)
| Sent (name : string) (keyMap : KeyMap.KeyMap) (task : string * option ctidRange)
| Failed (name : string) (err : goerr).

(** What the loop is told about a table: whether the context has ended, the
    estimate, the error of saving the start, the lowest and highest row id,
    and the errors of the two reports. *)
Record answers := mkAnswers {
  a_cancelled : bool;
  a_estimate : goerr + tableEstimate;
  a_progress : option goerr;
  a_bounds : goerr + option ctidBounds;
  a_started : option goerr;
  a_dispatched : option goerr }.

Definition with_query (q : string) (st : TableState) : TableState :=
  mkTS (AppName st) (ts_Name st) (SnapshotLSN st) (SnapshotType st) (Some q) (TotalRows st) (ProcessedRows st) (Status st)
       (ErrorMessage st) (whereClause st).

Section loop.
Context (getTable : TableName → option Table) (txOpts : TxCommitTimeOptions).
Context (batchSize maxWorkers : Z).
Context (ans : string → answers).

(** One round of the loop, and whether there is another one; [None] is a loop
    over ranges that does not end. *)
Definition loop_table (st : TableState) : option (list loop_event * bool) :=
  let name := ts_Name st in
  let a := ans name in
  if bool_decide (Status st = StatusCompleted) then Some ([], true)
  else if a_cancelled a then Some ([], false)
  else match getTable (ParseTableName name) with
  | None => Some ([Failed name (GoErr "table not found in listener")], true)
  | Some table =>
    let selectColumns := snapshotColumnNames (Some table) in
    if bool_decide (selectColumns = []) then Some ([Failed name (GoErr "table has no snapshot columns")], false)
    else
      let query := BuildSelectQuery name (snapshotQueryColumns (Some table)) (whereClause st) in
      let keyMap := snapshotKeyMap selectColumns txOpts in
      match a_estimate a with
      | inl err => Some ([Failed name err], false)
      | inr estimate =>
        let pending := bool_decide (Status st = StatusPending) in
        match (if pending then a_progress a else None) with
        | Some err => Some ([Failed name err], false)
        | None =>
          let evs := if pending then [StartSaved name (estimatedRows estimate)] else [] in
          match planSnapshotTable batchSize (with_query query st) estimate maxWorkers (a_bounds a) with
          | inl err => Some (evs ++ [Failed name err], false)
          | inr plan =>
            match a_started a with
            | Some err => Some (evs ++ [Failed name (GoWrap "failed to report table start" err)], false)
            | None =>
              tasks ← plan_tasks plan;
              let evs := evs ++ Reported name (TableStarted name (estimatedRows estimate)) :: (Sent name keyMap <$> tasks) in
              match a_dispatched a with
              | Some err => Some (evs ++ [Failed name (GoWrap "failed to report table dispatched" err)], false)
              | None => Some (evs ++ [Reported name (TableDispatched name (Z.of_nat (length tasks)))], true)
              end
            end
          end
        end
      end
  end.

Fixpoint runSnapshotLoop (tableStates : list TableState) : option (list loop_event) :=
  match tableStates with
  | [] => Some []
  | st :: sts =>
      '(evs, go) ← loop_table st;
      if (go : bool) then rest ← runSnapshotLoop sts; Some (evs ++ rest) else Some evs
  end.

(** *** Every row is dispatched once *)

Definition about (e : loop_event) : string :=
  match e with StartSaved n _ | Reported n _ | Sent n _ _ | Failed n _ => n end.
Definition own (name : string) (evs : list loop_event) : list loop_event := filter (λ e, about e = name) evs.
Definition reports_of (name : string) (evs : list loop_event) : list progressReport :=
  omap (λ e, match e with Reported _ r => Some r | _ => None end) (own name evs).
Definition tasks_of (name : string) (evs : list loop_event) : list (string * option ctidRange) :=
  omap (λ e, match e with Sent _ _ t => Some t | _ => None end) (own name evs).

(** The rows that the query of each table selects. *)
Context (rows : string → list TID).

(** The answers are right: the estimate counts the blocks of the table, and the
    row ids asked for enclose the rows. *)
Definition answers_right (name : string) : Prop :=
  bounds_right (rows name) (a_bounds (ans name)) ∧
  ∀ est, a_estimate (ans name) = inr est →
    totalBlocks est ≤ two32 ∧ estimatedRows est < max_per ∧
    Forall (λ t, row_id t ∧ BlockNumber t < totalBlocks est) (rows name).

(** The table was dispatched: a report before its tasks and one behind them,
    with their number, and the tasks read each row once. *)
Definition dispatched (name : string) (evs : list loop_event) : Prop :=
  ∃ total tasks, reports_of name evs = [TableStarted name total; TableDispatched name (Z.of_nat (length tasks))] ∧
    tasks_of name evs = tasks ∧ Forall (λ t, readers t tasks = 1%nat) (rows name) ∧
    ∀ err, Failed name err ∉ evs.

(** The table was not dispatched, and nobody is told that it was. *)
Definition not_dispatched (name : string) (evs : list loop_event) : Prop :=
  ∀ n, TableDispatched name n ∉ reports_of name evs.

(** The loop had a reason to end, or to pass over the table. *)
Definition stopped_at (name : string) (evs : list loop_event) : Prop :=
  a_cancelled (ans name) = true ∨ ∃ err, Failed name err ∈ evs.

Context (Hbatch : 0 ≤ batchSize ≤ 536870912).

Lemma own_app name a b : own name (a ++ b) = own name a ++ own name b.
Proof using Type. apply filter_app. Qed.
Lemma own_all name evs : Forall (λ e, about e = name) evs → own name evs = evs.
Proof using Type. unfold own. induction 1 as [|e evs He _ IH]; [done|]. by rewrite filter_cons_True, IH. Qed.
Lemma own_none name evs : Forall (λ e, about e ≠ name) evs → own name evs = [].
Proof using Type. unfold own. induction 1 as [|e evs He _ IH]; [done|]. by rewrite filter_cons_False, IH. Qed.

Lemma select_not_empty name columns where_ : BuildSelectQuery name columns where_ ≠ EmptyString.
Proof using Type. unfold BuildSelectQuery. by destruct columns. Qed.

Lemma sent_reports name km (tasks : list (string * option ctidRange)) :
  omap (λ e, match e with Reported _ r => Some r | _ => None end) (Sent name km <$> tasks) = [].
Proof using Type. induction tasks; [done|exact IHtasks]. Qed.
Lemma sent_tasks name km (tasks : list (string * option ctidRange)) :
  omap (λ e, match e with Sent _ _ t => Some t | _ => None end) (Sent name km <$> tasks) = tasks.
Proof using Type. induction tasks as [|t ts IH]; [done|]. simpl. by f_equal. Qed.

(** What one round does, of a table that is not complete. *)
Definition round (st : TableState) (evs : list loop_event) (go : bool) : Prop :=
  let name := ts_Name st in
  (go = true ∧ dispatched name evs) ∨ (not_dispatched name evs ∧ stopped_at name evs).

Lemma round_failed st evs err go :
  Forall (λ e, about e = ts_Name st) evs → (∀ n, Reported (ts_Name st) (TableDispatched (ts_Name st) n) ∉ evs) →
  round st (evs ++ [Failed (ts_Name st) err]) go ∧ Forall (λ e, about e = ts_Name st) (evs ++ [Failed (ts_Name st) err]).
Proof using Type.
  intros Ha Hd. assert (Forall (λ e, about e = ts_Name st) (evs ++ [Failed (ts_Name st) err])) as Hall.
  { apply Forall_app. split; [done|by constructor]. }
  split; [|done]. right. split.
  - intros n. unfold reports_of. rewrite own_all by done. intros (e & He & E)%list_elem_of_omap.
    destruct e as [|n' r| |]; try done. injection E as ->. rewrite Forall_forall in Hall. specialize (Hall _ He). simpl in Hall. subst n'.
    apply elem_of_app in He as [He|He]; [by apply (Hd n)|]. by apply list_elem_of_singleton in He.
  - right. exists err. apply elem_of_app. right. by left.
Qed.

Lemma sent_about name km (tasks : list (string * option ctidRange)) : Forall (λ e, about e = name) (Sent name km <$> tasks).
Proof using Type. apply Forall_fmap, Forall_forall. done. Qed.

Lemma no_sent name km (tasks : list (string * option ctidRange)) e : (∀ t, e ≠ Sent name km t) → e ∉ (Sent name km <$> tasks).
Proof using Type. intros H (t & -> & _)%list_elem_of_fmap. by apply (H t). Qed.

Lemma loop_table_spec st :
  (Status st ≠ StatusCompleted → answers_right (ts_Name st)) →
  ∃ evs go, loop_table st = Some (evs, go) ∧ Forall (λ e, about e = ts_Name st) evs ∧
    (Status st = StatusCompleted → evs = [] ∧ go = true) ∧
    (Status st ≠ StatusCompleted → round st evs go).
Proof using Hbatch.
  intros Hans. set (name := ts_Name st). unfold loop_table. fold name. cbv zeta.
  case_bool_decide as Hst; [by exists [], true|]. specialize (Hans Hst). destruct Hans as [Hb Hest].
  destruct (a_cancelled (ans name)) eqn:Hc.
  { exists [], false. split_and!; try done. intros _. right. split; [|by left]. intros n. by apply not_elem_of_nil. }
  assert (∀ evs err go, Forall (λ e, about e = name) evs → (∀ n, Reported name (TableDispatched name n) ∉ evs) →
    ∃ evs' go', Some (evs ++ [Failed name err], go) = Some (evs', go') ∧ Forall (λ e, about e = name) evs' ∧
      (Status st = StatusCompleted → evs' = [] ∧ go' = true) ∧ (Status st ≠ StatusCompleted → round st evs' go')) as Hfail.
  { intros evs err go H1 H2. destruct (round_failed st evs err go H1 H2). exists (evs ++ [Failed name err]), go. by split_and!. }
  destruct (getTable (ParseTableName name)) as [table|]; [|apply (Hfail []); [done|set_solver]].
  case_bool_decide; [apply (Hfail []); [done|set_solver]|].
  destruct (a_estimate (ans name)) as [err|est] eqn:He; [apply (Hfail []); [done|set_solver]|].
  destruct (Hest est He) as (H1 & H2 & H3).
  destruct (if bool_decide (Status st = StatusPending) then a_progress (ans name) else None) as [err|]; [apply (Hfail []); [done|set_solver]|].
  set (saved := if bool_decide (Status st = StatusPending) then [StartSaved name (estimatedRows est)] else []).
  assert (Forall (λ e, about e = name) saved) as Hsv by (unfold saved; case_bool_decide; by repeat constructor).
  assert (∀ r, Reported name r ∉ saved) as Hsv2 by (intros r; unfold saved; case_bool_decide; set_solver).
  set (query := BuildSelectQuery _ _ _).
  pose proof (plan_reads_each_row_once batchSize Hbatch est H1 H2 (rows name) H3 (with_query query st) query maxWorkers
    (a_bounds (ans name)) eq_refl (select_not_empty _ _ _) Hb) as Hplan.
  destruct (planSnapshotTable _ _ _ _ _) as [err|plan]; [by apply Hfail|].
  destruct (a_started (ans name)) as [err|]; [by apply Hfail|]. destruct Hplan as (tasks & -> & Hread). cbn [mbind option_bind].
  set (km := snapshotKeyMap _ _). set (evs := saved ++ _ :: _).
  assert (Forall (λ e, about e = name) evs) as Hev.
  { apply Forall_app. split; [done|]. constructor; [done|apply sent_about]. }
  assert (∀ n, Reported name (TableDispatched name n) ∉ evs) as Hnd.
  { intros n [H'|[H'|H']%elem_of_cons]%elem_of_app; [by eapply Hsv2|done|revert H'; by apply no_sent]. }
  destruct (a_dispatched (ans name)) as [err|]; [by apply Hfail|].
  eexists _, true. split; [done|].
  assert (Forall (λ e, about e = name) (evs ++ [Reported name (TableDispatched name (Z.of_nat (length tasks)))])) as Hall.
  { apply Forall_app. split; [done|by constructor]. }
  split_and!; [exact Hall|done|]. intros _. left. split; [done|]. exists (estimatedRows est), tasks.
  unfold reports_of, tasks_of. rewrite own_all by exact Hall. unfold evs, saved. split_and!.
  - rewrite !omap_app. simpl. rewrite sent_reports. by case_bool_decide.
  - rewrite !omap_app. simpl. rewrite sent_tasks. case_bool_decide; simpl; by rewrite app_nil_r.
  - done.
  - intros err [H'|H']%elem_of_app; [|by apply list_elem_of_singleton in H'].
    apply elem_of_app in H' as [H'|[H'|H']%elem_of_cons]; [case_bool_decide; set_solver|done|revert H'; by apply no_sent].
Qed.

(** What is said of a table depends on its own events. *)
Lemma failed_own name evs err : Failed name err ∈ evs ↔ Failed name err ∈ own name evs.
Proof using Type. unfold own. rewrite list_elem_of_filter. split; [by split|by intros [_ ?]]. Qed.

Lemma dispatched_own name evs evs' : own name evs = own name evs' → dispatched name evs → dispatched name evs'.
Proof using Type.
  intros E (total & tasks & H1 & H2 & H3 & H4). exists total, tasks. unfold reports_of, tasks_of in *. rewrite <- E.
  split_and!; try done. intros err. rewrite failed_own, <- E, <- failed_own. apply H4.
Qed.

Lemma stopped_own name evs evs' : own name evs = own name evs' → stopped_at name evs → stopped_at name evs'.
Proof using Type.
  intros E [H|(err & H)]; [by left|]. right. exists err. by rewrite failed_own, <- E, <- failed_own.
Qed.

Lemma round_own st evs evs' go :
  own (ts_Name st) evs = own (ts_Name st) evs' → round st evs go →
  dispatched (ts_Name st) evs' ∨ (not_dispatched (ts_Name st) evs' ∧ stopped_at (ts_Name st) evs').
Proof using Type.
  intros E [[_ H]|[H1 H2]]; [left; by eapply dispatched_own|]. right. split; [|by eapply stopped_own].
  unfold not_dispatched, reports_of in *. by rewrite <- E.
Qed.

Lemma loop_about sts evs : runSnapshotLoop sts = Some evs →
  (∀ st, st ∈ sts → Status st ≠ StatusCompleted → answers_right (ts_Name st)) →
  Forall (λ e, about e ∈ (ts_Name <$> sts)) evs.
Proof using Hbatch.
  revert evs. induction sts as [|st sts IH]; intros evs; cbn [runSnapshotLoop]; [by intros [= <-]|]. intros E Hans.
  destruct (loop_table_spec st (Hans st (list_elem_of_here _ _))) as (e1 & go & H & Ha & _). rewrite H in E. cbn [mbind option_bind] in E.
  assert (Forall (λ e, about e ∈ (ts_Name <$> st :: sts)) e1) as H1.
  { eapply Forall_impl; [exact Ha|]. intros e ->. by left. }
  destruct go; [|by injection E as <-]. apply bind_Some in E as (e2 & E2 & [= <-]). apply Forall_app. split; [done|].
  eapply Forall_impl; [apply (IH e2 E2)|]; [intros; apply Hans; [by right|done]|]. intros e He. by right.
Qed.

Lemma loop_dispatches sts :
  NoDup (ts_Name <$> sts) →
  (∀ st, st ∈ sts → Status st ≠ StatusCompleted → answers_right (ts_Name st)) →
  ∃ evs, runSnapshotLoop sts = Some evs ∧
  ∀ i st, sts !! i = Some st →
    (Status st = StatusCompleted → own (ts_Name st) evs = []) ∧
    (Status st ≠ StatusCompleted →
       dispatched (ts_Name st) evs ∨
       (not_dispatched (ts_Name st) evs ∧
        ∃ j st', (j ≤ i)%nat ∧ sts !! j = Some st' ∧ stopped_at (ts_Name st') evs)).
Proof using Hbatch.
  induction sts as [|st sts IH]; intros Hnd Hans; [by exists []|].
  rewrite fmap_cons in Hnd. apply NoDup_cons in Hnd as [Hnin Hnd]. cbn [runSnapshotLoop].
  destruct (loop_table_spec st (Hans st (list_elem_of_here _ _))) as (e1 & go & -> & Ha & Hdone & Hround). cbn [mbind option_bind].
  destruct IH as (e2 & E2 & H2); [done|intros; apply Hans; [by right|done]|].
  assert (∀ i st', sts !! i = Some st' → own (ts_Name st') e1 = []) as Hother.
  { intros i st' Hi. apply own_none. eapply Forall_impl; [exact Ha|]. intros e -> Heq. apply Hnin. rewrite Heq.
    apply list_elem_of_fmap. exists st'. split; [done|by eapply list_elem_of_lookup_2]. }
  destruct go; [rewrite E2; cbn [mbind option_bind]; exists (e1 ++ e2)|exists e1]; (split; [done|]); intros [|i] st' Hi; simpl in Hi.
  - injection Hi as <-. assert (own (ts_Name st) e2 = []) as Hn.
    { pose proof (loop_about sts e2 E2 ltac:(intros; apply Hans; [by right|done])) as Hab. apply own_none.
      eapply Forall_impl; [exact Hab|]. intros e He Heq. rewrite <- Heq in Hnin. done. }
    assert (own (ts_Name st) e1 = own (ts_Name st) (e1 ++ e2)) as Eo by (by rewrite own_app, Hn, app_nil_r).
    split; [intros Hs; rewrite <- Eo; by destruct (Hdone Hs) as [-> _]|]. intros Hs.
    destruct (round_own st _ _ _ Eo (Hround Hs)) as [?|[? ?]]; [by left|right; split; [done|]; by exists 0%nat, st].
  - destruct (H2 i st' Hi) as [Hs1 Hs2].
    assert (own (ts_Name st') e2 = own (ts_Name st') (e1 ++ e2)) as Eo by (by rewrite own_app, (Hother i st' Hi)).
    rewrite <- Eo. split; [done|]. intros Hs. destruct (Hs2 Hs) as [?|[Hnot (j & st2 & Hj & Hj2 & Hstop)]]; [left; by eapply dispatched_own|].
    right. split; [unfold not_dispatched, reports_of in *; by rewrite <- Eo|]. exists (S j), st2. split_and!; [lia|done|].
    eapply stopped_own; [|exact Hstop]. by rewrite own_app, (Hother j st2 Hj2).
  - injection Hi as <-. split; [intros Hs; by destruct (Hdone Hs) as [-> _]|]. intros Hs.
    destruct (round_own st _ _ _ eq_refl (Hround Hs)) as [?|[? ?]]; [by left|right; split; [done|]; by exists 0%nat, st].
  - pose proof (Hother i st' Hi) as Ho. split; [done|]. intros Hs. right.
    split; [intros n; unfold reports_of; rewrite Ho; by apply not_elem_of_nil|]. exists 0%nat, st. split_and!; [lia|done|].
    destruct (decide (Status st = StatusCompleted)) as [Hc|Hc]; [by destruct (Hdone Hc)|].
    destruct (Hround Hc) as [[? _]|[_ ?]]; done.
Qed.

End loop.

(** ** A snapshot as a whole *)

Module Manager.

(** What is done outside: commands on the connection that exports the snapshot,
    the state table, and the listener. *)
Inductive action :=
| Command (text : string)
| CloseConn
| CreateStateTable
| CloseState
| ShutdownListener
| SaveSnapshotLSN (lsn : string).

#[global] Instance action_eq_dec : EqDecision action.
Proof. solve_decision. Defined.

Record Snapshot := mkSlotSnapshot { slot_LSN : Z; SnapshotName : string }.

(** What the connection answers: acquiring it, BEGIN, the exported snapshot and
    the current WAL position. *)
Record conn_answers := mkConn {
  c_acquire : option goerr; c_begin : option goerr; c_export : goerr + string; c_lsn : goerr + string }.

Section execute.
(** [LSN.String] and [pglogrepl.ParseLSN]. *)
Context (lsn_string : Z → string) (ParseLSN : string → option Z).
(** [time.ParseDuration] accepts the text. *)
Context (is_duration : string → bool).

Definition cleanup (commit : bool) : list action :=
  [Command (if commit then "COMMIT" else "ROLLBACK"); CloseConn].

(** The position, the snapshot's id, what was done, and the clean-up. *)
Definition prepareSnapshot (slot : option Snapshot) (c : conn_answers)
    : list action * (goerr + string * string * (bool → list action)) :=
  match (s ← slot; if bool_decide (0 < slot_LSN s) && negb (bool_decide (SnapshotName s = EmptyString)) then Some s else None) with
  | Some s => ([], inr (lsn_string (slot_LSN s), SnapshotName s, λ _, []))
  | None =>
      match c_acquire c with
      | Some err => ([], inl (GoWrap "failed to acquire primary connection" err))
      | None =>
          let begin := [Command "BEGIN ISOLATION LEVEL REPEATABLE READ, READ ONLY"] in
          match c_begin c, c_export c, c_lsn c with
          | Some err, _, _ => (begin ++ cleanup false, inl (GoWrap "failed to begin transaction" err))
          | None, inl err, _ => (begin ++ cleanup false, inl (GoWrap "failed to export snapshot" err))
          | None, inr _, inl err => (begin ++ cleanup false, inl (GoWrap "failed to get current WAL LSN" err))
          | None, inr snapshotID, inr lsn => (begin, inr (lsn, snapshotID, cleanup))
          end
      end
  end.

(** What the parts answer: the saved position, the creation of the state table,
    the states of the tables, and [runSnapshot]. *)
Record parts := mkParts {
  x_saved : goerr + string;
  x_create : option goerr;
  x_slot : option Snapshot;
  x_conn : conn_answers;
  x_init : SnapshotConfig → string → res (list TableState);
  x_run : SnapshotConfig → list TableState → string → option goerr }.

(** [Execute]: the position with an error, and what was done.  The deferred
    calls run in the reverse order of their statements. *)
Definition Execute (config : option SnapshotConfig) (x : parts) : res (Z * option goerr) * list action :=
  match config with
  | None => (Ok (0, None), [])
  | Some config =>
      if bool_decide (Mode config = ModeNever) then (Ok (0, None), [])
      else
        match Validate is_duration config with
        | Err err => (Ok (0, Some (GoWrap "invalid snapshot config" err)), [])
        | Ok config =>
            let lsnStr := match x_saved x with inr s => s | inl _ => EmptyString end in
            let earlier := if negb (bool_decide (lsnStr = EmptyString)) then ParseLSN lsnStr else None in
            match (l ← earlier; if bool_decide (0 < l) && bool_decide (Mode config = ModeOneTime) then Some l else None) with
            | Some lsn => (Ok (lsn, None), [])
            | None =>
                match x_create x with
                | Some err => (Ok (0, Some (GoWrap "failed to initialize state manager" err)), [CreateStateTable; CloseState])
                | None =>
                    match prepareSnapshot (x_slot x) (x_conn x) with
                    | (acts, inl err) => (Ok (0, Some err), CreateStateTable :: acts ++ [CloseState])
                    | (acts, inr (lsn, snapshotID, clean)) =>
                        let ends (commit : bool) := ShutdownListener :: clean commit ++ [CloseState] in
                        match ParseLSN lsn with
                        | None => (Ok (0, Some (GoErr "failed to parse snapshot LSN")), CreateStateTable :: acts ++ ends false)
                        | Some parsedLSN =>
                            match x_init x config lsn with
                            | Ok tableStates =>
                                match x_run x config tableStates snapshotID with
                                | Some err => (Ok (parsedLSN, Some err), CreateStateTable :: acts ++ ends false)
                                | None => (Ok (parsedLSN, None), CreateStateTable :: acts ++ SaveSnapshotLSN lsn :: ends true)
                                end
                            | Err err => (Ok (0, Some err), CreateStateTable :: acts ++ ends false)
                            | Panic msg => (Panic msg, CreateStateTable :: acts ++ ends false)
                            | Fatal msg => (Fatal msg, CreateStateTable :: acts ++ ends false)
                            end
                        end
                    end
                end
            end
        | Panic msg => (Panic msg, [])
        | Fatal msg => (Fatal msg, [])
        end
  end.

Lemma prepare_cases slot c :
  match prepareSnapshot slot c with
  | (acts, inl _) => acts = [] ∨ acts = Command "BEGIN ISOLATION LEVEL REPEATABLE READ, READ ONLY" :: cleanup false
  | (acts, inr (_, _, clean)) =>
      (acts = [] ∧ ∀ b, clean b = []) ∨ (acts = [Command "BEGIN ISOLATION LEVEL REPEATABLE READ, READ ONLY"] ∧ clean = cleanup)
  end.
Proof using Type.
  unfold prepareSnapshot. destruct (mbind _ slot) as [s|]; [by left|].
  destruct (c_acquire c); [by left|]. destruct (c_begin c), (c_export c), (c_lsn c); by right.
Qed.

(** A connection that was used is given back, and committed only with the
    position saved. *)
Definition tidy (acts : list action) : Prop :=
  (Command "COMMIT" ∈ acts → ∃ l, SaveSnapshotLSN l ∈ acts) ∧
  ((∃ c, Command c ∈ acts) →
     length (filter (λ a, a = Command "COMMIT" ∨ a = Command "ROLLBACK") acts) = 1%nat ∧
     length (filter (λ a, a = CloseConn) acts) = 1%nat).

Lemma prepare_tidy slot c acts r :
  prepareSnapshot slot c = (acts, r) →
  match r with
  | inl _ => tidy (CreateStateTable :: acts ++ [CloseState]) ∧ ∀ l, SaveSnapshotLSN l ∉ CreateStateTable :: acts ++ [CloseState]
  | inr (_, _, clean) =>
      (tidy (CreateStateTable :: acts ++ ShutdownListener :: clean false ++ [CloseState]) ∧
       ∀ l, SaveSnapshotLSN l ∉ CreateStateTable :: acts ++ ShutdownListener :: clean false ++ [CloseState]) ∧
      ∀ lsn, tidy (CreateStateTable :: acts ++ SaveSnapshotLSN lsn :: ShutdownListener :: clean true ++ [CloseState]) ∧
        ∀ l, SaveSnapshotLSN l ∈ CreateStateTable :: acts ++ SaveSnapshotLSN lsn :: ShutdownListener :: clean true ++ [CloseState] → l = lsn
  end.
Proof using Type.
  intros E. pose proof (prepare_cases slot c) as H. rewrite E in H. clear ParseLSN is_duration E. unfold tidy.
  destruct r as [err|[[lsn0 id] clean]]; destruct H as [H|H].
  - subst acts. simpl. split; [split; [set_solver|intros (x & Hx); set_solver]|set_solver].
  - subst acts. simpl. split; [split; [set_solver|intros _; split; reflexivity]|set_solver].
  - destruct H as [-> Hc]. rewrite !Hc. simpl. split; [split; [split; [set_solver|intros (x & Hx); set_solver]|set_solver]|].
    intros lsn. split; [split; [set_solver|intros (x & Hx); set_solver]|set_solver].
  - destruct H as [-> ->]. simpl. split; [split; [split; [set_solver|intros _; split; reflexivity]|set_solver]|].
    intros lsn. split; [split; [|intros _; split; reflexivity]|set_solver]. intros _. exists lsn. set_solver.
Qed.

Lemma tidy_nil : tidy [] ∧ ∀ l, SaveSnapshotLSN l ∉ [].
Proof using Type.
  split; [split; [intros H; by apply elem_of_nil in H|intros (c & H); by apply elem_of_nil in H]|].
  intros l. apply not_elem_of_nil.
Qed.

Lemma tidy_early :
  tidy [CreateStateTable; CloseState] ∧ ∀ l, SaveSnapshotLSN l ∉ [CreateStateTable; CloseState].
Proof using Type. clear. split; [split; [set_solver|intros (c & H); set_solver]|set_solver]. Qed.

(** With a saved position the one-time snapshot is not run again. *)
Lemma execute_again config config' l p x' :
  Mode config ≠ ModeNever → Validate is_duration config = Ok config' → Mode config' = ModeOneTime →
  l ≠ EmptyString → ParseLSN l = Some p → 0 < p → x_saved x' = inr l →
  Execute (Some config) x' = (Ok (p, None), []).
Proof using Type.
  intros Hn Hv Hm Hl Hp Hpos Hs. unfold Execute. rewrite bool_decide_false by done. rewrite Hv, Hs. cbv zeta.
  rewrite (bool_decide_false (l = EmptyString)) by done. simpl negb. cbv iota. rewrite Hp. cbn [mbind option_bind].
  by rewrite (bool_decide_true (0 < p)), (bool_decide_true (Mode config' = ModeOneTime)) by done.
Qed.

(** The position [l] may be saved. *)
Definition saved_right (config : SnapshotConfig) (x : parts) (l : string) (out : res (Z * option goerr)) : Prop :=
  ∃ p config' tableStates id,
    out = Ok (p, None) ∧ ParseLSN l = Some p ∧ Validate is_duration config = Ok config' ∧
    x_init x config' l = Ok tableStates ∧ x_run x config' tableStates id = None ∧
    (0 < p → Mode config' = ModeOneTime → l ≠ EmptyString →
     ∀ x', x_saved x' = inr l → Execute (Some config) x' = (Ok (p, None), [])).

(** C24: the position of a snapshot is saved only when the snapshot has run to
    its end without an error, with the position its rows were read at; the
    transaction that keeps the rows readable is ended exactly once wherever it
    was begun, and committed only in that case; and once the position is saved,
    running the one-time snapshot again does nothing and returns it. *)
Theorem snapshot_position_saved_at_end config x :
  let '(out, acts) := Execute (Some config) x in
  (∀ l, SaveSnapshotLSN l ∈ acts → saved_right config x l out) ∧
  tidy acts.
Proof using Type.
  destruct (Execute (Some config) x) as [out acts] eqn:E.
  assert (∀ acts0, acts = acts0 → tidy acts0 ∧ (∀ l, SaveSnapshotLSN l ∉ acts0) →
    ((∀ l, SaveSnapshotLSN l ∈ acts → saved_right config x l out) ∧ tidy acts)) as Hno.
  { intros acts0 -> [H1 H2]. split; [|done]. intros l Hl. by destruct (H2 l). }
  unfold Execute in E. case_bool_decide as Hn; [injection E as _ <-; by apply (Hno []), tidy_nil|].
  destruct (Validate is_duration config) as [config'|err| |] eqn:Hv; try (injection E as _ <-; by apply (Hno []), tidy_nil).
  cbv zeta in E. destruct (mbind _ (if negb _ then _ else None)) as [l0|]; [injection E as _ <-; by apply (Hno []), tidy_nil|].
  destruct (x_create x) as [err|]; [injection E as _ <-; by apply (Hno _ eq_refl), tidy_early|].
  destruct (prepareSnapshot (x_slot x) (x_conn x)) as [a [err|[[lsn id] clean]]] eqn:Hp; apply prepare_tidy in Hp.
  { injection E as _ <-. by apply (Hno _ eq_refl). }
  destruct Hp as [Hfail Hsave].
  destruct (ParseLSN lsn) as [p|] eqn:Hl; [|injection E as _ <-; by apply (Hno _ eq_refl)].
  destruct (x_init x config' lsn) as [sts|err|msg|msg] eqn:Hi; try (injection E as _ <-; by apply (Hno _ eq_refl)).
  destruct (x_run x config' sts id) as [err|] eqn:Hr; [injection E as _ <-; by apply (Hno _ eq_refl)|].
  injection E as <- <-. destruct (Hsave lsn) as [Ht Honly]. split; [|done].
  intros l ->%Honly. exists p, config', sts, id. split_and!; try done. intros. by eapply execute_again.
Qed.
End execute.
End Manager.

(** ** Concrete snapshots *)

Module Samples.
Import Manager.

Definition users_cfg : SnapshotTableConfig := mkSnapTable "public.users" SnapshotTableFull EmptyString.
Definition orders_cfg : SnapshotTableConfig := mkSnapTable "public.orders" SnapshotTableFull EmptyString.
Definition config : SnapshotConfig := mkSnapConfig ModeOneTime [Some users_cfg; Some orders_cfg] 2 1 false EmptyString 0.
Definition users : Table := AddColumn (mkCol "id" 23 true 1) (NewTable "public" "users").
Definition published (tn : TableName) : option Table :=
  if bool_decide (FullName tn = "public.users") then Some users else None.

(** An earlier run completed the orders and left the users half done. *)
Definition saved_rows : db :=
  {["public.users" := mkRow "0/1" "full" None (Some 9) 4 StatusInProgress false None;
    "public.orders" := mkRow "0/1" "full" None (Some 7) 7 StatusCompleted true None]}.
Definition no_error (_ : string) : option goerr := None.

Definition statuses (r : res (list TableState)) : list (string * SnapshotStatus * Z) :=
  match r with Ok sts => List.map (λ st, (ts_Name st, Status st, ProcessedRows st)) sts | _ => [] end.
Definition restart := initTablesState "app" published no_error None config "0/9" saved_rows.

Lemma restart_keeps_completed_tables_witness :
  statuses restart.2 = [("public.users", StatusPending, 0); ("public.orders", StatusCompleted, 7)] ∧
  restart.1 !! "public.invoices" = None.
Proof.
  split; [vm_compute; reflexivity|].
  assert (H := restart_keeps_completed_tables "app" published no_error None config "0/9" saved_rows).
  unfold restart. destruct (initTablesState _ _ _ _ _ _ _) as [d' out]. destruct H as [H _].
  - intros c Hc. assert (c = Some users_cfg ∨ c = Some orders_cfg) as [-> | ->] by (set_solver); eexists; reflexivity.
  - apply (bool_decide_unpack _). vm_compute. reflexivity.
  - simpl. rewrite H; [vm_compute; reflexivity|]. apply (bool_decide_unpack _). vm_compute. reflexivity.
Defined.

(** The users are dispatched as two ranges; the orders are not published, and
    the loop goes on behind them. *)
Definition pending (name : string) : TableState :=
  mkTS "app" name "0/9" "full" None None 0 StatusPending None EmptyString.
Definition user_rows (name : string) : list TID :=
  if bool_decide (name = "public.users") then [mkTID 0 1 true; mkTID 1 3 true; mkTID 4 2 true] else [].
Definition ans (_ : string) : answers := mkAnswers false (inr (mkEst 3 3 5)) None (inl (GoErr "not asked")) None None.
Definition both : list TableState := [pending "public.orders"; pending "public.users"].

Example both_dispatched :
  (λ evs, (reports_of "public.users" evs, length (tasks_of "public.users" evs), length (own "public.orders" evs)))
    <$> runSnapshotLoop published (mkTCO false EmptyString) 2 1 ans both =
  Some ([TableStarted "public.users" 3; TableDispatched "public.users" 2], 2%nat, 1%nat).
Proof. vm_compute. reflexivity. Qed.


(** The whole snapshot, where [runSnapshot] ends as [finish] says. *)
Definition parse (s : string) : option Z := if bool_decide (s = "0/9") then Some 9 else None.
Definition running (saved : goerr + string) (run : option goerr) : parts :=
  mkParts saved None None (mkConn None None (inr "snap-1") (inr "0/9")) (λ _ _, Ok both) (λ _ _ _, run).
Definition go := Execute (λ _, "0/9") parse (λ _, true) (Some config).

Lemma snapshot_position_saved_at_end_witness :
  saved_right (λ _, "0/9") parse (λ _, true) config (running (inr EmptyString) None) "0/9" (go (running (inr EmptyString) None)).1.
Proof.
  assert (H := snapshot_position_saved_at_end (λ _, "0/9") parse (λ _, true) config (running (inr EmptyString) None)).
  fold go in H. destruct (go (running (inr EmptyString) None)) as [out acts] eqn:E. destruct H as [H _]. apply H.
  assert (acts = (go (running (inr EmptyString) None)).2) as -> by (rewrite E; reflexivity).
  apply (bool_decide_unpack _). vm_compute. reflexivity.
Defined.

(** Without [AbortOnError] a snapshot in which a table failed counts as done:
    [finish] gives no error, the position is saved, and the next start does
    nothing, so the failed table is never read. *)
Definition one_failed : option goerr :=
  (SnapshotProgress.Follow.finish SnapshotProgress.Samples.always false false [("public.a", ["no connection"])] ["public.a"; "public.b"]
     SnapshotProgress.Samples.start).2.
Example failed_table_not_retried :
  (go (running (inr EmptyString) one_failed), go (running (inr "0/9") (Some (GoErr "never asked")))) =
  ((Ok (9, None),
    [CreateStateTable; Command "BEGIN ISOLATION LEVEL REPEATABLE READ, READ ONLY"; SaveSnapshotLSN "0/9"; ShutdownListener;
     Command "COMMIT"; CloseConn; CloseState]), (Ok (9, None), [])).
Proof. vm_compute. reflexivity. Qed.
End Samples.
