(* ===== verification/SnapshotPool.v ===== *)
(** * The workers of a snapshot with the loop that dispatches
      (src/snapshot/manager.go, src/snapshot/worker.go)

    [runSnapshot] starts the workers ([Worker.Process]) and the loop that gives
    them the tasks over a channel without a buffer, and waits until all workers
    have ended.  A state of [pool] is what the loop still has to do and where
    each worker is; [pool_step] is one step of the loop or of a worker, so a
    list of steps is an interleaving.

    What the loop does in which order is [SnapshotManager.runSnapshotLoop];
    whether a connection is given, and how a task ends, are part of the steps. *)

From stdpp Require Import base numbers list gmap strings.
From S2P Require Import Prelude GoStrings OrderedMap PgSchema Decode BufferedListener SnapshotPlan SnapshotWorker SnapshotProgress SnapshotManager.

Definition task : Type := string * option ctidRange.

(** ** The workers *)

(** A worker waits for a task, with a connection or none yet, works on one, or has
    ended. *)
Inductive worker_at := Waiting (conn : bool) | Working (name : string) (t : task) | Gone.
#[global] Instance is_Gone_dec (w : worker_at) : Decision (w = Gone).
Proof. destruct w; [by right|by right|by left]. Defined.

Record pool := mkPool {
  todo : list loop_event; workers : list worker_at;
  handled : list (string * task); reports : list progressReport; errors : list (string * goerr);
  cancelled : bool; opened : nat; closed : nat }.

(** The loop goes on without a worker; worker [i] takes the next task, where a
    connection may be refused; worker [i] ends its task, where the task or the
    report may fail; worker [i] ends as there are no tasks any more, or as the
    context has ended; the context ends. *)
Inductive pool_event :=
| Loop
| Give (i : nat) (refused : option goerr)
| Finish (i : nat) (failed : option goerr) (report_failed : option goerr)
| Leave (i : nat)
| Cancel.

Section pool.
(** The full name of the table that is found under a configured name. *)
Context (full : string → string).

Definition start (evs : list loop_event) (n : nat) : pool := mkPool evs (replicate n (Waiting false)) [] [] [] false 0 0.

Definition set_worker (i : nat) (w : worker_at) (s : pool) : pool :=
  mkPool (todo s) (<[i := w]> (workers s)) (handled s) (reports s) (errors s) (cancelled s) (opened s) (closed s).
(** The worker ends with an error; its connection is closed. *)
Definition fail_worker (i : nat) (name : string) (err : goerr) (conn : bool) (s : pool) : pool :=
  mkPool (todo s) (<[i := Gone]> (workers s)) (handled s) (reports s) (errors s ++ [(name, err)]) (cancelled s) (opened s)
         (closed s + if conn then 1 else 0).
Definition with_todo (evs : list loop_event) (s : pool) : pool :=
  mkPool evs (workers s) (handled s) (reports s) (errors s) (cancelled s) (opened s) (closed s).
Definition add_report (r : progressReport) (s : pool) : pool :=
  mkPool (todo s) (workers s) (handled s) (reports s ++ [r]) (errors s) (cancelled s) (opened s) (closed s).
Definition add_error (name : string) (err : goerr) (s : pool) : pool :=
  mkPool (todo s) (workers s) (handled s) (reports s) (errors s ++ [(name, err)]) (cancelled s) (opened s) (closed s).
Definition add_handled (name : string) (t : task) (s : pool) : pool :=
  mkPool (todo s) (workers s) (handled s ++ [(name, t)]) (reports s) (errors s) (cancelled s) (opened s) (closed s).

Definition is_Sent (e : loop_event) : bool := match e with Sent _ _ _ => true | _ => false end.

(** A step of the loop that is no task. *)
Definition loop_step (s : pool) : option pool :=
  match todo s with
  | StartSaved _ _ :: r => Some (with_todo r s)
  | Reported _ rep :: r => Some (with_todo r (add_report rep s))
  | Failed name err :: r => Some (with_todo r (add_error name err s))
  | _ => None
  end.

Definition give_step (i : nat) (refused : option goerr) (s : pool) : option pool :=
  match todo s, workers s !! i with
  | Sent name _ t :: r, Some (Waiting conn) =>
      let s := with_todo r s in
      match conn, refused with
      | true, _ => Some (set_worker i (Working name t) s)
      | false, Some err =>
          Some (fail_worker i name (GoWrap "snapshot: process table range failed: failed to acquire primary connection" err) false s)
      | false, None =>
          Some (mkPool (todo s) (<[i := Working name t]> (workers s)) (handled s) (reports s) (errors s) (cancelled s) (S (opened s)) (closed s))
      end
  | _, _ => None
  end.

Definition finish_step (i : nat) (failed report_failed : option goerr) (s : pool) : option pool :=
  match workers s !! i with
  | Some (Working name t) =>
      match failed with
      | Some err => Some (fail_worker i name (GoWrap "snapshot: process table range failed" err) true s)
      | None =>
          let s := add_handled name t s in
          match report_failed with
          | Some err => Some (fail_worker i (full name) (GoWrap "snapshot: process table range failed: failed to report progress" err) true s)
          | None => Some (set_worker i (Waiting true) (add_report (TaskDone (full name)) s))
          end
      end
  | _ => None
  end.

Definition leave_step (i : nat) (s : pool) : option pool :=
  match workers s !! i with
  | Some (Waiting conn) =>
      if bool_decide (todo s = []) || cancelled s
      then Some (mkPool (todo s) (<[i := Gone]> (workers s)) (handled s) (reports s) (errors s) (cancelled s) (opened s)
                        (closed s + if conn then 1 else 0))
      else None
  | _ => None
  end.

Definition pool_step (e : pool_event) (s : pool) : option pool :=
  match e with
  | Loop => loop_step s
  | Give i refused => give_step i refused s
  | Finish i failed report_failed => finish_step i failed report_failed s
  | Leave i => leave_step i s
  | Cancel =>
      if cancelled s then None
      else Some (mkPool (todo s) (workers s) (handled s) (reports s) (errors s) true (opened s) (closed s))
  end.

Inductive pool_run (evs : list loop_event) (n : nat) : list pool_event → pool → Prop :=
| pool_init : pool_run evs n [] (start evs n)
| pool_snoc es s e s' : pool_run evs n es s → pool_step e s = Some s' → pool_run evs n (es ++ [e]) s'.

(** [wg.Wait] returns. *)
Definition all_gone (s : pool) : Prop := Forall (λ w, w = Gone) (workers s).

(** ** Every step uses something up *)

Definition load (w : worker_at) : nat := match w with Waiting _ => 1 | Working _ _ => 2 | Gone => 0 end.
Definition measure (s : pool) : nat :=
  2 * length (todo s) + sum_list (load <$> workers s) + if cancelled s then 0 else 1.

Lemma sum_insert (ws : list worker_at) i w w' :
  ws !! i = Some w → (sum_list (load <$> <[i := w']> ws) + load w = sum_list (load <$> ws) + load w')%nat.
Proof using Type.
  revert i. induction ws as [|x ws IH]; intros [|i] H; simplify_eq/=; [lia|]. specialize (IH i H). lia.
Qed.

Lemma step_measure e s s' : pool_step e s = Some s' → (measure s' < measure s)%nat.
Proof using Type.
  unfold measure. destruct e as [|i refused|i failed rf|i|]; simpl.
  - unfold loop_step. destruct (todo s) as [|[] r]; try done; intros [= <-]; simpl; destruct (cancelled s); lia.
  - unfold give_step. destruct (todo s) as [|[] r]; try done. destruct (workers s !! i) as [[[]| |]|] eqn:E; try done; [|destruct refused];
      intros [= <-]; simpl; match goal with |- context [<[i := ?w]> _] => pose proof (sum_insert _ i _ w E) end; simpl in *; destruct (cancelled s); lia.
  - unfold finish_step. destruct (workers s !! i) as [[]|] eqn:E; try done. destruct failed; [|destruct rf];
      intros [= <-]; simpl; match goal with |- context [<[i := ?w]> _] => pose proof (sum_insert _ i _ w E) end; simpl in *; destruct (cancelled s); lia.
  - unfold leave_step. destruct (workers s !! i) as [[conn| |]|] eqn:E; try done. destruct (_ || _); [|done].
    intros [= <-]. simpl. pose proof (sum_insert _ i _ Gone E). simpl in *. destruct (cancelled s); lia.
  - destruct (cancelled s); [done|]. intros [= <-]. simpl. lia.
Qed.

Lemma start_measure evs n : measure (start evs n) = (2 * length evs + n + 1)%nat.
Proof using Type.
  unfold measure, start. cbn [todo workers cancelled].
  assert (sum_list (load <$> replicate n (Waiting false)) = n) as ->; [|done]. induction n as [|n IH]; [done|]. simpl. f_equal. exact IH.
Qed.

Lemma run_measure evs n es s : pool_run evs n es s → (length es + measure s ≤ 2 * length evs + n + 1)%nat.
Proof using Type.
  induction 1 as [|es s e s' _ IH Hs]; [rewrite start_measure; simpl; lia|]. apply step_measure in Hs. rewrite length_app. simpl. lia.
Qed.

(** While a worker is there a step can be made. *)
Lemma pool_progress s : ¬ all_gone s → ∃ e s', pool_step e s = Some s'.
Proof using Type.
  intros Hg. unfold all_gone in Hg. apply not_Forall_Exists in Hg; [|intros w; apply _].
  apply Exists_exists in Hg as (w & [i Hi]%list_elem_of_lookup & Hw). destruct w as [conn|name t|]; [| |by destruct Hw].
  - destruct (todo s) as [|e r] eqn:Et.
    + exists (Leave i). simpl. unfold leave_step. rewrite Hi, Et. simpl. by eexists.
    + destruct e as [| |name km t|].
      * exists Loop. simpl. unfold loop_step. rewrite Et. by eexists.
      * exists Loop. simpl. unfold loop_step. rewrite Et. by eexists.
      * exists (Give i None). simpl. unfold give_step. rewrite Hi, Et. destruct conn; by eexists.
      * exists Loop. simpl. unfold loop_step. rewrite Et. by eexists.
  - exists (Finish i None None). simpl. unfold finish_step. rewrite Hi. by eexists.
Qed.
End pool.

(** ** What the workers have done *)

Definition sent (evs : list loop_event) : list (string * task) :=
  omap (λ e, match e with Sent n _ t => Some (n, t) | _ => None end) evs.
Definition working (ws : list worker_at) : list (string * task) :=
  omap (λ w, match w with Working n t => Some (n, t) | _ => None end) ws.
Definition has_conn (w : worker_at) : nat := match w with Waiting true | Working _ _ => 1 | _ => 0 end.
Definition done_reports (rs : list progressReport) : list string :=
  omap (λ r, match r with TaskDone n => Some n | _ => None end) rs.

Section facts.
Context (full : string → string) (evs : list loop_event) (n : nat).

(** Nothing in the list is reported as done by the loop itself. *)
Context (Hno : ∀ name name', Reported name (TaskDone name') ∉ evs).

Record pool_inv (s : pool) : Prop := {
  pi_todo : ∃ before, evs = before ++ todo s ∧ ∀ name err, Failed name err ∈ before → (name, err) ∈ errors s;
  pi_tasks : ∃ lost, sent evs ≡ₚ handled s ++ working (workers s) ++ lost ++ sent (todo s) ∧ (errors s = [] → lost = []);
  pi_gone : errors s = [] → cancelled s = false → Gone ∈ workers s → todo s = [];
  pi_conns : opened s = (closed s + sum_list (has_conn <$> workers s))%nat;
  pi_reports : errors s = [] → done_reports (reports s) = full <$> (handled s).*1;
  pi_workers : length (workers s) = n }.

(** Replacing worker [i], which is at [w]. *)
Lemma working_insert (ws : list worker_at) i w w' :
  ws !! i = Some w → working [w] ++ working (<[i := w']> ws) ≡ₚ working [w'] ++ working ws.
Proof using Type.
  revert i. induction ws as [|x ws IH]; intros [|i] H; simplify_eq/=.
  - destruct w, w'; simpl; try done. by constructor.
  - specialize (IH i H). unfold working in *. simpl in *. destruct x; [done| |done].
    rewrite <- !Permutation_middle. by constructor.
Qed.

Lemma conn_insert (ws : list worker_at) i w w' :
  ws !! i = Some w → (sum_list (has_conn <$> <[i := w']> ws) + has_conn w = sum_list (has_conn <$> ws) + has_conn w')%nat.
Proof using Type.
  revert i. induction ws as [|x ws IH]; intros [|i] H; simplify_eq/=; [lia|]. specialize (IH i H). lia.
Qed.

Lemma gone_insert (ws : list worker_at) i w : w ≠ Gone → Gone ∈ <[i := w]> ws → Gone ∈ ws.
Proof using Type.
  intros Hw [j Hj]%list_elem_of_lookup. apply list_lookup_insert_Some in Hj as [(_ & ? & _)|[_ Hj]]; [done|by eapply list_elem_of_lookup_2].
Qed.

Lemma sent_app a b : sent (a ++ b) = sent a ++ sent b.
Proof using Type. apply omap_app. Qed.

(** A worker moves from [w] to [w'] while the loop does [pre]. *)
Lemma inv_move s s' i w w' pre hs lost es rs :
  pool_inv s → workers s !! i = Some w → w ≠ Gone → workers s' = <[i := w']> (workers s) →
  todo s = pre ++ todo s' → (∀ name err, Failed name err ∉ pre) →
  handled s' = handled s ++ hs → errors s' = errors s ++ es → reports s' = reports s ++ rs → cancelled s' = cancelled s →
  working [w] ++ sent pre ≡ₚ working [w'] ++ hs ++ lost → (es = [] → lost = []) →
  (opened s' + closed s + has_conn w = opened s + closed s' + has_conn w')%nat →
  (es = [] → done_reports rs = full <$> hs.*1) →
  (es = [] → w' = Gone → todo s' = [] ∨ cancelled s = true) → pool_inv s'.
Proof using Type.
  intros [(before & Eb & Hf) (old & Ht & Hl) Hg Hc Hr Hw] Hi Hng Ew Et Hp Eh Ee Er Ec Hp1 Hl1 Hc1 Hr1 Hg1.
  split; rewrite ?Ew, ?Eh, ?Ee, ?Er, ?Ec.
  - exists (before ++ pre). split; [by rewrite <- (assoc_L (++)), <- Et|].
    intros name err [Hb|Hb]%elem_of_app; [apply elem_of_app; left; by apply Hf|by destruct (Hp name err)].
  - exists (old ++ lost). split.
    + rewrite Ht, Et, sent_app. pose proof (working_insert (workers s) i w w' Hi) as Hws.
      assert (working (workers s) ++ sent pre ≡ₚ working (<[i:=w']> (workers s)) ++ hs ++ lost) as Hall.
      { apply (Permutation_app_inv_l (working [w'])). rewrite (assoc (++)), <- Hws, <- (assoc (++)).
        rewrite (Permutation_app_comm (working (<[i:=w']> (workers s))) (sent pre)), (assoc (++)), Hp1. solve_Permutation. }
      rewrite (Permutation_app_comm old), <- !(assoc (++)), (assoc (++) (working (workers s)) (sent pre)).
      rewrite (Permutation_app_comm (sent (todo s')) old).
      transitivity (handled s ++ (working (workers s) ++ sent pre) ++ old ++ sent (todo s')); [solve_Permutation|].
      rewrite Hall. solve_Permutation.
    + intros [E1 E2]%app_nil. by rewrite Hl, Hl1.
  - intros [E1 E2]%app_nil Hcan Hin. destruct (decide (w' = Gone)) as [->|Hne].
    + destruct (Hg1 E2 eq_refl); [done|congruence].
    + apply gone_insert in Hin; [|done]. specialize (Hg E1 Hcan Hin). rewrite Hg in Et. symmetry in Et. by apply app_nil in Et as [_ ?].
  - pose proof (conn_insert (workers s) i w w' Hi). lia.
  - intros [E1 E2]%app_nil. unfold done_reports. rewrite omap_app, !fmap_app. f_equal; [by apply Hr|by apply Hr1].
  - by rewrite length_insert.
Qed.

(** The loop does one thing of its own. *)
Lemma inv_loop s s' e :
  pool_inv s → todo s = e :: todo s' → is_Sent e = false → workers s' = workers s → handled s' = handled s → cancelled s' = cancelled s →
  opened s' = opened s → closed s' = closed s →
  reports s' = reports s ++ match e with Reported _ r => [r] | _ => [] end →
  errors s' = errors s ++ match e with Failed name err => [(name, err)] | _ => [] end → pool_inv s'.
Proof using Hno.
  intros [(before & Eb & Hf) (old & Ht & Hl) Hg Hc Hr Hw] Et Hs Ew Eh Ec Eo El Er Ee.
  assert (e ∈ evs) as Hin by (rewrite Eb, Et; set_solver -Hf Hno). split; rewrite ?Ew, ?Eh, ?Ec, ?Eo, ?El, ?Er.
  - exists (before ++ [e]). split; [by rewrite <- (assoc_L (++)), Eb, Et|]. intros name err Hfe. rewrite Ee.
    apply elem_of_app in Hfe as [Hfe| <-%list_elem_of_singleton]; apply elem_of_app; [left; by apply Hf|right; by left].
  - exists old. split; [|intros E; apply Hl; rewrite Ee in E; by apply app_nil in E as [? _]]. rewrite Ht, Et. by destruct e.
  - intros E Hcan Hgone. rewrite Ee in E. apply app_nil in E as [E _]. specialize (Hg E Hcan Hgone). by rewrite Hg in Et.
  - done.
  - intros E. rewrite Ee in E. apply app_nil in E as [E _]. unfold done_reports. rewrite omap_app. fold (done_reports (reports s)).
    rewrite Hr by done. destruct e as [|name r| |]; simpl; rewrite ?app_nil_r; try done.
    destruct r; simpl; rewrite ?app_nil_r; try done. by destruct (Hno name name0).
  - done.
Qed.

Lemma pool_init_inv : pool_inv (start evs n).
Proof using Type.
  assert (∀ m, working (replicate m (Waiting false)) = []) as Hw by (induction m; done).
  assert (∀ m, sum_list (has_conn <$> replicate m (Waiting false)) = 0%nat) as Hc by (induction m as [|m IH]; [done|exact IH]).
  split; simpl.
  - exists []. split; [done|]. by intros name err ?%not_elem_of_nil.
  - exists []. split; [by rewrite Hw|done].
  - intros _ _ [? H]%elem_of_replicate. done.
  - by rewrite Hc.
  - done.
  - apply length_replicate.
Qed.

Lemma pool_step_inv e s s' : pool_inv s → pool_step full e s = Some s' → pool_inv s'.
Proof using Hno.
  intros Hi. destruct e as [|i refused|i failed rf|i|]; simpl.
  - unfold loop_step. destruct (todo s) as [|e r] eqn:Et; [done|]. destruct e; try done; intros [= <-];
      eapply (inv_loop s); try done; simpl; by rewrite ?app_nil_r.
  - unfold give_step. destruct (todo s) as [|e r] eqn:Et; [done|]. destruct e as [| |name km t|]; try done.
    destruct (workers s !! i) as [[[]| |]|] eqn:Ei; try done; [|destruct refused as [err|]]; intros [= <-].
    + apply (inv_move s _ i (Waiting true) (Working name t) [Sent name km t] [] [] [] []); simpl; rewrite ?app_nil_r; try done; first [by intros ? ? ?%list_elem_of_singleton|by intros ? ? ?%not_elem_of_nil|lia].
    + apply (inv_move s _ i (Waiting false) Gone [Sent name km t] [] [(name, t)] [(name, GoWrap "snapshot: process table range failed: failed to acquire primary connection" err)] []);
        simpl; rewrite ?app_nil_r; try done; first [by intros ? ? ?%list_elem_of_singleton|by intros ? ? ?%not_elem_of_nil|lia].
    + apply (inv_move s _ i (Waiting false) (Working name t) [Sent name km t] [] [] [] []); simpl; rewrite ?app_nil_r; try done; first [by intros ? ? ?%list_elem_of_singleton|by intros ? ? ?%not_elem_of_nil|lia].
  - unfold finish_step. destruct (workers s !! i) as [[|name t|]|] eqn:Ei; try done. destruct failed as [err|]; [|destruct rf as [err|]]; intros [= <-].
    + eapply (inv_move s _ i (Working name t) Gone [] [] [(name, t)] [_] []); simpl; rewrite ?app_nil_r; try done; first [by intros ? ? ?%list_elem_of_singleton|by intros ? ? ?%not_elem_of_nil|lia].
    + eapply (inv_move s _ i (Working name t) Gone [] [(name, t)] [] [_] []); simpl; rewrite ?app_nil_r; try done; first [by intros ? ? ?%list_elem_of_singleton|by intros ? ? ?%not_elem_of_nil|lia].
    + eapply (inv_move s _ i (Working name t) (Waiting true) [] [(name, t)] [] [] [_]); simpl; rewrite ?app_nil_r; try done; first [by intros ? ? ?%list_elem_of_singleton|by intros ? ? ?%not_elem_of_nil|lia].
  - unfold leave_step. destruct (workers s !! i) as [[conn| |]|] eqn:Ei; try done. destruct (bool_decide (todo s = []) || cancelled s) eqn:Eb; [|done].
    intros [= <-]. apply (inv_move s _ i (Waiting conn) Gone [] [] [] [] []); simpl; rewrite ?app_nil_r; try done.
    + by intros ? ? ?%not_elem_of_nil.
    + destruct conn; simpl; lia.
    + intros _ _. apply orb_true_iff in Eb as [Eb%bool_decide_eq_true|Eb]; [by left|by right].
  - destruct (cancelled s) eqn:Ec; [done|]. intros [= <-]. destruct Hi as [H1 H2 H3 H4 H5 H6]. by split.
Qed.

Lemma pool_run_inv es s : pool_run full evs n es s → pool_inv s.
Proof using Hno. induction 1 as [|es s e s' _ IH Hs]; [apply pool_init_inv|by eapply pool_step_inv]. Qed.
End facts.

(** ** The rows of the tables *)

(** The tasks of a table that ended without an error. *)
Definition handled_of (name : string) (s : pool) : list task := (filter (λ p, p.1 = name) (handled s)).*2.

Lemma tasks_of_sent name evs : tasks_of name evs = (filter (λ p, p.1 = name) (sent evs)).*2.
Proof.
  unfold tasks_of, own, sent. induction evs as [|e evs IH]; [done|]. rewrite filter_cons. destruct e as [n t|n r|n km t|n err]; simpl.
  1,2,4: case_decide; simpl; exact IH.
  rewrite filter_cons. simpl. case_decide; simpl; [f_equal; exact IH|exact IH].
Qed.

Lemma readers_Permutation t ks ks' : ks ≡ₚ ks' → readers t ks = readers t ks'.
Proof. intros H. unfold readers. by rewrite H. Qed.

(** The loop does not report that a task is done. *)
Lemma loop_no_done getTable txOpts batchSize maxWorkers ans sts evs name name' :
  runSnapshotLoop getTable txOpts batchSize maxWorkers ans sts = Some evs → Reported name (TaskDone name') ∉ evs.
Proof.
  revert evs. induction sts as [|st sts IH]; intros evs; simpl; [by intros [= <-] ?%not_elem_of_nil|].
  intros ((evs1 & go) & H1 & H2)%bind_Some Hin.
  assert (Reported name (TaskDone name') ∉ evs1) as Hn1.
  { clear -H1. unfold loop_table in H1. repeat case_match; simplify_eq/=; try set_solver.
    all: apply bind_Some in H1 as (tasks & _ & H1); repeat case_match; simplify_eq/=; intros Hd; repeat (apply elem_of_app in Hd as [Hd|Hd] || apply elem_of_cons in Hd as [Hd|Hd]); try done; try set_solver.
    all: by apply list_elem_of_fmap in Hd as (? & ? & _). }
  destruct go; [|injection H2 as <-; done]. apply bind_Some in H2 as (rest & Hr & [= <-]). apply elem_of_app in Hin as [Hin|Hin]; [done|].
  by eapply IH.
Qed.

Lemma gone_working ws : Forall (λ w, w = Gone) ws → working ws = [] ∧ sum_list (has_conn <$> ws) = 0%nat.
Proof. induction 1 as [|w ws -> _ [IH1 IH2]]; [done|]. split; [exact IH1|exact IH2]. Qed.

(** When all workers have ended without an error and without the context having
    ended, the loop has ended too and every task was handled. *)
Lemma pool_complete full evs n es s :
  (∀ name name', Reported name (TaskDone name') ∉ evs) → pool_run full evs n es s → (0 < n)%nat → all_gone s → errors s = [] → cancelled s = false →
  sent evs ≡ₚ handled s ∧ (∀ name err, Failed name err ∉ evs) ∧ done_reports (reports s) = full <$> (handled s).*1 ∧ todo s = [].
Proof.
  intros Hno Hrun Hn Hg He Hc. destruct (pool_run_inv full evs n Hno es s Hrun) as [(before & Eb & Hf) (lost & Ht & Hl) Hgone _ Hr Hw].
  assert (todo s = []) as Etodo.
  { apply Hgone; [done..|]. destruct (workers s) as [|w ws] eqn:Ew; [simpl in Hw; lia|]. apply Forall_cons in Hg as [-> _] || (unfold all_gone in Hg; rewrite Ew in Hg; apply Forall_cons in Hg as [-> _]). by left. }
  rewrite Etodo, app_nil_r in Eb. destruct (gone_working (workers s) Hg) as [Ewk _]. rewrite Etodo, Ewk, Hl in Ht by done. simpl in Ht. rewrite app_nil_r in Ht.
  split; [done|]. split; [|split; [by apply Hr|done]]. intros name err Hin. rewrite Eb in Hin. apply Hf in Hin. rewrite He in Hin. by apply not_elem_of_nil in Hin.
Qed.

(** C21: the workers read every row once.  The answers about the tables are
    right: the estimate counts the blocks of the rows and the row ids enclose
    them (which is not so for a relation without blocks of its own, as a
    partitioned table).  In every interleaving of the loop and of the workers a
    worker that has not ended can go on, or the loop can, and after a number of
    steps that the tasks bound all workers have ended; then every connection
    that was opened is closed.  If no error was recorded and the context did not
    end, the loop has ended too, each row of a table that was not complete before
    was read by exactly one task, which ended without an error, no task of a
    complete table was run, and every task was reported as done.  After an error
    the loop may still have a task to give that nobody takes. *)
Theorem snapshot_reads_each_row_once getTable txOpts batchSize maxWorkers ans rows full sts evs n es s :
  0 ≤ batchSize ≤ 536870912 → NoDup (ts_Name <$> sts) →
  (∀ st, st ∈ sts → Status st ≠ StatusCompleted → answers_right ans rows (ts_Name st)) →
  runSnapshotLoop getTable txOpts batchSize maxWorkers ans sts = Some evs → pool_run full evs n es s → (0 < n)%nat →
  (length es ≤ 2 * length evs + n + 1)%nat ∧ (¬ all_gone s → ∃ e s', pool_step full e s = Some s') ∧
  (all_gone s →
     opened s = closed s ∧
     (errors s = [] → cancelled s = false → (∀ st, st ∈ sts → a_cancelled (ans (ts_Name st)) = false) →
      todo s = [] ∧ done_reports (reports s) = full <$> (handled s).*1 ∧
      ∀ st, st ∈ sts →
        (Status st = StatusCompleted → handled_of (ts_Name st) s = []) ∧
        (Status st ≠ StatusCompleted → Forall (λ t, readers t (handled_of (ts_Name st) s) = 1%nat) (rows (ts_Name st))))).
Proof.
  intros Hb Hnd Hans Hloop Hrun Hn. pose proof (λ name name', loop_no_done _ _ _ _ _ _ _ name name' Hloop) as Hno.
  split; [pose proof (run_measure _ _ _ _ _ Hrun); lia|]. split; [apply pool_progress|]. intros Hg. split.
  { destruct (pool_run_inv full evs n Hno es s Hrun) as [_ _ _ Hc _ _]. destruct (gone_working (workers s) Hg) as [_ E]. rewrite Hc, E. lia. }
  intros He Hcan Hac. destruct (pool_complete _ _ _ _ _ Hno Hrun Hn Hg He Hcan) as (Hsent & Hfail & Hrep & Htodo). split; [done|]. split; [done|].
  destruct (loop_dispatches getTable txOpts batchSize maxWorkers ans rows Hb sts Hnd Hans) as (evs' & E & Hall). rewrite Hloop in E. injection E as <-.
  assert (∀ name, tasks_of name evs ≡ₚ handled_of name s) as Htasks.
  { intros name. rewrite tasks_of_sent. unfold handled_of. by rewrite Hsent. }
  intros st Hst. apply list_elem_of_lookup in Hst as [i Hi]. destruct (Hall i st Hi) as [H1 H2]. split.
  - intros Hs. specialize (Htasks (ts_Name st)). unfold tasks_of in Htasks. rewrite (H1 Hs) in Htasks. by apply Permutation_nil_l in Htasks.
  - intros Hs. destruct (H2 Hs) as [(total & tasks & _ & Et & Hr & _)|(_ & j & st' & _ & Hj & [Ha|[err Hf]])].
    + eapply Forall_impl; [exact Hr|]. intros t Hone. rewrite <- Hone, <- Et. symmetry. by apply readers_Permutation.
    + rewrite Hac in Ha; [done|by eapply list_elem_of_lookup_2].
    + by destruct (Hfail _ _ Hf).
Qed.

(** ** Runs *)

Module Samples.
Import SnapshotManager.Samples.

Fixpoint exec (full : string → string) (es : list pool_event) (s : pool) : option pool :=
  match es with [] => Some s | e :: r => s ← pool_step full e s; exec full r s end.

Lemma pool_exec_run full evs n es s : exec full es (start evs n) = Some s → pool_run full evs n es s.
Proof.
  assert (∀ es0 s0, pool_run full evs n es0 s0 → exec full es s0 = Some s → pool_run full evs n (es0 ++ es) s) as H.
  { revert s. induction es as [|e es IH]; intros s es0 s0 Hr; simpl; [intros [= <-]; by rewrite app_nil_r|].
    intros (s1 & Hs & He)%bind_Some. rewrite cons_middle, (assoc_L (++)). apply (IH s (es0 ++ [e]) s1); [by eapply pool_snoc|done]. }
  intros He. apply (H [] (start evs n)); [constructor|done].
Qed.

(** Two workers and the users, who are read in two tasks. *)
Definition users_only : list TableState := [pending "public.users"].
Definition user_events : list loop_event := default [] (runSnapshotLoop published (mkTCO false EmptyString) 2 1 ans users_only).
Definition two_workers : list pool_event :=
  [Loop; Loop; Give 1 None; Give 0 None; Finish 0 None None; Loop; Leave 0; Finish 1 None None; Leave 1].
Definition ended : pool := default (start user_events 2) (exec id two_workers (start user_events 2)).

Lemma users_answers st : st ∈ users_only → Status st ≠ StatusCompleted → answers_right ans user_rows (ts_Name st).
Proof.
  intros ->%list_elem_of_singleton _. split; [exact I|]. intros est [= <-]. split_and!; [unfold two32; simpl; lia|unfold max_per; simpl; lia|].
  unfold user_rows. case_bool_decide; [|constructor]. unfold row_id, MaxUint16, two32. repeat constructor; simpl; lia.
Qed.

Lemma snapshot_reads_each_row_once_witness :
  pool_run id user_events 2 two_workers ended ∧ all_gone ended ∧ opened ended = closed ended ∧
  Forall (λ t, readers t (handled_of "public.users" ended) = 1%nat) (user_rows "public.users").
Proof.
  assert (pool_run id user_events 2 two_workers ended) as Hrun by (apply pool_exec_run; vm_compute; reflexivity).
  assert (all_gone ended) as Hg by (unfold all_gone; apply (bool_decide_unpack _); vm_compute; reflexivity).
  destruct (snapshot_reads_each_row_once published (mkTCO false EmptyString) 2 1 ans user_rows id users_only user_events 2 two_workers ended)
    as (_ & _ & H); [lia|apply (bool_decide_unpack _); vm_compute; reflexivity|exact users_answers|vm_compute; reflexivity|exact Hrun|lia|].
  destruct (H Hg) as [Hc H2]. split; [exact Hrun|]. split; [exact Hg|]. split; [exact Hc|].
  destruct H2 as (_ & _ & H2); [vm_compute; reflexivity|vm_compute; reflexivity|intros st _; reflexivity|].
  destruct (H2 (pending "public.users") (list_elem_of_here _ _)) as [_ Hr]. apply Hr. discriminate.
Defined.

(** When the only worker fails, the loop still has a task to give and nobody takes
    it: the snapshot ends without it. *)
Example loop_left_behind :
  (λ s, (workers s, length (todo s), handled s, length (errors s))) <$>
    exec id [Loop; Loop; Give 0 None; Finish 0 (Some (GoErr "timeout")) None] (start user_events 1) = Some ([Gone], 2%nat, [], 1%nat).
Proof. vm_compute. reflexivity. Qed.
End Samples.
