(* ===== verification/SnapshotQueries.v ===== *)
(** * What a snapshot asks the database

    The queries of src/snapshot/manager.go whose answers the planning of
    [SnapshotPlan] and the dispatching of [SnapshotManager] start from, the
    connection of the saved states (src/snapshot/state.go) and the fields that are
    logged about the progress.

    - [Estimates]: the sizes of tables and queries;
    - [Bounds]: the lowest and the highest row id of a query, with the transaction
      and the connection it is read on;
    - [StateConnection]: the connection that all statements on the saved states
      share, opened when it is needed and again when it was lost;
    - [ProgressFields]: the statistics that are listed. *)

From stdpp Require Import base numbers list gmap strings.
From S2P Require Import Prelude GoStrings CircuitBreaker Decode SnapshotPlan SnapshotProgress SnapshotManager.

(** ** Estimates *)

Module Estimates.

(** The answers of the server: the row of [pg_class], and of EXPLAIN with its
    JSON, of which the numbers of rows of the plans are read ([json.Unmarshal]). *)
Section estimates.
Context (Unmarshal : string → goerr + list Z).

Definition getBaseTableEstimate (answer : goerr + Z * Z) : goerr + tableEstimate :=
  match answer with inl err => inl err | inr (rows, blocks) => inr (mkEst rows 0 blocks) end.

Definition explainQuery (selectQuery : string) : string := "EXPLAIN (FORMAT JSON) " +:+ selectQuery.

Definition getQueryEstimatedRows (ask : string → goerr + string) (selectQuery : string) : goerr + Z :=
  match ask (explainQuery selectQuery) with
  | inl err => inl err
  | inr raw => match Unmarshal raw with
               | inl err => inl err
               | inr [] => inl (GoErr "empty explain output")
               | inr (rows :: _) => inr rows
               end
  end.

(** The query is dereferenced: it is set for every table that is prepared. *)
Definition getTableEstimate (base : goerr + Z * Z) (ask : string → goerr + string) (st : TableState) : res tableEstimate :=
  match getBaseTableEstimate base with
  | inl err => Err err
  | inr estimate =>
      let estimate := mkEst (estimatedRows estimate) (estimatedRows estimate) (totalBlocks estimate) in
      if bool_decide (whereClause st = EmptyString) then Ok estimate
      else match SnapshotQuery st with
           | None => Panic "nil pointer dereference"
           | Some query =>
               match getQueryEstimatedRows ask query with
               | inl err => Err err
               | inr rows => Ok (mkEst rows (baseEstimatedRows estimate) (totalBlocks estimate))
               end
           end
  end.

(** A prepared table has its query, so its estimate never ends the program; it
    keeps the rows and the blocks of the whole table, and the rows of the query
    are what the server plans for it. *)
Lemma prepared_estimate app name cfg state table lsn base ask :
  let '(st, fresh) := prepareTableState app name cfg state table lsn in
  fresh = true →
  match getTableEstimate base ask st with
  | Ok est => base = inr (baseEstimatedRows est, totalBlocks est) ∧
      (st_Type cfg = SnapshotTableQuery → ∃ q, SnapshotQuery st = Some q ∧
         getQueryEstimatedRows ask q = inr (estimatedRows est)) ∧
      (st_Type cfg ≠ SnapshotTableQuery → estimatedRows est = baseEstimatedRows est)
  | Err _ => True
  | _ => False
  end.
Proof.
  unfold prepareTableState.
  set (fresh := (mkTS _ _ _ _ _ _ _ _ _ _, true)).
  assert (match state with Some s => if bool_decide (Status s = StatusCompleted) then (s, false) else fresh | None => fresh end = fresh ∨
          ∃ s, match state with Some s => if bool_decide (Status s = StatusCompleted) then (s, false) else fresh | None => fresh end = (s, false))
    as [-> |[s ->]]; [|subst fresh..|done].
  { destruct state as [s|]; [case_bool_decide|]; eauto. }
  intros _. unfold getTableEstimate, getBaseTableEstimate. cbn [whereClause SnapshotQuery].
  destruct base as [err|[rows blocks]]; [done|]. cbn [estimatedRows baseEstimatedRows totalBlocks].
  destruct (decide (st_Type cfg = SnapshotTableQuery)) as [Ht|Ht].
  - rewrite (bool_decide_true (st_Type cfg = _)) by done. rewrite bool_decide_false by done.
    destruct (getQueryEstimatedRows _ _) as [err|n] eqn:E; [done|]. cbn. split_and!; [done| |done]. intros _. by eexists.
  - rewrite (bool_decide_false (st_Type cfg = _)) by done. rewrite bool_decide_true by done. done.
Qed.
End estimates.
End Estimates.

(** ** The ids of a query's rows *)

Module Bounds.

Inductive action := Acquire | Begin | SetSnapshot (text : string) | Ask (text : string) | Rollback | Close.

(** What the calls answer, in their order; the ids are not valid when the query
    has no row. *)
Record bounds_answers := mkBA {
  q_timeout : option goerr; q_acquire : option goerr; q_begin : option goerr; q_set : option goerr; q_ids : goerr + TID * TID }.

(** [snapshotQueryContext]: an error for a timeout that cannot be read. *)
Definition snapshotQueryContext (is_duration : string → bool) (config : option SnapshotConfig) : option goerr :=
  match config with
  | None => None
  | Some c => if bool_decide (QueryTimeout c = EmptyString) || is_duration (QueryTimeout c) then None
              else Some (GoErr "invalid snapshot query timeout")
  end.

Definition set_snapshot (snapshotID : string) : string := "SET TRANSACTION SNAPSHOT '" +:+ snapshotID +:+ "'".

(** [getQueryCtidBounds]; the deferred calls end it in the reverse order. *)
Definition getQueryCtidBounds (st : TableState) (snapshotID : string) (a : bounds_answers)
    : list action * (goerr + option ctidBounds) :=
  match q_timeout a with
  | Some err => ([], inl err)
  | None =>
      match q_acquire a with
      | Some err => ([Acquire], inl (GoWrap "failed to acquire primary connection" err))
      | None =>
          match q_begin a with
          | Some err => ([Acquire; Begin; Close], inl (GoWrap "failed to begin transaction" err))
          | None =>
              let set := if bool_decide (snapshotID = EmptyString) then [] else [SetSnapshot (set_snapshot snapshotID)] in
              match (if bool_decide (snapshotID = EmptyString) then None else q_set a) with
              | Some err => (Acquire :: Begin :: set ++ [Rollback; Close], inl (GoWrap "failed to set transaction snapshot" err))
              | None =>
                  (Acquire :: Begin :: set ++ [Ask (buildCtidBoundsQuery (ts_Name st) (whereClause st)); Rollback; Close],
                   match q_ids a with
                   | inl err => inl (GoWrap "failed to read query ctid bounds" err)
                   | inr (minCtid, maxCtid) =>
                       if negb (Valid minCtid) || negb (Valid maxCtid) then inr None else inr (Some (mkBounds minCtid maxCtid))
                   end)
              end
          end
      end
  end.

(** On every path the connection is closed exactly when it was acquired, after
    the end of the transaction, and ids are read only within the snapshot that
    the tasks read. *)
Lemma bounds_tidy st snapshotID a :
  let '(acts, r) := getQueryCtidBounds st snapshotID a in
  (q_timeout a = None → q_acquire a = None → last acts = Some Close) ∧
  (∀ b, r = inr (Some b) → q_ids a = inr (b_min b, b_max b) ∧ Valid (b_min b) = true ∧ Valid (b_max b) = true) ∧
  (is_Some (r' ← match r with inr x => Some x | inl _ => None end; Some r') → snapshotID ≠ EmptyString →
   acts = [Acquire; Begin; SetSnapshot (set_snapshot snapshotID);
           Ask (buildCtidBoundsQuery (ts_Name st) (whereClause st)); Rollback; Close]).
Proof.
  unfold getQueryCtidBounds. destruct (q_timeout a); [by split_and!; [..|intros [? ?]]|].
  destruct (q_acquire a); [by split_and!; [..|intros [? ?]]|].
  destruct (q_begin a); [by split_and!; [..|intros [? ?]]|].
  case_bool_decide as Hs; [|destruct (q_set a); [by split_and!; [..|intros [? ?]]|]];
    (split_and!; [done| |intros _ ?; done]); intros b; destruct (q_ids a) as [|[lo hi]]; try done;
    destruct (Valid lo) eqn:E1, (Valid hi) eqn:E2; try done; cbn; by intros [= <-].
Qed.
End Bounds.

(** ** The connection of the saved states *)

Module StateConnection.

(** [StateManager.conn]: nil, or a connection that may have been lost. *)
Inductive held := NoConn | Conn (id : nat) (isClosed : bool).

(** What happens at the database: connections are numbered as they are opened. *)
Inductive event := Opened (id : nat) | Used (id : nat) | ClosedConn (id : nat).

Record manager := mkManager { conn : held; next_id : nat; events : list event }.

Definition note (e : event) (m : manager) : manager := mkManager (conn m) (next_id m) (events m ++ [e]).

(** [StateManager.connection] *)
Definition connection (acquire : option goerr) (m : manager) : (goerr + nat) * manager :=
  match conn m with
  | Conn id false => (inr id, m)
  | _ => match acquire with
         | Some err => (inl (GoWrap "failed to acquire primary connection" err), m)
         | None => let id := next_id m in (inr id, mkManager (Conn id false) (S id) (events m ++ [Opened id]))
         end
  end.

(** [StateManager.withConnection], under the mutex; [outcome] is what the
    statement results in. *)
Definition withConnection (acquire outcome : option goerr) (m : manager) : option goerr * manager :=
  let '(r, m) := connection acquire m in
  match r with inl err => (Some err, m) | inr id => (outcome, note (Used id) m) end.

(** [StateManager.Close] *)
Definition Close (outcome : option goerr) (m : manager) : option goerr * manager :=
  match conn m with
  | NoConn => (None, m)
  | Conn id _ => (outcome, mkManager NoConn (next_id m) (events m ++ [ClosedConn id]))
  end.

(** The calls of the goroutines, one at a time under the mutex, and the loss of
    the connection that is held. *)
Inductive op := OUse (acquire outcome : option goerr) | OClose (outcome : option goerr) | OLost.
Definition step (o : op) (m : manager) : manager :=
  match o with
  | OUse a r => (withConnection a r m).2
  | OClose r => (Close r m).2
  | OLost => match conn m with Conn id _ => mkManager (Conn id true) (next_id m) (events m) | NoConn => m end
  end.
Definition run (os : list op) : manager := foldl (λ m o, step o m) (mkManager NoConn 0 []) os.

(** Ids are not used again; a statement runs on the connection opened last. *)
Record good (m : manager) : Prop := {
  g_opened id : Opened id ∈ events m → (id < next_id m)%nat;
  g_closed id : ClosedConn id ∈ events m → (id < next_id m)%nat;
  g_held id b : conn m = Conn id b →
    Opened id ∈ events m ∧ ClosedConn id ∉ events m ∧ ∀ id', Opened id' ∈ events m → (id' ≤ id)%nat;
  g_used evs1 id evs2 : events m = evs1 ++ Used id :: evs2 →
    Opened id ∈ evs1 ∧ ClosedConn id ∉ evs1 ∧ ∀ id', Opened id' ∈ evs1 → (id' ≤ id)%nat;
}.

(** Another event at the end, that is not a use. *)
Lemma used_app evs e evs1 id evs2 :
  (∀ id, e ≠ Used id) → evs ++ [e] = evs1 ++ Used id :: evs2 → ∃ evs3, evs = evs1 ++ Used id :: evs3.
Proof.
  intros He H. destruct evs2 as [|x evs2 _] using rev_ind.
  - apply app_inj_tail in H as [_ H]. by apply He in H.
  - rewrite app_comm_cons, (assoc_L (++)) in H. apply app_inj_tail in H as [-> _]. by exists evs2.
Qed.

Lemma good_connection acquire m r m' :
  connection acquire m = (r, m') → good m → good m' ∧ ∀ id, r = inr id → conn m' = Conn id false.
Proof.
  unfold connection. intros E Hg.
  assert (∀ m1 : manager, (match acquire with
         | Some err => (inl (GoWrap "failed to acquire primary connection" err), m)
         | None => (inr (next_id m), mkManager (Conn (next_id m) false) (S (next_id m)) (events m ++ [Opened (next_id m)]))
         end) = (r, m1) → good m1 ∧ ∀ id, r = inr id → conn m1 = Conn id false) as Hopen.
  { intros m1. destruct acquire as [err|]; intros [= <- <-]; [by split|]. split; [|by intros id [= <-]].
    destruct Hg as [Ho Hc Hh Hu]. split; cbn [events next_id conn].
    - intros id [Hi%Ho|Hi%list_elem_of_singleton]%elem_of_app; [lia|]. injection Hi as ->. lia.
    - intros id [Hi%Hc|Hi%list_elem_of_singleton]%elem_of_app; [lia|done].
    - intros id b [= <- <-]. split_and!.
      + apply elem_of_app. right. by left.
      + intros [Hi%Hc|Hi%list_elem_of_singleton]%elem_of_app; [lia|done].
      + intros id' [Hi%Ho|Hi%list_elem_of_singleton]%elem_of_app; [lia|]. injection Hi as ->. lia.
    - intros evs1 id evs2 [evs3 H]%used_app; [|done]. by eapply Hu. }
  destruct (conn m) as [|id [|]] eqn:Ec; [by apply Hopen in E..|]. injection E as <- <-. split; [done|]. by intros ? [= ->].
Qed.

Lemma good_note id m : conn m = Conn id false → good m → good (note (Used id) m).
Proof.
  intros Hid Hg. pose proof Hg as [Ho Hc Hh Hu]. split; cbn [note events next_id conn].
  - intros id' [Hi%Ho|Hi%list_elem_of_singleton]%elem_of_app; done.
  - intros id' [Hi%Hc|Hi%list_elem_of_singleton]%elem_of_app; done.
  - intros id' b Hb. destruct (Hh id' b Hb) as (H1 & H2 & H3). split_and!.
    + apply elem_of_app. by left.
    + intros [Hi|Hi%list_elem_of_singleton]%elem_of_app; done.
    + intros i [Hi|Hi%list_elem_of_singleton]%elem_of_app; [by apply H3|done].
  - intros evs1 id' evs2 H. destruct evs2 as [|x evs2 _] using rev_ind.
    + apply app_inj_tail in H as [<- [= <-]]. by apply (Hh id false).
    + rewrite app_comm_cons, (assoc_L (++)) in H. apply app_inj_tail in H as [H _]. by eapply Hu.
Qed.

Lemma good_step o m : good m → good (step o m).
Proof.
  intros Hg. destruct o as [acquire outcome|outcome|]; cbn [step].
  - unfold withConnection. destruct (connection acquire m) as [[err|id] m1] eqn:E;
      destruct (good_connection _ _ _ _ E Hg) as [Hg1 Hid]; [done|]. by apply good_note; [apply Hid|].
  - unfold Close. destruct (conn m) as [|id b] eqn:Ec; [done|]. pose proof Hg as [Ho Hc Hh Hu]. cbn [snd].
    split; cbn [events next_id conn]; [| |done|].
    + intros id' [Hi%Ho|Hi%list_elem_of_singleton]%elem_of_app; done.
    + intros id' [Hi%Hc|Hi%list_elem_of_singleton]%elem_of_app; [done|]. injection Hi as ->. apply Ho. by apply (Hh id b).
    + intros evs1 id' evs2 [evs3 H]%used_app; [|done]. by eapply Hu.
  - destruct (conn m) as [|id b] eqn:Ec; [done|]. destruct Hg as [Ho Hc Hh Hu]. split; cbn [events next_id conn]; [done..| |done].
    intros id' b' [= <- <-]. by apply (Hh id b).
Qed.

(** Every statement on the saved states runs on the connection that was opened
    last, which the program has not closed; and closing leaves none behind. *)
Lemma statements_on_last_connection os :
  (∀ evs1 id evs2, events (run os) = evs1 ++ Used id :: evs2 →
     Opened id ∈ evs1 ∧ ClosedConn id ∉ evs1 ∧ ∀ id', Opened id' ∈ evs1 → (id' ≤ id)%nat) ∧
  (∀ r, conn (Close r (run os)).2 = NoConn).
Proof.
  split.
  - assert (good (run os)) as [_ _ _ Hu]; [|exact Hu].
    unfold run. assert (good (mkManager NoConn 0 [])) as Hg.
    { split; cbn; try by intros ? ?%elem_of_nil. - done. - intros [|] ? ? H; discriminate H. }
    revert Hg. generalize (mkManager NoConn 0 []). induction os as [|o os IH]; intros m Hg; [done|]. by apply IH, good_step.
  - intros r. unfold Close. by destruct (conn (run os)) eqn:E; cbn [snd conn].
Qed.

(** A report that comes after [closeStateManager] opens a new connection, which
    nothing closes. *)
Example report_after_close :
  events (run [OUse None None; OClose None; OUse None None]) = [Opened 0; Used 0; ClosedConn 0; Opened 1; Used 1].
Proof. reflexivity. Qed.
End StateConnection.

(** ** The fields of the statistics *)

Module ProgressFields.
Import Tracker.

(** A field with its value; the percentage is a floating-point number that the
    arguments [fdiv] and [to_float] compute. *)
Inductive value {F : Type} := FInt (z : Z) | FFloat (f : F) | FString (s : string).
Arguments value : clear implicits.

Section fields.
Context {F : Type} (to_float : Z → F) (fmul fdiv : F → F → F) (lsn_string : Z → string).

(** The percentage of [Stats]. *)
Definition progressPercent (s : snapshotProgressStats) : F :=
  if bool_decide (0 < rowsTotalEstimated s)
  then fdiv (fmul (to_float (rowsProcessed s)) (to_float 100)) (to_float (rowsTotalEstimated s)) else to_float 0.

(** [getStatsAsFields]; the size of the listener's queue, if there is a listener. *)
Definition getStatsAsFields (s : snapshotProgressStats) (queue : option Z) : list (string * value F) :=
  [("snapshot_tables_total", FInt (tablesTotal s)); ("snapshot_tables_pending", FInt (tablesPending s));
   ("snapshot_tables_in_progress", FInt (tablesInProgress s)); ("snapshot_tables_completed", FInt (tablesCompleted s));
   ("snapshot_tables_failed", FInt (tablesFailed s)); ("snapshot_rows_processed", FInt (rowsProcessed s));
   ("snapshot_rows_total_estimated", FInt (rowsTotalEstimated s)); ("snapshot_rows_remaining_estimated", FInt (rowsRemaining s));
   ("snapshot_acked_lsn", FString (lsn_string (st_ackedLSN s)))] ++
  (if bool_decide (0 < rowsTotalEstimated s) then [("snapshot_progress_percent", FFloat (progressPercent s))] else []) ++
  match queue with Some n => [("snapshot_write_queue_size", FInt n)] | None => [] end.
End fields.

(** [snapshotStatsInterval] *)
Definition snapshotStatsInterval (statsInterval : Z) : Z :=
  if bool_decide (0 < statsInterval) then statsInterval else 60 * Second.

(** Each table is counted under exactly one state. *)
Lemma tables_counted t :
  let s := Stats t in
  tablesTotal s = tablesPending s + tablesInProgress s + tablesCompleted s + tablesFailed s ∧
  st_ackedLSN s = ackedLSN t.
Proof.
  cbv zeta. unfold Stats. set (s0 := mkStats _ 0 0 0 0 0 0 0 _).
  assert (∀ l, let s := foldr (λ kp s, count_table t kp.1 kp.2 s) s0 l in
    Z.of_nat (length l) = tablesPending s + tablesInProgress s + tablesCompleted s + tablesFailed s ∧
    tablesTotal s = tablesTotal s0 ∧ st_ackedLSN s = ackedLSN t) as H.
  { induction l as [|[k p] l (IH & IHt & IHl)]; [done|]. cbn [foldr length fst snd]. cbv zeta in *.
    set (s := foldr _ s0 l) in *. unfold count_table. cbn. split_and!; [|done|done].
    destruct (default StatusPending (status_of t k)); repeat case_bool_decide; try done; lia. }
  destruct (H (map_to_list (tables t))) as (H1 & H2 & H3). split; [|done]. rewrite H2, <- H1. cbn.
  by rewrite length_map_to_list.
Qed.
End ProgressFields.
