(* ===== verification/License.v ===== *)
(** * Licences (src/licensemanager)

    - [Base62]: texts in base 62 (base62/encoding.go), over [math/big];
    - [Binary]: the licence and its binary form (license.go);
    - [Manager]: signing, verification and the validity of a licence
      (license_manager.go, verify.go).

    A licence is encrypted, the result is signed, and both are printed in base
    62.  The cryptography (ed25519, AES-GCM) and the JSON form are arguments. A
    byte is a [Z] below 256, a slice of bytes a list whose capacity is its
    length: the slices here are whole results of [make], of [big.Int.Bytes] and
    of the cipher, and what follows a position in them. *)

From stdpp Require Import base numbers list gmap strings pretty.
From S2P Require Import Prelude GoStrings Decode.

Definition byte_range (b : Z) : Prop := 0 ≤ b < 256.

(** ** Digits *)

Module Base62.

(** The digits of a positive number, the last one first; a number has no more
    digits than bits. *)
Fixpoint low_digits (fuel : nat) (b z : Z) : list Z :=
  match fuel with
  | O => []
  | S fuel => if bool_decide (z ≤ 0) then [] else z `mod` b :: low_digits fuel b (z `div` b)
  end.
Definition digits (b z : Z) : list Z := rev (low_digits (Z.to_nat (Z.log2 z + 1)) b z).
Definition number (b : Z) (l : list Z) : Z := foldl (λ a d, a * b + d) 0 l.

(** [big.Int]'s [SetBytes], [Bytes], [Text] and [SetString], the last two for
    base 62. *)
Definition SetBytes (data : list Z) : Z := number 256 data.
Definition Bytes (i : Z) : list Z := digits 256 (Z.abs i).

Definition alphabet : list Ascii.ascii := to_list "0123456789abcdefghijklmnopqrstuvwxyzABCDEFGHIJKLMNOPQRSTUVWXYZ".
Definition base : Z := 62.
Definition Text (i : Z) : string :=
  let s := of_list (digit alphabet <$> digits base (Z.abs i)) in
  if bool_decide (i = 0) then "0" else if bool_decide (i < 0) then "-" +:+ s else s.

Definition digit_values (s : list Ascii.ascii) : option (list Z) := mapM (undigit alphabet) s.
Definition SetString (s : string) : option Z :=
  let '(neg, r) := match s with
                   | String c r => if bool_decide (c = Ascii.ascii_of_nat 45) then (true, r)
                                   else if bool_decide (c = Ascii.ascii_of_nat 43) then (false, r) else (false, s)
                   | EmptyString => (false, s)
                   end in
  match digit_values (to_list r) with
  | Some (d :: ds) => let v := number base (d :: ds) in Some (if neg : bool then - v else v)
  | _ => None
  end.

Definition EncodeToString (data : list Z) : res string := Ok (Text (SetBytes data)).
Definition DecodeString (s : string) : res (list Z) :=
  match SetString s with
  | Some i => Ok (Bytes i)
  | None => Err (GoErr "cannot parse base62")
  end.

(** A number has no zeros in front. *)
Fixpoint drop_zeros (l : list Z) : list Z :=
  match l with
  | d :: r => if bool_decide (d = 0) then drop_zeros r else l
  | [] => []
  end.

Lemma number_snoc b l d : number b (l ++ [d]) = number b l * b + d.
Proof. unfold number. by rewrite foldl_app. Qed.

Lemma number_drop_zeros b l : number b (drop_zeros l) = number b l.
Proof. unfold number. induction l as [|d l IH]; [done|]. simpl. case_bool_decide; [subst; apply IH|done]. Qed.

Lemma number_nonneg b l : 0 ≤ b → Forall (λ d, 0 ≤ d < b) l → 0 ≤ number b l.
Proof.
  intros Hb. induction l as [|d l IH] using rev_ind; [done|]. rewrite Forall_app, Forall_singleton, number_snoc.
  intros [?%IH ?]. nia.
Qed.

Lemma number_pos b l : 1 < b → Forall (λ d, 0 ≤ d < b) l → l ≠ [] → head l ≠ Some 0 → 0 < number b l.
Proof.
  intros Hb. induction l as [|d l IH] using rev_ind; [done|]. rewrite Forall_app, Forall_singleton, number_snoc.
  intros [Hl Hd] _ Hh. destruct (decide (l = [])) as [->|Hne].
  - unfold number. simpl in *. assert (d ≠ 0) by congruence. lia.
  - assert (0 < number b l); [|nia]. apply IH; [done|done|]. by destruct l.
Qed.

(** The digits of the number that a list of digits denotes are that list. *)
Lemma low_digits_number fuel b l :
  1 < b → Forall (λ d, 0 ≤ d < b) l → head l ≠ Some 0 → number b l < b ^ Z.of_nat fuel →
  rev (low_digits fuel b (number b l)) = l.
Proof.
  intros Hb. revert fuel. induction l as [|d l IH] using rev_ind; intros fuel.
  { intros. by destruct fuel. }
  rewrite Forall_app, Forall_singleton. intros [Hl Hd] Hh Hf.
  assert (0 < number b (l ++ [d])) as Hpos.
  { apply number_pos; [done|by rewrite Forall_app, Forall_singleton|by destruct l|done]. }
  rewrite number_snoc in *. destruct fuel as [|fuel]; [change (b ^ Z.of_nat 0) with 1 in Hf; lia|].
  cbn [low_digits]. rewrite bool_decide_false by lia. cbn [rev].
  rewrite Z.div_add_l, Z.div_small, Z.add_0_r, Z.add_comm, Z.mod_add, Z.mod_small by lia. f_equal.
  apply IH; [done|by destruct l|]. rewrite Nat2Z.inj_succ, Z.pow_succ_r in Hf by lia. nia.
Qed.

Lemma log2_fuel b z : 1 < b → 0 ≤ z → z < b ^ Z.of_nat (Z.to_nat (Z.log2 z + 1)).
Proof.
  intros Hb Hz. pose proof (Z.log2_nonneg z). rewrite Z2Nat.id by lia.
  destruct (decide (z = 0)) as [->|Hne]; [apply Z.pow_pos_nonneg; lia|].
  pose proof (Z.log2_spec z) as [_ H1]; [lia|]. rewrite Z.add_1_r. eapply Z.lt_le_trans; [exact H1|].
  apply Z.pow_le_mono_l. lia.
Qed.

Lemma digits_number b l : 1 < b → Forall (λ d, 0 ≤ d < b) l → digits b (number b l) = drop_zeros l.
Proof.
  intros Hb Hl. unfold digits. rewrite <- number_drop_zeros.
  assert (Forall (λ d, 0 ≤ d < b) (drop_zeros l)) as Hd.
  { clear -Hl. induction Hl as [|d l Hd Hl IH]; [constructor|]. simpl. case_bool_decide; [done|by constructor]. }
  apply low_digits_number; [done|done| |apply log2_fuel; [done|apply number_nonneg; [lia|done]]].
  clear. induction l as [|d l IH]; [done|]. simpl. case_bool_decide; [done|]. simpl. congruence.
Qed.

(** Conversely, the digits of a number denote it. *)
Lemma number_low_digits fuel b z : 1 < b → 0 ≤ z < b ^ Z.of_nat fuel → number b (rev (low_digits fuel b z)) = z.
Proof.
  intros Hb. revert z. induction fuel as [|fuel IH]; intros z Hz.
  { change (b ^ Z.of_nat 0) with 1 in Hz. replace z with 0 by lia. done. }
  cbn [low_digits]. case_bool_decide; [replace z with 0 by lia; done|]. cbn [rev].
  rewrite number_snoc, IH; [pose proof (Z.div_mod z b); lia|].
  rewrite Nat2Z.inj_succ, Z.pow_succ_r in Hz by lia. split; [apply Z.div_pos; lia|apply Z.div_lt_upper_bound; lia].
Qed.

Lemma number_digits b z : 1 < b → 0 ≤ z → number b (digits b z) = z.
Proof. intros Hb Hz. apply number_low_digits; [done|]. split; [done|by apply log2_fuel]. Qed.

Lemma low_digits_range fuel b z : 0 < b → Forall (λ d, 0 ≤ d < b) (low_digits fuel b z).
Proof.
  intros Hb. revert z. induction fuel as [|fuel IH]; intros z; simpl; [constructor|].
  case_bool_decide; constructor; [by apply Z.mod_pos_bound|done].
Qed.
Lemma digits_range b z : 0 < b → Forall (λ d, 0 ≤ d < b) (digits b z).
Proof. intros. unfold digits. rewrite Forall_forall. intros d Hd. rewrite list_elem_of_In, <- in_rev, <- list_elem_of_In in Hd.
  revert d Hd. apply Forall_forall. by apply low_digits_range. Qed.

Lemma alphabet_digit z : 0 ≤ z < 62 →
  undigit alphabet (digit alphabet z) = Some z ∧
  digit alphabet z ≠ Ascii.ascii_of_nat 45 ∧ digit alphabet z ≠ Ascii.ascii_of_nat 43.
Proof.
  intros Hz. apply (below_forall (λ z, bool_decide (undigit alphabet (digit alphabet z) = Some z) &&
    bool_decide (digit alphabet z ≠ Ascii.ascii_of_nat 45) && bool_decide (digit alphabet z ≠ Ascii.ascii_of_nat 43)) 62) in Hz.
  - apply andb_true_iff in Hz as [[?%bool_decide_eq_true ?%bool_decide_eq_true]%andb_true_iff ?%bool_decide_eq_true]. done.
  - vm_compute. reflexivity.
Qed.

Lemma digit_values_print ds : Forall (λ d, 0 ≤ d < 62) ds → digit_values (digit alphabet <$> ds) = Some ds.
Proof.
  unfold digit_values. induction 1 as [|d ds Hd _ IH]; [done|]. cbn [fmap list_fmap mapM].
  destruct (alphabet_digit d Hd) as [-> _]. simpl. by rewrite IH.
Qed.

Lemma SetString_Text i : 0 ≤ i → SetString (Text i) = Some i.
Proof.
  intros Hi. unfold Text. case_bool_decide as H0; [subst; by vm_compute|]. rewrite bool_decide_false, Z.abs_eq by lia.
  pose proof (number_digits base i ltac:(done) Hi) as Hnum.
  pose proof (digits_range base i ltac:(done)) as Hr. destruct (digits base i) as [|d ds] eqn:E; [by subst|].
  pose proof (digit_values_print (d :: ds) Hr) as Hv. unfold SetString. cbn [fmap list_fmap of_list] in *.
  apply Forall_inv in Hr. destruct (alphabet_digit d Hr) as (_ & Hm & Hp). rewrite !bool_decide_false by done.
  cbn [to_list]. rewrite to_of_list, Hv. by rewrite Hnum.
Qed.

(** A text in base 62 gives back the data but for the zero bytes in front. *)
Lemma decode_encode data : Forall byte_range data → (s ← EncodeToString data; DecodeString s) = Ok (drop_zeros data).
Proof.
  intros H. unfold EncodeToString. res_step. unfold DecodeString.
  assert (0 ≤ SetBytes data) as Hn by (by apply number_nonneg). rewrite SetString_Text by done.
  unfold Bytes. rewrite Z.abs_eq by done. f_equal. by apply digits_number.
Qed.
End Base62.

(** ** The binary form *)

Module Binary.

Definition uint16Size : Z := 2.
Definition uint32Size : Z := 4.
Definition uint64Size : Z := 8.
Definition BinaryVersion : Z := 1.
Definition JSONVersion : Z := 2.
Definition ErrInvalidVersion : goerr := GoErr "license version is invalid".

(** The times are seconds after the epoch of the licences. *)
Record License := mkLicense { Version : Z; Product : string; Customer : string; Start : Z; End_ : Z }.
Definition noLicense : License := mkLicense 0 "no_license" "no_customer" 0 0.

Definition bytes_of (s : string) : list Z := byte_val <$> to_list s.
Definition text_of (l : list Z) : string := of_list (byte_of <$> l).

(** [encoding/binary]'s big-endian integers. *)
Fixpoint be_bytes (k : nat) (v : Z) : list Z :=
  match k with O => [] | S k => be_bytes k (v `div` 256) ++ [v `mod` 256] end.
Definition be_value (l : list Z) : Z := Base62.number 256 l.

(** What was written, and the rest of the array that is still to be written. *)
Definition cursor : Type := list Z * list Z.
Definition put (k : nat) (v : Z) (c : cursor) : res cursor :=
  if bool_decide (k ≤ length c.2)%nat then Ok (c.1, be_bytes k v ++ drop k c.2) else Panic "index out of range".
Definition copy (bs : list Z) (c : cursor) : cursor :=
  (c.1, take (length c.2) bs ++ drop (length bs) c.2).
Definition skip (n : nat) (c : cursor) : res cursor :=
  if bool_decide (n ≤ length c.2)%nat then Ok (c.1 ++ take n c.2, drop n c.2) else Panic "slice bounds out of range".

Definition marshalBinary (l : License) : res (list Z) :=
  let prodLen := u32 (Z.of_nat (length (bytes_of (Product l)))) in
  let custLen := u32 (Z.of_nat (length (bytes_of (Customer l)))) in
  let totalSize := u32 (uint16Size + uint32Size + uint32Size + prodLen + uint32Size + custLen + uint64Size + uint64Size) in
  let lic := ([], replicate (Z.to_nat totalSize) 0) in
  lic ← put 2 (Version l) lic; lic ← skip 2 lic;
  lic ← put 4 totalSize lic; lic ← skip 4 lic;
  lic ← put 4 prodLen lic; lic ← skip 4 lic;
  lic ← skip (Z.to_nat prodLen) (copy (bytes_of (Product l)) lic);
  lic ← put 4 custLen lic; lic ← skip 4 lic;
  lic ← skip (Z.to_nat custLen) (copy (bytes_of (Customer l)) lic);
  lic ← put 8 (Start l) lic; lic ← skip 8 lic;
  lic ← put 8 (End_ l) lic;
  Ok (lic.1 ++ lic.2).

(** The first [n] bytes and the others. *)
Definition cut (n : nat) (data : list Z) : res (list Z * list Z) :=
  if bool_decide (n ≤ length data)%nat then Ok (take n data, drop n data) else Panic "slice bounds out of range".

Definition unmarshalBinaryLicense (data : list Z) : res License :=
  '(_, data) ← cut 4 data;
  '(prodLen, data) ← cut 4 data;
  '(product, data) ← cut (Z.to_nat (be_value prodLen)) data;
  '(custLen, data) ← cut 4 data;
  '(customer, data) ← cut (Z.to_nat (be_value custLen)) data;
  '(start, data) ← cut 8 data;
  '(end_, _) ← cut 8 data;
  Ok (mkLicense BinaryVersion (text_of product) (text_of customer) (be_value start) (be_value end_)).

Section json.
(** [json.Marshal] and [json.Unmarshal] of a licence. *)
Context (json_marshal : License → goerr + list Z) (json_unmarshal : list Z → goerr + License).

Definition marshalJSON (l : License) : res (list Z) :=
  match json_marshal l with
  | inl err => Err err
  | inr j => lic ← put 2 (Version l) ([], replicate (length j + 2) 0); lic ← skip 2 lic;
             let lic := copy j lic in Ok (lic.1 ++ lic.2)
  end.

Definition Marshal (l : License) : res (list Z) :=
  if bool_decide (Version l = BinaryVersion) then marshalBinary l
  else if bool_decide (Version l = JSONVersion) then marshalJSON l
  else Err ErrInvalidVersion.

Definition unmarshalJSONLicense (data : list Z) : res License :=
  match json_unmarshal data with
  | inl err => Err err
  | inr l => Ok (mkLicense JSONVersion (Product l) (Customer l) (Start l) (End_ l))
  end.

Definition UnmarshalLicense (data : list Z) : res License :=
  '(version, data) ← cut 2 data;
  if bool_decide (be_value version = BinaryVersion) then unmarshalBinaryLicense data
  else if bool_decide (be_value version = JSONVersion) then unmarshalJSONLicense data
  else Err ErrInvalidVersion.
End json.

(** *** Round trip *)

Lemma be_bytes_length k v : length (be_bytes k v) = k.
Proof. revert v. induction k as [|k IH]; intros v; [done|]. simpl. rewrite length_app, IH. simpl. lia. Qed.

Lemma be_bytes_range k v : Forall byte_range (be_bytes k v).
Proof.
  revert v. induction k as [|k IH]; intros v; [constructor|]. simpl. apply Forall_app. split; [done|].
  apply Forall_singleton. unfold byte_range. euclid.
Qed.

Lemma be_value_bytes k v : 0 ≤ v < 256 ^ Z.of_nat k → be_value (be_bytes k v) = v.
Proof.
  revert v. induction k as [|k IH]; intros v Hv; [change (256 ^ Z.of_nat 0) with 1 in Hv; replace v with 0 by lia; done|].
  unfold be_value in *. cbn [be_bytes]. rewrite Base62.number_snoc, IH; [pose proof (Z.div_mod v 256); lia|].
  rewrite Nat2Z.inj_succ, Z.pow_succ_r in Hv by lia. split; [apply Z.div_pos; lia|apply Z.div_lt_upper_bound; lia].
Qed.

Lemma be_value4 v : 0 ≤ v < two32 → be_value (be_bytes 4 v) = v.
Proof. intros. apply be_value_bytes. change (256 ^ Z.of_nat 4) with two32. lia. Qed.
Lemma be_value8 v : 0 ≤ v < two64 → be_value (be_bytes 8 v) = v.
Proof. intros. apply be_value_bytes. change (256 ^ Z.of_nat 8) with two64. lia. Qed.

Lemma bytes_of_range s : Forall byte_range (bytes_of s).
Proof. unfold bytes_of. apply Forall_fmap, Forall_forall. intros c _. apply byte_val_range. Qed.

Lemma text_bytes s : text_of (bytes_of s) = s.
Proof.
  unfold text_of, bytes_of. rewrite <- list_fmap_compose. rewrite <- (of_to_list s) at 2. f_equal.
  rewrite <- (list_fmap_id (to_list s)) at 2. apply list_fmap_ext. intros i c _. apply byte_of_val.
Qed.

(** Writing an integer or a text and going on. *)
Lemma put_skip {B} k v done n (f : cursor → res B) :
  (k ≤ n)%nat →
  (c ← put k v (done, replicate n 0); c ← skip k c; f c) = f (done ++ be_bytes k v, replicate (n - k) 0).
Proof.
  intros Hk. unfold put, skip. cbn [fst snd]. rewrite length_replicate, bool_decide_true by done. res_step. cbn [fst snd].
  rewrite bool_decide_true by (rewrite length_app, be_bytes_length; lia).
  res_step. rewrite take_app_length', drop_app_length' by (by rewrite be_bytes_length). by rewrite drop_replicate.
Qed.

Lemma copy_skip {B} bs done n (f : cursor → res B) :
  (length bs ≤ n)%nat →
  (c ← skip (length bs) (copy bs (done, replicate n 0)); f c) = f (done ++ bs, replicate (n - length bs) 0).
Proof.
  intros Hk. unfold copy, skip. cbn [fst snd]. rewrite length_replicate, take_ge by lia.
  rewrite bool_decide_true by (rewrite length_app; lia). res_step.
  rewrite take_app_length', drop_app_length' by done. by rewrite drop_replicate.
Qed.

Lemma cut_app {B} n bs r (f : list Z * list Z → res B) : length bs = n → (c ← cut n (bs ++ r); f c) = f (bs, r).
Proof.
  intros <-. unfold cut. rewrite bool_decide_true by (rewrite length_app; lia). res_step.
  by rewrite take_app_length, drop_app_length.
Qed.

(** A licence whose texts are short enough to be counted and whose times have 64 bits. *)
Definition fits (l : License) : Prop :=
  Z.of_nat (length (bytes_of (Product l)) + length (bytes_of (Customer l))) + 30 < two32 ∧
  0 ≤ Start l < two64 ∧ 0 ≤ End_ l < two64.

Definition binary_form (l : License) : list Z :=
  let pl := Z.of_nat (length (bytes_of (Product l))) in
  let cl := Z.of_nat (length (bytes_of (Customer l))) in
  be_bytes 2 (Version l) ++ be_bytes 4 (pl + cl + 30) ++ be_bytes 4 pl ++ bytes_of (Product l) ++
  be_bytes 4 cl ++ bytes_of (Customer l) ++ be_bytes 8 (Start l) ++ be_bytes 8 (End_ l).

Lemma marshalBinary_form l : fits l → marshalBinary l = Ok (binary_form l).
Proof.
  intros (Hlen & _). unfold marshalBinary, binary_form. cbv zeta.
  set (p := bytes_of (Product l)) in *. set (c := bytes_of (Customer l)) in *. clearbody p c.
  unfold uint16Size, uint32Size, uint64Size. rewrite !(u32_small (Z.of_nat _)) by lia.
  rewrite u32_small by lia. replace (2 + 4 + 4 + Z.of_nat (length p) + 4 + Z.of_nat (length c) + 8 + 8) with (Z.of_nat (length p) + Z.of_nat (length c) + 30) by lia.
  replace (Z.to_nat (Z.of_nat (length p) + Z.of_nat (length c) + 30)) with (2 + (4 + (4 + (length p + (4 + (length c + (8 + 8)))))))%nat by lia.
  rewrite !Nat2Z.id. repeat first [rewrite put_skip by lia | rewrite copy_skip by lia].
  unfold put. cbn [fst snd]. rewrite length_replicate, bool_decide_true by lia. res_step. cbn [fst snd].
  rewrite drop_replicate. replace (_ - 8 - 8)%nat with 0%nat by lia. f_equal. rewrite app_nil_l, <- !(assoc_L (++)), app_nil_r. done.
Qed.

Lemma unmarshalBinary_form l :
  fits l → Version l = BinaryVersion → unmarshalBinaryLicense (drop 2 (binary_form l)) = Ok l.
Proof.
  intros (Hlen & Hs & He) Hv. unfold binary_form. cbv zeta. rewrite drop_app_length' by (by rewrite be_bytes_length).
  unfold unmarshalBinaryLicense. rewrite cut_app by apply be_bytes_length.
  rewrite cut_app by apply be_bytes_length.
  rewrite be_value4, Nat2Z.id, cut_app by (done || lia).
  rewrite cut_app by apply be_bytes_length.
  rewrite be_value4, Nat2Z.id, cut_app by (done || lia).
  rewrite cut_app by apply be_bytes_length. rewrite <- (app_nil_r (be_bytes 8 (End_ l))), cut_app by apply be_bytes_length.
  rewrite !text_bytes, !be_value8 by lia. destruct l; simpl in *. by subst.
Qed.

Lemma binary_form_range l : Forall byte_range (binary_form l).
Proof.
  unfold binary_form. cbv zeta. rewrite !Forall_app. pose proof bytes_of_range as Hb. pose proof be_bytes_range as Hr.
  split_and!; auto.
Qed.

(** [d] is the marshalled licence, and is read back as it was. *)
Definition marshalled (jm : License → goerr + list Z) (ju : list Z → goerr + License) (l : License) (d : list Z) : Prop :=
  Marshal jm l = Ok d ∧ Forall byte_range d ∧ UnmarshalLicense ju d = Ok l.

Lemma marshalled_binary jm ju l : fits l → Version l = BinaryVersion → marshalled jm ju l (binary_form l).
Proof.
  intros Hf Hv. unfold marshalled, Marshal. rewrite bool_decide_true, marshalBinary_form by done.
  split_and!; [done|apply binary_form_range|].
  pose proof (unmarshalBinary_form l Hf Hv) as Hun. unfold UnmarshalLicense.
  assert (binary_form l = be_bytes 2 (Version l) ++ drop 2 (binary_form l)) as ->.
  { unfold binary_form. cbv zeta. by rewrite drop_app_length' by (by rewrite be_bytes_length). }
  rewrite cut_app by apply be_bytes_length. by rewrite Hv, bool_decide_true by done.
Qed.

(** What [encoding/json] promises: a licence with ASCII texts is written, and
    read as it was.  (Texts that are not valid UTF-8 would be changed.) *)
Definition ascii_text (s : string) : Prop := Forall (λ b, b < 128) (bytes_of s).
Definition json_ok (jm : License → goerr + list Z) (ju : list Z → goerr + License) : Prop :=
  ∀ l, fits l → Version l = JSONVersion → ascii_text (Product l) → ascii_text (Customer l) →
    ∃ j, jm l = inr j ∧ Forall byte_range j ∧ ju j = inr l.

Lemma marshalled_json jm ju l :
  json_ok jm ju → fits l → Version l = JSONVersion → ascii_text (Product l) → ascii_text (Customer l) →
  ∃ d, marshalled jm ju l d.
Proof.
  intros Hj Hf Hv Hp Hc. destruct (Hj l Hf Hv Hp Hc) as (j & Hjm & Hr & Hju).
  exists (be_bytes 2 (Version l) ++ j). split_and!.
  - unfold Marshal. rewrite bool_decide_false, bool_decide_true by (rewrite Hv; done).
    unfold marshalJSON. rewrite Hjm, put_skip by lia. unfold copy. cbn [fst snd].
    replace (length j + 2 - 2)%nat with (length j) by lia. rewrite length_replicate, drop_replicate, Nat.sub_diag, take_ge by done.
    by rewrite app_nil_r.
  - apply Forall_app. split; [apply be_bytes_range|done].
  - unfold UnmarshalLicense. rewrite cut_app by apply be_bytes_length. rewrite Hv.
    rewrite be_value_bytes by done. rewrite bool_decide_false, bool_decide_true by done.
    unfold unmarshalJSONLicense. rewrite Hju. destruct l; simpl in *. by subst.
Qed.
End Binary.

(** ** Signing and verifying *)

Module Manager.
Import Binary.

(** The times that are printed and compared, in nanoseconds after 1970. *)
Definition day : Z := 86400000000000.
Definition second : Z := 1000000000.
Definition epochStart : Z := 20180 * day.

(** [AsDate]: midnight (UTC) of the day; the product of the seconds has 64 bits. *)
Definition AsDate (lt : Z) : Z := (epochStart + i64 (i64 lt * second)) `div` day * day.

Definition ErrSignatureVerificationFailed : goerr := GoErr "signature verification failed".
Definition ErrDecryptionFailed : goerr := GoErr "decryption failed".
Definition ErrEncryptionFailed : goerr := GoErr "encryption failed".
Definition nonceLength : nat := 12.

Section manager.
Context (json_marshal : License → goerr + list Z) (json_unmarshal : list Z → goerr + License).
(** [ed25519.Sign] and [ed25519.Verify] for keys of the right length, and the
    cipher's [Seal] and [Open] for a key, a nonce and no further data. *)
Context (ed_sign : list Z → list Z → list Z) (ed_verify : list Z → list Z → list Z → bool).
Context (seal : list Z → list Z → list Z → list Z) (open_ : list Z → list Z → list Z → option (list Z)).

(** [aes.NewCipher]; [cipher.NewGCM] accepts every AES cipher. *)
Definition NewCipher (key : list Z) : bool := bool_decide (length key ∈ [16; 24; 32]%nat).
Definition Sign_ (privateKey msg : list Z) : res (list Z) :=
  if bool_decide (length privateKey = 64%nat) then Ok (ed_sign privateKey msg) else Panic "ed25519: bad private key length".
Definition Verify_ (publicKey msg sig : list Z) : res bool :=
  if bool_decide (length publicKey = 32%nat) then Ok (ed_verify publicKey msg sig) else Panic "ed25519: bad public key length".

Record Signer := mkSigner { s_aesKey : list Z; privateKey : list Z }.
Record Verifier := mkVerifier { v_aesKey : list Z; publicKey : list Z }.

(** [nonce] is what the random source gives; an error of it otherwise. *)
Definition encryptLicense (lm : Signer) (nonce : goerr + list Z) (l : License) : res (list Z) :=
  licenseData ← Marshal json_marshal l;
  if NewCipher (s_aesKey lm) then
    match nonce with
    | inl err => Err (GoWrap "nonce failed" (GoJoin ErrEncryptionFailed err))
    | inr nonce => Ok (nonce ++ seal (s_aesKey lm) nonce licenseData)
    end
  else Err (GoWrap "newcipher failed" ErrEncryptionFailed).

Definition Sign (lm : Signer) (nonce : goerr + list Z) (l : License) : res (list Z) :=
  encrypted ← encryptLicense lm nonce l;
  signature ← Sign_ (privateKey lm) encrypted;
  Ok (signature ++ encrypted).

Definition decrypt (v : Verifier) (encrypted : list Z) : res (list Z) :=
  if bool_decide (length encrypted < nonceLength)%nat then Err (GoWrap "encrypted data is too short" ErrDecryptionFailed)
  else if NewCipher (v_aesKey v) then
    match open_ (v_aesKey v) (take nonceLength encrypted) (drop nonceLength encrypted) with
    | Some decrypted => Ok decrypted
    | None => Err (GoWrap "decrypt failed" ErrDecryptionFailed)
    end
  else Err (GoWrap "newcipher failed" ErrDecryptionFailed).

Definition ReadAndVerifyLicense (v : Verifier) (licenseData : list Z) : res License :=
  '(signature, encryptedData) ← cut 64 licenseData;
  ok ← Verify_ (publicKey v) encryptedData signature;
  if negb ok then Err ErrSignatureVerificationFailed
  else licenseData ← decrypt v encryptedData; UnmarshalLicense json_unmarshal licenseData.

(** [AllProductsPublicKeys] and [AESKey], in hexadecimal. *)
Definition AllProductsPublicKeys : gmap string string :=
  {[ "pg2sqs" := "1f61afae08769fc2be99ac36386da948ebfcb006cd26172df0151f837899bda9";
     "pg2redis" := "f8b3ae33c3e2e8b83e36774642ebc936df2434f5de0c3f2758471335f1a7adc9" ]}.
Definition AESKey : string := "46b95ecd40a4ffc6b5214813050ba30c34077040ba3f77be49138683bc7a2991".

Definition ReadAndVerifyLicenseFromBase62 (product : string) (today : Z) (licBase62 : string) : res License :=
  match AllProductsPublicKeys !! product with
  | None => Err (GoErr "not a valid product")
  | Some publicKeyStr =>
      match hex_decode (to_list AESKey), hex_decode (to_list publicKeyStr) with
      | None, _ => Err (GoErr "failed to decode AES key")
      | Some _, None => Err (GoErr "failed to decode public key")
      | Some aesKey, Some publicKey =>
          match Base62.DecodeString licBase62 with
          | Err err => Err (GoWrap "failed to parse license" err)
          | Panic m => Panic m | Fatal m => Fatal m
          | Ok licenseData =>
              match ReadAndVerifyLicense (mkVerifier aesKey publicKey) licenseData with
              | Err err => Err (GoWrap "failed to verify license" err)
              | Panic m => Panic m | Fatal m => Fatal m
              | Ok license =>
                  if bool_decide (AsDate (Start license) ≤ today) && bool_decide (today < AsDate (End_ license))
                  then Ok license else Err (GoErr "license is not valid at today")
              end
          end
      end
  end.

(** *** At the start of the program *)

(** The environment, and the file system: the content or whether the file is
    missing. *)
Context (getenv : string → string) (read_file : string → bool + string).
Definition ErrLicNotFound : goerr := GoErr "license not found".
Definition ErrLicFileNotExist : goerr := GoErr "license file does not exist".
Definition ErrLicFileReadError : goerr := GoErr "failed to read license file".

Definition tryReadFromLicenseFile (product : string) : res string :=
  let licFile := getenv ("PGWALK_LICFILE_" +:+ ToUpper product) in
  if bool_decide (licFile = EmptyString) then Ok EmptyString
  else match read_file licFile with
       | inr data => Ok (TrimSpace data)
       | inl missing => Err (if missing : bool then ErrLicFileNotExist else ErrLicFileReadError)
       end.

(** The licence that becomes [currentLicense]. *)
Definition VerifyAndSetLicenseFromEnv (product : string) (today : Z) : res License :=
  let fromEnv := getenv ("PGWALK_LIC_" +:+ ToUpper product) in
  licenseFromEnv ← (if bool_decide (fromEnv = EmptyString) then tryReadFromLicenseFile product else Ok fromEnv);
  if bool_decide (licenseFromEnv = EmptyString) then Err ErrLicNotFound
  else ReadAndVerifyLicenseFromBase62 product today licenseFromEnv.

(** *** A licence is read as it was signed *)

(** What the cryptography promises for a pair of keys. *)
Definition key_pair (pub priv : list Z) : Prop :=
  length priv = 64%nat ∧ length pub = 32%nat ∧
  ∀ msg, ed_verify pub msg (ed_sign priv msg) = true ∧
         length (ed_sign priv msg) = 64%nat ∧ Forall byte_range (ed_sign priv msg).
Definition cipher_ok : Prop :=
  ∀ key nonce data, open_ key nonce (seal key nonce data) = Some data ∧
                    (Forall byte_range data → Forall byte_range (seal key nonce data)).

Definition product_key (product : string) : option (list Z) :=
  k ← AllProductsPublicKeys !! product; hex_decode (to_list k).
Definition aes_key : list Z := default [] (hex_decode (to_list AESKey)).

Lemma aes_key_ok : hex_decode (to_list AESKey) = Some aes_key ∧ NewCipher aes_key = true.
Proof using Type. split; vm_compute; reflexivity. Qed.

Lemma Sign_exact pub priv nonce l d :
  key_pair pub priv → length nonce = nonceLength → Marshal json_marshal l = Ok d →
  Sign (mkSigner aes_key priv) (inr nonce) l = Ok (let enc := nonce ++ seal aes_key nonce d in ed_sign priv enc ++ enc).
Proof using Type.
  intros (Hpriv & _ & _) Hn Hm. unfold Sign, encryptLicense. simpl s_aesKey. simpl privateKey.
  rewrite Hm. res_step. rewrite (proj2 aes_key_ok). res_step. unfold Sign_. by rewrite bool_decide_true by done.
Qed.

Lemma Verify_signed pub priv nonce l d :
  key_pair pub priv → cipher_ok → length nonce = nonceLength → UnmarshalLicense json_unmarshal d = Ok l →
  let enc := nonce ++ seal aes_key nonce d in
  ReadAndVerifyLicense (mkVerifier aes_key pub) (ed_sign priv enc ++ enc) = Ok l.
Proof using Type.
  intros (_ & Hpub & Hsig) Hc Hn Hu enc. destruct (Hsig enc) as (H1 & H2 & _). unfold ReadAndVerifyLicense.
  rewrite cut_app by done. unfold Verify_. simpl publicKey. rewrite bool_decide_true, H1 by done. res_step. simpl negb. cbv iota.
  unfold decrypt. rewrite bool_decide_false by (subst enc; rewrite length_app; lia). simpl v_aesKey.
  rewrite (proj2 aes_key_ok). subst enc. rewrite take_app_length', drop_app_length' by done.
  destruct (Hc aes_key nonce d) as [-> _]. done.
Qed.

(** A licence that was signed with the key of a product, encrypted and printed in
    base 62 is read back as it was, with the same version, texts and times,
    exactly on the days from its start up to, but without, its end; on other
    days it is refused.  This is so when the signature does not start with a
    zero byte: the printed number loses such bytes, so the text stands for the
    data without them. *)
Lemma signed_license_read_back product pub priv nonce l d today :
  product_key product = Some pub → key_pair pub priv → cipher_ok →
  length nonce = nonceLength → Forall byte_range nonce → marshalled json_marshal json_unmarshal l d →
  ∃ data text,
    Sign (mkSigner aes_key priv) (inr nonce) l = Ok data ∧ Base62.EncodeToString data = Ok text ∧
    Base62.DecodeString text = Ok (Base62.drop_zeros data) ∧
    (head data ≠ Some 0 →
     ReadAndVerifyLicenseFromBase62 product today text =
       if bool_decide (AsDate (Start l) ≤ today < AsDate (End_ l)) then Ok l
       else Err (GoErr "license is not valid at today")).
Proof using Type.
  intros Hp Hk Hc Hn Hnr (Hm & Hdr & Hu).
  set (enc := nonce ++ seal aes_key nonce d). set (data := ed_sign priv enc ++ enc).
  exists data, (Base62.Text (Base62.SetBytes data)).
  assert (Forall byte_range data) as Hr.
  { destruct Hk as (_ & _ & Hs). apply Forall_app. split; [apply Hs|]. apply Forall_app. split; [done|]. by apply Hc. }
  pose proof (Base62.decode_encode data Hr) as Hd. unfold Base62.EncodeToString in *. cbn [mbind res_bind] in Hd.
  split_and!; [by apply (Sign_exact pub)|done|done|]. intros Hh. unfold ReadAndVerifyLicenseFromBase62, product_key in *.
  destruct (AllProductsPublicKeys !! product) as [k|]; [|done]. simpl in Hp. rewrite (proj1 aes_key_ok), Hp, Hd.
  assert (Base62.drop_zeros data = data) as ->.
  { destruct data as [|x r]; [done|]. simpl in *. by rewrite bool_decide_false by congruence. }
  pose proof (Verify_signed pub priv nonce l d Hk Hc Hn Hu) as Hrd. cbv zeta in Hrd. fold enc data in Hrd. rewrite Hrd.
  by rewrite bool_decide_and.
Qed.

(** Whatever text is accepted was signed with the product's key. *)
Lemma accepted_license_signed product today text l :
  ReadAndVerifyLicenseFromBase62 product today text = Ok l →
  ∃ pub sig enc plain,
    product_key product = Some pub ∧ Base62.DecodeString text = Ok (sig ++ enc) ∧ length sig = 64%nat ∧
    ed_verify pub enc sig = true ∧ open_ aes_key (take nonceLength enc) (drop nonceLength enc) = Some plain ∧
    UnmarshalLicense json_unmarshal plain = Ok l ∧ AsDate (Start l) ≤ today < AsDate (End_ l).
Proof using Type.
  unfold ReadAndVerifyLicenseFromBase62, product_key. rewrite (proj1 aes_key_ok).
  destruct (AllProductsPublicKeys !! product) as [k|]; [|done]. simpl. destruct (hex_decode (to_list k)) as [pub|]; [|done].
  destruct (Base62.DecodeString text) as [d| | |]; try done.
  unfold ReadAndVerifyLicense, cut. destruct (bool_decide_reflect (64 ≤ length d)%nat) as [Hlen|]; [|done]. res_step.
  unfold Verify_. simpl publicKey. destruct (bool_decide_reflect (length pub = 32%nat)); [|done]. res_step.
  destruct (ed_verify pub (drop 64 d) (take 64 d)) eqn:Hver; [|done]. simpl negb. cbv iota.
  unfold decrypt. case_bool_decide; [done|]. simpl v_aesKey. rewrite (proj2 aes_key_ok).
  destruct (open_ aes_key _ _) as [plain|] eqn:Hop; [|done]. res_step.
  destruct (UnmarshalLicense json_unmarshal plain) as [l'| | |] eqn:Hun; try done. rewrite <- bool_decide_and.
  case_bool_decide; [|done]. intros [= ->]. exists pub, (take 64 d), (drop 64 d), plain.
  rewrite take_drop, length_take. split_and!; try done; lia.
Qed.
End manager.
End Manager.

(** ** Concrete licences *)

Module Samples.
Import Binary Manager.

Definition no_json_out (_ : License) : goerr + list Z := inl (GoErr "json").
Definition no_json_in (_ : list Z) : goerr + License := inl (GoErr "json").

(** A signature that anyone can compute, and a cipher that hides nothing. *)
Definition sign_with (first : Z) (_ msg : list Z) : list Z := first :: replicate 63 (Z.of_nat (length msg) `mod` 256).
Definition verify_with (first : Z) (_ msg sig : list Z) : bool := bool_decide (sig = sign_with first [] msg).
Definition plain (_ _ data : list Z) : list Z := data.
Definition read_plain (_ _ data : list Z) : option (list Z) := Some data.

Definition sqs_key : list Z := default [] (product_key "pg2sqs").
Definition private_key : list Z := replicate 64 1.
Definition nonce : list Z := replicate 12 5.
Definition year_licence : License := mkLicense 1 "pg2sqs" "someone" 0 (364 * 86400).

Lemma sample_keys first : byte_range first → key_pair (sign_with first) (verify_with first) sqs_key private_key.
Proof.
  intros Hf. split_and!; [done|vm_compute; reflexivity|]. intros msg. unfold verify_with.
  split_and!; [by apply bool_decide_true|done|]. constructor; [done|]. apply Forall_replicate. unfold byte_range.
  apply Z.mod_pos_bound. lia.
Qed.

Lemma sample_cipher : cipher_ok plain read_plain.
Proof. by intros key n data. Qed.

Lemma signed_license_read_back_witness :
  ∃ data text,
    Sign no_json_out (sign_with 7) plain (mkSigner aes_key private_key) (inr nonce) year_licence = Ok data ∧
    Base62.EncodeToString data = Ok text ∧ Base62.DecodeString text = Ok (Base62.drop_zeros data) ∧
    (head data ≠ Some 0 →
     ReadAndVerifyLicenseFromBase62 no_json_in (verify_with 7) read_plain "pg2sqs" epochStart text =
       if bool_decide (AsDate 0 ≤ epochStart < AsDate (364 * 86400)) then Ok year_licence
       else Err (GoErr "license is not valid at today")).
Proof.
  apply (signed_license_read_back no_json_out no_json_in (sign_with 7) (verify_with 7) plain read_plain
           "pg2sqs" sqs_key private_key nonce year_licence (binary_form year_licence) epochStart).
  - vm_compute. reflexivity.
  - apply sample_keys. by vm_compute.
  - apply sample_cipher.
  - reflexivity.
  - by apply Forall_replicate; vm_compute.
  - apply marshalled_binary; by vm_compute.
Defined.

(** A JSON that is the binary form without its version. *)
Definition some_json_out (l : License) : goerr + list Z :=
  inr (drop 2 (binary_form (mkLicense BinaryVersion (Product l) (Customer l) (Start l) (End_ l)))).
Definition some_json_in (d : list Z) : goerr + License :=
  match unmarshalBinaryLicense d with
  | Ok l => inr (mkLicense JSONVersion (Product l) (Customer l) (Start l) (End_ l))
  | _ => inl (GoErr "json")
  end.
Lemma some_json_ok : json_ok some_json_out some_json_in.
Proof.
  intros l Hf Hv _ _. eexists. split; [done|].
  split; [apply Forall_drop, binary_form_range|]. unfold some_json_in. rewrite unmarshalBinary_form by done.
  destruct l; simpl in *. by subst.
Qed.

Definition read_at (first : Z) (today : Z) : res License :=
  data ← Sign no_json_out (sign_with first) plain (mkSigner aes_key private_key) (inr nonce) year_licence;
  text ← Base62.EncodeToString data;
  ReadAndVerifyLicenseFromBase62 no_json_in (verify_with first) read_plain "pg2sqs" today text.

(** It is valid up to the day before its end; on the day that was printed as its
    end it is not. *)
Example valid_until_end :
  read_at 7 epochStart = Ok year_licence ∧ read_at 7 (epochStart + 364 * day - 1) = Ok year_licence ∧
  read_at 7 (epochStart + 364 * day) = Err (GoErr "license is not valid at today").
Proof. split_and!; vm_compute; reflexivity. Qed.

(** A signature that starts with a zero byte, as one in 256 does, is lost. *)
Example zero_signature_refused :
  read_at 0 epochStart = Err (GoWrap "failed to verify license" ErrSignatureVerificationFailed).
Proof. vm_compute. reflexivity. Qed.

(** A text that is too short ends the program with a panic, not with an error. *)
Example short_text_panics :
  VerifyAndSetLicenseFromEnv no_json_in (verify_with 7) read_plain
    (λ v, if bool_decide (v = "PGWALK_LIC_PG2SQS") then "abc" else EmptyString) (λ _, inl true) "pg2sqs" epochStart =
  Panic "slice bounds out of range".
Proof. vm_compute. reflexivity. Qed.

(** The time in 64 bits: seconds so large that their nanoseconds wrap around
    give a day in the past. *)
Example far_end_wraps : AsDate (2 ^ 34) < AsDate 0.
Proof. vm_compute. reflexivity. Qed.
End Samples.
