(* ===== verification/LicenseIssue.v ===== *)
(** * Issuing licences

    The dates of src/licensemanager/parse_date.go, the times of licences
    ([CalculateLicenseTime] of src/licensemanager/license_manager.go), and the
    commands that sign and verify licences
    (src/licensemanager/cmd/main.go).

    A date is the number of days after 1970-01-01; the calendar of Go's package
    time is defined here on unbounded numbers (Go's own wraps around beyond
    292 billion years).  The flags and what the file system answers are
    arguments of the commands, whose result is an exit code or the text
    printed. *)

From stdpp Require Import base numbers list gmap strings pretty.
From S2P Require Import Prelude GoStrings Decode RedisCommand License.

(** ** The calendar *)

Definition leap (y : Z) : bool :=
  bool_decide (y `mod` 4 = 0) && (negb (bool_decide (y `mod` 100 = 0)) || bool_decide (y `mod` 400 = 0)).
Definition days_in (m y : Z) : Z :=
  if bool_decide (m = 2) then if leap y then 29 else 28
  else if bool_decide (m ∈ [4; 6; 9; 11]) then 30 else 31.

(** Years that begin with March: the years and days before a date. *)
Definition march_days (y : Z) : Z := 365 * y + y `div` 4 - y `div` 100 + y `div` 400.
Definition month_days (mp : Z) : Z := (153 * mp + 2) `div` 5.

Definition days_of (y m d : Z) : Z :=
  let '(y', mp) := if bool_decide (m ≤ 2) then (y - 1, m + 9) else (y, m - 3) in
  march_days y' + month_days mp + d - 1 - 719468.

Definition civil_of (n : Z) : Z * Z * Z :=
  let z := n + 719468 in
  let era := z `div` 146097 in
  let doe := z - era * 146097 in
  let yoe := (doe - doe `div` 1460 + doe `div` 36524 - doe `div` 146096) `div` 365 in
  let doy := doe - (365 * yoe + yoe `div` 4 - yoe `div` 100) in
  let mp := (5 * doy + 2) `div` 153 in
  let d := doy - month_days mp + 1 in
  let m := if bool_decide (mp < 10) then mp + 3 else mp - 9 in
  let y := yoe + era * 400 in
  ((if bool_decide (m ≤ 2) then y + 1 else y), m, d).

Lemma yoe_exact yoe doy :
  0 ≤ yoe < 400 → 0 ≤ doy ≤ 365 → (doy = 365 → (yoe + 1) `mod` 4 = 0 ∧ ((yoe + 1) `mod` 100 ≠ 0 ∨ yoe = 399)) →
  let doe := 365 * yoe + yoe `div` 4 - yoe `div` 100 + doy in
  (doe - doe `div` 1460 + doe `div` 36524 - doe `div` 146096) `div` 365 = yoe ∧ 0 ≤ doe < 146097.
Proof.
  intros H1 H2 H3 doe. subst doe.
  assert (∃ c q r, yoe = 100 * c + 4 * q + r ∧ 0 ≤ c ≤ 3 ∧ 0 ≤ q ≤ 24 ∧ 0 ≤ r ≤ 3) as (c & q & r & -> & Hc & Hq & Hr).
  { exists (yoe `div` 100), ((yoe `mod` 100) `div` 4), (yoe `mod` 4). Z.to_euclidean_division_equations; lia. }
  assert ((100 * c + 4 * q + r) `div` 4 = 25 * c + q) as -> by (Z.to_euclidean_division_equations; lia).
  assert ((100 * c + 4 * q + r) `div` 100 = c) as -> by (Z.to_euclidean_division_equations; lia).
  assert (doy = 365 → r = 3 ∧ (q = 24 → c = 3)) as H4.
  { intros E. destruct (H3 E) as [E1 E2]. Z.to_euclidean_division_equations; lia. }
  clear H3 H1.
  set (doe := _ + doy). assert (doe = 36524 * c + 1461 * q + 365 * r + doy) as Hd by (subst doe; lia). clearbody doe.
  assert (doe `div` 146096 = if decide (c = 3 ∧ q = 24 ∧ r = 3 ∧ doy = 365) then 1 else 0) as ->.
  { case_decide; Z.to_euclidean_division_equations; lia. }
  split; [|lia].
  Z.to_euclidean_division_equations; case_decide; lia.
Qed.

Definition valid_date (y m d : Z) : Prop := 1 ≤ m ≤ 12 ∧ 1 ≤ d ≤ days_in m y.

Lemma month_exact mp k : 0 ≤ mp ≤ 11 → 0 ≤ k → (mp < 11 → k < month_days (mp + 1) - month_days mp) → (mp = 11 → k ≤ 28) →
  (5 * (month_days mp + k) + 2) `div` 153 = mp.
Proof.
  unfold month_days. intros H1 H2 H3 H4.
  assert (mp ∈ [0; 1; 2; 3; 4; 5; 6; 7; 8; 9; 10; 11]) as Hin.
  { rewrite !elem_of_cons. lia. }
  rewrite !elem_of_cons, elem_of_nil in Hin.
  destruct_or?; try done; subst mp; simpl in *; Z.to_euclidean_division_equations; lia.
Qed.

Lemma leap_spec y : leap y = true ↔ y `mod` 4 = 0 ∧ (y `mod` 100 ≠ 0 ∨ y `mod` 400 = 0).
Proof. unfold leap. rewrite andb_true_iff, orb_true_iff, negb_true_iff, !bool_decide_eq_true, bool_decide_eq_false. done. Qed.

(** The parts of a date counted from March. *)
Lemma march_parts y m d :
  valid_date y m d →
  let '(y', mp) := if bool_decide (m ≤ 2) then (y - 1, m + 9) else (y, m - 3) in
  0 ≤ mp ≤ 11 ∧ (mp < 11 → d ≤ month_days (mp + 1) - month_days mp) ∧
  (mp = 11 → d ≤ 29 ∧ (d = 29 → (y' + 1) `mod` 4 = 0 ∧ ((y' + 1) `mod` 100 ≠ 0 ∨ (y' + 1) `mod` 400 = 0))).
Proof.
  intros [Hm Hd]. unfold days_in in Hd.
  assert (m ∈ [1; 2; 3; 4; 5; 6; 7; 8; 9; 10; 11; 12]) as Hin.
  { rewrite !elem_of_cons. lia. }
  rewrite !elem_of_cons, elem_of_nil in Hin.
  destruct_or?; try done; subst m; cbv -[leap Z.le] in Hd; simpl; unfold month_days; simpl; split_and!; try (Z.to_euclidean_division_equations; lia).
  intros _. destruct (leap y) eqn:El; [|lia]. apply leap_spec in El. replace (y - 1 + 1) with y by lia. split; [lia|done].
Qed.

Lemma civil_of_days y m d : valid_date y m d → civil_of (days_of y m d) = (y, m, d).
Proof.
  intros Hv. pose proof (march_parts y m d Hv) as Hp. destruct Hv as [Hm Hd]. unfold days_of.
  destruct (if bool_decide (m ≤ 2) then (y - 1, m + 9) else (y, m - 3)) as [y' mp] eqn:E.
  destruct Hp as (Hmp & Hk & Hf).
  assert (Hy : y = if bool_decide (mp < 10) then y' else y' + 1) by (repeat case_bool_decide; simplify_eq; lia).
  assert (Hm' : m = if bool_decide (mp < 10) then mp + 3 else mp - 9) by (repeat case_bool_decide; simplify_eq; lia).
  clear E. unfold civil_of. set (doy := month_days mp + d - 1).
  assert (0 ≤ doy ≤ 365 ∧ (doy = 365 → mp = 11 ∧ d = 29)) as [Hdoy H365].
  { subst doy. assert (mp = 11 → d ≤ 29) as Hf' by (intros Hmp11; by apply Hf). clear Hf Hy Hm' Hm. unfold month_days in *.
    destruct (decide (mp = 11)) as [->|]; [specialize (Hf' eq_refl); simpl; Z.to_euclidean_division_equations; lia|].
    specialize (Hk ltac:(lia)). clear Hf'. Z.to_euclidean_division_equations; lia. }
  set (era := y' `div` 400). set (yoe := y' `mod` 400).
  assert (y' = 400 * era + yoe ∧ 0 ≤ yoe < 400) as [Ey Hyoe] by (subst era yoe; Z.to_euclidean_division_equations; lia).
  clearbody era yoe.
  destruct (yoe_exact yoe doy Hyoe Hdoy) as [H1 H2].
  { intros H. destruct (H365 H) as [-> ->]. destruct (Hf eq_refl) as [_ Hl]. destruct (Hl eq_refl) as [Ha Hb].
    clear -Ey Ha Hb Hyoe. subst y'. Z.to_euclidean_division_equations. lia. }
  cbv zeta in H1, H2. set (doe := 365 * yoe + yoe `div` 4 - yoe `div` 100 + doy) in *.
  assert (march_days y' + month_days mp + d - 1 - 719468 + 719468 = era * 146097 + doe) as ->.
  { assert (y' `div` 4 = 100 * era + yoe `div` 4) as E1 by (rewrite Ey; clear; euclid).
    assert (y' `div` 100 = 4 * era + yoe `div` 100) as E2 by (rewrite Ey; clear; euclid).
    assert (y' `div` 400 = era) as E3 by (rewrite Ey; clear -Hyoe; euclid).
    unfold march_days. rewrite E1, E2, E3. subst doe doy. lia. }
  assert ((era * 146097 + doe) `div` 146097 = era) as -> by (symmetry; apply (Z.div_unique _ _ _ doe); lia).
  replace (era * 146097 + doe - era * 146097) with doe by lia. rewrite H1.
  assert (doe - (365 * yoe + yoe `div` 4 - yoe `div` 100) = doy) as -> by (subst doe; lia).
  assert ((5 * doy + 2) `div` 153 = mp) as ->.
  { replace doy with (month_days mp + (d - 1)) by (subst doy; lia). apply month_exact; lia. }
  assert (doy - month_days mp + 1 = d) as -> by (subst doy; lia).
  rewrite <- Hm'. assert ((if bool_decide (m ≤ 2) then yoe + era * 400 + 1 else yoe + era * 400) = y) as ->; [|done].
  rewrite Hy. clear Hy. repeat case_bool_decide; lia.
Qed.

(** [time.Date] brings months and days outside their ranges into them. *)
Definition Date (y m d : Z) : Z := days_of (y + (m - 1) `div` 12) ((m - 1) `mod` 12 + 1) 1 + d - 1.
Definition AddDate (years months days n : Z) : Z :=
  let '(y, m, d) := civil_of n in Date (y + years) (m + months) (d + days).

Lemma days_of_day y m d : days_of y m d = days_of y m 1 + d - 1.
Proof. unfold days_of. destruct (bool_decide (m ≤ 2)); lia. Qed.

Lemma Date_valid y m d : 1 ≤ m ≤ 12 → Date y m d = days_of y m d.
Proof.
  intros Hm. unfold Date. rewrite Z.div_small, Z.mod_small by lia. rewrite (days_of_day y m d). f_equal. f_equal.
  by rewrite Z.add_0_r, Z.sub_add.
Qed.

(** After [k] years or months less a day: the day before the same day of the
    month that is reached, counted on into the next month when that month is
    too short. *)
Lemma AddDate_exact y m d years months :
  valid_date y m d →
  let y' := y + years + (m + months - 1) `div` 12 in
  let m' := (m + months - 1) `mod` 12 + 1 in
  AddDate years months (-1) (days_of y m d) = days_of y' m' d - 1.
Proof.
  intros Hv y' m'. unfold AddDate. rewrite civil_of_days by done. unfold Date. fold m' y'.
  rewrite (days_of_day y' m' d). lia.
Qed.

(** ** Texts of dates *)

Definition digit_char (k : Z) : Ascii.ascii := Ascii.ascii_of_nat (Z.to_nat (48 + k)).
Definition digit_val (c : Ascii.ascii) : option Z :=
  let k := Z.of_nat (Ascii.nat_of_ascii c) - 48 in
  if bool_decide (0 ≤ k ≤ 9) then Some k else None.
Definition dash : Ascii.ascii := Ascii.ascii_of_nat 45.
Definition plus : Ascii.ascii := Ascii.ascii_of_nat 43.

(** The layout [time.DateOnly]. *)
Definition format_date (y m d : Z) : string :=
  of_list [digit_char (y `div` 1000); digit_char (y `div` 100 `mod` 10); digit_char (y `div` 10 `mod` 10); digit_char (y `mod` 10); dash;
           digit_char (m `div` 10); digit_char (m `mod` 10); dash; digit_char (d `div` 10); digit_char (d `mod` 10)].
Definition parse_date_only (s : string) : option Z :=
  match to_list s with
  | [a; b; c; e; s1; f; g; s2; h; i] =>
      if bool_decide (s1 = dash ∧ s2 = dash) then
        a ← digit_val a; b ← digit_val b; c ← digit_val c; e ← digit_val e;
        f ← digit_val f; g ← digit_val g; h ← digit_val h; i ← digit_val i;
        let y := 1000 * a + 100 * b + 10 * c + e in
        let m := 10 * f + g in
        let d := 10 * h + i in
        if bool_decide (1 ≤ m ≤ 12 ∧ 1 ≤ d ≤ days_in m y) then Some (days_of y m d) else None
      else None
  | _ => None
  end.

Lemma digit_val_char k : 0 ≤ k ≤ 9 → digit_val (digit_char k) = Some k.
Proof.
  intros H. unfold digit_val, digit_char. rewrite Ascii.nat_ascii_embedding by lia.
  replace (Z.of_nat (Z.to_nat (48 + k)) - 48) with k by lia. by rewrite bool_decide_true.
Qed.

Lemma digit_val_inv c k : digit_val c = Some k → c = digit_char k ∧ 0 ≤ k ≤ 9.
Proof.
  unfold digit_val. case_bool_decide; [|done]. intros [= <-]. split; [|done]. unfold digit_char.
  replace (Z.to_nat (48 + (Z.of_nat (Ascii.nat_of_ascii c) - 48))) with (Ascii.nat_of_ascii c) by lia.
  by rewrite Ascii.ascii_nat_embedding.
Qed.

Lemma parse_format y m d : 0 ≤ y ≤ 9999 → valid_date y m d → parse_date_only (format_date y m d) = Some (days_of y m d).
Proof.
  intros Hy [Hm Hd]. assert (d ≤ 31) as Hd31 by (unfold days_in in Hd; repeat case_bool_decide; destruct (leap y); lia).
  unfold parse_date_only, format_date. rewrite to_of_list. rewrite bool_decide_true by done.
  rewrite !digit_val_char by euclid. cbn [mbind option_bind].
  replace (1000 * (y `div` 1000) + 100 * (y `div` 100 `mod` 10) + 10 * (y `div` 10 `mod` 10) + y `mod` 10) with y by euclid.
  replace (10 * (m `div` 10) + m `mod` 10) with m by euclid. replace (10 * (d `div` 10) + d `mod` 10) with d by euclid.
  by rewrite bool_decide_true.
Qed.

Lemma parse_format_only s n :
  parse_date_only s = Some n → ∃ y m d, 0 ≤ y ≤ 9999 ∧ valid_date y m d ∧ s = format_date y m d ∧ n = days_of y m d.
Proof.
  unfold parse_date_only. destruct (to_list s) as [|a [|b [|c [|e [|s1 [|f [|g [|s2 [|h [|i [|]]]]]]]]]]] eqn:Es; try done.
  case_bool_decide as Hd; [|done]. destruct Hd as [-> ->].
  intros (ka & [-> Ha]%digit_val_inv & H)%bind_Some. apply bind_Some in H as (kb & [-> Hb]%digit_val_inv & H).
  apply bind_Some in H as (kc & [-> Hc]%digit_val_inv & H). apply bind_Some in H as (ke & [-> He]%digit_val_inv & H).
  apply bind_Some in H as (kf & [-> Hf]%digit_val_inv & H). apply bind_Some in H as (kg & [-> Hg]%digit_val_inv & H).
  apply bind_Some in H as (kh & [-> Hh]%digit_val_inv & H). apply bind_Some in H as (ki & [-> Hi]%digit_val_inv & H).
  cbv zeta in H. case_bool_decide as Hv; [|done]. injection H as <-.
  exists (1000 * ka + 100 * kb + 10 * kc + ke), (10 * kf + kg), (10 * kh + ki). split_and!; [lia..|done| |done].
  rewrite <- (of_to_list s), Es. unfold format_date. do 2 f_equal; [f_equal; euclid|].
  f_equal; [f_equal; euclid|]. f_equal; [f_equal; euclid|]. f_equal; [f_equal; euclid|]. f_equal.
  f_equal; [f_equal; euclid|]. f_equal; [f_equal; euclid|]. f_equal. f_equal; [f_equal; euclid|]. f_equal. f_equal; euclid.
Qed.

(** ** Reading dates *)

(** [strconv.Atoi] *)
Definition decimal (l : list Ascii.ascii) : option Z := foldl (λ a d, a * 10 + d) 0 <$> mapM digit_val l.
Definition Atoi (s : string) : option Z :=
  let '(neg, r) := match to_list s with
                   | c :: r => if bool_decide (c = dash) then (true, r)
                               else if bool_decide (c = plus) then (false, r) else (false, c :: r)
                   | [] => (false, [])
                   end in
  match r with
  | [] => None
  | _ => v ← decimal r;
         let v := if neg : bool then - v else v in
         if bool_decide (- two63 ≤ v < two63) then Some v else None
  end.

Definition errDateEmpty : goerr := GoErr "date is empty".

(** A unit at the end of the text, plural first; every occurrence of it is
    removed. *)
Definition strip_unit (unit date : string) : string * bool :=
  if HasSuffix date (unit +:+ "s") then (ReplaceAll date (unit +:+ "s") EmptyString, true)
  else if HasSuffix date unit then (ReplaceAll date unit EmptyString, true)
  else (date, false).

(** The part after a plus sign; [None] goes on with the whole text. *)
Definition relative_date (date : string) (today : Z) : option (res Z) :=
  let '(date, year) := strip_unit "year" date in
  let '(date, month) := strip_unit "month" date in
  match (if bool_decide (date = EmptyString) then Some 1 else Atoi date) with
  | None => Some (Err (GoErr "strconv.Atoi: invalid number"))
  | Some val =>
      if month : bool then Some (Ok (AddDate 0 val (-1) today))
      else if year : bool then Some (Ok (AddDate val 0 (-1) today))
      else None
  end.

(** Times are days here, since every time is a midnight; [getToday] is the
    current day. *)
Definition ParseDateFromTime (getToday : Z) (date : string) (today : Z) : res Z :=
  if bool_decide (date = EmptyString) then Err errDateEmpty
  else if EqualFold date "today" then Ok getToday
  else
    match (match to_list date with
           | c :: r => if bool_decide (c = plus) then relative_date (of_list r) today else None
           | [] => None
           end) with
    | Some r => r
    | None => match parse_date_only date with
              | Some n => Ok n
              | None => Err (GoErr "parsing time")
              end
    end.
Definition ParseDate (getToday : Z) (date : string) : res Z := ParseDateFromTime getToday date getToday.

(** ** Licence times *)

Import Manager Binary.

Section issue.
(** [uint64(d.Seconds())], whose arithmetic is that of floats. *)
Context (float_seconds : Z → Z).

Definition ErrTimeLessThanEpoch : goerr := GoErr "time less than epoch start".

(** The difference of times saturates at the largest duration. *)
Definition Sub (t u : Z) : Z := Z.max (- two63) (Z.min (t - u) (two63 - 1)).
Definition CalculateLicenseTime (realTime : Z) : res Z :=
  if bool_decide (realTime < epochStart) then Err ErrTimeLessThanEpoch
  else Ok (float_seconds (Sub realTime epochStart)).

(** Whole seconds of less than 292 years are exact. *)
Definition seconds_exact : Prop := ∀ k, 0 ≤ k → k * second < two63 → float_seconds (k * second) = k.

(** ** Issuing a licence *)

(** The flags of the command; what the file system answers: whether the output
    exists, whether the product's key exists and can be read, and whether the
    output can be written. *)
Record sign_flags := mkFlags {
  f_product : string; f_customer : string; f_start : string; f_end : string; f_output : string; f_type : string }.
Record file_answers := mkFiles { output_exists : bool; key_exists : bool; key_file : option (list Z); output_written : bool }.

(** The end of the command: an exit code, or the printed licence and the text
    written to the output file. *)
Inductive outcome := Exit (code : Z) | Issued (text : string) (written : option string) | Panicked (msg : string).

Context (json_marshal : License → goerr + list Z).
Context (ed_sign : list Z → list Z → list Z) (seal : list Z → list Z → list Z → list Z).

Definition exit_on {A} (code : Z) (r : res A) (k : A → outcome) : outcome :=
  match r with Ok x => k x | Err _ => Exit code | Panic m | Fatal m => Panicked m end.
Definition nonempty (s : string) : bool := negb (bool_decide (s = EmptyString)).

Definition runSign (getToday : Z) (f : sign_flags) (fs : file_answers) (nonce : goerr + list Z) : outcome :=
  if negb (nonempty (f_product f) && nonempty (f_customer f) && nonempty (f_start f) && nonempty (f_end f)) then Exit 1
  else if output_exists fs then Exit 2
  else match AllProductsPublicKeys !! ToLower (f_product f) with
       | None => Exit 3
       | Some publicKeyStr =>
           if negb (key_exists fs) then Exit 3
           else match key_file fs with
           | None => Exit 4
           | Some privateKey =>
           match hex_decode (to_list publicKeyStr) with
           | None => Exit 3
           | Some _ =>
           exit_on 4 (ParseDate getToday (f_start f)) (λ startDate,
           exit_on 4 (ParseDateFromTime getToday (f_end f) startDate) (λ endDate,
           exit_on 4 (CalculateLicenseTime (startDate * day)) (λ licenceStart,
           exit_on 4 (CalculateLicenseTime (endDate * day)) (λ licenceEnd,
           let licVersion := if EqualFold (f_type f) "json" then JSONVersion else BinaryVersion in
           let license := mkLicense licVersion (f_product f) (f_customer f) licenceStart licenceEnd in
           match hex_decode (to_list AESKey) with
           | None => Exit 4
           | Some aesKey =>
               exit_on 4 (Sign json_marshal ed_sign seal (mkSigner aesKey privateKey) nonce license) (λ signature,
               exit_on 4 (Base62.EncodeToString signature) (λ base62License,
               if nonempty (f_output f)
               then if output_written fs then Issued base62License (Some base62License) else Exit 4
               else Issued base62License None))
           end))))
           end end
       end.

(** The other command: the exit code, or the licence it prints. *)
Context (json_unmarshal : list Z → goerr + License).
Context (ed_verify : list Z → list Z → list Z → bool) (open_ : list Z → list Z → list Z → option (list Z)).
Definition runVerify (now : Z) (product input : string) (read : option string) : res (Z + License) :=
  if negb (nonempty product && nonempty input) then Ok (inl 1)
  else match read with
       | None => Ok (inl 5)
       | Some lic =>
           match ReadAndVerifyLicenseFromBase62 json_unmarshal ed_verify open_ (ToLower product) now lic with
           | Ok license => Ok (inr license)
           | Err _ => Ok (inl 2)
           | Panic m => Panic m
           | Fatal m => Fatal m
           end
       end.

Lemma CalculateLicenseTime_day n :
  seconds_exact → 20180 ≤ n ≤ 20180 + 106751 →
  ∃ lt, CalculateLicenseTime (n * day) = Ok lt ∧ 0 ≤ lt < two64 ∧ AsDate lt = n * day.
Proof using Type.
  intros He Hn. unfold CalculateLicenseTime. rewrite bool_decide_false by (unfold epochStart, day; lia).
  assert (Sub (n * day) epochStart = ((n - 20180) * 86400) * second) as ->.
  { unfold Sub, epochStart, day, second, two63. lia. }
  rewrite He by (unfold second, two63; lia).
  exists ((n - 20180) * 86400). split_and!; [done|lia|unfold two64; lia|].
  assert (i64 ((n - 20180) * 86400) = (n - 20180) * 86400) as E1 by (apply i64_small; unfold two63; lia).
  assert (i64 ((n - 20180) * 86400 * second) = (n - 20180) * 86400 * second) as E2.
  { apply i64_small. unfold second, two63. lia. }
  unfold AsDate. rewrite E1, E2. unfold epochStart, second, day.
  replace (20180 * 86400000000000 + (n - 20180) * 86400 * 1000000000) with (n * 86400000000000) by lia.
  by rewrite Z.div_mul by lia.
Qed.

(** Dates past the range all give the last licence time. *)
Lemma late_dates_alike t u :
  epochStart + two63 ≤ t → epochStart + two63 ≤ u → CalculateLicenseTime t = CalculateLicenseTime u.
Proof using Type.
  intros Ht Hu. unfold CalculateLicenseTime, Sub. rewrite !bool_decide_false by (unfold two63, epochStart, day in *; lia).
  do 2 f_equal. unfold two63 in *. lia.
Qed.

(** The run of the command when nothing stops it. *)
Lemma runSign_issued getToday f fs nonce pub priv sd ed ls le data text :
  product_key (ToLower (f_product f)) = Some pub →
  output_exists fs = false → key_exists fs = true → key_file fs = Some priv → output_written fs = true →
  f_customer f ≠ EmptyString → ParseDate getToday (f_start f) = Ok sd → ParseDateFromTime getToday (f_end f) sd = Ok ed →
  CalculateLicenseTime (sd * day) = Ok ls → CalculateLicenseTime (ed * day) = Ok le →
  Sign json_marshal ed_sign seal (mkSigner aes_key priv) (inr nonce)
    (mkLicense (if EqualFold (f_type f) "json" then JSONVersion else BinaryVersion) (f_product f) (f_customer f) ls le) = Ok data →
  Base62.EncodeToString data = Ok text →
  runSign getToday f fs (inr nonce) = Issued text (if nonempty (f_output f) then Some text else None).
Proof using Type.
  intros Hp Ho Hke Hkf Hw Hcu Hsd Hed E1 E2 S1 S2. unfold runSign.
  assert (nonempty (f_product f) = true) as ->.
  { unfold nonempty. rewrite bool_decide_false; [done|]. intros Hep. by rewrite Hep in Hp. }
  assert (nonempty (f_customer f) = true) as -> by (unfold nonempty; by rewrite bool_decide_false).
  assert (nonempty (f_start f) = true) as ->.
  { unfold nonempty. rewrite bool_decide_false; [done|]. intros Hes. by rewrite Hes in Hsd. }
  assert (nonempty (f_end f) = true) as ->.
  { unfold nonempty. rewrite bool_decide_false; [done|]. intros Hes. by rewrite Hes in Hed. }
  simpl negb. cbv iota. rewrite Ho, Hke, Hkf. unfold product_key in Hp.
  destruct (AllProductsPublicKeys !! ToLower (f_product f)) as [k|]; [|done]. simpl in Hp. rewrite Hp.
  simpl negb. cbv iota. rewrite Hsd. cbn [exit_on]. rewrite Hed. cbn [exit_on]. rewrite E1. cbn [exit_on]. rewrite E2. cbn [exit_on].
  rewrite (proj1 (aes_key_ok)). cbv zeta. rewrite S1. cbn [exit_on]. rewrite S2. cbn [exit_on]. rewrite Hw.
  by destruct (nonempty (f_output f)).
Qed.

(** C35: a licence is accepted on the days it was issued for.  When the command
    accepts its flags and has the product's private key, it prints a licence of
    that product and customer, in the JSON form when the type flag says json (its
    default; then the product and the customer are ASCII texts) and in the
    binary form otherwise; unless its signature begins with a zero byte, the
    printed text is accepted at a time exactly from the midnight of the start
    date up to, but without, that of the end date, for dates between the epoch
    of the licences and 292 years later, and the licence read is the one that
    was issued. *)
Theorem issued_license_days getToday f fs nonce pub priv sd ed :
  seconds_exact → product_key (ToLower (f_product f)) = Some pub →
  key_pair ed_sign ed_verify pub priv → cipher_ok seal open_ → json_ok json_marshal json_unmarshal →
  length nonce = nonceLength → Forall byte_range nonce →
  output_exists fs = false → key_exists fs = true → key_file fs = Some priv → output_written fs = true →
  f_customer f ≠ EmptyString →
  (EqualFold (f_type f) "json" = true → ascii_text (f_product f) ∧ ascii_text (f_customer f)) →
  Z.of_nat (length (bytes_of (f_product f))) + Z.of_nat (length (bytes_of (f_customer f))) < 1000000 →
  ParseDate getToday (f_start f) = Ok sd → ParseDateFromTime getToday (f_end f) sd = Ok ed →
  20180 ≤ sd ≤ 20180 + 106751 → 20180 ≤ ed ≤ 20180 + 106751 →
  ∃ data text license,
    runSign getToday f fs (inr nonce) = Issued text (if nonempty (f_output f) then Some text else None) ∧
    Base62.DecodeString text = Ok (Base62.drop_zeros data) ∧
    Version license = (if EqualFold (f_type f) "json" then JSONVersion else BinaryVersion) ∧
    Product license = f_product f ∧ Customer license = f_customer f ∧
    (head data ≠ Some 0 → ∀ now,
     ReadAndVerifyLicenseFromBase62 json_unmarshal ed_verify open_ (ToLower (f_product f)) now text =
       if bool_decide (sd * day ≤ now < ed * day) then Ok license
       else Err (GoErr "license is not valid at today")).
Proof using Type.
  intros He Hp Hk Hc Hj Hn Hnr Ho Hke Hkf Hw Hcu Hty Hlen Hsd Hed Hs1 Hs2.
  destruct (CalculateLicenseTime_day sd He Hs1) as (ls & E1 & R1 & D1).
  destruct (CalculateLicenseTime_day ed He Hs2) as (le & E2 & R2 & D2).
  set (l := mkLicense (if EqualFold (f_type f) "json" then JSONVersion else BinaryVersion) (f_product f) (f_customer f) ls le).
  assert (fits l) as Hf by (unfold fits; simpl; unfold two32, two64 in *; split_and!; lia).
  assert (∃ d, marshalled json_marshal json_unmarshal l d) as [d Hm].
  { destruct (EqualFold (f_type f) "json") eqn:Et; [|eexists; by apply marshalled_binary].
    destruct (Hty eq_refl). by apply marshalled_json. }
  destruct (signed_license_read_back json_marshal json_unmarshal ed_sign ed_verify seal open_ (ToLower (f_product f))
              pub priv nonce l d 0 Hp Hk Hc Hn Hnr Hm) as (data & text & S1 & S2 & S3 & _).
  exists data, text, l. split_and!; [|done|done|done|done|].
  - apply (runSign_issued getToday f fs nonce pub priv sd ed ls le data text); done.
  - intros Hh now. destruct (signed_license_read_back json_marshal json_unmarshal ed_sign ed_verify seal open_
      (ToLower (f_product f)) pub priv nonce l d now Hp Hk Hc Hn Hnr Hm) as (data' & text' & S1' & S2' & _ & Hr).
    rewrite S1 in S1'. injection S1' as <-. rewrite S2 in S2'. injection S2' as <-. rewrite (Hr Hh). simpl Start. simpl End_. by rewrite D1, D2.
Qed.
End issue.

(** ** Relative dates *)

Definition all_digits (s : string) : Prop := s ≠ EmptyString ∧ Forall (λ c, is_Some (digit_val c)) (to_list s).

Lemma split_at_skip sep s cur : split_at sep s (String.length s) cur = [cur].
Proof. revert cur. induction s as [|c s IH]; intros cur; [done|]. cbn [String.length split_at]. apply IH. Qed.

(** A separator that occurs only at the end. *)
Lemma split_at_end a sep s cur :
  a ∉ to_list s → split_at (String a sep) (s +:+ String a sep) 0 cur = [cur +:+ s; EmptyString].
Proof.
  revert cur. induction s as [|c s IH]; intros cur Hn.
  - rewrite string_app_nil. cbn [split_at]. pose proof (HasPrefix_app (String a sep) EmptyString) as Hp.
    rewrite (right_id_L EmptyString String.append) in Hp. rewrite Hp. cbn [String.length pred].
    by rewrite split_at_skip, (right_id_L EmptyString String.append).
  - simpl in Hn. rewrite string_app_cons. cbn [split_at].
    assert (HasPrefix (String c (s +:+ String a sep)) (String a sep) = false) as ->.
    { unfold HasPrefix. apply bool_decide_eq_false. intros [r Hr]. apply cut_prefix_Some in Hr.
      rewrite string_app_cons in Hr. injection Hr as -> _. set_solver. }
    rewrite IH by set_solver. by rewrite <- (assoc_L String.append), string_app_cons, string_app_nil.
Qed.

Lemma ReplaceAll_end a sep s : a ∉ to_list s → ReplaceAll (s +:+ String a sep) (String a sep) EmptyString = s.
Proof.
  intros H. unfold ReplaceAll, Split. rewrite split_at_end by done. rewrite string_app_nil. simpl.
  by rewrite (right_id_L EmptyString String.append).
Qed.

Lemma digits_not a s : all_digits s → digit_val a = None → a ∉ to_list s.
Proof. intros [_ Hd] Ha Hin. eapply Forall_forall in Hd; [|exact Hin]. rewrite Ha in Hd. by destruct Hd. Qed.

(** Texts that end in different letters. *)
Lemma HasSuffix_other s l1 l2 suf :
  to_list s = l1 ++ l2 → (∀ l, rev l2 ++ rev l1 ≠ rev (to_list suf) ++ l) → HasSuffix s suf = false.
Proof.
  intros Hs Hne. destruct (HasSuffix s suf) eqn:E; [|done]. apply HasSuffix_true in E as [p ->]. exfalso.
  rewrite to_list_app in Hs. apply (f_equal (@rev _)) in Hs. rewrite !rev_app_distr in Hs. by eapply Hne.
Qed.

Lemma digits_no_suffix s a r : all_digits s → digit_val a = None → HasSuffix s (String a r) = false.
Proof.
  intros Hd Ha. destruct (HasSuffix s (String a r)) eqn:E; [|done]. apply HasSuffix_true in E as [p ->].
  exfalso. apply (digits_not a _ Hd Ha). rewrite to_list_app. simpl. set_solver.
Qed.

Definition letter_y : Ascii.ascii := Ascii.ascii_of_nat 121.
Definition letter_m : Ascii.ascii := Ascii.ascii_of_nat 109.

Lemma strip_years s : all_digits s → strip_unit "year" (s +:+ "years") = (s, true).
Proof.
  intros Hd. unfold strip_unit. change ("year" +:+ "s") with "years". rewrite HasSuffix_app by done.
  change "years" with (String letter_y "ears"). by rewrite (ReplaceAll_end letter_y) by (by apply digits_not).
Qed.
Lemma strip_months s : all_digits s → strip_unit "month" (s +:+ "months") = (s, true).
Proof.
  intros Hd. unfold strip_unit. change ("month" +:+ "s") with "months". rewrite HasSuffix_app by done.
  change "months" with (String letter_m "onths"). by rewrite (ReplaceAll_end letter_m) by (by apply digits_not).
Qed.
Lemma strip_none s : all_digits s → strip_unit "month" s = (s, false).
Proof.
  intros Hd. unfold strip_unit. change ("month" +:+ "s") with (String letter_m "onths"). change "month" with (String letter_m "onth").
  by rewrite !digits_no_suffix by done.
Qed.
Lemma strip_not_years s : strip_unit "year" (s +:+ "months") = (s +:+ "months", false).
Proof.
  unfold strip_unit.
  assert (to_list (s +:+ "months") = to_list s ++ to_list "months") as Hl by apply to_list_app.
  rewrite (HasSuffix_other _ _ _ ("year" +:+ "s") Hl), (HasSuffix_other _ _ _ "year" Hl); [done|..]; by intros l [=].
Qed.

(** "+<number>years" and "+<number>months". *)
Lemma relative_years getToday s n today :
  all_digits s → Atoi s = Some n →
  ParseDateFromTime getToday ("+" +:+ s +:+ "years") today = Ok (AddDate n 0 (-1) today).
Proof.
  intros Hd Hn. pose proof Hd as [Hne _]. unfold ParseDateFromTime.
  rewrite bool_decide_false by done.
  assert (EqualFold ("+" +:+ s +:+ "years") "today" = false) as -> by (unfold EqualFold; by apply bool_decide_eq_false).
  change (to_list ("+" +:+ s +:+ "years")) with (plus :: to_list (s +:+ "years")). cbv beta iota. rewrite (bool_decide_true (plus = plus)) by done.
  rewrite of_to_list. unfold relative_date. rewrite strip_years, strip_none by done.
  rewrite bool_decide_false by done. by rewrite Hn.
Qed.

Lemma relative_months getToday s n today :
  all_digits s → Atoi s = Some n →
  ParseDateFromTime getToday ("+" +:+ s +:+ "months") today = Ok (AddDate 0 n (-1) today).
Proof.
  intros Hd Hn. pose proof Hd as [Hne _]. unfold ParseDateFromTime.
  rewrite bool_decide_false by done.
  assert (EqualFold ("+" +:+ s +:+ "months") "today" = false) as -> by (unfold EqualFold; by apply bool_decide_eq_false).
  change (to_list ("+" +:+ s +:+ "months")) with (plus :: to_list (s +:+ "months")). cbv beta iota. rewrite (bool_decide_true (plus = plus)) by done.
  rewrite of_to_list. unfold relative_date. rewrite strip_not_years, strip_months by done.
  rewrite bool_decide_false by done. by rewrite Hn.
Qed.

(** An absolute date. *)
Lemma absolute_date getToday y m d today :
  0 ≤ y ≤ 9999 → valid_date y m d → ParseDateFromTime getToday (format_date y m d) today = Ok (days_of y m d).
Proof.
  intros Hy Hv. unfold ParseDateFromTime. rewrite bool_decide_false by done.
  assert (∀ k, 0 ≤ k ≤ 9 → digit_char k ≠ plus ∧ upper_byte (digit_char k) ≠ Ascii.ascii_of_nat 84) as Hk.
  { intros k H. assert (k ∈ [0; 1; 2; 3; 4; 5; 6; 7; 8; 9]) as Hin by (rewrite !elem_of_cons; lia).
    rewrite !elem_of_cons, elem_of_nil in Hin. destruct_or?; try done; subst k; split; vm_compute; congruence. }
  destruct (Hk (y `div` 1000)) as [H1 H2]; [euclid|].
  assert (EqualFold (format_date y m d) "today" = false) as ->.
  { unfold EqualFold, format_date. apply bool_decide_eq_false. cbn [of_list ToUpper]. intros [= E _]; by apply H2. }
  assert (to_list (format_date y m d) = digit_char (y `div` 1000) :: drop 1 (to_list (format_date y m d))) as Hl.
  { unfold format_date. by rewrite to_of_list. }
  rewrite Hl. cbv beta iota. rewrite bool_decide_false by done. by rewrite parse_format.
Qed.

(** ** Concrete licences *)

Module Samples.
Import License.Samples.
Local Open Scope Z_scope.

Definition float_exact (z : Z) : Z := z `div` second.
Lemma float_exact_ok : seconds_exact float_exact.
Proof. intros k _ _. unfold float_exact. by apply Z.div_mul. Qed.

Definition year_flags : sign_flags := mkFlags "PG2SQS" "someone" "2025-04-02" "+1year" EmptyString "binary".
Definition key_there : file_answers := mkFiles false true (Some private_key) true.
Definition issue (f : sign_flags) : outcome :=
  runSign float_exact no_json_out (sign_with 7) plain 20180 f key_there (inr nonce).

(** The default form. *)
Definition json_flags : sign_flags := mkFlags "PG2SQS" "someone" "2025-04-02" "+1year" EmptyString "json".
Definition issue_json (f : sign_flags) : outcome :=
  runSign float_exact some_json_out (sign_with 7) plain 20180 f key_there (inr nonce).

Lemma issued_license_days_witness :
  ∃ data text license, issue_json json_flags = Issued text None ∧
    Base62.DecodeString text = Ok (Base62.drop_zeros data) ∧ Version license = JSONVersion ∧ Customer license = "someone".
Proof.
  destruct (issued_license_days float_exact some_json_out (sign_with 7) plain some_json_in (verify_with 7) read_plain 20180
    json_flags key_there nonce sqs_key private_key 20180 (20180 + 364)) as (data & text & l & H1 & H2 & H3 & _ & H4 & _).
  - apply float_exact_ok.
  - vm_compute. reflexivity.
  - apply sample_keys. by vm_compute.
  - apply sample_cipher.
  - apply some_json_ok.
  - reflexivity.
  - by apply Forall_replicate; vm_compute.
  - reflexivity.
  - reflexivity.
  - reflexivity.
  - reflexivity.
  - discriminate.
  - intros _. split; unfold ascii_text; repeat constructor.
  - by vm_compute.
  - vm_compute. reflexivity.
  - vm_compute. reflexivity.
  - lia.
  - lia.
  - exists data, text, l. split_and!; [exact H1|exact H2|exact H3|exact H4].
Defined.

(** A licence for a year is valid on 364 days: its end is the last day of the
    year, and that day is not included. *)
Definition valid_at (f : sign_flags) (today : Z) : option bool :=
  match issue f with
  | Issued text _ =>
      Some (match ReadAndVerifyLicenseFromBase62 no_json_in (verify_with 7) read_plain "pg2sqs" today text with Ok _ => true | _ => false end)
  | _ => None
  end.
Example last_day_excluded :
  valid_at year_flags (days_of 2026 3 31 * day) = Some true ∧ valid_at year_flags (days_of 2026 4 1 * day) = Some false.
Proof. split; vm_compute; reflexivity. Qed.

(** The end may lie before the start. *)
Example end_before_start :
  valid_at (mkFlags "pg2sqs" "someone" "2026-04-02" "2025-05-01" EmptyString "binary") (days_of 2026 1 1 * day) = Some false.
Proof. vm_compute. reflexivity. Qed.

(** "today" is the current day, also when the end is counted from another one;
    a unit is removed wherever it stands; a number without a unit is refused. *)
Example today_is_now : ParseDateFromTime 20300 "today" 20180 = Ok 20300.
Proof. reflexivity. Qed.
Example units_removed : ParseDateFromTime 0 "+1year1year" (days_of 2025 4 2) = Ok (days_of 2036 4 1).
Proof. vm_compute. reflexivity. Qed.
Example number_without_unit : ParseDateFromTime 0 "+5" 0 = Err (GoErr "parsing time").
Proof. reflexivity. Qed.

(** A month after the last of January: the first days of March, less a day. *)
Example short_month : ParseDateFromTime 0 "+month" (days_of 2025 1 31) = Ok (days_of 2025 3 2).
Proof. vm_compute. reflexivity. Qed.
End Samples.
