(* ===== verification/Migrator.v ===== *)
(** * The publication and the replication slot
      (src/pgschema/migrator/pgpub_migrator.go)

    When the program owns the replication, it makes the publication have the
    configured tables and columns and creates the replication slot.

    - [Text]: the statements, with a reader of the list of tables they contain;
    - [Compare]: the comparison of a publication with the configuration;
    - [Migrate]: the migration on a database;
    - [Correct]: the publication is the configured one afterwards.

    The database is an argument: its state, what the catalogue queries give in a
    state, and the execution of a statement.  Connections that cannot be had show
    as errors of the first query on them. *)

From stdpp Require Import base numbers list gmap strings pretty.
From S2P Require Import Prelude GoStrings PgSchema SnapshotManager.

(** ** Statements *)

Module Text.

Definition space : Ascii.ascii := Ascii.ascii_of_nat 32.
Definition comma : Ascii.ascii := Ascii.ascii_of_nat 44.
Definition open_paren : Ascii.ascii := Ascii.ascii_of_nat 40.
Definition close_paren : Ascii.ascii := Ascii.ascii_of_nat 41.
Definition newline : string := String (Ascii.ascii_of_nat 10) EmptyString.

(** The columns of a table in the statement; none for all of them. *)
Definition listed (v : TableConfig) : list string := if AllColumns v then [] else tc_Columns v.
Definition column_list (v : TableConfig) : string :=
  if negb (AllColumns v) && bool_decide (0 < length (tc_Columns v))%nat
  then "(" +:+ String.concat "," (tc_Columns v) +:+ ")" else EmptyString.

(** [createPubString]; the tables in the order of the iteration. *)
Fixpoint pub_string (sep : string) (tables : list (string * TableConfig)) : string :=
  match tables with
  | [] => EmptyString
  | (k, v) :: r => sep +:+ " " +:+ k +:+ " " +:+ column_list v +:+ pub_string "," r
  end.
Definition createPubString (tables : list (string * TableConfig)) : string := pub_string EmptyString tables.

Definition alter_text (pubName : string) (tables : list (string * TableConfig)) : string :=
  "ALTER PUBLICATION " +:+ pubName +:+ " SET TABLE" +:+ newline +:+ createPubString tables.
Definition via_root : string := " WITH(publish_via_partition_root=true) ".
Definition create_text (pubName : string) (pgVersion : Z) (tables : list (string * TableConfig)) : string :=
  "CREATE PUBLICATION " +:+ pubName +:+ " FOR TABLE" +:+ newline +:+ createPubString tables +:+
  (if bool_decide (13 ≤ pgVersion) then via_root else EmptyString).

Definition createReplicationSlotSQL (slotName : string) (failover : bool) : string :=
  "CREATE_REPLICATION_SLOT " +:+ slotName +:+
    (if failover then " LOGICAL pgoutput (SNAPSHOT 'export', FAILOVER 'true')" else " LOGICAL pgoutput EXPORT_SNAPSHOT").

(** *** Reading a list of tables *)

(** What stands before and after the first byte [c]. *)
Fixpoint cut_byte (c : Ascii.ascii) (s : string) : option (string * string) :=
  match s with
  | EmptyString => None
  | String d r => if decide (d = c) then Some (EmptyString, r) else
      '(a, b) ← cut_byte c r; Some (String d a, b)
  end.

(** A list of tables, each with its list of columns in parentheses if there is
    one, and what follows the list. *)
Fixpoint read_tables (fuel : nat) (s : string) : option (list (string * list string) * string) :=
  match fuel with
  | O => None
  | S fuel =>
      s ← cut_prefix " " s; '(name, s) ← cut_byte space s;
      '(cols, s) ← match s with
                   | String p r => if decide (p = open_paren) then '(cs, r) ← cut_byte close_paren r; Some (split_byte comma cs, r)
                                   else Some ([], s)
                   | EmptyString => Some ([], s)
                   end;
      match s with
      | String p r => if decide (p = comma) then '(l, rest) ← read_tables fuel r; Some ((name, cols) :: l, rest)
                      else Some ([(name, cols)], s)
      | EmptyString => Some ([(name, cols)], EmptyString)
      end
  end.

Lemma cut_byte_app c s r : has_byte c s = false → cut_byte c (s +:+ String c r) = Some (s, r).
Proof.
  unfold has_byte. rewrite bool_decide_eq_false. induction s as [|d s IH]; intros Hn.
  - rewrite string_app_nil. simpl. by rewrite decide_True.
  - rewrite string_app_cons. simpl in *. rewrite decide_False by set_solver. by rewrite IH by set_solver.
Qed.

(** Names that need no quotes. *)
Definition table_name_ok (k : string) : Prop := has_byte space k = false.
Definition column_name_ok (c : string) : Prop := has_byte comma c = false ∧ has_byte close_paren c = false.
Definition tables_ok (l : list (string * TableConfig)) : Prop :=
  Forall (λ kv, table_name_ok kv.1 ∧ Forall column_name_ok (tc_Columns kv.2)) l.

Lemma concat_no_byte a cols :
  a ≠ comma → Forall (λ c, has_byte a c = false) cols → has_byte a (String.concat "," cols) = false.
Proof.
  intros Ha H. unfold has_byte in *. apply bool_decide_eq_false_2. intros Hin.
  induction H as [|c r Hc Hr IH]; [by apply elem_of_nil in Hin|]. apply bool_decide_eq_false in Hc.
  destruct r as [|d r]; [done|].
  change (String.concat "," (c :: d :: r)) with (c +:+ "," +:+ String.concat "," (d :: r)) in Hin.
  rewrite !to_list_app, !elem_of_app in Hin. destruct Hin as [?|[Hin|?]]; [done| |by apply IH].
  by apply list_elem_of_singleton in Hin.
Qed.

Lemma split_columns cols :
  cols ≠ [] → Forall (λ c, has_byte comma c = false) cols → split_byte comma (String.concat "," cols) = cols.
Proof.
  intros Hne H. induction H as [|c [|d r] Hc Hr IH]; [done|by apply split_byte_none|].
  change (String.concat "," (c :: d :: r)) with (c +:+ String comma (String.concat "," (d :: r))).
  by rewrite split_byte_app, IH.
Qed.

(** The statement's list of tables is the configuration: every table once, with
    its columns or, for all columns, without a list. *)
Lemma read_pub_string tables tail fuel :
  tables ≠ [] → tables_ok tables → (length tables ≤ fuel)%nat →
  (∃ r, tail = String space r) ∨ tail = EmptyString →
  read_tables fuel (createPubString tables +:+ tail) = Some ((λ kv, (kv.1, listed kv.2)) <$> tables, tail).
Proof.
  intros Hne Hok Hf Htail. unfold createPubString. revert fuel Hf.
  induction Hok as [|[k v] tables [Hk Hv] Hok IH]; [done|]. clear Hne. intros [|fuel] Hf; simpl in Hf; [lia|].
  cbn [pub_string fst snd] in *. rewrite string_app_nil, <- !(assoc_L String.append). cbn [read_tables]. rewrite cut_prefix_app.
  cbn [mbind option_bind]. change (" " +:+ ?x) with (String space x). rewrite cut_byte_app by done. cbn [mbind option_bind].
  assert (∀ s, (match s with String p _ => p ≠ open_paren | EmptyString => True end) →
    (match column_list v +:+ s with
     | EmptyString => Some ([], column_list v +:+ s)
     | String p r => if decide (p = open_paren) then '(cs, r) ← cut_byte close_paren r; Some (split_byte comma cs, r)
                     else Some ([], column_list v +:+ s)
     end) = Some (listed v, s)) as Hcols.
  { intros s Hs. unfold column_list, listed. destruct (AllColumns v) eqn:Ea; simpl andb.
    - rewrite string_app_nil. destruct s as [|p r]; [done|]. by rewrite decide_False.
    - assert (tc_Columns v ≠ []) as Hc by (intros E; unfold AllColumns in Ea; by rewrite E in Ea).
      rewrite bool_decide_true by (destruct (tc_Columns v); [done|simpl; lia]). rewrite <- !(assoc_L String.append).
      change ("(" +:+ ?x) with (String open_paren x). cbv beta iota. rewrite decide_True by done.
      change (")" +:+ ?x) with (String close_paren x). rewrite cut_byte_app.
      2: { apply concat_no_byte; [done|]. eapply Forall_impl; [exact Hv|]. by intros c [_ ?]. }
      cbn [mbind option_bind]. rewrite split_columns; [done|done|]. eapply Forall_impl; [exact Hv|]. by intros c [? _]. }
  rewrite Hcols.
  2: { destruct tables as [|[k2 v2] tables]; simpl; [|done]. rewrite string_app_nil. by destruct Htail as [[r ->]| ->]. }
  cbn [mbind option_bind]. destruct tables as [|[k2 v2] tables].
  - cbn [pub_string]. rewrite string_app_nil. by destruct Htail as [[r ->]| ->].
  - cbn [pub_string]. rewrite <- (assoc_L String.append). change ("," +:+ ?x) with (String comma x). cbv beta iota. rewrite decide_True by done.
    specialize (IH ltac:(done) fuel ltac:(simpl in *; lia)). cbn [pub_string] in IH. rewrite string_app_nil in IH.
    rewrite IH. done.
Qed.
End Text.

(** ** Comparing with the configuration *)

Module Compare.

Definition columnsDifferWithAllInConfig (pubTable pubTableWithAllColumns : Table) : bool :=
  negb (bool_decide (size (Columns pubTable) = size (Columns pubTableWithAllColumns))) ||
  existsb (λ kc, negb (HasColumn pubTableWithAllColumns (col_Name kc.2))) (map_to_list (Columns pubTable)).

Definition columnsDiffer (pubTable pubTableWithAllColumns : Table) (configTable : TableConfig) : bool :=
  if AllColumns configTable then columnsDifferWithAllInConfig pubTable pubTableWithAllColumns
  else negb (bool_decide (size (Columns pubTable) = length (tc_Columns configTable))) ||
       existsb (λ c, negb (HasColumn pubTable c)) (tc_Columns configTable).

Definition table_differs (pubTables withAll : gmap string Table) (kv : string * TableConfig) : bool :=
  match pubTables !! kv.1, withAll !! kv.1 with
  | Some t, Some a => columnsDiffer t a kv.2
  | _, _ => true
  end.

(** The answers are returned early, so the order of the iterations is of no
    consequence. *)
Definition hasChanges (pubTables withAll : gmap string Table) (tableConfig : gmap string TableConfig) : bool :=
  existsb (table_differs pubTables withAll) (map_to_list tableConfig) ||
  existsb (λ kt, negb (bool_decide (is_Some (tableConfig !! kt.1)))) (map_to_list pubTables).

(** The columns that the configuration asks for. *)
Definition wanted (v : TableConfig) (a : Table) : gset string :=
  if AllColumns v then dom (Columns a) else list_to_set (tc_Columns v).

Lemma existsb_false_elem {A} (f : A → bool) l : existsb f l = false ↔ ∀ x, x ∈ l → f x = false.
Proof.
  induction l as [|y l IH]; simpl; [split; [by intros _ x ?%elem_of_nil|done]|]. rewrite orb_false_iff, IH. split.
  - intros [Hy H] x [->|Hx]%elem_of_cons; [done|by apply H].
  - intros H. split; [apply H; by left|intros x Hx; apply H; by right].
Qed.

Lemma has_column t c : negb (HasColumn t c) = false ↔ c ∈ dom (Columns t).
Proof. unfold HasColumn. rewrite negb_false_iff, bool_decide_eq_true. symmetry. apply elem_of_dom. Qed.

(** Columns are compared exactly, when those of the configuration are different. *)
Lemma columnsDiffer_exact t a v :
  keyed (Columns t) → AllColumns v = true ∨ NoDup (tc_Columns v) →
  columnsDiffer t a v = false ↔ dom (Columns t) = wanted v a.
Proof.
  intros Hk Hv. unfold columnsDiffer, wanted. destruct (AllColumns v).
  - unfold columnsDifferWithAllInConfig. rewrite orb_false_iff, negb_false_iff, bool_decide_eq_true, existsb_false_elem.
    rewrite <- !size_dom. split.
    + intros [Hs Hsub]. apply leibniz_equiv, set_subseteq_size_equiv; [|lia]. intros c Hc.
      apply elem_of_dom in Hc as [col Hcol]. rewrite <- (Hk c col Hcol). apply has_column, (Hsub (c, col)).
      by apply elem_of_map_to_list.
    + intros E. rewrite E. split; [done|]. intros [c col] Hc%elem_of_map_to_list. simpl. apply has_column.
      rewrite <- E, (Hk c col Hc). by apply elem_of_dom_2 in Hc.
  - destruct Hv as [?|Hnd]; [done|]. rewrite orb_false_iff, negb_false_iff, bool_decide_eq_true, existsb_false_elem.
    rewrite <- size_dom, <- (size_list_to_set (C := gset string)) by done. split.
    + intros [Hs Hsub]. symmetry. apply leibniz_equiv, set_subseteq_size_equiv; [|lia].
      intros c Hc%elem_of_list_to_set. by apply has_column, Hsub.
    + intros E. rewrite E. split; [done|]. intros c Hc. apply has_column. rewrite E. by apply elem_of_list_to_set.
Qed.

(** The publication has the tables [conf] with the columns that [conf] asks for. *)
Definition matches (pub all : gmap string Table) (conf : gmap string TableConfig) : Prop :=
  dom pub = dom conf ∧
  ∀ name v, conf !! name = Some v →
    ∃ t a, pub !! name = Some t ∧ all !! name = Some a ∧ dom (Columns t) = wanted v a.

Lemma hasChanges_exact pub all conf :
  (∀ name t, pub !! name = Some t → keyed (Columns t)) →
  (∀ name v, conf !! name = Some v → AllColumns v = true ∨ NoDup (tc_Columns v)) →
  hasChanges pub all conf = false ↔ matches pub all conf.
Proof.
  intros Hk Hv. unfold hasChanges, matches. rewrite orb_false_iff, !existsb_false_elem. split.
  - intros [H1 H2]. assert (∀ name v, conf !! name = Some v →
      ∃ t a, pub !! name = Some t ∧ all !! name = Some a ∧ dom (Columns t) = wanted v a) as H3.
    { intros name v Hc. specialize (H1 (name, v)). rewrite elem_of_map_to_list in H1. specialize (H1 Hc).
      unfold table_differs in H1. simpl in H1. destruct (pub !! name) as [t|] eqn:Hp; [|done]. destruct (all !! name) as [a|]; [|done].
      exists t, a. split_and!; [done|done|]. apply columnsDiffer_exact; [by eapply Hk|by eapply Hv|done]. }
    split; [|done]. apply set_eq. intros name. rewrite !elem_of_dom. split.
    + intros [t Ht]. specialize (H2 (name, t)). rewrite elem_of_map_to_list in H2. specialize (H2 Ht). simpl in H2.
      by rewrite negb_false_iff, bool_decide_eq_true in H2.
    + intros [v Hc]. destruct (H3 name v Hc) as (t & a & Ht & _). by exists t.
  - intros [Hd H]. split.
    + intros [name v] Hc%elem_of_map_to_list. unfold table_differs. simpl. destruct (H name v Hc) as (t & a & Ht & Ha & E).
      rewrite Ht, Ha. apply columnsDiffer_exact; [by eapply Hk|by eapply Hv|done].
    + intros [name t] Ht%elem_of_map_to_list. simpl. rewrite negb_false_iff, bool_decide_eq_true.
      apply elem_of_dom. rewrite <- Hd. by eapply elem_of_dom_2.
Qed.

(** The tables that are read from the catalogue have their columns under their names. *)
Lemma AddColumn_keyed c t : keyed (Columns t) → keyed (Columns (AddColumn c t)).
Proof. intros H k x. simpl. rewrite lookup_insert_Some. intros [[<- <-]|[_ Hx]]; [done|by apply H]. Qed.

Definition all_keyed (m : gmap string Table) : Prop := ∀ name t, m !! name = Some t → keyed (Columns t).

Lemma table_or_new_keyed c m : all_keyed m → keyed (Columns (table_or_new c m)).
Proof.
  intros H. unfold table_or_new. destruct (m !! key_of c) as [t|] eqn:E; simpl; [by eapply H|].
  intros k x. simpl. by rewrite lookup_empty.
Qed.

Lemma insert_keyed k t m : keyed (Columns t) → all_keyed m → all_keyed (<[k := t]> m).
Proof. intros Ht Hm name x. rewrite lookup_insert_Some. intros [[_ <-]|[_ Hx]]; [done|by eapply Hm]. Qed.

Lemma ReadPubTables_keyed fold_eq a r12 r15 pubName ver pub all :
  ReadPubTables fold_eq a r12 r15 pubName ver = Ok (pub, all) → all_keyed pub.
Proof.
  assert (∀ cols m, all_keyed m → all_keyed (build_all cols m)) as H12.
  { induction cols as [|c r IH]; intros m Hm; [done|]. apply IH, insert_keyed; [|done]. by apply AddColumn_keyed, table_or_new_keyed. }
  assert (∀ cols p q, all_keyed p → all_keyed (buildV15 fold_eq cols p q).1) as H15.
  { induction cols as [|c r IH]; intros p q Hp; [done|]. simpl. apply IH, insert_keyed; [|done].
    destruct (in_pub fold_eq c); [apply AddColumn_keyed|]; by apply table_or_new_keyed. }
  assert (all_keyed ∅) as He by (intros name t; by rewrite lookup_empty).
  unfold ReadPubTables, ReadPubTablesV12, ReadPubTablesV15. case_bool_decide.
  - destruct (publicationExists a pubName) as [[]| | |]; try done. destruct r12 as [|cols]; [done|]. intros [= <- _].
    intros name t. unfold tablesV12. rewrite lookup_fmap. intros (t0 & Ht0 & ->)%fmap_Some. simpl.
    by eapply (H12 cols ∅ He).
  - case_bool_decide; [|done]. destruct (publicationExists a pubName) as [[]| | |]; try done. destruct r15 as [|rows]; [done|].
    res_step. destruct (collectRows rows) as [cols| | |]; try done. res_step. unfold tablesV15.
    pose proof (H15 cols ∅ ∅ He) as Hk. destruct (buildV15 fold_eq cols ∅ ∅) as [p q]. intros [= <- _].
    intros name t. rewrite map_lookup_imap. intros (t0 & Ht0 & [= <-])%bind_Some. simpl in Hk.
    destruct (q !! name); simpl; by eapply Hk.
Qed.
End Compare.

(** ** The migration *)

Module Migrate.
Import Text Compare.

Definition V13 : Z := 13.
Definition V17 : Z := 17.
Definition ErrSlotFailoverUnsupported : goerr := GoErr "replication slot failover is supported only in Postgres version >= 17".

(** What the creation of a slot answers: the consistent point, as a text, and
    the name of the exported snapshot. *)
Record slot_created := mkSlotCreated { ConsistentPoint : string; sc_SnapshotName : string }.

(** Statements and connections that are used, in order. *)
Inductive action :=
| Exec (text : string)
| OpenReplConn
| CreateSlot (text : string)
| CloseReplConn.
#[global] Instance migrate_action_eq_dec : EqDecision action.
Proof. solve_decision. Defined.

Record PublicationMigrator := mkMig { pubName : string; slotName : string; slotFailover : option bool }.

Section migrate.
(** The database: its states, the answers of the catalogue queries, the
    execution of a statement and the creation of a slot. *)
Context {D : Type}.
Context (fold_eq : string → string → bool).
Context (pub_exists : D → string → pubAnswer) (rows12 : D → string → goerr + list pubTableColumn)
        (rows15 : D → string → goerr + list nullableRow).
Context (exec : string → D → option goerr * D).
Context (slot_exists : D → string → goerr + bool) (repl_conn : D → option goerr)
        (create_slot : string → D → (goerr + slot_created) * D).
Context (ParseLSN : string → option Z).
(** The order in which Go goes through a map. *)
Context (order : ∀ A, gmap string A → list (string * A)).

Definition read_pub (d : D) (name : string) (ver : Z) : res (gmap string Table * gmap string Table) :=
  ReadPubTables fold_eq (pub_exists d name) (rows12 d name) (rows15 d name) name ver.

Definition run_text (wrap text : string) (d : D) : option goerr * D * list action :=
  let '(err, d) := exec text d in (GoWrap wrap <$> err, d, [Exec text]).

Definition alterPubSet (pm : PublicationMigrator) (conf : gmap string TableConfig) (d : D) : option goerr * D * list action :=
  run_text "alter publication error" (alter_text (pubName pm) (order _ conf)) d.
Definition createPub (pm : PublicationMigrator) (version : Z) (conf : gmap string TableConfig) (d : D) : option goerr * D * list action :=
  run_text "create publication error" (create_text (pubName pm) version (order _ conf)) d.

Definition migrateWithConn (pm : PublicationMigrator) (version : Z) (conf : gmap string TableConfig) (d : D)
    : option goerr * D * list action :=
  match read_pub d (pubName pm) version with
  | Ok (pub, all) => if hasChanges pub all conf then alterPubSet pm conf d else (None, d, [])
  | Err err => if errors_Is err "publication not found" then createPub pm version conf d
               else (Some (GoWrap "failed to read pub tables" err), d, [])
  | Panic m | Fatal m => (Some (GoErr m), d, [])
  end.

Definition effectiveSlotFailover (pm : PublicationMigrator) (version : Z) : goerr + bool :=
  match slotFailover pm with
  | None => inr (bool_decide (V17 ≤ version))
  | Some f => if f && bool_decide (version < V17) then inl ErrSlotFailoverUnsupported else inr f
  end.

(** The new slot's position with the exported snapshot; its connection stays
    open. *)
Definition createSlot (pm : PublicationMigrator) (failover : bool) (d : D) : (goerr + Manager.Snapshot) * D * list action :=
  match repl_conn d with
  | Some err => (inl (GoWrap "failed to connect via replication connection" err), d, [])
  | None =>
      let text := createReplicationSlotSQL (slotName pm) failover in
      match create_slot text d with
      | (inl err, d) => (inl (GoWrap "failed to create replication slot" err), d, [OpenReplConn; CreateSlot text; CloseReplConn])
      | (inr result, d) =>
          match ParseLSN (ConsistentPoint result) with
          | None => (inl (GoErr "failed to parse replication slot consistent point"), d, [OpenReplConn; CreateSlot text; CloseReplConn])
          | Some lsn =>
              if bool_decide (sc_SnapshotName result = EmptyString)
              then (inl (GoErr "replication slot was created without an exported snapshot name"), d,
                    [OpenReplConn; CreateSlot text; CloseReplConn])
              else (inr (Manager.mkSlotSnapshot lsn (sc_SnapshotName result)), d, [OpenReplConn; CreateSlot text])
          end
      end
  end.

Definition migrateSlot (pm : PublicationMigrator) (version : Z) (d : D) : (goerr + option Manager.Snapshot) * D * list action :=
  match effectiveSlotFailover pm version with
  | inl err => (inl err, d, [])
  | inr failover =>
      match slot_exists d (slotName pm) with
      | inl err => (inl (GoWrap "failed to check replication slot" err), d, [])
      | inr true => (inr None, d, [])
      | inr false =>
          match createSlot pm failover d with
          | (inl err, d, acts) => (inl err, d, acts)
          | (inr s, d, acts) => (inr (Some s), d, acts)
          end
      end
  end.

(** [Migrate], with [CreatedSlotSnapshot]. *)
Definition Migrate (pm : PublicationMigrator) (version : goerr + Z) (conf : gmap string TableConfig) (d : D)
    : (goerr + option Manager.Snapshot) * D * list action :=
  match version with
  | inl err => (inl (GoErr "unsupported primary node version"), d, [])
  | inr version =>
      match migrateWithConn pm version conf d with
      | (Some err, d, acts) => (inl (GoWrap "migration error" err), d, acts)
      | (None, d, acts) =>
          if bool_decide (slotName pm = EmptyString) then (inr None, d, acts)
          else match migrateSlot pm version d with
               | (inl err, d, acts') => (inl (GoWrap "slot migration error" err), d, acts ++ acts')
               | (inr s, d, acts') => (inr s, d, acts ++ acts')
               end
      end
  end.

(** A replication connection stays open exactly with a snapshot for it. *)
Lemma Migrate_connection pm version conf d s d' acts :
  Migrate pm version conf d = (s, d', acts) →
  length (filter (λ a, a = OpenReplConn) acts) =
    (length (filter (λ a, a = CloseReplConn) acts) + match s with inr (Some _) => 1 | _ => 0 end)%nat.
Proof using Type.
  assert (∀ pm version conf d e d' acts, migrateWithConn pm version conf d = (e, d', acts) →
    filter (λ a, a = OpenReplConn) acts = [] ∧ filter (λ a, a = CloseReplConn) acts = []) as Hm.
  { clear. intros pm version conf d e d' acts. unfold migrateWithConn, alterPubSet, createPub, run_text.
    destruct (read_pub d (pubName pm) version) as [[pub all]|err| |].
    - destruct (hasChanges pub all conf); [destruct (exec _ d)|]; by intros [= <- <- <-].
    - destruct (errors_Is _ _); [destruct (exec _ d)|]; by intros [= <- <- <-].
    - by intros [= <- <- <-].
    - by intros [= <- <- <-]. }
  unfold Migrate. destruct version as [err|version]; [by intros [= <- <- <-]|].
  destruct (migrateWithConn pm version conf d) as [[e d1] a1] eqn:E. destruct (Hm _ _ _ _ _ _ _ E) as [H1 H2].
  destruct e; [intros [= <- <- <-]; by rewrite H1, H2|].
  case_bool_decide; [intros [= <- <- <-]; by rewrite H1, H2|].
  unfold migrateSlot. destruct (effectiveSlotFailover pm version) as [?|failover]; [intros [= <- <- <-]; by rewrite app_nil_r, H1, H2|].
  destruct (slot_exists d1 (slotName pm)) as [?|[]]; [intros [= <- <- <-]; by rewrite app_nil_r, H1, H2..|].
  unfold createSlot. destruct (repl_conn d1); [intros [= <- <- <-]; by rewrite app_nil_r, H1, H2|].
  destruct (create_slot _ d1) as [[?|result] d2]; [intros [= <- <- <-]; rewrite !filter_app, H1, H2; reflexivity|].
  destruct (ParseLSN _); [|intros [= <- <- <-]; rewrite !filter_app, H1, H2; reflexivity].
  case_bool_decide; intros [= <- <- <-]; rewrite !filter_app, H1, H2; reflexivity.
Qed.
End migrate.
End Migrate.

(** ** The migrated publication *)

Module Correct.
Import Text Compare Migrate.

Section correct.
Context {D : Type}.
Context (fold_eq : string → string → bool).
Context (pub_exists : D → string → pubAnswer) (rows12 : D → string → goerr + list pubTableColumn)
        (rows15 : D → string → goerr + list nullableRow).
Context (exec : string → D → option goerr * D).
Context (order : ∀ A, gmap string A → list (string * A)).
Hypothesis order_perm : ∀ A (m : gmap string A), order A m ≡ₚ map_to_list m.
Notation read_pub := (read_pub fold_eq pub_exists rows12 rows15).

(** PostgreSQL on the statements: a statement with a list of tables that is
    executed makes the publication have these tables, with the columns of the
    list, or all columns of a table that has no list. *)
Definition publishes (pub all : gmap string Table) (l : list (string * list string)) : Prop :=
  dom pub = list_to_set l.*1 ∧
  ∀ name cols, (name, cols) ∈ l → ∃ t a, pub !! name = Some t ∧ all !! name = Some a ∧
    dom (Columns t) = match cols with [] => dom (Columns a) | _ => list_to_set cols end.
Definition statement (name : string) (body text : string) : Prop :=
  text = "ALTER PUBLICATION " +:+ name +:+ " SET TABLE" +:+ newline +:+ body ∨
  text = "CREATE PUBLICATION " +:+ name +:+ " FOR TABLE" +:+ newline +:+ body.
Hypothesis exec_publication : ∀ name body text l rest d d' ver pub all,
  statement name body text → read_tables (String.length body) body = Some (l, rest) →
  exec text d = (None, d') → read_pub d' name ver = Ok (pub, all) → publishes pub all l.

Lemma pub_string_length sep tables : (length tables ≤ String.length (pub_string sep tables))%nat.
Proof using Type.
  clear. revert sep. induction tables as [|[k v] tables IH]; intros sep; [done|]. cbn [pub_string length].
  rewrite !string_length_app. specialize (IH ","). simpl. lia.
Qed.

Lemma publishes_matches pub all conf l :
  l ≡ₚ map_to_list conf → publishes pub all ((λ kv : string * TableConfig, (kv.1, listed kv.2)) <$> l) → matches pub all conf.
Proof using Type.
  clear. intros Hl [Hd H]. split.
  - rewrite Hd. apply set_eq. intros name. rewrite elem_of_list_to_set, elem_of_dom, <- list_fmap_compose, list_elem_of_fmap. split.
    + intros ([k v] & -> & Hin). rewrite Hl, elem_of_map_to_list in Hin. by exists v.
    + intros [v Hv]. exists (name, v). split; [done|]. by rewrite Hl, elem_of_map_to_list.
  - intros name v Hv. destruct (H name (listed v)) as (t & a & Ht & Ha & E).
    { apply list_elem_of_fmap. exists (name, v). split; [done|]. by rewrite Hl, elem_of_map_to_list. }
    exists t, a. split_and!; [done|done|]. rewrite E. unfold wanted, listed. destruct (AllColumns v) eqn:Ev; [done|].
    destruct (tc_Columns v) eqn:Ec; [|done]. unfold AllColumns in Ev. by rewrite Ec in Ev.
Qed.

Lemma executed_matches pm body tail conf text d d' ver pub all :
  conf ≠ ∅ → tables_ok (order _ conf) → body = createPubString (order _ conf) +:+ tail →
  (∃ r, tail = String space r) ∨ tail = EmptyString → statement (pubName pm) body text →
  exec text d = (None, d') → read_pub d' (pubName pm) ver = Ok (pub, all) → matches pub all conf.
Proof using exec_publication order_perm.
  intros Hne Hok Hbody Htail Htext Hex Hrd. eapply publishes_matches; [apply order_perm|].
  eapply exec_publication; [exact Htext| |exact Hex|exact Hrd]. subst body. apply read_pub_string; [|done| |done].
  - intros E. pose proof (order_perm _ conf) as Hp. rewrite E in Hp. by apply Permutation_nil_l, eq_sym, map_to_list_empty_iff in Hp.
  - rewrite string_length_app. unfold createPubString. pose proof (pub_string_length EmptyString (order _ conf)). lia.
Qed.

(** C18: after a migration without an error the publication has exactly the
    configured tables, each with exactly the configured columns or, where all
    columns are configured, with all columns of the table: either it had them
    before and nothing was executed, or the one statement that was executed
    lists them.  At least one table is configured, the names of tables and
    columns need no quotes, and no table's columns are listed twice (a column
    listed twice can hide that another published column is not configured);
    PostgreSQL publishes what a statement it executes without an error lists. *)
Theorem publication_migrated pm ver conf d d' acts pub all :
  conf ≠ ∅ → tables_ok (order _ conf) →
  (∀ name v, conf !! name = Some v → AllColumns v = true ∨ NoDup (tc_Columns v)) →
  migrateWithConn fold_eq pub_exists rows12 rows15 exec order pm ver conf d = (None, d', acts) →
  read_pub d' (pubName pm) ver = Ok (pub, all) →
  matches pub all conf ∧
  ((acts = [] ∧ d' = d) ∨ ∃ text, acts = [Exec text] ∧ exec text d = (None, d')).
Proof using exec_publication order_perm.
  intros Hne Hok Hdup Hm Hrd. unfold migrateWithConn, alterPubSet, createPub, run_text in Hm.
  destruct (read_pub d (pubName pm) ver) as [[p a]|err| |] eqn:Hr; [| |done|done].
  - destruct (hasChanges p a conf) eqn:Hc.
    + destruct (exec _ d) as [e d1] eqn:Hex. destruct e; [done|]. injection Hm as <- <-. split; [|right; eauto].
      eapply (executed_matches pm _ EmptyString); [done|done|by rewrite (right_id_L _ String.append)|by right|by left|exact Hex|exact Hrd].
    + injection Hm as <- <-. rewrite Hr in Hrd. injection Hrd as <- <-. split; [|by left].
      apply hasChanges_exact in Hc; [done| |done]. by eapply ReadPubTables_keyed.
  - destruct (errors_Is _ _); [|done]. destruct (exec _ d) as [e d1] eqn:Hex. destruct e; [done|].
    injection Hm as <- <-. split; [|right; eauto].
    eapply (executed_matches pm _ (if bool_decide (13 ≤ ver) then via_root else EmptyString));
      [done|done|reflexivity| |by right|exact Hex|exact Hrd].
    case_bool_decide; [left; eexists; reflexivity|by right].
Qed.
End correct.
End Correct.

(** ** A database with two tables *)

Module Samples.
Import Text Compare Migrate Correct.

Definition in_order A (m : gmap string A) : list (string * A) := map_to_list m.
Definition fold_eq : string → string → bool := EqualFold.
Definition pm : PublicationMigrator := mkMig "p" "s" None.

Definition row (names : option (list string)) (table column : string) (pos : Z) : nullableRow :=
  mkNR names (Some "public") (Some table) (Some column) (Some 25) (Some (bool_decide (pos = 1))) (Some pos).
Definition users_row names column := row names "users" column.
Definition orders_row names column := row names "orders" column.

(** The users without their names are published before, all columns of both tables after. *)
Definition before : list nullableRow := [users_row (Some ["id"]) "id" 1; users_row (Some ["id"]) "name" 2].
Definition after : list nullableRow :=
  [users_row (Some ["id"; "name"]) "id" 1; users_row (Some ["id"; "name"]) "name" 2; orders_row None "id" 1; orders_row None "total" 2].

Definition conf : gmap string TableConfig :=
  {[ "public.users" := mkTC ["id"; "name"] ∅; "public.orders" := mkTC ["all"] ∅ ]}.
Definition the_text : string := alter_text "p" (in_order _ conf).

Definition exists_ (d : bool) (name : string) : pubAnswer := if bool_decide (name = "p") then PubFound else PubNoRows.
Definition none12 (d : bool) (name : string) : goerr + list pubTableColumn := inl (GoErr "not this version").
Definition rows_of (d : bool) (name : string) : goerr + list nullableRow := inr (if d then after else before).
Definition run (text : string) (d : bool) : option goerr * bool :=
  if bool_decide (text = the_text) then (None, true) else (Some (GoErr "syntax error"), d).

(** The statement in full. *)
Example statement_text :
  the_text = "ALTER PUBLICATION p SET TABLE" +:+ newline +:+ " public.orders , public.users (id,name)" ∨
  the_text = "ALTER PUBLICATION p SET TABLE" +:+ newline +:+ " public.users (id,name), public.orders ".
Proof. first [left; vm_compute; reflexivity | right; vm_compute; reflexivity]. Qed.

Ltac decided := refine (bool_decide_eq_true_1 _ _); vm_compute; reflexivity.

Definition tables_after : gmap string Table * gmap string Table :=
  tablesV15 fold_eq (match collectRows after with Ok c => c | _ => [] end).

(** [publishes] for closed tables, by evaluation. *)
Definition published_as (pub all : gmap string Table) (nc : string * list string) : bool :=
  match pub !! nc.1, all !! nc.1 with
  | Some t, Some a => bool_decide (dom (Columns t) = match nc.2 with [] => dom (Columns a) | _ => list_to_set nc.2 end)
  | _, _ => false
  end.
Lemma publishes_closed pub all l :
  bool_decide (dom pub = list_to_set l.*1) = true → forallb (published_as pub all) l = true → publishes pub all l.
Proof.
  intros Hd%bool_decide_eq_true H. split; [done|]. intros name cols Hin. rewrite forallb_forall in H.
  apply list_elem_of_In, H in Hin. unfold published_as in Hin. cbn [fst snd] in Hin.
  destruct (pub !! name) as [t|]; [|done]. destruct (all !! name) as [a|]; [|done].
  apply bool_decide_eq_true in Hin. by exists t, a.
Qed.

Lemma after_published : publishes tables_after.1 tables_after.2 ((λ kv : string * TableConfig, (kv.1, listed kv.2)) <$> in_order _ conf).
Proof. apply publishes_closed; vm_compute; reflexivity. Qed.

Definition from_Ok {A} (a : A) (r : res A) : A := match r with Ok x => x | _ => a end.

Lemma run_statement name body text l rest d d' ver pub all :
  statement name body text → read_tables (String.length body) body = Some (l, rest) →
  run text d = (None, d') → read_pub fold_eq exists_ none12 rows_of d' name ver = Ok (pub, all) → publishes pub all l.
Proof.
  intros Ht Hl Hrun Hrd. unfold run in Hrun. destruct (bool_decide_reflect (text = the_text)) as [->|]; [|done].
  injection Hrun as <-. unfold read_pub, ReadPubTables, ReadPubTablesV12, ReadPubTablesV15, exists_ in Hrd.
  case_bool_decide; [by destruct (publicationExists _ _)|]. case_bool_decide; [|done].
  case_bool_decide as Hname; [subst name|done].
  assert (Some body = cut_prefix ("ALTER PUBLICATION p SET TABLE" +:+ newline) the_text) as Hb.
  { destruct Ht as [-> | E].
    - symmetry. change ("ALTER PUBLICATION " +:+ ("p" +:+ (" SET TABLE" +:+ (newline +:+ body)))) with
        (("ALTER PUBLICATION p SET TABLE" +:+ newline) +:+ body). apply cut_prefix_app.
    - vm_compute in E. discriminate E. }
  assert (l = ((λ kv : string * TableConfig, (kv.1, listed kv.2)) <$> in_order _ conf)) as ->.
  { vm_compute in Hb. injection Hb as ->. vm_compute in Hl. injection Hl as <- _. vm_compute. reflexivity. }
  assert (Ok tables_after = Ok (pub, all)) as E by (rewrite <- Hrd; reflexivity).
  apply (f_equal (from_Ok tables_after)) in E. cbn [from_Ok] in E. pose proof after_published as Hpub.
  rewrite E in Hpub. exact Hpub.
Qed.

Lemma publication_migrated_witness :
  let pub := tablesV15 fold_eq (match collectRows after with Ok c => c | _ => [] end) in
  matches pub.1 pub.2 conf ∧
  (([Exec the_text] = [] ∧ true = false) ∨ ∃ text, [Exec the_text] = [Exec text] ∧ run text false = (None, true)).
Proof.
  intros pub. apply (publication_migrated fold_eq exists_ none12 rows_of run in_order (λ A m, reflexivity _) run_statement
           pm 15 conf false true [Exec the_text]).
  - decided.
  - unfold tables_ok, table_name_ok, column_name_ok. decided.
  - intros name v Hv. unfold conf in Hv. rewrite lookup_insert_Some, lookup_singleton_Some in Hv.
    destruct Hv as [[_ <-]|(_ & _ & <-)]; [right|left; reflexivity]. decided.
  - vm_compute. reflexivity.
  - vm_compute. reflexivity.
Defined.

(** A column that is listed twice hides that another column is published
    although it is not configured: no change is seen. *)
Definition twice : gmap string TableConfig := {[ "public.users" := mkTC ["id"; "id"] ∅ ]}.
Definition published : gmap string Table * gmap string Table :=
  tablesV15 fold_eq (match collectRows [users_row None "id" 1; users_row None "name" 2] with Ok c => c | _ => [] end).
Example repeated_column_hides_change :
  hasChanges published.1 published.2 twice = false ∧ ¬ matches published.1 published.2 twice.
Proof.
  split; [vm_compute; reflexivity|]. intros [_ H]. destruct (H "public.users" (mkTC ["id"; "id"] ∅)) as (t & a & Ht & _ & E); [done|].
  assert ("name" ∈ dom (Columns t)) as Hin.
  { vm_compute in Ht. injection Ht as <-. decided. }
  rewrite E in Hin. change (wanted _ a) with (list_to_set ["id"; "id"] : gset string) in Hin.
  rewrite elem_of_list_to_set in Hin. revert Hin. decided.
Qed.
End Samples.
