(* ===== verification/Connector.v ===== *)
(** * Connections to PostgreSQL (src/config/conn.go, src/config/pgconfig,
      src/pgschema/pgconnector)

    - [Options]: the hosts and ports of a configuration, and their validation;
    - [Node]: one server and its connection;
    - [Connector]: the servers, of which queries use the primary one;
    - [Follow]: the primary server that is used is the first that answers as
      one, whatever happened before, and no connection is lost.

    What a server answers when it is asked, the text of a connection string and
    its parsing are arguments. *)

From stdpp Require Import base numbers list gmap strings pretty.
From S2P Require Import Prelude GoStrings.

(** ** Connection options *)

Module Options.

Record TLSOptions := mkTLS { Cert : string; Key : string; RootCert : string }.
#[global] Instance TLSOptions_eq_dec : EqDecision TLSOptions.
Proof. solve_decision. Defined.

Definition empty (s : string) : bool := bool_decide (s = EmptyString).
Definition IsEmpty (t : TLSOptions) : bool := empty (Cert t) && empty (Key t) && empty (RootCert t).

(** [errors.Join] of the complaints, in order. *)
Definition complain (err : option goerr) (b : bool) (msg : string) : option goerr :=
  if b then Some (match err with Some e => GoJoin e (GoErr msg) | None => GoErr msg end) else err.
Definition Validate (t : TLSOptions) : option goerr :=
  if IsEmpty t then None
  else complain (complain (complain None (empty (Cert t)) "TLS cert is required") (empty (Key t)) "TLS key is required")
                (empty (RootCert t)) "TLS root cert is required".

Record ConnectionOpts := mkOpts {
  Host : string; Port : string; Database : string; User : string; Password : string; TLS : TLSOptions }.

(** The same fields with several hosts and ports, and what was parsed from them. *)
Record ConnectionOptsMany := mkMany { many : ConnectionOpts; opts : option (list ConnectionOpts) }.

Definition comma : Ascii.ascii := Ascii.ascii_of_nat 44.
Definition with_address (host port : string) (o : ConnectionOpts) : ConnectionOpts :=
  mkOpts host port (Database o) (User o) (Password o) (TLS o).

Fixpoint same_database (first : ConnectionOpts) (os : list ConnectionOpts) : bool :=
  match os with
  | [] => true
  | o :: r => bool_decide (Database o = Database first) && bool_decide (User o = User first) &&
              bool_decide (Password o = Password first) && same_database first r
  end.

Definition JoinOpts (os : list ConnectionOpts) : goerr + option ConnectionOptsMany :=
  match os with
  | [] => inr None
  | [o] => inr (Some (mkMany o None))
  | first :: _ =>
      if same_database first os
      then inr (Some (mkMany (with_address (String.concat "," (Host <$> os)) (String.concat "," (Port <$> os)) first) (Some os)))
      else inl (GoErr "database, user and password must be the same")
  end.

(** The parts that are not blank, without the blanks around them. *)
Definition parts (s : string) : list string :=
  TrimSpace <$> List.filter (λ p, negb (bool_decide (TrimSpace p = EmptyString))) (split_byte comma s).

Definition ErrHostsPortsCountMismatch : goerr := GoErr "number of ports should match number of hosts or should be exactly one".

Definition parseOpts (com : ConnectionOpts) : res (list ConnectionOpts) :=
  if empty (Host com) then Err (GoErr "no hosts provided")
  else if empty (Port com) then Err (GoErr "no ports provided")
  else
    let hosts := parts (Host com) in
    let ports := parts (Port com) in
    if negb (bool_decide (length hosts = length ports)) && bool_decide (1 < length ports)%nat then Err ErrHostsPortsCountMismatch
    else match hosts, ports with
         | [], _ => Ok []
         | _, [] => Panic "index out of range"
         | _, [port] => Ok ((λ h, with_address h port com) <$> hosts)
         | _, _ => Ok (zip_with (λ h p, with_address h p com) hosts ports)
         end.

(** [AllOpts]; the parsed options are kept. *)
Definition AllOpts (com : ConnectionOptsMany) : res (list ConnectionOpts) :=
  match opts com with Some os => Ok os | None => parseOpts (many com) end.

(** [pgconfig.PgConfig.Validate]; an empty database discards what was wrong with
    the options before it. *)
Fixpoint validateOpts (os : list ConnectionOpts) (err : option goerr) : option goerr :=
  match os with
  | [] => err
  | o :: r =>
      let err := if empty (Database o) then Some (GoErr "PG DB is empty") else err in
      let err := complain err (empty (Password o) && IsEmpty (TLS o)) "PG PWD is empty" in
      let err := match Validate (TLS o), err with Some e, Some e0 => Some (GoJoin e0 e) | Some e, None => Some e | None, err => err end in
      validateOpts r err
  end.
Definition ValidatePgConfig (conn : option ConnectionOptsMany) : res unit :=
  match conn with
  | None => Err (GoErr "connection configuration is empty")
  | Some com => os ← AllOpts com; match validateOpts os None with Some err => Err err | None => Ok () end
  end.

(** Valid options have a database, and a password or all of TLS. *)
Definition valid (o : ConnectionOpts) : Prop :=
  Database o ≠ EmptyString ∧ (Password o ≠ EmptyString ∨ IsEmpty (TLS o) = false) ∧ Validate (TLS o) = None.

Lemma validateOpts_None os err : validateOpts os err = None ↔ err = None ∧ Forall valid os.
Proof.
  revert err. induction os as [|o os IH]; intros err; cbn [validateOpts]; [by split; [split|intros [-> _]]|]. rewrite IH, Forall_cons. clear IH.
  unfold valid, complain, empty. destruct (bool_decide_reflect (Database o = EmptyString)) as [Hd|Hd];
    destruct (bool_decide_reflect (Password o = EmptyString)) as [Hp|Hp]; destruct (IsEmpty (TLS o)) eqn:Et; simpl;
    destruct (Validate (TLS o)), err; naive_solver.
Qed.

(** A list of addresses without blanks and commas. *)
Definition address (s : string) : Prop := s ≠ EmptyString ∧ has_byte comma s = false ∧ TrimSpace s = s.

Lemma parts_concat l : l ≠ [] → Forall address l → parts (String.concat "," l) = l.
Proof.
  intros Hne H. unfold parts.
  assert (split_byte comma (String.concat "," l) = l) as ->.
  { induction H as [|s [|t r] Hs Hr IH]; [done|apply split_byte_none, Hs|].
    change (String.concat "," (s :: t :: r)) with (s +:+ String comma (String.concat "," (t :: r))).
    rewrite split_byte_app by apply Hs. by rewrite IH. }
  clear Hne. induction H as [|s r (Hs & _ & Ht) _ IH]; [done|]. cbn [List.filter]. rewrite Ht, bool_decide_false by done.
  cbn [negb]. by rewrite fmap_cons, Ht, IH.
Qed.

Lemma concat_nonempty l : l ≠ [] → Forall address l → empty (String.concat "," l) = false.
Proof.
  intros Hne Hl. unfold empty. apply bool_decide_eq_false. intros E. pose proof (parts_concat l Hne Hl) as Hc. rewrite E in Hc.
  destruct Hl as [|s r Hs _]; [done|]. vm_compute in Hc. done.
Qed.

Lemma parse_addresses com hosts ports :
  Host com = String.concat "," hosts → Port com = String.concat "," ports → hosts ≠ [] → length hosts = length ports →
  Forall address hosts → Forall address ports →
  parseOpts com = Ok (zip_with (λ h p, with_address h p com) hosts ports).
Proof.
  intros Eh Ep Hne Hlen Hh Hp. assert (ports ≠ []) as Hne2 by (intros ->; by destruct hosts).
  unfold parseOpts. rewrite Eh, Ep, !concat_nonempty, !parts_concat by done. rewrite bool_decide_true by done. simpl andb. cbv iota.
  destruct hosts as [|h [|h2 hosts]], ports as [|p [|p2 ports]]; done.
Qed.

Lemma addresses_back com first os :
  Database com = Database first → User com = User first → Password com = Password first → TLS com = TLS first →
  same_database first os = true → (∀ o, o ∈ os → TLS o = TLS first) →
  zip_with (λ h p, with_address h p com) (Host <$> os) (Port <$> os) = os.
Proof.
  intros H1 H2 H3 H4. induction os as [|o os IH]; [done|]. cbn [same_database].
  intros [[[Hd%bool_decide_eq_true Hu%bool_decide_eq_true]%andb_true_iff Hw%bool_decide_eq_true]%andb_true_iff Hl]%andb_true_iff Ht.
  rewrite !fmap_cons. cbn [zip_with]. f_equal; [|apply IH; [done|intros; apply Ht; by right]].
  unfold with_address. rewrite H1, H2, H3, H4, <- Hd, <- Hu, <- Hw, <- (Ht o) by (by left). by destruct o.
Qed.

(** Options that were joined are parsed into the same options again. *)
Lemma joined_opts_parsed os com :
  Forall (λ o, address (Host o) ∧ address (Port o)) os → JoinOpts os = inr (Some com) →
  (∀ o, o ∈ os → TLS o = TLS (many com)) → parseOpts (many com) = Ok os ∧ AllOpts com = Ok os.
Proof.
  intros Ha Hj Htls.
  assert (Forall address (Host <$> os) ∧ Forall address (Port <$> os)) as [Hh Hp].
  { rewrite !Forall_fmap. split; (eapply Forall_impl; [exact Ha|]); by intros o [? ?]. }
  assert (∀ com, AllOpts com = match opts com with Some os => Ok os | None => parseOpts (many com) end) as Hall by done. rewrite Hall.
  destruct os as [|o1 [|o2 os]]; [done| |].
  - injection Hj as <-. cbn [many opts]. assert (parseOpts o1 = Ok [o1]) as ->; [|done].
    rewrite (parse_addresses o1 [Host o1] [Port o1]) by done. by destruct o1.
  - remember (o2 :: os) as rest eqn:Er. unfold JoinOpts in Hj. rewrite Er in Hj. rewrite <- Er in Hj.
    destruct (same_database o1 (o1 :: rest)) eqn:Hs; [|done]. injection Hj as <-. cbn [many opts] in *. split; [|done].
    rewrite (parse_addresses _ (Host <$> o1 :: rest) (Port <$> o1 :: rest)); [|done|done|done|by rewrite !length_fmap|done|done].
    f_equal. by apply (addresses_back _ o1).
Qed.
End Options.

(** ** A server *)

Module Node.

(** What a server answers during one [Connect]: to a new connection, to a ping,
    to a second connection and a second ping, to the question whether it is in
    recovery, and to the one for its version. *)
Record node_answers := mkNodeAnswers {
  a_connect : option goerr; a_ping : option goerr; a_reconnect : option goerr; a_ping2 : option goerr;
  a_recovery : goerr + bool; a_version : goerr + Z }.

Inductive action := OpenConn | CloseConn.
#[global] Instance conn_action_eq_dec : EqDecision action.
Proof. solve_decision. Defined.

(** What a connection string parses to. *)
Record conn_config := mkConfig { c_Host : string; c_Port : N; RuntimeParams : gmap string string }.
Definition set_param (k v : string) (c : conn_config) : conn_config := mkConfig (c_Host c) (c_Port c) (<[k:=v]> (RuntimeParams c)).

(** The connection is there or not; version 0 is [Unknown]. *)
Record PGNode := mkNode {
  isPrimary : bool; replConfig : conn_config; connConfig : conn_config; hostPort : string; conn : bool; version : Z }.
Definition New (replConfig connConfig : conn_config) : PGNode :=
  mkNode false replConfig connConfig (c_Host connConfig +:+ ":" +:+ pretty (c_Port connConfig)) false 0.
Definition with_primary (b : bool) (n : PGNode) : PGNode :=
  mkNode b (replConfig n) (connConfig n) (hostPort n) (conn n) (version n).
Definition with_conn (b : bool) (n : PGNode) : PGNode :=
  mkNode (isPrimary n) (replConfig n) (connConfig n) (hostPort n) b (version n).
Definition with_version (v : Z) (n : PGNode) : PGNode :=
  mkNode (isPrimary n) (replConfig n) (connConfig n) (hostPort n) (conn n) v.
(** What never changes of a server. *)
Definition settings (n : PGNode) : conn_config * conn_config * string := (replConfig n, connConfig n, hostPort n).

Definition connectNew (answer : option goerr) (n : PGNode) : option goerr * PGNode * list action :=
  match answer with
  | Some err => (Some (GoWrap "failed to connect to node" err), n, [])
  | None => (None, with_conn true n, [OpenConn])
  end.
Definition getConnOrConnect (answer : option goerr) (n : PGNode) : option goerr * PGNode * list action :=
  if conn n then (None, n, []) else connectNew answer n.

(** The questions after a ping that was answered. *)
Definition ask (a : node_answers) (n : PGNode) : option goerr * PGNode :=
  match a_recovery a with
  | inl err => (Some (GoWrap "failed to query status of node" err), n)
  | inr inRecovery =>
      let n := with_primary (negb inRecovery) n in
      match a_version a with
      | inl err => (Some (GoWrap "failed to read version of node" err), n)
      | inr ver => (None, with_version ver n)
      end
  end.

Definition Connect (a : node_answers) (n : PGNode) : option goerr * PGNode * list action :=
  let '(err, n, acts) := getConnOrConnect (a_connect a) (with_primary false n) in
  match err with
  | Some err => (Some err, n, acts)
  | None =>
      match a_ping a with
      | None => let '(err, n) := ask a n in (err, n, acts)
      | Some _ =>
          let closed := if conn n then [CloseConn] else [] in
          let '(err, n, acts') := connectNew (a_reconnect a) (with_conn false n) in
          match err with
          | Some err => (Some err, n, acts ++ closed ++ acts')
          | None =>
              match a_ping2 a with
              | Some err => (Some (GoWrap "failed to ping node" err), n, acts ++ closed ++ acts')
              | None => let '(err, n) := ask a n in (err, n, acts ++ closed ++ acts')
              end
          end
      end
  end.

Definition Close (n : PGNode) : PGNode * list action := if conn n then (with_conn false n, [CloseConn]) else (n, []).

Definition ErrNodeNotConnected : goerr := GoErr "node is not connected".
Definition ConnectReplication {T} (dial : conn_config → goerr + T) (n : PGNode) : goerr + T :=
  match dial (replConfig n) with inl err => inl (GoWrap "failed to connect via replication connection" err) | inr c => inr c end.
Definition WithConnection {T} (n : PGNode) (f : string → goerr + T) : goerr + T :=
  if conn n then f (hostPort n) else inl (GoWrap (hostPort n) ErrNodeNotConnected).

(** The server can be used: the connection that is there, or a new one, answers. *)
Definition reachable (had : bool) (a : node_answers) : bool :=
  (had || bool_decide (a_connect a = None)) &&
  (bool_decide (a_ping a = None) || bool_decide (a_reconnect a = None) && bool_decide (a_ping2 a = None)).
Definition answers_as_primary (had : bool) (a : node_answers) : bool :=
  reachable had a && match a_recovery a with inr b => negb b | inl _ => false end.

(** The connections that are open. *)
Definition open_conns (acts : list action) : Z :=
  Z.of_nat (length (filter (λ a, a = OpenConn) acts)) - Z.of_nat (length (filter (λ a, a = CloseConn) acts)).
Lemma open_conns_app a b : open_conns (a ++ b) = open_conns a + open_conns b.
Proof. unfold open_conns. rewrite !filter_app, !length_app. lia. Qed.

Definition conn_Z (n : PGNode) : Z := if conn n then 1 else 0.

(** After [Connect] a server is taken for the primary one exactly when it could be
    used and said so just now; it then has a connection. *)
Lemma Connect_spec a n err n' acts :
  Connect a n = (err, n', acts) →
  settings n' = settings n ∧ isPrimary n' = answers_as_primary (conn n) a ∧
  (isPrimary n' = true → conn n' = true) ∧ open_conns acts = conn_Z n' - conn_Z n.
Proof.
  intros H. unfold Connect, getConnOrConnect, connectNew, ask, answers_as_primary, reachable, conn_Z in *. destruct n as [p rc cc h c v]. simpl in *.
  destruct c, (a_connect a), (a_ping a), (a_reconnect a), (a_ping2 a), (a_recovery a) as [?|[]], (a_version a); simpl in *;
    injection H as <- <- <-; done.
Qed.
End Node.

(** ** The servers *)

Module Connector.
Import Node.

Definition ErrPrimNodeNotAvailable : goerr := GoErr "primary node not available".
Definition ErrUnableToConnectToPrimNode : goerr := GoErr "unable to connect to primary node".

Definition PGConnector : Type := list PGNode.

Section new.
Context (CreateConnStr : Options.ConnectionOpts → string) (ParseReplConfig ParseConfig : string → goerr + conn_config).

Definition createNode (connStr appName : string) : res PGNode :=
  match ParseReplConfig connStr with
  | inl err => Err (GoWrap "connector: failed to parse connection string" err)
  | inr replCfg =>
      let replCfg := if bool_decide (RuntimeParams replCfg !! "replication" = Some "database") then replCfg
                     else set_param "replication" "database" replCfg in
      let replCfg := if bool_decide (appName = EmptyString) then replCfg
                     else set_param "application_name" (appName +:+ "_repl") replCfg in
      match ParseConfig connStr with
      | inl err => Err (GoWrap "connector: failed to parse connection string" err)
      | inr cfg => Ok (New replCfg (if bool_decide (appName = EmptyString) then cfg else set_param "application_name" appName cfg))
      end
  end.

Definition NewWithApp (opts : Options.ConnectionOptsMany) (appName : string) : res PGConnector :=
  match Options.AllOpts opts with
  | Ok allOpts => mapM (λ o, createNode (CreateConnStr o) appName) allOpts
  | Err err => Err (GoWrap "connector: failed to parse options" err)
  | Panic s => Panic s
  | Fatal s => Fatal s
  end.

(** A new server has not been asked yet; its replication connections are in the
    mode of a database. *)
Definition fresh (n : PGNode) : Prop :=
  isPrimary n = false ∧ conn n = false ∧ RuntimeParams (replConfig n) !! "replication" = Some "database".

Lemma createNode_fresh connStr appName n : createNode connStr appName = Ok n → fresh n.
Proof.
  unfold createNode. destruct (ParseReplConfig connStr) as [|rcfg], (ParseConfig connStr) as [|cfg]; [done..|]. intros [= <-]. split_and!; [done..|]. simpl.
  set (r := if bool_decide (RuntimeParams rcfg !! "replication" = _) then _ else _).
  assert (RuntimeParams r !! "replication" = Some "database") as Hr.
  { subst r. case_bool_decide as E; [exact E|]. apply lookup_insert_eq. }
  case_bool_decide; [exact Hr|]. unfold set_param. cbn [RuntimeParams]. by rewrite lookup_insert_ne.
Qed.

Lemma NewWithApp_fresh opts appName c : NewWithApp opts appName = Ok c → Forall fresh c.
Proof.
  unfold NewWithApp. destruct (Options.AllOpts opts) as [os| | |]; [|done..]. revert c.
  induction os as [|o os IH]; intros c; [by intros [= <-]|]. simpl.
  intros (n & Hn%createNode_fresh & (c' & Hc' & [= <-])%res_bind_Ok)%res_bind_Ok. constructor; [done|by apply IH].
Qed.
End new.

(** The goroutines of [Connect] each have their own node. *)
Fixpoint connect_all (answers : list node_answers) (c : PGConnector) : PGConnector * list action :=
  match answers, c with
  | a :: answers, n :: c =>
      let '(_, n, acts) := Node.Connect a n in
      let '(c, acts') := connect_all answers c in (n :: c, acts ++ acts')
  | _, _ => (c, [])
  end.
Definition Connect (ctx_err : option goerr) (answers : list node_answers) (c : PGConnector) : option goerr * PGConnector * list action :=
  match ctx_err with
  | Some err => (Some err, c, [])
  | None =>
      let '(c, acts) := connect_all answers c in
      (if existsb isPrimary c then None else Some ErrUnableToConnectToPrimNode, c, acts)
  end.

Fixpoint Close (c : PGConnector) : PGConnector * list action :=
  match c with
  | [] => ([], [])
  | n :: c => let '(n, acts) := Node.Close n in let '(c, acts') := Close c in (n :: c, acts ++ acts')
  end.

(** The first primary node. *)
Fixpoint find_primary (c : PGConnector) : option PGNode :=
  match c with
  | [] => None
  | n :: c => if isPrimary n then Some n else find_primary c
  end.

Fixpoint PrimaryNode (c : PGConnector) : goerr + string :=
  match c with
  | [] => inl ErrPrimNodeNotAvailable
  | n :: c => if isPrimary n && conn n then inr (hostPort n) else PrimaryNode c
  end.
Definition PrimaryVersion (c : PGConnector) : goerr + Z :=
  match find_primary c with Some n => inr (version n) | None => inl ErrPrimNodeNotAvailable end.
(** New connections to the primary server. *)
Definition AcquirePrimary {T} (c : PGConnector) (dial : conn_config → goerr + T) : goerr + T :=
  match find_primary c with Some n => dial (connConfig n) | None => inl ErrPrimNodeNotAvailable end.
Definition GetPrimaryReplConn {T} (c : PGConnector) (dial : conn_config → goerr + T) : goerr + T :=
  match find_primary c with Some n => ConnectReplication dial n | None => inl ErrPrimNodeNotAvailable end.
Definition ExecPrimary {T} (c : PGConnector) (f : string → goerr + T) : goerr + T :=
  match find_primary c with Some n => WithConnection n f | None => inl ErrPrimNodeNotAvailable end.

Definition ConnectPrimaryNode (ctx_err : option goerr) (answers : list node_answers) (c : PGConnector)
    : (goerr + string) * PGConnector * list action :=
  match Connect ctx_err answers c with
  | (Some err, c, acts) => (inl (GoWrap "failed to connect to Postgres" err), c, acts)
  | (None, c, acts) =>
      (match PrimaryNode c with inl err => inl (GoWrap "failed to connect to primary node" err) | inr node => inr node end, c, acts)
  end.

Definition ReplicasCount (c : PGConnector) : nat := length (List.filter (λ n, negb (isPrimary n)) c).

Definition NodeVersions (c : PGConnector) : gmap string Z :=
  foldl (λ versions n, <[hostPort n:=version n]> versions) ∅ c.

(** The errors of all replicas; what the function gives is dropped. *)
Fixpoint ExecReplica {T} (c : PGConnector) (f : string → goerr + T) (allErr : option goerr) : option goerr :=
  match c with
  | [] => allErr
  | n :: c =>
      let join err := Some (match allErr with Some e => GoJoin e err | None => err end) in
      if isPrimary n then ExecReplica c f allErr
      else if negb (conn n) then ExecReplica c f (join (GoWrap (hostPort n) ErrNodeNotConnected))
      else match WithConnection n f with
           | inr _ => ExecReplica c f allErr
           | inl err => ExecReplica c f (join (GoWrap "failed to execute query on replica node" err))
           end
  end.
End Connector.

(** ** The primary server *)

Module Follow.
Import Node Connector.

Inductive op :=
| OpConnect (ctx_err : option goerr) (answers : list node_answers)
| OpClose.

Definition step (o : op) (c : PGConnector) : PGConnector * list action :=
  match o with
  | OpConnect ctx_err answers => let '(_, c, acts) := Connect ctx_err answers c in (c, acts)
  | OpClose => Close c
  end.
Fixpoint run (ops : list op) (c : PGConnector) : PGConnector * list action :=
  match ops with
  | [] => (c, [])
  | o :: r => let '(c, acts) := step o c in let '(c, acts') := run r c in (c, acts ++ acts')
  end.

Definition total (c : PGConnector) : Z := sum_Z conn_Z c.

Lemma connect_all_spec answers c :
  length answers = length c →
  let '(c', acts) := connect_all answers c in
  settings <$> c' = settings <$> c ∧ open_conns acts = total c' - total c ∧
  Forall (λ n, isPrimary n = true → conn n = true) c' ∧
  isPrimary <$> c' = zip_with (λ n a, answers_as_primary (conn n) a) c answers.
Proof.
  revert c. induction answers as [|a answers IH]; intros [|n c] Hl; try done. simpl in Hl. cbn [connect_all].
  destruct (Node.Connect a n) as [[err n'] acts] eqn:E. destruct (Connect_spec _ _ _ _ _ E) as (H1 & H2 & H3 & H4).
  specialize (IH c ltac:(lia)). destruct (connect_all answers c) as [c' acts']. destruct IH as (I1 & I2 & I3 & I4).
  rewrite !fmap_cons, H1, I1, open_conns_app, H4, I2. unfold total in *. rewrite !sum_Z_cons. cbn [zip_with]. rewrite I4, H2. split_and!; try done.
  - lia.
  - by constructor.
Qed.

Lemma connect_all_short answers c :
  let '(c', acts) := connect_all answers c in
  settings <$> c' = settings <$> c ∧ open_conns acts = total c' - total c.
Proof.
  revert c. induction answers as [|a answers IH]; intros [|n c]; try (simpl; split; [done|change (open_conns []) with 0; lia]).
  cbn [connect_all]. destruct (Node.Connect a n) as [[err n'] acts] eqn:E. destruct (Connect_spec _ _ _ _ _ E) as (H1 & _ & _ & H4).
  specialize (IH c). destruct (connect_all answers c) as [c' acts']. destruct IH as (I1 & I2).
  rewrite !fmap_cons, H1, I1, open_conns_app, H4, I2. unfold total in *. rewrite !sum_Z_cons. split; [done|lia].
Qed.

Lemma Close_spec c :
  let '(c', acts) := Close c in
  settings <$> c' = settings <$> c ∧ open_conns acts = total c' - total c.
Proof.
  induction c as [|n c IH]; [done|]. cbn [Connector.Close]. destruct (Node.Close n) as [n' a] eqn:E.
  assert (settings n' = settings n ∧ open_conns a = conn_Z n' - conn_Z n) as [H1 H2].
  { unfold Node.Close, conn_Z in *. destruct (conn n) eqn:Ec; injection E as <- <-; [done|]. rewrite Ec. done. }
  destruct (Connector.Close c) as [c' a']. destruct IH as [I1 I2]. rewrite !fmap_cons, H1, I1, open_conns_app, H2, I2.
  unfold total in *. rewrite !sum_Z_cons. split; [done|lia].
Qed.

(** Whatever is done, the nodes stay the configured ones and the connections that
    were opened and not closed are those that the nodes hold. *)
Lemma run_conns ops c :
  let '(c', acts) := run ops c in settings <$> c' = settings <$> c ∧ open_conns acts = total c' - total c.
Proof.
  revert c. induction ops as [|o ops IH]; intros c; [simpl; split; [done|change (open_conns []) with 0; lia]|]. cbn [run].
  assert (let '(c1, a) := step o c in settings <$> c1 = settings <$> c ∧ open_conns a = total c1 - total c) as Hs.
  { destruct o as [ctx_err answers|]; simpl; [|apply Close_spec]. unfold Connect.
    destruct ctx_err; [split; [done|change (open_conns []) with 0; lia]|].
    pose proof (connect_all_short answers c) as H. by destruct (connect_all answers c). }
  destruct (step o c) as [c1 a]. destruct Hs as [H1 H2]. specialize (IH c1). destruct (run ops c1) as [c2 a2].
  destruct IH as [I1 I2]. rewrite I1, open_conns_app. split; [done|]. lia.
Qed.

Lemma fresh_total c : Forall fresh c → total c = 0.
Proof. unfold total. induction 1 as [|n c (_ & Hn & _) _ IH]; [done|]. rewrite sum_Z_cons, IH. unfold conn_Z. by rewrite Hn. Qed.

(** The first server that is said to be the primary one. *)
Fixpoint first_primary (c : PGConnector) (said : list bool) : option PGNode :=
  match c, said with
  | n :: c, b :: said => if b then Some n else first_primary c said
  | _, _ => None
  end.

Lemma find_primary_first c0 c :
  settings <$> c = settings <$> c0 → settings <$> find_primary c = settings <$> first_primary c0 (isPrimary <$> c).
Proof.
  revert c0. induction c as [|n c IH]; intros [|n0 c0]; rewrite ?fmap_cons; try done. intros [= H1 H2 H3 H4]. cbn [find_primary first_primary].
  destruct (isPrimary n); [|by apply IH]. simpl. unfold settings. congruence.
Qed.

Lemma first_primary_elem c said n : first_primary c said = Some n → n ∈ c.
Proof.
  revert said. induction c as [|n0 c IH]; intros [|[] said] H; try done; simpl in H; [injection H as ->; by left|].
  right. by eapply IH.
Qed.

Lemma find_primary_connected c :
  Forall (λ n, isPrimary n = true → conn n = true) c →
  (∀ n, find_primary c = Some n → conn n = true) ∧
  PrimaryNode c = match find_primary c with Some n => inr (hostPort n) | None => inl ErrPrimNodeNotAvailable end ∧
  (existsb isPrimary c = true ↔ is_Some (find_primary c)).
Proof.
  induction 1 as [|n c Hn _ (I1 & I2 & I3)]; [by split_and!; [..|split; [|intros [? ?]]]|]. cbn [find_primary PrimaryNode existsb].
  destruct (isPrimary n) eqn:Ep; [|done]. rewrite Hn by done. simpl. split_and!; [intros ? [= <-]; by apply Hn|done|by split].
Qed.

(** C16: queries follow the primary server.  After any history of connecting
    and closing, a [Connect] succeeds exactly when one of the servers can be
    reached now and answers that it is not in recovery; the primary node, every
    query for the primary and every new connection to it then use the first
    such server in the order of the configuration, which has a connection, and
    no other server that was primary before; a replication connection is opened
    in the mode of a database.  No connection is lost: those that were opened
    and not closed are the ones that the nodes hold. *)
Theorem connector_follows_primary CreateConnStr ParseReplConfig ParseConfig opts appName c0 ops answers :
  NewWithApp CreateConnStr ParseReplConfig ParseConfig opts appName = Ok c0 → length answers = length c0 →
  let '(c, acts) := run ops c0 in
  let '(err, c', acts') := Connect None answers c in
  let primary := first_primary c0 (zip_with (λ n a, answers_as_primary (conn n) a) c answers) in
  let use {T} (f : PGNode → goerr + T) := match primary with Some n => f n | None => inl ErrPrimNodeNotAvailable end in
  (err = None ↔ is_Some primary) ∧
  PrimaryNode c' = use (λ n, inr (hostPort n)) ∧
  (∀ T (f : string → goerr + T) (dial : conn_config → goerr + T),
     ExecPrimary c' f = use (λ n, f (hostPort n)) ∧ AcquirePrimary c' dial = use (λ n, dial (connConfig n)) ∧
     GetPrimaryReplConn c' dial = use (ConnectReplication dial)) ∧
  (∀ n, primary = Some n → RuntimeParams (replConfig n) !! "replication" = Some "database") ∧
  settings <$> c' = settings <$> c0 ∧ open_conns (acts ++ acts') = total c'.
Proof.
  intros Hnew%NewWithApp_fresh Hl. pose proof (run_conns ops c0) as Hrun. destruct (run ops c0) as [c acts].
  destruct Hrun as [Hh Ho]. rewrite (fresh_total c0 Hnew) in Ho.
  assert (length answers = length c) as Hlc by (rewrite Hl; apply (f_equal length) in Hh; by rewrite !length_fmap in Hh).
  unfold Connect. pose proof (connect_all_spec answers c Hlc) as Hc. destruct (connect_all answers c) as [c' acts'].
  destruct Hc as (H1 & H2 & H3 & H4). rewrite Hh in H1. cbv zeta. pose proof (find_primary_first c0 c' H1) as Hp. rewrite H4 in Hp.
  destruct (find_primary_connected c' H3) as (Hconn & Hnode & Hex). rewrite Hnode, open_conns_app.
  destruct (find_primary c') as [n'|] eqn:Ef, (first_primary c0 _) as [n|] eqn:E0; try done.
  - injection Hp as Hr Hcc Hhp. split_and!; [|by rewrite Hhp| | |done|lia].
    + rewrite (proj2 Hex) by done. by split.
    + intros T f dial. unfold ExecPrimary, AcquirePrimary, GetPrimaryReplConn, ConnectReplication, WithConnection. rewrite Ef.
      rewrite (Hconn n') by done. by rewrite Hr, Hcc, Hhp.
    + intros ? [= <-]. rewrite Forall_forall in Hnew. by apply first_primary_elem, Hnew in E0 as (_ & _ & ?).
  - split_and!; [| | |done|done|lia].
    + destruct (existsb isPrimary c'); [|by split; [|intros [? ?]]]. by destruct (proj1 Hex eq_refl).
    + done.
    + intros T f dial. unfold ExecPrimary, AcquirePrimary, GetPrimaryReplConn. by rewrite Ef.
Qed.
End Follow.

(** ** A failover *)

Module Samples.
Import Node Connector Follow.

Definition up (recovery : bool) : node_answers := mkNodeAnswers None None None None (inr recovery) (inr 16).
Definition down : node_answers := mkNodeAnswers (Some (GoErr "refused")) (Some (GoErr "reset")) (Some (GoErr "refused")) None (inr false) (inr 16).
(** Every connection string is that of its host, and parses. *)
Definition parse (s : string) : goerr + conn_config := inr (mkConfig s 5432 ∅).
Definition sample_opts (hosts : string) : Options.ConnectionOptsMany :=
  Options.mkMany (Options.mkOpts hosts "5432" "db" "u" "p" (Options.mkTLS EmptyString EmptyString EmptyString)) None.
Definition nodes (hosts : string) : PGConnector :=
  match NewWithApp Options.Host parse parse (sample_opts hosts) "app" with Ok c => c | _ => [] end.
Definition failover : list op := [OpConnect None [up false; up true]].

(** The first server was primary, does not answer any more, and the second took over. *)
Lemma connector_follows_primary_witness :
  let '(c, acts) := run failover (nodes "a, b") in
  let '(err, c', acts') := Connect None [down; up false] c in
  is_Some (first_primary (nodes "a, b") (zip_with (λ n a, answers_as_primary (conn n) a) c [down; up false])) ∧ err = None ∧
  PrimaryNode c' = inr "b:5432" ∧ open_conns (acts ++ acts') = total c'.
Proof.
  pose proof (connector_follows_primary Options.Host parse parse (sample_opts "a, b") "app" (nodes "a, b") failover [down; up false] eq_refl eq_refl) as H.
  destruct H as (H1 & H2 & _ & _ & _ & H3). split; [vm_compute; by eexists|]. split; [vm_compute; done|]. split; [exact H2|exact H3].
Defined.

(** A server that says it is primary but not which version it has counts: the
    version is then [Unknown], without an error. *)
Example unknown_version :
  let '(err, c, _) := Connect None [mkNodeAnswers None None None None (inr false) (inl (GoErr "timeout"))] (nodes "a") in
  err = None ∧ PrimaryVersion c = inr 0.
Proof. vm_compute. done. Qed.

(** Ports that are all blank end the program with a panic. *)
Example blank_ports :
  Options.parseOpts (Options.mkOpts "a" "," "db" "u" "p" (Options.mkTLS EmptyString EmptyString EmptyString)) = Panic "index out of range".
Proof. vm_compute. reflexivity. Qed.
End Samples.
