(* ===== verification/JSONListener.v ===== *)
(** * The JSON listener (src/listeners/listener_json.go)

    A listener that turns each replication message into JSON documents on a
    channel.  [Listener] are its handlers, [Stream] the texts of a whole stream
    of messages, told from the messages alone.

    A document is the map that the code gives to the encoder; the encoder (of
    the library sonic) is an argument of each call, as it may order the keys of
    a map in any way.  What a handler puts on the channel is part of its
    result. *)

From stdpp Require Import base numbers list gmap strings pretty.
From S2P Require Import Prelude GoStrings OrderedMap PgSchema Decode BufferedListener.

(** ** The keys and the actions *)

Module Keys.
Definition Begin := "B".
Definition Insert := "I".
Definition Update := "U".
Definition Commit := "c".
Definition Delete := "D".
Definition Message := "M".
Definition Truncate := "T".
Definition StreamStart := "AB".
Definition StreamStop := "AS".
Definition StreamCommit := "AC".
Definition StreamAbort := "AA".

Definition XidKey := "xid".
Definition SubXidKey := "sub_xid".
Definition ActionKey := "action".
Definition SchemaKey := "schema".
Definition TableKey := "table".
Definition ColumnsKey := "columns".
Definition IdentityKey := "identity".
Definition TimestampKey := "timestamp".
Definition TransactionalKey := "transactional".
Definition ContentKey := "content".
Definition PrefixKey := "prefix".
Definition FirstSegmentKey := "first_segment".

Definition quote : string := String (Ascii.ascii_of_nat 34) EmptyString.
Definition action_text (action : string) : string :=
  "{ " +:+ quote +:+ "action" +:+ quote +:+ ": " +:+ quote +:+ action +:+ quote +:+ " }".
Definition commit : string := action_text Commit.
Definition streamStop : string := action_text StreamStop.
End Keys.

(** ** The handlers *)

Module Listener.
Import Keys.

(** The values of a document; a row may be missing. *)
Inductive any := AString (s : string) | AUint32 (z : Z) | ABool (b : bool) | ARow (r : option Tup).
Definition doc : Type := gmap string any.
Definition encoder : Type := doc → goerr + string.

Inductive message :=
| MsgBegin (Xid : Z) (CommitTime : gotime)
| MsgCommit (CommitLSN : Z)
| MsgStreamStart (Xid FirstSegment : Z)
| MsgStreamStop
| MsgStreamCommit (Xid CommitLSN : Z) (CommitTime : gotime)
| MsgStreamAbort (Xid SubXid : Z)
| MsgInsert (RelationID : Z) (Tuple : option (list TupleDataColumn))
| MsgUpdate (RelationID : Z) (OldTuple NewTuple : option (list TupleDataColumn))
| MsgDelete (RelationID : Z) (OldTuple : option (list TupleDataColumn))
| MsgLogicalDecoding (Transactional : bool) (Prefix Content : string)
| MsgTruncate (RelationIDs : list Z)
| MsgRelation (r : RelationMessage)
| MsgOrigin
| MsgType.

Record relationVersion := mkRV { version : Z; rel : RelationMessage; keyMap : KeyMap.KeyMap }.

Record ListenerJSON := mkJ {
  relations : gmap Z relationVersion;
  commitPos : Z; commitXid : Z; currentXid : Z; forceCommit : bool;
  arena : Arena.arena; relationVersion_ : Z }.

Section listener.
Context (typeMap : Z → option (string → goerr + goval)) (BinaryContentFormat : BinaryEncoding).

Definition MustCreateNewJSON (channel : bool) (arena : Arena.arena) : res ListenerJSON :=
  if channel then Ok (mkJ ∅ 0 0 0 false arena 0) else Panic "channel is nil".

(** What a handler returns, what it has put on the channel, and the new state. *)
Definition outcome : Type := res unit * list string * ListenerJSON.

Definition emit (marshal : encoder) (m : doc) (s : ListenerJSON) : outcome :=
  match marshal m with inl err => (Err err, [], s) | inr j => (Ok (), [j], s) end.
Definition try {A} (r : res A) (s : ListenerJSON) (k : A → outcome) : outcome :=
  match r with Ok a => k a | Err e => (Err e, [], s) | Panic p => (Panic p, [], s) | Fatal p => (Fatal p, [], s) end.

Definition with_currentXid (x : Z) (s : ListenerJSON) : ListenerJSON :=
  mkJ (relations s) (commitPos s) (commitXid s) x (forceCommit s) (arena s) (relationVersion_ s).
Definition with_commit (lsn xid : Z) (s : ListenerJSON) : ListenerJSON :=
  mkJ (relations s) lsn xid (currentXid s) true (arena s) (relationVersion_ s).

Definition OnTxBegin (marshal : encoder) (Xid : Z) (CommitTime : gotime) (s : ListenerJSON) : outcome :=
  let s := with_currentXid Xid s in
  emit marshal {[ActionKey := AString Begin; XidKey := AUint32 Xid; TimestampKey := AString (RFC3339Nano CommitTime)]} s.

Definition OnTxCommit (CommitLSN : Z) (s : ListenerJSON) : outcome :=
  (Ok (), [commit], with_currentXid 0 (with_commit CommitLSN (currentXid s) s)).

Definition OnStreamStart (marshal : encoder) (Xid FirstSegment : Z) (s : ListenerJSON) : outcome :=
  emit marshal {[ActionKey := AString StreamStart; XidKey := AUint32 Xid; FirstSegmentKey := ABool (bool_decide (FirstSegment = 1))]} s.

Definition OnStreamStop (s : ListenerJSON) : outcome := (Ok (), [streamStop], s).

Definition OnStreamCommit (marshal : encoder) (Xid CommitLSN : Z) (CommitTime : gotime) (s : ListenerJSON) : outcome :=
  match marshal {[ActionKey := AString StreamCommit; XidKey := AUint32 Xid; TimestampKey := AString (RFC3339Nano CommitTime)]} with
  | inl err => (Err err, [], s)
  | inr j => (Ok (), [j], with_commit CommitLSN Xid s)
  end.

Definition OnStreamAbort (marshal : encoder) (Xid SubXid : Z) (s : ListenerJSON) : outcome :=
  emit marshal {[ActionKey := AString StreamAbort; XidKey := AUint32 Xid; SubXidKey := AUint32 SubXid]} s.

Definition errRelationNotFound (id : Z) : goerr := GoErr ("relation not found: " +:+ pretty id).
Definition find_relation (id : Z) (s : ListenerJSON) : res relationVersion :=
  match relations s !! id with Some rel => Ok rel | None => Err (errRelationNotFound id) end.

(** The document of a change without its rows. *)
Definition change (action : string) (r : RelationMessage) : doc :=
  {[ActionKey := AString action; SchemaKey := AString (Namespace r); TableKey := AString (RelationName r)]}.

Definition row_encoding : EncodingFormat := mkEnc BinaryContentFormat NumericEncodingDefault.
Definition read (r : relationVersion) (t : option (list TupleDataColumn)) : res (option Tup) :=
  ReadTuple typeMap t (rel_Columns (rel r)) (mkRTC None true row_encoding) (Some (keyMap r)).

Definition OnInsert (marshal : encoder) (RelationID : Z) (Tuple : option (list TupleDataColumn)) (s : ListenerJSON) : outcome :=
  try (find_relation RelationID s) s (λ r,
  try (read r Tuple) s (λ v,
  emit marshal (<[ColumnsKey := ARow v]> (change Insert (rel r))) s)).

Definition OnUpdate (marshal : encoder) (RelationID : Z) (OldTuple NewTuple : option (list TupleDataColumn)) (s : ListenerJSON) : outcome :=
  try (find_relation RelationID s) s (λ r,
  try (read r NewTuple) s (λ n,
  try (read r OldTuple) s (λ o,
  emit marshal (<[IdentityKey := ARow o]> (<[ColumnsKey := ARow n]> (change Update (rel r)))) s))).

Definition OnDelete (marshal : encoder) (RelationID : Z) (OldTuple : option (list TupleDataColumn)) (s : ListenerJSON) : outcome :=
  try (find_relation RelationID s) s (λ r,
  try (read r OldTuple) s (λ o,
  emit marshal (<[IdentityKey := ARow o]> (change Delete (rel r))) s)).

Definition OnLogicalDecodingMessage (marshal : encoder) (Transactional : bool) (Prefix Content : string) (s : ListenerJSON) : outcome :=
  emit marshal {[ActionKey := AString Message; TransactionalKey := ABool Transactional; PrefixKey := AString Prefix;
                 ContentKey := AString (EncodeBinary Content BinaryContentFormat)]} s.

(** The texts of all relations are made before the first is sent. *)
Fixpoint truncate_texts (marshal : encoder) (ids : list Z) (s : ListenerJSON) : res (list string) :=
  match ids with
  | [] => Ok []
  | id :: ids =>
      r ← find_relation id s;
      match marshal (change Truncate (rel r)) with
      | inl err => Err err
      | inr j => slice ← truncate_texts marshal ids s; Ok (j :: slice)
      end
  end.
Definition OnTruncate (marshal : encoder) (RelationIDs : list Z) (s : ListenerJSON) : outcome :=
  try (truncate_texts marshal RelationIDs s) s (λ slice, (Ok (), slice, s)).

Definition OnRelation (msg : RelationMessage) (s : ListenerJSON) : outcome :=
  let version := u64 (relationVersion_ s + 1) in
  let keyMap := KeyMap.New (rmc_Name <$> rel_Columns msg) in
  (Ok (), [],
   mkJ (<[rel_ID msg := mkRV version msg keyMap]> (relations s)) (commitPos s) (commitXid s) (currentXid s) (forceCommit s)
     (Arena.Add (Namespace msg +:+ "." +:+ RelationName msg) (pretty version) keyMap (arena s)) version).

Definition CommitPos (s : ListenerJSON) : Z * Z := (commitPos s, commitXid s).

Definition PluginArguments (pubName : string) : list string :=
  ["proto_version '2'"; "publication_names '" +:+ pubName +:+ "'"; "messages 'true'"; "streaming 'true'"].

Definition handle (marshal : encoder) (m : message) (s : ListenerJSON) : outcome :=
  match m with
  | MsgBegin x t => OnTxBegin marshal x t s
  | MsgCommit lsn => OnTxCommit lsn s
  | MsgStreamStart x f => OnStreamStart marshal x f s
  | MsgStreamStop => OnStreamStop s
  | MsgStreamCommit x lsn t => OnStreamCommit marshal x lsn t s
  | MsgStreamAbort x y => OnStreamAbort marshal x y s
  | MsgInsert id t => OnInsert marshal id t s
  | MsgUpdate id o n => OnUpdate marshal id o n s
  | MsgDelete id o => OnDelete marshal id o s
  | MsgLogicalDecoding b p c => OnLogicalDecodingMessage marshal b p c s
  | MsgTruncate ids => OnTruncate marshal ids s
  | MsgRelation r => OnRelation r s
  | MsgOrigin | MsgType => (Ok (), [], s)
  end.

(** The messages of a connection; a message that fails ends it. *)
Fixpoint run (ms : list (encoder * message)) (s : ListenerJSON) : outcome :=
  match ms with
  | [] => (Ok (), [], s)
  | (marshal, m) :: ms =>
      match handle marshal m s with
      | (Ok _, texts, s) => let '(r, texts', s) := run ms s in (r, texts ++ texts', s)
      | failed => failed
      end
  end.
End listener.
End Listener.

(** ** The texts of a stream *)

Module Stream.
Import Keys Listener.
Section stream.
Context (typeMap : Z → option (string → goerr + goval)) (BinaryContentFormat : BinaryEncoding).
Notation cell := (cell_value typeMap (row_encoding BinaryContentFormat)).

(** *** What the messages before say *)

(** The last description of a relation. *)
Definition last_relation (id : Z) (hist : list message) : option RelationMessage :=
  foldl (λ acc m, match m with MsgRelation r => if decide (rel_ID r = id) then Some r else acc | _ => acc end) None hist.
(** The transaction that is open, and the last commit with its transaction. *)
Definition note_commit (acc : Z * (Z * Z)) (m : message) : Z * (Z * Z) :=
  match m with
  | MsgBegin x _ => (x, acc.2)
  | MsgCommit lsn => (0, (lsn, acc.1))
  | MsgStreamCommit x lsn _ => (acc.1, (lsn, x))
  | _ => acc
  end.
Definition commit_point (hist : list message) : Z * Z := (foldl note_commit (0, (0, 0)) hist).2.

(** A row is that of a tuple: the columns that have a value, with it. *)
Definition row_says (r : RelationMessage) (t : option (list TupleDataColumn)) (row : option Tup) : Prop :=
  match t, row with
  | None, None => True
  | Some tcols, Some om =>
      ∀ k v, OMap.abs om !! k = Some v ↔
        ∃ i rc tc, rel_Columns r !! i = Some rc ∧ tcols !! i = Some tc ∧ rmc_Name rc = k ∧ cell rc tc = Some (Ok v)
  | _, _ => False
  end.

(** *** The documents of a message *)

(** The text of a document, or one that is always the same. *)
Inductive item := Doc (d : doc) | Const (s : string).
Definition item_text (marshal : encoder) (i : item) (s : string) : Prop :=
  match i with Doc d => marshal d = inr s | Const c => s = c end.

Definition says (hist : list message) (m : message) (items : list item) : Prop :=
  match m with
  | MsgBegin x t => items = [Doc {[ActionKey := AString Begin; XidKey := AUint32 x; TimestampKey := AString (RFC3339Nano t)]}]
  | MsgCommit _ => items = [Const commit]
  | MsgStreamStart x f =>
      items = [Doc {[ActionKey := AString StreamStart; XidKey := AUint32 x; FirstSegmentKey := ABool (bool_decide (f = 1))]}]
  | MsgStreamStop => items = [Const streamStop]
  | MsgStreamCommit x _ t =>
      items = [Doc {[ActionKey := AString StreamCommit; XidKey := AUint32 x; TimestampKey := AString (RFC3339Nano t)]}]
  | MsgStreamAbort x y => items = [Doc {[ActionKey := AString StreamAbort; XidKey := AUint32 x; SubXidKey := AUint32 y]}]
  | MsgInsert id t => ∃ r v, last_relation id hist = Some r ∧ row_says r t v ∧ items = [Doc (<[ColumnsKey := ARow v]> (change Insert r))]
  | MsgUpdate id o n =>
      ∃ r vo vn, last_relation id hist = Some r ∧ row_says r o vo ∧ row_says r n vn ∧
        items = [Doc (<[IdentityKey := ARow vo]> (<[ColumnsKey := ARow vn]> (change Update r)))]
  | MsgDelete id o => ∃ r v, last_relation id hist = Some r ∧ row_says r o v ∧ items = [Doc (<[IdentityKey := ARow v]> (change Delete r))]
  | MsgLogicalDecoding b p c =>
      items = [Doc {[ActionKey := AString Message; TransactionalKey := ABool b; PrefixKey := AString p;
                     ContentKey := AString (EncodeBinary c BinaryContentFormat)]}]
  | MsgTruncate ids => ∃ rs, Forall2 (λ id r, last_relation id hist = Some r) ids rs ∧ items = (λ r, Doc (change Truncate r)) <$> rs
  | MsgRelation _ | MsgOrigin | MsgType => items = []
  end.

(** The reasons for which a message fails. *)
Definition relation_ids (m : message) : list Z :=
  match m with MsgInsert id _ | MsgUpdate id _ _ | MsgDelete id _ => [id] | MsgTruncate ids => ids | _ => [] end.
Definition tuples (m : message) : list (list TupleDataColumn) :=
  match m with
  | MsgInsert _ t | MsgDelete _ t => option_list t
  | MsgUpdate _ o n => option_list o ++ option_list n
  | _ => []
  end.
(** A column that cannot be decoded. *)
Definition unreadable (hist : list message) (m : message) : Prop :=
  ∃ id r tcols i rc tc e, id ∈ relation_ids m ∧ last_relation id hist = Some r ∧ tcols ∈ tuples m ∧
    rel_Columns r !! i = Some rc ∧ tcols !! i = Some tc ∧ cell rc tc = Some (Err e).

Definition refused (hist : list message) (marshal : encoder) (m : message) : Prop :=
  (∃ id, id ∈ relation_ids m ∧ last_relation id hist = None) ∨ unreadable hist m ∨ (∃ d e, marshal d = inl e).

(** The texts of messages that follow [hist]. *)
Inductive written : list message → list (encoder * message) → list string → Prop :=
| written_nil hist : written hist [] []
| written_cons hist marshal m ms items texts texts' :
    says hist m items → Forall2 (item_text marshal) items texts → written (hist ++ [m]) ms texts' →
    written hist ((marshal, m) :: ms) (texts ++ texts').

(** What the protocol promises: the columns of a relation have different names,
    and a tuple is not longer than its relation. *)
Definition fits (hist : list message) (m : message) : Prop :=
  match m with MsgRelation r => NoDup (rmc_Name <$> rel_Columns r) | _ => True end ∧
  ∀ id r tcols, id ∈ relation_ids m → last_relation id hist = Some r → tcols ∈ tuples m →
    (length tcols ≤ length (rel_Columns r))%nat.
Fixpoint stream_ok (hist ms : list message) : Prop :=
  match ms with [] => True | m :: ms => fits hist m ∧ stream_ok (hist ++ [m]) ms end.

(** *** The state *)

Record Inv (hist : list message) (s : ListenerJSON) : Prop := {
  Inv_rel id : rel <$> relations s !! id = last_relation id hist;
  Inv_keys id r : relations s !! id = Some r →
    keyMap r = KeyMap.New (rmc_Name <$> rel_Columns (rel r)) ∧ NoDup (rmc_Name <$> rel_Columns (rel r));
  Inv_commit : foldl note_commit (0, (0, 0)) hist = (currentXid s, (commitPos s, commitXid s)) }.

Lemma last_relation_snoc id hist m :
  last_relation id (hist ++ [m]) =
  match m with MsgRelation r => if decide (rel_ID r = id) then Some r else last_relation id hist | _ => last_relation id hist end.
Proof. unfold last_relation. by rewrite foldl_app. Qed.

(** A message that leaves the relations alone. *)
Lemma Inv_next hist m s s' :
  Inv hist s → (∀ r, m ≠ MsgRelation r) → relations s' = relations s →
  note_commit (currentXid s, (commitPos s, commitXid s)) m = (currentXid s', (commitPos s', commitXid s')) → Inv (hist ++ [m]) s'.
Proof.
  intros [H1 H2 H3] Hm Hr Hc. split.
  - intros id. rewrite last_relation_snoc, Hr, H1. destruct m; try done. by destruct (Hm r).
  - intros id r. rewrite Hr. apply H2.
  - by rewrite foldl_app, H3.
Qed.

Lemma read_says hist s m id r t :
  Inv hist s → fits hist m → relations s !! id = Some r → id ∈ relation_ids m → (∀ tcols, t = Some tcols → tcols ∈ tuples m) →
  match read typeMap BinaryContentFormat r t with
  | Ok v => row_says (rel r) t v
  | Err _ => unreadable hist m
  | _ => False
  end.
Proof.
  intros [H1 H2 _] [_ Hfit] Hr Hid Ht. unfold read. destruct t as [tcols|]; [|done]. specialize (Ht tcols eq_refl).
  assert (last_relation id hist = Some (rel r)) as Hlast by (by rewrite <- H1, Hr). specialize (Hfit id (rel r) tcols Hid Hlast Ht).
  destruct (H2 id r Hr) as [Hkm Hnd]. destruct (KeyMap.key_map_wf (rmc_Name <$> rel_Columns (rel r))) as [Hwf _]. rewrite <- Hkm in Hwf.
  set (cfg := mkRTC None true (row_encoding BinaryContentFormat)).
  assert (∀ i, Z.of_nat i ∈ selected cfg tcols ↔ (i < length tcols)%nat) as Hsel.
  { intros i. unfold selected. simpl. rewrite list_elem_of_fmap. setoid_rewrite elem_of_seq. split; [intros (j & ? & ?); lia|]. exists i. lia. }
  assert (in_range (selected cfg tcols) tcols (rel_Columns (rel r))) as Hrange.
  { intros z Hz. assert (0 ≤ z) as Hz0 by (apply list_elem_of_fmap in Hz as (? & -> & _); lia).
    apply Z_of_nat_complete in Hz0 as [i ->]. apply Hsel in Hz. lia. }
  pose proof (ReadTuple_row typeMap tcols (rel_Columns (rel r)) cfg (keyMap r) Hwf Hnd Hrange) as H.
  destruct (ReadTuple _ _ _ _ _) as [[om|]|e|p|p]; try done.
  - destruct H as (_ & _ & H). intros k v. rewrite H. split.
    + intros (i & rc & tc & _ & Hi & Htc & Hk & _ & Hc). by exists i, rc, tc.
    + intros (i & rc & tc & Hi & Htc & Hk & Hc). exists i, rc, tc. split_and!; try done; [apply Hsel; by eapply lookup_lt_Some|].
      rewrite Hkm. apply KeyMap.GetIndex_New, list_elem_of_fmap. exists rc. split; [done|by eapply list_elem_of_lookup_2].
  - destruct H as (i & rc & tc & msg & inner & _ & Hi & Htc & Hc & _). by exists id, (rel r), tcols, i, rc, tc, inner.
Qed.

(** What one message does. *)
Definition step_says (hist : list message) (marshal : encoder) (m : message) (s : ListenerJSON) (o : outcome) : Prop :=
  let '(r, texts, s') := o in
  match r with
  | Ok _ => Inv (hist ++ [m]) s' ∧ ∃ items, says hist m items ∧ Forall2 (item_text marshal) items texts
  | Err _ => texts = [] ∧ refused hist marshal m ∧ CommitPos s' = CommitPos s
  | _ => False
  end.

Lemma emit_says hist marshal m s s' d :
  Inv (hist ++ [m]) s' → CommitPos s' = CommitPos s → says hist m [Doc d] → step_says hist marshal m s (emit marshal d s').
Proof.
  intros Hi Hc Hs. unfold emit. destruct (marshal d) as [e|j] eqn:E; simpl.
  - split_and!; [done|right; right; by exists d, e|done].
  - split; [done|]. eexists. split; [exact Hs|]. by repeat constructor.
Qed.

Lemma with_relation hist marshal m s id k :
  Inv hist s → id ∈ relation_ids m →
  (∀ r, relations s !! id = Some r → last_relation id hist = Some (rel r) → step_says hist marshal m s (k r)) →
  step_says hist marshal m s (try (find_relation id s) s k).
Proof.
  intros [H1 _ _] Hid Hk. unfold find_relation. specialize (H1 id). destruct (relations s !! id) as [r|] eqn:E; [by apply Hk|].
  split_and!; [done|left; by exists id|done].
Qed.

Lemma with_row hist marshal m s id r t k :
  Inv hist s → fits hist m → relations s !! id = Some r → id ∈ relation_ids m → (∀ tcols, t = Some tcols → tcols ∈ tuples m) →
  (∀ v, row_says (rel r) t v → step_says hist marshal m s (k v)) →
  step_says hist marshal m s (try (read typeMap BinaryContentFormat r t) s k).
Proof.
  intros Hi Hf Hr Hid Ht Hk. pose proof (read_says hist s m id r t Hi Hf Hr Hid Ht) as H.
  destruct (read _ _ r t) as [v|e| |]; simpl; [by apply Hk|split_and!; [done|right; by left|done]|done..].
Qed.

Lemma truncate_says hist marshal s ids :
  Inv hist s →
  match truncate_texts marshal ids s with
  | Ok texts => ∃ rs, Forall2 (λ id r, last_relation id hist = Some r) ids rs ∧
                  Forall2 (item_text marshal) ((λ r, Doc (change Truncate r)) <$> rs) texts
  | Err _ => (∃ id, id ∈ ids ∧ last_relation id hist = None) ∨ (∃ d e, marshal d = inl e)
  | _ => False
  end.
Proof.
  intros [H1 _ _]. induction ids as [|id ids IH]; simpl; [by exists []|]. unfold find_relation. specialize (H1 id).
  destruct (relations s !! id) as [r|] eqn:Er; simpl; [|left; exists id; split; [by left|done]].
  destruct (marshal (change Truncate (rel r))) as [e|j] eqn:Ej; [right; by eexists _, e|].
  destruct (truncate_texts marshal ids s) as [texts|e| |]; simpl; [|destruct IH as [(id' & ? & ?)|?]; [left; exists id'; split; [by right|done]|by right]|done..].
  destruct IH as (rs & Hrs & Ht). exists (rel r :: rs). split; constructor; done.
Qed.

Lemma handle_says hist marshal m s :
  Inv hist s → fits hist m → step_says hist marshal m s (handle typeMap BinaryContentFormat marshal m s).
Proof.
  intros Hi Hf. assert ((∀ r, m ≠ MsgRelation r) → note_commit (currentXid s, (commitPos s, commitXid s)) m = (currentXid s, (commitPos s, commitXid s)) →
    Inv (hist ++ [m]) s) as Hsame by (intros; by eapply Inv_next).
  destruct m as [x t|lsn|x f| |x lsn t|x y|id t|id o n|id o|b p c|ids|r| |]; simpl.
  - apply emit_says; [by eapply Inv_next|done|done].
  - split; [by eapply Inv_next|]. eexists. split; [done|]. by repeat constructor.
  - apply emit_says; [by apply Hsame|done|done].
  - split; [by apply Hsame|]. eexists. split; [done|]. by repeat constructor.
  - unfold OnStreamCommit. destruct (marshal _) as [e|j] eqn:E; simpl.
    + split_and!; [done|right; right; by eexists _, e|done].
    + split; [by eapply Inv_next|]. eexists. split; [done|]. by repeat constructor.
  - apply emit_says; [by apply Hsame|done|done].
  - apply with_relation; [done|by left|]. intros r Hr Hl. apply (with_row _ _ _ _ id); try done; [by left|by intros ? ->; left|].
    intros v Hv. apply emit_says; [by apply Hsame|done|]. by exists (rel r), v.
  - apply with_relation; [done|by left|]. intros r Hr Hl.
    apply (with_row _ _ _ _ id); try done; [by left|intros ? ->; simpl; set_solver|]. intros vn Hn.
    apply (with_row _ _ _ _ id); try done; [by left|intros ? ->; simpl; set_solver|]. intros vo Ho.
    apply emit_says; [by apply Hsame|done|]. by exists (rel r), vo, vn.
  - apply with_relation; [done|by left|]. intros r Hr Hl. apply (with_row _ _ _ _ id); try done; [by left|by intros ? ->; left|].
    intros v Hv. apply emit_says; [by apply Hsame|done|]. by exists (rel r), v.
  - apply emit_says; [by apply Hsame|done|done].
  - unfold OnTruncate. pose proof (truncate_says hist marshal s ids Hi) as H. destruct (truncate_texts marshal ids s) as [texts|e| |]; simpl; try done.
    + split; [by apply Hsame|]. destruct H as (rs & Hrs & Ht). eexists. split; [by exists rs|done].
    + split_and!; [done| |done]. destruct H; [by left|right; by right].
  - split; [|exists []; by split]. destruct Hi as [H1 H2 H3], Hf as [Hf _]. split.
    + intros id. rewrite last_relation_snoc. cbn [relations]. destruct (decide (rel_ID r = id)) as [<-|Hne].
      * by rewrite lookup_insert_eq.
      * by rewrite lookup_insert_ne.
    + intros id r'. cbn [relations]. intros [[_ <-]|[_ Hr]]%lookup_insert_Some; [done|by apply H2 in Hr].
    + by rewrite foldl_app, H3.
  - split; [by apply Hsame|]. exists []. by split.
  - split; [by apply Hsame|]. exists []. by split.
Qed.

Lemma run_says hist ms s :
  Inv hist s → stream_ok hist (snd <$> ms) →
  let '(r, texts, s') := run typeMap BinaryContentFormat ms s in
  ∃ handled rest, ms = handled ++ rest ∧ written hist handled texts ∧ CommitPos s' = commit_point (hist ++ (snd <$> handled)) ∧
    match r with
    | Ok _ => rest = []
    | Err _ => ∃ marshal m later, rest = (marshal, m) :: later ∧ refused (hist ++ (snd <$> handled)) marshal m
    | _ => False
    end.
Proof.
  revert hist s. induction ms as [|[marshal m] ms IH]; intros hist s Hi Hok.
  { exists [], []. split_and!; [done|constructor| |done]. rewrite app_nil_r. unfold commit_point. by rewrite (Inv_commit _ _ Hi). }
  destruct Hok as [Hf Hok]. pose proof (handle_says hist marshal m s Hi Hf) as H. cbn [run].
  destruct (handle typeMap BinaryContentFormat marshal m s) as [[[[]|e|p|p] texts] s1]; simpl in H; try done.
  - destruct H as (Hi1 & items & Hs & Ht). specialize (IH _ s1 Hi1 Hok). destruct (run _ _ ms s1) as [[r texts'] s'].
    destruct IH as (handled & rest & -> & Hw & Hc & Hr). exists ((marshal, m) :: handled), rest.
    rewrite fmap_cons, (cons_middle _ hist), (assoc_L (++)). split_and!; [done|by eapply written_cons|done|done].
  - destruct H as (-> & Href & Hc). exists [], ((marshal, m) :: ms). split_and!; [done|constructor| |].
    + rewrite Hc, app_nil_r. unfold commit_point. by rewrite (Inv_commit _ _ Hi).
    + exists marshal, m, ms. by rewrite app_nil_r.
Qed.

(** C34: the texts on the channel are the documents of the messages.  For a
    stream that follows the protocol nothing panics; the texts are, message
    after message, those of the documents that the messages before determine: a
    change carries the names of the relation that was described last under its
    number and exactly the columns of its tuples that have a value, decoded.  A
    message that fails, as its relation is unknown, a column cannot be decoded or
    the encoder refuses, sends nothing, also when it truncates several tables.
    The commit point is the last commit among the messages that were handled,
    with the transaction that was open. *)
Theorem json_stream_exact ms arena :
  stream_ok [] (snd <$> ms) →
  ∃ s, MustCreateNewJSON true arena = Ok s ∧
  let '(r, texts, s') := run typeMap BinaryContentFormat ms s in
  ∃ handled rest, ms = handled ++ rest ∧ written [] handled texts ∧ CommitPos s' = commit_point (snd <$> handled) ∧
    match r with
    | Ok _ => rest = []
    | Err _ => ∃ marshal m later, rest = (marshal, m) :: later ∧ refused (snd <$> handled) marshal m
    | _ => False
    end.
Proof. intros Hok. eexists. split; [done|]. apply (run_says []); [by split|done]. Qed.
End stream.
End Stream.

(** ** A short stream *)

Module Samples.
Import Keys Listener Stream.

Definition show (a : any) : string :=
  match a with
  | AString s => s
  | AUint32 z => pretty z
  | ABool b => if b then "true" else "false"
  | ARow None => "null"
  | ARow (Some om) =>
      match OMap.Iter om with
      | Ok ps => String.concat "," ((λ p, p.1 +:+ "=" +:+ match p.2 with VInt _ z => pretty z | VString s => s | _ => "nil" end) <$> ps)
      | _ => "?"
      end
  end.
(** An encoder with the keys in a fixed order, which refuses text contents. *)
Definition enc : encoder := λ d,
  match d !! ContentKey with
  | Some _ => inl (GoErr "unsupported")
  | None => inr (String.concat ";" ((λ k, match d !! k with Some a => k +:+ ":" +:+ show a | None => EmptyString end) <$>
              [ActionKey; TableKey; XidKey; ColumnsKey; IdentityKey]))
  end.

Definition types (oid : Z) : option (string → goerr + goval) :=
  if bool_decide (oid = 23) then Some (λ _, inr (VInt 32 42)) else None.
Definition users : RelationMessage := mkRel 7 "public" "users" [mkRMC "id" 23; mkRMC "name" 25].
Definition cells : list TupleDataColumn := [mkTDC char_t "42"; mkTDC char_n EmptyString].

Definition sample : list (encoder * message) :=
  [(enc, MsgRelation users); (enc, MsgBegin 5 (mkTime 2024 3 7 9 5 0 0 0)); (enc, MsgInsert 7 (Some cells));
   (enc, MsgUpdate 7 None (Some cells)); (enc, MsgCommit 900); (enc, MsgTruncate [7; 8]); (enc, MsgStreamStop)].

Lemma json_stream_exact_witness :
  ∃ s, MustCreateNewJSON true ∅ = Ok s ∧
  let '(r, texts, s') := run types BinaryEncodingHex sample s in
  ∃ handled rest, sample = handled ++ rest ∧ written types BinaryEncodingHex [] handled texts ∧
    CommitPos s' = commit_point (snd <$> handled) ∧
    match r with
    | Ok _ => rest = []
    | Err _ => ∃ marshal m later, rest = (marshal, m) :: later ∧ refused types BinaryEncodingHex (snd <$> handled) marshal m
    | _ => False
    end.
Proof.
  apply (json_stream_exact types BinaryEncodingHex sample ∅).
  assert (NoDup (rmc_Name <$> rel_Columns users)) as Hnd by (refine (bool_decide_eq_true_1 _ _); vm_compute; reflexivity).
  assert (∀ id r tcols, Some users = Some r → tcols ∈ [cells] → id ∈ [7] → (length tcols ≤ length (rel_Columns r))%nat) as Hlen.
  { intros id r tcols [= <-] ->%list_elem_of_singleton _. simpl. lia. }
  cbn [sample fmap list_fmap snd stream_ok]. unfold fits. repeat apply conj; try exact I; try exact Hnd; intros id r tcols Hid Hl Ht.
  all: try (by apply not_elem_of_nil in Ht).
  all: pose proof Hid as ->%list_elem_of_singleton; exact (Hlen _ r tcols Hl Ht Hid).
Defined.

(** What is on the channel, and the error that ends the stream: the truncation of
    a known and an unknown table sends nothing. *)
Example json_sample_run :
  match MustCreateNewJSON true ∅ with
  | Ok s =>
      let '(r, texts, s') := run types BinaryEncodingHex sample s in
      r = Err (errRelationNotFound 8) ∧ CommitPos s' = (900, 5) ∧
      texts = ["action:B;;xid:5;;"; "action:I;table:users;;columns:id=42,name=nil;";
               "action:U;table:users;;columns:id=42,name=nil;identity:null"; commit]
  | _ => False
  end.
Proof. vm_compute. done. Qed.

(** A stream that was started before a commit: the transaction of the commit is
    the one that began last on the connection, or none. *)
Example commit_without_begin :
  match MustCreateNewJSON true ∅ with
  | Ok s => CommitPos (run types BinaryEncodingHex [(enc, MsgCommit 900)] s).2 = (900, 0)
  | _ => False
  end.
Proof. vm_compute. done. Qed.
End Samples.
