(* ===== verification/OffsetTracker.v ===== *)
(** * The offset tracker (src/offsettracker/offset_tracker.go)

    Offsets with their sub-offsets are added in any order and acknowledged part
    by part; the tracker reports the largest offset below which everything is
    acknowledged.  [Tracker] are its operations, [TrackerInv] the invariant,
    [Calls] programs of calls with the record of what is still open.

    The bitmap is a library: the class [Bitmap] states what it documents.  How
    a full slice grows is an argument. *)

From stdpp Require Import base numbers list gmap sets sorting.
From S2P Require Import Prelude.

(** ** Bitmaps *)

Class Bitmap (B : Type) := {
  bm_empty : B;
  bm_Set : Z → B → B;
  bm_Remove : Z → B → B;
  bm_Count : B → nat;
  bits : B → gset Z;
  bits_empty : bits bm_empty = ∅;
  bits_Set x b : bits (bm_Set x b) = {[x]} ∪ bits b;
  bits_Remove x b : bits (bm_Remove x b) = bits b ∖ {[x]};
  bm_Count_bits b : bm_Count b = size (bits b) }.

#[global] Program Instance gset_bitmap : Bitmap (gset Z) := {|
  bm_empty := ∅; bm_Set x b := {[x]} ∪ b; bm_Remove x b := b ∖ {[x]}; bm_Count := size; bits b := b |}.
Solve All Obligations with done.

Lemma bits_Set_all `{!Bitmap B} subs (b : B) : bits (foldl (λ m s, bm_Set s m) b subs) = list_to_set subs ∪ bits b.
Proof. revert b. induction subs as [|s subs IH]; intros b; simpl; [set_solver|]. rewrite IH, bits_Set. set_solver. Qed.

Lemma bits_Remove_all `{!Bitmap B} subs (b : B) : bits (foldl (λ m s, bm_Remove s m) b subs) = bits b ∖ list_to_set subs.
Proof. revert b. induction subs as [|s subs IH]; intros b; simpl; [set_solver|]. rewrite IH, bits_Remove. set_solver. Qed.

(** ** The operations *)

Module Tracker.
Section tracker.
Context {B : Type} `{!Bitmap B} {T : Type} (Offset : T → Z) (defaultT : T) (grow : nat → nat).

Record offsetEntry := mkEntry { entry : T; subOffsets : B }.
Definition newOffsetEntry (offset : T) (subs : list Z) : offsetEntry :=
  mkEntry offset (foldl (λ m s, bm_Set s m) bm_empty subs).

(** A slice with the capacity of its array. *)
Record slice := mkSlice { elems : list Z; capacity : nat }.
Definition append (s : slice) (x : Z) : slice :=
  mkSlice (elems s ++ [x]) (if bool_decide (length (elems s) < capacity s)%nat then capacity s else grow (capacity s)).
Definition sort (s : slice) : slice := mkSlice (merge_sort Z.le (elems s)) (capacity s).
Definition slice_from (i : nat) (s : slice) : slice := mkSlice (drop i (elems s)) (capacity s - i).

Record tracker := mkTracker {
  acked : gmap Z bool; entries : gmap Z offsetEntry; offsets : slice; lastMaxAck : T; ackCheckStart : nat }.

Definition NewOffsetTracker : tracker := mkTracker ∅ ∅ (mkSlice [] 1000) defaultT 0.

Record ProbeResult := mkProbe { Exists_ : bool; Acknowledged : bool }.

Definition Probe (off : Z) (t : tracker) : ProbeResult :=
  match acked t !! off with Some a => mkProbe true a | None => mkProbe false false end.

Definition AddWithSubOffsets (offset : T) (subs : list Z) (t : tracker) : tracker * ProbeResult :=
  let off := Offset offset in
  if bool_decide (off < Offset (lastMaxAck t)) then (t, mkProbe false true)
  else match acked t !! off with
       | Some a => (t, mkProbe true a)
       | None =>
           (mkTracker (<[off:=false]> (acked t)) (<[off:=newOffsetEntry offset subs]> (entries t)) (sort (append (offsets t) off))
              (lastMaxAck t) (ackCheckStart t), mkProbe false false)
       end.
Definition Add (offset : T) (t : tracker) : tracker * ProbeResult := AddWithSubOffsets offset [0] t.

Definition AcknowledgeWithSubOffsets (offset : T) (subs : list Z) (t : tracker) : tracker * bool :=
  let off := Offset offset in
  if default false (acked t !! off) then (t, true)
  else match entries t !! off with
       | None => (t, false)
       | Some e =>
           let e := mkEntry (entry e) (foldl (λ m s, bm_Remove s m) (subOffsets e) subs) in
           let full := bool_decide (bm_Count (subOffsets e) = 0%nat) in
           (mkTracker (if full then <[off:=true]> (acked t) else acked t) (<[off:=e]> (entries t)) (offsets t) (lastMaxAck t) (ackCheckStart t),
            full)
       end.

(** The loop over the offsets from the start index: the index where it stops, and
    the last offset that was acknowledged with its entry. *)
Fixpoint scan (t : tracker) (l : list Z) (i : nat) (maxAcknowledged : Z) (maxT : option offsetEntry) : nat * Z * option offsetEntry :=
  match l with
  | [] => (i, maxAcknowledged, maxT)
  | off :: r => if default false (acked t !! off) then scan t r (S i) off (entries t !! off) else (i, maxAcknowledged, maxT)
  end.

Definition delete_all {A} (keys : list Z) (m : gmap Z A) : gmap Z A := foldl (λ m k, delete k m) m keys.

Definition clean_up (i : nat) (t : tracker) : tracker :=
  let delThreshold := (capacity (offsets t) / 4)%nat in
  if bool_decide (delThreshold ≤ i)%nat
  then mkTracker (delete_all (take i (elems (offsets t))) (acked t)) (delete_all (take i (elems (offsets t))) (entries t))
         (slice_from i (offsets t)) (lastMaxAck t) 0
  else mkTracker (acked t) (entries t) (offsets t) (lastMaxAck t) i.

Definition MaxAcknowledged (t : tracker) : tracker * T :=
  match scan t (drop (ackCheckStart t) (elems (offsets t))) (ackCheckStart t) 0 None with
  | (i, maxAcknowledged, Some e) =>
      if bool_decide (maxAcknowledged = 0) then (t, lastMaxAck t)
      else let t := clean_up i t in
           (mkTracker (acked t) (entries t) (offsets t) (entry e) (ackCheckStart t), entry e)
  | (_, _, None) => (t, lastMaxAck t)
  end.
End tracker.
#[global] Arguments offsetEntry : clear implicits.
#[global] Arguments tracker : clear implicits.
End Tracker.

(** ** The invariant *)

Module TrackerInv.
Import Tracker.

Lemma delete_all_lookup {A} keys (m : gmap Z A) k : delete_all keys m !! k = if bool_decide (k ∈ keys) then None else m !! k.
Proof.
  unfold delete_all. revert m. induction keys as [|x keys IH]; intros m; [done|]. cbn [foldl]. rewrite IH.
  destruct (decide (x = k)) as [->|Hne].
  - rewrite lookup_delete_eq. rewrite (bool_decide_true (k ∈ k :: keys)) by by left. by case_bool_decide.
  - rewrite lookup_delete_ne by done. case_bool_decide as H1; case_bool_decide as H2; try done; set_solver.
Qed.


Lemma sorted_lt_le l : StronglySorted Z.lt l → StronglySorted Z.le l.
Proof. induction 1 as [|x l _ IH H]; constructor; [done|]. eapply Forall_impl; [exact H|]. intros; lia. Qed.

Lemma sorted_lt_split l1 l2 :
  StronglySorted Z.lt (l1 ++ l2) ↔ StronglySorted Z.lt l1 ∧ StronglySorted Z.lt l2 ∧ (∀ x y, x ∈ l1 → y ∈ l2 → x < y).
Proof.
  induction l1 as [|z l1 IH]; simpl.
  { split; [|by intros (_ & ? & _)]. intros H. split; [constructor|]. split; [done|]. by intros x y ?%not_elem_of_nil. }
  split.
  - intros [Hs Hz]%StronglySorted_inv. rewrite IH in Hs. destruct Hs as (H1 & H2 & H3). rewrite Forall_app, !Forall_forall in Hz. destruct Hz as [Hz1 Hz2].
    split_and!; [constructor; [done|by apply Forall_forall]|done|]. intros x y [->|Hx]%elem_of_cons Hy; [by apply Hz2|by apply H3].
  - intros ([Hs Hz]%StronglySorted_inv & H2 & H3). constructor.
    + apply IH. split_and!; [done|done|]. intros x y Hx Hy. apply H3; [by right|done].
    + apply Forall_app. split; [done|]. apply Forall_forall. intros y Hy. apply H3; [by left|done].
Qed.

Lemma sorted_lt_nodup l : StronglySorted Z.lt l → NoDup l.
Proof.
  induction 1 as [|x l _ IH H]; constructor; [|done]. intros Hx. rewrite Forall_forall in H. apply H in Hx. lia.
Qed.

Lemma sorted_le_lt l : StronglySorted Z.le l → NoDup l → StronglySorted Z.lt l.
Proof.
  induction 1 as [|x l _ IH H]; intros Hnd; [constructor|]. apply NoDup_cons in Hnd as [Hx Hnd]. constructor; [by apply IH|].
  rewrite Forall_forall in *. intros y Hy. assert (x ≠ y) by (by intros ->). apply H in Hy. lia.
Qed.

Lemma sort_insert l x : StronglySorted Z.lt l → x ∉ l → StronglySorted Z.lt (merge_sort Z.le (l ++ [x])).
Proof.
  intros Hs Hx. apply sorted_le_lt; [apply (StronglySorted_merge_sort Z.le)|]. rewrite (merge_sort_Permutation Z.le).
  apply NoDup_app. split_and!; [by apply sorted_lt_nodup| |apply NoDup_singleton]. intros y Hy ->%list_elem_of_singleton. done.
Qed.

(** Sorting leaves a part alone that is below all that comes after it. *)
Lemma sort_keeps_prefix l1 l2 x :
  StronglySorted Z.lt (l1 ++ l2) → x ∉ l1 ++ l2 → (∀ y, y ∈ l1 → y < x) →
  merge_sort Z.le ((l1 ++ l2) ++ [x]) = l1 ++ merge_sort Z.le (l2 ++ [x]).
Proof.
  intros Hs Hx Hl. apply (StronglySorted_unique Z.le).
  - apply (StronglySorted_merge_sort Z.le).
  - pose proof Hs as (H1 & H2 & H3)%sorted_lt_split. apply sorted_lt_le, sorted_lt_split.
    split_and!; [done|apply sort_insert; [done|set_solver]|].
    intros y z Hy Hz. rewrite (merge_sort_Permutation Z.le) in Hz. apply elem_of_app in Hz as [Hz| ->%list_elem_of_singleton]; [by apply H3|by apply Hl].
  - rewrite !(merge_sort_Permutation Z.le). by rewrite (assoc_L (++)).
Qed.

Section inv.
Context {B : Type} `{!Bitmap B} {T : Type} (Offset : T → Z).
Implicit Types t : tracker B T.

(** The offsets are sorted; those before the start index are acknowledged, the
    last of them is the reported maximum, and the others are not below it. *)
Record inv t : Prop := {
  inv_sorted : StronglySorted Z.lt (elems (offsets t));
  inv_acked x : x ∈ elems (offsets t) ↔ is_Some (acked t !! x);
  inv_entries x : x ∈ elems (offsets t) ↔ is_Some (entries t !! x);
  inv_key x e : entries t !! x = Some e → Offset (entry e) = x;
  inv_start : (ackCheckStart t ≤ length (elems (offsets t)))%nat;
  inv_before x : x ∈ take (ackCheckStart t) (elems (offsets t)) → acked t !! x = Some true ∧ x ≤ Offset (lastMaxAck t);
  inv_last : ackCheckStart t ≠ 0%nat → Offset (lastMaxAck t) ∈ take (ackCheckStart t) (elems (offsets t));
  inv_after x : x ∈ drop (ackCheckStart t) (elems (offsets t)) → Offset (lastMaxAck t) ≤ x }.

Lemma inv_new (defaultT : T) : inv (NewOffsetTracker defaultT).
Proof.
  assert (∀ A x, x ∈ @nil Z ↔ is_Some ((∅ : gmap Z A) !! x)) as He.
  { intros A x. rewrite lookup_empty. split; [by intros ?%not_elem_of_nil|by intros [? ?]]. }
  split; simpl; [constructor|apply He|apply He|done|done|by intros x ?%not_elem_of_nil|done|by intros x ?%not_elem_of_nil].
Qed.

Lemma inv_add grow offset subs t : inv t → inv (AddWithSubOffsets Offset grow offset subs t).1.
Proof.
  intros Hi. unfold AddWithSubOffsets. case_bool_decide as Hlt; [done|]. destruct (acked t !! Offset offset) eqn:Ea; [done|].
  set (off := Offset offset) in *. destruct Hi as [Hs Ha He Hk Hst Hb Hl Haf].
  assert (off ∉ elems (offsets t)) as Hn by (rewrite Ha, Ea; by intros [? ?]).
  assert (merge_sort Z.le (elems (offsets t) ++ [off]) =
          take (ackCheckStart t) (elems (offsets t)) ++ merge_sort Z.le (drop (ackCheckStart t) (elems (offsets t)) ++ [off])) as Hm.
  { rewrite <- sort_keeps_prefix; rewrite ?take_drop; [done..|]. intros y Hy. destruct (Hb y Hy) as [_ Hy2].
    assert (y ≠ off) by (intros ->; apply Hn; by eapply subseteq_take). lia. }
  assert (length (take (ackCheckStart t) (elems (offsets t))) = ackCheckStart t) as Htl by (rewrite length_take; lia).
  split; cbn [fst offsets elems sort append acked entries ackCheckStart lastMaxAck].
  - by apply sort_insert.
  - intros x. rewrite (merge_sort_Permutation Z.le), elem_of_app, list_elem_of_singleton, Ha. rewrite lookup_insert_is_Some.
    destruct (decide (off = x)); naive_solver.
  - intros x. rewrite (merge_sort_Permutation Z.le), elem_of_app, list_elem_of_singleton, He. rewrite lookup_insert_is_Some.
    destruct (decide (off = x)); naive_solver.
  - intros x e [[<- <-]|[_ Hx]]%lookup_insert_Some; [done|by apply Hk].
  - rewrite (merge_sort_Permutation Z.le), length_app. lia.
  - intros x. rewrite Hm, take_app_length' by done. intros Hx. destruct (Hb x Hx) as [Hx1 Hx2]. split; [|done].
    rewrite lookup_insert_ne; [done|]. intros <-. by rewrite Ea in Hx1.
  - intros H0. rewrite Hm, take_app_length' by done. by apply Hl.
  - intros x. rewrite Hm, drop_app_length' by done. rewrite (merge_sort_Permutation Z.le).
    intros [Hx| ->%list_elem_of_singleton]%elem_of_app; [by apply Haf|lia].
Qed.

Lemma inv_ack offset subs t : inv t → inv (AcknowledgeWithSubOffsets Offset offset subs t).1.
Proof.
  intros Hi. unfold AcknowledgeWithSubOffsets. destruct (default false (acked t !! Offset offset)) eqn:Ea; [done|].
  destruct (entries t !! Offset offset) as [e|] eqn:Ee; [|done]. destruct Hi as [Hs Ha He Hk Hst Hb Hl Haf].
  assert (Offset offset ∈ elems (offsets t)) as Hin by (rewrite He, Ee; by eexists).
  case_bool_decide as Hc; split; cbn [fst offsets acked entries ackCheckStart lastMaxAck]; try done.
  - intros x. rewrite Ha, lookup_insert_is_Some. destruct (decide (Offset offset = x)) as [<-|]; naive_solver.
  - intros x. rewrite He, lookup_insert_is_Some. destruct (decide (Offset offset = x)) as [<-|]; naive_solver.
  - intros x e' [[<- <-]|[_ Hx]]%lookup_insert_Some; [by apply Hk in Ee|by apply Hk].
  - intros x Hx. destruct (Hb x Hx) as [Hx1 Hx2]. split; [|done]. rewrite lookup_insert. by case_decide.
  - intros x. rewrite He, lookup_insert_is_Some. destruct (decide (Offset offset = x)) as [<-|]; naive_solver.
  - intros x e' [[<- <-]|[_ Hx]]%lookup_insert_Some; [by apply Hk in Ee|by apply Hk].
Qed.

(** The offsets at which the loop stops, and what it found. *)
Lemma scan_spec t l i m mT :
  ∃ l1 l2, l = l1 ++ l2 ∧ (∀ x, x ∈ l1 → acked t !! x = Some true) ∧
    (∀ x, head l2 = Some x → acked t !! x ≠ Some true) ∧
    scan t l i m mT = match last l1 with Some x => ((i + length l1)%nat, x, entries t !! x) | None => (i, m, mT) end.
Proof.
  revert i m mT. induction l as [|x l IH]; intros i m mT; simpl.
  { exists [], []. split_and!; [done|by intros ? ?%not_elem_of_nil|done|done]. }
  destruct (acked t !! x) as [[]|] eqn:Ex; simpl.
  - destruct (IH (S i) x (entries t !! x)) as (l1 & l2 & -> & H1 & H2 & ->). exists (x :: l1), l2.
    split_and!; [done|by intros y [->|Hy]%elem_of_cons; [|apply H1]|done|]. rewrite last_cons.
    destruct (last l1) eqn:El; simpl; [f_equal; f_equal; lia|].
    apply last_None in El as ->. simpl. f_equal. f_equal. lia.
  - exists [], (x :: l). split_and!; [done|by intros ? ?%not_elem_of_nil| |done]. simpl. by intros ? [= <-]; rewrite Ex.
  - exists [], (x :: l). split_and!; [done|by intros ? ?%not_elem_of_nil| |done]. simpl. by intros ? [= <-]; rewrite Ex.
Qed.

(** After the maximum was raised: nothing but acknowledged offsets is forgotten. *)
Lemma inv_raise t i x e (t1 := clean_up i t) (t' := mkTracker (acked t1) (entries t1) (offsets t1) (entry e) (ackCheckStart t1)) :
  inv t → (i ≤ length (elems (offsets t)))%nat → last (take i (elems (offsets t))) = Some x → entries t !! x = Some e →
  (∀ y, y ∈ take i (elems (offsets t)) → acked t !! y = Some true) →
  inv t' ∧
  (∀ y, acked t' !! y = acked t !! y ∧ entries t' !! y = entries t !! y ∨
        y ≤ x ∧ acked t !! y = Some true ∧ acked t' !! y = None ∧ entries t' !! y = None).
Proof.
  intros [Hs Ha He Hk Hst Hb Hl Haf] Hi Hx Hex Hack. set (l := elems (offsets t)) in *. pose proof (Hk x e Hex) as Hoff.
  pose proof Hx as [l0 Hl0]%last_Some. pose proof (take_drop i l) as Htd.
  pose proof Hs as Hs'. rewrite <- Htd in Hs'. apply sorted_lt_split in Hs' as (Hs1 & Hs2 & Hs3).
  assert (x ∈ take i l) as Hxin by (rewrite Hl0; set_solver).
  assert (∀ y, y ∈ take i l → y ≤ x) as Hle.
  { intros y. rewrite Hl0 in Hs1 |- *. apply sorted_lt_split in Hs1 as (_ & _ & H).
    intros [Hy| ->%list_elem_of_singleton]%elem_of_app; [|lia]. apply Z.lt_le_incl, H; [done|set_solver]. }
  subst t' t1. unfold clean_up. case_bool_decide as Hc; cbn [acked entries offsets ackCheckStart lastMaxAck slice_from elems]; fold l.
  - assert (∀ {A} (m : gmap Z A) y, (∀ y, y ∈ l ↔ is_Some (m !! y)) →
      (y ∈ drop i l ↔ is_Some (delete_all (take i l) m !! y))) as Hdel.
    { intros A m y Hm. rewrite delete_all_lookup. case_bool_decide as H1.
      - split; [|by intros [? ?]]. intros H2. pose proof (Hs3 y y H1 H2). lia.
      - rewrite <- Hm, <- Htd, elem_of_app. rewrite Htd. tauto. }
    split; [split; cbn [acked entries offsets ackCheckStart lastMaxAck elems]|].
    + done.
    + intros y. by apply Hdel.
    + intros y. by apply Hdel.
    + intros y e'. rewrite delete_all_lookup. case_bool_decide; [done|apply Hk].
    + lia.
    + by intros y ?%not_elem_of_nil.
    + done.
    + intros y Hy. rewrite drop_0 in Hy. rewrite Hoff. apply Z.lt_le_incl. by apply Hs3.
    + intros y. rewrite !delete_all_lookup. case_bool_decide as Hy; [right|by left]. split_and!; [by apply Hle|by apply Hack|done|done].
  - split; [|by left]. split; cbn [acked entries offsets ackCheckStart lastMaxAck]; fold l; try done; rewrite Hoff.
    + intros y Hy. split; [by apply Hack|by apply Hle].
    + done.
    + intros y Hy. apply Z.lt_le_incl. by apply Hs3.
Qed.

(** What [MaxAcknowledged] does: the part of the offsets that is acknowledged
    without a gap, and its last offset unless this is 0. *)
Lemma MaxAcknowledged_spec t :
  inv t →
  ∃ l1 l2, elems (offsets t) = l1 ++ l2 ∧ (∀ x, x ∈ l1 → acked t !! x = Some true) ∧
    (∀ x, head l2 = Some x → acked t !! x ≠ Some true) ∧
    let '(t', m) := MaxAcknowledged t in
    inv t' ∧ lastMaxAck t' = m ∧ Offset (lastMaxAck t) ≤ Offset m ∧
    (∀ y, acked t' !! y = acked t !! y ∧ entries t' !! y = entries t !! y ∨
          y ≤ Offset m ∧ acked t !! y = Some true ∧ acked t' !! y = None ∧ entries t' !! y = None) ∧
    (m = lastMaxAck t ∧ (∀ x, last l1 = Some x → x = 0 ∨ x ≤ Offset m) ∨
     last l1 = Some (Offset m) ∧ ∃ e, entries t !! Offset m = Some e ∧ entry e = m).
Proof.
  intros Hi. pose proof Hi as [Hs Ha He Hk Hst Hb Hl Haf]. set (l := elems (offsets t)) in *. set (st := ackCheckStart t) in *.
  destruct (scan_spec t (drop st l) st 0 None) as (l1 & l2 & Hd & H1 & H2 & Hscan).
  assert (l = (take st l ++ l1) ++ l2) as El by by rewrite <- (assoc_L (++)), <- Hd, take_drop.
  assert (∀ x, x ∈ take st l ++ l1 → acked t !! x = Some true) as Hall by (intros x [Hx|Hx]%elem_of_app; [by apply Hb|by apply H1]).
  exists (take st l ++ l1), l2. split_and!; [done..|]. unfold MaxAcknowledged. fold l st. rewrite Hscan.
  assert (m_none : last l1 = None ∨ last l1 = Some 0 →
     ∀ x, last (take st l ++ l1) = Some x → x = 0 ∨ x ≤ Offset (lastMaxAck t)).
  { intros Hn x. rewrite last_app. destruct Hn as [-> | ->]; [|by intros [= <-]; left].
    intros Hx%last_Some_elem_of. right. by apply Hb. }
  destruct (last l1) as [x|] eqn:Elast; [|by split_and!; [..|intros; left|left; split; [|apply m_none; left]]].
  assert (x ∈ l1) as Hxin by (by apply last_Some_elem_of).
  destruct (proj1 (He x)) as [e Hex]; [rewrite El; set_solver|]. rewrite Hex.
  case_bool_decide as Hx0; [subst x; by split_and!; [..|intros; left|left; split; [|apply m_none; right]]|].
  assert (take (st + length l1) l = take st l ++ l1) as Htake.
  { rewrite El at 1. rewrite take_app_length'; [done|]. rewrite length_app, length_take. lia. }
  assert (st + length l1 ≤ length l)%nat as Hlen.
  { rewrite El, !length_app, length_take. lia. }
  destruct (inv_raise t (st + length l1) x e Hi Hlen) as [Hi' Hy]; [fold l; rewrite Htake, last_app; by rewrite Elast|done|fold l; by rewrite Htake|].
  cbv zeta. rewrite (Hk x e Hex). split_and!; [exact Hi'|done| |exact Hy|].
  - apply Haf. fold l st. rewrite Hd. set_solver.
  - right. rewrite last_app, Elast. split; [done|]. by exists e.
Qed.
End inv.
End TrackerInv.

(** ** Programs of calls *)

Module Calls.
Import Tracker TrackerInv.
Section calls.
Context {B : Type} `{!Bitmap B} {T : Type} (Offset : T → Z) (defaultT : T) (grow : nat → nat).
Implicit Types t : tracker B T.

Inductive call := CAdd (offset : T) (subs : list Z) | CAck (offset : T) (subs : list Z) | CMax | CProbe (off : Z).
Inductive reply := RProbe (r : ProbeResult) | RBool (b : bool) | RMax (m : T).

Definition step (c : call) t : tracker B T * reply :=
  match c with
  | CAdd x subs => let '(t, r) := AddWithSubOffsets Offset grow x subs t in (t, RProbe r)
  | CAck x subs => let '(t, b) := AcknowledgeWithSubOffsets Offset x subs t in (t, RBool b)
  | CMax => let '(t, m) := MaxAcknowledged t in (t, RMax m)
  | CProbe off => (t, RProbe (Probe off t))
  end.
Fixpoint run (calls : list call) t : tracker B T * list reply :=
  match calls with
  | [] => (t, [])
  | c :: r => let '(t, reply) := step c t in let '(t, replies) := run r t in (t, reply :: replies)
  end.

(** What is open according to the calls and their replies: the offsets that were
    taken, with the sub-offsets that were not acknowledged since. *)
Definition open_step (c : call) (r : reply) (open : gmap Z (gset Z)) : gmap Z (gset Z) :=
  match c, r with
  | CAdd x subs, RProbe (mkProbe false false) => <[Offset x := list_to_set subs]> open
  | CAck x subs, _ =>
      match open !! Offset x with
      | Some s => if decide (s ∖ list_to_set subs = ∅) then delete (Offset x) open else <[Offset x := s ∖ list_to_set subs]> open
      | None => open
      end
  | _, _ => open
  end.
Definition open_after (calls : list call) (replies : list reply) : gmap Z (gset Z) :=
  foldl (λ o cr, open_step cr.1 cr.2 o) ∅ (zip calls replies).

Definition pending t (off : Z) : option (gset Z) :=
  match acked t !! off with Some false => bits ∘ subOffsets <$> entries t !! off | _ => None end.

Record good (calls : list call) (replies : list reply) t : Prop := {
  good_inv : inv Offset t;
  good_open off : pending t off = open_after calls replies !! off;
  good_max m : RMax m ∈ replies → Offset m ≤ Offset (lastMaxAck t);
  good_from : lastMaxAck t = defaultT ∨ ∃ subs, CAdd (lastMaxAck t) subs ∈ calls;
  good_entries off e : entries t !! off = Some e → ∃ subs, CAdd (entry e) subs ∈ calls }.

Lemma pending_open t : inv Offset t → ∀ off, is_Some (pending t off) ↔ acked t !! off = Some false.
Proof.
  intros [_ Ha He _ _ _ _ _] off. unfold pending. destruct (acked t !! off) as [[]|] eqn:Ea; [by split; [intros [? ?]|]..|split;[done|]|by split; [intros [? ?]|]].
  intros _. destruct (proj1 (He off)) as [e ->]; [apply Ha; by rewrite Ea|]. by eexists.
Qed.

Lemma step_open c t open :
  inv Offset t → (∀ off, pending t off = open !! off) →
  ∀ off, pending (step c t).1 off = open_step c (step c t).2 open !! off.
Proof.
  intros Hi Ho off. destruct c as [x subs|x subs| |o]; simpl.
  - unfold AddWithSubOffsets. case_bool_decide; [apply Ho|]. destruct (acked t !! Offset x) as [a|] eqn:Ea; [apply Ho|].
    simpl. unfold pending. cbn [acked entries]. destruct (decide (Offset x = off)) as [<-|Hne].
    + rewrite !lookup_insert_eq. simpl. f_equal. rewrite bits_Set_all, bits_empty. set_solver.
    + rewrite !lookup_insert_ne by done. apply Ho.
  - pose proof (pending_open t Hi (Offset x)) as Hp. rewrite Ho in Hp. destruct Hi as [_ Ha He _ _ _ _ _].
    unfold AcknowledgeWithSubOffsets. destruct (acked t !! Offset x) as [[]|] eqn:Ea; simpl.
    + destruct (open !! Offset x); [by discriminate (proj1 Hp ltac:(by eexists))|apply Ho].
    + destruct (proj1 (He (Offset x))) as [e Hex]; [apply Ha; by rewrite Ea|]. rewrite Hex.
      pose proof (Ho (Offset x)) as Hox. unfold pending in Hox. rewrite Ea, Hex in Hox. simpl in Hox. rewrite <- Hox. cbn [subOffsets].
      rewrite bm_Count_bits, bits_Remove_all. destruct (decide (bits (subOffsets e) ∖ list_to_set subs = ∅)) as [Hs|Hs].
      * rewrite bool_decide_true by by rewrite Hs, size_empty. unfold pending. cbn [acked entries fst].
        destruct (decide (Offset x = off)) as [<-|Hne]; [by rewrite lookup_insert_eq, lookup_delete_eq|].
        rewrite !lookup_insert_ne, lookup_delete_ne by done. apply Ho.
      * rewrite bool_decide_false by (intros ?%size_empty_inv; by apply leibniz_equiv in H0 || set_solver). unfold pending. cbn [acked entries fst].
        destruct (decide (Offset x = off)) as [<-|Hne]; [rewrite Ea, !lookup_insert_eq; simpl; by rewrite bits_Remove_all|].
        rewrite !lookup_insert_ne by done. apply Ho.
    + destruct (entries t !! Offset x) eqn:Ee; [destruct (proj1 (Ha (Offset x)) (proj2 (He _) ltac:(by rewrite Ee))); congruence|].
      destruct (open !! Offset x); [by discriminate (proj1 Hp ltac:(by eexists))|apply Ho].
  - destruct (MaxAcknowledged_spec Offset t Hi) as (l1 & l2 & _ & _ & _ & H). destruct (MaxAcknowledged t) as [t' m].
    destruct H as (_ & _ & _ & H & _). simpl. rewrite <- Ho. unfold pending.
    by destruct (H off) as [[-> ->]|(_ & -> & -> & _)].
  - apply Ho.
Qed.

Lemma ack_reply x subs t :
  inv Offset t →
  let '(t', b) := AcknowledgeWithSubOffsets Offset x subs t in
  b = true ↔ Probe (Offset x) t ≠ mkProbe false false ∧ pending t' (Offset x) = None.
Proof.
  intros [_ Ha He _ _ _ _ _]. unfold AcknowledgeWithSubOffsets, Probe, pending. destruct (acked t !! Offset x) as [[]|] eqn:Ea; simpl.
  - by rewrite Ea.
  - destruct (proj1 (He (Offset x))) as [e Hex]; [apply Ha; by rewrite Ea|]. rewrite Hex. case_bool_decide as Hc; cbn [acked entries].
    + by rewrite lookup_insert_eq.
    + rewrite Ea, lookup_insert_eq. simpl. split; [done|by intros [_ ?]].
  - destruct (entries t !! Offset x) eqn:Ee; [destruct (proj1 (Ha (Offset x)) (proj2 (He _) ltac:(by rewrite Ee))); congruence|]. naive_solver.
Qed.

Lemma step_good calls replies c t :
  length calls = length replies → good calls replies t → good (calls ++ [c]) (replies ++ [(step c t).2]) (step c t).1.
Proof.
  intros Hlen [Hi Ho Hm Hf He]. set (t' := (step c t).1). set (r := (step c t).2).
  assert (∀ x subs, CAdd x subs ∈ calls → CAdd x subs ∈ calls ++ [c]) as Hin by set_solver.
  assert (inv Offset t' ∧ Offset (lastMaxAck t) ≤ Offset (lastMaxAck t') ∧ (∀ m, r = RMax m → m = lastMaxAck t') ∧
    (lastMaxAck t' = lastMaxAck t ∨ ∃ off e, entries t !! off = Some e ∧ lastMaxAck t' = entry e) ∧
    (∀ off e, entries t' !! off = Some e → (∃ e', entries t !! off = Some e' ∧ entry e' = entry e) ∨ ∃ subs, c = CAdd (entry e) subs))
    as (H1 & H2 & H3 & H4 & H5).
  { subst t' r. destruct c as [x subs|x subs| |o]; simpl.
    - pose proof (inv_add Offset grow x subs t Hi) as H. unfold AddWithSubOffsets in *. case_bool_decide; [split_and!; eauto; done|].
      destruct (acked t !! Offset x); [split_and!; eauto; done|]. simpl in *. split_and!; [done|lia|done|by left|].
      intros off e [[_ <-]|[_ ?]]%lookup_insert_Some; [right; by eexists|left; eauto].
    - pose proof (inv_ack Offset x subs t Hi) as H. unfold AcknowledgeWithSubOffsets in *.
      destruct (default false (acked t !! Offset x)); [split_and!; eauto; done|]. destruct (entries t !! Offset x) as [e0|] eqn:Ee; [|split_and!; eauto; done].
      simpl in *. split_and!; [done|lia|done|by left|]. intros off e [[<- <-]|[_ ?]]%lookup_insert_Some; left; eauto.
    - destruct (MaxAcknowledged_spec Offset t Hi) as (l1 & l2 & _ & _ & _ & H). destruct (MaxAcknowledged t) as [t' m].
      destruct H as (Hi' & Hm' & Hle & Hy & Hr). simpl. rewrite Hm'. split_and!; [done|done|by intros ? [= <-]| |].
      + destruct Hr as [[-> _]|(_ & e & Hee & <-)]; [by left|right; eauto].
      + intros off e Hoe. destruct (Hy off) as [[_ E]|(_ & _ & _ & E)]; rewrite E in Hoe; [left; eauto|done].
    - split_and!; eauto; done. }
  split; [done| | | |].
  - intros off. unfold open_after. rewrite zip_with_app, foldl_app by done. cbn [foldl zip_with]. by apply step_open.
  - intros m [Hr|Hr%list_elem_of_singleton]%elem_of_app; [apply Hm in Hr; lia|]. by rewrite (H3 m).
  - destruct H4 as [->|(off & e & Hoe & ->)]; [destruct Hf as [Hf|[subs Hf]]; eauto|]. right. apply He in Hoe as [subs ?]; eauto.
  - intros off e Hoe. destruct (H5 off e Hoe) as [(e' & He' & <-)|[subs ->]]; [apply He in He' as [subs ?]; eauto|]. exists subs. set_solver.
Qed.

Lemma run_snoc calls c t :
  run (calls ++ [c]) t = let '(t, replies) := run calls t in let '(t, r) := step c t in (t, replies ++ [r]).
Proof.
  revert t. induction calls as [|c0 calls IH]; intros t; simpl; [by destruct (step c t)|]. destruct (step c0 t) as [t1 r0]. rewrite IH.
  destruct (run calls t1) as [t2 rs]. by destruct (step c t2).
Qed.

Lemma run_good calls :
  let '(t, replies) := run calls (NewOffsetTracker defaultT) in length calls = length replies ∧ good calls replies t.
Proof.
  induction calls as [|c calls IH] using rev_ind.
  { simpl. split; [done|]. split; [apply inv_new|done|by intros m ?%not_elem_of_nil|by left|done]. }
  rewrite run_snoc. destruct (run calls _) as [t replies]. destruct IH as [Hl Hg]. pose proof (step_good calls replies c t Hl Hg) as H.
  destruct (step c t) as [t' r]. split; [rewrite !length_app; simpl; lia|done].
Qed.

(** The two bounds of the reported maximum [m]. *)
Section maximum.
Context t t' (l1 l2 : list Z) (off : Z).
Hypothesis (Hpos : ∀ x, 0 ≤ Offset x) (Hi : inv Offset t) (El : elems (offsets t) = l1 ++ l2).
Hypothesis (H1 : ∀ x, x ∈ l1 → acked t !! x = Some true) (H2 : ∀ x, head l2 = Some x → acked t !! x ≠ Some true).
Hypothesis (Hle : Offset (lastMaxAck t) ≤ Offset (lastMaxAck t')).
Hypothesis (Hcase : lastMaxAck t' = lastMaxAck t ∧ (∀ x, last l1 = Some x → x = 0 ∨ x ≤ Offset (lastMaxAck t')) ∨
  last l1 = Some (Offset (lastMaxAck t')) ∧ ∃ e, entries t !! Offset (lastMaxAck t') = Some e ∧ entry e = lastMaxAck t').

Lemma open_above_max : acked t !! off = Some false → Offset (lastMaxAck t') < off ∨ Offset (lastMaxAck t') = off ∧ lastMaxAck t' = lastMaxAck t.
Proof using Hi El H1 Hcase.
  clear Hpos Hle H2. intros Hoff. destruct Hi as [Hs Ha He Hk Hst Hb Hl Haf].
  assert (off ∈ elems (offsets t)) as Hin by (apply Ha; by rewrite Hoff).
  destruct Hcase as [[-> _]|[Hlast _]].
  - rewrite <- (take_drop (ackCheckStart t) (elems (offsets t))) in Hin. apply elem_of_app in Hin as [Hin%Hb|Hin%Haf]; [|destruct (decide (Offset (lastMaxAck t) = off)); [by right|left; lia]].
    destruct Hin; congruence.
  - left. rewrite El in Hs, Hin. apply sorted_lt_split in Hs as (_ & _ & Hs). apply elem_of_app in Hin as [Hin%H1|Hin]; [congruence|].
    apply Hs; [by apply last_Some_elem_of|done].
Qed.

Lemma acked_not_above :
  acked t !! off = Some true → off ≠ 0 → (∀ o, acked t !! o = Some false → off < o) → off ≤ Offset (lastMaxAck t').
Proof using Hpos Hi El H1 H2 Hle Hcase.
  intros Hoff Hn0 Habove. destruct Hi as [Hs Ha He Hk Hst Hb Hl Haf].
  assert (off ∈ l1) as Hin.
  { assert (off ∈ l1 ++ l2) as Hin by (rewrite <- El; apply Ha; by rewrite Hoff). apply elem_of_app in Hin as [|Hin]; [done|].
    destruct l2 as [|h r]; [by apply not_elem_of_nil in Hin|]. specialize (H2 h eq_refl).
    assert (is_Some (acked t !! h)) as [[] Hh] by (apply Ha; rewrite El; set_solver); [done|]. apply Habove in Hh.
    rewrite El in Hs. apply sorted_lt_split in Hs as (_ & [_ Hr]%StronglySorted_inv & _). rewrite Forall_forall in Hr.
    apply elem_of_cons in Hin as [->|Hin%Hr]; lia. }
  assert (0 ≤ off) as Hoff0.
  { destruct (proj1 (He off)) as [e Hee]; [rewrite El; set_solver|]. rewrite <- (Hk off e Hee). apply Hpos. }
  destruct (last l1) as [x|] eqn:Elast; [|by apply last_None in Elast as ->; apply not_elem_of_nil in Hin].
  assert (off ≤ x) as Hx.
  { apply last_Some in Elast as [l0 ->]. rewrite El in Hs. apply sorted_lt_split in Hs as ((_ & _ & Hs)%sorted_lt_split & _ & _).
    apply elem_of_app in Hin as [Hin|Hin%list_elem_of_singleton]; [|lia]. apply Z.lt_le_incl, Hs; [done|set_solver]. }
  destruct Hcase as [[_ Hc]|[[= ->] _]]; [|done]. destruct (Hc x eq_refl); lia.
Qed.
End maximum.

(** The offset tracker never passes an open offset.  After any sequence of
    calls a probe says which offsets are open, that is taken by an addition and
    with sub-offsets that were not acknowledged since, and an acknowledgement is
    confirmed exactly for a known offset of which it leaves nothing open.  The
    reported maximum is below every open offset, unless it does not move and
    this offset was added again; it is not below any acknowledged offset
    without an open one below it (0 apart), never falls, and is the initial
    value or one that was added. *)
Lemma offset_tracker_exact calls :
  (∀ x, 0 ≤ Offset x) →
  let '(t, replies) := run calls (NewOffsetTracker defaultT) in
  let open := open_after calls replies in
  let '(t', m) := MaxAcknowledged t in
  (∀ off, is_Some (open !! off) ↔ Probe off t = mkProbe true false) ∧
  (∀ x subs, let b := (AcknowledgeWithSubOffsets Offset x subs t).2 in
     b = true ↔ Probe (Offset x) t ≠ mkProbe false false ∧ open_step (CAck x subs) (RBool b) open !! Offset x = None) ∧
  (∀ off, is_Some (open !! off) → Offset m < off ∨ Offset m = off ∧ m = lastMaxAck t) ∧
  (∀ off, Probe off t = mkProbe true true → off ≠ 0 → (∀ o, is_Some (open !! o) → off < o) → off ≤ Offset m) ∧
  (∀ m', RMax m' ∈ replies → Offset m' ≤ Offset m) ∧
  (m = defaultT ∨ ∃ subs, CAdd m subs ∈ calls).
Proof.
  intros Hpos. pose proof (run_good calls) as Hg. destruct (run calls _) as [t replies]. destruct Hg as [Hlen Hg]. cbv zeta.
  pose proof (step_good calls replies CMax t Hlen Hg) as Hg'. destruct Hg as [Hi Ho Hm Hf He].
  assert (∀ off, Probe off t = mkProbe true false ↔ acked t !! off = Some false) as Hprobe.
  { intros off. unfold Probe. by destruct (acked t !! off) as [[]|]. }
  pose proof (MaxAcknowledged_spec Offset t Hi) as (l1 & l2 & El & H1 & H2 & Hmax). simpl in Hg'. destruct (MaxAcknowledged t) as [t' m].
  destruct Hmax as (Hi' & <- & Hle & _ & Hcase). simpl in Hg'.
  assert (∀ off, is_Some (open_after calls replies !! off) ↔ acked t !! off = Some false) as Hopen.
  { intros off. rewrite <- Ho. by apply pending_open. }
  split_and!.
  - intros off. by rewrite Hopen, Hprobe.
  - intros x subs. pose proof (ack_reply x subs t Hi) as Hr. pose proof (step_open (CAck x subs) t _ Hi Ho (Offset x)) as Hs.
    cbn [step] in Hs. destruct (AcknowledgeWithSubOffsets Offset x subs t) as [t2 b]. cbn [fst snd] in *. by rewrite <- Hs.
  - intros off Hoff%Hopen. apply (open_above_max t t' l1 l2 off Hi El H1 Hcase Hoff).
  - intros off Hoff Hn0 Habove. apply (acked_not_above t t' l1 l2 off Hpos Hi El H1 H2 Hle Hcase); [|done|].
    + unfold Probe in Hoff. destruct (acked t !! off) as [[]|]; [done|by injection Hoff|done].
    + intros o Hacked. apply Habove. by apply Hopen.
  - intros m' Hr. pose proof (Hm m' Hr). lia.
  - destruct Hg' as [_ _ _ Hf' _]. destruct Hf' as [|[subs Hs]]; [by left|right]. exists subs. set_solver.
Qed.
End calls.
End Calls.

(** ** Concrete runs *)

Module Samples.
Import Tracker Calls.

Definition track := run Z.of_N (λ c, (2 * c)%nat).
Definition new : tracker (gset Z) N := NewOffsetTracker 0%N.
(** Three offsets, of which the second stays partly open. *)
Definition sample_calls : list (call (T := N)) :=
  [CAdd 30000%N [0; 1; 2]; CAdd 50000%N [0]; CAdd 40000%N [0; 1]; CAck 30000%N [2]; CAck 40000%N [1]; CAck 50000%N [0]; CMax;
   CAck 30000%N [0; 1; 2]].

Lemma offset_tracker_exact_witness :
  let '(t, replies) := run Z.of_N (λ c, (2 * c)%nat) sample_calls new in
  let open := open_after Z.of_N sample_calls replies in
  let '(t', m) := MaxAcknowledged t in
  ∀ off, is_Some (open !! off) → Z.of_N m < off ∨ Z.of_N m = off ∧ m = lastMaxAck t.
Proof.
  pose proof (offset_tracker_exact (B := gset Z) Z.of_N 0%N (λ c, (2 * c)%nat) sample_calls N2Z.is_nonneg) as H. unfold new.
  destruct (run _ _ _ _) as [t replies]. cbv zeta in *. destruct (MaxAcknowledged t) as [t' m]. apply H.
Defined.

Example offset_sample_run :
  let '(t, replies) := track sample_calls new in
  replies = [RProbe (mkProbe false false); RProbe (mkProbe false false); RProbe (mkProbe false false); RBool false; RBool false;
             RBool true; RMax 0%N; RBool true] ∧
  (MaxAcknowledged t).2 = 30000%N ∧ open_after Z.of_N sample_calls replies !! 40000 = Some {[0]} ∧
  (AcknowledgeWithSubOffsets Z.of_N 40000%N [0] t).2 = true.
Proof. vm_compute. done. Qed.

Definition many : list (call (T := N)) :=
  ((λ i, CAdd (N.of_nat i) [0]) <$> seq 1 250) ++ ((λ i, CAck (N.of_nat i) [0]) <$> seq 1 250) ++ [CMax].

(** After a clean-up the offset at the maximum can be added again: it is then open
    and the maximum is not below it. *)
Example maximum_added_again :
  let '(t, replies) := track (many ++ [CAdd 250%N [0]]) new in
  last replies = Some (RProbe (mkProbe false false)) ∧ Probe 250 t = mkProbe true false ∧ (MaxAcknowledged t).2 = 250%N.
Proof. vm_compute. done. Qed.

(** An offset without sub-offsets stays open until it is acknowledged all the same. *)
Example nothing_to_acknowledge :
  (MaxAcknowledged (track [CAdd 5%N []] new).1).2 = 0%N ∧ (MaxAcknowledged (track [CAdd 5%N []; CAck 5%N []] new).1).2 = 5%N.
Proof. vm_compute. done. Qed.
End Samples.
