(* ===== verification/Runner.v ===== *)
(** * The start of the program (src/pg2runner/app_runner.go)

    [RunApp] checks the licence and the configuration, migrates and validates the
    publication, runs the snapshot and starts the replication.  It is a sequence
    of checks, each of which may end the program, and of effects, which are kept
    as a list of actions in their order.

    - [Settings]: durations and the options that are computed from the
      configuration and the database;
    - [Validate]: the validation against the database, after the migration;
    - [App]: the whole start;
    - [Order]: what is known when the replication is started, and from where.

    The answers of the database and of the downstream store, the environment and
    the clock are arguments; a listener is given by what its methods answer. *)

From stdpp Require Import base numbers list gmap strings pretty.
From S2P Require Import Prelude GoStrings PgSchema Decode Replicator SnapshotPlan SnapshotManager License Migrator.

(** ** Durations and options *)

Module Settings.

Definition Millisecond : Z := 1000000.

Section durations.
(** [strconv.ParseFloat] with the conversion to a whole number, and
    [time.ParseDuration]. *)
Context (parse_float : string → option Z) (ParseDuration : string → goerr + Z).

(** src/config/duration_config.go *)
Definition durationOr (str : string) (baseDuration : Z) : goerr + Z :=
  match parse_float str with
  | Some val => inr (i64 (val * baseDuration))
  | None => ParseDuration str
  end.
Definition DurationOrSeconds (str : string) : goerr + Z := durationOr str Second.
Definition DurationOrMilliseconds (str : string) : goerr + Z := durationOr str Millisecond.

(** A setting, or its default when it is not given. *)
Definition setting (read : string → goerr + Z) (str name : string) (otherwise : Z) : res Z :=
  if bool_decide (str = EmptyString) then Ok otherwise
  else match read str with
       | inr d => Ok d
       | inl err => Err (GoWrap ("invalid " +:+ name +:+ " value") err)
       end.

Definition readPgWalSenderTimeout (answer : goerr + string) : Z :=
  match answer with
  | inl _ => 10 * Second
  | inr walSenderTimeout => match DurationOrMilliseconds walSenderTimeout with inr v => v | inl _ => 10 * Second end
  end.

(** The configured time between reports, but no more than PostgreSQL waits. *)
Definition standby (str : string) (pgWalSenderTimeout : Z) : res Z :=
  t ← setting DurationOrSeconds str "standByTimeout" pgWalSenderTimeout;
  Ok (if bool_decide (pgWalSenderTimeout < t) then pgWalSenderTimeout else t).
End durations.

(** [strconv.ParseUint(s, 10, 32)] *)
Definition digit_byte (c : Ascii.ascii) : bool := bool_decide (48 ≤ byte_val c ≤ 57).
Definition ParseUint32 (s : string) : option Z :=
  if negb (bool_decide (s = EmptyString)) && forallb digit_byte (to_list s) && bool_decide (read_dec 0 s < two32)
  then Some (read_dec 0 s) else None.

Definition setWatchXID (watchXID : string) (o : Options) : Options :=
  match ParseUint32 watchXID with
  | Some xid => mkOptions (SlotName o) (PubName o) (StandByTimeout o) xid (WatchLSN o) (ReceiveMsgTimeout o) (StatsInterval o)
                          (Replicator.MaxWriteQueueSize o) (standbyThreshold o)
  | None => o
  end.

(** The later of the database's and the program's day. *)
Definition getToday (pgToday : goerr + Z) (appToday : Z) : res Z :=
  match pgToday with
  | inl err => Err err
  | inr pgToday => Ok (if bool_decide (appToday < pgToday) then pgToday else appToday)
  end.
End Settings.

(** ** Validation against the database *)

Module Validate.

(** The first column that is not published. *)
Fixpoint check_columns (table : Table) (cols : list string) : option goerr :=
  match cols with
  | [] => None
  | col :: r => if bool_decide (col = "all") then check_columns table r
                else if HasColumn table col then check_columns table r
                else Some (GoErr "column is not in publication")
  end.

Fixpoint check_tables (pub all : gmap string Table) (confs : list (string * TableConfig)) : option goerr :=
  match confs with
  | [] => None
  | (name, conf) :: r =>
      match (match pub !! name with Some t => Some t | None => all !! name end) with
      | None => Some (GoErr "table is not in publication")
      | Some table => match check_columns table (tc_Columns conf) with
                      | Some err => Some err
                      | None => check_tables pub all r
                      end
      end
  end.

(** [validateSchema]; the tables in the order of the iteration. *)
Definition validateSchema (pub all : gmap string Table) (confs : list (string * TableConfig)) : option goerr :=
  check_tables pub all confs.

(** The row of the replication slot. *)
Inductive slotAnswer := SlotRow (plugin : string) (confirmed_flush_lsn : Z) | SlotNoRows | SlotError (e : goerr).

(** [createConnStrAndLoadPublication]; an error that is not the missing row goes
    unnoticed in the first query. *)
Definition load_publication (pub : pubAnswer) (slot : slotAnswer) : res Z :=
  match pub with
  | PubNoRows => Err (GoErr "publication doesn't exist")
  | PubFound | PubError _ =>
      match slot with
      | SlotNoRows => Err (GoErr "slot doesn't exist")
      | SlotError err => Err err
      | SlotRow plugin flushLSN =>
          if bool_decide (plugin = EmptyString) || negb (EqualFold plugin "pgoutput")
          then Err (GoErr "slot must be created with 'pgoutput' plugin") else Ok flushLSN
      end
  end.

(** [pgcompatibility.CheckTrackCommitTimestamp] *)
Definition CheckTrackCommitTimestamp (answer : goerr + string) : option goerr :=
  match answer with
  | inl err => Some err
  | inr s => if bool_decide (s = "on") then None else Some (GoErr "track commit timestamp is disabled")
  end.

Definition validateCreatedSlotLSN (slotSnapshot : option Manager.Snapshot) (confirmedFlushLSN : Z) : option goerr :=
  match slotSnapshot with
  | None => None
  | Some s => if bool_decide (Manager.slot_LSN s = confirmedFlushLSN) then None
              else Some (GoErr "created replication slot LSN does not match confirmed_flush_lsn")
  end.

Lemma check_columns_None table cols :
  check_columns table cols = None ↔ ∀ c, c ∈ cols → c = "all" ∨ is_Some (Columns table !! c).
Proof.
  induction cols as [|c r IH]; cbn [check_columns]; [split; [by intros _ c ?%elem_of_nil|done]|].
  unfold HasColumn in *. destruct (decide (c = "all")) as [->|Hc].
  - rewrite bool_decide_true, IH by done. split; [intros H d [->|Hd]%elem_of_cons; [by left|by apply H]|].
    intros H d Hd. apply H. by right.
  - rewrite (bool_decide_false (c = "all")) by done. case_bool_decide as Hs.
    + rewrite IH. split; [intros H d [->|Hd]%elem_of_cons; [by right|by apply H]|]. intros H d Hd. apply H. by right.
    + split; [done|]. intros H. destruct (H c) as [?|?]; [by left|done|done].
Qed.

(** A configured table with its published columns. *)
Definition available (pub all : gmap string Table) (name : string) (conf : TableConfig) : Prop :=
  ∃ table, (pub !! name = Some table ∨ pub !! name = None ∧ all !! name = Some table) ∧
    ∀ c, c ∈ tc_Columns conf → c = "all" ∨ is_Some (Columns table !! c).

Lemma check_tables_None pub all confs :
  check_tables pub all confs = None ↔ ∀ name conf, (name, conf) ∈ confs → available pub all name conf.
Proof.
  induction confs as [|[n c] r IH]; cbn [check_tables]; [split; [by intros _ ? ? ?%elem_of_nil|done]|].
  unfold available in *. split.
  - intros H name conf Hin. destruct (match pub !! n with Some t => Some t | None => all !! n end) as [table|] eqn:E; [|done].
    destruct (check_columns table (tc_Columns c)) eqn:Ec; [done|]. apply elem_of_cons in Hin as [[= -> ->]|Hin].
    + exists table. split; [|by apply check_columns_None]. destruct (pub !! n) as [t|]; [left; congruence|by right].
    + by apply (proj1 IH).
  - intros H. destruct (H n c (list_elem_of_here _ _)) as (table & Ht & Hc).
    assert (match pub !! n with Some t => Some t | None => all !! n end = Some table) as ->.
    { destruct Ht as [-> |[-> ?]]; done. }
    rewrite (proj2 (check_columns_None table _)) by done. apply IH. intros name conf Hin. apply H. by right.
Qed.
End Validate.

(** ** The whole start *)

Module App.
Import Settings Validate.

(** What is done, in order. *)
Inductive action :=
| Migration (a : Migrate.action)
| CloseSlotSnapshot
| LoadPubTables
| Ping
| SnapshotAction (a : Manager.action)
| StartListener
| CreateAppState
| StartReplication (o : Options) (lsn : Z)
| GracefulShutdown.
#[global] Instance Options_eq_dec : EqDecision Options.
Proof. solve_decision. Defined.
#[global] Instance runner_action_eq_dec : EqDecision action.
Proof. solve_decision. Defined.

(** Actions, and the value, error or panic they end with. *)
Definition W (A : Type) : Type := list action * res A.
Definition wret {A} (a : A) : W A := ([], Ok a).
Definition wres {A} (r : res A) : W A := ([], r).
Definition wdo (a : action) (err : option goerr) : W unit := ([a], match err with Some e => Err e | None => Ok () end).
Definition wcheck (wrap : goerr → goerr) (err : option goerr) : W unit :=
  ([], match err with Some e => Err (wrap e) | None => Ok () end).
Definition wbind {A B} (m : W A) (f : A → W B) : W B :=
  match m with
  | (acts, Ok a) => let '(acts', r) := f a in (acts ++ acts', r)
  | (acts, Err e) => (acts, Err e)
  | (acts, Panic s) => (acts, Panic s)
  | (acts, Fatal s) => (acts, Fatal s)
  end.
Notation "'let*' x := m 'in' f" := (wbind m (λ x, f)) (at level 200, x binder, m at level 200, f at level 200).
Notation "m ;;; f" := (wbind m (λ _, f)) (at level 100, f at level 200).

(** The configuration, as far as it is used here. *)
Record app_config := mkAppConfig {
  Slot : string; Pub : string; Owner : string; Failover : option bool;
  StandByTimeout_ : string; ReceiveTimeout : string; StatsInterval_ : string; ShutdownTimeout : string;
  MaxWriteQueueSize_ : Z; tablesConfig : gmap string TableConfig; snapshotConfig : option SnapshotConfig;
  NeedsTrackCommitTimestamp : bool }.

Section app.
Context {D : Type}.
(** The database, as in [Migrator], with the further queries of the validation. *)
Context (fold_eq : string → string → bool).
Context (pub_exists : D → string → pubAnswer) (rows12 : D → string → goerr + list pubTableColumn)
        (rows15 : D → string → goerr + list nullableRow).
Context (exec : string → D → option goerr * D).
Context (slot_exists : D → string → goerr + bool) (repl_conn : D → option goerr)
        (create_slot : string → D → (goerr + Migrate.slot_created) * D).
Context (slot_row : D → string → slotAnswer) (version_num : D → goerr + Z) (track_commit : D → goerr + string).
Context (order : ∀ A, gmap string A → list (string * A)).
Context (parse_float : string → option Z) (ParseDuration : string → goerr + Z) (is_duration : string → bool).
Context (lsn_string : Z → string) (ParseLSN : string → option Z).

(** What everything else answers. *)
Record answers := mkAnswers {
  w_pg_config : option goerr; w_connector : option goerr; w_connect : option goerr;
  w_pg_today : goerr + Z; w_app_today : Z;
  w_license : Z → res Binary.License;
  w_primary_version : goerr + Z; w_wal_sender : goerr + string; w_watch_xid : string;
  w_build : option goerr; w_load : option goerr; w_validate : option goerr; w_ping : option goerr;
  w_snapshot : Manager.parts; w_last_lsn : goerr + string;
  w_start : option goerr;
  (** whether the context is cancelled first, or what [doneChan] delivers *)
  w_end : unit + option goerr }.

Definition validateWithConn (conf : app_config) (d : D) : res Z :=
  match load_publication (pub_exists d (Pub conf)) (slot_row d (Slot conf)) with
  | Err err => Err (GoWrap "failed to load publication config" err)
  | Ok flushLSN =>
      match version_num d with
      | inl err => Err (GoWrap "failed to read PG version" err)
      | inr n =>
          match parsePGVersionNum n with
          | Ok ver =>
              match Migrate.read_pub fold_eq pub_exists rows12 rows15 d (Pub conf) ver with
              | Ok (pub, all) =>
                  match validateSchema pub all (order _ (tablesConfig conf)) with
                  | Some err => Err err
                  | None =>
                      if NeedsTrackCommitTimestamp conf then
                        match CheckTrackCommitTimestamp (track_commit d) with Some err => Err err | None => Ok flushLSN end
                      else Ok flushLSN
                  end
              | Err err => Err (GoWrap "failed to read publication tables" err)
              | Panic m => Panic m | Fatal m => Fatal m
              end
          | Err err => Err (GoWrap "failed to read PG version" err)
          | Panic m => Panic m | Fatal m => Fatal m
          end
      end
  | Panic m => Panic m | Fatal m => Fatal m
  end.

Definition close (slot : option Manager.Snapshot) : list action := match slot with Some _ => [CloseSlotSnapshot] | None => [] end.

(** [migrateAndValidate]: first the migration, with the snapshot of a new slot
    and the database afterwards. *)
Definition migrate_publication (conf : app_config) (x : answers) (d : D) : W (option Manager.Snapshot * D) :=
  if EqualFold (Owner conf) "app" then
    match Migrate.Migrate fold_eq pub_exists rows12 rows15 exec slot_exists repl_conn create_slot ParseLSN order
            (Migrate.mkMig (Pub conf) (Slot conf) (Failover conf)) (w_primary_version x) (tablesConfig conf) d with
    | (inl err, _, acts) => (Migration <$> acts, Err (GoWrap "failed to migrate publication" err))
    | (inr slot, d, acts) => (Migration <$> acts, Ok (slot, d))
    end
  else wret (None, d).

(** ... then the validation, with the slot's position. *)
Definition validate_migrated (conf : app_config) (slot : option Manager.Snapshot) (d : D) : W (Z * option Manager.Snapshot * D) :=
  match validateWithConn conf d with
  | Ok flushLSN =>
      match validateCreatedSlotLSN slot flushLSN with
      | Some err => (close slot, Err err)
      | None => wret (flushLSN, slot, d)
      end
  | Err err => (close slot, Err err)
  | Panic m => ([], Panic m)
  | Fatal m => ([], Fatal m)
  end.
Definition migrateAndValidate (conf : app_config) (x : answers) (d : D) : W (Z * option Manager.Snapshot * D) :=
  let* '(slot, d) := migrate_publication conf x d in validate_migrated conf slot d.

(** The options of the replicator, and the time a shutdown may take. *)
Definition options (conf : app_config) (x : answers) : res (Options * Z) :=
  let pgWalSenderTimeout := readPgWalSenderTimeout parse_float ParseDuration (w_wal_sender x) in
  let seconds := DurationOrSeconds parse_float ParseDuration in
  standByTimeout ← standby parse_float ParseDuration (StandByTimeout_ conf) pgWalSenderTimeout;
  receiveTimeout ← setting seconds (ReceiveTimeout conf) "receiveTimeout" (60 * Second);
  statsInterval ← setting seconds (StatsInterval_ conf) "statsInterval" (60 * Second);
  shutdownTimeout ← setting (DurationOrMilliseconds parse_float ParseDuration) (ShutdownTimeout conf) "shutdownTimeout" 0;
  Ok (setWatchXID (w_watch_xid x)
        (NewOptions (Slot conf) (Pub conf) standByTimeout receiveTimeout statsInterval (MaxWriteQueueSize_ conf)), shutdownTimeout).

(** The snapshot: the position to stream from, or nothing when the program is
    to end after it.  [Execute] gives the mode its default. *)
Definition run_snapshot (conf : app_config) (x : answers) (slot : option Manager.Snapshot) (flushLSN : Z) : W (option Z) :=
  match snapshotConfig conf with
  | None => wret (Some flushLSN)
  | Some cfg =>
      if bool_decide (Mode cfg = ModeNever) then wret (Some flushLSN)
      else
        let s := w_snapshot x in
        let '(out, acts) := Manager.Execute lsn_string ParseLSN is_duration (Some cfg)
          (Manager.mkParts (Manager.x_saved s) (Manager.x_create s) slot (Manager.x_conn s) (Manager.x_init s) (Manager.x_run s)) in
        let finish lsn := if bool_decide (Mode cfg = ModeOneTimeOnly) then Ok None else Ok (Some lsn) in
        (SnapshotAction <$> acts,
         match out with
         | Ok (_, Some err) => if AbortOnError cfg then Err (GoWrap "snapshot failed" err) else finish flushLSN
         | Ok (snapLsn, None) => finish (if bool_decide (0 < snapLsn) then snapLsn else flushLSN)
         | Err err => Err err
         | Panic m => Panic m
         | Fatal m => Fatal m
         end)
  end.

(** Where the replication starts: the position saved downstream, if there is
    one, otherwise that of the snapshot or of the slot. *)
Definition start_position (last : goerr + string) (snapshotLsn : Z) : Z :=
  match last with
  | inl _ => snapshotLsn
  | inr startLSN =>
      if bool_decide (startLSN = EmptyString) then snapshotLsn
      else match ParseLSN startLSN with
           | None => snapshotLsn
           | Some lsn => if bool_decide (lsn = 0) then snapshotLsn else lsn
           end
  end.

(** Before the replication: the checks and the snapshot. *)
Definition prepare (conf : app_config) (x : answers) (slot : option Manager.Snapshot) (flushLSN : Z) : W (option (Options * Z)) :=
  let* '(opts, _) := wres (options conf x) in
  wcheck id (w_build x) ;;;
  wdo LoadPubTables (w_load x) ;;;
  wcheck (GoWrap "failed to validate config") (w_validate x) ;;;
  wdo Ping (w_ping x) ;;;
  let* lsn := run_snapshot conf x slot flushLSN in
  wret (match lsn with None => None | Some lsn => Some (opts, lsn) end).

Definition replicate (x : answers) (opts : Options) (snapshotLsn : Z) : W unit :=
  let p := start_position (w_last_lsn x) snapshotLsn in
  ([StartListener; CreateAppState; StartReplication opts p] ++
     match w_start x with Some _ => [] | None => match w_end x with inl _ => [GracefulShutdown] | inr _ => [] end end,
   match w_start x with
   | Some err => Err (GoWrap "failed to start replication" err)
   | None => match w_end x with
             | inr (Some err) => if errors_Is err Canceled then Ok () else Err (GoWrap "app exited with error" err)
             | _ => Ok ()
             end
   end).

(** The deferred close of the slot's snapshot: not when the process is ended at
    once, and not again after the close before the replication. *)
Definition RunApp (conf : app_config) (x : answers) (d : D) : W unit :=
  wcheck (GoWrap "invalid Postgres config") (w_pg_config x) ;;;
  wcheck (GoWrap "failed to validate Postgres connection parameters") (w_connector x) ;;;
  wcheck id (w_connect x) ;;;
  let* today := wres (getToday (w_pg_today x) (w_app_today x)) in
  wres (match w_license x today with Err err => Err (GoWrap "license check failed" err) | r => r end) ;;;
  let* '(flushLSN, slot, d) := migrateAndValidate conf x d in
  match prepare conf x slot flushLSN with
  | (acts, Ok (Some (opts, snapshotLsn))) => let '(acts', r) := replicate x opts snapshotLsn in (acts ++ close slot ++ acts', r)
  | (acts, Ok None) => (acts ++ close slot, Ok ())
  | (acts, Err err) => (acts ++ close slot, Err err)
  | (acts, Panic m) => (acts ++ close slot, Panic m)
  | (acts, Fatal m) => (acts, Fatal m)
  end.
End app.
End App.

(** ** The order of the start *)

Module Order.
Import Settings Validate App.

(** The number of actions that satisfy a test, and a sequence of checks. *)
Definition count (P : action → Prop) `{!∀ a, Decision (P a)} (acts : list action) : nat := length (filter P acts).
Lemma count_app (P : action → Prop) `{!∀ a, Decision (P a)} a b : count P (a ++ b) = (count P a + count P b)%nat.
Proof. unfold count. by rewrite filter_app, length_app. Qed.
Lemma count_none (P : action → Prop) `{!∀ a, Decision (P a)} acts : Forall (λ a, ¬ P a) acts → count P acts = 0%nat.
Proof. intros Hall. unfold count. induction Hall as [|a acts Ha _ IH]; [done|]. by rewrite filter_cons_False. Qed.

Definition starts (a : action) : Prop := match a with StartReplication _ _ => True | _ => False end.
#[global] Instance starts_dec a : Decision (starts a).
Proof. destruct a; apply _. Defined.

Lemma wbind_Ok {A B} (m : W A) (f : A → W B) acts b :
  wbind m f = (acts, Ok b) ↔ ∃ a1 a2 x, m = (a1, Ok x) ∧ f x = (a2, Ok b) ∧ acts = a1 ++ a2.
Proof.
  destruct m as [a1 [x| | |]]; simpl; [|by split; [|intros (? & ? & ? & ? & _)]..]. destruct (f x) as [a2 r] eqn:E. split.
  - intros [= <- ->]. by exists a1, a2, x.
  - intros (? & ? & ? & [= <- <-] & Hf & ->). congruence.
Qed.

Lemma wcheck_Ok wrap err acts : wcheck wrap err = (acts, Ok ()) ↔ err = None ∧ acts = [].
Proof. unfold wcheck. destruct err; split; [done|by intros [? _]|by intros [= <-]|by intros [_ ->]]. Qed.

Lemma wdo_Ok a err acts : wdo a err = (acts, Ok ()) ↔ err = None ∧ acts = [a].
Proof. unfold wdo. destruct err; split; [done|by intros [? _]|by intros [= <-]|by intros [_ ->]]. Qed.

(** What holds of all actions of a sequence. *)
Lemma wbind_all {A B} (P : action → Prop) (m : W A) (f : A → W B) :
  Forall P m.1 → (∀ x, Forall P (f x).1) → Forall P (wbind m f).1.
Proof.
  intros Hm Hf. destruct m as [a1 [x| | |]]; try done. simpl in *. specialize (Hf x). destruct (f x). simpl in *. by apply Forall_app.
Qed.

Section order.
Context {D : Type}.
Context (fold_eq : string → string → bool).
Context (pub_exists : D → string → pubAnswer) (rows12 : D → string → goerr + list pubTableColumn)
        (rows15 : D → string → goerr + list nullableRow).
Context (exec : string → D → option goerr * D).
Context (slot_exists : D → string → goerr + bool) (repl_conn : D → option goerr)
        (create_slot : string → D → (goerr + Migrate.slot_created) * D).
Context (slot_row : D → string → slotAnswer) (version_num : D → goerr + Z) (track_commit : D → goerr + string).
Context (order : ∀ A, gmap string A → list (string * A)).
Context (parse_float : string → option Z) (ParseDuration : string → goerr + Z) (is_duration : string → bool).
Context (lsn_string : Z → string) (ParseLSN : string → option Z).
Hypothesis order_perm : ∀ A (m : gmap string A), order A m ≡ₚ map_to_list m.

Notation RunApp := (RunApp fold_eq pub_exists rows12 rows15 exec slot_exists repl_conn create_slot slot_row version_num
  track_commit order parse_float ParseDuration is_duration lsn_string ParseLSN).
Notation migrateAndValidate := (migrateAndValidate fold_eq pub_exists rows12 rows15 exec slot_exists repl_conn create_slot
  slot_row version_num track_commit order ParseLSN).
Notation validateWithConn := (validateWithConn fold_eq pub_exists rows12 rows15 slot_row version_num track_commit order).
Notation migrate_publication := (migrate_publication fold_eq pub_exists rows12 rows15 exec slot_exists repl_conn create_slot
  order ParseLSN).
Notation validate_migrated := (validate_migrated fold_eq pub_exists rows12 rows15 slot_row version_num track_commit order).
Notation prepare := (prepare parse_float ParseDuration is_duration lsn_string ParseLSN).
Notation run_snapshot := (run_snapshot is_duration lsn_string ParseLSN).
Notation start_position := (start_position ParseLSN).
Notation replicate := (replicate ParseLSN).

(** The database is fit for the configuration: the slot stands at [flushLSN],
    and all configured tables and columns can be read. *)
Definition fit (conf : app_config) (d : D) (flushLSN : Z) : Prop :=
  (∃ plugin, slot_row d (Slot conf) = SlotRow plugin flushLSN ∧ EqualFold plugin "pgoutput" = true) ∧
  ∃ n ver pub all, version_num d = inr n ∧ parsePGVersionNum n = Ok ver ∧
    Migrate.read_pub fold_eq pub_exists rows12 rows15 d (Pub conf) ver = Ok (pub, all) ∧
    ∀ name tc, tablesConfig conf !! name = Some tc → available pub all name tc.

Lemma validate_fit conf d flushLSN : validateWithConn conf d = Ok flushLSN → fit conf d flushLSN.
Proof using order_perm.
  unfold App.validateWithConn, load_publication. intros H.
  assert (∃ plugin f, slot_row d (Slot conf) = SlotRow plugin f ∧ EqualFold plugin "pgoutput" = true ∧
    (match pub_exists d (Pub conf) with PubNoRows => False | _ => True end)) as (plugin & f & Hs & Hp & He).
  { destruct (pub_exists d (Pub conf)), (slot_row d (Slot conf)) as [plugin f| |]; try done;
      (destruct (bool_decide (plugin = EmptyString)); [done|]; destruct (EqualFold plugin "pgoutput") eqn:E; [by exists plugin, f|done]). }
  rewrite Hs, Hp in H. destruct (bool_decide (plugin = EmptyString)); [by destruct (pub_exists d (Pub conf))|].
  assert (∃ n ver pub all, version_num d = inr n ∧ parsePGVersionNum n = Ok ver ∧
    Migrate.read_pub fold_eq pub_exists rows12 rows15 d (Pub conf) ver = Ok (pub, all) ∧
    validateSchema pub all (order _ (tablesConfig conf)) = None ∧ f = flushLSN) as (n & ver & pub & all & Hn & Hv & Hr & Hc & ->).
  { simpl in H. destruct (pub_exists d (Pub conf)); try done; (destruct (version_num d) as [|n]; [done|];
      destruct (parsePGVersionNum n) as [ver| | |] eqn:Ev; try done;
      destruct (Migrate.read_pub _ _ _ _ _ _ _) as [[pub all]| | |] eqn:Er; try done;
      destruct (validateSchema pub all _) eqn:Ec; [done|]; exists n, ver, pub, all; split_and!; try done;
      destruct (NeedsTrackCommitTimestamp conf); [destruct (CheckTrackCommitTimestamp _)|]; congruence). }
  split; [by exists plugin|]. exists n, ver, pub, all. split_and!; [done..|]. intros name tc Ht.
  apply (proj1 (check_tables_None pub all (order _ (tablesConfig conf))) Hc). by rewrite order_perm, elem_of_map_to_list.
Qed.

(** Connections for a slot's snapshot that are open. *)
Definition opened (acts : list action) : nat := count (λ a, a = Migration Migrate.OpenReplConn) acts.
Definition closed (acts : list action) : nat :=
  (count (λ a, a = Migration Migrate.CloseReplConn) acts + count (λ a, a = CloseSlotSnapshot) acts)%nat.
Lemma opened_app a b : opened (a ++ b) = (opened a + opened b)%nat.
Proof using Type. apply count_app. Qed.
Lemma closed_app a b : closed (a ++ b) = (closed a + closed b)%nat.
Proof using Type. unfold closed. rewrite !count_app. lia. Qed.
Definition held (slot : option Manager.Snapshot) : nat := match slot with Some _ => 1%nat | None => 0%nat end.
Lemma close_held slot : opened (close slot) = 0%nat ∧ closed (close slot) = held slot ∧ Forall (λ a, ¬ starts a) (close slot).
Proof using Type. destruct slot; (split_and!; [done|done|]); repeat constructor. by intros ?. Qed.

Lemma migration_actions m :
  opened (Migration <$> m) = length (filter (λ a, a = Migrate.OpenReplConn) m) ∧
  closed (Migration <$> m) = length (filter (λ a, a = Migrate.CloseReplConn) m) ∧
  Forall (λ a, ¬ starts a) (Migration <$> m).
Proof using Type.
  clear. assert (∀ b l, count (λ a, a = Migration b) (Migration <$> l) = length (filter (λ a, a = b) l)) as Hcount.
  { intros b l. unfold count. induction l as [|a l IH]; [done|]. rewrite fmap_cons. destruct (decide (a = b)) as [->|Hne].
    - rewrite !filter_cons_True by done. simpl. by rewrite IH.
    - by rewrite !filter_cons_False by congruence. }
  unfold opened, closed. rewrite !Hcount, count_none; [split_and!; [done|lia|]|];
    apply Forall_fmap, Forall_forall; intros a _ Ha; by simpl in Ha.
Qed.

(** The migration and the validation, with the connections of a new slot. *)
Lemma migrate_connections conf x d acts r :
  migrateAndValidate conf x d = (acts, r) →
  Forall (λ a, ¬ starts a) acts ∧
  match r with
  | Panic _ | Fatal _ => True
  | Ok (_, slot, _) => opened acts = (closed acts + held slot)%nat
  | Err _ => opened acts = closed acts
  end.
Proof using Type.
  unfold App.migrateAndValidate. intros E.
  assert (∃ m, (migrate_publication conf x d).1 = Migration <$> m ∧
    match (migrate_publication conf x d).2 with
    | Ok (slot, _) => length (filter (λ a, a = Migrate.OpenReplConn) m) = (length (filter (λ a, a = Migrate.CloseReplConn) m) + held slot)%nat
    | Err _ => length (filter (λ a, a = Migrate.OpenReplConn) m) = length (filter (λ a, a = Migrate.CloseReplConn) m)
    | _ => True
    end) as (m & Hm & Hlen).
  { unfold App.migrate_publication. destruct (EqualFold (Owner conf) "app"); [|by exists []].
    destruct (Migrate.Migrate _ _ _ _ _ _ _ _ _ _ _ _ _ d) as [[out d1] m] eqn:Em. exists m.
    apply Migrate.Migrate_connection in Em. destruct out as [err|slot]; (split; [done|]); simpl in *; [lia|]. destruct slot; simpl; lia. }
  destruct (migration_actions m) as (Ho & Hc & Hs). destruct (migrate_publication conf x d) as [a1 r1]. simpl in Hm, Hlen. subst a1.
  unfold wbind in E. destruct r1 as [[slot d1]| | |]; [|injection E as <- <-; split; [done|first [done | lia]]..].
  destruct (close_held slot) as (H1 & H2 & H3). unfold validate_migrated in E.
  destruct (validateWithConn conf d1) as [flushLSN| | |]; [destruct (validateCreatedSlotLSN slot flushLSN)|..];
    simpl in E; injection E as <- <-; (split; [apply Forall_app; by split|]); rewrite ?app_nil_r, ?opened_app, ?closed_app; first [done | lia].
Qed.

(** *** The checks and the snapshot *)

Definition inner (a : action) : Prop := match a with LoadPubTables | Ping | SnapshotAction _ => True | _ => False end.

Lemma inner_quiet acts : Forall inner acts → opened acts = 0%nat ∧ closed acts = 0%nat ∧ Forall (λ a, ¬ starts a) acts.
Proof using Type.
  clear. intros H. unfold opened, closed. rewrite !count_none; [split_and!; [done|done|]|..];
    (eapply Forall_impl; [exact H|]; by intros [] ? ?).
Qed.

Lemma run_snapshot_inner conf x slot flushLSN : Forall inner (run_snapshot conf x slot flushLSN).1.
Proof using Type.
  clear. unfold App.run_snapshot. destruct (snapshotConfig conf) as [cfg|]; [|constructor]. case_bool_decide; [constructor|].
  destruct (Manager.Execute _ _ _ _ _) as [out acts]. apply Forall_fmap, Forall_forall. by intros.
Qed.

Lemma prepare_inner conf x slot flushLSN : Forall inner (prepare conf x slot flushLSN).1.
Proof using Type.
  clear. unfold App.prepare. apply wbind_all; [constructor|]. intros [opts ?].
  repeat (apply wbind_all; [first [apply run_snapshot_inner | repeat constructor]|intros ?]). constructor.
Qed.

(** The position of a snapshot that has run to its end, or of the slot. *)
Definition snapshot_position (conf : app_config) (x : answers) (slot : option Manager.Snapshot) (flushLSN lsn : Z) : Prop :=
  lsn = flushLSN ∨
  0 < lsn ∧ ∃ cfg acts, snapshotConfig conf = Some cfg ∧ Mode cfg ≠ ModeOneTimeOnly ∧
    let s := w_snapshot x in
    Manager.Execute lsn_string ParseLSN is_duration (Some cfg)
      (Manager.mkParts (Manager.x_saved s) (Manager.x_create s) slot (Manager.x_conn s) (Manager.x_init s) (Manager.x_run s)) =
    (Ok (lsn, None), acts).

(** A snapshot that must not fail has not failed. *)
Definition snapshot_kept (conf : app_config) (x : answers) (slot : option Manager.Snapshot) : Prop :=
  ∀ cfg, snapshotConfig conf = Some cfg → Mode cfg ≠ ModeNever → AbortOnError cfg = true →
    let s := w_snapshot x in
    ∃ lsn acts, Manager.Execute lsn_string ParseLSN is_duration (Some cfg)
      (Manager.mkParts (Manager.x_saved s) (Manager.x_create s) slot (Manager.x_conn s) (Manager.x_init s) (Manager.x_run s)) =
    (Ok (lsn, None), acts).

Lemma run_snapshot_Ok conf x slot flushLSN acts lsn :
  run_snapshot conf x slot flushLSN = (acts, Ok (Some lsn)) →
  snapshot_position conf x slot flushLSN lsn ∧ snapshot_kept conf x slot.
Proof using Type.
  clear. unfold App.run_snapshot, snapshot_position, snapshot_kept. destruct (snapshotConfig conf) as [cfg|].
  2: { intros [= _ <-]. split; [by left|done]. }
  case_bool_decide as Hn; [intros [= _ <-]; split; [by left|]; by intros ? [= <-] ?|].
  cbv zeta. destruct (Manager.Execute _ _ _ _ _) as [out a] eqn:E. destruct out as [[l [err|]]| | |]; try done.
  - destruct (AbortOnError cfg) eqn:Ha; [done|]. case_bool_decide; [done|]. intros [= _ <-]. split; [by left|].
    intros ? [= <-] _ ?. congruence.
  - case_bool_decide as Hm; [done|]. intros [= _ Hl]. split; [|intros ? [= <-] _ _; by exists l, a].
    destruct (bool_decide_reflect (0 < l)); [right|by left]. subst l. split; [done|]. exists cfg, a. done.
Qed.

Lemma prepare_Ok conf x slot flushLSN acts o lsn :
  prepare conf x slot flushLSN = (acts, Ok (Some (o, lsn))) →
  w_build x = None ∧ w_load x = None ∧ w_validate x = None ∧ w_ping x = None ∧
  snapshot_position conf x slot flushLSN lsn ∧ snapshot_kept conf x slot.
Proof using Type.
  clear. unfold App.prepare. intros H.
  apply wbind_Ok in H as (a0 & b0 & [o' t] & _ & H & ->).
  apply wbind_Ok in H as (a1 & b1 & [] & [H1 _]%wcheck_Ok & H & ->).
  apply wbind_Ok in H as (a2 & b2 & [] & [H2 _]%wdo_Ok & H & ->).
  apply wbind_Ok in H as (a3 & b3 & [] & [H3 _]%wcheck_Ok & H & ->).
  apply wbind_Ok in H as (a4 & b4 & [] & [H4 _]%wdo_Ok & H & ->).
  apply wbind_Ok in H as (a5 & b5 & [l|] & Hs & H & ->); [|done]. injection H as _ _ ->.
  destruct (run_snapshot_Ok _ _ _ _ _ _ Hs). done.
Qed.

(** *** The replication *)

(** There is a position saved downstream. *)
Definition saved_position (last : goerr + string) (p : Z) : Prop :=
  ∃ s, last = inr s ∧ s ≠ EmptyString ∧ ParseLSN s = Some p ∧ p ≠ 0.

Lemma start_position_exact last snapshotLsn p :
  start_position last snapshotLsn = p →
  saved_position last p ∨ (∀ q, ¬ saved_position last q) ∧ p = snapshotLsn.
Proof using Type.
  clear. unfold App.start_position, saved_position. intros <-. destruct last as [e|s]; [right; split; [by intros q (? & ? & _)|done]|].
  case_bool_decide as Hs; [right; split; [by intros q (? & [= <-] & ? & _)|done]|].
  destruct (ParseLSN s) as [l|] eqn:El; [|right; split; [intros q (? & [= <-] & _ & ? & _); congruence|done]].
  case_bool_decide; [right|left; by exists s]. split; [|done]. intros q (? & [= <-] & _ & ? & ?). congruence.
Qed.

(** The start of the replication is the last thing but for what ends it. *)
Lemma replicate_actions x o snapshotLsn :
  ∃ rest, (replicate x o snapshotLsn).1 =
    StartListener :: CreateAppState :: StartReplication o (start_position (w_last_lsn x) snapshotLsn) :: rest ∧
    rest ∈ [[]; [GracefulShutdown]].
Proof using Type.
  clear. unfold App.replicate. eexists. split; [reflexivity|]. destruct (w_start x); [|destruct (w_end x)]; set_solver.
Qed.

Lemma no_start l o p : Forall (λ a, ¬ starts a) l → StartReplication o p ∉ l.
Proof using Type. clear. intros Hl Hin. rewrite Forall_forall in Hl. by destruct (Hl _ Hin). Qed.

(** What follows the start of the replication. *)
Lemma rest_quiet rest : rest ∈ [[]; [GracefulShutdown]] → Forall (λ a, ¬ starts a) rest ∧ opened rest = 0%nat ∧ closed rest = 0%nat.
Proof using Type.
  clear. intros Hr. repeat (apply elem_of_cons in Hr as [->|Hr]; [split_and!; [repeat constructor; by intros ?|done|done]|]). by apply elem_of_nil in Hr.
Qed.

Lemma one_start before rest opts p0 o p :
  (StartReplication o p ∉ before) → Forall (λ a, ¬ starts a) rest →
  StartReplication o p ∈ before ++ StartListener :: CreateAppState :: StartReplication opts p0 :: rest → o = opts ∧ p = p0.
Proof using Type.
  clear. intros Hb Hr [Hin|Hin]%elem_of_app; [done|].
  repeat (apply elem_of_cons in Hin as [Hin|Hin]; [first [done | injection Hin; auto]|]). by apply (no_start rest _ _ Hr) in Hin.
Qed.

(** C17: the program starts in order.  The replication is started at most
    once, and only when the licence was accepted for the day, the database fits
    the configuration after the migration (the slot stands where the snapshot of
    a new slot was taken, all configured tables and columns can be read), the
    listener accepted its configuration, the downstream store answered, and a
    snapshot that must not fail has run to its end; it then starts from the
    position saved downstream, or without one from the snapshot's, or from the
    slot's.  The connection that keeps the snapshot of a new slot is closed
    before, and on every way out without a panic every such connection that was
    opened is closed exactly once. *)
Theorem replication_started_in_order conf x d acts r :
  RunApp conf x d = (acts, r) →
  (∀ o p, StartReplication o p ∈ acts →
    ∃ today licence migration flushLSN slot d' checks snapshotLsn rest,
      getToday (w_pg_today x) (w_app_today x) = Ok today ∧ w_license x today = Ok licence ∧
      migrateAndValidate conf x d = (migration, Ok (flushLSN, slot, d')) ∧
      fit conf d' flushLSN ∧ (∀ s, slot = Some s → Manager.slot_LSN s = flushLSN) ∧
      w_build x = None ∧ w_load x = None ∧ w_validate x = None ∧ w_ping x = None ∧
      snapshot_position conf x slot flushLSN snapshotLsn ∧ snapshot_kept conf x slot ∧
      (saved_position (w_last_lsn x) p ∨ (∀ q, ¬ saved_position (w_last_lsn x) q) ∧ p = snapshotLsn) ∧
      acts = migration ++ checks ++ close slot ++ StartListener :: CreateAppState :: StartReplication o p :: rest ∧
      Forall (λ a, ¬ starts a) (migration ++ checks ++ rest)) ∧
  match r with Panic _ | Fatal _ => True | _ => opened acts = closed acts end.
Proof using order_perm.
  unfold App.RunApp. intros E.
  destruct (w_pg_config x); [injection E as <- <-; by split; [intros ? ? ?%elem_of_nil|]|]. cbn [wcheck wbind wres app] in E.
  destruct (w_connector x); [injection E as <- <-; by split; [intros ? ? ?%elem_of_nil|]|]. cbn [wcheck wbind wres app] in E.
  destruct (w_connect x); [injection E as <- <-; by split; [intros ? ? ?%elem_of_nil|]|]. cbn [wcheck wbind wres app] in E.
  destruct (getToday (w_pg_today x) (w_app_today x)) as [today| | |]; try (injection E as <- <-; by split; [intros ? ? ?%elem_of_nil|]).
  cbn [wcheck wbind wres app] in E. destruct (w_license x today) as [licence| | |] eqn:Hlic; try (injection E as <- <-; by split; [intros ? ? ?%elem_of_nil|]).
  cbn [wcheck wbind wres app] in E. destruct (migrateAndValidate conf x d) as [migration out] eqn:Hmig.
  destruct (migrate_connections _ _ _ _ _ Hmig) as [Hq Hc].
  destruct out as [[[flushLSN slot] d']|err|m|m];
    [|injection E as <- <-; split; [intros o p Hin; by apply no_start in Hin|done]..].
  cbn [wbind] in E. destruct (close_held slot) as (Hco & Hcc & Hcs). pose proof (prepare_inner conf x slot flushLSN) as Hin0.
  destruct (prepare conf x slot flushLSN) as [checks out] eqn:Hprep. simpl in Hin0. destruct (inner_quiet _ Hin0) as (Hpo & Hpc & Hps).
  assert (∀ rest, Forall (λ a, ¬ starts a) rest → opened rest = 0%nat → closed rest = 0%nat →
    opened (migration ++ checks ++ close slot ++ rest) = closed (migration ++ checks ++ close slot ++ rest)) as Hbal.
  { intros rest _ H1 H2. rewrite !opened_app, !closed_app. lia. }
  pose proof (Hbal [] (Forall_nil_2 _) eq_refl eq_refl) as Hb0. rewrite app_nil_r in Hb0.
  assert (∀ o p, StartReplication o p ∉ migration ++ checks ++ close slot) as Hnone.
  { intros o p. apply no_start. rewrite !Forall_app. done. }
  destruct out as [[[opts snapshotLsn]|]|err|m|m];
    [|injection E as <- <-; split; [intros o p Hin; by apply Hnone in Hin|done]..|injection E as <- <-; split; [|done]].
  2: { intros o p. intros Hin. apply no_start in Hin; [done|]. apply Forall_app. done. }
  destruct (replicate_actions x opts snapshotLsn) as (rest & Hrest & Hr). destruct (replicate x opts snapshotLsn) as [acts' r'].
  cbn [fst] in Hrest. subst acts'. injection E as <- <-.
  destruct (rest_quiet rest Hr) as (Hrs & Hro & Hrc).
  split.
  - intros o p Hin. assert (o = opts ∧ p = start_position (w_last_lsn x) snapshotLsn) as [-> ->].
    { apply (one_start (migration ++ checks ++ close slot) rest); [apply Hnone|done|]. by rewrite <- !(assoc_L (++)). }
    destruct (prepare_Ok _ _ _ _ _ _ _ Hprep) as (H1 & H2 & H3 & H4 & H5 & H6).
    unfold App.migrateAndValidate in Hmig. apply wbind_Ok in Hmig as (a1 & a2 & [slot1 d1] & _ & Hv & _).
    unfold App.validate_migrated in Hv. destruct (validateWithConn conf d1) as [f| | |] eqn:Hval; try done.
    destruct (validateCreatedSlotLSN slot1 f) eqn:Hslot; [done|]. injection Hv as _ <- <- <-.
    exists today, licence, migration, f, slot1, d1, checks, snapshotLsn, rest. split_and!; try done.
    + by apply validate_fit in Hval.
    + intros s ->. unfold validateCreatedSlotLSN in Hslot. by case_bool_decide.
    + by apply start_position_exact.
    + by rewrite !Forall_app.
  - assert (∀ b, opened (StartListener :: CreateAppState :: StartReplication opts b :: rest) = opened rest ∧
      closed (StartListener :: CreateAppState :: StartReplication opts b :: rest) = closed rest) as Hcons by done.
    destruct r'; try done; rewrite !opened_app, !closed_app, !(proj1 (Hcons _)), !(proj2 (Hcons _)); lia.
Qed.
End order.
End Order.

(** ** A first start *)

Module Samples.
Import Settings Validate App Order Migrator.Samples.

(** A database without the publication's columns and without the slot. *)
Definition db : Type := bool * bool.
Definition on_pub {A} (f : bool → A) (d : db) : A := f d.1.
Definition exec_ (text : string) (d : db) : option goerr * db := let '(e, p) := run text d.1 in (e, (p, d.2)).
Definition slot_there (d : db) (_ : string) : goerr + bool := inr d.2.
Definition conn_free (_ : db) : option goerr := None.
Definition make_slot (_ : string) (d : db) : (goerr + Migrate.slot_created) * db :=
  (inr (Migrate.mkSlotCreated "0/64" "snap"), (d.1, true)).
Definition the_slot (d : db) (_ : string) : slotAnswer := if d.2 then SlotRow "pgoutput" 100 else SlotNoRows.
Definition version_ (_ : db) : goerr + Z := inr 150004.
Definition track (_ : db) : goerr + string := inr "off".
Definition parse_lsn (s : string) : option Z := if bool_decide (s = "0/64") then Some 100 else None.
Definition show_lsn (z : Z) : string := if bool_decide (z = 100) then "0/64" else "0/0".
Definition float (s : string) : option Z := if bool_decide (s = "60000") then Some 60000 else None.
Definition duration (s : string) : goerr + Z := if bool_decide (s = "5s") then inr (5 * Second) else inl (GoErr "duration").

Definition snapshot_conf : SnapshotConfig :=
  mkSnapConfig "onetime" [Some (mkSnapTable "public.users" "full" EmptyString)] 100 1 true EmptyString 0.
Definition parts (failed : option goerr) : Manager.parts :=
  Manager.mkParts (inr EmptyString) None None (Manager.mkConn None None (inl (GoErr "unused")) (inl (GoErr "unused")))
                  (λ _ _, Ok []) (λ _ _ _, failed).
Definition conf_ (owner : string) : app_config :=
  mkAppConfig "s" "p" owner None EmptyString EmptyString EmptyString EmptyString 0 Migrator.Samples.conf (Some snapshot_conf) false.
Definition world (failed : option goerr) : answers :=
  mkAnswers None None None (inr 5) 7 (λ today, if bool_decide (today ≤ 7) then Ok Binary.noLicense else Err (GoErr "late"))
    (inr 15) (inr "60000") "12" None None None None (parts failed) (inr EmptyString) None (inl ()).

Definition go (failed : option goerr) : W unit :=
  RunApp fold_eq (on_pub exists_) (on_pub none12) (on_pub rows_of) exec_ slot_there conn_free make_slot the_slot version_ track
    in_order float duration (λ _, true) show_lsn parse_lsn (conf_ "app") (world failed) (false, false).

Definition opts : Options := mkOptions "s" "p" (60 * Second) 12 0 (51 * Second) (60 * Second) 0 (9 * Second).

(** The statement, the slot with its snapshot, the checks, the snapshot's rows,
    the close of the slot's snapshot, and the replication from its position. *)
Example first_start :
  go None =
  ([Migration (Migrate.Exec the_text); Migration Migrate.OpenReplConn;
    Migration (Migrate.CreateSlot (Text.createReplicationSlotSQL "s" false));
    LoadPubTables; Ping;
    SnapshotAction Manager.CreateStateTable; SnapshotAction (Manager.SaveSnapshotLSN "0/64");
    SnapshotAction Manager.ShutdownListener; SnapshotAction Manager.CloseState;
    CloseSlotSnapshot; StartListener; CreateAppState; StartReplication opts 100; GracefulShutdown], Ok ()).
Proof. vm_compute. reflexivity. Qed.

(** A snapshot that fails ends the start; the slot's snapshot is closed. *)
Example failed_snapshot :
  (go (Some (GoErr "no"))).2 = Err (GoWrap "snapshot failed" (GoErr "no")) ∧
  count starts (go (Some (GoErr "no"))).1 = 0%nat ∧ count (λ a, a = CloseSlotSnapshot) (go (Some (GoErr "no"))).1 = 1%nat.
Proof. vm_compute. done. Qed.

Lemma replication_started_in_order_witness :
  (∃ migration flushLSN slot d',
     migrateAndValidate fold_eq (on_pub exists_) (on_pub none12) (on_pub rows_of) exec_ slot_there conn_free make_slot the_slot
       version_ track in_order parse_lsn (conf_ "app") (world None) (false, false) = (migration, Ok (flushLSN, slot, d')) ∧
     fit fold_eq (on_pub exists_) (on_pub none12) (on_pub rows_of) the_slot version_ (conf_ "app") d' flushLSN ∧
     ∀ s, slot = Some s → Manager.slot_LSN s = flushLSN) ∧
  opened (go None).1 = closed (go None).1.
Proof.
  destruct (replication_started_in_order fold_eq (on_pub exists_) (on_pub none12) (on_pub rows_of) exec_ slot_there conn_free
    make_slot the_slot version_ track in_order float duration (λ _, true) show_lsn parse_lsn (λ A m, reflexivity _)
    (conf_ "app") (world None) (false, false) _ _ first_start) as [H1 H2].
  split.
  - destruct (H1 opts 100) as (today & licence & migration & flushLSN & slot & d' & checks & snapshotLsn & rest & _ & _ & Hm & Hf & Hs & _).
    + apply list_elem_of_In. simpl. do 12 right. left. reflexivity.
    + exists migration, flushLSN, slot, d'. split; [exact Hm|]. split; [exact Hf|exact Hs].
  - rewrite first_start. exact H2.
Defined.

(** Where PostgreSQL does not wait for reports ([wal_sender_timeout] is 0), the
    configured time between reports is given up for the default. *)
Example no_timeout_gives_default :
  standby float duration "5s" 0 = Ok 0 ∧ StandByTimeout (NewOptions "s" "p" 0 0 0 0) = 10 * Second.
Proof. vm_compute. done. Qed.

(** An error of the query for the publication is not reported. *)
Example publication_error_unnoticed e : load_publication (PubError e) (SlotRow "pgoutput" 100) = Ok 100.
Proof. reflexivity. Qed.
End Samples.
