(* ===== verification/AppOptions.v ===== *)
(** * The options of the programs (src/config/appconfig, src/circuitbreaker,
      src/pg2redis/listener_redis.go, src/pg2sqs/sqsconfig)

    - [Flush]: how rows are collected and flushed;
    - [Retry]: the retry policy and the waiting time before a retry;
    - [SQSConfig]: the tables of an SQS configuration, from a file and from the
      environment;
    - [Listeners]: what the listeners give to their parts.

    Parsing of numbers and durations, [math.Pow], the random number and the number
    of processors are arguments. *)

From stdpp Require Import base numbers list gmap strings pretty.
From Stdlib Require Import SpecFloat.
From S2P Require Import Prelude GoStrings PgSchema Decode CircuitBreaker BufferedListener SQSMapper RedisConfig Runner.

(** ** Flushing *)

Module Flush.

Record FlushOptions := mkFlush { Interval : Z; BufferSize : Z; QueueDepth : Z; Workers : Z; Timeout : Z }.

Definition maxFlushQueueDepth : Z := 32.

Section flush.
Context (parse_float : string → option Z) (ParseDuration : string → goerr + Z) (GOMAXPROCS : Z).

Definition idealNumber : Z :=
  if bool_decide (GOMAXPROCS < 1) then 1 else if bool_decide (32 < GOMAXPROCS) then 32 else GOMAXPROCS.

Definition NewFlushOptions (interval : string) (bufferSize queueDepth workers : Z) (timeout : string) : goerr + FlushOptions :=
  let queueDepth := if bool_decide (queueDepth = 0) || bool_decide (maxFlushQueueDepth < queueDepth) then maxFlushQueueDepth else queueDepth in
  let flushInterval :=
    if bool_decide (interval = EmptyString) then inr (500 * Settings.Millisecond)
    else match Settings.DurationOrMilliseconds parse_float ParseDuration interval with
         | inl err => inl (GoWrap "invalid flushInterval" err)
         | inr fi => inr fi
         end in
  match flushInterval with
  | inl err => inl err
  | inr flushInterval =>
      let workers := if bool_decide (workers = 0) then idealNumber else workers in
      let timeoutDuration :=
        if bool_decide (timeout = EmptyString) then inr (10 * Second)
        else match Settings.DurationOrSeconds parse_float ParseDuration timeout with
             | inl err => inl (GoWrap "invalid writeTimeout" err)
             | inr t => inr t
             end in
      match timeoutDuration with
      | inl err => inl err
      | inr timeoutDuration => inr (mkFlush flushInterval bufferSize queueDepth workers timeoutDuration)
      end
  end.

(** The numbers are in their bounds whatever is configured. *)
Lemma NewFlushOptions_bounds interval bufferSize queueDepth workers timeout o :
  0 ≤ queueDepth → 0 ≤ workers → NewFlushOptions interval bufferSize queueDepth workers timeout = inr o →
  1 ≤ QueueDepth o ≤ 32 ∧ 1 ≤ Workers o ∧ (workers = 0 → Workers o ≤ 32) ∧ (0 < workers → Workers o = workers) ∧
  (1 ≤ queueDepth ≤ 32 → QueueDepth o = queueDepth) ∧ BufferSize o = bufferSize.
Proof.
  intros Hq Hw. unfold NewFlushOptions, idealNumber, maxFlushQueueDepth.
  destruct (if bool_decide (interval = EmptyString) then _ else _) as [e|fi]; [done|].
  destruct (if bool_decide (timeout = EmptyString) then _ else _) as [e|t]; [done|]. intros [= <-]. simpl.
  repeat case_bool_decide; simpl; lia.
Qed.
End flush.

(** [appconfig.NewTxCommitTimeOptions] *)
Definition NewTxCommitTimeOptions (commitTimePropName : string) : TxCommitTimeOptions :=
  let txCommitCol := TrimSpace commitTimePropName in mkTCO (negb (bool_decide (txCommitCol = EmptyString))) txCommitCol.
End Flush.

(** ** Retries *)

Module Retry.

Definition f0 : spec_float := S754_zero false.
Definition f1 : spec_float := S754_finite false 4503599627370496 (-52).
Definition half : spec_float := S754_finite false 4503599627370496 (-53).

Record RetryPolicy := mkPolicy {
  p_MaxRetries : Z; p_MaxConnectionRetries : Z; p_InitialBackoff : string; p_Multiplier : spec_float; p_Jitter : spec_float;
  p_MaxBackoff : string }.

Definition errMaxRetries : goerr := GoErr "retryPolicy.maxRetries should be >= 1".
Definition errInitBackOff : goerr := GoErr "retryPolicy.initialBackoff should be > 0".
Definition errMultiplier : goerr := GoErr "retryPolicy.multiplier should be >= 1".
Definition errJitter : goerr := GoErr "retryPolicy.jitter should be within [0.0, 1.0] range".
Definition errMaxBackOff : goerr := GoErr "maxBackoff should be > 0".
Definition noRetryConfig : RetryConfig := mkRetry 1 0 0 f0 f0 0.
(** The zero value, which comes with an error. *)
Definition zeroRetryConfig : RetryConfig := mkRetry 0 0 0 f0 f0 0.

Definition IsEmpty (rp : RetryPolicy) : bool :=
  bool_decide (p_MaxRetries rp = 0) && bool_decide (p_MaxConnectionRetries rp = 0) && bool_decide (p_InitialBackoff rp = EmptyString) &&
  SFeqb (p_Multiplier rp) f0 && SFeqb (p_Jitter rp) f0 && bool_decide (p_MaxBackoff rp = EmptyString).

Section policy.
Context (parse_float : string → option Z) (ParseDuration : string → goerr + Z).

(** A duration that is not positive counts as one that cannot be read. *)
Definition positive (s : string) : option Z :=
  match Settings.DurationOrSeconds parse_float ParseDuration s with
  | inr d => if bool_decide (d ≤ 0) then None else Some d
  | inl _ => None
  end.
Definition complain (b : bool) (e : goerr) (err : option goerr) : option goerr := if b then join_err err (Some e) else err.

Definition AsRetryConfig (rp : RetryPolicy) : RetryConfig * option goerr :=
  if IsEmpty rp then (noRetryConfig, None)
  else if bool_decide (p_MaxRetries rp = 1) && bool_decide (p_InitialBackoff rp = EmptyString) && SFeqb (p_Multiplier rp) f0 &&
          SFeqb (p_Jitter rp) f0 && bool_decide (p_MaxBackoff rp = EmptyString) then (noRetryConfig, None)
  else
    let err := complain (bool_decide (p_MaxRetries rp ≤ 0)) errMaxRetries None in
    let err := complain (bool_decide (positive (p_InitialBackoff rp) = None)) errInitBackOff err in
    let err := complain (bool_decide (positive (p_MaxBackoff rp) = None)) errMaxBackOff err in
    let err := complain (SFltb (p_Multiplier rp) f1) errMultiplier err in
    let err := complain (SFltb (p_Jitter rp) f0 || SFltb f1 (p_Jitter rp)) errJitter err in
    match err, positive (p_InitialBackoff rp), positive (p_MaxBackoff rp) with
    | None, Some initBackoff, Some maxBackoff =>
        (mkRetry (p_MaxRetries rp) (p_MaxConnectionRetries rp) initBackoff (p_Multiplier rp) (p_Jitter rp) maxBackoff, None)
    | err, _, _ => (zeroRetryConfig, err)
    end.

Definition usable (rc : RetryConfig) : Prop :=
  1 ≤ MaxRetries rc ∧ 0 < InitialBackoff rc ∧ 0 < MaxBackoff rc ∧ SFltb (Multiplier rc) f1 = false ∧
  SFltb (Jitter rc) f0 = false ∧ SFltb f1 (Jitter rc) = false.

Lemma positive_Some s d : positive s = Some d → 0 < d.
Proof. unfold positive. destruct (Settings.DurationOrSeconds _ _ s); [done|]. case_bool_decide; [done|]. intros [= <-]. lia. Qed.

Lemma complain_None b e err : complain b e err = None ↔ b = false ∧ err = None.
Proof. unfold complain. destruct b, err; naive_solver. Qed.

(** A policy is refused, with the zero configuration, or gives one that does not
    retry or one that is usable. *)
Lemma AsRetryConfig_accepts rp :
  let '(rc, err) := AsRetryConfig rp in
  match err with None => rc = noRetryConfig ∨ usable rc | Some _ => rc = zeroRetryConfig end.
Proof.
  unfold AsRetryConfig. destruct (IsEmpty rp); [by left|]. destruct (_ && _); [by left|].
  set (err := complain _ errJitter _). cbv zeta. destruct err as [e|] eqn:E; [done|]. subst err.
  rewrite !complain_None, orb_false_iff in E. destruct E as ([Hj1 Hj2] & Hm & Hb & Hi & Hr & _).
  destruct (positive (p_InitialBackoff rp)) as [i|] eqn:Ei; [|done]. destruct (positive (p_MaxBackoff rp)) as [b|] eqn:Eb; [|done].
  apply positive_Some in Ei, Eb. apply bool_decide_eq_false in Hr. right. unfold usable. simpl. split_and!; try done. lia.
Qed.
End policy.

(** The waiting time, on 64-bit floating-point numbers; [rand] is the random
    number.  A result that is no 64-bit integer is not defined by the language. *)
Section backoff.
Context (Pow : spec_float → spec_float → spec_float).

Definition prec : Z := 53.
Definition emax : Z := 1024.
Definition float64 (z : Z) : spec_float := binary_normalize prec emax z 0 false.
Definition to_int64 (f : spec_float) : option Z :=
  match f with
  | S754_zero _ => Some 0
  | S754_finite s m e =>
      let a := if bool_decide (0 ≤ e) then Zpos m * 2 ^ e else Zpos m `div` 2 ^ (- e) in
      let z := if s then - a else a in
      if bool_decide (- two63 ≤ z < two63) then Some z else None
  | _ => None
  end.

Definition Backoff (fc : RetryConfig) (retries : Z) (rand : spec_float) : option Z :=
  let jitter := if SFltb (Jitter fc) f0 || SFltb f1 (Jitter fc) then half else Jitter fc in
  let mult := if SFeqb (Multiplier fc) f1 then float64 retries else Pow (Multiplier fc) (float64 retries) in
  let backoff := SFmul prec emax (float64 (InitialBackoff fc)) mult in
  let backoff := if SFltb (float64 (MaxBackoff fc)) backoff then float64 (MaxBackoff fc) else backoff in
  let delta := SFmul prec emax backoff jitter in
  let minInterval := SFsub prec emax backoff delta in
  let maxInterval := SFadd prec emax backoff delta in
  to_int64 (SFadd prec emax minInterval (SFmul prec emax rand (SFsub prec emax maxInterval minInterval))).

Definition DefaultRetryConfig : RetryConfig :=
  mkRetry 5 5 (5 * Second) (S754_finite false 4953959590107546 (-52)) half (20 * Second).
End backoff.
End Retry.

(** ** SQS configuration *)

Module SQSConfig.
Import Values.

Record table := mkTable { Columns : list string; Options : option (gmap string string); QueueConfig : option SQSQueueConfig }.

Definition comma : Ascii.ascii := Ascii.ascii_of_nat 44.
Definition readSlice (slice : option any) : option (list string) :=
  match slice with Some (AnyString str) => Some (TrimSpace <$> split_byte comma str) | _ => None end.

Definition readQueueConfig (q : option any) : option SQSQueueConfig :=
  match q with
  | Some (AnyMap m) => Some (mkSQC (text_at m "name") EmptyString None None None (text_at m "groupid"))
  | _ => None
  end.
Definition readQueueOpts (q : option any) : option SQSQueueConfig :=
  match q with
  | Some (AnyMap m) =>
      match readQueueConfig q with
      | Some c => Some (mkSQC (sqc_Name c) (sqc_URL c) (readQueueConfig (field m "insert")) (readQueueConfig (field m "update"))
                          (readQueueConfig (field m "delete")) (sqc_GroupID c))
      | None => None
      end
  | _ => None
  end.

(** A table without a name, columns or a queue is left out. *)
Definition readTableCfgFromEnv (tableMap : list (string * any)) : option (string * table) :=
  let tableName := text_at tableMap "name" in
  if bool_decide (tableName = EmptyString) then None
  else match readSlice (field tableMap "columns"), readQueueOpts (field tableMap "q") with
       | Some columns, Some q => Some (tableName, mkTable columns (Some ∅) (Some q))
       | _, _ => None
       end.

(** [values] in the order of the iteration. *)
Definition mergeFromEnv (values : list any) (tables : gmap string table) : gmap string table :=
  foldl (λ m v, match v with
                | AnyMap t => match readTableCfgFromEnv t with Some (n, cfg) => <[n := cfg]> m | None => m end
                | _ => m
                end) tables values.

Definition with_options (t : table) : table := mkTable (Columns t) (Some (default ∅ (Options t))) (QueueConfig t).
(** For the tables in the order of the iteration. *)
Definition wellFormTableNames (tables : list (string * table)) : gmap string table :=
  foldl (λ m kt, <[Config.WellFormTableName kt.1 := with_options kt.2]> m) ∅ tables.

Definition WellFormPgConfig (NumericMode : string) : string := if bool_decide (NumericMode = EmptyString) then "float" else NumericMode.

Section config.
Context (table_order : gmap string table → list (string * table)).

Definition WellForm (env : option (list any)) (tables : gmap string table) (NumericMode : string) : gmap string table * string :=
  let tables := match env with Some values => mergeFromEnv values tables | None => tables end in
  (wellFormTableNames (table_order tables), WellFormPgConfig NumericMode).

Definition TablesConfig (tables : gmap string table) : gmap string TableConfig :=
  (λ t, mkTC (Columns t) (default ∅ (Options t))) <$> tables.

(** The tables for the queue mapper. *)
Definition queue_tables (tables : gmap string table) : list (string * SQSTableConfig) :=
  (λ kt, (kt.1, mkSTC (Columns kt.2) (QueueConfig kt.2))) <$> table_order tables.
End config.

Lemma WellFormTableName_qualified key : has_byte Config.dot (Config.WellFormTableName key) = true.
Proof.
  unfold Config.WellFormTableName. destruct (has_byte Config.dot key) eqn:E; [done|]. unfold has_byte. rewrite bool_decide_eq_true.
  change (Config.dot ∈ to_list ("public." +:+ key)). rewrite to_list_app. apply elem_of_app. left. vm_compute. set_solver.
Qed.

(** When no two names are the same after qualification, every table is kept under
    its qualified name, and there are no others. *)
Lemma wellFormTableNames_keeps tables :
  NoDup (Config.WellFormTableName <$> tables.*1) →
  (∀ n t, (n, t) ∈ tables → wellFormTableNames tables !! Config.WellFormTableName n = Some (with_options t)) ∧
  (∀ k t, wellFormTableNames tables !! k = Some t → ∃ n t0, (n, t0) ∈ tables ∧ k = Config.WellFormTableName n ∧ t = with_options t0).
Proof.
  unfold wellFormTableNames. induction tables as [|[n0 t0] tables IH] using rev_ind; intros Hnd.
  { split; [by intros ? ? ?%not_elem_of_nil|by intros k t; simpl; rewrite lookup_empty]. }
  rewrite foldl_app. cbn [foldl fst snd]. rewrite fmap_app, fmap_app in Hnd. apply NoDup_app in Hnd as (Hnd & Hnew & _).
  destruct (IH Hnd) as [H1 H2]. split.
  - intros n t [Hn|[= -> ->]%list_elem_of_singleton]%elem_of_app; [|by rewrite lookup_insert_eq].
    rewrite lookup_insert_ne; [by apply H1|]. intros E. apply (Hnew (Config.WellFormTableName n)).
    + apply list_elem_of_fmap. exists n. split; [done|]. apply list_elem_of_fmap. by exists (n, t).
    + rewrite <- E. by left.
  - intros k t [[<- <-]|[_ Hk]]%lookup_insert_Some; [exists n0, t0; set_solver|].
    apply H2 in Hk as (n & t1 & ? & ? & ?). exists n, t1. set_solver.
Qed.
End SQSConfig.

(** ** The listeners *)

Module Listeners.
Import Flush Retry.

Definition defaultRedisFlushBufferSize : Z := 100.

Record WriterOptions := mkWriter { w_AppName : string; TxTimeOpts : TxCommitTimeOptions; FlushOpts : FlushOptions }.
Record ListenerConf := mkLC { ListenerOpts : ListenerOptions; WriterOpts : WriterOptions }.

(** What the programs take from their configuration. *)
Record Conf := mkConf {
  conf_Pub : string; conf_NumericMode : PgNumericMode; conf_CommitTimeColumn : string;
  conf_FlushInterval : string; conf_FlushBufferSize : Z; conf_FlushQueueDepth : Z; conf_FlushWorkers : Z; conf_WriteTimeout : string;
  conf_RetryPolicy : RetryPolicy }.

Section listeners.
Context (parse_float : string → option Z) (ParseDuration : string → goerr + Z) (GOMAXPROCS : Z).

(** [pg2redis.NewListenerOptions] *)
Definition NewListenerOptions (c : Conf) : goerr + ListenerConf :=
  let lc := BufferedListener.NewListenerOptions (conf_Pub c) (conf_NumericMode c) "pg2redis" in
  match NewFlushOptions parse_float ParseDuration GOMAXPROCS (conf_FlushInterval c) (conf_FlushBufferSize c) (conf_FlushQueueDepth c)
          (conf_FlushWorkers c) (conf_WriteTimeout c) with
  | inl err => inl err
  | inr f =>
      let f := if bool_decide (BufferSize f = 0)
               then mkFlush (Interval f) defaultRedisFlushBufferSize (QueueDepth f) (Workers f) (Timeout f) else f in
      inr (mkLC lc (mkWriter (AppName lc) (NewTxCommitTimeOptions (conf_CommitTimeColumn c)) f))
  end.

(** [pg2sqs.NewListenerConfig] *)
Definition NewListenerConfig (c : Conf) : goerr + ListenerConf :=
  let lc := BufferedListener.NewListenerOptions (conf_Pub c) (conf_NumericMode c) "pg2sqs" in
  match NewFlushOptions parse_float ParseDuration GOMAXPROCS (conf_FlushInterval c) 10 (conf_FlushQueueDepth c)
          (conf_FlushWorkers c) (conf_WriteTimeout c) with
  | inl err => inl err
  | inr f => inr (mkLC lc (mkWriter EmptyString (NewTxCommitTimeOptions (conf_CommitTimeColumn c)) f))
  end.

(** The retry configuration that the listeners give to the tracker: the error is
    dropped.  The start of pg2sqs has looked at it before. *)
Definition listener_retry (c : Conf) : RetryConfig := (AsRetryConfig parse_float ParseDuration (conf_RetryPolicy c)).1.
Definition sqs_main (c : Conf) : res RetryConfig :=
  match AsRetryConfig parse_float ParseDuration (conf_RetryPolicy c) with
  | (_, Some err) => Fatal ("retry config is invalid: " +:+ error_text err)
  | (rc, None) => Ok rc
  end.

(** [RedisListener.SnapshotListener]: its own writer, with the workers of the
    snapshot. *)
Definition SnapshotListener (workers : Z) (lc : ListenerConf) : ListenerConf :=
  let f := FlushOpts (WriterOpts lc) in
  if bool_decide (0 < workers)
  then mkLC (ListenerOpts lc) (mkWriter (w_AppName (WriterOpts lc)) (TxTimeOpts (WriterOpts lc))
         (mkFlush (Interval f) (BufferSize f) (QueueDepth f) (u32 workers) (Timeout f)))
  else lc.

Definition snapshotLSNKey (appName : string) : string := "pgwalk:snapshot_lsn:" +:+ appName.

(** [RedisListener.Write]: the rounds of the loop, each with whether the context
    has ended and what giving the request to the writer results in; the results of
    the rounds that were made. *)
Inductive enqueued := Sent | RedisError (wrong_type : bool) | Failed.
Fixpoint Write (rounds : list (bool * enqueued)) : list enqueued :=
  match rounds with
  | [] => []
  | (true, _) :: _ => []
  | (false, r) :: rest => r :: match r with Failed => Write rest | _ => [] end
  end.

(** Whatever is configured, an accepted configuration starts a writer with at
    least one worker, a batch of at least one row and a queue of 1 to 32 flushes. *)
Lemma options_in_bounds c lc :
  0 ≤ conf_FlushBufferSize c → 0 ≤ conf_FlushQueueDepth c → 0 ≤ conf_FlushWorkers c →
  NewListenerOptions c = inr lc ∨ NewListenerConfig c = inr lc →
  let f := FlushOpts (WriterOpts lc) in 1 ≤ BufferSize f ∧ 1 ≤ QueueDepth f ≤ 32 ∧ 1 ≤ Workers f.
Proof.
  intros Hb Hq Hw. unfold NewListenerOptions, NewListenerConfig, defaultRedisFlushBufferSize. intros [H|H]; revert H.
  all: destruct (NewFlushOptions _ _ _ _ _ _ _ _) as [e|f] eqn:E; [done|]; intros [= <-].
  all: apply NewFlushOptions_bounds in E as (H1 & H2 & _ & _ & _ & H3); [|done..]; simpl.
  - case_bool_decide; simpl; lia.
  - lia.
Qed.
End listeners.
End Listeners.

(** ** Concrete configurations *)

Module Samples.
Import Retry Listeners.

Definition no_float (_ : string) : option Z := None.
Definition durations (s : string) : goerr + Z :=
  if bool_decide (s = "1s") then inr Second else if bool_decide (s = "20s") then inr (20 * Second) else inl (GoErr "invalid duration").
Definition policy (maxBackoff : string) : RetryPolicy := mkPolicy 3 0 "1s" f1 half maxBackoff.

Example policy_accepted : AsRetryConfig no_float durations (policy "20s") = (mkRetry 3 0 Second f1 half (20 * Second), None).
Proof. vm_compute. reflexivity. Qed.

(** A policy with a duration that cannot be read ends pg2sqs; pg2redis goes on
    without retries. *)
Example invalid_policy_unnoticed :
  let c := mkConf "pub" PgNumericModeFloat EmptyString EmptyString 0 0 0 EmptyString (policy "20x") in
  sqs_main no_float durations c = Fatal "retry config is invalid: maxBackoff should be > 0" ∧
  listener_retry no_float durations c = zeroRetryConfig.
Proof. vm_compute. done. Qed.

(** With one retry and no waiting times the limit of connection retries is lost. *)
Example connection_retries_lost :
  MaxConnectionRetries (AsRetryConfig no_float durations (mkPolicy 1 7 EmptyString f0 f0 EmptyString)).1 = 0.
Proof. vm_compute. reflexivity. Qed.

(** With the multiplier 1 the waiting time grows with the number of retries, up to
    the maximum, half of it up or down. *)
Example linear_backoff :
  let fc := mkRetry 3 0 Second f1 half (2 * Second) in
  Backoff (λ x _, x) fc 1 f0 = Some (Second / 2) ∧ Backoff (λ x _, x) fc 2 half = Some (2 * Second) ∧
  Backoff (λ x _, x) fc 50 half = Some (2 * Second).
Proof. vm_compute. done. Qed.

(** A retry count of 0 with the multiplier 1 does not wait. *)
Example no_wait_at_zero : Backoff (λ x _, x) (mkRetry 3 0 Second f1 half (2 * Second)) 0 half = Some 0.
Proof. vm_compute. reflexivity. Qed.

(** A table under two names in the configuration: one of them is kept. *)
Example same_table_twice :
  size (SQSConfig.wellFormTableNames [("users", SQSConfig.mkTable ["id"] None None); ("public.users", SQSConfig.mkTable ["name"] None None)]) = 1%nat.
Proof. vm_compute. reflexivity. Qed.
End Samples.
