(* ===== verification/Startup.v ===== *)
(** * From the environment to the connections

    - [Load]: the reading of a configuration from files and the environment
      (src/config/appconfig/app_config.go);
    - [RedisOptions]: the options of the Redis client
      (src/pg2redis/redisconfig/redis_config.go);
    - [ReplConn]: the replication connection of the replicator, opened again after
      it broke (src/replicator/pg_replicator.go), on [Connector];
    - [Floats]: the JSON of decoded floating-point numbers
      (src/jsonparsing/decode/numeric.go).

    The configuration library, the files, the TLS library and the printing of
    numbers are arguments. *)

From stdpp Require Import base numbers list gmap strings.
From S2P Require Import Prelude GoStrings Decode LicenseIssue Connector.

(** ** Reading a configuration *)

Module Load.

(** [os.ErrNotExist] *)
Definition ErrNotExist : string := "file does not exist".

Section load.
(** The library's values [K], what it makes of a file and of the environment with
    a function for the keys, and the reading into the configuration [C]; a load
    that fails leaves the values as they were. *)
Context {K C : Type} (empty : K) (load_file : string → K → goerr + K) (load_env : (string → option string) → K → goerr + K).
Context (Unmarshal : K → goerr + C).
(** The builder's [Prefix], [WellForm] and [Validate]. *)
Context (Prefix : string) (WellForm : K → C → C) (Validate : C → option goerr).

(** The key of a variable of the environment; the library asks only for those
    with the prefix. *)
Definition env_key (s : string) : option string :=
  rest ← cut_prefix (Prefix +:+ "_") s; Some (ReplaceAll (ToLower rest) "_" ".").

Fixpoint load_files (paths : list string) (k : K) : goerr + K :=
  match paths with
  | [] => inr k
  | cp :: r =>
      if bool_decide (cp = EmptyString) then load_files r k
      else match load_file cp k with
           | inl err => if errors_Is err ErrNotExist then load_files r k else inl err
           | inr k => load_files r k
           end
  end.

Definition doLoadAppConfig (loadEnv : bool) (configPath : list string) : goerr + C :=
  let allConfigPath := if bool_decide (configPath = []) then ["config.yaml"] else configPath in
  match load_files allConfigPath empty with
  | inl err => inl err
  | inr k =>
      match (if loadEnv then load_env env_key k else inr k) with
      | inl err => inl err
      | inr k =>
          match Unmarshal k with
          | inl err => inl err
          | inr c => let c := WellForm k c in match Validate c with Some err => inl err | None => inr c end
          end
      end
  end.
Definition LoadAppConfig := doLoadAppConfig true.
Definition LoadAppConfigNoEnv := doLoadAppConfig false.

(** A file that does not exist, whatever has been read before. *)
Definition missing (cp : string) : Prop := cp = EmptyString ∨ ∀ k, ∃ err, load_file cp k = inl err ∧ errors_Is err ErrNotExist = true.

(** Files that do not exist make no difference, and what is accepted is valid. *)
Lemma missing_files_skipped paths paths' k :
  Forall missing paths → load_files (paths ++ paths') k = load_files paths' k.
Proof using Type.
  induction 1 as [|cp r Hm _ IH]; [done|]. cbn [app load_files]. destruct Hm as [-> |Hm].
  - by rewrite bool_decide_true.
  - case_bool_decide; [done|]. destruct (Hm k) as (err & -> & ->). done.
Qed.
Lemma loaded_is_valid loadEnv configPath c : doLoadAppConfig loadEnv configPath = inr c → Validate c = None.
Proof using Type.
  unfold doLoadAppConfig. destruct (load_files _ _) as [|k]; [done|]. destruct (if loadEnv then _ else _) as [|k']; [done|].
  destruct (Unmarshal k') as [|c']; [done|]. cbv zeta. destruct (Validate (WellForm k' c')) eqn:E; [done|]. by intros [= <-].
Qed.
End load.

(** The keys of the environment have no capital letters. *)
Example key_of_variable : env_key "PG2REDIS" "PG2REDIS_POSTGRES_CONN_HOST" = Some "postgres.conn.host" ∧
  env_key "PG2REDIS" "PG2REDIS_FLUSHINTERVAL" = Some "flushinterval" ∧ env_key "PG2REDIS" "HOME" = None.
Proof. vm_compute. done. Qed.
End Load.

(** ** The options of the Redis client *)

Module RedisOptions.
Import Options.

(** What [strconv.Atoi] returns beside an error: the nearest number for one out of
    range, otherwise zero. *)
Definition Atoi_value (s : string) : Z * bool :=
  match Atoi s with
  | Some v => (v, true)
  | None =>
      let '(neg, r) := match to_list s with
                       | c :: r => if bool_decide (c = dash) then (true, r) else if bool_decide (c = plus) then (false, r) else (false, c :: r)
                       | [] => (false, [])
                       end in
      (match r, decimal r with
       | _ :: _, Some _ => if neg : bool then - two63 else two63 - 1
       | _, _ => 0
       end, false)
  end.

(** The files of TLS: whether each step with them succeeds. *)
Record tls_files := mkTLSFiles { f_read : option goerr; f_append : bool; f_pair : option goerr }.

Definition buildRedisTLSConf (f : tls_files) : option goerr :=
  match f_read f with
  | Some err => Some (GoWrap "unable to read root CA certificate" err)
  | None => if negb (f_append f) then Some (GoErr "unable to add root CA to certificate pool")
            else GoWrap "unable to load client certificate" <$> f_pair f
  end.

Record redis_options := mkRO {
  Addr : string; DB : Z; Username : string; ro_Password : string; ro_TLS : bool; ReadTimeout : Z; WriteTimeout : Z }.

(** [ReadRedisOptions] *)
Definition ReadRedisOptions (conn : ConnectionOpts) (f : tls_files) (writeTimeout : Z) : goerr + redis_options :=
  let dbID := if bool_decide (Database conn = EmptyString) then 0
              else let '(x, ok) := Atoi_value (Database conn) in if ok : bool then 0 else x in
  match (if IsEmpty (TLS conn) then None else buildRedisTLSConf f) with
  | Some err => inl err
  | None => inr (mkRO (Host conn +:+ ":" +:+ Port conn) dbID (User conn) (Password conn) (negb (IsEmpty (TLS conn))) writeTimeout writeTimeout)
  end.

(** The client is given TLS exactly when it is configured, and only with files
    that could be read; and a number that is configured for the database is
    never the one that is used, except zero. *)
Lemma redis_options_read conn f writeTimeout o :
  ReadRedisOptions conn f writeTimeout = inr o →
  Addr o = Host conn +:+ ":" +:+ Port conn ∧ ro_TLS o = negb (IsEmpty (TLS conn)) ∧
  (ro_TLS o = true → f_read f = None ∧ f_append f = true ∧ f_pair f = None) ∧
  (∀ n, Atoi (Database conn) = Some n → DB o = 0).
Proof.
  unfold ReadRedisOptions. destruct (if IsEmpty (TLS conn) then None else _) as [err|] eqn:E; [done|]. intros [= <-]. cbn.
  split_and!; [done|done| |].
  - rewrite negb_true_iff. intros H. rewrite H in E. unfold buildRedisTLSConf in E.
    destruct (f_read f); [done|]. destruct (f_append f); [|done]. by destruct (f_pair f).
  - intros n Hn. case_bool_decide; [done|]. unfold Atoi_value. by rewrite Hn.
Qed.

(** Database 3 is asked for and 0 used; a number that does not fit is used as the
    largest one. *)
Example database_ignored :
  let conn db := mkOpts "h" "6379" db EmptyString EmptyString (mkTLS EmptyString EmptyString EmptyString) in
  let db s := match ReadRedisOptions (conn s) (mkTLSFiles None true None) 0 with inr o => DB o | inl _ => -1 end in
  (db "3", db "x", db "9223372036854775808") = (0, 0, 9223372036854775807).
Proof. vm_compute. reflexivity. Qed.
End RedisOptions.

(** ** The replication connection *)

Module ReplConn.
Import Node.

(** [getReplConn]: the servers are asked again which one is primary when the
    connection has to be made anew. *)
Definition getReplConn {T} (dial : conn_config → goerr + T) (reconnect : bool) (ctx_err : option goerr) (answers : list node_answers)
    (c : Connector.PGConnector) : (goerr + T) * Connector.PGConnector * list Node.action :=
  let '(connErr, c, acts) :=
    if reconnect then
      let '(c, acts) := Connector.Close c in
      let '(r, c, acts') := Connector.ConnectPrimaryNode ctx_err answers c in
      (match r with inl err => Some err | inr _ => None end, c, acts ++ acts')
    else (None, c, []) in
  match connErr with
  | Some err => (inl err, c, acts)
  | None =>
      match Connector.GetPrimaryReplConn c dial with
      | inl err => (inl (GoWrap "unable to connect to Postgres via replication connection" err), c, acts)
      | inr replConn =>
          match Connector.PrimaryVersion c with
          | inl err => (inl (GoWrap "unable to get primary node version" err), c, acts)
          | inr _ => (inr replConn, c, acts)
          end
      end
  end.

(** The connection is one to the primary server with the settings for
    replication; a connection that was made is not lost by a version that is
    missing. *)
Lemma repl_conn_primary {T} (dial : conn_config → goerr + T) reconnect ctx_err answers c :
  let '(r, c', _) := getReplConn dial reconnect ctx_err answers c in
  match r with
  | inr replConn => ∃ n, Connector.find_primary c' = Some n ∧ dial (replConfig n) = inr replConn
  | inl err => ∀ n e, Connector.find_primary c' = Some n → dial (replConfig n) = inl e →
      reconnect = false → err = GoWrap "unable to connect to Postgres via replication connection"
                                  (GoWrap "failed to connect via replication connection" e)
  end.
Proof.
  unfold getReplConn. set (first := if reconnect then _ else _). destruct first as [[connErr c'] acts] eqn:E.
  destruct connErr as [err|].
  - intros n e _ _ ->. by injection E.
  - unfold Connector.GetPrimaryReplConn, Connector.PrimaryVersion, ConnectReplication.
    destruct (Connector.find_primary c') as [n|] eqn:En; [|intros n' e' Hn; congruence].
    destruct (dial (replConfig n)) as [e|replConn] eqn:Ed.
    + intros n' e' Hn He _. congruence.
    + by exists n.
Qed.
End ReplConn.

(** ** Floating-point numbers in JSON *)

Module Floats.

Definition MaxFloat (bits : Z) : gofloat := if bool_decide (bits = 32) then FFin (2 ^ 24 - 1) 104 else FFin (2 ^ 53 - 1) 971.
Definition SmallestNonzeroFloat (bits : Z) : gofloat := if bool_decide (bits = 32) then FFin 1 (-149) else FFin 1 (-1074).

(** [SmartFloat32.MarshalJSON] and [SmartFloat64.MarshalJSON]: the number whose
    text is written; [None] is null. *)
Definition marshalled (bits : Z) (f : gofloat) : option gofloat :=
  match f with
  | FNaN => None
  | FInf false => Some (MaxFloat bits)
  | FInf true => Some (SmallestNonzeroFloat bits)
  | FFin _ _ => Some f
  end.
Definition MarshalJSON (Marshal : gofloat → string) (FormatFloat : gofloat → Z → string) (bits : Z) (f : gofloat) : string :=
  match f with
  | FFin _ _ => FormatFloat f bits
  | _ => match marshalled bits f with None => "null" | Some g => Marshal g end
  end.

Definition sign (f : gofloat) : Z := match f with FNaN => 0 | FInf neg => if neg then -1 else 1 | FFin m _ => Z.sgn m end.

(** Every number keeps its sign but the negative infinity, which becomes a
    positive number. *)
Lemma marshalled_sign bits f g :
  marshalled bits f = Some g → sign g = sign f ∨ (f = FInf true ∧ sign g = 1).
Proof.
  destruct f as [|[]|m e]; cbn; [done|..]; intros [= <-]; unfold SmallestNonzeroFloat, MaxFloat; try case_bool_decide; cbn; auto.
Qed.
End Floats.
