(* ===== verification/Positions.v ===== *)
(** * Where positions are kept between two runs

    The replicator gives every position it may restart from to two stores: the
    table [pgwalk.app_state] of the source database (src/appstate/app_state.go)
    and the listener's own one.  The Redis listener keeps it under a key of Redis
    (src/pg2redis/redis_writer.go, listener_redis.go, snapshot_listener.go), the
    SQS listener relies on the table (src/pg2sqs/listener_sqs.go).  The position
    of a finished snapshot is kept beside it.

    - [Stores]: what is used of Redis and of PostgreSQL, as two interfaces, with
      what is documented of them as laws;
    - [AppStates]: the table;
    - [RedisPositions]: the keys, through the writer and its listeners;
    - [Keepers]: the listeners as the replicator and the start of the program
      see them, for Redis and for SQS, and the laws of the interface;
    - [Once]: the closing of the slot's snapshot (src/replicationslot/snapshot.go)
      and the listener for programs without snapshots
      (src/listeners/no_snapshot_listener.go). *)

From stdpp Require Import base numbers list gmap strings.
From S2P Require Import Prelude GoStrings PgSchema Decode PgWal BufferedListener SnapshotPlan SnapshotManager Connector Runner AppOptions.

(** ** The stores *)

Module Stores.

(** The Redis commands that are used, with the errors of the client. *)
Class KV (S : Type) := {
  kv_get : string → S → (goerr + string) * S;
  kv_set : string → string → S → option goerr * S;
  kv_ping : S → option goerr * S;
  kv_close : S → option goerr * S;
}.

(** [redis.Nil]: the key is not there. *)
Definition Nil : string := "redis: nil".

(** [content] is what the server keeps.  A command that the client gives an error
    for may or may not have been carried out. *)
Class KVLaws S `{!KV S} (content : S → gmap string string) : Prop := {
  get_keeps k s : content (kv_get k s).2 = content s;
  get_value k s v : (kv_get k s).1 = inr v → content s !! k = Some v;
  get_nil k s e : (kv_get k s).1 = inl e → errors_Is e Nil = true → content s !! k = None;
  set_done k v s : (kv_set k v s).1 = None → content (kv_set k v s).2 = <[k:=v]> (content s);
  set_maybe k v s : content (kv_set k v s).2 = content s ∨ content (kv_set k v s).2 = <[k:=v]> (content s);
  ping_keeps s : content (kv_ping s).2 = content s;
}.

(** Statements on a connection to a server, and a query for one row of two
    texts with the scanning of it. *)
Class PG (D : Type) := {
  pg_exec : string → string → list string → D → option goerr * D;
  pg_row : string → string → list string → D → (goerr + string * string) * D;
}.
End Stores.

(** ** The table of the states *)

Module AppStates.
Import Stores.

Definition createSQL : string := "
CREATE SCHEMA IF NOT EXISTS pgwalk;
CREATE TABLE IF NOT EXISTS pgwalk.app_state
(
 app_name TEXT NOT NULL PRIMARY KEY,
 state TEXT NOT NULL,
 last_xid TEXT NOT NULL
);
".
Definition saveSQL : string := "
INSERT INTO pgwalk.app_state (app_name, state, last_xid)
VALUES ($1, $2, $3)
ON CONFLICT (app_name) DO UPDATE SET state = $2, last_xid = $3
".
Definition loadSQL : string := "
SELECT state, last_xid
FROM pgwalk.app_state
WHERE app_name = $1
".

(** What PostgreSQL does for the three texts; [table] is the table by its primary
    key, empty when it does not exist. *)
Class PGLaws D `{!PG D} (table : D → gmap string (string * string)) : Prop := {
  create_keeps h d : table (pg_exec h createSQL [] d).2 = table d;
  save_done h a s x d :
    (pg_exec h saveSQL [a; s; x] d).1 = None → table (pg_exec h saveSQL [a; s; x] d).2 = <[a:=(s, x)]> (table d);
  save_maybe h a s x d :
    table (pg_exec h saveSQL [a; s; x] d).2 = table d ∨
    table (pg_exec h saveSQL [a; s; x] d).2 = <[a:=(s, x)]> (table d);
  load_keeps h a d : table (pg_row h loadSQL [a] d).2 = table d;
  load_value h a d v : (pg_row h loadSQL [a] d).1 = inr v → table d !! a = Some v;
}.

Record AppState := mkAppState { AppName : string; State : string; LastXID : string }.

Section states.
Context {D} `{!PG D} (connector : Connector.PGConnector).

(** [pgconnector.ExecPrimary] with a function that works on the database. *)
Definition on_primary {A} (f : string → D → (goerr + A) * D) (d : D) : (goerr + A) * D :=
  match Connector.ExecPrimary connector (λ h, inr (f h d)) with inl err => (inl err, d) | inr r => r end.
Definition exec (sql : string) (args : list string) (d : D) : option goerr * D :=
  let '(r, d) := on_primary (λ h d, let '(err, d) := pg_exec h sql args d in
                                    (match err with Some e => inl e | None => inr () end, d)) d in
  (match r with inl e => Some e | inr _ => None end, d).

Definition Create : D → option goerr * D := exec createSQL [].

Definition Save (state : AppState) : D → option goerr * D :=
  exec saveSQL [AppName state; State state; LastXID state].

Definition Load (appName : string) (d : D) : (goerr + AppState) * D :=
  let '(r, d) := on_primary (λ h d, pg_row h loadSQL [appName] d) d in
  (match r with inl err => inl err | inr (state, lastXID) => inr (mkAppState appName state lastXID) end, d).

Context (table : D → gmap string (string * string)) `{!PGLaws D table}.

Lemma Create_keeps d : table (Create d).2 = table d.
Proof using Type*.
  unfold Create, exec, on_primary, Connector.ExecPrimary. destruct (Connector.find_primary connector) as [n|]; [|done].
  unfold Node.WithConnection. destruct (Node.conn n); [|done]. pose proof (create_keeps (Node.hostPort n) d) as H. by destruct (pg_exec _ _ _ _).
Qed.

Lemma Save_maybe st d :
  table (Save st d).2 = table d ∨ table (Save st d).2 = <[AppName st:=(State st, LastXID st)]> (table d).
Proof using Type*.
  unfold Save, exec, on_primary, Connector.ExecPrimary. destruct (Connector.find_primary connector) as [n|]; [|by left].
  unfold Node.WithConnection. destruct (Node.conn n); [|by left].
  pose proof (save_maybe (Node.hostPort n) (AppName st) (State st) (LastXID st) d) as H. by destruct (pg_exec _ _ _ _).
Qed.

Lemma Save_done st d :
  (Save st d).1 = None → table (Save st d).2 = <[AppName st:=(State st, LastXID st)]> (table d).
Proof using Type*.
  unfold Save, exec, on_primary, Connector.ExecPrimary. destruct (Connector.find_primary connector) as [n|]; [|done].
  unfold Node.WithConnection. destruct (Node.conn n); [|done].
  pose proof (save_done (Node.hostPort n) (AppName st) (State st) (LastXID st) d) as H. destruct (pg_exec _ _ _ _) as [[e|] d']; [done|by intros _; apply H].
Qed.

Lemma Load_value a d :
  table (Load a d).2 = table d ∧
  match (Load a d).1 with inl _ => True | inr st => AppName st = a ∧ table d !! a = Some (State st, LastXID st) end.
Proof using Type*.
  unfold Load, on_primary, Connector.ExecPrimary. destruct (Connector.find_primary connector) as [n|]; [|done].
  unfold Node.WithConnection. destruct (Node.conn n); [|done].
  pose proof (load_keeps (Node.hostPort n) a d) as H. pose proof (load_value (Node.hostPort n) a d) as Hv.
  destruct (pg_row _ _ _ _) as [[e|[s x]] d']; simpl in *; [done|]. split_and!; [done|done|by apply Hv].
Qed.
End states.
End AppStates.

(** ** The keys of Redis *)

Module RedisPositions.
Import Stores.

Definition redisLSNKey : string := "pg2redis_lsn".
Notation snapshotLSNKey := Listeners.snapshotLSNKey.

(** What of the writer counts here: the client and the gauge of the last saved
    position. *)
Record redisWriter (S : Type) := mkRedisWriter { client : S; LSNLastReported : option Z }.
Arguments mkRedisWriter {_} _ _.
Arguments client {_} _.
Arguments LSNLastReported {_} _.

Section writer.
(** [LSN.String] *)
Context {S} `{!KV S} (lsn_string : Z → string).
Notation W := (redisWriter S).

Definition call {A} (f : S → A * S) (w : W) : A * W :=
  let '(a, s) := f (client w) in (a, mkRedisWriter s (LSNLastReported w)).

Definition ping : W → option goerr * W := call kv_ping.
Definition close : W → option goerr * W := call kv_close.

Definition readLSN (w : W) : (goerr + string) * W :=
  let '(r, w) := call (kv_get redisLSNKey) w in
  (match r with inl err => inl (GoWrap "readLSN error" err) | inr res => inr res end, w).

Definition saveLSN (lsn : Z) (w : W) : option goerr * W :=
  if bool_decide (0 < lsn)
  then call (kv_set redisLSNKey (lsn_string lsn)) (mkRedisWriter (client w) (Some lsn))
  else (None, w).

Definition SaveSnapshotLSN (key lsn : string) : W → option goerr * W := call (kv_set key lsn).

Definition GetSnapshotLSN (key : string) (w : W) : (goerr + string) * W :=
  let '(r, w) := call (kv_get key) w in
  (match r with inl err => if errors_Is err Nil then inr EmptyString else inl err | inr val => inr val end, w).

(** *** [RedisListener], [RedisSnapshotListener] and [redisSnapshotBufferedWriter] *)

Definition listener_Ping (w : W) : option goerr * W :=
  let '(err, w) := ping w in (GoWrap "unable to connect to redis" <$> err, w).
Definition listener_SaveState (lsn : Z) : W → option goerr * W := saveLSN lsn.
Definition listener_GetLastLSN : W → (goerr + string) * W := readLSN.
Definition listener_SaveSnapshotLSN (appName lsn : string) : W → option goerr * W :=
  SaveSnapshotLSN ("pgwalk:snapshot_lsn:" +:+ appName) lsn.
Definition listener_GetSnapshotLSN (appName : string) : W → (goerr + string) * W :=
  GetSnapshotLSN ("pgwalk:snapshot_lsn:" +:+ appName).

Definition snapshot_SaveSnapshotLSN (appName lsn : string) : W → option goerr * W := SaveSnapshotLSN (snapshotLSNKey appName) lsn.
Definition snapshot_GetSnapshotLSN (appName : string) : W → (goerr + string) * W := GetSnapshotLSN (snapshotLSNKey appName).
Definition buffered_SaveState (lsn : Z) (w : W) : option goerr * W := (None, w).
Definition buffered_Ping : W → option goerr * W := ping.

(** *** A program's calls *)

(** The calls that a program makes of its listeners; those of the snapshot
    listener and of its writer use the same key. *)
Inductive op :=
| OPing | OReadLSN | OSaveState (lsn : Z)
| OSaveSnapshot (appName lsn : string) | OGetSnapshot (appName : string)
| OSnapshotSave (appName lsn : string) | OSnapshotGet (appName : string) | OBufferedSaveState (lsn : Z).

Definition reply : Type := option goerr + (goerr + string).
Definition do_op (o : op) (w : W) : reply * W :=
  let err (x : option goerr * W) : reply * W := (inl x.1, x.2) in
  let val (x : (goerr + string) * W) : reply * W := (inr x.1, x.2) in
  match o with
  | OPing => err (listener_Ping w)
  | OReadLSN => val (listener_GetLastLSN w)
  | OSaveState lsn => err (listener_SaveState lsn w)
  | OSaveSnapshot a lsn => err (listener_SaveSnapshotLSN a lsn w)
  | OGetSnapshot a => val (listener_GetSnapshotLSN a w)
  | OSnapshotSave a lsn => err (snapshot_SaveSnapshotLSN a lsn w)
  | OSnapshotGet a => val (snapshot_GetSnapshotLSN a w)
  | OBufferedSaveState lsn => err (buffered_SaveState lsn w)
  end.
Fixpoint run_ops (os : list op) (w : W) : list (op * reply) * W :=
  match os with
  | [] => ([], w)
  | o :: os => let '(r, w) := do_op o w in let '(rs, w) := run_ops os w in ((o, r) :: rs, w)
  end.

(** The entry a call writes. *)
Definition written (o : op) : option (string * string) :=
  match o with
  | OSaveState lsn => if bool_decide (0 < lsn) then Some (redisLSNKey, lsn_string lsn) else None
  | OSaveSnapshot a lsn | OSnapshotSave a lsn => Some (snapshotLSNKey a, lsn)
  | _ => None
  end.

(** What may be under a key: the value of the last call that wrote it without an
    error, or of one after it that the client gave an error for. *)
Fixpoint possible (key : string) (rs : list (op * reply)) (c : list (option string)) : list (option string) :=
  match rs with
  | [] => c
  | (o, r) :: rs =>
      possible key rs
        match written o with
        | Some (k, v) => if bool_decide (k = key)
                         then match r with inl None => [Some v] | _ => c ++ [Some v] end else c
        | None => c
        end
  end.

Context (content : S → gmap string string) `{!KVLaws S content}.
Notation kept w := (content (client w)).

Lemma set_kept k v (w : W) (r : option goerr) w' key c :
  call (kv_set k v) w = (r, w') → kept w !! key ∈ c →
  kept w' !! key ∈ (if bool_decide (k = key) then match r with None => [Some v] | _ => c ++ [Some v] end else c).
Proof using Type*.
  unfold call. pose proof (set_done k v (client w)) as Hd. pose proof (set_maybe k v (client w)) as Hm.
  destruct (kv_set k v (client w)) as [r0 s]; cbn [fst snd] in *. intros [= <- <-] Hc. cbn [client].
  case_bool_decide as Hk.
  - subst k. destruct r0 as [e|].
    + destruct Hm as [-> | ->]; [set_solver|]. rewrite lookup_insert_eq. set_solver.
    + rewrite Hd, lookup_insert_eq by done. set_solver.
  - destruct Hm as [-> | ->]; [done|]. by rewrite lookup_insert_ne.
Qed.

Lemma get_kept key (w : W) r w' : call (kv_get key) w = (r, w') → kept w' = kept w ∧
  match r with inl e => errors_Is e Nil = true → kept w !! key = None | inr v => kept w !! key = Some v end.
Proof using Type*.
  unfold call. pose proof (get_keeps key (client w)). pose proof (get_value key (client w)). pose proof (get_nil key (client w)).
  destruct (kv_get key (client w)) as [r0 s]; cbn [fst snd] in *. intros [= <- <-]. cbn [client]. split; [done|].
  destruct r0; eauto.
Qed.

(** A call keeps what may be under the key in step with what is. *)
Lemma do_op_kept o (w : W) r w' key c :
  do_op o w = (r, w') → kept w !! key ∈ c → kept w' !! key ∈ possible key [(o, r)] c.
Proof using Type*.
  assert (∀ k w r w', GetSnapshotLSN k w = (r, w') → kept w' = kept w) as HG.
  { intros k w0 r0 w0'. unfold GetSnapshotLSN. destruct (call (kv_get k) w0) as [v w1] eqn:E. intros [= _ <-].
    by apply get_kept in E as [? _]. }
  destruct o as [| |lsn|a lsn|a|a lsn|a|lsn]; cbn [do_op possible written]; intros E Hc.
  - unfold listener_Ping, ping, call in E. pose proof (ping_keeps (client w)) as Hp. destruct (kv_ping (client w)) as [e s].
    injection E as _ <-. cbn [client snd] in *. by rewrite Hp.
  - unfold listener_GetLastLSN, readLSN in E. destruct (call _ w) as [v w1] eqn:Ev.
    injection E as _ <-. apply get_kept in Ev as [Hk _]. simpl. by rewrite Hk.
  - unfold listener_SaveState, saveLSN in E. case_bool_decide; [|by injection E as _ <-].
    destruct (call _ _) as [e w1] eqn:Ee. injection E as <- <-. cbn [fst snd].
    eapply set_kept in Ee; [|exact Hc]. case_bool_decide; [|done]. by destruct e.
  - unfold listener_SaveSnapshotLSN, SaveSnapshotLSN in E. destruct (call _ w) as [e w1] eqn:Ee. injection E as <- <-. cbn [fst snd].
    eapply set_kept in Ee; [|exact Hc]. unfold Listeners.snapshotLSNKey. case_bool_decide; [|done]. by destruct e.
  - destruct (listener_GetSnapshotLSN a w) as [v w1] eqn:Ev. injection E as _ <-. apply HG in Ev. cbn [snd]. by rewrite Ev.
  - unfold snapshot_SaveSnapshotLSN, SaveSnapshotLSN in E. destruct (call _ w) as [e w1] eqn:Ee. injection E as <- <-. cbn [fst snd].
    eapply set_kept in Ee; [|exact Hc]. case_bool_decide; [|done]. by destruct e.
  - destruct (snapshot_GetSnapshotLSN a w) as [v w1] eqn:Ev. injection E as _ <-. apply HG in Ev. cbn [snd]. by rewrite Ev.
  - by injection E as _ <-.
Qed.

Lemma run_ops_kept os (w : W) rs w' key c :
  run_ops os w = (rs, w') → kept w !! key ∈ c → kept w' !! key ∈ possible key rs c.
Proof using Type*.
  revert w rs w' c. induction os as [|o os IH]; intros w rs w' c; cbn [run_ops]; [by intros [= <- <-]|].
  destruct (do_op o w) as [r w1] eqn:E1. destruct (run_ops os w1) as [rs1 w2] eqn:E2. intros [= <- <-] Hc.
  eapply do_op_kept in E1; [|exact Hc]. cbn [possible]. by eapply IH in E2; [|exact E1].
Qed.
End writer.

(** The keys of two programs with different names, and that of the replication,
    are different. *)
Lemma snapshotLSNKey_inj a b : snapshotLSNKey a = snapshotLSNKey b → a = b.
Proof. unfold Listeners.snapshotLSNKey. intros H. by simplify_eq/=. Qed.
Lemma snapshotLSNKey_not_lsn a : snapshotLSNKey a ≠ redisLSNKey.
Proof. done. Qed.
End RedisPositions.

(** ** The listeners as the keepers of the position *)

Module Keepers.
Import Stores AppStates RedisPositions.

(** The world is the source database and what the listener keeps.  The methods of
    [ReplicationListener] and [ListenerBuilder] about the position. *)
Class PositionListener (D X : Type) := {
  SaveState : Z → D * X → option goerr * (D * X);
  GetLastLSN : D * X → (goerr + string) * (D * X);
}.

Section save.
Context {D X} `{!PG D} `{!PositionListener D X} (lsn_string : Z → string).
Context (connector : Connector.PGConnector) (appName : string).

(** [PGReplicator.saveListenerState] *)
Definition saveListenerState (pointLSN : Z) : D * X → option goerr * (D * X) := SaveState pointLSN.

(** What [advanceSlotsAndSaveState] does with the stores, and their errors. *)
Definition save_position (pointLSN : Z) (w : D * X) : option goerr * option goerr * (D * X) :=
  let '(d, x) := w in
  let '(err, d) := AppStates.Save connector (mkAppState appName (lsn_string pointLSN) "0") d in
  let '(err', w) := saveListenerState pointLSN (d, x) in ((err, err'), w).

(** The positions of a run, with the errors. *)
Fixpoint save_all (ps : list Z) (w : D * X) : list (Z * (option goerr * option goerr)) * (D * X) :=
  match ps with
  | [] => ([], w)
  | p :: ps => let '(errs, w) := save_position p w in let '(h, w) := save_all ps w in ((p, errs) :: h, w)
  end.

(** What a listener promises of its position: [stored] is the text that it gives
    at the next start, and [sure] tells from the two errors that a position has
    been stored. *)
Class PositionLaws (stored : D * X → option string) (sure : option goerr * option goerr → bool) : Prop := {
  save_sure p w errs w' : 0 < p → save_position p w = (errs, w') → sure errs = true → stored w' = Some (lsn_string p);
  save_unsure p w errs w' : save_position p w = (errs, w') → stored w' = stored w ∨ stored w' = Some (lsn_string p);
  last_stored w s w' : GetLastLSN w = (inr s, w') → stored w = Some s;
}.

(** The positions that may be found: the last one that is stored for sure, and
    those after it. *)
Fixpoint candidates (sure : option goerr * option goerr → bool) (h : list (Z * (option goerr * option goerr)))
    (c : list (option string)) : list (option string) :=
  match h with
  | [] => c
  | (p, errs) :: h => candidates sure h (if sure errs then [Some (lsn_string p)] else c ++ [Some (lsn_string p)])
  end.

Section laws.
Context (stored : D * X → option string) (sure : option goerr * option goerr → bool) `{!PositionLaws stored sure}.

Lemma save_all_candidates ps w h w' c :
  Forall (λ p, 0 < p) ps → save_all ps w = (h, w') → stored w ∈ c → stored w' ∈ candidates sure h c.
Proof using Type*.
  revert w h w' c. induction ps as [|p ps IH]; intros w h w' c; cbn [save_all]; [by intros _ [= <- <-]|].
  intros [Hp Hps]%Forall_cons. destruct (save_position p w) as [errs w1] eqn:E1.
  destruct (save_all ps w1) as [h1 w2] eqn:E2. intros [= <- <-] Hc. cbn [candidates].
  eapply IH; [done|exact E2|]. destruct (sure errs) eqn:Es.
  - rewrite (save_sure p w errs w1) by done. set_solver.
  - destruct (save_unsure p w errs w1 E1) as [-> | ->]; set_solver.
Qed.

Lemma candidates_from h c o :
  o ∈ candidates sure h c → o ∈ c ∨ ∃ p, p ∈ h.*1 ∧ o = Some (lsn_string p).
Proof using Type.
  clear. revert c. induction h as [|[p errs] h IH]; intros c; cbn [candidates]; [by left|].
  intros [Ho|(q & Hq & ->)]%IH; [|right; exists q; set_solver].
  destruct (sure errs); set_solver.
Qed.

(** Nothing older than a position that is stored for sure can be found. *)
Lemma candidates_sure h1 p errs h2 c o :
  sure errs = true → o ∈ candidates sure (h1 ++ (p, errs) :: h2) c →
  ∃ q, q ∈ p :: h2.*1 ∧ o = Some (lsn_string q).
Proof using Type.
  clear. intros Hs. revert c. induction h1 as [|[q errs'] h1 IH]; intros c; cbn [candidates app].
  - rewrite Hs. intros [Ho|(r & Hr & ->)]%candidates_from.
    + apply list_elem_of_singleton in Ho as ->. exists p. set_solver.
    + exists r. set_solver.
  - apply IH.
Qed.

Lemma save_all_positions ps w : (save_all ps w).1.*1 = ps.
Proof using Type.
  clear. revert w. induction ps as [|p ps IH]; intros w; cbn [save_all]; [done|].
  destruct (save_position p w) as [errs w1]. specialize (IH w1). destruct (save_all ps w1). simpl in *. by f_equal.
Qed.
End laws.
End save.

(** *** Redis: the key, whatever the table says *)

Section redis.
Context {D S} `{!PG D, !KV S} (lsn_string : Z → string).
Context (connector : Connector.PGConnector) (appName : string).

#[export] Instance redis_positions : PositionListener D (redisWriter S) := {
  SaveState lsn w := let '(err, x) := listener_SaveState lsn_string lsn w.2 in (err, (w.1, x));
  GetLastLSN w := let '(r, x) := listener_GetLastLSN w.2 in (r, (w.1, x));
}.

Context (content : S → gmap string string) `{!KVLaws S content}.
Definition redis_stored (w : D * redisWriter S) : option string := content (client w.2) !! redisLSNKey.
Definition redis_sure (errs : option goerr * option goerr) : bool := match errs with (_, None) => true | _ => false end.

#[export] Instance redis_laws : PositionLaws lsn_string connector appName redis_stored redis_sure.
Proof using Type*.
  assert (∀ p d x errs w', save_position lsn_string connector appName p (d, x) = (errs, w') →
    ∃ err, errs.2 = err ∧ saveLSN lsn_string p x = (err, w'.2)) as Hsave.
  { intros p d x errs w'. unfold save_position, saveListenerState. destruct (AppStates.Save _ _ d) as [e d'].
    cbn [SaveState redis_positions fst snd]. unfold listener_SaveState. destruct (saveLSN _ p x) as [err x1] eqn:E.
    intros [= <- <-]. by exists err. }
  split.
  - intros p [d x] [e e'] w' Hp (err & He & E)%Hsave Hs. destruct e'; [done|]. simpl in He. subst err.
    unfold saveLSN in E. rewrite bool_decide_true in E by done. unfold redis_stored.
    eapply (set_kept content _ _ _ _ _ redisLSNKey [_]) in E; [|by apply list_elem_of_singleton].
    rewrite bool_decide_true in E by done. by apply list_elem_of_singleton in E.
  - intros p [d x] errs w' (err & He & E)%Hsave. unfold redis_stored, saveLSN in *. cbn [snd].
    case_bool_decide; [|injection E as _ <-; by left].
    eapply (set_kept content _ _ _ _ _ redisLSNKey [_]) in E; [|by apply list_elem_of_singleton].
    rewrite bool_decide_true in E by done. cbn [client] in E. destruct err; set_solver.
  - intros [d x] s w'. cbn [GetLastLSN redis_positions snd]. unfold listener_GetLastLSN, readLSN, redis_stored.
    destruct (call _ x) as [r x1] eqn:E. destruct (get_kept content _ _ _ _ E) as [_ Hv].
    destruct r as [e|v]; intros [= <-]. subst. done.
Qed.
End redis.

(** *** SQS: the row of the table *)

Section sqs.
Context {D} `{!PG D} (lsn_string : Z → string) (connector : Connector.PGConnector).

(** [SQSListener.SaveState] keeps nothing. *)
#[export] Instance sqs_positions : PositionListener D unit := {
  SaveState lsn w := (None, w);
  GetLastLSN w :=
    let '(r, d) := Load connector "pg2sqs" w.1 in
    (match r with inl err => inl err | inr state => inr (State state) end, (d, w.2));
}.

Context (table : D → gmap string (string * string)) `{!PGLaws D table}.
Definition sqs_stored (w : D * unit) : option string := fst <$> table w.1 !! "pg2sqs".
Definition sqs_sure (errs : option goerr * option goerr) : bool := match errs with (None, _) => true | _ => false end.

(** The name the program gives to the replicator is the one the listener reads. *)
#[export] Instance sqs_laws : PositionLaws (PositionListener0 := sqs_positions) lsn_string connector "pg2sqs" sqs_stored sqs_sure.
Proof using Type*.
  split.
  - intros p [d []] [e e'] w' Hp. unfold save_position, saveListenerState.
    pose proof (Save_done connector table (mkAppState "pg2sqs" (lsn_string p) "0") d) as Hd.
    destruct (AppStates.Save _ _ d) as [err d']. cbn [SaveState sqs_positions fst snd AppName State] in *.
    intros [= -> <- <-] Hs. destruct e; [done|]. unfold sqs_stored. cbn [fst]. by rewrite Hd, lookup_insert_eq.
  - intros p [d []] errs w'. unfold save_position, saveListenerState.
    pose proof (Save_maybe connector table (mkAppState "pg2sqs" (lsn_string p) "0") d) as Hd.
    destruct (AppStates.Save _ _ d) as [err d']. cbn [SaveState sqs_positions fst snd AppName State] in *.
    intros [= <- <-]. unfold sqs_stored. cbn [fst]. destruct Hd as [-> | ->]; [by left|right].
    by rewrite lookup_insert_eq.
  - intros [d []] s w'. cbn [GetLastLSN sqs_positions fst snd]. pose proof (Load_value connector table "pg2sqs" d) as [_ Hv].
    destruct (Load _ _ d) as [[e|st] d']; intros [= <- <-]. unfold sqs_stored. cbn [fst] in *.
    destruct Hv as [_ ->]. done.
Qed.
End sqs.
End Keepers.

(** ** The slot's snapshot and programs without snapshots *)

Module Once.

(** [replicationslot.Snapshot]; [done] is [closeOnce].  The result of [closeFn]
    is an argument where the function is called. *)
Record Snapshot := mkSnapshot {
  LSN : Z; SnapshotName : string; hasCloseFn : bool; done_ : bool; closeErr : option goerr }.
Definition NewSnapshot (lsn : Z) (snapshotName : string) (closeFn : bool) : Snapshot :=
  mkSnapshot lsn snapshotName closeFn false None.

(** The receiver may be nil.  The error, whether [closeFn] was called, and the
    snapshot. *)
Definition Close (outcome : option goerr) (s : option Snapshot) : option goerr * bool * option Snapshot :=
  match s with
  | None => (None, false, None)
  | Some s =>
      if done_ s then (closeErr s, false, Some s)
      else let err := if hasCloseFn s then outcome else closeErr s in
           (err, hasCloseFn s, Some (mkSnapshot (LSN s) (SnapshotName s) (hasCloseFn s) true err))
  end.

Fixpoint close_all (outcomes : list (option goerr)) (s : option Snapshot) : list (option goerr) * nat * option Snapshot :=
  match outcomes with
  | [] => ([], 0%nat, s)
  | o :: r =>
      let '(err, called, s) := Close o s in
      let '(errs, n, s) := close_all r s in (err :: errs, ((if called then 1 else 0) + n)%nat, s)
  end.

Lemma close_all_done outcomes s :
  done_ s = true → close_all outcomes (Some s) = (replicate (length outcomes) (closeErr s), 0%nat, Some s).
Proof. intros H. induction outcomes as [|o r IH]; cbn [close_all Close length replicate]; [done|]. by rewrite H, IH. Qed.

(** However often it is closed, the function is called once, at the first time,
    and every call gives its error. *)
Lemma closed_once lsn name o outcomes :
  let '(errs, n, _) := close_all (o :: outcomes) (Some (NewSnapshot lsn name true)) in
  n = 1%nat ∧ Forall (λ err, err = o) errs.
Proof. cbn. rewrite close_all_done by done. cbn. split; [done|]. constructor; [done|]. by apply Forall_replicate. Qed.

(** [listeners.NoSnapshotListener]: the answers of its methods.  A batch is
    accepted and dropped, and no acknowledgement is ever made. *)
Record snapshot_answers := mkSA {
  OnSnapshotBatch : option goerr; sa_TxOptions : TxCommitTimeOptions; GetTable : option Table; CommitPos : CommitPoint;
  SaveSnapshotLSN : option goerr; GetSnapshotLSN : goerr + string; GracefulShutdown : option goerr; WriteQueueSize : Z }.
Definition NoSnapshotListener : snapshot_answers :=
  mkSA None (Flush.NewTxCommitTimeOptions EmptyString) None (mkCP 0 0) None (inr EmptyString) None 0.
End Once.

(** ** Concrete stores *)

Module Samples.
Import Stores AppStates RedisPositions Keepers.

(** A command is carried out, lost on the way, or carried out with its answer
    lost; everything works when the list is at its end. *)
Inductive fate := Fine | Lost | AnswerLost.
Definition network : goerr := GoErr "i/o timeout".

Definition redis : Type := gmap string string * list fate.
Definition pop_fate (fs : list fate) : fate * list fate := match fs with [] => (Fine, []) | f :: r => (f, r) end.
Definition failure (f : fate) : option goerr := match f with Fine => None | _ => Some network end.
Definition carried_out {A} (f : fate) (new old : A) : A := match f with Lost => old | _ => new end.

#[export] Instance redis_kv : KV redis := {
  kv_get k s := let '(f, fs) := pop_fate s.2 in
    (match failure f with Some e => inl e | None => match s.1 !! k with Some v => inr v | None => inl (GoErr Nil) end end, (s.1, fs));
  kv_set k v s := let '(f, fs) := pop_fate s.2 in (failure f, (carried_out f (<[k:=v]> s.1) s.1, fs));
  kv_ping s := let '(f, fs) := pop_fate s.2 in (failure f, (s.1, fs));
  kv_close s := (None, s);
}.
#[export] Instance redis_kv_laws : KVLaws redis fst.
Proof.
  split; intros; cbn [kv_get kv_set kv_ping redis_kv] in *; unfold pop_fate in *; destruct s as [m [|[] fs]]; cbn in *;
    try destruct (m !! k) eqn:E; simplify_eq/=; auto.
Qed.

Definition pg : Type := gmap string (string * string) * list fate.
#[export] Instance pg_table : PG pg := {
  pg_exec h sql args d := let '(f, fs) := pop_fate d.2 in
    (failure f,
     (match args with
      | [a; s; x] => if bool_decide (sql = saveSQL) then carried_out f (<[a:=(s, x)]> d.1) d.1 else d.1
      | _ => d.1
      end, fs));
  pg_row h sql args d := let '(f, fs) := pop_fate d.2 in
    (match failure f with
     | Some e => inl e
     | None => match (a ← head args; d.1 !! a) with Some v => inr v | None => inl (GoErr "no rows in result set") end
     end, (d.1, fs));
}.
#[export] Instance pg_table_laws : PGLaws pg fst.
Proof.
  split; intros; cbn [pg_exec pg_row pg_table head mbind option_bind] in *; rewrite ?bool_decide_true in * by done;
    unfold pop_fate in *; destruct d as [m [|[] fs]]; cbn in *; try destruct (m !! a) eqn:E; simplify_eq/=; auto.
Qed.

(** A connected primary server. *)
Definition connector : Connector.PGConnector :=
  (Connector.Connector.Connect None [Connector.Samples.up false] (Connector.Samples.nodes "db")).1.2.

(** A position as [%X/%X] prints it, and back. *)
Definition upper : list Ascii.ascii := to_list "0123456789ABCDEF".
Fixpoint hex (n : nat) (z : Z) : list Ascii.ascii :=
  match n with
  | O => []
  | S n => if bool_decide (z < 16) then [digit upper z] else hex n (z `div` 16) ++ [digit upper (z mod 16)]
  end.
Fixpoint read_hex (acc : Z) (l : list Ascii.ascii) : option Z :=
  match l with [] => Some acc | c :: l => d ← undigit upper c; read_hex (acc * 16 + d) l end.
Definition LSN_String (z : Z) : string :=
  of_list (hex 8 (z `div` two32)) +:+ "/" +:+ of_list (hex 8 (z mod two32)).
Definition ParseLSN (s : string) : option Z :=
  match split_byte (Ascii.ascii_of_nat 47) s with
  | [a; b] => hi ← read_hex 0 (to_list a); lo ← read_hex 0 (to_list b); Some (hi * two32 + lo)
  | _ => None
  end.

Lemma upper_digit z : 0 ≤ z < 16 → undigit upper (digit upper z) = Some z ∧ digit upper z ≠ Ascii.ascii_of_nat 47.
Proof.
  intros Hz. apply (below_forall (λ z, bool_decide (undigit upper (digit upper z) = Some z ∧ digit upper z ≠ Ascii.ascii_of_nat 47)) 16) in Hz.
  - by apply bool_decide_eq_true in Hz.
  - vm_compute. reflexivity.
Qed.

Lemma read_hex_app acc a b : read_hex acc (a ++ b) = x ← read_hex acc a; read_hex x b.
Proof. revert acc. induction a as [|c a IH]; intros acc; [done|]. cbn [read_hex app]. destruct (undigit upper c); [apply IH|done]. Qed.

Lemma read_hex_back n z : 0 ≤ z < 16 ^ Z.of_nat n → read_hex 0 (hex n z) = Some z.
Proof.
  revert z. induction n as [|n IH]; intros z Hz; [change (16 ^ Z.of_nat 0) with 1 in Hz; by replace z with 0 by lia|]. cbn [hex]. case_bool_decide as Hs.
  - cbn [read_hex]. by rewrite (proj1 (upper_digit z ltac:(lia))).
  - rewrite read_hex_app, IH.
    + cbn [mbind option_bind read_hex]. rewrite (proj1 (upper_digit (z mod 16) ltac:(apply Z.mod_pos_bound; lia))). cbn [mbind option_bind]. f_equal.
      pose proof (Z.div_mod z 16). lia.
    + rewrite Nat2Z.inj_succ, Z.pow_succ_r in Hz by lia. split; [apply Z.div_pos; lia|]. apply Z.div_lt_upper_bound; lia.
Qed.

Lemma hex_no_slash n z : 0 ≤ z → Ascii.ascii_of_nat 47 ∉ hex n z.
Proof.
  revert z. induction n as [|n IH]; intros z Hz; [set_solver|]. cbn [hex]. case_bool_decide as Hs.
  - intros H%list_elem_of_singleton. by destruct (upper_digit z ltac:(lia)) as [_ []].
  - intros [H|H%list_elem_of_singleton]%elem_of_app; [apply IH in H; [done|apply Z.div_pos; lia]|].
    by destruct (upper_digit (z mod 16) ltac:(apply Z.mod_pos_bound; lia)) as [_ []].
Qed.

Lemma LSN_back z : 0 ≤ z < two64 → ParseLSN (LSN_String z) = Some z.
Proof.
  intros Hz. unfold ParseLSN, LSN_String.
  assert (0 ≤ z `div` two32 < 16 ^ Z.of_nat 8).
  { unfold two64, two32 in *. split; [apply Z.div_pos; lia|]. apply Z.div_lt_upper_bound; lia. }
  assert (0 ≤ z mod two32 < 16 ^ Z.of_nat 8) by (apply Z.mod_pos_bound; done).
  assert (∀ n y, 0 ≤ y → has_byte (Ascii.ascii_of_nat 47) (of_list (hex n y)) = false) as Hn.
  { intros n y Hy. unfold has_byte. rewrite to_of_list. apply bool_decide_eq_false_2. by apply hex_no_slash. }
  change ("/" +:+ of_list (hex 8 (z mod two32))) with (String (Ascii.ascii_of_nat 47) (of_list (hex 8 (z mod two32)))).
  rewrite split_byte_app, split_byte_none by (apply Hn; lia). rewrite !to_of_list, !read_hex_back by done.
  cbn [mbind option_bind]. f_equal. pose proof (Z.div_mod z two32). unfold two32 in *. lia.
Qed.
End Samples.
