(* ===== verification/Restart.v ===== *)
(** * Restarts

    What a run of the program leaves behind and what the next one makes of it:
    the positions that the replicator gave to be saved ([ReplicatorSystem]), the
    stores that keep them ([Positions]), and the choice of the start position
    ([Runner]).

    - [Replication]: a restart streams every transaction again whose rows are not
      all delivered, for every listener with the laws of [PositionLaws];
    - [OneTime]: a snapshot whose position is kept in Redis is not run again;
    - [Samples]: both listeners, and two programs that share their positions. *)

From stdpp Require Import base numbers list gmap strings pretty sorting.
From S2P Require Import Prelude GoStrings WriteQueue OrderedMap PgSchema Decode CircuitBreaker PgWal.
From S2P Require Import LSNTracker LSNSystem BufferedListener ListenerSpec ListenerSystem ListenerSamples.
From S2P Require Import Replicator ReplicatorSystem ReplicatorSamples SnapshotPlan SnapshotManager Connector Runner AppOptions Positions.

(** ** The replication *)

Module Replication.
Import Tracked Tracker TInv System TxList Collapse Tx Listener Refine Pipeline Stores Keepers.

Section restart.
Context {QT : QueueImpl tref t_size} {QR : QueueImpl (readyWriteEntry Tup) ready_size}.
Notation event := (System.event (Tup := Tup)).
Notation sys := (System.sys (Tup := Tup) (QT := QT) (QR := QR)).
Context (enum : gmap CommitPoint (list Z) → list (CommitPoint * list Z)).
Context (SetTimer : Z → Z → bool → bool).
Context (typeMap : Z → option (string → goerr + goval)).
Context (fmtv : option goval → string).
Context (colOrder : gmap string Column → list Column).
Context (tableOrder : gmap string Table → list Table).
Context (lopts : ListenerOptions) (txOpts : TxCommitTimeOptions).
Context (cfg : RetryConfig).
Context (Henum : ∀ m, enum m ≡ₚ map_to_list m).
Context (opts : Options).
Context (ParsePrimaryKeepaliveMessage : string → goerr + bool).
Context (ParseXLogData : string → goerr + string).
Context (ParseV2 : string → bool → goerr + logicalMsg).
Context (net_error : goerr → bool).
#[local] Instance the_listener : ReplicationListener (listener sys) event :=
  buffered_listener enum SetTimer typeMap fmtv colOrder tableOrder lopts txOpts.
#[local] Instance the_laws : ListenerLaws (listener sys) event :=
  buffered_listener_laws enum SetTimer typeMap fmtv colOrder tableOrder lopts txOpts cfg Henum.
Notation rsteps := (Replicator.rsteps opts ParsePrimaryKeepaliveMessage ParseXLogData ParseV2 net_error act_ok).

(** The listener as the keeper of the position, and the text of positions. *)
Context {D X : Type} `{!PG D, !PositionListener D X}.
Context (connector : Connector.PGConnector) (appName : string).
Context (lsn_string : Z → string) (ParseLSN : string → option Z).
Context (stored : D * X → option string) (sure : option goerr * option goerr → bool).
Context {laws : PositionLaws lsn_string connector appName stored sure}.
(** [pglogrepl.ParseLSN] reads what [LSN.String] writes. *)
Context (parse_string : ∀ p, 0 ≤ p < two64 → ParseLSN (lsn_string p) = Some p).
Notation save_all := (save_all lsn_string connector appName).
Notation start_position := (App.start_position ParseLSN).

Lemma found w s w' : GetLastLSN w = (inr s, w') → stored w = Some s.
Proof using laws. destruct laws as [_ _ H]. apply H. Qed.

(** A start position comes from what was stored, or is the fallback. *)
Lemma start_from_stored ps w0 h w2 last w3 f start :
  save_all ps w0 = (h, w2) → Forall (λ p, 0 < p < two64) ps →
  (∀ s q, stored w0 = Some s → ParseLSN s = Some q → q ≤ start) →
  GetLastLSN w2 = (last, w3) →
  let q := start_position last f in
  q = f ∨ q ≤ start ∨ q ∈ ps.
Proof using All.
  intros Hs Hps H0 Hl. cbv zeta. unfold App.start_position. destruct last as [e|s]; [by left|].
  case_bool_decide; [by left|]. destruct (ParseLSN s) as [q|] eqn:Eq; [|by left].
  case_bool_decide; [by left|]. right. apply found in Hl.
  pose proof (save_all_positions lsn_string connector appName ps w0) as Hh. rewrite Hs in Hh. simpl in Hh.
  eapply (save_all_candidates _ _ _ _ _ ps w0 h w2 [stored w0]) in Hs;
    [|eapply Forall_impl; [exact Hps|]; simpl; lia|by apply list_elem_of_singleton].
  rewrite Hl in Hs. apply candidates_from in Hs as [Hc%list_elem_of_singleton|(p & Hp & [= Hc])].
  - left. by eapply H0.
  - right. rewrite Hh in Hp. rewrite Forall_forall in Hps. specialize (Hps p Hp).
    rewrite Hc, parse_string in Eq by lia. by simplify_eq.
Qed.

(** Nor is it older than a position that is stored for sure. *)
Lemma start_not_before ps w0 h w2 last w3 f h1 p errs h2 :
  save_all ps w0 = (h, w2) → Forall (λ p, 0 < p < two64) ps → GetLastLSN w2 = (inr last, w3) →
  h = h1 ++ (p, errs) :: h2 → sure errs = true → (last = EmptyString → False) →
  start_position (inr last) f ∈ p :: h2.*1.
Proof using All.
  intros Hs Hps Hl -> Hsure Hne. apply found in Hl.
  pose proof (save_all_positions lsn_string connector appName ps w0) as Hh. rewrite Hs in Hh. simpl in Hh.
  eapply (save_all_candidates _ _ _ _ _ ps w0 _ w2 [stored w0]) in Hs;
    [|eapply Forall_impl; [exact Hps|]; simpl; lia|by apply list_elem_of_singleton].
  rewrite Hl in Hs. apply (candidates_sure _ _ _ _ _ _ _ _ Hsure) in Hs as (q & Hq & [= ->]).
  assert (q ∈ ps) as Hin by (rewrite <- Hh, fmap_app; set_solver).
  rewrite Forall_forall in Hps. specialize (Hps q Hin). unfold App.start_position.
  rewrite bool_decide_false by done. rewrite parse_string by lia. by rewrite bool_decide_false by lia.
Qed.

(** C1: a restart loses no row that was cached under its transaction's id.  Take
    one run of the replicator from a start position on, as for the positions it
    reports, in which the commit of a transaction has just arrived: its LSN (the
    end LSN of an ordinary transaction, the commit LSN of a streamed one) is
    beyond the start position, and the tracker, which is not stopping, has
    neither acknowledged a write there nor tracks one.  The rows spoken of are
    those whose changes are cached under the transaction's own id; changes that
    are streamed under the id of a subtransaction are not among them.  Let the
    run end at any moment after it, in whatever way.  The stores are written by
    this program alone: it has given them the positions of the run, each with an
    outcome of its own, and before the run they held none beyond its start
    position.  The next start reads the listener's position, and falls back on
    one that was reported to PostgreSQL or is not beyond the earlier start
    position.  When the replication then starts past the commit, each of these
    rows was confirmed by the writer or given up for good (or a write at this LSN
    was reported as empty); so a transaction with an open row is streamed again.
    And when the position could be read, the start is not before a position that
    was stored for sure. *)
Theorem restart_loses_nothing cfgs start evs acts r l m x lsn ct evs' acts' r2 l2 w0 h w2 last w3 f :
  0 ≤ start → rsteps evs acts (MustCreate start, NewListener cfgs (init cfg)) (r, l) →
  commits m l x lsn ct → cp_LSN (startPos start) < lsn →
  let cs := open_changes typeMap fmtv colOrder tableOrder lopts txOpts cfgs (pev_of <$> acts) x in
  fresh (request cs lsn x ct) (trk (lsnTracker l)) →
  rsteps evs' (AMsg m :: acts') (r, l) (r2, l2) →
  (∀ s q, stored w0 = Some s → ParseLSN s = Some q → q ≤ start) →
  Forall (λ p, 0 < p < two64) (saved r2) →
  save_all (saved r2) w0 = (h, w2) → GetLastLSN w2 = (last, w3) →
  f ≤ start ∨ f ∈ reported r2 →
  let q := start_position last f in
  (lsn < q → ∀ i k, dedup_last (ch_key <$> cs) !! i = Some k →
     justified cfg (env_events (acts ++ acts')) lsn (u32 (Z.of_nat i))) ∧
  (∀ s h1 p errs h2, last = inr s → s ≠ EmptyString → h = h1 ++ (p, errs) :: h2 → sure errs = true → q ∈ p :: h2.*1).
Proof using All.
  intros Hst H1 Hm Hlsn cs Hf H2 H0 Hps Hsave Hlast Hfall q. split.
  2:{ intros s h1 p errs h2 -> Hne Hh Hsure. by eapply start_not_before. }
  intros Hlt. assert (0 ≤ cp_LSN (startPos start) ∧ start ≤ cp_LSN (startPos start) + 1) as [Hs0 Hs1].
  { unfold startPos. case_bool_decide; simpl; lia. }
  assert (q ∈ reported r2 ∨ q ∈ saved r2) as Hq.
  { destruct (start_from_stored _ _ _ _ _ _ f start Hsave Hps H0 Hlast) as [Eq|[Eq|Eq]]; fold q in Eq; [|lia|by right].
    rewrite Eq in *. destruct Hfall; [lia|by left]. }
  pose proof (handed_on_acked enum SetTimer typeMap fmtv colOrder tableOrder lopts txOpts cfg Henum
    opts ParsePrimaryKeepaliveMessage ParseXLogData ParseV2 net_error cfgs start _ _ _ _ q Hst
    (rsteps_app enum SetTimer typeMap fmtv colOrder tableOrder lopts txOpts cfg Henum
       opts ParsePrimaryKeepaliveMessage ParseXLogData ParseV2 net_error _ _ _ _ _ _ _ H1 H2) Hq) as Hack.
  eapply (acked_commit_delivered enum SetTimer typeMap fmtv colOrder tableOrder lopts txOpts cfg Henum
    opts ParsePrimaryKeepaliveMessage ParseXLogData ParseV2 net_error); [exact H1|exact Hm|lia|exact Hf|exact H2|lia].
Qed.
End restart.
End Replication.

(** ** The snapshot *)

Module OneTime.
Import Stores Manager RedisPositions.

Section once.
Context {S} `{!KV S} (lsn_string : Z → string) (ParseLSN : string → option Z).
Context (is_duration : string → bool).
Context (content : S → gmap string string) `{!KVLaws S content}.

(** A call that does not save a snapshot's position of the program. *)
Definition leaves (appName : string) (o : op) : Prop :=
  match o with OSaveSnapshot a _ | OSnapshotSave a _ => a ≠ appName | _ => True end.

Lemma leaves_possible appName (rs : list (op * reply)) c :
  Forall (λ x, leaves appName x.1) rs → possible lsn_string (Listeners.snapshotLSNKey appName) rs c = c.
Proof using Type.
  clear. revert c. induction rs as [|[o r] rs IH]; intros c; [done|]. intros [Ho Hr]%Forall_cons. cbn [possible].
  rewrite IH by done. simpl in Ho.
  assert (∀ a, a ≠ appName → Listeners.snapshotLSNKey a ≠ Listeners.snapshotLSNKey appName) as Hk.
  { intros a Ha E. by apply Ha, snapshotLSNKey_inj. }
  destruct o; cbn [written]; try done; try (rewrite bool_decide_false by auto; done).
  case_bool_decide; [|done]. rewrite bool_decide_false; [done|]. intros E. by eapply snapshotLSNKey_not_lsn.
Qed.

Lemma run_ops_calls os (w : redisWriter S) : (run_ops lsn_string os w).1.*1 = os.
Proof using Type.
  clear. revert w. induction os as [|o os IH]; intros w; cbn [run_ops]; [done|]. destruct (do_op _ o w) as [r w1].
  specialize (IH w1). destruct (run_ops _ os w1). simpl in *. by f_equal.
Qed.

(** Once Redis has taken the position of a finished snapshot, whatever else the
    programs do with their keys (other programs' snapshots, the replication's
    positions, calls that fail): reading it back gives it or an error, and with
    the position the one-time snapshot is not run again; with an error the start
    does not stop, and the snapshot is run again. *)
Theorem snapshot_remembered appName lsn p os (w w1 w2 w3 : redisWriter S) rs answer config config' x :
  snapshot_SaveSnapshotLSN appName lsn w = (None, w1) →
  Forall (leaves appName) os → run_ops lsn_string os w1 = (rs, w2) →
  listener_GetSnapshotLSN appName w2 = (answer, w3) →
  lsn ≠ EmptyString → ParseLSN lsn = Some p → 0 < p →
  Mode config ≠ ModeNever → Validate is_duration config = Ok config' → Mode config' = ModeOneTime →
  match answer with
  | inr s => s = lsn ∧ (x_saved x = inr s → Execute lsn_string ParseLSN is_duration (Some config) x = (Ok (p, None), []))
  | inl _ => True
  end.
Proof using All.
  intros Hsave Hos Hrun Hget Hne Hp Hpos Hn Hv Hm. unfold snapshot_SaveSnapshotLSN, SaveSnapshotLSN in Hsave.
  eapply (set_kept content _ _ _ _ _ (Listeners.snapshotLSNKey appName) [_]) in Hsave; [|by apply list_elem_of_singleton].
  rewrite bool_decide_true in Hsave by done.
  pose proof (run_ops_calls os w1) as Hc. rewrite Hrun in Hc. simpl in Hc.
  eapply (run_ops_kept lsn_string content) in Hrun; [|exact Hsave]. rewrite leaves_possible in Hrun.
  2:{ rewrite <- Hc, Forall_fmap in Hos. exact Hos. }
  apply list_elem_of_singleton in Hrun. unfold listener_GetSnapshotLSN, GetSnapshotLSN in Hget.
  destruct (call _ w2) as [r w2'] eqn:E. apply (get_kept content) in E as [_ Hr].
  change ("pgwalk:snapshot_lsn:" +:+ appName) with (Listeners.snapshotLSNKey appName) in Hr.
  destruct r as [e|v].
  - destruct (errors_Is e Nil) eqn:En; injection Hget as <- _; [|done]. rewrite Hr in Hrun by done. done.
  - injection Hget as <- _. rewrite Hr in Hrun. injection Hrun as ->. split; [done|]. intros Hx. by eapply execute_again.
Qed.
End once.
End OneTime.

(** ** Concrete restarts *)

Module Samples.
Import Tracked Tracker TInv System TxList Collapse Tx Listener Refine Pipeline Stores RedisPositions Keepers Positions.Samples.

#[local] Instance kept_in_redis : PositionListener pg (redisWriter redis) := redis_positions LSN_String.
#[local] Instance kept_in_table : PositionListener pg unit := sqs_positions connector.

(** A new Redis and a new database, with what becomes of the calls. *)
Definition world (pg_fates redis_fates : list fate) : pg * redisWriter redis :=
  ((∅, pg_fates), mkRedisWriter (∅, redis_fates) None).
Definition start_of {X} (f : Z) (w : (goerr + string) * X) : Z := App.start_position ParseLSN w.1 f.
Notation saved_in := (save_all LSN_String connector "pg2redis").

(** The session of [ReplicatorSamples], with the position saved in Redis though
    the table could not be written: the next start is past the commit, and the
    row was delivered. *)
Lemma restart_loses_nothing_witness :
  start_of 1 (GetLastLSN (saved_in [101] (world [Lost] [])).2) = 101 ∧
  justified cfg (env_events ((outcome until_commit x_start).1 ++ tail (outcome after_commit x_commit).1)) 100 1.
Proof.
  split; [vm_compute; reflexivity|].
  eapply (Replication.restart_loses_nothing enum accepts types show cols_of tables_of opts no_tx cfg
           LSNSystem.Samples.enum_ok ropts parse_keepalive parse_xlog parse_v2 no_net
           connector "pg2redis" LSN_String ParseLSN (redis_stored fst) redis_sure (laws := redis_laws _ _ _ _) LSN_back cfgs 1
           until_commit (outcome until_commit x_start).1 x_commit.1 x_commit.2 (CommitMessage 100 3) 7 100 3
           after_commit (tail (outcome after_commit x_commit).1) x_done.1 x_done.2 (world [Lost] []))
    with (i := 1%nat) (k := "public.users:1") (f := 1).
  - lia.
  - rewrite <- surjective_pairing. exact (outcome_rsteps _ _ until_ran).
  - right. split; [reflexivity|]. split; [vm_compute; reflexivity|reflexivity].
  - reflexivity.
  - apply fresh_test_ok; [reflexivity|vm_compute; reflexivity].
  - rewrite <- after_acts, <- !surjective_pairing. exact (outcome_rsteps _ _ after_ran).
  - intros s q Hs. discriminate Hs.
  - rewrite (proj2 position_reported). apply Forall_singleton. unfold two64. lia.
  - rewrite (proj2 position_reported). apply surjective_pairing.
  - apply surjective_pairing.
  - left. lia.
  - vm_compute. reflexivity.
  - vm_compute. reflexivity.
Defined.

(** A save whose answer is lost counts all the same. *)
Example answer_lost :
  start_of 1 (GetLastLSN (saved_in [101; 250] (world [] [Fine; AnswerLost])).2) = 250 ∧
  start_of 1 (GetLastLSN (saved_in [101; 250] (world [] [Fine; Lost])).2) = 101.
Proof. vm_compute. done. Qed.

(** For SQS the position is that of the table. *)
Example sqs_restart :
  start_of 1 (GetLastLSN (save_all LSN_String connector "pg2sqs" [101; 250] ((∅, [Fine; Lost]) : pg, ())).2) = 101.
Proof. vm_compute. reflexivity. Qed.

(** The keys do not name the slot.  A program that has saved 100, beside a second
    one for another slot, starts at the position of the second. *)
Example programs_share_position :
  let save p w := (save_position (X := redisWriter redis) LSN_String connector "pg2redis" p w).2 in
  start_of 1 (GetLastLSN (save 500 (save 100 (world [] [])))) = 500.
Proof. vm_compute. reflexivity. Qed.

(** The one-time snapshot is run again when the saved position cannot be read. *)
Definition keep := snapshot_SaveSnapshotLSN "pg2redis" "0/9" (mkRedisWriter ((∅, [Fine; Lost]) : redis) None).
Example unreadable_position_runs_snapshot_again :
  keep.1 = None ∧
  let saved := (listener_GetSnapshotLSN "pg2redis" keep.2).1 in
  saved = inl network ∧ (listener_GetSnapshotLSN "pg2redis" (listener_GetSnapshotLSN "pg2redis" keep.2).2).1 = inr "0/9" ∧
  (Manager.Execute LSN_String ParseLSN (λ _, true) (Some SnapshotManager.Samples.config)
     (Manager.mkParts saved None (Some (Manager.mkSlotSnapshot 9 "snap")) (Manager.mkConn None None (inl network) (inl network))
        (λ _ _, Ok []) (λ _ _ _, None))) =
  (Ok (9, None), [Manager.CreateStateTable; Manager.SaveSnapshotLSN "0/9"; Manager.ShutdownListener; Manager.CloseState]).
Proof. vm_compute. done. Qed.

Lemma snapshot_remembered_witness :
  (listener_GetSnapshotLSN "pg2redis" (listener_SaveState LSN_String 70 keep.2).2).1 = inr "0/9" ∧
  ("0/9" = "0/9" ∧ ∀ x, Manager.x_saved x = inr "0/9" →
     Manager.Execute LSN_String ParseLSN (λ _, true) (Some SnapshotManager.Samples.config) x = (Ok (9, None), [])).
Proof.
  split; [vm_compute; reflexivity|]. split; [reflexivity|]. intros x Hx.
  refine (proj2 (OneTime.snapshot_remembered LSN_String ParseLSN (λ _, true) fst "pg2redis" "0/9" 9
     [OSaveState 70] (mkRedisWriter ((∅, [Fine; Lost]) : redis) None) keep.2 _ _ _ (inr "0/9") SnapshotManager.Samples.config
     SnapshotManager.Samples.config x _ _ eq_refl _ _ _ _ _ _ _) Hx).
  - reflexivity.
  - apply Forall_singleton. exact I.
  - vm_compute. reflexivity.
  - discriminate.
  - vm_compute. reflexivity.
  - lia.
  - discriminate.
  - vm_compute. reflexivity.
  - reflexivity.
Defined.
End Samples.
